(* ===== verification/_CoqProject ===== *)
-Q . S2P
Prelude.v
Uint256.v
ChainConfig.v
Header.v
HeaderRules.v
AccessList.v
RlpEncode.v
RlpTypes.v
RlpStream.v
RlpReading.v
RlpRaw.v
RlpScratch.v
RlpCodec.v
RlpDecoding.v
RlpRepr.v
RlpWriting.v
RlpTheorems.v
RlpTyped.v
StateModel.v
StateRevert.v
StateJournal.v
StateSnapshot.v
StateCommit.v
StateSound.v
StateBalance.v
StateTransition.v
TransitionTheorems.v
Voting.v
VotingFacts.v
VotingTheorems.v
Transaction.v
Heap.v
Prque.v
TxSortedMap.v
TxList.v
TxLookup.v
TxPool.v
TxTakes.v
TxPriced.v
TxPoolGrowth.v
TxPlaces.v
TxPoolInv.v
TxPoolMoves.v
TxPoolAdds.v
TxPoolCount.v
TxPoolLimits.v
TxPoolReorg.v
TxPoolTheorems.v
TxSchedule.v
Analysis.v
EvmMemory.v
Words.v
EvmGas.v
Instructions.v
JumpTable.v
Interpreter.v
CreateAddresses.v
InterpreterGas.v
InstructionSets.v
InterpreterEnds.v
EvmSafe.v
InstructionsSafe.v
SetsSafe.v
MachineSafe.v
EvmStorage.v
