(* ===== verification/Prelude.v ===== *)
(** * N42-go: a verification library

    This library models the execution, consensus, encoding and transaction-pool
    core of the N42 node and proves what makes it correct.

    ** The program

    A node of the N42 chain imports blocks sealed by a set of authorized
    signers.  The consensus engine ([internal/consensus/apos], [apoa]) checks
    the header of a block: its seal against the authorization snapshot the
    signers vote on, its gas limit and base fee against the parent.  The chain
    configuration ([params]) says which rules are active at which height, the
    fork choice ([internal/forkchoice.go]) which of two chains to follow.  The
    transactions of a block are executed one after the other: the state
    transition ([internal/state_transition.go]) checks and charges the sender,
    calls the virtual machine ([internal/vm]), returns unused gas and pays the
    fees, all on the intra-block state ([modules/state]), a cache of accounts
    in front of the database that journals its changes so that a failing call
    can be undone.  Finalising a transaction and committing the block hand the
    changes to a writer.  Transactions wait for inclusion in the transaction
    pool ([internal/txspool]), in nonce-sorted lists per account: those that can
    be executed are pending, the others queued, a lookup finds them by hash, two
    price heaps say which remote ones to drop when the pool is full, and after
    every new head a reorg in the background moves them between the lists and
    cuts the lists to their limits.  What is hashed,
    stored or sent is encoded as RLP ([internal/avm/rlp]), by writers and decoders
    that are chosen from the Go type of a value.

    ** The files

    - [Prelude]: machine integers of 64 bits with wrapping operators ([+u],
      [-u], [*u]), byte strings, the [outcome] monad of calls that return, fail
      or panic, Go's map iteration in any order ([MapRange]), [sort.Search],
      the tactics and the hint database [n42].
    - [Uint256]: the third-party 256-bit integers as a class with the laws of
      their documentation, and a concrete instance.
    - [ChainConfig]: [params/config.go].
    - [Header], [HeaderRules]: [common/block/header.go], the gas limit and
      EIP-1559 rules of [internal/consensus/misc], [internal/miner/gasLimit.go],
      the header [internal/miner/worker.go] prepares, [internal/forkchoice.go].
    - [AccessList]: [modules/state/access_list.go].
    - [RlpEncode], [RlpTypes], [RlpStream], [RlpCodec], [RlpScratch]:
      [internal/avm/rlp].  [RlpEncode] has the buffer [encbuf] of [encode.go] and
      its outputs; [RlpTypes] Go types, values and struct tags ([typecache.go]);
      [RlpStream] the input [Stream] of [decode.go], [raw.go] and [iterator.go];
      [RlpCodec] the decoders and writers and the choice among them;
      [RlpScratch] the encoders of [encode.go] that use a lent buffer.
    - [RlpReading], [RlpRaw], [RlpDecoding], [RlpRepr], [RlpWriting],
      [RlpTheorems], [RlpTyped]: what the stream reads, what a slice splits
      into, what a decoder reads, which items a value of a type stands for
      ([repr]), what the writers write, that the two are inverse, and that
      decoding respects types.
    - [StateModel]: [modules/state/state_object.go], [journal.go],
      [intra_block_state.go], [entire.go]: the record [IntraBlockState] has the
      fields of the struct, every method is a function on it.
    - [StateRevert], [StateJournal], [StateSnapshot]: reverting.
    - [StateCommit], [StateBalance]: finalising and committing; balances.
    - [StateSound]: the states in which no operation of the machine fails.
    - [StateTransition], [TransitionTheorems]: [common/gaspool.go] and
      [internal/state_transition.go].
    - [Voting], [VotingFacts], [VotingTheorems]:
      [internal/consensus/apos/snapshot.go], with the seal check of [apos.go].
    - [Transaction]: [common/transaction].
    - [Heap]: Go's [container/heap].
    - [Prque]: [common/prque]; the block-based stack [sstack] and the priority
      queue on it.
    - [TxSortedMap], [TxList], [TxLookup]: [internal/txspool/txs_list.go]; the
      map of one account, its list, and the lookup, account set and priced list
      of the pool.
    - [TxPool]: [internal/txspool/txs_pool.go], [tx_noncer.go]; the record
      [TxsPool] has the fields of the struct that its methods use, every method
      is a computation in the state monad [M] of the pool.
    - [TxTakes], [TxPriced], [TxPoolGrowth], [TxPlaces]: what the operations of
      a list take out of it ([takes]), that the price heaps cover the remote
      transactions, by how much a method can grow the lookup, and the abstract
      invariant of where transactions are ([placed]).
    - [TxPoolInv], [TxPoolMoves], [TxPoolAdds], [TxPoolCount], [TxPoolLimits],
      [TxPoolReorg]: the invariant of the pool ([pool_ok]), with a weakest
      precondition ([runs]) in which every method is shown to keep it: promoting
      and demoting, adding and removing, counting, the limits, and a reorg.
    - [TxPoolTheorems]: sequences of calls to the pool, and what holds in every
      pool they reach.
    - [TxSchedule]: [scheduleLoop] of [txs_pool.go], as a machine that receives
      messages, and the batches of requests it implements.
    - [Analysis]: [internal/vm/analysis.go] and the jump check of [contract.go].
    - [EvmMemory]: [internal/vm/stack], [memory.go], [memory_table.go],
      [common.go], [gas.go].
    - [Words]: the operations of the 256-bit integers that only the machine
      uses, as a class, and a concrete instance.
    - [EvmGas]: [internal/vm/gas_table.go], [operations_acl.go], with the state
      [vm] of a running frame and the monad [vmM] of everything below.
    - [Instructions]: [internal/vm/instructions.go], [eips.go]; a function per
      instruction.
    - [JumpTable]: [internal/vm/jump_table.go], [eips.go]; a table per fork.
    - [Interpreter]: [internal/vm/interpreter.go] ([Run]) and [evm.go] ([call],
      [create] and their variants).
    - [CreateAddresses]: what the address of a new contract is hashed from.
    - [InterpreterGas], [InstructionSets], [InterpreterEnds], [EvmStorage]: what
      instructions cost, that the machine ends, what stores cost.
    - [EvmSafe], [InstructionsSafe], [SetsSafe], [MachineSafe]: that the machine
      does not panic, by instruction, by table and as a whole.

    Components meet at classes: [Uint256] and [StateEnv] (third-party
    arithmetic and hashing), [Uint256Ops] (the arithmetic of instructions), [VMInterface] (what the state transition relies on
    in the virtual machine), [HeaderCrypto] (header hashes and seal recovery),
    [MapRange] (the order Go visits a map in), [TxHasher] (the hash of a
    transaction) and [PoolEnv] (the chain, the clock and the deposit contract
    that the pool was given).  Theorems are proved against
    the class, and the witnesses instantiate it.

    ** What the theorems show

    - State ([StateSnapshot], [StateCommit], [StateBalance], [AccessList]):
      whatever runs between a snapshot and its revert, with snapshots nested in
      any way, the revert succeeds and every read returns what it returned at
      the snapshot; finalising a transaction leaves a state ready for the next
      one and hands the writer exactly the right calls; balances behave like a
      map although increases of unread accounts are kept aside; the access list
      implements a map of sets and its deletions undo its additions.
    - Transition ([StateTransition], [TransitionTheorems]): the intrinsic gas
      is the exact sum or an overflow error; gas is conserved between message,
      refund and block pool; who pays and who receives which fee.
    - Consensus ([VotingTheorems]): votes, tally and recent signers stay
      consistent; the signers change only by a strict majority; a signer seals
      at most one block per window; exactly one signer is in turn; checking a
      seal agrees with replaying the header.
    - Headers and configuration ([HeaderRules], [ChainConfig]): the base fee is
      a bounded controller; a prepared header passes the checks; the fork
      choice follows total difficulty; fork schedules nest; the compatibility
      check terminates and is sound.
    - Encoding ([RlpTheorems], [RlpRaw], [RlpScratch], [CreateAddresses]): what
      is encoded decodes to itself; what decodes is the only encoding of its
      value; decoding returns for all bytes; bytes after a value are refused;
      every output gives the same bytes; splitting, counting and the iterator
      follow the format; the encoders with a lent buffer write it; two creations
      hash the same bytes only for the same creator and nonce; what decoding
      stores has the type it is stored in ([RlpTyped]).
    - Machine ([Analysis], [EvmMemory], [EvmStorage], [InterpreterEnds],
      [MachineSafe]): jumps land exactly on instructions; memory is paid for
      once and accesses stay inside it; a call gets at most all but one 64th of
      the gas; stores to a slot cost what the change from the first to the last
      value costs; every run ends, with at most the gas it was given, and in a
      sound state without a panic.
    - Pool ([TxSortedMap], [TxList], [Transaction]): a list of transactions
      behaves like a map of nonces, keeps its nonces consecutive, removes
      exactly what an account cannot afford and replaces a transaction only for
      a sufficient price bump; a message's price splits into base fee and tip.
    - Pool as a whole ([TxPoolTheorems], [TxSchedule]): through every sequence
      of calls, with the database changing in between, every transaction the
      lookup knows is in exactly one list, the priced list covers the remote
      ones, and no call panics or hangs; [Content], [GetTx] and [Stats] agree; a
      reorg ends within the limits of the configuration, and cuts only accounts
      that have more than their share, at the end of their lists; what adding a transaction does in every
      case; every request to the schedule loop is served by exactly one run.
    - Priority queue ([Prque]): it behaves like a bag that gives the highest
      priority first, and the indices it reports are those of the items.

    Some lemmas record where the code departs from its intent; they are named
    in the doc comments above them ([unread_AddBalance_survives_revert],
    [selfdestruct_revert_loses_created], [verifySeal_early_window],
    [preLondon_header_rejected], [Petersburg_Beijing_undetected],
    [AccessListTx_copy_panics], [EffectiveGasTip_overstates],
    [rlp_byte1_slice_diverges], [EncodeBigInt_long],
    [IsInvalidRLPError_overflow], [cost_wraps_unfunded],
    [reset_promotes_late], [reorg_leaves_gap], [Reset_keeps_indices],
    [Reset_loses_wrapAround]).

    ** Bounds and fuel

    Functions are structural wherever the code loops over a slice.  Fuel is
    used by [compat_loop] (21 rounds: every round but the last moves the height
    below one of the 20 compared forks), [search_loop] (one more than the
    length searched, which halves every round), the sift loops of [Heap] and [Prque]
    (the index or the length), and the loops of [TxSortedMap] that pop the heap (its
    length) or cut it (one more than its size), [bitmap_loop] (the length of
    the code), [Run] (1025 nested frames: the interpreter refuses depth 1026)
    and [loop] (one round more than the gas of the frame, since a round that
    goes on costs gas), [CountValues_loop] (the length of the slice, since every
    value takes a byte), [Read_loop] (two rounds per list header and three more),
    and the decoders (one more than the bytes that are left bounds the elements
    of a list and the depth of nested lists).  In the pool, [dropStale] has
    the length of the heap it pops, [Discard_loop] twice the length of one heap
    and once that of the other, [equalize] the length
    of the list it shortens every round, [spammers_loop] the length of its
    queue, [descend] and [meet] the numbers of the blocks they walk down
    from.  The one loop that has no bound is
    in [rlp_byte1_slice_diverges].  Each other is proved to be enough by
    the theorem on the function that uses it: the result is shown to exist, not
    assumed.

    ** What is not modelled

    Networking, RPC, databases, key management, the command line, and
    cryptographic primitives (signatures, hashes, pairings) are input, output
    or third-party code; they appear as class arguments where modelled code
    calls them; the precompiled contracts are one of them.  Tracing, metrics and
    logging have no effect on the modelled state.  Locks are left out: the
    modelled methods run under the lock of their object.  Of the pool, the
    goroutines that watch for new heads and fetch transactions, the end of the
    schedule loop, and the events sent for local transactions are left out;
    [addTxs] filters known transactions before it takes the lock, and is
    modelled as if it had it.  The state that the pool reads may change between
    any two calls, but not during one.  The control-flow proofs of [internal/vm]
    are an offline tool.  Block import, the download of blocks and the miner's
    assembly of blocks are concurrent drivers around the modelled parts.  Of RLP, types with
    their own [EncodeRLP] or [DecodeRLP], recursive types, the type cache,
    readers other than a byte slice, and decoding over a value that is there
    already are left out. *)

From stdpp Require Export base numbers list gmap sorting strings.
From Stdlib Require Export ZArith Lia Bool.

#[global] Open Scope Z_scope.

(** ** Automation shared by the development *)

Create HintDb n42.
#[export] Hint Extern 1 (_ = _) => congruence : n42.

(** Case split on the first [match]/[if] scrutinee found in the goal. *)
Ltac case_goal :=
  match goal with
  | |- context [match ?x with _ => _ end] => destruct x eqn:?
  end.

(** Case split on the first scrutinee found in hypothesis [H]. *)
Ltac case_hyp H :=
  match type of H with
  | context [match ?x with _ => _ end] => destruct x eqn:?
  end.

(** Break a hypothesis [H : ... = Some _] along all its branches. *)
Ltac run H := repeat (case_hyp H; simplify_eq/=); simplify_eq/=.

(** Turn boolean comparisons on [Z] into propositions. *)
Ltac zbool :=
  repeat match goal with
  | H : (_ <? _) = true |- _ => apply Z.ltb_lt in H
  | H : (_ <? _) = false |- _ => apply Z.ltb_ge in H
  | H : (_ <=? _) = true |- _ => apply Z.leb_le in H
  | H : (_ <=? _) = false |- _ => apply Z.leb_gt in H
  | H : (_ =? _) = true |- _ => apply Z.eqb_eq in H
  | H : (_ =? _) = false |- _ => apply Z.eqb_neq in H
  end.

(** ** Machine integers

    A Go [uint64] is a [Z] in [0, 2^64); the arithmetic operators wrap. *)

Notation "'two64'" := (18446744073709551616) (only parsing).
Definition MaxUint64 : Z := 18446744073709551615.
Definition u64 (z : Z) : Z := z mod two64.
Definition add64 (x y : Z) : Z := u64 (x + y).
Definition sub64 (x y : Z) : Z := u64 (x - y).
Definition mul64 (x y : Z) : Z := u64 (x * y).
Definition in_u64 (x : Z) : Prop := 0 <= x < two64.

Declare Scope go_scope.
Delimit Scope go_scope with go.
Infix "+u" := add64 (at level 50, left associativity) : go_scope.
Infix "-u" := sub64 (at level 50, left associativity) : go_scope.
Infix "*u" := mul64 (at level 40, left associativity) : go_scope.
#[global] Open Scope go_scope.

(** A Go [int64] conversion of a [uint64]. *)
Definition int64 (z : Z) : Z :=
  let r := u64 z in if r <? 9223372036854775808 then r else r - two64.

Lemma u64_range z : in_u64 (u64 z).
Proof. apply Z.mod_pos_bound. lia. Qed.

Lemma u64_small z : in_u64 z -> u64 z = z.
Proof. apply Z.mod_small. Qed.

Lemma add64_small x y : in_u64 (x + y) -> x +u y = x + y.
Proof. apply u64_small. Qed.

Lemma sub64_small x y : in_u64 (x - y) -> x -u y = x - y.
Proof. apply u64_small. Qed.

Lemma mul64_small x y : in_u64 (x * y) -> x *u y = x * y.
Proof. apply u64_small. Qed.

Lemma add64_range x y : in_u64 (x +u y).
Proof. apply u64_range. Qed.

Lemma sub64_range x y : in_u64 (x -u y).
Proof. apply u64_range. Qed.

Lemma mul64_range x y : in_u64 (x *u y).
Proof. apply u64_range. Qed.

#[export] Hint Resolve u64_range add64_range sub64_range mul64_range : n42.

(** Simplify wrapping arithmetic whose result fits. *)
Ltac u64_norm :=
  repeat first
    [ rewrite add64_small by (unfold in_u64 in *; lia)
    | rewrite sub64_small by (unfold in_u64 in *; lia)
    | rewrite mul64_small by (unfold in_u64 in *; lia)
    | rewrite u64_small by (unfold in_u64 in *; lia) ].

(** ** Bytes: big-endian byte strings as lists of [Z] in [0, 256) *)

Fixpoint be_bytes (n : nat) (z : Z) : list Z :=
  match n with
  | O => []
  | S n' => be_bytes n' (z / 256) ++ [z mod 256]
  end.

Definition be_val (l : list Z) : Z := fold_left (fun acc b => acc * 256 + b) l 0.

Lemma be_bytes_length n z : length (be_bytes n z) = n.
Proof. revert z; induction n; intros; simpl; [done|]. rewrite length_app, IHn. simpl. lia. Qed.

Lemma be_val_app l b : be_val (l ++ [b]) = be_val l * 256 + b.
Proof. unfold be_val. by rewrite fold_left_app. Qed.

Lemma be_val_bytes n z : 0 <= z -> be_val (be_bytes n z) = z mod 256 ^ Z.of_nat n.
Proof.
  revert z; induction n as [|n IH]; intros z Hz.
  { simpl. by rewrite Z.mod_1_r. }
  cbn [be_bytes]. rewrite be_val_app, IH by (apply Z.div_pos; lia).
  replace (Z.of_nat (S n)) with (1 + Z.of_nat n) by lia.
  rewrite Z.pow_add_r, Z.pow_1_r by lia.
  rewrite Z.rem_mul_r by lia. lia.
Qed.

(** ** Addresses and hashes: [types.Address] is a 160-bit and [types.Hash] a
    256-bit big-endian value, so [bytes.Compare] is the order of [Z] *)

Abbreviation Address := Z (only parsing).
Abbreviation Hash := Z (only parsing).

(** A Go [error] that is not nil carries its message. *)
Abbreviation error := string (only parsing).

(** ** Outcomes: a Go call returns a value, returns an error, or panics *)

Inductive outcome (A : Type) : Type :=
| Ok (a : A)
| Err (e : error)
| Panic.
Arguments Ok {A} a.
Arguments Err {A} e.
Arguments Panic {A}.

#[export] Instance outcome_eq_dec `{EqDecision A} : EqDecision (outcome A).
Proof. solve_decision. Defined.

#[export] Instance outcome_ret : MRet outcome := fun A a => Ok a.
#[export] Instance outcome_bind : MBind outcome := fun A B f m =>
  match m with Ok a => f a | Err e => Err e | Panic => Panic end.

(** [if b { return err }] *)
Definition fail_if (b : bool) (e : error) : outcome unit := if b then Err e else Ok tt.

(** An operation of the runtime that panics where it has no value. *)
Definition or_panic {A} (o : option A) : outcome A := match o with Some a => Ok a | None => Panic end.

Lemma bind_Ok {A B} (m : outcome A) (f : A -> outcome B) b :
  m ≫= f = Ok b <-> exists a, m = Ok a /\ f a = Ok b.
Proof. split; [|intros (a & -> & H); exact H]. destruct m as [a| |]; [by exists a| |]; done. Qed.

Lemma fail_if_Ok b e u : fail_if b e = Ok u <-> b = false.
Proof. destruct b, u; done. Qed.

(** ** Slices and option helpers *)

(** Go's [append] on a map entry of slice type reads the missing key as nil. *)
Abbreviation from_nil := (default []).

Lemma filter_all {A} (P : A -> Prop) `{!forall x, Decision (P x)} (l : list A) :
  (forall x, x ∈ l -> P x) -> filter P l = l.
Proof.
  induction l as [|x l IH]; intros Hall; [done|].
  rewrite filter_cons, decide_True by (apply Hall; by left).
  f_equal. apply IH. intros y Hy. apply Hall. by right.
Qed.

Lemma filter_none {A} (P : A -> Prop) `{!forall x, Decision (P x)} (l : list A) :
  (forall x, x ∈ l -> ~ P x) -> filter P l = [].
Proof.
  induction l as [|x l IH]; intros Hall; [done|].
  rewrite filter_cons, decide_False by (apply Hall; by left).
  apply IH. intros y Hy. apply Hall. by right.
Qed.

Lemma filter_ext_elem {A} (P Q : A -> Prop) `{!forall x, Decision (P x)} `{!forall x, Decision (Q x)} (l : list A) :
  (forall x, x ∈ l -> P x <-> Q x) -> filter P l = filter Q l.
Proof.
  induction l as [|x l IH]; intros Hall; [done|].
  rewrite !filter_cons, IH by (intros; apply Hall; by right).
  assert (P x <-> Q x) by (apply Hall; by left). repeat case_decide; tauto.
Qed.

Lemma NoDup_fmap_filter {A B} (f : A -> B) (P : A -> Prop) `{!forall x, Decision (P x)} (l : list A) :
  NoDup (f <$> l) -> NoDup (f <$> filter P l).
Proof. intros Hnd. eapply sublist_NoDup; [exact Hnd|]. apply fmap_sublist, sublist_filter. Qed.

(** ** Go's [sort.Search]: the smallest index in [0, n) where [f] is true, [n] if none *)

Fixpoint search_loop (fuel : nat) (i j : nat) (f : nat -> bool) : nat :=
  match fuel with
  | O => i
  | S fuel' =>
      if (i <? j)%nat then
        let h := Nat.div2 (i + j) in
        if f h then search_loop fuel' i h f else search_loop fuel' (S h) j f
      else i
  end.

Definition sort_Search (n : nat) (f : nat -> bool) : nat := search_loop (S n) 0 n f.

Lemma search_loop_spec fuel i j f :
  (j < i + fuel)%nat -> (i <= j)%nat ->
  (forall a b, (a <= b)%nat -> f a = true -> f b = true) ->
  (forall k, (k < i)%nat -> f k = false) ->
  (forall k, (j <= k)%nat -> f j = true -> f k = true) ->
  let r := search_loop fuel i j f in
  (i <= r <= j)%nat /\ (forall k, (k < r)%nat -> f k = false) /\ (r = j \/ f r = true).
Proof.
  revert i j. induction fuel as [|fuel IH]; intros i j Hf Hij Hmono Hlo Hhi; [lia|].
  cbn [search_loop]. destruct (Nat.ltb_spec i j) as [Hlt|Hge].
  2: { replace j with i by lia. split; [lia|]. split; [done|by left]. }
  set (h := Nat.div2 (i + j)).
  assert (i <= h < j)%nat as Hh.
  { subst h. rewrite Nat.div2_div.
    split; [apply Nat.div_le_lower_bound; lia|apply Nat.Div0.div_lt_upper_bound; lia]. }
  destruct (f h) eqn:Efh.
  - destruct (IH i h) as (Hr & Hk & Hd); try lia; auto.
    { intros k Hk _. by apply (Hmono h). }
    split; [lia|]. split; [done|]. destruct Hd as [->|]; auto.
  - destruct (IH (S h) j) as (Hr & Hk & Hd); try lia; auto.
    { intros k Hk. destruct (f k) eqn:E; [|done].
      rewrite (Hmono k h) in Efh by (lia || done). done. }
    split; [lia|]. split; auto.
Qed.

(** The index [sort.Search] returns separates the false prefix from the true suffix. *)
Lemma sort_Search_spec n f :
  (forall a b, (a <= b)%nat -> f a = true -> f b = true) ->
  let r := sort_Search n f in
  (r <= n)%nat /\ (forall k, (k < r)%nat -> f k = false) /\ (r = n \/ f r = true).
Proof.
  intros Hmono. destruct (search_loop_spec (S n) 0 n f) as (H1 & H2 & H3); try lia; auto.
  { intros k Hk; apply Hmono; lia. }
  split_and!; auto. unfold sort_Search. lia.
Qed.

(** ** Go map iteration

    A [range] over a map visits every entry exactly once in an order the
    language leaves unspecified.  Code that ranges over a map takes the order
    as a class argument, so that its theorems hold for every order. *)

Class MapRange := {
  range : forall {K V : Type} {E : EqDecision K} {C : Countable K}, gmap K V -> list (K * V);
  range_perm : forall {K V : Type} {E : EqDecision K} {C : Countable K} (m : gmap K V),
    range m ≡ₚ map_to_list m
}.

(** The canonical order of [map_to_list], used by the witnesses. *)
Definition canonical_range : MapRange :=
  {| range := fun K V E C m => map_to_list m;
     range_perm := fun K V E C m => reflexivity _ |}.

(** Filling a fresh map by ranging over [m] copies [m]. *)
Lemma range_copy `{MapRange} `{Countable K} {V} (m : gmap K V) :
  foldl (fun acc kv => <[kv.1 := kv.2]> acc) ∅ (range m) = m.
Proof.
  enough (forall l (acc : gmap K V), NoDup l.*1 -> (forall k, k ∈ l.*1 -> acc !! k = None) ->
    foldl (fun acc (kv : K * V) => <[kv.1 := kv.2]> acc) acc l = (list_to_map l : gmap K V) ∪ acc) as Hg.
  { rewrite Hg; [|rewrite range_perm; apply NoDup_fst_map_to_list|intros; apply lookup_empty].
    rewrite (right_id_L ∅ (∪)).
    rewrite (list_to_map_proper (range m) (map_to_list m));
      [apply list_to_map_to_list| |apply range_perm].
    rewrite range_perm. apply NoDup_fst_map_to_list. }
  induction l as [|[k v] l IH]; intros acc Hnd Hfr; simpl; [by rewrite (left_id_L ∅ (∪))|].
  inv Hnd. rewrite IH; [|done|].
  - apply map_eq; intros i. rewrite !lookup_union, !lookup_insert.
    case_decide; subst; [|done].
    rewrite (not_elem_of_list_to_map_1 l i) by done.
    by rewrite (Hfr i) by (simpl; set_solver).
  - intros i Hi. rewrite lookup_insert_ne by (simpl; set_solver). apply Hfr. set_solver.
Qed.

Lemma elem_of_range `{MapRange} `{Countable K} {V} (m : gmap K V) k v :
  (k, v) ∈ range m <-> m !! k = Some v.
Proof. rewrite range_perm. apply elem_of_map_to_list. Qed.

Lemma NoDup_range_fst `{MapRange} `{Countable K} {V} (m : gmap K V) : NoDup (range m).*1.
Proof. rewrite range_perm. apply NoDup_fst_map_to_list. Qed.

#[export] Hint Resolve NoDup_range_fst : n42.
