(* ===== verification/Uint256.v ===== *)
(** * Uint256: the contract of [github.com/holiman/uint256]

    The 256-bit integer package is third-party code, so the development takes
    it as a class argument: a carrier [u256], the value [uval] of a number and
    the operations the sources call, each with the law its documentation
    states.  Balances, stack words, fees and storage values have this type.
    [bits_Uint256] is a concrete instance over the Standard Library's [bits],
    which the witnesses evaluate. *)

From S2P Require Import Prelude.
From Stdlib Require Import Zmod.

Definition two256 : Z := 2 ^ 256.
Definition in_u256 (z : Z) : Prop := 0 <= z < two256.

(** The two's complement reading of a 256-bit value. *)
Definition sint (z : Z) : Z := if z <? 2 ^ 255 then z else z - two256.

Class Uint256 := {
  u256 : Type;
  u256_eq_dec :: EqDecision u256;
  uval : u256 -> Z;
  uval_range : forall x, in_u256 (uval x);
  uval_inj : forall x y, uval x = uval y -> x = y;

  (** [new(uint256.Int).SetUint64(z)], [uint256.NewInt(z)] *)
  uSetUint64 : Z -> u256;
  uSetUint64_spec : forall z, in_u64 z -> uval (uSetUint64 z) = z;
  (** [FromBig]: the low 256 bits and whether the number needs more *)
  uFromBig : Z -> u256 * bool;
  uFromBig_spec : forall z, 0 <= z ->
    uval (uFromBig z).1 = z mod two256 /\ (uFromBig z).2 = (two256 <=? z);
  (** [SetBytes]: big-endian; more than 32 bytes keep the last 32 *)
  uSetBytes : list Z -> u256;
  uSetBytes_spec : forall l, Forall (fun b => 0 <= b < 256) l ->
    uval (uSetBytes l) = be_val l mod two256;
  uAdd : u256 -> u256 -> u256;
  uAdd_spec : forall x y, uval (uAdd x y) = (uval x + uval y) mod two256;
  uSub : u256 -> u256 -> u256;
  uSub_spec : forall x y, uval (uSub x y) = (uval x - uval y) mod two256;
  uMul : u256 -> u256 -> u256;
  uMul_spec : forall x y, uval (uMul x y) = (uval x * uval y) mod two256;
  uDiv : u256 -> u256 -> u256;
  uDiv_spec : forall x y, uval (uDiv x y) = if uval y =? 0 then 0 else uval x / uval y;
  (** [MulOverflow] and [AddOverflow]: the wrapped result and whether it wrapped *)
  uMulOverflow : u256 -> u256 -> u256 * bool;
  uMulOverflow_spec : forall x y,
    uMulOverflow x y = (uMul x y, two256 <=? uval x * uval y);
  uAddOverflow : u256 -> u256 -> u256 * bool;
  uAddOverflow_spec : forall x y,
    uAddOverflow x y = (uAdd x y, two256 <=? uval x + uval y)
}.

Section Uint256_derived.
Context `{U : Uint256}.

Definition uzero : u256 := uSetUint64 0.
Definition uIsZero (x : u256) : bool := uval x =? 0.
Definition uLt (x y : u256) : bool := uval x <? uval y.
Definition uGt (x y : u256) : bool := uval y <? uval x.
Definition uIsUint64 (x : u256) : bool := uval x <? two64.
Definition uUint64 (x : u256) : Z := u64 (uval x).
(** [Uint64WithOverflow]: the low limb and whether the number needs more. *)
Definition uUint64WithOverflow (x : u256) : Z * bool := (uUint64 x, negb (uIsUint64 x)).

Lemma uval_zero : uval uzero = 0.
Proof. apply uSetUint64_spec. unfold in_u64; lia. Qed.

Lemma uval_nonneg x : 0 <= uval x.
Proof. apply uval_range. Qed.

Lemma uIsZero_true x : uIsZero x = true <-> x = uzero.
Proof.
  unfold uIsZero. rewrite Z.eqb_eq, <- uval_zero.
  split; [apply uval_inj|by intros ->].
Qed.

Lemma uAdd_small x y : uval x + uval y < two256 -> uval (uAdd x y) = uval x + uval y.
Proof.
  intros. rewrite uAdd_spec. apply Z.mod_small.
  pose proof (uval_nonneg x); pose proof (uval_nonneg y). lia.
Qed.

Lemma uSub_small x y : uval y <= uval x -> uval (uSub x y) = uval x - uval y.
Proof.
  intros. rewrite uSub_spec. apply Z.mod_small.
  pose proof (uval_range x) as [??]; pose proof (uval_nonneg y). lia.
Qed.

Lemma uMul_small x y : uval x * uval y < two256 -> uval (uMul x y) = uval x * uval y.
Proof.
  intros. rewrite uMul_spec. apply Z.mod_small.
  pose proof (uval_nonneg x); pose proof (uval_nonneg y). split; [nia|lia].
Qed.

Lemma uSub_uAdd x y : uSub (uAdd x y) y = x.
Proof.
  apply uval_inj. rewrite uSub_spec, uAdd_spec, Zminus_mod_idemp_l.
  replace (uval x + uval y - uval y) with (uval x) by lia.
  apply Z.mod_small, uval_range.
Qed.

Lemma uAdd_0_r x : uAdd x uzero = x.
Proof.
  apply uval_inj. rewrite uAdd_spec, uval_zero, Z.add_0_r.
  apply Z.mod_small, uval_range.
Qed.

Lemma uAdd_comm x y : uAdd x y = uAdd y x.
Proof. apply uval_inj. by rewrite !uAdd_spec, Z.add_comm. Qed.

Lemma uAdd_assoc x y z : uAdd x (uAdd y z) = uAdd (uAdd x y) z.
Proof.
  apply uval_inj. rewrite !uAdd_spec, Zplus_mod_idemp_l, Zplus_mod_idemp_r. f_equal. lia.
Qed.

Lemma uAdd_0_l x : uAdd uzero x = x.
Proof. by rewrite uAdd_comm, uAdd_0_r. Qed.

End Uint256_derived.

Create Rewrite HintDb u256.
#[export] Hint Rewrite @uval_zero @uSub_uAdd @uAdd_0_r : u256.

(** ** A concrete instance *)

Definition bv (z : Z) : bits 256 := bits.of_Z 256 z.

Lemma two256_pos : 0 < two256.
Proof. reflexivity. Qed.

Lemma bv_unsigned z : Zmod.unsigned (bv z) = z mod two256.
Proof. apply Zmod.unsigned_of_Z. Qed.

Lemma bits256_range (x : bits 256) : in_u256 (Zmod.unsigned x).
Proof. apply Zmod.unsigned_pos_bound. reflexivity. Qed.

Lemma bv_small z : in_u256 z -> Zmod.unsigned (bv z) = z.
Proof. intros. rewrite bv_unsigned. by apply Z.mod_small. Qed.

#[export] Instance bits256_eq_dec : EqDecision (bits 256).
Proof.
  intros x y. destruct (decide (Zmod.unsigned x = Zmod.unsigned y)) as [H|H].
  - left. by apply Zmod.unsigned_inj.
  - right. congruence.
Defined.

Lemma bits256_div_range (x y : bits 256) :
  in_u256 (if Zmod.unsigned y =? 0 then 0 else Zmod.unsigned x / Zmod.unsigned y).
Proof.
  pose proof (bits256_range x) as [??]; pose proof (bits256_range y) as [??].
  unfold in_u256. destruct (Z.eqb_spec (Zmod.unsigned y) 0); [pose proof two256_pos; lia|].
  split; [apply Z.div_pos; lia|].
  apply Z.div_lt_upper_bound; nia.
Qed.

Program Definition bits_Uint256 : Uint256 := {|
  u256 := bits 256;
  uval := Zmod.unsigned;
  uSetUint64 := bv;
  uFromBig z := (bv z, two256 <=? z);
  uSetBytes l := bv (be_val l);
  uAdd x y := bv (Zmod.unsigned x + Zmod.unsigned y);
  uSub x y := bv (Zmod.unsigned x - Zmod.unsigned y);
  uMul x y := bv (Zmod.unsigned x * Zmod.unsigned y);
  uDiv x y := bv (if Zmod.unsigned y =? 0 then 0 else Zmod.unsigned x / Zmod.unsigned y);
  uMulOverflow x y := (bv (Zmod.unsigned x * Zmod.unsigned y),
                       two256 <=? Zmod.unsigned x * Zmod.unsigned y);
  uAddOverflow x y := (bv (Zmod.unsigned x + Zmod.unsigned y),
                       two256 <=? Zmod.unsigned x + Zmod.unsigned y)
|}.
Next Obligation. intros; apply bits256_range. Qed.
Next Obligation. intros; by apply Zmod.unsigned_inj. Qed.
Next Obligation. intros z [??]. apply bv_small. unfold in_u256, two256. lia. Qed.
Next Obligation. intros z Hz. split; [apply bv_unsigned|done]. Qed.
Next Obligation. intros; apply bv_unsigned. Qed.
Next Obligation. intros; apply bv_unsigned. Qed.
Next Obligation. intros; apply bv_unsigned. Qed.
Next Obligation. intros; apply bv_unsigned. Qed.
Next Obligation. intros; apply bv_small, bits256_div_range. Qed.
Next Obligation. done. Qed.
Next Obligation. done. Qed.

Example bits_Uint256_wraps :
  @uval bits_Uint256 (@uSub bits_Uint256 (@uSetUint64 bits_Uint256 3) (@uSetUint64 bits_Uint256 5))
  = two256 - 2.
Proof. vm_compute. reflexivity. Qed.
