(* ===== verification/ChainConfig.v ===== *)
(** * ChainConfig: the fork schedule

    [ChainConfig], its fork tests, [CheckConfigForkOrder], [CheckCompatible]
    and [Rules] of [params/config.go].  A fork block is a [*big.Int]: [None] is
    nil.  The configurations of the consensus engines are only tested for
    presence. *)

From S2P Require Import Prelude.

Module Rules.

Record Rules := {
  ChainID : Z;
  IsHomestead : bool; IsTangerineWhistle : bool; IsSpuriousDragon : bool;
  IsByzantium : bool; IsConstantinople : bool; IsPetersburg : bool; IsIstanbul : bool;
  IsBerlin : bool; IsLondon : bool; IsShanghai : bool; IsCancun : bool; IsPrague : bool;
  IsNano : bool; IsMoran : bool;
  IsEip1559FeeCollector : bool;
  IsParlia : bool; IsAura : bool; IsBeijing : bool
}.

End Rules.

Module ChainConfig.

Record ChainConfig := {
  ChainID : option Z;
  HomesteadBlock : option Z;
  DAOForkBlock : option Z;
  DAOForkSupport : bool;
  TangerineWhistleBlock : option Z;
  SpuriousDragonBlock : option Z;
  ByzantiumBlock : option Z;
  ConstantinopleBlock : option Z;
  PetersburgBlock : option Z;
  IstanbulBlock : option Z;
  MuirGlacierBlock : option Z;
  BerlinBlock : option Z;
  LondonBlock : option Z;
  ArrowGlacierBlock : option Z;
  GrayGlacierBlock : option Z;
  MergeNetsplitBlock : option Z;
  ShanghaiBlock : option Z;
  CancunBlock : option Z;
  PragueTime : option Z;
  NanoBlock : option Z;
  MoranBlock : option Z;
  BeijingBlock : option Z;
  Eip1559FeeCollector : option Address;
  Eip1559FeeCollectorTransition : option Z;
  hasParlia : bool;
  hasAura : bool
}.

Definition isForked (s : option Z) (head : Z) : bool :=
  match s with None => false | Some s => u64 s <=? head end.

Definition configNumEqual (x y : option Z) : bool :=
  match x, y with
  | None, None => true
  | Some x, Some y => x =? y
  | _, _ => false
  end.

Definition isForkIncompatible (s1 s2 : option Z) (head : Z) : bool :=
  (isForked s1 head || isForked s2 head) && negb (configNumEqual s1 s2).

Definition IsHomestead c num := isForked (HomesteadBlock c) num.
Definition IsDAOFork c num := isForked (DAOForkBlock c) num.
Definition IsTangerineWhistle c num := isForked (TangerineWhistleBlock c) num.
Definition IsSpuriousDragon c num := isForked (SpuriousDragonBlock c) num.
Definition IsByzantium c num := isForked (ByzantiumBlock c) num.
Definition IsConstantinople c num := isForked (ConstantinopleBlock c) num.
Definition IsMoran c num := isForked (MoranBlock c) num.
Definition IsNano c num := isForked (NanoBlock c) num.
Definition IsMuirGlacier c num := isForked (MuirGlacierBlock c) num.
Definition IsPetersburg c num :=
  isForked (PetersburgBlock c) num ||
  (bool_decide (PetersburgBlock c = None) && isForked (ConstantinopleBlock c) num).
Definition IsIstanbul c num := isForked (IstanbulBlock c) num.
Definition IsBerlin c num := isForked (BerlinBlock c) num.
Definition IsLondon c num := isForked (LondonBlock c) num.
Definition IsArrowGlacier c num := isForked (ArrowGlacierBlock c) num.
Definition IsGrayGlacier c num := isForked (GrayGlacierBlock c) num.
Definition IsShanghai c num := isForked (ShanghaiBlock c) num.
Definition IsCancun c num := isForked (CancunBlock c) num.
Definition IsPrague c time := isForked (PragueTime c) time.
Definition IsBeijing c num := isForked (BeijingBlock c) num.
Definition IsEip1559FeeCollector c num :=
  bool_decide (is_Some (Eip1559FeeCollector c)) && isForked (Eip1559FeeCollectorTransition c) num.

Definition rules (c : ChainConfig) (num : Z) : Rules.Rules := {|
  Rules.ChainID := default 0 (ChainID c);
  Rules.IsHomestead := IsHomestead c num;
  Rules.IsTangerineWhistle := IsTangerineWhistle c num;
  Rules.IsSpuriousDragon := IsSpuriousDragon c num;
  Rules.IsByzantium := IsByzantium c num;
  Rules.IsConstantinople := IsConstantinople c num;
  Rules.IsPetersburg := IsPetersburg c num;
  Rules.IsIstanbul := IsIstanbul c num;
  Rules.IsBerlin := IsBerlin c num;
  Rules.IsLondon := IsLondon c num;
  Rules.IsShanghai := IsShanghai c num;
  Rules.IsCancun := IsCancun c num;
  Rules.IsPrague := IsPrague c num;
  Rules.IsNano := IsNano c num;
  Rules.IsMoran := IsMoran c num;
  Rules.IsEip1559FeeCollector := IsEip1559FeeCollector c num;
  Rules.IsParlia := hasParlia c;
  Rules.IsAura := hasAura c;
  Rules.IsBeijing := IsBeijing c num
|}.

(** ** The order of the forks *)

Record fork := { name : string; block : option Z; optional : bool }.

Definition forks (c : ChainConfig) : list fork :=
  [ {| name := "homesteadBlock"; block := HomesteadBlock c; optional := false |};
    {| name := "daoForkBlock"; block := DAOForkBlock c; optional := true |};
    {| name := "eip150Block"; block := TangerineWhistleBlock c; optional := false |};
    {| name := "eip155Block"; block := SpuriousDragonBlock c; optional := false |};
    {| name := "byzantiumBlock"; block := ByzantiumBlock c; optional := false |};
    {| name := "constantinopleBlock"; block := ConstantinopleBlock c; optional := false |};
    {| name := "petersburgBlock"; block := PetersburgBlock c; optional := false |};
    {| name := "istanbulBlock"; block := IstanbulBlock c; optional := false |};
    {| name := "muirGlacierBlock"; block := MuirGlacierBlock c; optional := true |};
    {| name := "berlinBlock"; block := BerlinBlock c; optional := false |};
    {| name := "londonBlock"; block := LondonBlock c; optional := false |};
    {| name := "arrowGlacierBlock"; block := ArrowGlacierBlock c; optional := true |};
    {| name := "grayGlacierBlock"; block := GrayGlacierBlock c; optional := true |};
    {| name := "mergeNetsplitBlock"; block := MergeNetsplitBlock c; optional := true |};
    {| name := "shanghaiBlock"; block := ShanghaiBlock c; optional := false |};
    {| name := "cancunBlock"; block := CancunBlock c; optional := false |} ].

(** The loop of [CheckConfigForkOrder]; [lastFork] is [None] while its name is
    empty.  The error carries the names of the two forks. *)
Fixpoint forkOrder_loop (lastFork : option fork) (l : list fork) : option (string * string) :=
  match l with
  | [] => None
  | cur :: l =>
      let bad :=
        match lastFork with
        | None => None
        | Some last =>
            match block last, block cur with
            | None, Some _ => Some (name last, name cur)
            | Some x, Some y => if y <? x then Some (name last, name cur) else None
            | _, _ => None
            end
        end in
      match bad with
      | Some e => Some e
      | None =>
          forkOrder_loop
            (if negb (optional cur) || bool_decide (is_Some (block cur)) then Some cur else lastFork) l
      end
  end.

Definition CheckConfigForkOrder (c : ChainConfig) : option (string * string) :=
  if bool_decide (is_Some (ChainID c)) && (u64 (default 0 (ChainID c)) =? 77) then None
  else forkOrder_loop None (forks c).

(** ** Compatibility of two schedules *)

Record ConfigCompatError := {
  What : string;
  StoredConfig : option Z;
  NewConfig : option Z;
  RewindTo : Z
}.

Definition newCompatError (what : string) (storedblock newblock : option Z) : ConfigCompatError :=
  let rew :=
    match storedblock, newblock with
    | None, _ => newblock
    | Some s, None => storedblock
    | Some s, Some n => if s <? n then storedblock else newblock
    end in
  {| What := what; StoredConfig := storedblock; NewConfig := newblock;
     RewindTo := match rew with
                 | Some r => if 0 <? r then u64 r -u 1 else 0
                 | None => 0
                 end |}.

(** One test of [checkCompatible]: the condition and the error it returns. *)
Record compatTest := { fires : Z -> bool; reports : ConfigCompatError }.

Definition forkTest (what : string) (f : ChainConfig -> option Z) (c n : ChainConfig) : compatTest :=
  {| fires := isForkIncompatible (f c) (f n); reports := newCompatError what (f c) (f n) |}.

(** The tests in the order the code makes them. *)
Definition compatTests (c newcfg : ChainConfig) : list compatTest :=
  [ forkTest "Homestead fork block" HomesteadBlock c newcfg;
    forkTest "DAO fork block" DAOForkBlock c newcfg;
    {| fires := fun head => IsDAOFork c head && negb (Bool.eqb (DAOForkSupport c) (DAOForkSupport newcfg));
       reports := newCompatError "DAO fork support flag" (DAOForkBlock c) (DAOForkBlock newcfg) |};
    forkTest "Tangerine Whistle fork block" TangerineWhistleBlock c newcfg;
    forkTest "Spurious Dragon fork block" SpuriousDragonBlock c newcfg;
    {| fires := fun head => IsSpuriousDragon c head && negb (configNumEqual (ChainID c) (ChainID newcfg));
       reports := newCompatError "EIP155 chain ID" (SpuriousDragonBlock c) (SpuriousDragonBlock newcfg) |};
    forkTest "Byzantium fork block" ByzantiumBlock c newcfg;
    forkTest "Constantinople fork block" ConstantinopleBlock c newcfg;
    {| fires := fun head => isForkIncompatible (PetersburgBlock c) (PetersburgBlock newcfg) head &&
                            isForkIncompatible (ConstantinopleBlock c) (PetersburgBlock newcfg) head;
       reports := newCompatError "Petersburg fork block" (PetersburgBlock c) (PetersburgBlock newcfg) |};
    forkTest "Istanbul fork block" IstanbulBlock c newcfg;
    forkTest "Muir Glacier fork block" MuirGlacierBlock c newcfg;
    forkTest "Berlin fork block" BerlinBlock c newcfg;
    forkTest "London fork block" LondonBlock c newcfg;
    forkTest "Arrow Glacier fork block" ArrowGlacierBlock c newcfg;
    forkTest "Gray Glacier fork block" GrayGlacierBlock c newcfg;
    forkTest "Merge netsplit block" MergeNetsplitBlock c newcfg;
    forkTest "Shanghai fork block" ShanghaiBlock c newcfg;
    forkTest "Cancun fork block" CancunBlock c newcfg ].

Fixpoint firstTest (l : list compatTest) (head : Z) : option ConfigCompatError :=
  match l with
  | [] => None
  | t :: l => if fires t head then Some (reports t) else firstTest l head
  end.

Definition checkCompatible (c newcfg : ChainConfig) (head : Z) : option ConfigCompatError :=
  firstTest (compatTests c newcfg) head.

(** The loop of [CheckCompatible]; [None] when the fuel runs out. *)
Fixpoint compat_loop (fuel : nat) (c newcfg : ChainConfig) (bhead : Z) (lasterr : option ConfigCompatError)
  : option (option ConfigCompatError) :=
  match fuel with
  | O => None
  | S fuel =>
      match checkCompatible c newcfg bhead with
      | None => Some lasterr
      | Some err =>
          if match lasterr with Some l => RewindTo err =? RewindTo l | None => false end
          then Some lasterr
          else compat_loop fuel c newcfg (RewindTo err) (Some err)
      end
  end.

(** Every test fires at most once before the head goes below it. *)
Definition compat_fuel : nat := 21.

Definition CheckCompatible (c newcfg : ChainConfig) (height : Z) : option (option ConfigCompatError) :=
  compat_loop compat_fuel c newcfg height None.

(** ** Facts *)

Lemma isForked_mono s h h' : h <= h' -> isForked s h = true -> isForked s h' = true.
Proof. destruct s; cbn; [|done]. rewrite !Z.leb_le. lia. Qed.

Lemma isForkIncompatible_mono s1 s2 h h' :
  h <= h' -> isForkIncompatible s1 s2 h = true -> isForkIncompatible s1 s2 h' = true.
Proof.
  unfold isForkIncompatible. rewrite !andb_true_iff, !orb_true_iff. intros Hh [Hf Hn]. split; [|done].
  destruct Hf as [Hf|Hf]; [left|right]; by eapply isForked_mono.
Qed.

Lemma configNumEqual_true x y : configNumEqual x y = true <-> x = y.
Proof. destruct x, y; cbn; rewrite ?Z.eqb_eq; naive_solver. Qed.

(** Compatible fork blocks are active at the same heights, up to the head. *)
Lemma compatible_isForked s1 s2 head num :
  isForkIncompatible s1 s2 head = false -> num <= head -> isForked s1 num = isForked s2 num.
Proof.
  unfold isForkIncompatible. intros H Hn. apply andb_false_iff in H as [H|H].
  - apply orb_false_iff in H as [H1 H2].
    destruct (isForked s1 num) eqn:E1; [by rewrite (isForked_mono s1 num head Hn E1) in H1|].
    destruct (isForked s2 num) eqn:E2; [by rewrite (isForked_mono s2 num head Hn E2) in H2|]. done.
  - apply negb_false_iff, configNumEqual_true in H. by subst.
Qed.

(** The fork blocks of a configuration fit 64 bits. *)
Definition block_ok (b : option Z) : Prop := match b with Some z => in_u64 z | None => True end.

Record wf (c : ChainConfig) : Prop := {
  wf_Homestead : block_ok (HomesteadBlock c);
  wf_DAO : block_ok (DAOForkBlock c);
  wf_Tangerine : block_ok (TangerineWhistleBlock c);
  wf_Spurious : block_ok (SpuriousDragonBlock c);
  wf_Byzantium : block_ok (ByzantiumBlock c);
  wf_Constantinople : block_ok (ConstantinopleBlock c);
  wf_Petersburg : block_ok (PetersburgBlock c);
  wf_Istanbul : block_ok (IstanbulBlock c);
  wf_Muir : block_ok (MuirGlacierBlock c);
  wf_Berlin : block_ok (BerlinBlock c);
  wf_London : block_ok (LondonBlock c);
  wf_Arrow : block_ok (ArrowGlacierBlock c);
  wf_Gray : block_ok (GrayGlacierBlock c);
  wf_Merge : block_ok (MergeNetsplitBlock c);
  wf_Shanghai : block_ok (ShanghaiBlock c);
  wf_Cancun : block_ok (CancunBlock c)
}.

(** A test that fires asks to rewind below the height from which it fires, or
    to the genesis block. *)
Record test_ok (t : compatTest) : Prop := {
  tk_mono : forall h h', h <= h' -> fires t h = true -> fires t h' = true;
  tk_range : 0 <= RewindTo (reports t);
  tk_rewind : forall h, fires t h = true ->
    RewindTo (reports t) = 0 \/ (RewindTo (reports t) < h /\ fires t (RewindTo (reports t)) = false)
}.

(** The rewind target of two fork blocks, one of which is active. *)
Lemma rewind_spec what s1 s2 h :
  block_ok s1 -> block_ok s2 -> isForked s1 h || isForked s2 h = true ->
  let r := RewindTo (newCompatError what s1 s2) in
  r = 0 \/ (r < h /\ isForked s1 r = false /\ isForked s2 r = false).
Proof.
  intros H1 H2. unfold newCompatError, isForked, sub64, u64, block_ok, in_u64 in *. cbn.
  destruct s1 as [a|], s2 as [b|]; cbn; rewrite ?(Z.mod_small a), ?(Z.mod_small b) by lia; intros H;
    [|rewrite orb_false_r in H| |done];
    repeat match goal with |- context [?x <? ?y] => destruct (Z.ltb_spec x y) end;
    try (left; reflexivity); right; rewrite ?(Z.mod_small a), ?(Z.mod_small b), ?Z.mod_small by lia; lia.
Qed.

Lemma RewindTo_nonneg what s1 s2 : 0 <= RewindTo (newCompatError what s1 s2).
Proof. cbn. repeat case_match; try lia; apply sub64_range. Qed.

Lemma forkTest_ok what f c n : block_ok (f c) -> block_ok (f n) -> test_ok (forkTest what f c n).
Proof.
  intros H1 H2. split.
  - intros h h'. apply isForkIncompatible_mono.
  - apply RewindTo_nonneg.
  - intros h. cbn. unfold isForkIncompatible. intros [Hf Hn]%andb_true_iff.
    destruct (rewind_spec what (f c) (f n) h H1 H2 Hf) as [|(Hr & E1 & E2)]; [by left|].
    right. split; [done|]. cbn in E1, E2. by rewrite E1, E2.
Qed.

Lemma flagTest_ok what s1 s2 (b : bool) :
  block_ok s1 -> block_ok s2 ->
  test_ok {| fires := fun head => isForked s1 head && b; reports := newCompatError what s1 s2 |}.
Proof.
  intros H1 H2. split; cbn [fires reports].
  - intros h h' Hh [Hf ->]%andb_true_iff. rewrite andb_true_r. by eapply isForked_mono.
  - apply RewindTo_nonneg.
  - intros h [Hf Hb]%andb_true_iff.
    destruct (rewind_spec what s1 s2 h H1 H2) as [|(Hr & E1 & _)]; [by rewrite Hf|by left|].
    right. split; [done|]. by rewrite E1.
Qed.

Lemma compatTests_ok c n : wf c -> wf n -> Forall test_ok (compatTests c n).
Proof.
  intros [] []. unfold compatTests. repeat apply Forall_cons_2; try apply Forall_nil_2;
    try (by apply forkTest_ok); try (by apply flagTest_ok).
  split; cbn [fires reports].
  - intros h h' Hh [Hf Hn]%andb_true_iff. rewrite andb_true_iff. by split; eapply isForkIncompatible_mono.
  - apply RewindTo_nonneg.
  - intros h [Hf Hn]%andb_true_iff. unfold isForkIncompatible in Hf. apply andb_true_iff in Hf as [Hf _].
    destruct (rewind_spec "Petersburg fork block" (PetersburgBlock c) (PetersburgBlock n) h) as [|(Hr & E1 & E2)];
      [done..|by left|].
    right. split; [done|]. unfold isForkIncompatible at 1. by rewrite E1, E2.
Qed.

(** How many tests fire at a height. *)
Definition firing (l : list compatTest) (h : Z) : nat := length (filter (fun t => fires t h = true) l).

Lemma firing_le l h : (firing l h <= length l)%nat.
Proof. apply length_filter. Qed.

Lemma firing_mono l h h' : Forall test_ok l -> h <= h' -> (firing l h <= firing l h')%nat.
Proof.
  intros Hl Hh. unfold firing. induction Hl as [|t l Ht Hl IH]; [done|]. rewrite !filter_cons.
  repeat case_decide; cbn; try lia. pose proof (tk_mono _ Ht h h' Hh). naive_solver.
Qed.

(** Below the rewind target of the test that fired, fewer tests fire. *)
Lemma firstTest_spec l h e :
  Forall test_ok l -> firstTest l h = Some e ->
  0 <= RewindTo e /\ (RewindTo e = 0 \/ (RewindTo e < h /\ (firing l (RewindTo e) < firing l h)%nat)).
Proof.
  intros Hl. induction Hl as [|t l Ht Hl IH]; cbn [firstTest]; [done|].
  unfold firing. rewrite !filter_cons. destruct (fires t h) eqn:Ef.
  - intros [= <-]. split; [apply Ht|]. destruct (tk_rewind _ Ht h Ef) as [|[Hr Hn]]; [by left|].
    right. split; [done|]. rewrite Hn, decide_False, decide_True by done. cbn.
    pose proof (firing_mono l (RewindTo (reports t)) h Hl ltac:(lia)). unfold firing in *. lia.
  - intros He. destruct (IH He) as [H0 [H1|[H1 H2]]]; (split; [done|]); [by left|right].
    split; [done|]. rewrite (decide_False (P := false = true)) by done. unfold firing in H2.
    case_decide as Hd; [|done]. pose proof (tk_mono _ Ht (RewindTo e) h ltac:(lia) Hd). congruence.
Qed.

Lemma firstTest_None l h t : firstTest l h = None -> t ∈ l -> fires t h = false.
Proof.
  induction l as [|u l IH]; cbn; [by intros _ ?%not_elem_of_nil|].
  destruct (fires u h) eqn:E; [done|]. intros H [->|]%elem_of_cons; auto.
Qed.

(** What the loop returns, and that it returns. *)
Definition compat_post (c n : ChainConfig) (r : option ConfigCompatError) : Prop :=
  match r with
  | Some e => checkCompatible c n (RewindTo e) = None \/ RewindTo e = 0
  | None => True
  end.

Lemma compat_loop_zero fuel c n err :
  wf c -> wf n -> RewindTo err = 0 -> compat_loop (S fuel) c n 0 (Some err) = Some (Some err).
Proof.
  intros Wc Wn Hr. cbn [compat_loop]. destruct (checkCompatible c n 0) as [err'|] eqn:E0; [|done].
  destruct (firstTest_spec _ _ _ (compatTests_ok c n Wc Wn) E0) as [H0 [H1|[H1 _]]]; [|lia].
  by rewrite H1, Hr.
Qed.

Lemma compat_loop_spec fuel c n bhead last :
  wf c -> wf n -> (firing (compatTests c n) bhead + 2 <= fuel)%nat ->
  match last with Some l => bhead = RewindTo l /\ 0 <= RewindTo l | None => True end ->
  exists r, compat_loop fuel c n bhead last = Some r /\ compat_post c n r /\
    (r = None -> checkCompatible c n bhead = None /\ last = None) /\
    (forall e, r = Some e -> 0 <= RewindTo e /\ (Some e = last \/ RewindTo e <= Z.max 0 bhead)).
Proof.
  intros Wc Wn. pose proof (compatTests_ok c n Wc Wn) as Hl. revert bhead last.
  induction fuel as [|fuel IH]; intros bhead last Hf Hlast; [lia|]. cbn [compat_loop].
  destruct (checkCompatible c n bhead) as [err|] eqn:Ec.
  2: { exists last. split_and!; [done| |done|intros e ->; by destruct Hlast; auto].
       destruct last as [l|]; cbn; [|done]. destruct Hlast as [<- _]. by left. }
  destruct (firstTest_spec _ _ _ Hl Ec) as [Hr0 Hr].
  destruct (match last with Some l => RewindTo err =? RewindTo l | None => false end) eqn:Es.
  { destruct last as [l|]; [|done]. zbool. destruct Hlast as [-> Hl0]. exists (Some l).
    split_and!; [done| |done|by intros e [= <-]; auto]. right. destruct Hr as [Hr|[Hr _]]; lia. }
  destruct Hr as [Hr|[Hr Hfi]].
  - destruct fuel as [|fuel]; [lia|]. exists (Some err). rewrite Hr, compat_loop_zero by done.
    split_and!; [done|by right|done|]. intros e [= <-]. split; [|right]; lia.
  - destruct (IH (RewindTo err) (Some err)) as (r & -> & Hp & Hn & He); [lia|done|].
    exists r. split_and!; [done|done| |].
    + intros ->. by destruct (Hn eq_refl).
    + intros e ->. destruct (He e eq_refl) as [H0 [[= ->]|]]; (split; [|right]); lia.
Qed.


(** ** The order of the forks *)

(** Consecutive enabled forks are ordered; after a disabled mandatory fork
    none is enabled. *)
Fixpoint ordered_from (last : option fork) (l : list fork) : Prop :=
  match l with
  | [] => True
  | cur :: l =>
      match last, block cur with
      | Some p, Some y => exists x, block p = Some x /\ x <= y
      | _, _ => True
      end /\
      ordered_from (if negb (optional cur) || bool_decide (is_Some (block cur)) then Some cur else last) l
  end.

Lemma forkOrder_loop_spec l last : forkOrder_loop last l = None <-> ordered_from last l.
Proof.
  revert last. induction l as [|cur l IH]; intros last; cbn [forkOrder_loop ordered_from]; [done|].
  rewrite <- IH. destruct last as [p|]; [|naive_solver].
  destruct (block p) as [x|], (block cur) as [y|]; cbn; try naive_solver.
  destruct (Z.ltb_spec y x) as [Hlt|Hle]; split; try done; try naive_solver lia.
Qed.

(** The fork in force before an enabled one is enabled, at a lower block. *)
Lemma ordered_monotone l last i cur y :
  ordered_from last l -> l !! i = Some cur -> block cur = Some y ->
  match last with Some p => exists x, block p = Some x /\ x <= y | None => True end /\
  forall j m, (j < i)%nat -> l !! j = Some m -> optional m = true /\ block m = None \/ exists x, block m = Some x /\ x <= y.
Proof.
  revert last i. induction l as [|k l IH]; intros last i Ho Hi Hy; [done|]. cbn in Ho. destruct Ho as [Hk Ho].
  destruct i as [|i]; cbn in Hi.
  { simplify_eq. rewrite Hy in Hk. split; [by destruct last|]. intros; lia. }
  destruct (IH _ i Ho Hi Hy) as [H1 H2].
  destruct (block k) as [b|] eqn:Eb.
  - assert (negb (optional k) || bool_decide (is_Some (Some b)) = true) as Hb.
    { rewrite (bool_decide_true (is_Some (Some b))) by done. apply orb_true_r. }
    rewrite Hb in H1. destruct H1 as (x & Hx & Hxy). rewrite Eb in Hx. simplify_eq. split.
    + destruct last as [p|]; [|done]. destruct Hk as (z & Hz & Hzx). exists z. split; [done|lia].
    + intros [|j] m Hj Hm; cbn in Hm; [|by apply (H2 j); [lia|]]. simplify_eq. right. by exists x.
  - destruct (optional k) eqn:Eo; cbn in H1.
    + split; [done|].
      intros [|j] m Hj Hm; cbn in Hm; [|by apply (H2 j); [lia|]]. simplify_eq. by left.
    + destruct H1 as (x & Hx & _). congruence.
Qed.

(** C29: what [CheckConfigForkOrder] promises.  In an accepted schedule (of a
    chain other than 77) every fork that is active at a block implies all the
    earlier mandatory forks, so the rule flags nest. *)
Theorem CheckConfigForkOrder_nests c num i j f g :
  ChainID c <> Some 77 -> block_ok (ChainID c) -> CheckConfigForkOrder c = None ->
  forks c !! i = Some f -> forks c !! j = Some g -> (i < j)%nat -> optional f = false ->
  block_ok (block f) -> block_ok (block g) ->
  isForked (block g) num = true -> isForked (block f) num = true.
Proof.
  intros Hid Hok Hc Hi Hj Hij Hopt Bf Bg Hg. unfold CheckConfigForkOrder in Hc.
  replace (bool_decide (is_Some (ChainID c)) && (u64 (default 0 (ChainID c)) =? 77)) with false in Hc.
  2: { symmetry. destruct (ChainID c) as [z|]; cbn in *; [|done]. rewrite u64_small by done.
       destruct (Z.eqb_spec z 77); [congruence|done]. }
  apply forkOrder_loop_spec in Hc. destruct (block g) as [y|] eqn:Ey; [|done].
  destruct (ordered_monotone _ _ j g y Hc Hj Ey) as [_ Hm].
  destruct (Hm i f Hij Hi) as [[? _]|(x & Hx & Hxy)]; [congruence|]. rewrite Hx in *. cbn in *.
  rewrite u64_small in * by done. lia.
Qed.

(** ** Examples *)

Definition genesisForks : ChainConfig := {|
  ChainID := Some 94; HomesteadBlock := Some 0; DAOForkBlock := None; DAOForkSupport := false;
  TangerineWhistleBlock := Some 0; SpuriousDragonBlock := Some 0; ByzantiumBlock := Some 0;
  ConstantinopleBlock := Some 5; PetersburgBlock := Some 10; IstanbulBlock := Some 10;
  MuirGlacierBlock := None; BerlinBlock := Some 20; LondonBlock := Some 30; ArrowGlacierBlock := None;
  GrayGlacierBlock := None; MergeNetsplitBlock := None; ShanghaiBlock := None; CancunBlock := None;
  PragueTime := None; NanoBlock := None; MoranBlock := None; BeijingBlock := Some 15;
  Eip1559FeeCollector := None; Eip1559FeeCollectorTransition := None; hasParlia := false; hasAura := false
|}.

Lemma genesisForks_wf : wf genesisForks.
Proof. split; cbn; unfold in_u64; lia. Qed.

(** The same schedule with the London fork at another block. *)
Definition londonAt (b : Z) : ChainConfig := {|
  ChainID := Some 94; HomesteadBlock := Some 0; DAOForkBlock := None; DAOForkSupport := false;
  TangerineWhistleBlock := Some 0; SpuriousDragonBlock := Some 0; ByzantiumBlock := Some 0;
  ConstantinopleBlock := Some 5; PetersburgBlock := Some 10; IstanbulBlock := Some 10;
  MuirGlacierBlock := None; BerlinBlock := Some 20; LondonBlock := Some b; ArrowGlacierBlock := None;
  GrayGlacierBlock := None; MergeNetsplitBlock := None; ShanghaiBlock := None; CancunBlock := None;
  PragueTime := None; NanoBlock := None; MoranBlock := None; BeijingBlock := Some 15;
  Eip1559FeeCollector := None; Eip1559FeeCollectorTransition := None; hasParlia := false; hasAura := false
|}.

(** The same schedule with Petersburg moved back to Constantinople, and with
    Beijing moved. *)
Definition petersburgBeijingAt (p b : Z) : ChainConfig := {|
  ChainID := Some 94; HomesteadBlock := Some 0; DAOForkBlock := None; DAOForkSupport := false;
  TangerineWhistleBlock := Some 0; SpuriousDragonBlock := Some 0; ByzantiumBlock := Some 0;
  ConstantinopleBlock := Some 5; PetersburgBlock := Some p; IstanbulBlock := Some 10;
  MuirGlacierBlock := None; BerlinBlock := Some 20; LondonBlock := Some 30; ArrowGlacierBlock := None;
  GrayGlacierBlock := None; MergeNetsplitBlock := None; ShanghaiBlock := None; CancunBlock := None;
  PragueTime := None; NanoBlock := None; MoranBlock := None; BeijingBlock := Some b;
  Eip1559FeeCollector := None; Eip1559FeeCollectorTransition := None; hasParlia := false; hasAura := false
|}.


Lemma CheckConfigForkOrder_nests_witness :
  CheckConfigForkOrder genesisForks = None /\ isForked (Some 0) 40 = true.
Proof.
  split; [vm_compute; reflexivity|].
  apply (CheckConfigForkOrder_nests genesisForks 40 0 10
    {| name := "homesteadBlock"; block := Some 0; optional := false |}
    {| name := "londonBlock"; block := Some 30; optional := false |}); try reflexivity; try (cbn; unfold in_u64; lia); discriminate.
Defined.

(** Moving the Petersburg fork back to the Constantinople block is reported as
    compatible although blocks 5 to 9 are then executed under other rules; and
    the Beijing fork is not compared at all. *)
Theorem Petersburg_Beijing_undetected :
  let n := petersburgBeijingAt 5 90 in
  CheckCompatible genesisForks n 100 = Some None /\
  CheckConfigForkOrder genesisForks = None /\ CheckConfigForkOrder n = None /\
  IsPetersburg genesisForks 7 = false /\ IsPetersburg n 7 = true /\
  IsBeijing genesisForks 50 = true /\ IsBeijing n 50 = false.
Proof. vm_compute. repeat split. Qed.

End ChainConfig.
