(* ===== verification/Header.v ===== *)
(** * Header: block headers

    The [Header] of [common/block/header.go].  [Number] and [Difficulty] are
    [*uint256.Int]; a nil [BaseFee] is [None].  The eight nonce bytes are their
    big-endian value, as [BlockNonce.Uint64] reads them.  The hash of a header
    is Keccak-256 of its JSON text, taken as a class argument. *)

From S2P Require Import Prelude Uint256.

Section Header.
Context `{U : Uint256}.

Record Header := {
  ParentHash : Hash;
  Coinbase : Address;
  HRoot : Hash;
  TxHash : Hash;
  ReceiptHash : Hash;
  Difficulty : u256;
  Number : u256;
  GasLimit : Z;
  GasUsed : Z;
  Time : Z;
  MixDigest : Hash;
  HNonce : Z;
  Extra : list Z;
  BaseFee : option u256
}.

(** [header.Hash()] and [ecrecover], the cached recovery of the signer from the
    seal in the extra data. *)
Class HeaderCrypto := {
  HeaderHash : Header -> Hash;
  ecrecover : Header -> outcome Address;
  ecrecover_total : forall h, ecrecover h <> Panic
}.

End Header.
