(* ===== verification/HeaderRules.v ===== *)
(** * HeaderRules: gas limit, base fee and fork choice

    [VerifyGaslimit] and the EIP-1559 rules of [internal/consensus/misc], the
    gas limit the miner aims for ([internal/miner/gasLimit.go]), the header
    [prepareWork] of [internal/miner/worker.go] starts from, and the fork
    choice of [internal/forkchoice.go].  A [big.Int] is a [Z].  Error messages
    keep their fixed part. *)

From S2P Require Import Prelude Uint256 Header ChainConfig.

Module HeaderRules.

Definition GasLimitBoundDivisor : Z := 1024.
Definition MinGasLimit : Z := 5000.
Definition MaxGasLimit : Z := 9223372036854775807.
Definition BaseFeeChangeDenominator : Z := 8.
Definition ElasticityMultiplier : Z := 2.
Definition InitialBaseFee : Z := 1000000000.

(** [diff] is an [int64]. *)
Definition VerifyGaslimit (parentGasLimit headerGasLimit : Z) : outcome unit :=
  let diff := int64 (int64 parentGasLimit - int64 headerGasLimit) in
  let diff := if diff <? 0 then int64 (diff * -1) else diff in
  let limit := parentGasLimit / GasLimitBoundDivisor in
  _ ← fail_if (limit <=? u64 diff) "invalid gas limit: have %d, want %d +-= %d";
  fail_if (headerGasLimit <? MinGasLimit) "invalid gas limit below 5000".

Definition CalcGasLimit (parentGasLimit desiredLimit : Z) : Z :=
  let delta := parentGasLimit / GasLimitBoundDivisor -u 1 in
  let limit := parentGasLimit in
  let desiredLimit := if desiredLimit <? MinGasLimit then MinGasLimit else desiredLimit in
  if limit <? desiredLimit then
    let limit := parentGasLimit +u delta in
    if desiredLimit <? limit then desiredLimit else limit
  else if desiredLimit <? limit then
    let limit := parentGasLimit -u delta in
    if limit <? desiredLimit then desiredLimit else limit
  else limit.

Section Rules.
Context `{U : Uint256}.

(** [None] as the parent's base fee is the nil dereference; a zero gas target
    is the division by zero. *)
Definition CalcBaseFee (config : ChainConfig.ChainConfig) (parent : Header) : outcome Z :=
  if negb (ChainConfig.IsLondon config (uUint64 (Number parent))) then Ok InitialBaseFee
  else
    let parentGasTarget := GasLimit parent / ElasticityMultiplier in
    match BaseFee parent with
    | None => Panic
    | Some fee =>
        let baseFee := uval fee in
        if GasUsed parent =? parentGasTarget then Ok baseFee
        else if parentGasTarget =? 0 then Panic
        else if parentGasTarget <? GasUsed parent then
          let gasUsedDelta := GasUsed parent -u parentGasTarget in
          let y := baseFee * gasUsedDelta / parentGasTarget in
          let baseFeeDelta := Z.max (y / BaseFeeChangeDenominator) 1 in
          Ok (baseFee + baseFeeDelta)
        else
          let gasUsedDelta := parentGasTarget -u GasUsed parent in
          let y := baseFee * gasUsedDelta / parentGasTarget in
          let baseFeeDelta := y / BaseFeeChangeDenominator in
          Ok (Z.max (baseFee - baseFeeDelta) 0)
    end.

Definition VerifyEip1559Header (config : ChainConfig.ChainConfig) (parent header : Header) : outcome unit :=
  let parentGasLimit :=
    if negb (ChainConfig.IsLondon config (uUint64 (Number parent)))
    then GasLimit parent *u ElasticityMultiplier else GasLimit parent in
  _ ← VerifyGaslimit parentGasLimit (GasLimit header);
  match BaseFee header with
  | None => Err "header is missing baseFee"
  | Some fee =>
      expectedBaseFee ← CalcBaseFee config parent;
      fail_if (negb (uval fee =? expectedBaseFee)) "invalid baseFee"
  end.

(** The gas limit and base fee part of [verifyCascadingFields]. *)
Definition verifyGasFields (config : ChainConfig.ChainConfig) (parent header : Header) : outcome unit :=
  _ ← fail_if (GasLimit header <? GasUsed header) "invalid gasUsed: have %d, gasLimit %d";
  if negb (ChainConfig.IsLondon config (uUint64 (Number header))) then
    _ ← fail_if (bool_decide (is_Some (BaseFee header))) "invalid baseFee before fork: have %d, want <nil>";
    VerifyGaslimit (GasLimit parent) (GasLimit header)
  else VerifyEip1559Header config parent header.

(** The header [prepareWork] builds, before [engine.Prepare]. *)
Definition prepareHeader `{K : @HeaderCrypto U} (config : ChainConfig.ChainConfig) (gasCeil : Z)
  (parent : Header) (timestamp : Z) (coinbase : Address) : outcome Header :=
  let timestamp := if timestamp <=? Time parent then Time parent +u 1 else timestamp in
  let header gasLimit baseFee :=
    {| ParentHash := HeaderHash parent; Coinbase := coinbase; HRoot := 0; TxHash := 0; ReceiptHash := 0;
       Difficulty := uSetUint64 0; Number := uAdd (Number parent) (uSetUint64 1);
       GasLimit := gasLimit; GasUsed := 0; Time := timestamp; MixDigest := 0; HNonce := 0; Extra := [];
       BaseFee := Some baseFee |} in
  let gasLimit := CalcGasLimit (GasLimit parent) gasCeil in
  if ChainConfig.IsLondon config (uUint64 (uAdd (Number parent) (uSetUint64 1))) then
    fee ← CalcBaseFee config parent;
    let baseFee := (uFromBig fee).1 in
    if negb (ChainConfig.IsLondon config (uUint64 (Number parent)))
    then Ok (header (CalcGasLimit (GasLimit parent *u ElasticityMultiplier) gasCeil) baseFee)
    else Ok (header gasLimit baseFee)
  else Ok (header gasLimit (uSetUint64 0)).

(** [GetTd] returning nil is [None] and panics; [preserve] is [None] for a nil
    function; [coin] is [f.rand.Float64() < 0.5]. *)
Definition ReorgNeeded `{K : @HeaderCrypto U} (GetTd : Hash -> u256 -> option u256)
  (preserve : option (Header -> bool)) (coin : bool) (current header : Header) : outcome bool :=
  match GetTd (HeaderHash current) (Number current), GetTd (HeaderHash header) (Number header) with
  | Some localTD, Some externTd =>
      let reorg := uval localTD <? uval externTd in
      if negb reorg && (uval externTd =? uval localTD) then
        let number := uUint64 (Number header) in
        let headNumber := uUint64 (Number current) in
        if number <? headNumber then Ok true
        else if number =? headNumber then
          let '(currentPreserve, externPreserve) :=
            match preserve with
            | Some p => (p current, p header)
            | None => (false, false)
            end in
          Ok (negb currentPreserve && (externPreserve || coin))
        else Ok reorg
      else Ok reorg
  | _, _ => Panic
  end.

End Rules.

(** ** Gas limits *)

Lemma int64_small z : 0 <= z <= MaxGasLimit -> int64 z = z.
Proof.
  unfold MaxGasLimit, int64. intros H. rewrite u64_small by (unfold in_u64; lia).
  by rewrite (proj2 (Z.ltb_lt _ _)) by lia.
Qed.

Lemma int64_sub x y : 0 <= x <= MaxGasLimit -> 0 <= y <= MaxGasLimit -> int64 (x - y) = x - y.
Proof.
  unfold MaxGasLimit, int64, u64. intros Hx Hy. destruct (Z.le_gt_cases y x).
  - rewrite Z.mod_small by lia. by rewrite (proj2 (Z.ltb_lt _ _)) by lia.
  - replace ((x - y) mod two64) with (x - y + two64).
    + rewrite (proj2 (Z.ltb_ge _ _)) by lia. lia.
    + rewrite <- (Z.mod_add (x - y) 1) by lia. rewrite Z.mod_small; lia.
Qed.

(** Gas limits are at most [2^63-1]; there the signed arithmetic is exact. *)
Lemma VerifyGaslimit_spec p h :
  0 <= p <= MaxGasLimit -> 0 <= h <= MaxGasLimit ->
  VerifyGaslimit p h = Ok tt <-> Z.abs (p - h) < p / GasLimitBoundDivisor /\ MinGasLimit <= h.
Proof.
  intros Hp Hh. unfold VerifyGaslimit. rewrite !(int64_small p), !(int64_small h), int64_sub by done.
  assert ((if p - h <? 0 then int64 ((p - h) * -1) else p - h) = Z.abs (p - h)) as ->.
  { destruct (Z.ltb_spec (p - h) 0); [|lia].
    replace ((p - h) * -1) with (h - p) by lia. rewrite int64_sub by done. lia. }
  rewrite u64_small by (unfold in_u64, MaxGasLimit in *; lia). rewrite bind_Ok. split.
  - intros (? & H1%fail_if_Ok & H2%fail_if_Ok). zbool. lia.
  - intros [H1 H2]. exists tt. rewrite !fail_if_Ok, Z.leb_gt, Z.ltb_ge. lia.
Qed.

(** The limit the miner computes is within the bounds and between the parent's
    and the desired one. *)
Lemma CalcGasLimit_spec p d :
  MinGasLimit <= p -> p + p / GasLimitBoundDivisor < two64 -> in_u64 d ->
  Z.abs (p - CalcGasLimit p d) < p / GasLimitBoundDivisor /\ MinGasLimit <= CalcGasLimit p d /\
  Z.min p (Z.max d MinGasLimit) <= CalcGasLimit p d <= Z.max p (Z.max d MinGasLimit).
Proof.
  unfold CalcGasLimit, MinGasLimit, GasLimitBoundDivisor, in_u64. intros Hp Hs Hd.
  pose proof (Z.div_le_mono 5000 p 1024 ltac:(lia) Hp) as Hq.
  change (5000 / 1024) with 4 in Hq.
  assert (p / 1024 <= p) by (apply Z.div_le_upper_bound; lia).
  rewrite !(sub64_small (p / 1024) 1) by (unfold in_u64; lia).
  rewrite (add64_small p) by (unfold in_u64; lia). rewrite (sub64_small p) by (unfold in_u64; lia).
  destruct (Z.ltb_spec d 5000); repeat case_match; zbool; lia.
Qed.

(** ** Base fees *)

(** The next base fee as a function of the gas used, for a positive target. *)
Definition nextFee (b target used : Z) : Z :=
  if used =? target then b
  else if target <? used then b + Z.max (b * (used - target) / target / BaseFeeChangeDenominator) 1
  else Z.max (b - b * (target - used) / target / BaseFeeChangeDenominator) 0.

Lemma CalcBaseFee_nextFee `{U : Uint256} config parent fee :
  ChainConfig.IsLondon config (uUint64 (Number parent)) = true -> BaseFee parent = Some fee ->
  in_u64 (GasLimit parent) -> in_u64 (GasUsed parent) -> 2 <= GasLimit parent ->
  CalcBaseFee config parent =
    Ok (nextFee (uval fee) (GasLimit parent / ElasticityMultiplier) (GasUsed parent)).
Proof.
  unfold in_u64. intros HL HF HG HU H2. unfold CalcBaseFee, nextFee. rewrite HL, HF. cbn [negb].
  assert (1 <= GasLimit parent / ElasticityMultiplier <= GasLimit parent).
  { unfold ElasticityMultiplier. split; [apply Z.div_le_lower_bound; lia|apply Z.div_le_upper_bound; lia]. }
  set (target := GasLimit parent / ElasticityMultiplier) in *.
  case_match; [done|]. rewrite (proj2 (Z.eqb_neq target 0)) by lia.
  case_match; zbool; rewrite sub64_small by (unfold in_u64; lia); done.
Qed.

Lemma step_le b t u : 0 <= b -> 0 < t -> 0 <= u <= t -> b * u / t / BaseFeeChangeDenominator <= b / BaseFeeChangeDenominator.
Proof.
  intros. unfold BaseFeeChangeDenominator. apply Z.div_le_mono; [lia|].
  apply Z.div_le_upper_bound; [lia|]. nia.
Qed.

Lemma step_nonneg b t u : 0 <= b -> 0 < t -> 0 <= u -> 0 <= b * u / t / BaseFeeChangeDenominator.
Proof. intros. unfold BaseFeeChangeDenominator. apply Z.div_pos; [|lia]. apply Z.div_pos; [nia|lia]. Qed.

Lemma step_mono b t u v :
  0 <= b -> 0 < t -> 0 <= u <= v ->
  b * u / t / BaseFeeChangeDenominator <= b * v / t / BaseFeeChangeDenominator.
Proof. intros. unfold BaseFeeChangeDenominator. do 2 (apply Z.div_le_mono; [lia|]). nia. Qed.

Lemma nextFee_bounds b t u :
  0 <= b -> 0 < t -> 0 <= u <= 2 * t ->
  b - b / BaseFeeChangeDenominator <= nextFee b t u <= b + Z.max (b / BaseFeeChangeDenominator) 1 /\
  (t < u -> b < nextFee b t u) /\ (u = t -> nextFee b t u = b) /\ (u < t -> nextFee b t u <= b).
Proof.
  intros Hb Ht Hu. assert (0 <= b / BaseFeeChangeDenominator <= b).
  { unfold BaseFeeChangeDenominator. split; [apply Z.div_pos; lia|apply Z.div_le_upper_bound; lia]. }
  unfold nextFee. case_match; zbool; [lia|]. case_match; zbool.
  - pose proof (step_le b t (u - t) Hb Ht ltac:(lia)). pose proof (step_nonneg b t (u - t) Hb Ht ltac:(lia)). lia.
  - pose proof (step_le b t (t - u) Hb Ht ltac:(lia)). pose proof (step_nonneg b t (t - u) Hb Ht ltac:(lia)). lia.
Qed.

Lemma nextFee_mono b t u v : 0 <= b -> 0 < t -> 0 <= u <= v -> nextFee b t u <= nextFee b t v.
Proof.
  intros Hb Ht Hu. unfold nextFee.
  pose proof (step_nonneg b t (t - u) Hb Ht). pose proof (step_nonneg b t (v - t) Hb Ht).
  pose proof (step_mono b t (u - t) (v - t) Hb Ht). pose proof (step_mono b t (t - v) (t - u) Hb Ht).
  destruct (Z.eqb_spec u t), (Z.eqb_spec v t), (Z.ltb_spec t u), (Z.ltb_spec t v); lia.
Qed.


(** C25: headers the miner prepares after the fork pass the gas and base fee
    checks of [verifyCascadingFields].  The hypotheses say that the parent is
    itself within the bounds and that the base fee fits 256 bits. *)
Theorem prepared_header_verifies `{U : Uint256} `{K : @HeaderCrypto U} config gasCeil parent timestamp coinbase h :
  let parentLimit := if ChainConfig.IsLondon config (uUint64 (Number parent)) then GasLimit parent
                     else GasLimit parent * 2 in
  MinGasLimit <= GasLimit parent -> parentLimit + parentLimit / GasLimitBoundDivisor <= MaxGasLimit ->
  0 <= gasCeil <= MaxGasLimit ->
  (forall f, CalcBaseFee config parent = Ok f -> 0 <= f < two256) ->
  prepareHeader config gasCeil parent timestamp coinbase = Ok h ->
  ChainConfig.IsLondon config (uUint64 (Number h)) = true ->
  verifyGasFields config parent h = Ok tt.
Proof.
  intros parentLimit Hmin Hmax Hceil Hfee. unfold prepareHeader. set (n := uAdd (Number parent) (uSetUint64 1)).
  assert (MinGasLimit <= parentLimit) as Hmin' by (subst parentLimit; unfold MinGasLimit in *; case_match; lia).
  assert (0 <= parentLimit / GasLimitBoundDivisor) as Hq.
  { apply Z.div_pos; [unfold MinGasLimit in *|unfold GasLimitBoundDivisor]; lia. }
  assert (parentLimit <= MaxGasLimit) as Hpm by lia.
  destruct (CalcGasLimit_spec parentLimit gasCeil Hmin') as (C1 & C2 & C3);
    [unfold MaxGasLimit in *; lia|unfold in_u64, MaxGasLimit in *; lia|].
  assert (VerifyGaslimit parentLimit (CalcGasLimit parentLimit gasCeil) = Ok tt) as HV.
  { apply VerifyGaslimit_spec; unfold MinGasLimit, MaxGasLimit in *; lia. }
  destruct (ChainConfig.IsLondon config (uUint64 n)) eqn:EL.
  2: { intros [= <-]. cbn [Number]. fold n. by rewrite EL. }
  rewrite bind_Ok. intros (f & Hf & Hh) _.
  assert (exists b, h = {| ParentHash := HeaderHash parent; Coinbase := coinbase; HRoot := 0; TxHash := 0;
       ReceiptHash := 0; Difficulty := uSetUint64 0; Number := n;
       GasLimit := CalcGasLimit parentLimit gasCeil; GasUsed := 0; Time := b; MixDigest := 0; HNonce := 0;
       Extra := []; BaseFee := Some (uFromBig f).1 |}) as [b ->].
  { subst parentLimit. destruct (ChainConfig.IsLondon config (uUint64 (Number parent))); cbn [negb] in Hh;
      injection Hh as <-; eexists; [reflexivity|]. unfold ElasticityMultiplier.
    rewrite mul64_small by (unfold in_u64, MaxGasLimit, MinGasLimit in *; lia). reflexivity. }
  unfold verifyGasFields, VerifyEip1559Header. cbn [GasLimit GasUsed Number BaseFee]. rewrite EL. cbn [negb].
  rewrite (proj2 (Z.ltb_ge _ _)) by (unfold MinGasLimit in *; lia). cbn [fail_if mbind outcome_bind].
  replace (if negb (ChainConfig.IsLondon config (uUint64 (Number parent))) then _ else GasLimit parent)
    with parentLimit.
  - rewrite HV. cbn [mbind outcome_bind]. rewrite Hf. cbn [mbind outcome_bind].
    destruct (Hfee f Hf). destruct (uFromBig_spec f) as [-> _]; [done|].
    rewrite Z.mod_small by done. by rewrite Z.eqb_refl.
  - subst parentLimit. destruct (ChainConfig.IsLondon config (uUint64 (Number parent))); cbn [negb]; [done|].
    unfold ElasticityMultiplier. by rewrite mul64_small by (unfold in_u64, MaxGasLimit, MinGasLimit in *; lia).
Qed.

(** ** Fork choice *)

(** The fork choice follows the total difficulty.  A header with a higher
    total difficulty is always taken and one with a lower never; between equal
    ones the choice is antisymmetric except for the coin toss at equal height. *)
Theorem ReorgNeeded_total_difficulty `{U : Uint256} `{K : @HeaderCrypto U} GetTd preserve coin coin' a b ta tb :
  GetTd (HeaderHash a) (Number a) = Some ta -> GetTd (HeaderHash b) (Number b) = Some tb ->
  (uval ta < uval tb -> ReorgNeeded GetTd preserve coin a b = Ok true) /\
  (uval tb < uval ta -> ReorgNeeded GetTd preserve coin a b = Ok false) /\
  (ReorgNeeded GetTd preserve coin a b = Ok true -> ReorgNeeded GetTd preserve coin' b a = Ok true ->
     uval ta = uval tb /\ uUint64 (Number a) = uUint64 (Number b) /\
     match preserve with Some p => p a = false /\ p b = false | None => True end).
Proof.
  intros Ha Hb. unfold ReorgNeeded. rewrite Ha, Hb. split_and!.
  - intros H. by rewrite (proj2 (Z.ltb_lt _ _)) by lia.
  - intros H. rewrite (proj2 (Z.ltb_ge _ _)) by lia. by rewrite (proj2 (Z.eqb_neq _ _)) by lia.
  - destruct (Z.ltb_spec (uval ta) (uval tb)), (Z.ltb_spec (uval tb) (uval ta));
      destruct (Z.eqb_spec (uval ta) (uval tb)), (Z.eqb_spec (uval tb) (uval ta)); cbn [negb andb]; try lia; try done.
    destruct (Z.ltb_spec (uUint64 (Number b)) (uUint64 (Number a))), (Z.ltb_spec (uUint64 (Number a)) (uUint64 (Number b)));
      destruct (Z.eqb_spec (uUint64 (Number a)) (uUint64 (Number b))), (Z.eqb_spec (uUint64 (Number b)) (uUint64 (Number a)));
      try lia; try done.
    intros [= HR1] [= HR2]. split_and!; [lia|lia|]. destruct preserve as [p|]; [|done].
    destruct (p a), (p b); done.
Qed.

(** ** Examples *)

Module RulesDemo.

#[local] Instance demo_u256 : Uint256 := bits_Uint256.

#[local] Instance demo_crypto : HeaderCrypto := {|
  HeaderHash := fun h => uval (Number h);
  ecrecover := fun h => Ok (Coinbase h);
  ecrecover_total := fun h => ltac:(discriminate)
|}.

(** Block [n] that used [used] gas at a fee of 1000. *)
Definition parent (n used : Z) : Header :=
  {| ParentHash := 0; Coinbase := 0; HRoot := 0; TxHash := 0; ReceiptHash := 0; Difficulty := uSetUint64 2;
     Number := uSetUint64 n; GasLimit := 30000000; GasUsed := used; Time := 100; MixDigest := 0; HNonce := 0;
     Extra := []; BaseFee := Some (uSetUint64 1000) |}.

Definition prepared (n used : Z) : outcome Header :=
  prepareHeader ChainConfig.genesisForks 40000000 (parent n used) 50 9.

End RulesDemo.

#[local] Existing Instance RulesDemo.demo_u256.
#[local] Existing Instance RulesDemo.demo_crypto.


Lemma prepared_header_verifies_witness :
  match RulesDemo.prepared 40 20000000 with
  | Ok h => verifyGasFields ChainConfig.genesisForks (RulesDemo.parent 40 20000000) h = Ok tt
  | _ => False
  end.
Proof.
  destruct (RulesDemo.prepared 40 20000000) as [h| |] eqn:Eh.
  - apply (prepared_header_verifies ChainConfig.genesisForks 40000000 (RulesDemo.parent 40 20000000) 50 9 h).
    + vm_compute. congruence.
    + vm_compute. congruence.
    + vm_compute. split; congruence.
    + intros f Hf. vm_compute in Hf. injection Hf as <-. vm_compute. split; [discriminate|reflexivity].
    + exact Eh.
    + apply (f_equal (fun o => match o with Ok h => ChainConfig.IsLondon ChainConfig.genesisForks (uUint64 (Number h)) | _ => false end)) in Eh.
      rewrite <- Eh. vm_compute. reflexivity.
  - apply (f_equal (fun o => match o with Ok _ => true | _ => false end)) in Eh. vm_compute in Eh. discriminate Eh.
  - apply (f_equal (fun o => match o with Ok _ => true | _ => false end)) in Eh. vm_compute in Eh. discriminate Eh.
Defined.

Lemma ReorgNeeded_total_difficulty_witness :
  ReorgNeeded (fun _ n => Some n) None false (RulesDemo.parent 40 0) (RulesDemo.parent 41 0) = Ok true.
Proof.
  apply (ReorgNeeded_total_difficulty (fun _ n => Some n) None false false (RulesDemo.parent 40 0)
    (RulesDemo.parent 41 0) (uSetUint64 40) (uSetUint64 41) eq_refl eq_refl).
  vm_compute. reflexivity.
Defined.

(** Before the London fork the miner sets the base fee to zero instead of
    leaving it out, and its own header then fails the check. *)
Theorem preLondon_header_rejected :
  match RulesDemo.prepared 3 0 with
  | Ok h => verifyGasFields ChainConfig.genesisForks (RulesDemo.parent 3 0) h =
            Err "invalid baseFee before fork: have %d, want <nil>"
  | _ => False
  end.
Proof. vm_compute. reflexivity. Qed.

End HeaderRules.
