(* ===== verification/AccessList.v ===== *)
(** * AccessList: [modules/state/access_list.go]

    The EIP-2929 access list of a transaction: a map from addresses to an index
    into a slice of slot sets, [-1] for an address without slots.  The theorems
    relate it to a pair of sets (the abstract access list) and show that the
    deletions the journal performs undo the additions exactly. *)

From S2P Require Import Prelude.

Module AccessList.

Record accessList := mkAccessList {
  addresses : gmap Address Z;
  slots : list (gset Hash)
}.

(** Index into a Go slice; [None] is the index-out-of-range panic. *)
Definition index {A} (l : list A) (i : Z) : option A :=
  if i <? 0 then None else l !! Z.to_nat i.

Definition newAccessList : accessList := {| addresses := ∅; slots := [] |}.

Definition ContainsAddress (al : accessList) (address : Address) : bool :=
  bool_decide (is_Some (addresses al !! address)).

(** [None] is a panic (index out of range). *)
Definition Contains (al : accessList) (address : Address) (slot : Hash) : option (bool * bool) :=
  match addresses al !! address with
  | None => Some (false, false)
  | Some idx =>
      if idx =? -1 then Some (true, false)
      else s ← index (slots al) idx; Some (true, bool_decide (slot ∈ s))
  end.

(** The deep copy ranges over the maps and fills new ones. *)
Definition Copy `{MapRange} (al : accessList) : accessList :=
  {| addresses := foldl (fun m kv => <[kv.1 := kv.2]> m) ∅ (range (addresses al));
     slots := map (fun slotMap : gset Hash => list_to_set (elements slotMap)) (slots al) |}.

Definition AddAddress (al : accessList) (address : Address) : accessList * bool :=
  match addresses al !! address with
  | Some _ => (al, false)
  | None => ({| addresses := <[address := -1]> (addresses al); slots := slots al |}, true)
  end.

(** Returns the list and the flags (address added, slot added). *)
Definition AddSlot (al : accessList) (address : Address) (slot : Hash)
  : option (accessList * (bool * bool)) :=
  let fresh addrPresent :=
    Some ({| addresses := <[address := Z.of_nat (length (slots al))]> (addresses al);
             slots := slots al ++ [{[ slot ]}] |}, (negb addrPresent, true)) in
  match addresses al !! address with
  | None => fresh false
  | Some idx =>
      if idx =? -1 then fresh true
      else
        slotmap ← index (slots al) idx;
        if bool_decide (slot ∈ slotmap) then Some (al, (false, false))
        else Some ({| addresses := addresses al;
                      slots := <[Z.to_nat idx := {[ slot ]} ∪ slotmap]> (slots al) |},
                   (false, true))
  end.

(** [None] is the panic for a missing address or a bad index. *)
Definition DeleteSlot (al : accessList) (address : Address) (slot : Hash) : option accessList :=
  idx ← addresses al !! address;
  slotmap ← index (slots al) idx;
  let slotmap' := slotmap ∖ {[ slot ]} in
  if decide (slotmap' = ∅) then
    Some {| addresses := <[address := -1]> (addresses al); slots := take (Z.to_nat idx) (slots al) |}
  else Some {| addresses := addresses al; slots := <[Z.to_nat idx := slotmap']> (slots al) |}.

Definition DeleteAddress (al : accessList) (address : Address) : accessList :=
  {| addresses := delete address (addresses al); slots := slots al |}.

(** ** Well-formedness *)

(** Every index is [-1] or in range, no two addresses share a set, and no set
    is empty. *)
Record wf (al : accessList) : Prop := {
  wf_range : forall a i, addresses al !! a = Some i -> i = -1 \/ 0 <= i < Z.of_nat (length (slots al));
  wf_inj : forall a b i, addresses al !! a = Some i -> addresses al !! b = Some i -> i <> -1 -> a = b;
  wf_nonempty : forall i s, slots al !! i = Some s -> s <> ∅
}.

(** The abstract access list: the slots an address holds, if it is present. *)
Definition abs (al : accessList) (a : Address) : option (gset Hash) :=
  idx ← addresses al !! a;
  if idx =? -1 then Some ∅ else index (slots al) idx.

Lemma index_of_nat {A} (l : list A) (n : nat) : index l (Z.of_nat n) = l !! n.
Proof. unfold index. destruct (Z.ltb_spec (Z.of_nat n) 0); [lia|]. by rewrite Nat2Z.id. Qed.

Lemma index_Some {A} (l : list A) i : 0 <= i < Z.of_nat (length l) -> is_Some (index l i).
Proof.
  intros. unfold index. destruct (Z.ltb_spec i 0); [lia|].
  apply lookup_lt_is_Some. lia.
Qed.

Lemma wf_new : wf newAccessList.
Proof. split; cbn; intros; simplify_map_eq. Qed.

Lemma wf_abs al a : wf al -> (is_Some (abs al a) <-> is_Some (addresses al !! a)).
Proof.
  intros W. unfold abs. destruct (addresses al !! a) as [i|] eqn:E; cbn; [|done].
  split; [by eauto|intros _].
  destruct (Z.eqb_spec i (-1)); [by eauto|].
  apply index_Some. by destruct (wf_range _ W _ _ E).
Qed.

Lemma wf_AddAddress al a : wf al -> wf (AddAddress al a).1.
Proof.
  intros W. unfold AddAddress. destruct (addresses al !! a) eqn:E; [done|].
  destruct W as [Wr Wi Wn]. split; cbn; [| |done].
  - intros b i. rewrite lookup_insert. case_decide; [intros [= <-]; by left|apply Wr].
  - intros b c i. rewrite !lookup_insert. repeat case_decide; subst; intros; simplify_eq; eauto.
Qed.

Lemma AddSlot_total al a k : wf al -> is_Some (AddSlot al a k).
Proof.
  intros W. unfold AddSlot. destruct (addresses al !! a) as [i|] eqn:E; [|by eauto].
  destruct (Z.eqb_spec i (-1)); [by eauto|].
  destruct (index_Some (slots al) i) as [s ->].
  { by destruct (wf_range _ W _ _ E). }
  cbn. case_bool_decide; eauto.
Qed.

(** The two ways [AddSlot] changes the list. *)
Lemma AddSlot_inv al a k al' fl :
  wf al -> AddSlot al a k = Some (al', fl) ->
  (fl = (negb (ContainsAddress al a), true) /\
     (addresses al !! a = None \/ addresses al !! a = Some (-1)) /\
     al' = {| addresses := <[a := Z.of_nat (length (slots al))]> (addresses al);
              slots := slots al ++ [{[ k ]}] |}) \/
  (exists i s, addresses al !! a = Some (Z.of_nat i) /\ slots al !! i = Some s /\
     ((fl = (false, false) /\ (k ∈ s) /\ al' = al) \/
      (fl = (false, true) /\ (k ∉ s) /\
       al' = {| addresses := addresses al; slots := <[i := {[ k ]} ∪ s]> (slots al) |}))).
Proof.
  intros W. unfold AddSlot, ContainsAddress.
  destruct (addresses al !! a) as [i|] eqn:E.
  2: { intros [= <- <-]. left. rewrite bool_decide_false by (by intros [? ?]). auto. }
  destruct (Z.eqb_spec i (-1)) as [->|Hi].
  { intros [= <- <-]. left. rewrite bool_decide_true by eauto. auto. }
  destruct (wf_range _ W _ _ E) as [|[Hlo Hhi]]; [done|].
  rewrite <- (Z2Nat.id i Hlo), index_of_nat, Nat2Z.id.
  destruct (slots al !! Z.to_nat i) as [s|] eqn:Es; cbn; [|done].
  case_bool_decide; intros [= <- <-]; right; exists (Z.to_nat i), s; rewrite Z2Nat.id by done; auto 10.
Qed.

Lemma wf_AddSlot al a k al' fl : wf al -> AddSlot al a k = Some (al', fl) -> wf al'.
Proof.
  intros W H. destruct (AddSlot_inv _ _ _ _ _ W H)
    as [(_ & Ha & ->)|(i & s & Ha & Hs & [(_ & _ & ->)|(_ & Hk & ->)])]; [|done|];
    destruct W as [Wr Wi Wn]; split; cbn.
  - intros b j. rewrite length_app, lookup_insert; simpl.
    case_decide; [intros [= <-]; right; lia|]. intros Hj. destruct (Wr _ _ Hj); [by left|right; lia].
  - intros b c j. rewrite !lookup_insert. repeat case_decide; subst; intros Hb Hc Hj; simplify_eq; eauto.
    + destruct (Wr _ _ Hc); lia.
    + destruct (Wr _ _ Hb); lia.
  - intros j t Ht. apply lookup_app_Some in Ht as [Ht|[_ Ht]]; [by eapply Wn|].
    apply list_lookup_singleton_Some in Ht as [_ <-]. set_solver.
  - intros b j. rewrite length_insert. apply Wr.
  - apply Wi.
  - intros j t. rewrite list_lookup_insert_Some. intros [(_ & <- & _)|[_ Ht]]; [set_solver|by eapply Wn].
Qed.

(** ** Refinement of the abstract list *)

Lemma abs_AddAddress al a b :
  wf al ->
  abs (AddAddress al a).1 b =
  if decide (a = b) then Some (default ∅ (abs al a)) else abs al b.
Proof.
  intros W. unfold AddAddress. destruct (addresses al !! a) as [i|] eqn:E; cbn.
  - case_decide as Hab; [|done]. subst b.
    destruct (proj2 (wf_abs al a W)) as [s ->]; [by rewrite E|done].
  - unfold abs; cbn. rewrite lookup_insert. case_decide as Hab; [|done].
    by rewrite E.
Qed.

Lemma abs_AddSlot al a k al' fl b :
  wf al -> AddSlot al a k = Some (al', fl) ->
  abs al' b = if decide (a = b) then Some ({[ k ]} ∪ default ∅ (abs al a)) else abs al b.
Proof.
  intros W H. destruct (AddSlot_inv _ _ _ _ _ W H)
    as [(_ & Ha & ->)|(i & s & Ha & Hs & Hc)].
  - unfold abs; cbn. rewrite lookup_insert. case_decide as Hab.
    + subst b; cbn. destruct (Z.eqb_spec (Z.of_nat (length (slots al))) (-1)); [lia|].
      rewrite index_of_nat, lookup_app_r, Nat.sub_diag by lia. cbn.
      f_equal. destruct Ha as [-> | ->]; cbn; by rewrite (right_id_L ∅ (∪)).
    + destruct (addresses al !! b) as [j|] eqn:Eb; cbn; [|done].
      destruct (Z.eqb_spec j (-1)); [done|]. unfold index. destruct (Z.ltb_spec j 0); [done|].
      destruct (wf_range _ W _ _ Eb) as [|?]; [done|]. apply lookup_app_l. lia.
  - assert (abs al a = Some s) as Habs.
    { unfold abs. rewrite Ha; cbn. destruct (Z.eqb_spec (Z.of_nat i) (-1)); [lia|].
      by rewrite index_of_nat. }
    rewrite Habs; cbn.
    destruct Hc as [(_ & Hk & ->)|(_ & Hk & ->)].
    + case_decide; [|done]. subst. rewrite Habs. f_equal. set_solver.
    + unfold abs; cbn. case_decide as Hab.
      * subst b. rewrite Ha; cbn. destruct (Z.eqb_spec (Z.of_nat i) (-1)); [lia|].
        rewrite index_of_nat. apply list_lookup_insert_eq. by eapply lookup_lt_Some.
      * destruct (addresses al !! b) as [j|] eqn:Eb; cbn; [|done].
        destruct (Z.eqb_spec j (-1)); [done|]. unfold index. destruct (Z.ltb_spec j 0); [done|].
        apply list_lookup_insert_ne. intros ->. apply Hab, (wf_inj _ W a b j); auto.
        by rewrite Ha, Z2Nat.id.
Qed.

Lemma Contains_abs al a k :
  wf al ->
  Contains al a k = Some (bool_decide (is_Some (abs al a)), bool_decide (k ∈ default ∅ (abs al a))).
Proof.
  intros W. unfold Contains, abs. destruct (addresses al !! a) as [i|] eqn:E; cbn.
  2: done.
  destruct (Z.eqb_spec i (-1)); cbn; [done|].
  destruct (index_Some (slots al) i) as [s ->]; [by destruct (wf_range _ W _ _ E)|]. done.
Qed.

Lemma AddSlot_flags al a k al' fl :
  wf al -> AddSlot al a k = Some (al', fl) ->
  fl = (negb (bool_decide (is_Some (abs al a))), bool_decide (k ∉ default ∅ (abs al a))).
Proof.
  intros W H. pose proof (wf_abs al a W) as Hwa.
  destruct (AddSlot_inv _ _ _ _ _ W H) as [(-> & Ha & _)|(i & s & Ha & Hs & Hc)].
  - unfold ContainsAddress. f_equal.
    + f_equal. apply bool_decide_ext. tauto.
    + unfold abs. by destruct Ha as [-> | ->].
  - assert (abs al a = Some s) as ->.
    { unfold abs. rewrite Ha; cbn. destruct (Z.eqb_spec (Z.of_nat i) (-1)); [lia|].
      by rewrite index_of_nat. }
    cbn.
    destruct Hc as [(-> & Hk & _)|(-> & Hk & _)].
    + rewrite (bool_decide_false (k ∉ s)); auto.
    + rewrite (bool_decide_true (k ∉ s)); auto.
Qed.

(** ** Undoing additions *)

Lemma DeleteAddress_AddAddress al a al' :
  AddAddress al a = (al', true) -> DeleteAddress al' a = al.
Proof.
  unfold AddAddress. destruct al as [m s], (m !! a) eqn:E; cbn in *; rewrite E; [done|].
  intros [= <-]. unfold DeleteAddress; cbn. by rewrite delete_insert_id.
Qed.

(** A deleted slot leaves the address the same [AddSlot] introduced. *)
Lemma DeleteSlot_AddSlot al a k al' ac :
  wf al -> AddSlot al a k = Some (al', (ac, true)) ->
  DeleteSlot al' a k = Some (if ac then (AddAddress al a).1 else al).
Proof.
  intros W H. destruct (AddSlot_inv _ _ _ _ _ W H)
    as [([= Hac] & Ha & ->)|(i & s & Ha & Hs & [([=] & _ & _)|([= ->] & Hk & ->)])].
  - unfold DeleteSlot; cbn. rewrite lookup_insert_eq; cbn.
    rewrite index_of_nat, lookup_app_r, Nat.sub_diag by lia; cbn.
    rewrite decide_True by set_solver.
    rewrite Nat2Z.id, take_app_length, insert_insert_eq.
    destruct al as [m ss]; cbn in *. unfold ContainsAddress in Hac; cbn in Hac. unfold AddAddress; cbn.
    destruct Ha as [Ha|Ha]; rewrite Ha in Hac |- *; subst ac; cbn; [done|].
    by rewrite insert_id.
  - unfold DeleteSlot; cbn. rewrite Ha; cbn.
    rewrite index_of_nat, list_lookup_insert_eq by (by eapply lookup_lt_Some); cbn.
    replace (({[ k ]} ∪ s) ∖ {[ k ]}) with s by set_solver.
    rewrite decide_False by (by eapply wf_nonempty).
    rewrite Nat2Z.id, list_insert_insert_eq, list_insert_id by done.
    by destruct al.
Qed.

Lemma AddSlot_absent al a k al' b :
  wf al -> AddSlot al a k = Some (al', (true, b)) -> addresses al !! a = None.
Proof.
  intros W H. pose proof (AddSlot_flags _ _ _ _ _ W H) as [= Hf _].
  destruct (addresses al !! a) eqn:Ea; [|done].
  destruct (proj2 (wf_abs al a W)) as [s Hs]; [by rewrite Ea|].
  rewrite Hs in Hf. done.
Qed.

(** ** Sequences of additions against the abstract list *)

Inductive call := CAddAddress (a : Address) | CAddSlot (a : Address) (k : Hash).

(** Runs the calls; collects the flags each one returns. *)
Fixpoint calls (al : accessList) (l : list call) : option (accessList * list (bool * bool)) :=
  match l with
  | [] => Some (al, [])
  | c :: l =>
      '(al, f) ← match c with
                 | CAddAddress a => let '(al, b) := AddAddress al a in Some (al, (b, false))
                 | CAddSlot a k => AddSlot al a k
                 end;
      '(al, fs) ← calls al l;
      Some (al, f :: fs)
  end.

(** The contract: a map from addresses to sets of slots. *)
Abbreviation spec := (gmap Address (gset Hash)).

Definition spec_call (m : spec) (c : call) : spec * (bool * bool) :=
  match c with
  | CAddAddress a =>
      (<[a := default ∅ (m !! a)]> m, (bool_decide (m !! a = None), false))
  | CAddSlot a k =>
      (<[a := {[ k ]} ∪ default ∅ (m !! a)]> m,
       (bool_decide (m !! a = None), bool_decide (k ∉ default ∅ (m !! a))))
  end.

Fixpoint spec_calls (m : spec) (l : list call) : spec * list (bool * bool) :=
  match l with
  | [] => (m, [])
  | c :: l =>
      let '(m, f) := spec_call m c in
      let '(m, fs) := spec_calls m l in (m, f :: fs)
  end.

(** The refinement relation. *)
Definition refines (al : accessList) (m : spec) : Prop := wf al /\ forall a, abs al a = m !! a.

Lemma negb_is_Some {A} (o : option A) : negb (bool_decide (is_Some o)) = bool_decide (o = None).
Proof. destruct o; by rewrite ?bool_decide_true, ?bool_decide_false by (done || by intros []). Qed.

Lemma AddAddress_flag al a : wf al -> (AddAddress al a).2 = negb (bool_decide (is_Some (abs al a))).
Proof.
  intros W. pose proof (wf_abs al a W) as Hwa. unfold AddAddress.
  destruct (addresses al !! a) eqn:E; cbn.
  - rewrite bool_decide_true; [done|]. apply Hwa. eauto.
  - rewrite bool_decide_false; [done|]. intros H%Hwa. by destruct H.
Qed.

Lemma refines_call al m c :
  refines al m ->
  exists al', match c with
              | CAddAddress a => let '(al, b) := AddAddress al a in Some (al, (b, false))
              | CAddSlot a k => AddSlot al a k
              end = Some (al', (spec_call m c).2) /\ refines al' (spec_call m c).1.
Proof.
  intros [W R]. destruct c as [a|a k]; cbn.
  - pose proof (AddAddress_flag al a W) as Hf. pose proof (wf_AddAddress al a W).
    pose proof (fun b => abs_AddAddress al a b W) as Ha.
    destruct (AddAddress al a) as [al' f]. cbn in *. exists al'.
    rewrite Hf, negb_is_Some, <- R. split; [done|]. split; [done|].
    intros b. rewrite Ha, lookup_insert, <- R. by case_decide.
  - destruct (AddSlot_total al a k W) as [[al' f] Hs].
    exists al'. rewrite Hs, (AddSlot_flags _ _ _ _ _ W Hs), negb_is_Some, <- R.
    split; [done|]. split; [by eapply wf_AddSlot|].
    intros b. rewrite (abs_AddSlot _ _ _ _ _ b W Hs), lookup_insert, <- R. by case_decide.
Qed.

Lemma refines_calls l al m :
  refines al m ->
  exists al', calls al l = Some (al', (spec_calls m l).2) /\ refines al' (spec_calls m l).1.
Proof.
  revert al m. induction l as [|c l IH]; intros al m R; cbn; [by exists al|].
  destruct (refines_call al m c R) as (al1 & -> & R1).
  destruct (spec_call m c) as [m1 f]. cbn in *.
  destruct (IH al1 m1 R1) as (al2 & -> & R2). destruct (spec_calls m1 l). by exists al2.
Qed.

Lemma refines_new : refines newAccessList ∅.
Proof. split; [apply wf_new|]. intros a. by rewrite lookup_empty. Qed.

Lemma refines_Contains al m a k :
  refines al m -> Contains al a k = Some (bool_decide (is_Some (m !! a)), bool_decide (k ∈ default ∅ (m !! a))).
Proof. intros [W R]. by rewrite Contains_abs, R. Qed.

(** ** Undoing additions *)

(** What the journal does for one call that returned [f]. *)
Definition undo (al : accessList) (c : call) (f : bool * bool) : option accessList :=
  match c with
  | CAddAddress a => Some (if f.1 then DeleteAddress al a else al)
  | CAddSlot a k =>
      al ← (if f.2 then DeleteSlot al a k else Some al);
      Some (if f.1 then DeleteAddress al a else al)
  end.

(** Latest call first. *)
Fixpoint undo_calls (al : accessList) (l : list call) (fs : list (bool * bool)) : option accessList :=
  match l, fs with
  | c :: l, f :: fs => al ← undo_calls al l fs; undo al c f
  | _, _ => Some al
  end.

Lemma undo_call al m c al1 f :
  refines al m ->
  match c with
  | CAddAddress a => let '(al, b) := AddAddress al a in Some (al, (b, false))
  | CAddSlot a k => AddSlot al a k
  end = Some (al1, f) -> undo al1 c f = Some al.
Proof.
  intros [W R]. destruct c as [a|a k]; cbn.
  - destruct (AddAddress al a) as [al' b] eqn:E. intros [= <- <-]. cbn.
    destruct b; [by rewrite (DeleteAddress_AddAddress _ _ _ E)|].
    revert E. unfold AddAddress. case_match; by intros [= <-].
  - intros H. destruct f as [b [|]]; cbn.
    + rewrite (DeleteSlot_AddSlot _ _ _ _ _ W H). destruct b; cbn; [|done].
      pose proof (AddSlot_absent _ _ _ _ _ W H) as Hn.
      rewrite (DeleteAddress_AddAddress al a); [done|]. unfold AddAddress. by rewrite Hn.
    + destruct (AddSlot_inv _ _ _ _ _ W H)
        as [([=] & _)|(i & s & _ & _ & [([= ->] & _ & ->)|([=] & _)])]. done.
Qed.

Lemma undo_calls_spec l al m al' fs :
  refines al m -> calls al l = Some (al', fs) -> undo_calls al' l fs = Some al.
Proof.
  revert al m al' fs. induction l as [|c l IH]; intros al m al' fs R; cbn; [by intros [= <- <-]|].
  destruct (refines_call al m c R) as (al1 & Hc & R1). rewrite Hc. cbn.
  destruct (calls al1 l) as [[al2 fs']|] eqn:El; cbn; [|done]. intros [= <- <-].
  rewrite (IH al1 _ _ _ R1 El). cbn. by apply (undo_call al m).
Qed.

(** C18: the two-level representation (a map of indices into a slice of sets)
    implements a map from addresses to sets of slots.  No sequence of additions
    panics; every call reports exactly what it added; and membership of every
    address and slot is that of the abstract map. *)
Theorem access_list_refines (l : list call) :
  exists al, calls newAccessList l = Some (al, (spec_calls ∅ l).2) /\
    forall a k, Contains al a k =
      Some (bool_decide (is_Some ((spec_calls ∅ l).1 !! a)),
            bool_decide (k ∈ default ∅ ((spec_calls ∅ l).1 !! a))) /\
      ContainsAddress al a = bool_decide (is_Some ((spec_calls ∅ l).1 !! a)).
Proof.
  destruct (refines_calls l _ _ refines_new) as (al & Hc & R). exists al. split; [done|].
  intros a k. split; [by apply refines_Contains|].
  unfold ContainsAddress. apply bool_decide_ext. destruct R as [W Ra].
  rewrite <- Ra. symmetry. by apply wf_abs.
Qed.

(** Undoing additions in reverse order, as the journal does, never panics
    and gives back the very list the additions started from, after any earlier
    additions: truncating the slice drops no other address's slots. *)
Theorem access_list_undo (pre l : list call) al al' fs fs' :
  calls newAccessList pre = Some (al, fs) -> calls al l = Some (al', fs') ->
  undo_calls al' l fs' = Some al.
Proof.
  intros Hp Hl. destruct (refines_calls pre _ _ refines_new) as (al0 & Hc & R).
  rewrite Hp in Hc. simplify_eq. by eapply undo_calls_spec.
Qed.

Lemma access_list_undo_witness :
  exists al al' fs fs', calls newAccessList [CAddSlot 1 10; CAddAddress 2] = Some (al, fs) /\
    calls al [CAddSlot 2 20; CAddSlot 1 11; CAddSlot 3 30; CAddSlot 2 20] = Some (al', fs') /\
    length (slots al') = 3%nat /\
    undo_calls al' [CAddSlot 2 20; CAddSlot 1 11; CAddSlot 3 30; CAddSlot 2 20] fs' = Some al.
Proof.
  do 4 eexists. split; [reflexivity|]. split; [reflexivity|]. split; [reflexivity|].
  eapply (access_list_undo [CAddSlot 1 10; CAddAddress 2]); reflexivity.
Defined.

(** [Copy] is a copy whatever the order maps are visited in. *)
Theorem access_list_copy `{MapRange} (al : accessList) : Copy al = al.
Proof.
  destruct al as [m l]. unfold Copy. cbn. f_equal.
  - apply range_copy.
  - rewrite <- (list_fmap_id l) at 2. apply list_fmap_ext. intros i s _. cbn.
    apply list_to_set_elements_L.
Qed.

End AccessList.
