(* ===== verification/RlpEncode.v ===== *)
(** * RlpEncode: writing RLP ([internal/avm/rlp/encode.go], [raw.go])

    The sizes and headers of RLP, the buffer [encbuf] with its list headers kept
    aside, the writers of strings and integers, and the three ways the buffer
    leaves the package: as a slice, to a writer, and through a reader that hands
    it out in pieces.  An [item] with its [encoding] is the format as the package
    documentation states it. *)

From S2P Require Import Prelude Uint256.

Module Rlp.

Definition byte (z : Z) : Z := z mod 256.

Definition EmptyStringCode : Z := 0x80.
Definition EmptyListCode : Z := 0xC0.

(** ** Sizes and headers *)

(** [bits.Len64] *)
Definition Len64 (i : Z) : Z := if i =? 0 then 0 else Z.log2 i + 1.

Definition intsize (i : Z) : Z := (Len64 i + 7) / 8.

(** The number of bytes [putint] chooses. *)
Definition putintSize (i : Z) : nat :=
  if i <? 2 ^ 8 then 1
  else if i <? 2 ^ 16 then 2
  else if i <? 2 ^ 24 then 3
  else if i <? 2 ^ 32 then 4
  else if i <? 2 ^ 40 then 5
  else if i <? 2 ^ 48 then 6
  else if i <? 2 ^ 56 then 7
  else 8.

(** What [putint] writes; its size is the length. *)
Definition putint (i : Z) : list Z := be_bytes (putintSize i) i.

Definition headsize (size : Z) : Z := if size <? 56 then 1 else 1 + intsize size.

Definition puthead (smalltag largetag size : Z) : list Z :=
  if size <? 56 then [byte (smalltag + size)]
  else let b := putint size in byte (largetag + Z.of_nat (length b)) :: b.

Definition BytesSize (b : list Z) : Z :=
  match b with
  | [] => 1
  | [x] => if x <=? 0x7f then 1 else 2
  | _ => u64 (headsize (Z.of_nat (length b)) + Z.of_nat (length b))
  end.
Definition ListSize (contentSize : Z) : Z := headsize contentSize +u contentSize.
Definition IntSize (x : Z) : Z := if x <? 0x80 then 1 else 1 + intsize x.

(** [append(b, ...)] with the bytes of the switch. *)
Definition AppendUint64 (b : list Z) (i : Z) : list Z :=
  if i =? 0 then b ++ [0x80]
  else if i <? 128 then b ++ [byte i]
  else b ++ byte (0x80 + Z.of_nat (putintSize i)) :: be_bytes (putintSize i) i.

(** ** The buffer *)

Record listhead := { offset : Z; size_ : Z }.
Record encbuf := { str : list Z; lheads : list listhead; lhsize : Z }.

Definition emptybuf : encbuf := {| str := []; lheads := []; lhsize := 0 |}.

Definition write (b : list Z) (w : encbuf) : encbuf :=
  {| str := str w ++ b; lheads := lheads w; lhsize := lhsize w |}.

Definition size (w : encbuf) : Z := Z.of_nat (length (str w)) + lhsize w.

Definition encodeStringHeader (n : Z) (w : encbuf) : encbuf :=
  if n <? 56 then write [byte (EmptyStringCode + n)] w
  else let b := putint n in write (byte (0xB7 + Z.of_nat (length b)) :: b) w.

Definition encodeString (b : list Z) (w : encbuf) : encbuf :=
  match b with
  | [x] => if x <=? 0x7F then write [x] w else write b (encodeStringHeader 1 w)
  | _ => write b (encodeStringHeader (Z.of_nat (length b)) w)
  end.

Definition encodeUint (i : Z) (w : encbuf) : encbuf :=
  if i =? 0 then write [0x80] w
  else if i <? 128 then write [byte i] w
  else let b := putint i in write (byte (0x80 + Z.of_nat (length b)) :: b) w.

(** [list] returns the index of the new header. *)
Definition list_ (w : encbuf) : encbuf * nat :=
  ({| str := str w; lheads := lheads w ++ [{| offset := Z.of_nat (length (str w)); size_ := lhsize w |}]; lhsize := lhsize w |},
   length (lheads w)).

Definition listEnd (index : nat) (w : encbuf) : outcome encbuf :=
  lh ← or_panic (lheads w !! index);
  let n := size w - offset lh - size_ lh in
  Ok {| str := str w; lheads := <[index := {| offset := offset lh; size_ := n |}]> (lheads w);
        lhsize := lhsize w + if n <? 56 then 1 else 1 + intsize n |}.

(** ** Strings and integers *)

(** A [[]byte] writes like a string.  Arrays of length 0 and 1 have writers of
    their own; a longer array is copied behind its header. *)
Definition writeByteArray (b : list Z) (w : encbuf) : encbuf :=
  match b with
  | [] => write [0x80] w
  | [x] => if x <=? 0x7f then write [x] w else write [0x81; x] w
  | _ => write b (encodeStringHeader (Z.of_nat (length b)) w)
  end.

Definition writeBool (b : bool) (w : encbuf) : encbuf := write [if b then 0x01 else EmptyStringCode] w.

Definition errNegative : error := "rlp: cannot encode negative *big.Int".

(** [i.Bits()] from its end: the byte at [index] is byte [length - 1 - index] of
    the number. *)
Definition writeBigInt (i : Z) (w : encbuf) : outcome encbuf :=
  if i <? 0 then Err errNegative
  else
    let bitlen := Len64 i in
    if bitlen <=? 64 then Ok (encodeUint i w)
    else
      let length := Z.shiftr (Z.land (bitlen + 7) (-8)) 3 in
      Ok (write (be_bytes (Z.to_nat length) i) (encodeStringHeader length w)).

(** [ByteLen] and [WriteToSlice] of a 256-bit integer *)
Definition uByteLen `{U : Uint256} (x : u256) : Z := intsize (uval x).
Definition uWriteToSlice `{U : Uint256} (n : nat) (x : u256) : list Z := be_bytes n (uval x).

Definition writeUint256 `{U : Uint256} (i : u256) (w : encbuf) : encbuf :=
  if uIsZero i then write [EmptyStringCode] w
  else if uval i <? 0x80 then write [byte (uUint64 i)] w
  else
    let n := uByteLen i in
    write (uWriteToSlice (Z.to_nat n) i) (write [byte (EmptyStringCode + byte n)] w).

(** ** Putting the headers in *)

(** [copy(out[pos:], src)]: what fits, and how much. *)
Definition copyAt (out : list Z) (pos : nat) (src : list Z) : list Z * nat :=
  let n := Nat.min (length out - pos) (length src) in
  (take pos out ++ take n src ++ drop (pos + n) out, n).

(** [head.encode(out[pos:])] *)
Definition headAt (out : list Z) (pos : nat) (head : listhead) : outcome (list Z * nat) :=
  let h := puthead 0xC0 0xF7 (size_ head) in
  if Nat.ltb (length out) (pos + length h) then Panic
  else Ok (take pos out ++ h ++ drop (pos + length h) out, length h).

(** [w.str[strpos:end]] *)
Definition slice (s : list Z) (lo hi : Z) : outcome (list Z) :=
  if (lo <? 0) || (hi <? lo) || (Z.of_nat (length s) <? hi) then Panic
  else Ok (take (Z.to_nat (hi - lo)) (drop (Z.to_nat lo) s)).

Fixpoint toBytes_loop (s : list Z) (heads : list listhead) (strpos pos : nat) (out : list Z) : outcome (list Z * nat * nat) :=
  match heads with
  | [] => Ok (out, strpos, pos)
  | head :: heads =>
      p ← slice s (Z.of_nat strpos) (offset head);
      let '(out, n) := copyAt out pos p in
      '(out, m) ← headAt out (pos + n) head;
      toBytes_loop s heads (strpos + n) (pos + n + m) out
  end.

Definition toBytes (w : encbuf) : outcome (list Z) :=
  if size w <? 0 then Panic
  else
    '(out, strpos, pos) ← toBytes_loop (str w) (lheads w) 0 0 (replicate (Z.to_nat (size w)) 0);
    p ← slice (str w) (Z.of_nat strpos) (Z.of_nat (length (str w)));
    Ok (copyAt out pos p).1.

(** ** Other outputs *)

(** [io.Writer]: the bytes taken and an error. *)
Section Writer.
Context {S : Type} (Write : S -> list Z -> S * Z * option error).

Fixpoint toWriter_loop (s : list Z) (heads : list listhead) (strpos : Z) (out : S) : outcome (S * Z * option error) :=
  match heads with
  | [] => Ok (out, strpos, None)
  | head :: heads =>
      '(out, strpos, err) ←
        (if 0 <? offset head - strpos then
           p ← slice s strpos (offset head);
           let '(out, n, err) := Write out p in Ok (out, strpos + n, err)
         else Ok (out, strpos, None));
      match err with
      | Some e => Ok (out, strpos, Some e)
      | None =>
          let '(out, _, err) := Write out (puthead 0xC0 0xF7 (size_ head)) in
          match err with
          | Some e => Ok (out, strpos, Some e)
          | None => toWriter_loop s heads strpos out
          end
      end
  end.

Definition toWriter (w : encbuf) (out : S) : outcome (S * option error) :=
  '(out, strpos, err) ← toWriter_loop (str w) (lheads w) 0 out;
  match err with
  | Some e => Ok (out, Some e)
  | None =>
      if strpos <? Z.of_nat (length (str w)) then
        p ← slice (str w) strpos (Z.of_nat (length (str w)));
        let '(out, _, err) := Write out p in Ok (out, err)
      else Ok (out, None)
  end.
End Writer.

(** The reader of [EncodeToReader]; [None] for a nil [buf] or [piece]. *)
Record encReader := { rbuf : option encbuf; lhpos : nat; strpos : Z; piece : option (list Z) }.

Definition next (r : encReader) : outcome (encReader * option (list Z)) :=
  match rbuf r with
  | None => Ok (r, None)
  | Some w =>
      match piece r with
      | Some p => Ok (r, Some p)
      | None =>
          match lheads w !! lhpos r with
          | Some head =>
              if 0 <? offset head - strpos r then
                p ← slice (str w) (strpos r) (offset head);
                Ok ({| rbuf := rbuf r; lhpos := lhpos r; strpos := offset head; piece := piece r |}, Some p)
              else
                Ok ({| rbuf := rbuf r; lhpos := S (lhpos r); strpos := strpos r; piece := piece r |},
                    Some (puthead 0xC0 0xF7 (size_ head)))
          | None =>
              if strpos r <? Z.of_nat (length (str w)) then
                p ← slice (str w) (strpos r) (Z.of_nat (length (str w)));
                Ok ({| rbuf := rbuf r; lhpos := lhpos r; strpos := Z.of_nat (length (str w)); piece := piece r |}, Some p)
              else Ok (r, None)
          end
      end
  end.

Definition with_piece (p : option (list Z)) (r : encReader) : encReader :=
  {| rbuf := rbuf r; lhpos := lhpos r; strpos := strpos r; piece := p |}.

(** [Read] into a buffer with room for [n] more bytes: what was read and whether
    the end was reached.  Every round hands out a piece. *)
Fixpoint Read_loop (fuel : nat) (n : nat) (got : list Z) (r : encReader) : outcome (encReader * list Z * bool) :=
  match fuel with
  | O => Err "out of fuel"
  | S fuel =>
      '(r, p) ← next r;
      match p with
      | None => Ok ({| rbuf := None; lhpos := lhpos r; strpos := strpos r; piece := None |}, got, true)
      | Some p =>
          let nn := Nat.min n (length p) in
          if Nat.ltb nn (length p) then Ok (with_piece (Some (drop nn p)) r, got ++ take nn p, false)
          else Read_loop fuel (n - nn) (got ++ p) (with_piece None r)
      end
  end.

Definition Read (n : nat) (r : encReader) : outcome (encReader * list Z * bool) :=
  Read_loop (3 + 2 * match rbuf r with Some w => length (lheads w) | None => 0 end) n [] r.

(** [&encReader{buf: eb}] *)
Definition newReader (w : encbuf) : encReader := {| rbuf := Some w; lhpos := 0; strpos := 0; piece := None |}.

(** ** The format *)

(** The bytes of a number without leading zeroes. *)
Definition minimal (i : Z) : list Z := be_bytes (Z.to_nat (intsize i)) i.

Definition encString (b : list Z) : list Z :=
  match b with
  | [x] => if x <? 0x80 then [x] else [0x81; x]
  | _ => puthead 0x80 0xB7 (Z.of_nat (length b)) ++ b
  end.

Definition encList (payload : list Z) : list Z := puthead 0xC0 0xF7 (Z.of_nat (length payload)) ++ payload.

(** What RLP encodes: byte strings and lists.  [IRaw] is a value that is encoded
    already. *)
Inductive item :=
  | IStr (b : list Z)
  | IRaw (b : list Z)
  | IList (l : list item).

Fixpoint encoding (v : item) : list Z :=
  match v with
  | IStr b => encString b
  | IRaw b => b
  | IList l => encList (concat (map encoding l))
  end.

Definition isBytes (b : list Z) : Prop := Forall (fun x => 0 <= x < 256) b.

(** Induction with the hypothesis for the elements of a list. *)
Fixpoint item_ind' (P : item -> Prop) (Hs : forall b, P (IStr b)) (Hr : forall b, P (IRaw b))
  (Hl : forall l, Forall P l -> P (IList l)) (v : item) : P v :=
  match v with
  | IStr b => Hs b | IRaw b => Hr b
  | IList l => Hl l ((fix go l : Forall P l := match l with
                                  | [] => Forall_nil_2 P
                                  | x :: l => Forall_cons_2 P x l (item_ind' P Hs Hr Hl x) (go l)
                                  end) l)
  end.

(** ** Sizes *)

Lemma Len64_bounds i n : 0 < i -> 2 ^ n <= i -> 0 <= n -> n + 1 <= Len64 i.
Proof.
  intros Hi Hle Hn. unfold Len64. destruct (Z.eqb_spec i 0); [lia|]. assert (n <= Z.log2 i); [|lia].
  by apply Z.log2_le_pow2.
Qed.
Lemma Len64_upper i n : 0 <= i -> i < 2 ^ n -> 0 <= n -> Len64 i <= n.
Proof.
  intros Hi Hlt Hn. unfold Len64. destruct (Z.eqb_spec i 0); [lia|]. assert (Z.log2 i < n); [|lia].
  apply Z.log2_lt_pow2; lia.
Qed.

Lemma intsize_between i k : 0 < k -> 0 < i -> 2 ^ (8 * (k - 1)) <= i < 2 ^ (8 * k) -> intsize i = k.
Proof.
  intros Hk Hi [H1 H2]. pose proof (Len64_bounds i _ Hi H1 ltac:(lia)). pose proof (Len64_upper i _ ltac:(lia) H2 ltac:(lia)).
  unfold intsize. symmetry. apply (Z.div_unique_pos _ _ k (Len64 i + 7 - 8 * k)); lia.
Qed.

(** [putint] uses as many bytes as [intsize] says. *)
Lemma putintSize_intsize i : 0 < i < two64 -> Z.of_nat (putintSize i) = intsize i.
Proof.
  intros Hi. unfold putintSize. symmetry.
  repeat match goal with |- context [Z.ltb ?a ?b] => destruct (Z.ltb_spec a b) end; apply intsize_between; cbn; lia.
Qed.

Lemma putint_minimal i : 0 < i < two64 -> putint i = minimal i.
Proof. intros Hi. unfold putint, minimal. by rewrite <- putintSize_intsize, Nat2Z.id. Qed.

Lemma puthead_length a b n : 0 <= n < two64 -> Z.of_nat (length (puthead a b n)) = headsize n.
Proof.
  intros Hn. unfold puthead, headsize. destruct (Z.ltb_spec n 56); [done|]. cbn [length].
  unfold putint. rewrite be_bytes_length, Nat2Z.inj_succ, putintSize_intsize by lia. lia.
Qed.

(** ** What a value adds to the buffer *)

(** The string data of a value, its list headers when the data starts at [n],
    and the size of the headers. *)
Fixpoint data (v : item) : list Z :=
  match v with IList l => concat (map data l) | v => encoding v end.

Fixpoint heads (v : item) (n : Z) : list listhead :=
  match v with
  | IList l =>
      {| offset := n; size_ := Z.of_nat (length (concat (map encoding l))) |} ::
      (fix go l n := match l with [] => [] | x :: l => heads x n ++ go l (n + Z.of_nat (length (data x))) end) l n
  | _ => []
  end.

Fixpoint headsL (l : list item) (n : Z) : list listhead :=
  match l with [] => [] | x :: l => heads x n ++ headsL l (n + Z.of_nat (length (data x))) end.

Lemma heads_list l n :
  heads (IList l) n = {| offset := n; size_ := Z.of_nat (length (concat (map encoding l))) |} :: headsL l n.
Proof. done. Qed.

Definition headersSize (v : item) : Z := Z.of_nat (length (encoding v)) - Z.of_nat (length (data v)).

Definition added (v : item) (w : encbuf) : encbuf := {|
  str := str w ++ data v;
  lheads := lheads w ++ heads v (Z.of_nat (length (str w)));
  lhsize := lhsize w + headersSize v
|}.

Lemma encodeString_spec b w : Z.of_nat (length b) < two64 -> encodeString b w = write (encString b) w.
Proof.
  intros Hb. unfold encodeString, encString, encodeStringHeader, puthead, EmptyStringCode.
  destruct b as [|x [|y b]]; [unfold write; cbn; by rewrite app_nil_r| |].
  - cbn. destruct (Z.leb_spec x 127), (Z.ltb_spec x 128); try lia; unfold write; cbn; by rewrite <- ?app_assoc.
  - destruct (_ <? 56); unfold write; cbn; by rewrite <- !app_assoc.
Qed.

Lemma be_bytes_1 i : 0 <= i < 256 -> be_bytes 1 i = [i].
Proof. intros Hi. cbn. by rewrite Z.mod_small by lia. Qed.

Lemma encString_many b : (2 <= length b)%nat -> encString b = puthead 0x80 0xB7 (Z.of_nat (length b)) ++ b.
Proof. destruct b as [|x [|y b]]; cbn; [lia|lia|done]. Qed.

Lemma putintSize_range i : (1 <= putintSize i <= 8)%nat.
Proof. unfold putintSize. repeat case_match; lia. Qed.

Lemma encodeUint_spec i w : in_u64 i -> encodeUint i w = write (encString (minimal i)) w.
Proof.
  intros [H1 H2]. unfold encodeUint. destruct (Z.eqb_spec i 0) as [->|]; [done|].
  rewrite <- (putint_minimal i) by lia. unfold putint. pose proof (putintSize_range i).
  destruct (Z.ltb_spec i 256).
  - assert (putintSize i = 1%nat) as -> by (unfold putintSize; by rewrite (proj2 (Z.ltb_lt i (2 ^ 8))) by lia).
    rewrite be_bytes_1 by lia. cbn. unfold byte. rewrite Z.mod_small by lia. by destruct (i <? 128).
  - assert (2 <= putintSize i)%nat. { unfold putintSize. rewrite (proj2 (Z.ltb_ge i (2 ^ 8))) by lia. repeat case_match; lia. }
    rewrite encString_many by (by rewrite be_bytes_length). rewrite be_bytes_length. unfold puthead.
    destruct (Z.ltb_spec i 128); [lia|]. by rewrite (proj2 (Z.ltb_lt (Z.of_nat (putintSize i)) 56)) by lia.
Qed.

Lemma writeBigInt_spec i w : 0 <= i -> Z.of_nat (length (minimal i)) < two64 ->
  writeBigInt i w = Ok (write (encString (minimal i)) w).
Proof.
  intros Hi Hl. unfold writeBigInt. destruct (Z.ltb_spec i 0); [lia|]. destruct (Z.leb_spec (Len64 i) 64) as [Hb|Hb].
  - rewrite encodeUint_spec; [done|]. unfold in_u64. split; [done|]. unfold Len64 in Hb.
    destruct (Z.eqb_spec i 0); [lia|]. apply (Z.log2_lt_pow2 i 64); lia.
  - assert (Z.shiftr (Z.land (Len64 i + 7) (-8)) 3 = intsize i) as ->.
    { rewrite Z.shiftr_land, Z.shiftr_div_pow2 by lia. change (Z.shiftr (-8) 3) with (-1). rewrite Z.land_m1_r. done. }
    rewrite encString_many.
    2: { unfold minimal. rewrite be_bytes_length. assert (9 <= intsize i) by (unfold intsize; apply Z.div_le_lower_bound; lia). lia. }
    unfold encodeStringHeader, puthead, minimal, EmptyStringCode. rewrite be_bytes_length, Z2Nat.id.
    2: { unfold intsize. apply Z.div_pos; lia. }
    destruct (_ <? 56); unfold write; cbn; by rewrite <- !app_assoc.
Qed.

Lemma intsize_bytes i k : 0 < i -> 0 <= k -> i < 2 ^ (8 * k) -> 0 < intsize i <= k.
Proof.
  intros Hi Hk H. pose proof (Len64_upper i _ ltac:(lia) H ltac:(lia)). pose proof (Len64_bounds i 0 Hi ltac:(change (2 ^ 0) with 1; lia) ltac:(lia)).
  unfold intsize. split; [apply Z.div_str_pos; lia|]. assert ((Len64 i + 7) / 8 < k + 1); [|lia]. apply Z.div_lt_upper_bound; lia.
Qed.

Lemma intsize_ge2 i : 256 <= i -> 2 <= intsize i.
Proof.
  intros Hi. pose proof (Len64_bounds i 8 ltac:(lia) ltac:(change (2 ^ 8) with 256; lia) ltac:(lia)). unfold intsize. apply Z.div_le_lower_bound; lia.
Qed.

Lemma writeUint256_spec `{U : Uint256} i w : writeUint256 i w = write (encString (minimal (uval i))) w.
Proof.
  pose proof (uval_range i) as [H1 H2]. unfold two256 in H2. unfold writeUint256, uIsZero. destruct (Z.eqb_spec (uval i) 0) as [->|]; [done|].
  destruct (Z.ltb_spec (uval i) 256).
  - assert (intsize (uval i) = 1) as Hs by (apply intsize_between; [lia|lia|cbn; lia]).
    unfold minimal, uByteLen, uWriteToSlice, uUint64. rewrite Hs. change (Z.to_nat 1) with 1%nat. rewrite be_bytes_1 by lia. cbn. unfold byte.
    rewrite u64_small by (unfold in_u64; lia). rewrite Z.mod_small by lia. destruct (uval i <? 128); [done|]. unfold write. cbn. by rewrite <- app_assoc.
  - destruct (Z.ltb_spec (uval i) 128); [lia|]. pose proof (intsize_bytes (uval i) 32 ltac:(lia) ltac:(lia) ltac:(cbn; lia)). pose proof (intsize_ge2 (uval i) ltac:(lia)).
    unfold minimal, uByteLen, uWriteToSlice. rewrite encString_many by (rewrite be_bytes_length; lia). rewrite be_bytes_length.
    unfold puthead. rewrite Z2Nat.id by lia. rewrite (proj2 (Z.ltb_lt _ _)) by lia. unfold write, EmptyStringCode, byte. cbn [str].
    rewrite (Z.mod_small (intsize _)) by lia. by rewrite <- app_assoc.
Qed.

Lemma writeByteArray_spec b w : Z.of_nat (length b) < two64 -> writeByteArray b w = write (encString b) w.
Proof.
  intros Hb. rewrite <- encodeString_spec by done. unfold writeByteArray, encodeString. destruct b as [|x [|y b]]; [| |done].
  - unfold write. cbn. by rewrite app_nil_r.
  - destruct (x <=? 127); [done|]. unfold write. cbn. by rewrite <- app_assoc.
Qed.

Lemma encodeString_length b : Z.of_nat (length b) <= Z.of_nat (length (encString b)).
Proof. destruct b as [|x [|y b]]; [done|cbn; by destruct (x <? 128)|]. unfold encString. rewrite length_app. lia. Qed.

Lemma added_leaf v w : data v = encoding v -> heads v (Z.of_nat (length (str w))) = [] -> added v w = write (encoding v) w.
Proof. intros Hd Hh. unfold added, headersSize, write. rewrite Hd, Hh, app_nil_r. f_equal. lia. Qed.

(** Several values in a row. *)
Definition addedL (l : list item) (w : encbuf) : encbuf := {|
  str := str w ++ concat (map data l);
  lheads := lheads w ++ headsL l (Z.of_nat (length (str w)));
  lhsize := lhsize w + (Z.of_nat (length (concat (map encoding l))) - Z.of_nat (length (concat (map data l))))
|}.

Lemma addedL_cons x l w : addedL (x :: l) w = addedL l (added x w).
Proof.
  unfold addedL, added, headersSize. cbn [str lheads lhsize map concat headsL]. rewrite !length_app. f_equal.
  - by rewrite <- app_assoc.
  - rewrite <- app_assoc. do 3 f_equal. lia.
  - lia.
Qed.


(** *** Writers that add items *)

Definition adds (f : encbuf -> outcome encbuf) (l : list item) : Prop := forall w, f w = Ok (addedL l w).

Lemma addedL_nil w : addedL [] w = w.
Proof. unfold addedL. cbn. rewrite !app_nil_r, Z.add_0_r. by destruct w. Qed.
Lemma addedL_one x w : addedL [x] w = added x w.
Proof. by rewrite addedL_cons, addedL_nil. Qed.

Lemma adds_nil : adds Ok [].
Proof. intros w. by rewrite addedL_nil. Qed.

Lemma addedL_app l1 l2 w : addedL (l1 ++ l2) w = addedL l2 (addedL l1 w).
Proof. revert w. induction l1 as [|x l1 IH]; intros w; cbn; [by rewrite addedL_nil|]. by rewrite !addedL_cons, IH. Qed.

Lemma adds_seq f g l1 l2 : adds f l1 -> adds g l2 -> adds (fun w => w ← f w; g w) (l1 ++ l2).
Proof. intros Hf Hg w. rewrite Hf. cbn [mbind outcome_bind]. by rewrite Hg, addedL_app. Qed.

Lemma adds_leaf f v : data v = encoding v -> (forall n, heads v n = []) -> (forall w, f w = Ok (write (encoding v) w)) -> adds f [v].
Proof. intros Hd Hh Hf w. by rewrite addedL_one, added_leaf, Hf. Qed.

Lemma adds_str f b : (forall w, f w = Ok (write (encString b) w)) -> adds f [IStr b].
Proof. intros Hf. by apply adds_leaf. Qed.
Lemma adds_raw b : adds (fun w => Ok (write b w)) [IRaw b].
Proof. by apply adds_leaf. Qed.

(** What is written between [list] and [listEnd] becomes a list. *)
Lemma adds_list f l : Z.of_nat (length (concat (map encoding l))) < 2 ^ 63 -> adds f l ->
  adds (fun w => let '(w, index) := list_ w in w ← f w; listEnd index w) [IList l].
Proof.
  intros Hl Hf w. rewrite addedL_one. cbn [list_]. set (w1 := {| str := str w; lheads := _; lhsize := _ |}). rewrite Hf.
  cbn [mbind outcome_bind]. unfold listEnd. cbn [addedL lheads w1 str lhsize].
  rewrite <- app_assoc, lookup_app_r, Nat.sub_diag by done. cbn [lookup list_lookup app or_panic mbind outcome_bind offset size_].
  unfold added. rewrite heads_list. unfold size. cbn [str lhsize]. f_equal. rewrite insert_app_r_alt, Nat.sub_diag by done.
  set (p := concat (map encoding l)) in *. set (d := concat (map data l)).
  assert (Z.of_nat (length (str (addedL l w1))) + lhsize (addedL l w1) - Z.of_nat (length (str w)) - lhsize w = Z.of_nat (length p)) as ->.
  { cbn [addedL str lhsize w1]. rewrite length_app. fold p d. lia. }
  cbn [insert list_insert data]. f_equal.
  unfold headersSize. cbn [encoding data]. fold p d. unfold encList. rewrite length_app, Nat2Z.inj_add, puthead_length by lia. unfold headsize. lia.
Qed.

(** ** Putting the headers in *)

(** The result up to the last header, and where the data goes on. *)
Fixpoint before (s : list Z) (hs : list listhead) (k : Z) : list Z :=
  match hs with
  | [] => []
  | h :: hs => take (Z.to_nat (offset h - k)) (drop (Z.to_nat k) s) ++ puthead 0xC0 0xF7 (size_ h) ++ before s hs (offset h)
  end.
Fixpoint lastPos (hs : list listhead) (k : Z) : Z := match hs with [] => k | h :: hs => lastPos hs (offset h) end.

(** The offsets from [k] on do not decrease and stay within [n]. *)
Fixpoint chained (hs : list listhead) (k n : Z) : Prop :=
  match hs with [] => k <= n | h :: hs => k <= offset h /\ chained hs (offset h) n end.

Definition interleave (s : list Z) (hs : list listhead) (k : Z) : list Z := before s hs k ++ drop (Z.to_nat (lastPos hs k)) s.

Lemma chained_le hs k n : chained hs k n -> k <= n.
Proof. revert k. induction hs as [|h hs IH]; intros k; cbn; [done|]. intros [? H]. apply IH in H. lia. Qed.
Lemma chained_last hs k n : chained hs k n -> k <= lastPos hs k <= n.
Proof. revert k. induction hs as [|h hs IH]; intros k; cbn; [lia|]. intros [? H]. apply IH in H. lia. Qed.

Lemma copyAt_app a b src : (length src <= length b)%nat ->
  copyAt (a ++ b) (length a) src = (a ++ src ++ drop (length src) b, length src).
Proof.
  intros Hl. unfold copyAt. rewrite length_app. replace (Nat.min _ _) with (length src) by lia.
  rewrite take_app_length, firstn_all, drop_app_add. done.
Qed.

Lemma headAt_app a b h : (length (puthead 0xC0 0xF7 (size_ h)) <= length b)%nat ->
  headAt (a ++ b) (length a) h =
  Ok (a ++ puthead 0xC0 0xF7 (size_ h) ++ drop (length (puthead 0xC0 0xF7 (size_ h))) b, length (puthead 0xC0 0xF7 (size_ h))).
Proof.
  intros Hl. unfold headAt. rewrite length_app. rewrite (proj2 (Nat.ltb_ge _ _)) by lia.
  by rewrite take_app_length, drop_app_add.
Qed.

Lemma slice_ok s lo hi : 0 <= lo <= hi -> hi <= Z.of_nat (length s) ->
  slice s lo hi = Ok (take (Z.to_nat (hi - lo)) (drop (Z.to_nat lo) s)).
Proof.
  intros H1 H2. unfold slice. destruct (Z.ltb_spec lo 0); [lia|]. destruct (Z.ltb_spec hi lo); [lia|].
  destruct (Z.ltb_spec (Z.of_nat (length s)) hi); [lia|done].
Qed.

Lemma toBytes_loop_spec s hs k a b : 0 <= k -> chained hs k (Z.of_nat (length s)) -> (length (before s hs k) <= length b)%nat ->
  toBytes_loop s hs (Z.to_nat k) (length a) (a ++ b) =
  Ok (a ++ before s hs k ++ drop (length (before s hs k)) b, Z.to_nat (lastPos hs k), (length a + length (before s hs k))%nat).
Proof.
  revert k a b. induction hs as [|h hs IH]; intros k a b Hk Hc Hl; cbn in Hc.
  { cbn. by rewrite Nat.add_0_r. }
  destruct Hc as [Hkh Hc]. pose proof (chained_le _ _ _ Hc) as Hh. cbn [toBytes_loop before lastPos] in *.
  rewrite Z2Nat.id, slice_ok by lia. cbn [mbind outcome_bind].
  set (p := take (Z.to_nat (offset h - k)) (drop (Z.to_nat k) s)) in *. set (q := puthead 0xC0 0xF7 (size_ h)) in *.
  assert (length p = Z.to_nat (offset h - k)) as Hp by (subst p; rewrite length_take, length_drop; lia).
  rewrite !length_app in Hl. rewrite copyAt_app by lia.
  rewrite (app_assoc a p), <- length_app, headAt_app by (fold q; rewrite length_drop; lia). fold q. cbn [mbind outcome_bind].
  rewrite drop_drop, (app_assoc (a ++ p) q), <- length_app. rewrite Hp.
  replace (Z.to_nat k + Z.to_nat (offset h - k))%nat with (Z.to_nat (offset h)) by lia.
  rewrite IH; [|lia|done|rewrite length_drop; lia]. rewrite drop_drop, !length_app, Hp, <- !app_assoc.
  by rewrite !Nat.add_assoc.
Qed.

Lemma toBytes_spec w : chained (lheads w) 0 (Z.of_nat (length (str w))) ->
  size w = Z.of_nat (length (interleave (str w) (lheads w) 0)) -> toBytes w = Ok (interleave (str w) (lheads w) 0).
Proof.
  intros Hc Hs. unfold toBytes. destruct (Z.ltb_spec (size w) 0); [lia|]. pose proof (chained_last _ _ _ Hc) as Hlast.
  unfold interleave in *. rewrite length_app in Hs.
  pose proof (toBytes_loop_spec (str w) (lheads w) 0 [] (replicate (Z.to_nat (size w)) 0)) as Hloop. cbn [length app] in Hloop.
  change (Z.to_nat 0) with 0%nat in Hloop. rewrite Hloop; [|lia|done|rewrite length_replicate; lia]. cbn [mbind outcome_bind].
  rewrite Z2Nat.id, slice_ok by lia. cbn [mbind outcome_bind].
  rewrite firstn_all2 by (rewrite length_drop; lia). set (b := before _ _ _) in *. set (r := drop (Z.to_nat (lastPos _ _)) _) in *.
  cbn [Nat.add]. rewrite copyAt_app by (rewrite length_drop, length_replicate; lia). cbn [fst].
  rewrite drop_drop, (drop_ge (replicate _ _)) by (rewrite length_replicate; lia). by rewrite app_nil_r.
Qed.

Lemma interleave_cons s h hs k :
  interleave s (h :: hs) k = take (Z.to_nat (offset h - k)) (drop (Z.to_nat k) s) ++ puthead 0xC0 0xF7 (size_ h) ++ interleave s hs (offset h).
Proof. unfold interleave. cbn. by rewrite <- !app_assoc. Qed.

(** Data before the next header. *)
Lemma interleave_skip s hs k d : 0 <= k -> 0 <= d -> chained hs (k + d) (Z.of_nat (length s)) ->
  interleave s hs k = take (Z.to_nat d) (drop (Z.to_nat k) s) ++ interleave s hs (k + d).
Proof.
  intros Hk Hd Hc. assert (drop (Z.to_nat (k + d)) s = drop (Z.to_nat d) (drop (Z.to_nat k) s)) as Hdrop.
  { rewrite drop_drop. f_equal. lia. }
  destruct hs as [|h hs]; cbn in Hc.
  - unfold interleave. cbn. by rewrite Hdrop, take_drop.
  - destruct Hc as [Hh Hc]. rewrite !interleave_cons, Hdrop, (app_assoc (take (Z.to_nat d) _)). f_equal.
    rewrite <- (take_drop (Z.to_nat d) (drop (Z.to_nat k) s)) at 1. apply chained_le in Hc.
    replace (Z.to_nat (offset h - k)) with (Z.to_nat d + Z.to_nat (offset h - (k + d)))%nat by lia.
    assert (length (take (Z.to_nat d) (drop (Z.to_nat k) s)) = Z.to_nat d) as Hl by (rewrite length_take, length_drop; lia).
    pose proof (take_app_add (take (Z.to_nat d) (drop (Z.to_nat k) s)) (drop (Z.to_nat d) (drop (Z.to_nat k) s)) (Z.to_nat (offset h - (k + d)))) as Ht.
    rewrite Hl in Ht. exact Ht.
Qed.

Lemma take_drop_middle (a b c : list Z) : take (length b) (drop (length a) (a ++ b ++ c)) = b.
Proof. by rewrite drop_app_length, take_app_length. Qed.

Lemma chained_mono hs k k' n : k <= k' -> chained hs k' n -> chained hs k n.
Proof. intros Hk. destruct hs; cbn; [lia|]. intros [? ?]. split; [lia|done]. Qed.

Definition interleaves (v : item) : Prop := forall a c hs, let s := a ++ data v ++ c in
  let k := Z.of_nat (length a) in let k' := k + Z.of_nat (length (data v)) in
  chained hs k' (Z.of_nat (length s)) ->
  chained (heads v k ++ hs) k (Z.of_nat (length s)) /\ interleave s (heads v k ++ hs) k = encoding v ++ interleave s hs k'.

Lemma interleaves_leaf v : data v = encoding v -> (forall k, heads v k = []) -> interleaves v.
Proof.
  intros Hd Hh a c hs s k k' Hc. rewrite Hh. cbn [app]. split; [eapply chained_mono; [|exact Hc]; lia|].
  rewrite (interleave_skip s hs k (Z.of_nat (length (data v)))) by (done || lia). subst s k.
  rewrite !Nat2Z.id, take_drop_middle. by f_equal.
Qed.

Lemma interleaves_list l : Forall interleaves l -> interleaves (IList l).
Proof.
  intros Hl a c hs s k k' Hc. rewrite heads_list. set (h := Build_listhead _ _). cbn [app].
  rewrite interleave_cons. cbn [offset h]. rewrite Z.sub_diag. cbn [Z.to_nat take]. cbn [app encoding]. unfold encList. fold (size_ h).
  rewrite <- app_assoc.
  assert (chained (headsL l k ++ hs) k (Z.of_nat (length s)) /\
    interleave s (headsL l k ++ hs) k = concat (map encoding l) ++ interleave s hs k') as [H1 H2]; [|split; [by split|by rewrite H2]].
  clear h. subst s k k'. cbn [data] in *. revert a hs Hc. induction Hl as [|x l Hx Hl IH]; intros a hs Hc.
  { cbn in *. rewrite Z.add_0_r in *. done. }
  cbn [map concat headsL] in *. rewrite length_app in Hc. rewrite <- (app_assoc (data x)) in *.
  destruct (IH (a ++ data x) hs) as [C1 E1]; [rewrite <- app_assoc, length_app; eapply chained_mono; [|exact Hc]; lia|].
  rewrite <- app_assoc in C1, E1. rewrite length_app, Nat2Z.inj_add in C1, E1.
  destruct (Hx a (concat (map data l) ++ c) (headsL l (Z.of_nat (length a) + Z.of_nat (length (data x))) ++ hs) C1) as [C2 E2].
  rewrite <- !app_assoc. split; [exact C2|]. rewrite E2, E1, length_app. do 3 f_equal. lia.
Qed.

Lemma heads_interleave v : interleaves v.
Proof. induction v using item_ind'; [by apply interleaves_leaf..|by apply interleaves_list]. Qed.

(** The buffer of an encoded item, with its headers put in, is the format. *)
Definition holds (w : encbuf) (b : list Z) : Prop :=
  chained (lheads w) 0 (Z.of_nat (length (str w))) /\ interleave (str w) (lheads w) 0 = b /\ size w = Z.of_nat (length b).

Lemma added_holds v : holds (added v emptybuf) (encoding v).
Proof.
  pose proof (heads_interleave v [] [] []) as Hi. cbn [app length] in Hi. change (Z.of_nat 0) with 0 in Hi. rewrite !app_nil_r, Z.add_0_l in Hi.
  destruct Hi as [Hc He]; [cbn; lia|]. unfold holds, added, size, headersSize. cbn [str lheads lhsize emptybuf app length]. change (Z.of_nat 0) with 0.
  split; [exact Hc|]. split; [|lia]. rewrite He. unfold interleave. cbn [before lastPos app]. by rewrite Nat2Z.id, drop_all, app_nil_r.
Qed.

(** Two passes give the format. *)
Lemma toBytes_holds w b : holds w b -> toBytes w = Ok b.
Proof. intros (Hc & <- & Hz). by rewrite toBytes_spec. Qed.

(** ** The reader *)

Local Arguments interleave : simpl never.

(** How many pieces are left. *)
Fixpoint pieces (hs : list listhead) (k n : Z) : nat :=
  match hs with
  | [] => if k <? n then 1 else 0
  | h :: hs => (if k <? offset h then 1 else 0) + S (pieces hs (offset h) n)
  end.

Lemma pieces_bound hs k n : (pieces hs k n <= 2 * length hs + 1)%nat.
Proof.
  revert k. induction hs as [|h hs IH]; intros k; cbn [pieces length]; [case_match; lia|]. specialize (IH (offset h)). case_match; lia.
Qed.

Definition pending (r : encReader) : list Z :=
  match rbuf r with
  | None => []
  | Some w => default [] (piece r) ++ interleave (str w) (drop (lhpos r) (lheads w)) (strpos r)
  end.

Definition readerOk (r : encReader) : Prop :=
  match rbuf r with
  | None => piece r = None
  | Some w => 0 <= strpos r /\ chained (drop (lhpos r) (lheads w)) (strpos r) (Z.of_nat (length (str w))) /\ piece r <> Some []
  end.

Definition left (r : encReader) : nat :=
  match rbuf r with
  | None => 0
  | Some w => (match piece r with Some _ => 1 | None => 0 end) + pieces (drop (lhpos r) (lheads w)) (strpos r) (Z.of_nat (length (str w)))
  end.

Lemma puthead_cons a b n : puthead a b n <> [].
Proof. unfold puthead. by case_match. Qed.

(** The next piece is the first part of what is left. *)
Lemma next_spec r : readerOk r -> exists r' p, next r = Ok (r', p) /\
  match p with
  | None => pending r = []
  | Some p => p <> [] /\ pending r = p ++ pending (with_piece None r') /\ readerOk (with_piece None r') /\
              (left (with_piece None r') < left r)%nat /\ is_Some (rbuf r')
  end.
Proof.
  unfold readerOk, pending, left, next. destruct (rbuf r) as [w|] eqn:Eb; [|by eexists _, None].
  intros (Hk & Hc & Hp). destruct (piece r) as [p|] eqn:Ep.
  { eexists r, (Some p). split; [done|]. cbn. rewrite Eb. split_and!; try done; [congruence|lia]. }
  destruct (lheads w !! lhpos r) as [h|] eqn:Eh.
  - rewrite (drop_S _ _ _ Eh) in *. cbn [chained pieces] in *. destruct Hc as [Hkh Hc]. pose proof (chained_le _ _ _ Hc).
    rewrite interleave_cons. cbn [default from_option app]. destruct (Z.ltb_spec 0 (offset h - strpos r)).
    + rewrite slice_ok by lia. cbn [mbind outcome_bind]. eexists _, (Some _). split; [done|]. cbn. rewrite (drop_S _ _ _ Eh), interleave_cons, Z.sub_diag.
      cbn [take Z.to_nat app]. split_and!; try done.
      * intros Hn. apply (f_equal length) in Hn. rewrite length_take, length_drop in Hn. cbn in Hn. lia.
      * lia.
      * cbn [pieces]. destruct (Z.ltb_spec (strpos r) (offset h)), (Z.ltb_spec (offset h) (offset h)); lia.
    + eexists _, (Some _). split; [done|]. cbn. assert (offset h = strpos r) as Ho by lia. rewrite Ho, Z.sub_diag in *. cbn [take Z.to_nat app].
      split_and!; try done; [apply puthead_cons|].
      destruct (Z.ltb_spec (strpos r) (strpos r)); lia.
  - apply lookup_ge_None in Eh. rewrite (drop_ge _ _ Eh) in *. cbn [chained pieces] in *. unfold interleave. cbn [before lastPos default from_option app].
    destruct (Z.ltb_spec (strpos r) (Z.of_nat (length (str w)))).
    + rewrite slice_ok by lia. cbn [mbind outcome_bind]. eexists _, (Some _). split; [done|]. cbn. rewrite (drop_ge _ _ Eh).
      cbn [before lastPos app chained pieces]. rewrite Nat2Z.id, drop_all, app_nil_r. rewrite firstn_all2 by (rewrite length_drop; lia).
      split_and!; try done; [|lia|destruct (Z.ltb_spec (Z.of_nat (length (str w))) (Z.of_nat (length (str w)))); lia].
      intros Hn. apply (f_equal length) in Hn. rewrite length_drop in Hn. cbn in Hn. lia.
    + eexists _, None. split; [done|]. apply drop_ge. lia.
Qed.

Lemma left_bound r : (left r <= 2 + 2 * match rbuf r with Some w => length (lheads w) | None => 0 end)%nat.
Proof.
  unfold left. destruct (rbuf r) as [w|]; [|lia]. pose proof (pieces_bound (drop (lhpos r) (lheads w)) (strpos r) (Z.of_nat (length (str w)))) as Hp.
  rewrite length_drop in Hp. destruct (piece r); lia.
Qed.

Lemma Read_loop_spec fuel n got r : readerOk r -> (left r < fuel)%nat -> exists r',
  Read_loop fuel n got r = Ok (r', got ++ take n (pending r), (length (pending r) <=? n)%nat) /\
  readerOk r' /\ pending r' = drop n (pending r).
Proof.
  revert n got r. induction fuel as [|fuel IH]; intros n got r Hr Hf; [lia|].
  destruct (next_spec r Hr) as (r1 & po & E & Hpo). cbn [Read_loop]. rewrite E. cbn [mbind outcome_bind]. destruct po as [p|].
  2: { rewrite Hpo. eexists. rewrite take_nil, drop_nil, app_nil_r. done. }
  destruct Hpo as (Hne & Hp & Hok & Hl & [w Hw]). rewrite Hp. destruct (Nat.ltb_spec (Nat.min n (length p)) (length p)) as [Hlt|Hge].
  - assert (Nat.min n (length p) = n) as -> by lia. rewrite length_app, take_app_le, drop_app_le by lia. rewrite (proj2 (Nat.leb_gt _ _)) by lia.
    eexists. split; [done|]. revert Hok. unfold readerOk, pending, with_piece. cbn. rewrite Hw. cbn. intros (H1 & H2 & _). split; [|done].
    split_and!; try done. intros [= Hd]. apply (f_equal length) in Hd. rewrite length_drop in Hd. cbn in Hd. lia.
  - assert (Nat.min n (length p) = length p) as -> by lia.
    destruct (IH (n - length p)%nat (got ++ p) (with_piece None r1) Hok ltac:(lia)) as (r' & Er & H1 & H2). exists r'. rewrite Er, H2.
    rewrite <- app_assoc, length_app, take_app_ge, drop_app_ge by lia. split; [|done].
    do 2 f_equal. destruct (Nat.leb_spec (length (pending (with_piece None r1))) (n - length p)),
      (Nat.leb_spec (length p + length (pending (with_piece None r1))) n); lia || done.
Qed.

(** A read fills the buffer as far as there is data, and reports the end with
    the last byte. *)
Lemma Read_spec n r : readerOk r -> exists r',
  Read n r = Ok (r', take n (pending r), (length (pending r) <=? n)%nat) /\ readerOk r' /\ pending r' = drop n (pending r).
Proof. intros Hr. unfold Read. pose proof (left_bound r). apply (Read_loop_spec _ n [] r Hr). lia. Qed.

Lemma newReader_holds w b : holds w b -> readerOk (newReader w) /\ pending (newReader w) = b.
Proof. intros (Hc & Hb & _). unfold readerOk, pending. cbn. by rewrite drop_0. Qed.

(** Reads with buffers of the given sizes, one after the other. *)
Fixpoint reads (ns : list nat) (r : encReader) : outcome (list Z * bool) :=
  match ns with
  | [] => Ok ([], false)
  | n :: ns => '(r, b, eof) ← Read n r; '(bs, eof') ← reads ns r; Ok (b ++ bs, eof || eof')
  end.

Lemma reads_spec ns r : readerOk r ->
  reads ns r = Ok (take (sum_list ns) (pending r), match ns with [] => false | _ => (length (pending r) <=? sum_list ns)%nat end).
Proof.
  revert r. induction ns as [|n ns IH]; intros r Hr; [done|]. cbn [reads sum_list]. destruct (Read_spec n r Hr) as (r' & E & Hr' & Hp).
  rewrite E. cbn [mbind outcome_bind]. rewrite (IH _ Hr'), Hp. cbn [mbind outcome_bind]. f_equal. f_equal.
  - apply take_take_drop.
  - rewrite length_drop. destruct ns as [|m ns]; [cbn; rewrite orb_false_r; by rewrite Nat.add_0_r|].
    change (id n) with n. destruct (Nat.leb_spec (length (pending r)) n), (Nat.leb_spec (length (pending r) - n) (sum_list (m :: ns))),
      (Nat.leb_spec (length (pending r)) (n + sum_list (m :: ns))); try done; lia.
Qed.

(** ** The writer *)

(** What [io.Writer] asks of [Write]: a prefix of the data is taken, and a
    short count comes with an error. *)
Class WriterLaw {S : Type} (Write : S -> list Z -> S * Z * option error) (contents : S -> list Z) : Prop :=
  Write_law : forall s p s' n e, Write s p = (s', n, e) ->
    0 <= n <= Z.of_nat (length p) /\ contents s' = contents s ++ take (Z.to_nat n) p /\ (e = None -> n = Z.of_nat (length p)).

(** [b] was written whole, or a prefix of it with an error. *)
Definition wrote (b : list Z) (before after : list Z) (e : option error) : Prop :=
  match e with None => after = before ++ b | Some _ => exists m, after = before ++ take m b end.

Section Written.
Context {S : Type} (Write : S -> list Z -> S * Z * option error) (contents : S -> list Z) `{!WriterLaw Write contents}.

Lemma Write_wrote s p s' n e : Write s p = (s', n, e) -> wrote p (contents s) (contents s') e /\ (e = None -> n = Z.of_nat (length p)).
Proof.
  intros E. destruct (Write_law s p s' n e E) as (Hn & Hc & He). split; [|done]. destruct e; [by eexists|]. cbn. rewrite Hc, (He eq_refl), Nat2Z.id. by rewrite firstn_all.
Qed.

Lemma wrote_more a b s s' e : wrote b (s ++ a) s' e -> wrote (a ++ b) s s' e.
Proof.
  destruct e; cbn; [|by rewrite <- app_assoc]. intros [m ->]. exists (length a + m)%nat. by rewrite take_app_add, <- app_assoc.
Qed.
Lemma wrote_prefix a b s s' e : wrote a s s' (Some e) -> wrote (a ++ b) s s' (Some e).
Proof.
  intros [m ->]. cbn. exists (Nat.min m (length a)). rewrite take_app_le by lia. f_equal. destruct (Nat.min_spec m (length a)) as [[? ->]|[? ->]]; [done|].
  rewrite firstn_all. by apply firstn_all2.
Qed.

Lemma toWriter_loop_spec s hs k out : 0 <= k -> chained hs k (Z.of_nat (length s)) -> exists out' k' e,
  toWriter_loop Write s hs k out = Ok (out', k', e) /\ wrote (before s hs k) (contents out) (contents out') e /\ (e = None -> k' = lastPos hs k).
Proof.
  revert k out. induction hs as [|h hs IH]; intros k out Hk Hc; cbn [toWriter_loop before lastPos chained] in *.
  { eexists _, _, None. split; [done|]. cbn. by rewrite app_nil_r. }
  destruct Hc as [Hkh Hc]. pose proof (chained_le _ _ _ Hc). set (p := take (Z.to_nat (offset h - k)) (drop (Z.to_nat k) s)).
  assert (exists out1 k1 e1, (if 0 <? offset h - k then p ← slice s k (offset h); let '(out, n, err) := Write out p in Ok (out, k + n, err)
    else Ok (out, k, None)) = Ok (out1, k1, e1) /\ wrote p (contents out) (contents out1) e1 /\ (e1 = None -> k1 = offset h)) as (out1 & k1 & e1 & -> & Hp & Hk1).
  { destruct (Z.ltb_spec 0 (offset h - k)).
    - rewrite slice_ok by lia. cbn [mbind outcome_bind]. fold p. destruct (Write out p) as [[o n] e] eqn:E. apply Write_wrote in E as [Hw Hn].
      eexists _, _, _. split; [done|]. split; [done|]. intros ->. rewrite Hn by done. subst p. rewrite length_take, length_drop. lia.
    - eexists _, _, _. split; [done|]. assert (offset h = k) by lia. subst p. replace (offset h - k) with 0 by lia. cbn. rewrite app_nil_r. done. }
  cbn [mbind outcome_bind]. destruct e1 as [e1|]; [eexists _, _, _; split; [done|]; split; [by apply wrote_prefix|done]|].
  cbn in Hp. rewrite (Hk1 eq_refl). set (q := puthead 0xC0 0xF7 (size_ h)). destruct (Write out1 q) as [[out2 n2] e2] eqn:E2. apply Write_wrote in E2 as [Hw2 _].
  destruct e2 as [e2|].
  - eexists _, _, _. split; [done|]. split; [|done]. apply wrote_more, wrote_prefix. by rewrite <- Hp.
  - cbn in Hw2. destruct (IH (offset h) out2 ltac:(lia) Hc) as (o & k' & e & E & Hw & He). eexists _, _, _. split; [exact E|]. split; [|done].
    apply wrote_more, wrote_more. by rewrite <- Hp, <- Hw2.
Qed.

Lemma toWriter_spec w out : chained (lheads w) 0 (Z.of_nat (length (str w))) -> exists out' e,
  toWriter Write w out = Ok (out', e) /\ wrote (interleave (str w) (lheads w) 0) (contents out) (contents out') e.
Proof.
  intros Hc. unfold toWriter. destruct (toWriter_loop_spec (str w) (lheads w) 0 out ltac:(lia) Hc) as (o & k & e & -> & Hw & Hk).
  cbn [mbind outcome_bind]. pose proof (chained_last _ _ _ Hc). unfold interleave. destruct e as [e|]; [eexists _, _; split; [done|]; by apply wrote_prefix|].
  rewrite (Hk eq_refl). cbn in Hw. destruct (Z.ltb_spec (lastPos (lheads w) 0) (Z.of_nat (length (str w)))).
  - rewrite slice_ok by lia. cbn [mbind outcome_bind]. rewrite firstn_all2 by (rewrite length_drop; lia).
    destruct (Write o _) as [[o' n] e] eqn:E. apply Write_wrote in E as [Hw' _]. eexists _, _. split; [done|]. apply wrote_more. by rewrite <- Hw.
  - eexists _, _. split; [done|]. rewrite (drop_ge (str w)) by lia. by rewrite app_nil_r.
Qed.
End Written.


End Rlp.
