(* ===== verification/RlpTypes.v ===== *)
(** * RlpTypes: Go types and values as RLP sees them ([internal/avm/rlp/typecache.go])

    A universe of the Go types the package handles, the values of these types, the
    struct tags of [typecache.go] and the fields of a struct that are coded.
    Types that implement [Encoder] or [Decoder] themselves and recursive types
    are not in the universe.  The cache of type information only saves work; it is
    left out. *)

From stdpp Require Import pretty.
From S2P Require Import Prelude Uint256.

Module RlpT.

(** [Kind]: the kind of a value in an RLP stream. *)
Inductive Kind := KByte | KString | KList.
#[export] Instance Kind_eq : EqDecision Kind.
Proof. solve_decision. Defined.

Definition Kind_String (k : Kind) : string := match k with KByte => "Byte" | KString => "String" | KList => "List" end.

(** ** Types *)

Inductive typ : Type :=
| TRawValue
| TBigInt
| TUint256
| TUint (bits : Z)
| TBool
| TString
| TSlice (e : typ)
| TArray (n : nat) (e : typ)
| TStruct (name : string) (fs : list sfield)
| TPtr (e : typ)
| TInterface
| TOther (name : string)
with sfield : Type := SField (name : string) (exported : bool) (tag : string) (t : typ).

Section TypInd.
Variable P : typ -> Prop.
Hypothesis Hraw : P TRawValue.
Hypothesis Hbig : P TBigInt.
Hypothesis H256 : P TUint256.
Hypothesis Huint : forall bits, P (TUint bits).
Hypothesis Hbool : P TBool.
Hypothesis Hstring : P TString.
Hypothesis Hslice : forall e, P e -> P (TSlice e).
Hypothesis Harray : forall n e, P e -> P (TArray n e).
Hypothesis Hstruct : forall name fs, Forall (fun '(SField _ _ _ t) => P t) fs -> P (TStruct name fs).
Hypothesis Hptr : forall e, P e -> P (TPtr e).
Hypothesis Hiface : P TInterface.
Hypothesis Hother : forall name, P (TOther name).

(** Induction with the hypothesis for the fields of a struct. *)
Fixpoint typ_ind' (t : typ) : P t :=
  match t with
  | TRawValue => Hraw | TBigInt => Hbig | TUint256 => H256 | TUint bits => Huint bits | TBool => Hbool | TString => Hstring
  | TSlice e => Hslice e (typ_ind' e)
  | TArray n e => Harray n e (typ_ind' e)
  | TStruct name fs => Hstruct name fs
      ((fix go fs : Forall (fun '(SField _ _ _ t) => P t) fs := match fs with
        | [] => Forall_nil_2 _
        | SField n e tag t :: fs => Forall_cons_2 _ (SField n e tag t) fs (typ_ind' t) (go fs)
        end) fs)
  | TPtr e => Hptr e (typ_ind' e)
  | TInterface => Hiface
  | TOther name => Hother name
  end.
End TypInd.

(** [reflect.Type]'s [String] *)
Fixpoint typeName (t : typ) : string :=
  match t with
  | TRawValue => "rlp.RawValue"
  | TBigInt => "big.Int"
  | TUint256 => "uint256.Int"
  | TUint bits => "uint" +:+ pretty bits
  | TBool => "bool"
  | TString => "string"
  | TSlice e => "[]" +:+ typeName e
  | TArray n e => "[" +:+ pretty n +:+ "]" +:+ typeName e
  | TStruct name _ => name
  | TPtr e => "*" +:+ typeName e
  | TInterface => "interface {}"
  | TOther name => name
  end.

Definition isSlice (t : typ) : bool := match t with TRawValue | TSlice _ => true | _ => false end.
Definition isUint (t : typ) : bool := match t with TUint _ => true | _ => false end.
Definition isByte (t : typ) : bool := match t with TUint bits => bits =? 8 | _ => false end.
Definition isByteArray (t : typ) : bool :=
  match t with TRawValue => true | TSlice e | TArray _ e => isByte e | _ => false end.

Definition defaultNilKind (t : typ) : Kind :=
  if isUint t || (match t with TString | TBool => true | _ => false end) || isByteArray t then KString else KList.

(** ** Errors *)

(** An error with an identity, or a [decodeError]. *)
Inductive derr :=
| Plain (e : error)
| DecodeError (msg : string) (t : typ) (ctx : list string).

(** The context is kept innermost first, as [append] leaves it. *)
Definition derr_Error (e : derr) : string :=
  match e with
  | Plain e => e
  | DecodeError msg t ctx =>
      "rlp: " +:+ msg +:+ " for " +:+ typeName t +:+
      (match ctx with [] => EmptyString | _ => ", decoding into " +:+ String.concat EmptyString (rev ctx) end)
  end.

(** ** Struct tags *)

Record tags := { nilKind : Kind; nilOK : bool; optional : bool; tail : bool; ignored : bool }.
Definition noTags : tags := {| nilKind := KByte; nilOK := false; optional := false; tail := false; ignored := false |}.

Definition quote : string := String (Ascii.ascii_of_nat 34) EmptyString.

(** [strings.Split(s, ",")] *)
Fixpoint splitComma (cur s : string) : list string :=
  match s with
  | EmptyString => [cur]
  | String c s => if Ascii.eqb c (Ascii.ascii_of_nat 44) then cur :: splitComma EmptyString s else splitComma (cur +:+ String c EmptyString) s
  end.

(** [strings.TrimSpace] *)
Definition isSpace (c : Ascii.ascii) : bool :=
  let n := Ascii.nat_of_ascii c in ((9 <=? n) && (n <=? 13))%nat || (n =? 32)%nat.
Fixpoint trimLeft (s : string) : string :=
  match s with EmptyString => EmptyString | String c r => if isSpace c then trimLeft r else s end.
Fixpoint trimRight (s : string) : string :=
  match s with
  | EmptyString => EmptyString
  | String c r => let r := trimRight r in
      match r with EmptyString => if isSpace c then EmptyString else String c r | _ => String c r end
  end.
Definition TrimSpace (s : string) : string := trimRight (trimLeft s).

Definition structTagError (typName field tag err : string) : error :=
  "rlp: invalid struct tag " +:+ quote +:+ tag +:+ quote +:+ " for " +:+ typName +:+ "." +:+ field +:+ " (" +:+ err +:+ ")".

Definition setNil (k : Kind) (ts : tags) : tags :=
  {| nilKind := k; nilOK := true; optional := optional ts; tail := tail ts; ignored := ignored ts |}.
Definition setOptional (ts : tags) : tags :=
  {| nilKind := nilKind ts; nilOK := nilOK ts; optional := true; tail := tail ts; ignored := ignored ts |}.
Definition setTail (ts : tags) : tags :=
  {| nilKind := nilKind ts; nilOK := nilOK ts; optional := optional ts; tail := true; ignored := ignored ts |}.
Definition setIgnored (ts : tags) : tags :=
  {| nilKind := nilKind ts; nilOK := nilOK ts; optional := optional ts; tail := tail ts; ignored := true |}.

(** One part of a tag. *)
Definition parseTag (typName fname : string) (ft : typ) (last : bool) (ts : tags) (t : string) : tags + error :=
  if String.eqb t EmptyString then inl ts
  else if String.eqb t "-" then inl (setIgnored ts)
  else if String.eqb t "nil" || String.eqb t "nilString" || String.eqb t "nilList" then
    match ft with
    | TPtr e =>
        inl (setNil (if String.eqb t "nil" then defaultNilKind e else if String.eqb t "nilString" then KString else KList) ts)
    | _ => inr (structTagError typName fname t "field is not a pointer")
    end
  else if String.eqb t "optional" then
    if tail ts then inr (structTagError typName fname t ("also has " +:+ quote +:+ "tail" +:+ quote +:+ " tag")) else inl (setOptional ts)
  else if String.eqb t "tail" then
    if negb last then inr (structTagError typName fname t "must be on last field")
    else if optional ts then inr (structTagError typName fname t ("also has " +:+ quote +:+ "optional" +:+ quote +:+ " tag"))
    else if negb (isSlice ft) then inr (structTagError typName fname t "field type is not slice")
    else inl (setTail ts)
  else inr ("rlp: unknown struct tag " +:+ quote +:+ t +:+ quote +:+ " on " +:+ typName +:+ "." +:+ fname).

Fixpoint parseTags (typName fname : string) (ft : typ) (last : bool) (ts : tags) (l : list string) : tags + error :=
  match l with
  | [] => inl ts
  | t :: l => match parseTag typName fname ft last ts (TrimSpace t) with inl ts => parseTags typName fname ft last ts l | inr e => inr e end
  end.
Definition parseStructTag (typName fname tag : string) (ft : typ) (last : bool) : tags + error :=
  parseTags typName fname ft last noTags (splitComma EmptyString tag).

(** ** The coded fields of a struct *)

(** A field of a struct, with what the caller needs for its type. *)
Record field (X : Type) := { index : nat; fname : string; ftyp : typ; foptional : bool; info : X }.
Arguments index {X}.
Arguments fname {X}.
Arguments ftyp {X}.
Arguments foptional {X}.
Arguments info {X}.

Section Fields.
Context {X : Type}.

(** The index of the last exported field, 0 when there is none. *)
Fixpoint lastPublicField (i last : nat) (fs : list sfield) : nat :=
  match fs with
  | [] => last
  | SField _ exported _ _ :: fs => lastPublicField (S i) (if exported then i else last) fs
  end.

Fixpoint structFields_loop (typName : string) (lastPublic i : nat) (anyOptional : bool) (fs : list (sfield * (tags -> X))) : list (field X) + error :=
  match fs with
  | [] => inl []
  | (SField n exported tag t, make) :: fs =>
      if exported then
        match parseStructTag typName n tag t (Nat.eqb i lastPublic) with
        | inr e => inr e
        | inl ts =>
            if ignored ts then structFields_loop typName lastPublic (S i) anyOptional fs
            else if negb (optional ts || tail ts) && anyOptional then
              inr ("rlp: struct field " +:+ typName +:+ "." +:+ n +:+ " needs " +:+ quote +:+ "optional" +:+ quote +:+ " tag")
            else match structFields_loop typName lastPublic (S i) (anyOptional || optional ts || tail ts) fs with
                 | inl r => inl ({| index := i; fname := n; ftyp := t; foptional := optional ts; info := make ts |} :: r)
                 | inr e => inr e
                 end
        end
      else structFields_loop typName lastPublic (S i) anyOptional fs
  end.

Definition structFields (typName : string) (fs : list (sfield * (tags -> X))) : list (field X) + error :=
  structFields_loop typName (lastPublicField 0 0 (map fst fs)) 0 false fs.

Fixpoint firstOptionalField (fields : list (field X)) : nat :=
  match fields with
  | [] => 0
  | f :: fields => if foptional f then 0 else S (firstOptionalField fields)
  end.
End Fields.

Definition structFieldError (typName field : string) (e : error) : error :=
  e +:+ " (struct field " +:+ typName +:+ "." +:+ field +:+ ")".

(** ** Values *)

Section Values.
Context `{U : Uint256}.

(** A Go value; its type says which constructor it has.  A byte array is
    [GBytes]; [GNil] is a nil slice, pointer or interface; a struct has a value for every field; an
    interface holds a value with its dynamic type.  A zero [big.Int] is the zero
    value of its struct. *)
Inductive gval : Type :=
| GString (b : list Z)
| GBytes (b : list Z)
| GByteSlice (b : list Z)
| GNum (i : Z)
| GU256 (x : u256)
| GBool (b : bool)
| GList (l : list gval)
| GSlice (l : list gval)
| GStruct (l : list gval)
| GNil
| GPtr (v : gval)
| GIface (t : typ) (v : gval).

(** [reflect.Zero] *)
Fixpoint zeroOf (t : typ) : gval :=
  match t with
  | TRawValue => GNil
  | TBigInt | TUint _ => GNum 0
  | TUint256 => GU256 uzero
  | TBool => GBool false
  | TString => GString []
  | TArray n e => if isByte e then GBytes (replicate n 0) else GList (replicate n (zeroOf e))
  | TStruct _ fs => GStruct (map (fun '(SField _ _ _ t) => zeroOf t) fs)
  | TSlice _ | TPtr _ | TInterface | TOther _ => GNil
  end.

(** [reflect.Value]'s [IsZero] *)
Fixpoint IsZero (v : gval) : bool :=
  match v with
  | GString b => match b with [] => true | _ => false end
  | GBytes b => forallb (Z.eqb 0) b
  | GNum i => i =? 0
  | GU256 x => uIsZero x
  | GBool b => negb b
  | GList l | GStruct l => forallb IsZero l
  | GNil => true
  | GByteSlice _ | GSlice _ | GPtr _ | GIface _ _ => false
  end.
End Values.

End RlpT.
