(* ===== verification/RlpStream.v ===== *)
(** * RlpStream: reading RLP ([internal/avm/rlp/decode.go], [raw.go], [iterator.go])

    The decoding stream over a byte slice, with its cached kind, its stack of open
    lists and its input limit, and the functions of [raw.go] and [iterator.go]
    that take an encoding apart in memory.  [Panic] is the panic of [make] on a
    size that no slice can have. *)

From stdpp Require Import pretty.
From S2P Require Import Prelude RlpEncode RlpTypes.

Import Rlp RlpT.

Definition EOF : error := "EOF".
Definition ErrUnexpectedEOF : error := "unexpected EOF".

Definition EOL : error := "rlp: end of list".
Definition ErrExpectedString : error := "rlp: expected String or Byte".
Definition ErrExpectedList : error := "rlp: expected List".
Definition ErrCanonInt : error := "rlp: non-canonical integer format".
Definition ErrCanonSize : error := "rlp: non-canonical size information".
Definition ErrElemTooLarge : error := "rlp: element is larger than containing list".
Definition ErrValueTooLarge : error := "rlp: value size exceeds available input length".
Definition ErrMoreThanOneValue : error := "rlp: input contains more than one value".
Definition errNotInList : error := "rlp: call of ListEnd outside of any list".
Definition errNotAtEOL : error := "rlp: call of ListEnd not positioned at EOL".
Definition errUintOverflow : error := "rlp: uint overflow".

(** ** Taking an encoding apart in memory *)
Module Raw.

(** The [case]s spell out big-endian numbers of one to eight bytes. *)
Definition readSize (b : list Z) (slen : Z) : outcome Z :=
  if Z.of_nat (length b) <? slen then Err ErrUnexpectedEOF
  else
    let s := if (1 <=? slen) && (slen <=? 8) then be_val (take (Z.to_nat slen) b) else 0 in
    if s <? 56 then Err ErrCanonSize
    else b0 ← or_panic (b !! 0%nat); if b0 =? 0 then Err ErrCanonSize else Ok s.

(** Kind, size of the tag, size of the content. *)
Definition readKind (buf : list Z) : outcome (Kind * Z * Z) :=
  match buf with
  | [] => Err ErrUnexpectedEOF
  | b :: rest =>
      '(k, tagsize, contentsize) ←
        (if b <? 0x80 then Ok (KByte, 0, 1)
         else if b <? 0xB8 then
           let contentsize := b - 0x80 in
           match rest with
           | b1 :: _ => if (contentsize =? 1) && (b1 <? 128) then Err ErrCanonSize else Ok (KString, 1, contentsize)
           | [] => Ok (KString, 1, contentsize)
           end
         else if b <? 0xC0 then n ← readSize rest (b - 0xB7); Ok (KString, b - 0xB7 + 1, n)
         else if b <? 0xF8 then Ok (KList, 1, b - 0xC0)
         else n ← readSize rest (b - 0xF7); Ok (KList, b - 0xF7 + 1, n));
      if Z.of_nat (length buf) -u tagsize <? contentsize then Err ErrValueTooLarge
      else Ok (k, tagsize, contentsize)
  end.

Definition Split (b : list Z) : outcome (Kind * list Z * list Z) :=
  '(k, ts, cs) ← readKind b;
  content ← slice b ts (ts +u cs);
  rest ← slice b (ts +u cs) (Z.of_nat (length b));
  Ok (k, content, rest).

Definition SplitString (b : list Z) : outcome (list Z * list Z) :=
  '(k, content, rest) ← Split b;
  if decide (k = KList) then Err ErrExpectedString else Ok (content, rest).

Definition SplitUint64 (b : list Z) : outcome (Z * list Z) :=
  '(content, rest) ← SplitString b;
  match content with
  | [] => Ok (0, rest)
  | [x] => if x =? 0 then Err ErrCanonInt else Ok (x, rest)
  | _ =>
      if 8 <? Z.of_nat (length content) then Err errUintOverflow
      else match readSize content (byte (Z.of_nat (length content))) with
           | Ok x => Ok (x, rest)
           | Err _ => Err ErrCanonInt
           | Panic => Panic
           end
  end.

Definition SplitList (b : list Z) : outcome (list Z * list Z) :=
  '(k, content, rest) ← Split b;
  if decide (k = KList) then Ok (content, rest) else Err ErrExpectedList.

(** Every round takes at least a byte; the fuel is the length. *)
Fixpoint CountValues_loop (fuel : nat) (b : list Z) (i : Z) : outcome Z :=
  match b with
  | [] => Ok i
  | _ =>
      match fuel with
      | O => Err "out of fuel"
      | S fuel =>
          '(_, tagsize, size) ← readKind b;
          b ← slice b (tagsize +u size) (Z.of_nat (length b));
          CountValues_loop fuel b (i + 1)
      end
  end.
Definition CountValues (b : list Z) : outcome Z := CountValues_loop (length b) b 0.

(** *** The list iterator *)

Record listIterator := { data : list Z; next : list Z; err : option error }.

Definition NewListIterator (b : list Z) : outcome listIterator :=
  '(k, t, c) ← readKind b;
  if decide (k = KList) then d ← slice b t (t +u c); Ok {| data := d; next := []; err := None |} else Err ErrExpectedList.

(** On an error [readKind] gives sizes 0: the iterator stays where it is. *)
Definition Next (it : listIterator) : outcome (listIterator * bool) :=
  match data it with
  | [] => Ok (it, false)
  | d =>
      '(t, c, e) ← match readKind d with Ok (_, t, c) => Ok (t, c, None) | Err e => Ok (0, 0, Some e) | Panic => Panic end;
      n ← slice d 0 (t +u c);
      d ← slice d (t +u c) (Z.of_nat (length d));
      Ok ({| data := d; next := n; err := e |}, true)
  end.
End Raw.

(** ** The stream *)
Module Stream.

Record listpos := { pos : Z; lsize : Z }.

(** The reader is a [bytes.Reader]: [rest] is what it has left.  [kind] is [None]
    for -1; the innermost list is the first of the stack.  The buffer for
    integers is a local of the functions that use it. *)
Record Stream := {
  rest : list Z;
  remaining : Z;
  limited : bool;
  kind : option Kind;
  size : Z;
  byteval : Z;
  kinderr : option error;
  stack : list listpos
}.

Definition set_rest x s := {| rest := x; remaining := remaining s; limited := limited s; kind := kind s; size := size s; byteval := byteval s; kinderr := kinderr s; stack := stack s |}.
Definition set_remaining x s := {| rest := rest s; remaining := x; limited := limited s; kind := kind s; size := size s; byteval := byteval s; kinderr := kinderr s; stack := stack s |}.
Definition set_kind x s := {| rest := rest s; remaining := remaining s; limited := limited s; kind := x; size := size s; byteval := byteval s; kinderr := kinderr s; stack := stack s |}.
Definition set_size x s := {| rest := rest s; remaining := remaining s; limited := limited s; kind := kind s; size := x; byteval := byteval s; kinderr := kinderr s; stack := stack s |}.
Definition set_byteval x s := {| rest := rest s; remaining := remaining s; limited := limited s; kind := kind s; size := size s; byteval := x; kinderr := kinderr s; stack := stack s |}.
Definition set_kinderr x s := {| rest := rest s; remaining := remaining s; limited := limited s; kind := kind s; size := size s; byteval := byteval s; kinderr := x; stack := stack s |}.
Definition set_stack x s := {| rest := rest s; remaining := remaining s; limited := limited s; kind := kind s; size := size s; byteval := byteval s; kinderr := kinderr s; stack := x |}.

(** What a call on the stream leaves: the stream, and a result or an error. *)
Definition M (E A : Type) : Type := Stream -> outcome (Stream * (A + E)).
#[export] Instance M_ret {E} : MRet (M E) := fun A a s => Ok (s, inl a).
#[export] Instance M_bind {E} : MBind (M E) := fun A B f m s =>
  match m s with
  | Ok (s, inl a) => f a s
  | Ok (s, inr e) => Ok (s, inr e)
  | Err e => Err e
  | Panic => Panic
  end.
Definition throw {E A} (e : E) : M E A := fun s => Ok (s, inr e).
Definition gets {E A} (f : Stream -> A) : M E A := fun s => Ok (s, inl (f s)).
Definition modify {E} (f : Stream -> Stream) : M E unit := fun s => Ok (f s, inl tt).
Definition panic {E A} : M E A := fun _ => Panic.
(** The result and the error of a call, both in hand. *)
Definition try {E A} (m : M E A) : M E (A + E) := fun s =>
  match m s with Ok (s, r) => Ok (s, inl r) | Err e => Err e | Panic => Panic end.

(** *** Reading bytes *)

Definition willRead (n : Z) : M error unit :=
  modify (set_kind None);;
  st ← gets stack;
  (match st with
   | [] => mret tt
   | tos :: st =>
       if lsize tos -u pos tos <? n then throw ErrElemTooLarge
       else modify (set_stack ({| pos := pos tos +u n; lsize := lsize tos |} :: st))
   end);;
  l ← gets limited;
  if (l : bool) then
    r ← gets remaining;
    if r <? n then throw ErrValueTooLarge else modify (set_remaining (r -u n))
  else mret tt.

Definition readFull (n : Z) : M error (list Z) :=
  willRead n;;
  r ← gets rest;
  if Z.of_nat (length r) <? n then modify (set_rest []);; throw ErrUnexpectedEOF
  else modify (set_rest (drop (Z.to_nat n) r));; mret (take (Z.to_nat n) r).

Definition readByte : M error Z :=
  willRead 1;;
  r ← gets rest;
  match r with
  | [] => throw ErrUnexpectedEOF
  | b :: r => modify (set_rest r);; mret b
  end.

Definition readUint (size : Z) : M error Z :=
  if size =? 0 then modify (set_kind None);; mret 0
  else if size =? 1 then readByte
  else
    b ← readFull size;
    match b with
    | 0 :: _ => throw ErrCanonSize
    | _ => mret (be_val b)
    end.

(** *** The next value *)

(** Kind and size, with the error next to them. *)
Definition readSized (k : Kind) (n : Z) : M error (Kind * Z * option error) :=
  r ← try (readUint n);
  mret (match r with
        | inl size => (k, size, if size <? 56 then Some ErrCanonSize else None)
        | inr e => (k, 0, Some e)
        end).

Definition readKind : M error (Kind * Z * option error) :=
  r ← try readByte;
  match r with
  | inr e =>
      st ← gets stack;
      let e := match st with
               | [] => if String.eqb e ErrUnexpectedEOF || String.eqb e ErrValueTooLarge then EOF else e
               | _ => e
               end in
      mret (KByte, 0, Some e)
  | inl b =>
      modify (set_byteval 0);;
      if b <? 0x80 then modify (set_byteval b);; mret (KByte, 0, None)
      else if b <? 0xB8 then mret (KString, b - 0x80, None)
      else if b <? 0xC0 then readSized KString (b - 0xB7)
      else if b <? 0xF8 then mret (KList, b - 0xC0, None)
      else readSized KList (b - 0xF7)
  end.

Definition Kind_ : M error (Kind * Z) :=
  k ← gets kind;
  (match k with
   | Some _ => mret tt
   | None =>
       modify (set_kinderr None);;
       st ← gets stack;
       (match st with tos :: _ => if pos tos =? lsize tos then throw EOL else mret tt | [] => mret tt end);;
       '(k, sz, e) ← readKind;
       modify (set_kind (Some k));; modify (set_size sz);; modify (set_kinderr e);;
       match e with
       | Some _ => mret tt
       | None =>
           st ← gets stack; l ← gets limited; r ← gets remaining;
           match st with
           | [] => if l && (r <? sz) then modify (set_kinderr (Some ErrValueTooLarge)) else mret tt
           | tos :: _ => if lsize tos -u pos tos <? sz then modify (set_kinderr (Some ErrElemTooLarge)) else mret tt
           end
       end
   end);;
  k ← gets kind; sz ← gets size; e ← gets kinderr;
  match e, k with
  | Some e, _ => throw e
  | None, Some k => mret (k, sz)
  | None, None => panic
  end.

(** [make([]byte, n)] *)
Definition make (n : Z) : M error unit := if 2 ^ 63 <=? n then panic else mret tt.

(** *** Values *)

(** The bytes of a string, unless the single-byte form should have been used. *)
Definition checked (sz : Z) (b : list Z) : M error (list Z) :=
  match b with
  | [x] => if (sz =? 1) && (x <? 128) then throw ErrCanonSize else mret b
  | _ => mret b
  end.

Definition Bytes : M error (list Z) :=
  '(k, sz) ← Kind_;
  match k with
  | KByte => modify (set_kind None);; b ← gets byteval; mret [b]
  | KString =>
      make sz;;
      b ← readFull sz;
      checked sz b
  | KList => throw ErrExpectedString
  end.

(** The header is gone from the input; a new one is put in front of the content. *)
Definition rawContent (k : Kind) (sz : Z) : M error (list Z) :=
  let start := headsize sz in
  let n := start +u sz in
  make n;;
  (if n <? start then panic else mret tt);;
  b ← readFull (n - start);
  mret (match k with KString => puthead 0x80 0xB7 sz | _ => puthead 0xC0 0xF7 sz end ++ b).

Definition Raw : M error (list Z) :=
  '(k, sz) ← Kind_;
  match k with
  | KByte => modify (set_kind None);; b ← gets byteval; mret [b]
  | _ => rawContent k sz
  end.

Definition uint (maxbits : Z) : M error Z :=
  '(k, sz) ← Kind_;
  match k with
  | KByte =>
      b ← gets byteval;
      if b =? 0 then throw ErrCanonInt else modify (set_kind None);; mret b
  | KString =>
      if maxbits / 8 <? sz then throw errUintOverflow
      else
        r ← try (readUint (byte sz));
        match r with
        | inr e => throw (if String.eqb e ErrCanonSize then ErrCanonInt else e)
        | inl v => if (0 <? sz) && (v <? 128) then throw ErrCanonSize else mret v
        end
  | KList => throw ErrExpectedString
  end.
Definition Uint : M error Z := uint 64.

(** The buffer of [bigIntBytes]. *)
Definition bigIntBuffer (k : Kind) (sz : Z) : M error (list Z) :=
  match k with
  | KList => throw ErrExpectedString
  | KByte => b ← gets byteval; modify (set_kind None);; mret [b]
  | KString =>
      if sz =? 0 then modify (set_kind None);; mret []
      else if sz <=? 32 then
        b ← readFull sz;
        checked sz b
      else make sz;; readFull sz
  end.

Definition bigIntBytes : M error (list Z) :=
  '(k, sz) ← Kind_;
  buffer ← bigIntBuffer k sz;
  match buffer with
  | 0 :: _ => throw ErrCanonInt
  | _ => mret buffer
  end.

Definition Uint256Bytes : M error (list Z) :=
  b ← bigIntBytes;
  if 32 <? Z.of_nat (length b) then throw errUintOverflow else mret b.

Definition Bool : M error bool :=
  num ← uint 8;
  if num =? 0 then mret false
  else if num =? 1 then mret true
  else throw ("rlp: invalid boolean value: " +:+ pretty num).

(** *** Lists *)

Definition NewList (sz : Z) : M error unit :=
  st ← gets stack;
  modify (set_stack ({| pos := 0; lsize := sz |} :: st));; modify (set_kind None);; modify (set_size 0).

Definition List : M error Z :=
  '(k, sz) ← Kind_;
  match k with
  | KList => NewList sz;; mret sz
  | _ => throw ErrExpectedList
  end.

Definition ListEnd : M error unit :=
  st ← gets stack;
  match st with
  | [] => throw errNotInList
  | tos :: st =>
      if negb (pos tos =? lsize tos) then throw errNotAtEOL
      else
        modify (set_stack (match st with
                           | [] => []
                           | up :: st => {| pos := pos up +u lsize tos; lsize := lsize up |} :: st
                           end));;
        modify (set_kind None);; modify (set_size 0)
  end.

(** [Reset] on a [bytes.Reader] over [b] *)
Definition Reset (b : list Z) (inputLimit : Z) (s : Stream) : Stream := {|
  rest := b;
  remaining := if 0 <? inputLimit then inputLimit else Z.of_nat (length b);
  limited := true;
  kind := None; size := 0; byteval := 0; kinderr := None; stack := []
|}.
Definition newStream : Stream :=
  {| rest := []; remaining := 0; limited := false; kind := Some KByte; size := 0; byteval := 0; kinderr := None; stack := [] |}.
Definition NewStream (b : list Z) (inputLimit : Z) : Stream := Reset b inputLimit newStream.
Definition NewListStream (b : list Z) (len : Z) : Stream :=
  set_size len (set_kind (Some KList) (Reset b len newStream)).
End Stream.
