(* ===== verification/RlpReading.v ===== *)
(** * RlpReading: what the stream operations read

    Facts about the stream of [RlpStream.v] over a byte slice with its limit set:
    an operation succeeds exactly when the format of what it reads lies ahead and
    fits the innermost list, and then the stream has moved past it. *)

From stdpp Require Import pretty.
From S2P Require Import Prelude Uint256 RlpEncode RlpTypes RlpStream.

Import Rlp RlpT Stream.

(** ** Numbers *)

Lemma be_val_cons x l : be_val (x :: l) = x * 256 ^ Z.of_nat (length l) + be_val l.
Proof.
  induction l as [|y l IH] using rev_ind; [cbn; lia|]. rewrite app_comm_cons, !be_val_app, IH, length_app. cbn [length].
  rewrite Nat.add_1_r, Nat2Z.inj_succ, Z.pow_succ_r by lia. lia.
Qed.

Lemma be_val_range l : isBytes l -> 0 <= be_val l < 256 ^ Z.of_nat (length l).
Proof.
  induction 1 as [|x l Hx Hl IH]; [done|]. rewrite be_val_cons. cbn [length]. rewrite Nat2Z.inj_succ, Z.pow_succ_r by lia. nia.
Qed.

Lemma be_bytes_val l : isBytes l -> be_bytes (length l) (be_val l) = l.
Proof.
  induction l as [|x l IH] using rev_ind; [done|]. intros [Hl [Hx _]%Forall_cons]%Forall_app. rewrite length_app, Nat.add_1_r. cbn [be_bytes].
  rewrite be_val_app, Z.div_add_l, Z.div_small, Z.add_0_r by lia. rewrite IH by done.
  by rewrite Z.add_comm, Z.mod_add, Z.mod_small by lia.
Qed.

Lemma be_bytes_isBytes n z : isBytes (be_bytes n z).
Proof.
  revert z. induction n as [|n IH]; intros z; cbn; [by constructor|]. apply Forall_app. split; [apply IH|]. constructor; [|constructor].
  apply Z.mod_pos_bound. lia.
Qed.

Lemma intsize_nonneg i : 0 <= i -> 0 <= intsize i.
Proof. intros Hi. unfold intsize, Len64. apply Z.div_pos; [|lia]. pose proof (Z.log2_nonneg i). case_match; lia. Qed.

Lemma minimal_length i : 0 <= i -> Z.of_nat (length (minimal i)) = intsize i.
Proof. intros Hi. unfold minimal. rewrite be_bytes_length. pose proof (intsize_nonneg i Hi). lia. Qed.

Lemma be_val_minimal i : 0 <= i -> be_val (minimal i) = i.
Proof.
  intros Hi. unfold minimal. pose proof (intsize_nonneg i Hi). rewrite be_val_bytes, Z2Nat.id by done. apply Z.mod_small. split; [done|].
  destruct (decide (i = 0)) as [->|]; [done|]. change 256 with (2 ^ 8). rewrite <- Z.pow_mul_r by lia. apply Z.log2_lt_pow2; [lia|].
  unfold intsize, Len64 in *. destruct (Z.eqb_spec i 0); [done|]. pose proof (Z.div_mod (Z.log2 i + 1 + 7) 8). pose proof (Z.mod_pos_bound (Z.log2 i + 1 + 7) 8). lia.
Qed.

(** The minimal bytes of a number are the ones without a leading zero. *)
Definition noLeadingZero (b : list Z) : Prop := match b with 0 :: _ => False | _ => True end.

Lemma noLeadingZero_cons x l : noLeadingZero (x :: l) <-> x <> 0.
Proof. by destruct x. Qed.

Lemma minimal_be_val b : isBytes b -> noLeadingZero b -> minimal (be_val b) = b.
Proof.
  intros Hb. destruct b as [|x l]; [done|]. rewrite noLeadingZero_cons. intros Hx. rewrite <- (be_bytes_val _ Hb) at 2. unfold minimal. f_equal.
  pose proof (be_val_range l ltac:(by apply Forall_cons in Hb as [_ ?])) as Hl. pose proof (be_val_range _ Hb) as Hr. rewrite be_val_cons in *.
  apply Forall_cons in Hb as [H1 _]. cbn [length] in Hr.
  rewrite (intsize_between _ (Z.of_nat (S (length l)))); [by rewrite Nat2Z.id|lia|nia|]. change 256 with (2 ^ 8) in *. rewrite <- !Z.pow_mul_r in * by lia.
  replace (8 * (Z.of_nat (S (length l)) - 1)) with (8 * Z.of_nat (length l)) by lia. nia.
Qed.

Lemma minimal_noLeadingZero i : 0 <= i -> noLeadingZero (minimal i).
Proof.
  intros Hi. destruct (minimal i) as [|x l] eqn:E; [done|]. apply noLeadingZero_cons. intros ->.
  pose proof (be_bytes_isBytes (Z.to_nat (intsize i)) i) as Hb. fold (minimal i) in Hb. rewrite E in Hb. apply Forall_cons in Hb as [_ Hb].
  pose proof (be_val_range l Hb) as Hr. pose proof (be_val_minimal i Hi) as Hv. pose proof (minimal_length i Hi) as Hl. rewrite E in Hv, Hl.
  rewrite be_val_cons, Z.mul_0_l, Z.add_0_l in Hv. rewrite Hv in Hr. cbn [length] in Hl. destruct (decide (i = 0)) as [->|]; [done|].
  change 256 with (2 ^ 8) in Hr. rewrite <- Z.pow_mul_r in Hr by lia.
  pose proof (intsize_bytes i (Z.of_nat (length l)) ltac:(lia) ltac:(lia) ltac:(lia)). lia.
Qed.

Lemma minimal_isBytes i : isBytes (minimal i).
Proof. apply be_bytes_isBytes. Qed.

(** ** Moving along the stream *)

Definition bump (n : Z) (st : list listpos) : list listpos :=
  match st with [] => [] | tos :: st => {| pos := pos tos + n; lsize := lsize tos |} :: st end.

(** Every open list fits the list around it. *)
Fixpoint nested (inner : Z) (st : list listpos) : Prop :=
  match st with
  | [] => True
  | tos :: st => 0 <= pos tos /\ pos tos + inner <= lsize tos < 2 ^ 63 /\ nested (lsize tos) st
  end.

Record streamOk (s : Stream) : Prop := {
  ok_limited : limited s = true;
  ok_remaining : remaining s = Z.of_nat (length (rest s));
  ok_length : Z.of_nat (length (rest s)) < 2 ^ 63;
  ok_bytes : isBytes (rest s);
  ok_stack : nested 0 (stack s)
}.

(** [s1] is [s], ready for the next value, [n] bytes on. *)
Record moved (n : Z) (s s1 : Stream) : Prop := {
  mv_kind : kind s1 = None;
  mv_rest : rest s1 = drop (Z.to_nat n) (rest s);
  mv_remaining : remaining s1 = remaining s - n;
  mv_limited : limited s1 = limited s;
  mv_stack : stack s1 = bump n (stack s)
}.

(** What the innermost list has left. *)
Definition avail (s : Stream) : Z :=
  match stack s with [] => Z.of_nat (length (rest s)) | tos :: _ => lsize tos - pos tos end.

Definition room (s : Stream) (n : Z) : Prop := 0 <= n <= Z.of_nat (length (rest s)) /\ n <= avail s.
#[global] Instance room_dec s n : Decision (room s n).
Proof. unfold room. apply _. Defined.

Definition ended (s : Stream) : Prop := match stack s with [] => False | tos :: _ => pos tos = lsize tos end.

(** The bytes [bs] come next. *)
Definition ahead (bs : list Z) (s : Stream) : Prop := take (length bs) (rest s) = bs /\ room s (Z.of_nat (length bs)).

Lemma bump_bump a b st : bump b (bump a st) = bump (a + b) st.
Proof. destruct st as [|[p z] st]; cbn; [done|]. by rewrite Z.add_assoc. Qed.
Lemma bump_0 st : bump 0 st = st.
Proof. destruct st as [|[p z] st]; cbn; [done|]. by rewrite Z.add_0_r. Qed.

Lemma moved_trans a b s s1 s2 : 0 <= a -> 0 <= b -> moved a s s1 -> moved b s1 s2 -> moved (a + b) s s2.
Proof.
  intros Ha Hb [] []. split; [done|..].
  - rewrite mv_rest1, mv_rest0, drop_drop. f_equal. lia.
  - lia.
  - congruence.
  - by rewrite mv_stack1, mv_stack0, bump_bump.
Qed.

Lemma moved_ok n s s1 : room s n -> moved n s s1 -> streamOk s -> streamOk s1.
Proof.
  intros [Hn Ha] [] []. split.
  - congruence.
  - rewrite mv_remaining0, mv_rest0, length_drop. lia.
  - rewrite mv_rest0, length_drop. lia.
  - rewrite mv_rest0. by apply Forall_drop.
  - rewrite mv_stack0. unfold avail in Ha. destruct (stack s) as [|tos st]; [done|]. cbn in *. destruct ok_stack0 as (H1 & H2 & H3).
    split_and!; try done; lia.
Qed.

Lemma moved_avail n s s1 : 0 <= n <= Z.of_nat (length (rest s)) -> moved n s s1 -> avail s1 = avail s - n.
Proof.
  intros Hn []. unfold avail. rewrite mv_stack0, mv_rest0. destruct (stack s); cbn; [|lia]. rewrite length_drop. lia.
Qed.

Lemma room_split a b s s1 : 0 <= a -> 0 <= b -> room s (a + b) -> moved a s s1 -> room s a /\ room s1 b.
Proof.
  intros Ha Hb [H1 H2] Hm. pose proof (moved_avail a s s1 ltac:(lia) Hm) as Hav. destruct Hm. split; split; try lia.
  rewrite mv_rest0, length_drop. lia.
Qed.

Lemma room_join a b s s1 : 0 <= b -> room s a -> moved a s s1 -> room s1 b -> room s (a + b).
Proof.
  intros Hb [H1 H2] Hm [H3 H4]. pose proof (moved_avail a s s1 ltac:(lia) Hm) as Hav. destruct Hm.
  rewrite mv_rest0, length_drop in H3. split; lia.
Qed.

Lemma ahead_app a b s s1 : moved (Z.of_nat (length a)) s s1 -> ahead (a ++ b) s <-> ahead a s /\ ahead b s1.
Proof.
  intros Hm. unfold ahead. rewrite length_app, Nat2Z.inj_add, (mv_rest _ _ _ Hm), Nat2Z.id. split.
  - intros [H1 H2]. destruct (room_split (Z.of_nat (length a)) (Z.of_nat (length b)) s s1 ltac:(lia) ltac:(lia) H2 Hm) as [Ha Hb].
    rewrite <- take_take_drop in H1. destruct Ha as [Ha Ha']. apply app_inj_1 in H1 as [H1 H1']; [done|]. rewrite length_take. lia.
  - intros [[H1 Ha] [H2 Hb]]. split; [|eapply room_join; [lia|..]; done]. by rewrite <- take_take_drop, H1, H2.
Qed.

Lemma ended_avail s : ended s -> avail s = 0.
Proof. unfold ended, avail. destruct (stack s); [done|]. lia. Qed.
Lemma ahead_not_ended bs s : bs <> [] -> ahead bs s -> ~ ended s.
Proof. intros Hb [_ [H1 H2]] He%ended_avail. destruct bs; [done|]. cbn in *. lia. Qed.

(** ** Running the monad *)

Lemma bind_ok {E A B} (m : M E A) (f : A -> M E B) s t a : m s = Ok (t, inl a) -> (m ≫= f) s = f a t.
Proof. intros H. unfold mbind, M_bind. by rewrite H. Qed.
Lemma bind_err {E A B} (m : M E A) (f : A -> M E B) s t e : m s = Ok (t, inr e) -> (m ≫= f) s = Ok (t, inr e).
Proof. intros H. unfold mbind, M_bind. by rewrite H. Qed.
Lemma stream_bind_inv {E A B} (m : M E A) (f : A -> M E B) s t b : (m ≫= f) s = Ok (t, inl b) -> exists u a, m s = Ok (u, inl a) /\ f a u = Ok (t, inl b).
Proof. unfold mbind, M_bind. destruct (m s) as [[u [a|e]]| |]; try done. eauto. Qed.
Lemma try_ok {E A} (m : M E A) s t r : m s = Ok (t, r) -> try m s = Ok (t, inl r).
Proof. intros H. unfold try. by rewrite H. Qed.

(** The call returns. *)
Definition returns {E A} (m : M E A) (s : Stream) : Prop := exists t r, m s = Ok (t, r).
Lemma returns_ok {E A} (m : M E A) s t r : m s = Ok (t, r) -> returns m s.
Proof. intros H. by exists t, r. Qed.
Lemma returns_bind {E A B} (m : M E A) (f : A -> M E B) s : returns m s -> (forall t a, m s = Ok (t, inl a) -> returns (f a) t) -> returns (m ≫= f) s.
Proof.
  intros (t & [a|e] & H) Hf; [|exists t, (inr e); by apply bind_err]. destruct (Hf t a H) as (u & r & Hr). exists u, r. by rewrite (bind_ok _ _ _ _ _ H).
Qed.

(** The call returns, and not the end of the list. *)
Definition proper {A} (m : M error A) (s : Stream) : Prop := exists t r, m s = Ok (t, r) /\ r <> inr EOL.
Lemma proper_ok {A} (m : M error A) s t a : m s = Ok (t, inl a) -> proper m s.
Proof. intros H. by exists t, (inl a). Qed.
Lemma proper_err {A} (m : M error A) s t e : m s = Ok (t, inr e) -> e <> EOL -> proper m s.
Proof. intros H He. exists t, (inr e). split; [done|]. congruence. Qed.
Lemma proper_bind {A B} (m : M error A) (f : A -> M error B) s : proper m s -> (forall t a, m s = Ok (t, inl a) -> proper (f a) t) -> proper (m ≫= f) s.
Proof.
  intros (t & [a|e] & H & He) Hf; [|eapply proper_err; [by apply bind_err|congruence]].
  destruct (Hf t a H) as (u & r & Hr & Hn). exists u, r. by rewrite (bind_ok _ _ _ _ _ H).
Qed.

(** ** Reading bytes *)

Definition advance (n : Z) (s : Stream) : Stream :=
  set_rest (drop (Z.to_nat n) (rest s)) (set_remaining (remaining s - n) (set_stack (bump n (stack s)) (set_kind None s))).


Lemma willRead_ok n s : streamOk s -> room s n ->
  willRead n s = Ok (set_remaining (remaining s - n) (set_stack (bump n (stack s)) (set_kind None s)), inl tt).
Proof.
  destruct s as [r m lim k sz bv ke st]. intros [] [H1 H2]. unfold willRead, mbind, M_bind, modify, gets, throw, mret, M_ret, avail in *. cbn in *. subst lim.
  destruct st as [|tos st]; cbn in *.
  - destruct (Z.ltb_spec m n); [lia|]. unfold set_remaining. cbn. by rewrite sub64_small by (unfold in_u64; lia).
  - destruct ok_stack0 as (H3 & H4 & _). rewrite sub64_small by (unfold in_u64; lia). destruct (Z.ltb_spec (lsize tos - pos tos) n); [lia|].
    rewrite add64_small by (unfold in_u64; lia). cbn. destruct (Z.ltb_spec m n); [lia|]. unfold set_remaining. cbn.
    by rewrite sub64_small by (unfold in_u64; lia).
Qed.

Lemma willRead_fails n s : streamOk s -> 0 <= n -> ~ room s n -> exists t e, willRead n s = Ok (t, inr e) /\ e <> EOL.
Proof.
  destruct s as [r m lim k sz bv ke st]. intros [] Hn Hr. unfold willRead, mbind, M_bind, modify, gets, throw, mret, M_ret, room, avail in *. cbn in *. subst lim.
  destruct st as [|tos st]; cbn in *.
  - destruct (Z.ltb_spec m n); [by do 2 eexists|lia].
  - destruct ok_stack0 as (H3 & H4 & _). rewrite sub64_small by (unfold in_u64; lia). destruct (Z.ltb_spec (lsize tos - pos tos) n); [by do 2 eexists|].
    cbn. destruct (Z.ltb_spec m n); [by do 2 eexists|lia].
Qed.

Lemma readFull_ok n s : streamOk s -> room s n -> readFull n s = Ok (advance n s, inl (take (Z.to_nat n) (rest s))).
Proof.
  intros Ok Hr. unfold readFull. rewrite (bind_ok _ _ _ _ _ (willRead_ok n s Ok Hr)). unfold mbind, M_bind, modify, gets, mret, M_ret. cbn.
  destruct Hr as [Hn _]. by destruct (Z.ltb_spec (Z.of_nat (length (rest s))) n); [lia|].
Qed.
Lemma readFull_fails n s : streamOk s -> 0 <= n -> ~ room s n -> exists t e, readFull n s = Ok (t, inr e) /\ e <> EOL.
Proof.
  intros Ok Hn Hr. destruct (willRead_fails n s Ok Hn Hr) as (t & e & E & He). exists t, e. split; [|done]. unfold readFull. by apply bind_err.
Qed.

Lemma readByte_ok s : streamOk s -> room s 1 -> exists b, ahead [b] s /\ readByte s = Ok (advance 1 s, inl b).
Proof.
  intros Ok Hr. destruct (rest s) as [|b r] eqn:Er; [destruct Hr as [H _]; rewrite Er in H; cbn in H; lia|].
  exists b. unfold ahead. rewrite Er. split; [done|]. unfold readByte. rewrite (bind_ok _ _ _ _ _ (willRead_ok 1 s Ok Hr)).
  unfold mbind, M_bind, modify, gets, mret, M_ret, advance. cbn. by rewrite Er.
Qed.
Lemma readByte_fails s : streamOk s -> ~ room s 1 -> exists t e, readByte s = Ok (t, inr e) /\ e <> EOL.
Proof.
  intros Ok Hr. destruct (willRead_fails 1 s Ok ltac:(lia) Hr) as (t & e & E & He). exists t, e. split; [|done]. unfold readByte. by apply bind_err.
Qed.

Lemma ahead_take n s : room s n -> ahead (take (Z.to_nat n) (rest s)) s.
Proof. intros Hr. pose proof Hr as [? _]. unfold ahead. rewrite length_take. replace (Nat.min (Z.to_nat n) (length (rest s))) with (Z.to_nat n) by lia. split; [done|]. by rewrite Z2Nat.id by lia. Qed.

Lemma ahead_isBytes bs s : streamOk s -> ahead bs s -> isBytes bs.
Proof. intros [] [<- _]. by apply Forall_take. Qed.

(** An integer of [n] bytes without leading zeros; a single byte may be zero. *)
Lemma readUint_ok bs s : streamOk s -> ahead bs s -> (1 <= length bs <= 8)%nat -> (length bs = 1%nat \/ noLeadingZero bs) ->
  readUint (Z.of_nat (length bs)) s = Ok (advance (Z.of_nat (length bs)) s, inl (be_val bs)).
Proof.
  intros Ok [Ht Hr] Hl Hz. unfold readUint. rewrite (proj2 (Z.eqb_neq _ _)) by lia. destruct (Z.eqb_spec (Z.of_nat (length bs)) 1) as [H1|H1].
  - destruct bs as [|b [|c bs]]; cbn [length] in H1; try lia. destruct (readByte_ok s Ok Hr) as (b' & [Hb _] & ->). cbn in *. rewrite Ht in Hb. by injection Hb as ->.
  - rewrite (bind_ok _ _ _ _ _ (readFull_ok _ s Ok Hr)). rewrite Nat2Z.id, Ht. destruct Hz as [?|Hz]; [lia|].
    destruct bs as [|x bs]; [done|]. by destruct x.
Qed.

Lemma readUint_inv n s t v : streamOk s -> 1 <= n -> readUint n s = Ok (t, inl v) ->
  exists bs, Z.of_nat (length bs) = n /\ ahead bs s /\ (n = 1 \/ noLeadingZero bs) /\ v = be_val bs /\ t = advance n s.
Proof.
  intros Ok Hn. unfold readUint. rewrite (proj2 (Z.eqb_neq n 0)) by lia. destruct (decide (room s n)) as [Hr|Hr]; destruct (Z.eqb_spec n 1) as [->|H1].
  - destruct (readByte_ok s Ok Hr) as (b & Hb & ->). intros [= <- <-]. exists [b]. split_and!; try done; by left.
  - rewrite (bind_ok _ _ _ _ _ (readFull_ok _ s Ok Hr)). set (bs := take (Z.to_nat n) (rest s)). intros H. exists bs.
    assert (Z.of_nat (length bs) = n) as Hl by (subst bs; rewrite length_take; destruct Hr as [? _]; lia).
    split; [done|]. split; [by apply ahead_take|]. destruct bs as [|x bs]; [cbn in Hl; lia|]. destruct x; [done|..]; injection H as <- <-; (split; [by right|done]).
  - destruct (readByte_fails s Ok Hr) as (u & e & -> & _). done.
  - destruct (readFull_fails n s Ok ltac:(lia) Hr) as (u & e & E & _). by rewrite (bind_err _ _ _ _ _ E).
Qed.

Lemma readFull_proper n s : streamOk s -> 0 <= n -> proper (readFull n) s.
Proof.
  intros Ok Hn. destruct (decide (room s n)) as [Hr|Hr]; [by eapply proper_ok, readFull_ok|].
  destruct (readFull_fails n s Ok Hn Hr) as (u & e & E & He). by eapply proper_err.
Qed.
Lemma readByte_proper s : streamOk s -> proper readByte s.
Proof.
  intros Ok. destruct (decide (room s 1)) as [Hr|Hr]; [destruct (readByte_ok s Ok Hr) as (b & _ & E); by eapply proper_ok|].
  destruct (readByte_fails s Ok Hr) as (u & e & E & He). by eapply proper_err.
Qed.
Lemma readUint_proper n s : streamOk s -> 0 <= n -> proper (readUint n) s.
Proof.
  intros Ok Hn. unfold readUint. destruct (n =? 0); [by eapply proper_ok|]. destruct (n =? 1); [by apply readByte_proper|].
  apply proper_bind; [by apply readFull_proper|]. intros t a _. repeat case_match; first [by eapply proper_ok|by eapply proper_err].
Qed.

(** ** The next value *)

Definition headOf (k : Kind) (sz bv : Z) : list Z :=
  match k with KByte => [bv] | KString => puthead 0x80 0xB7 sz | KList => puthead 0xC0 0xF7 sz end.
Definition headOk (k : Kind) (sz bv : Z) : Prop :=
  match k with KByte => sz = 0 /\ 0 <= bv < 128 | _ => in_u64 sz /\ bv = 0 end.

Lemma puthead_short a b n : 0 <= n < 56 -> 0 <= a <= 0xC0 -> puthead a b n = [a + n].
Proof. intros Hn Ha. unfold puthead. rewrite (proj2 (Z.ltb_lt _ _)) by lia. unfold byte. by rewrite Z.mod_small by lia. Qed.

Lemma puthead_long a b n : 56 <= n < two64 -> 0 <= b <= 0xF7 -> puthead a b n = b + Z.of_nat (length (minimal n)) :: minimal n.
Proof.
  intros Hn Hb. unfold puthead. rewrite (proj2 (Z.ltb_ge _ _)) by lia. rewrite putint_minimal by lia.
  pose proof (intsize_bytes n 8 ltac:(lia) ltac:(lia) ltac:(cbn; lia)). rewrite minimal_length by lia. unfold byte. by rewrite Z.mod_small by lia.
Qed.

Lemma minimal_length_u64 n : 0 < n < two64 -> (1 <= length (minimal n) <= 8)%nat.
Proof. intros Hn. pose proof (intsize_bytes n 8 ltac:(lia) ltac:(lia) ltac:(cbn; lia)). pose proof (minimal_length n ltac:(lia)). lia. Qed.

Lemma readSized_ok k n s : streamOk s -> 56 <= n < two64 -> ahead (minimal n) s ->
  readSized k (Z.of_nat (length (minimal n))) s = Ok (advance (Z.of_nat (length (minimal n))) s, inl (k, n, None)).
Proof.
  intros Ok Hn Ha. pose proof (minimal_length_u64 n ltac:(lia)). unfold readSized.
  rewrite (bind_ok _ _ _ _ _ (try_ok _ _ _ _ (readUint_ok _ s Ok Ha ltac:(lia) (or_intror (minimal_noLeadingZero n ltac:(lia)))))).
  rewrite be_val_minimal by lia. cbn. by rewrite (proj2 (Z.ltb_ge _ _)) by lia.
Qed.

Lemma readSized_inv k m s t k1 n : streamOk s -> 1 <= m <= 8 -> readSized k m s = Ok (t, inl (k1, n, None)) ->
  k1 = k /\ 56 <= n < two64 /\ m = Z.of_nat (length (minimal n)) /\ ahead (minimal n) s /\ t = advance m s.
Proof.
  intros Ok Hm. unfold readSized. destruct (readUint_proper m s Ok ltac:(lia)) as (u & r & E & _). rewrite (bind_ok _ _ _ _ _ (try_ok _ _ _ _ E)).
  destruct r as [v|e]; [|done]. destruct (readUint_inv m s u v Ok ltac:(lia) E) as (bs & Hl & Ha & Hz & -> & ->). cbn.
  destruct (Z.ltb_spec (be_val bs) 56); [done|]. intros [= <- <- <-].
  pose proof (ahead_isBytes _ _ Ok Ha) as Hb. assert (noLeadingZero bs) as Hnz.
  { destruct Hz as [->|]; [|done]. destruct bs as [|x [|y bs]]; cbn [length] in Hl; try lia. apply noLeadingZero_cons. intros ->. cbn in *. lia. }
  rewrite minimal_be_val by done. pose proof (be_val_range bs Hb) as [_ Hr]. split_and!; try done.
  eapply Z.lt_le_trans; [exact Hr|]. rewrite Hl. change two64 with (256 ^ 8). apply Z.pow_le_mono_r; lia.
Qed.

Lemma readSized_returns k m s : streamOk s -> 0 <= m -> exists t sz e, readSized k m s = Ok (t, inl (k, sz, e)) /\ e <> Some EOL.
Proof.
  intros Ok Hm. unfold readSized. destruct (readUint_proper m s Ok Hm) as (u & r & E & He). rewrite (bind_ok _ _ _ _ _ (try_ok _ _ _ _ E)).
  destruct r as [v|e].
  - exists u, v. cbn. destruct (v <? 56); eexists; by split.
  - exists u, 0, (Some e). split; [done|congruence].
Qed.

(** Decide the comparisons of the goal. *)
Ltac ltb_cases := repeat match goal with |- context [Z.ltb ?a ?b] => destruct (Z.ltb_spec a b); try lia end.

Lemma headOf_cons k sz bv : exists b tl, headOf k sz bv = b :: tl.
Proof. destruct k; cbn; [by do 2 eexists|..]; unfold puthead; case_match; by do 2 eexists. Qed.

(** The part of [readKind] after its first byte. *)
Definition afterByte (b : Z) : M error (Kind * Z * option error) :=
  if b <? 0x80 then modify (set_byteval b);; mret (KByte, 0, None)
  else if b <? 0xB8 then mret (KString, b - 0x80, None)
  else if b <? 0xC0 then readSized KString (b - 0xB7)
  else if b <? 0xF8 then mret (KList, b - 0xC0, None)
  else readSized KList (b - 0xF7).

Lemma readKind_byte s : streamOk s -> room s 1 -> exists b, ahead [b] s /\ readKind s = afterByte b (set_byteval 0 (advance 1 s)).
Proof.
  intros Ok Hr. destruct (readByte_ok s Ok Hr) as (b & Hb & E). exists b. split; [done|]. unfold readKind. by rewrite (bind_ok _ _ _ _ _ (try_ok _ _ _ _ E)).
Qed.

Lemma afterByte_ok k sz bv b tl s : streamOk s -> headOk k sz bv -> byteval s = 0 -> kind s = None -> headOf k sz bv = b :: tl -> ahead tl s ->
  exists s1, afterByte b s = Ok (s1, inl (k, sz, None)) /\ moved (Z.of_nat (length tl)) s s1 /\ byteval s1 = bv.
Proof.
  intros Ok Hh Hv Hk Eh Ha. unfold afterByte.
  assert (moved 0 s s) as Hm0 by (split; try done; [lia|by rewrite bump_0]).
  destruct k; cbn [headOf headOk] in *.
  - injection Eh as <- <-. ltb_cases. exists (set_byteval bv s). destruct Hh as [-> _]. split; [done|]. split; [|done]. by destruct Hm0.
  - destruct Hh as [[Hz1 Hz2] ->]. destruct (Z.ltb_spec sz 56).
    + rewrite puthead_short in Eh by lia. injection Eh as <- <-. ltb_cases. exists s. split; [|done]. unfold mret, M_ret. by rewrite Z.add_simpl_l.
    + rewrite puthead_long in Eh by lia. injection Eh as <- <-. pose proof (minimal_length_u64 sz ltac:(lia)). ltb_cases.
      rewrite Z.add_simpl_l, readSized_ok by (done || lia). by eexists.
  - destruct Hh as [[Hz1 Hz2] ->]. destruct (Z.ltb_spec sz 56).
    + rewrite puthead_short in Eh by lia. injection Eh as <- <-. ltb_cases. exists s. split; [|done]. unfold mret, M_ret. by rewrite Z.add_simpl_l.
    + rewrite puthead_long in Eh by lia. injection Eh as <- <-. pose proof (minimal_length_u64 sz ltac:(lia)). ltb_cases.
      rewrite Z.add_simpl_l, readSized_ok by (done || lia). by eexists.
Qed.

Lemma afterByte_inv b s s1 k sz : streamOk s -> 0 <= b < 256 -> byteval s = 0 -> kind s = None -> afterByte b s = Ok (s1, inl (k, sz, None)) ->
  exists bv tl, headOk k sz bv /\ headOf k sz bv = b :: tl /\ ahead tl s /\ moved (Z.of_nat (length tl)) s s1 /\ byteval s1 = bv.
Proof.
  intros Ok Hb Hv Hk. assert (moved 0 s s) as Hm0 by (split; try done; [lia|by rewrite bump_0]).
  assert (ahead [] s) as Ha0.
  { split; [done|]. unfold room, avail. destruct Ok. destruct (stack s); cbn in *; lia. }
  unfold afterByte, mret, M_ret. ltb_cases.
  - intros [= <- <- <-]. exists b, []. split; [cbn; lia|]. split; [done|]. split; [done|]. split; [|done]. by destruct Hm0.
  - intros [= <- <- <-]. exists 0, []. cbn. rewrite puthead_short by lia. split_and!; try done; unfold in_u64; try lia. f_equal. lia.
  - intros H'. apply readSized_inv in H' as (-> & Hn & Hl & Ha & ->); [|done|lia]. exists 0, (minimal sz). cbn. rewrite puthead_long, <- Hl by lia.
    split_and!; try done; unfold in_u64; try lia. f_equal. lia.
  - intros [= <- <- <-]. exists 0, []. cbn. rewrite puthead_short by lia. split_and!; try done; unfold in_u64; try lia. f_equal. lia.
  - intros H'. apply readSized_inv in H' as (-> & Hn & Hl & Ha & ->); [|done|lia]. exists 0, (minimal sz). cbn. rewrite puthead_long, <- Hl by lia.
    split_and!; try done; unfold in_u64; try lia. f_equal. lia.
Qed.

Lemma readKind_ok k sz bv s : streamOk s -> headOk k sz bv -> ahead (headOf k sz bv) s ->
  exists s1, readKind s = Ok (s1, inl (k, sz, None)) /\ moved (Z.of_nat (length (headOf k sz bv))) s s1 /\ byteval s1 = bv.
Proof.
  intros Ok Hh Ha. destruct (headOf_cons k sz bv) as (b & tl & Eh). rewrite Eh in Ha |- *. set (s0 := set_byteval 0 (advance 1 s)).
  assert (moved 1 s s0) as Hm by done. apply (ahead_app [b] tl s s0 Hm) in Ha as [Hb Ht]. pose proof Hb as [Hb1 Hr].
  destruct (readKind_byte s Ok Hr) as (b' & [Hb2 _] & ->). cbn [length] in Hb1, Hb2. rewrite Hb1 in Hb2. injection Hb2 as <-.
  destruct (afterByte_ok k sz bv b tl s0) as (s1 & E & Hm1 & Hv); try done; [by eapply moved_ok|]. exists s1. split; [done|]. split; [|done].
  cbn [length]. rewrite Nat2Z.inj_succ, <- Z.add_1_l. eapply moved_trans; [lia|lia|done|done].
Qed.

Lemma readKind_inv s s1 k sz : streamOk s -> readKind s = Ok (s1, inl (k, sz, None)) ->
  exists bv, headOk k sz bv /\ ahead (headOf k sz bv) s /\ moved (Z.of_nat (length (headOf k sz bv))) s s1 /\ byteval s1 = bv.
Proof.
  intros Ok H. destruct (decide (room s 1)) as [Hr|Hr].
  - destruct (readKind_byte s Ok Hr) as (b & Hb & E). rewrite E in H. clear E. set (s0 := set_byteval 0 (advance 1 s)) in *.
    assert (moved 1 s s0) as Hm by done. pose proof (ahead_isBytes _ _ Ok Hb) as [Hb' _]%Forall_cons.
    apply afterByte_inv in H as (bv & tl & Hh & Eh & Ht & Hm1 & Hv); try done; [|by eapply moved_ok]. exists bv. rewrite Eh.
    split; [done|]. split; [|split; [|done]]. { by apply (ahead_app [b] tl s s0 Hm). }
    cbn [length]. rewrite Nat2Z.inj_succ, <- Z.add_1_l. eapply moved_trans; [lia|lia|done|done].
  - destruct (readByte_fails s Ok Hr) as (u & e & E & _). unfold readKind in H. rewrite (bind_ok _ _ _ _ _ (try_ok _ _ _ _ E)) in H.
    unfold mbind, M_bind, gets, mret, M_ret in H. by cbn in H.
Qed.

Lemma readKind_returns s : streamOk s -> exists t k sz e, readKind s = Ok (t, inl (k, sz, e)) /\ e <> Some EOL.
Proof.
  intros Ok. destruct (decide (room s 1)) as [Hr|Hr].
  - destruct (readKind_byte s Ok Hr) as (b & Hb & ->). pose proof (ahead_isBytes _ _ Ok Hb) as [Hb' _]%Forall_cons.
    set (s0 := set_byteval 0 (advance 1 s)). assert (streamOk s0) as Ok0 by (by eapply (moved_ok 1)). unfold afterByte. ltb_cases; try (by do 4 eexists).
    + destruct (readSized_returns KString (b - 0xB7) s0 Ok0 ltac:(lia)) as (t & sz & e & E & He). by do 4 eexists.
    + destruct (readSized_returns KList (b - 0xF7) s0 Ok0 ltac:(lia)) as (t & sz & e & E & He). by do 4 eexists.
  - destruct (readByte_fails s Ok Hr) as (u & e & E & He). unfold readKind. rewrite (bind_ok _ _ _ _ _ (try_ok _ _ _ _ E)).
    unfold mbind, M_bind, gets, mret, M_ret. cbn. do 4 eexists. split; [done|]. destruct (stack u); [|congruence]. destruct (_ || _); [done|congruence].
Qed.

(** The check of [Kind] that a value fits what is around it. *)
Definition checkSize (s : Stream) (sz : Z) : option error :=
  match stack s with
  | [] => if limited s && (remaining s <? sz) then Some ErrValueTooLarge else None
  | tos :: _ => if lsize tos -u pos tos <? sz then Some ErrElemTooLarge else None
  end.

Lemma checkSize_avail s sz : streamOk s -> checkSize s sz = None <-> sz <= avail s.
Proof.
  intros []. unfold checkSize, avail. destruct (stack s) as [|tos st]; cbn in *.
  - rewrite ok_limited0, ok_remaining0. cbn. destruct (Z.ltb_spec (Z.of_nat (length (rest s))) sz); split; done || lia.
  - rewrite sub64_small by (unfold in_u64; lia). destruct (Z.ltb_spec (lsize tos - pos tos) sz); split; done || lia.
Qed.
Lemma checkSize_EOL s sz : checkSize s sz <> Some EOL.
Proof. unfold checkSize. by repeat case_match. Qed.

Lemma Kind_run s t k sz e : kind s = None -> ~ ended s -> readKind (set_kinderr None s) = Ok (t, inl (k, sz, e)) ->
  let e' := match e with Some e => Some e | None => checkSize t sz end in
  Kind_ s = Ok (set_kinderr e' (set_size sz (set_kind (Some k) t)), match e' with Some e => inr e | None => inl (k, sz) end).
Proof.
  intros Hk He E. unfold Kind_. unfold mbind, M_bind, gets, modify, throw, mret, M_ret. rewrite Hk.
  assert (match stack s with [] => True | tos :: _ => (pos tos =? lsize tos) = false end) as Hs.
  { unfold ended in He. destruct (stack s); [done|]. by apply Z.eqb_neq. }
  cbn [stack set_kinderr]. destruct (stack s) as [|tos st]; cbn beta iota; rewrite ?Hs; rewrite E; (destruct e as [e|]; [done|]);
    unfold checkSize; cbn; destruct (stack t);
    match goal with |- context [if ?b then Some _ else None] => by destruct b end.
Qed.

Lemma Kind_ended s : kind s = None -> ended s -> Kind_ s = Ok (set_kinderr None s, inr EOL).
Proof.
  intros Hk He. unfold Kind_. unfold mbind, M_bind, gets, modify, throw, mret, M_ret. rewrite Hk. unfold ended in He. cbn [stack set_kinderr].
  destruct (stack s); [done|]. cbn. by rewrite (proj2 (Z.eqb_eq _ _) He).
Qed.

Lemma Kind_staged s k : kind s = Some k -> kinderr s = None -> Kind_ s = Ok (s, inl (k, size s)).
Proof. intros Hk He. unfold Kind_. unfold mbind, M_bind, gets, modify, throw, mret, M_ret. rewrite Hk. cbn. by rewrite He, Hk. Qed.

(** The head of a value was read: the stream is past it and remembers it. *)
Record staged (s : Stream) (k : Kind) (sz bv : Z) (s1 : Stream) : Prop := {
  sg_kind : kind s1 = Some k;
  sg_size : size s1 = sz;
  sg_byteval : byteval s1 = bv;
  sg_err : kinderr s1 = None;
  sg_moved : moved (Z.of_nat (length (headOf k sz bv))) s (set_kind None s1)
}.

(** A value of this kind and size comes next and fits. *)
Record comes (k : Kind) (sz bv : Z) (s : Stream) : Prop := {
  cm_ok : headOk k sz bv;
  cm_ahead : ahead (headOf k sz bv) s;
  cm_fits : Z.of_nat (length (headOf k sz bv)) + sz <= avail s
}.

Lemma streamOk_kinderr e s : streamOk s -> streamOk (set_kinderr e s).
Proof. by intros []. Qed.

Lemma moved_kinderr e n s t : moved n (set_kinderr e s) t -> moved n s t.
Proof. intros []. by split. Qed.

Lemma Kind_ok k sz bv s : streamOk s -> kind s = None -> comes k sz bv s -> exists s1, Kind_ s = Ok (s1, inl (k, sz)) /\ staged s k sz bv s1.
Proof.
  intros Ok Hk [Hh Ha Hf]. destruct (readKind_ok k sz bv (set_kinderr None s) (streamOk_kinderr _ _ Ok) Hh Ha) as (t & E & Hm%moved_kinderr & Hv).
  assert (~ ended s) as He. { eapply ahead_not_ended; [|exact Ha]. destruct (headOf_cons k sz bv) as (b & tl & ->). done. }
  pose proof (Kind_run s t k sz None Hk He E) as HK. cbn zeta in HK. assert (room s (Z.of_nat (length (headOf k sz bv)))) as Hr by apply Ha.
  assert (streamOk t) as Okt by (by eapply (moved_ok _ s)).
  pose proof (moved_avail _ s t (proj1 Hr) Hm) as Hav. rewrite (proj2 (checkSize_avail t sz Okt)) in HK by lia. eexists. split; [exact HK|].
  split; try done. by destruct Hm.
Qed.

Lemma Kind_inv s s1 k sz : streamOk s -> kind s = None -> Kind_ s = Ok (s1, inl (k, sz)) -> exists bv, comes k sz bv s /\ staged s k sz bv s1.
Proof.
  intros Ok Hk H. assert (~ ended s) as He by (intros He; by rewrite Kind_ended in H).
  destruct (readKind_returns (set_kinderr None s) (streamOk_kinderr _ _ Ok)) as (t & k1 & sz1 & e & E & _).
  pose proof (Kind_run s t k1 sz1 e Hk He E) as HK. cbn zeta in HK. rewrite HK in H. destruct e as [e|]; [done|].
  destruct (checkSize t sz1) eqn:Ec; [done|]. injection H as <- -> ->.
  apply readKind_inv in E as (bv & Hh & Ha & Hm%moved_kinderr & Hv); [|by apply streamOk_kinderr]. assert (room s (Z.of_nat (length (headOf k sz bv)))) as Hr by apply Ha.
  assert (streamOk t) as Okt by (by eapply (moved_ok _ s)).
  pose proof (moved_avail _ s t (proj1 Hr) Hm) as Hav. apply (checkSize_avail t sz Okt) in Ec. exists bv. split; [split; [done|done|lia]|].
  split; try done. by destruct Hm.
Qed.

Lemma Kind_returns s : streamOk s -> kind s = None -> exists t r, Kind_ s = Ok (t, r) /\ (r = inr EOL -> ended s).
Proof.
  intros Ok Hk. assert (Decision (ended s)) as [He|He]. { unfold ended. destruct (stack s); apply _. }
  { by rewrite Kind_ended by done; do 2 eexists. }
  destruct (readKind_returns (set_kinderr None s) (streamOk_kinderr _ _ Ok)) as (t & k & sz & e & E & Hn).
  rewrite (Kind_run s t k sz e Hk He E). do 2 eexists. split; [done|]. pose proof (checkSize_EOL t sz) as Hc.
  destruct e as [e|]; [congruence|]. destruct (checkSize t sz); congruence.
Qed.

(** A call that starts with [Kind] may find it read already. *)
Lemma Kind_again s s1 r : Kind_ s = Ok (s1, inl r) -> Kind_ s1 = Ok (s1, inl r).
Proof.
  intros H. unfold Kind_ in H. apply stream_bind_inv in H as (u & k & E1 & H). apply stream_bind_inv in H as (v & [] & E2 & H).
  unfold mbind, M_bind, gets, mret, M_ret, throw, panic in H.
  destruct (kinderr v) eqn:Ee; [done|]. destruct (kind v) as [k1|] eqn:Ek; [|done]. injection H as <- <-. by apply Kind_staged.
Qed.

(** ** What an operation reads *)

(** The operation reads [a] where an encoding [bs] of [a], as [F] says, comes
    next, and only there. *)
Record parses {E A} (eol : E) (op : M E A) (F : A -> list Z -> Prop) : Prop := {
  ps_ok : forall s a bs, streamOk s -> kind s = None -> F a bs -> ahead bs s -> exists t, op s = Ok (t, inl a) /\ moved (Z.of_nat (length bs)) s t;
  ps_inv : forall s t a, streamOk s -> kind s = None -> op s = Ok (t, inl a) -> exists bs, F a bs /\ ahead bs s /\ moved (Z.of_nat (length bs)) s t;
  ps_end : forall s, kind s = None -> ended s -> exists t, op s = Ok (t, inr eol) /\ moved 0 s t;
  ps_eol : forall s t, streamOk s -> kind s = None -> op s = Ok (t, inr eol) -> ended s;
  ps_returns : forall s, streamOk s -> kind s = None -> returns op s;
  ps_again : forall s t r, Kind_ s = Ok (t, inl r) -> op t = op s;
  ps_kind : forall s t a, op s = Ok (t, inl a) -> exists u r, Kind_ s = Ok (u, inl r);
  ps_some : forall a bs, F a bs -> bs <> []
}.

Lemma streamOk_set_kind k s : streamOk (set_kind k s) <-> streamOk s.
Proof. split; by intros []. Qed.

Section Staged.
Context (s s1 : Stream) (k : Kind) (sz bv : Z).
Hypothesis Hok : streamOk s.
Hypothesis Hcomes : comes k sz bv s.
Hypothesis Hstaged : staged s k sz bv s1.

Let hd := headOf k sz bv.

Lemma staged_room : room s (Z.of_nat (length hd)).
Proof. apply (cm_ahead _ _ _ _ Hcomes). Qed.

Lemma staged_ok : streamOk s1.
Proof. apply (streamOk_set_kind None). eapply moved_ok; [apply staged_room|apply Hstaged|done]. Qed.

Lemma staged_moved n t : 0 <= n -> moved n (set_kind None s1) t -> moved (Z.of_nat (length hd) + n) s t.
Proof. intros Hn Hm. eapply moved_trans; [lia|done|apply Hstaged|done]. Qed.

Lemma staged_ahead b : ahead (hd ++ b) s <-> ahead b (set_kind None s1).
Proof. unfold hd. rewrite (ahead_app _ _ _ _ (sg_moved _ _ _ _ _ Hstaged)). split; [by intros [_ ?]|]. split; [apply Hcomes|done]. Qed.

Lemma payload_ok b : Z.of_nat (length b) = sz -> ahead (hd ++ b) s ->
  exists t, readFull sz s1 = Ok (t, inl b) /\ moved (Z.of_nat (length (hd ++ b))) s t.
Proof.
  intros Hl [Ht Hr]%staged_ahead. exists (advance sz s1). rewrite readFull_ok; [|apply staged_ok|by rewrite <- Hl].
  rewrite <- Hl, Nat2Z.id. cbn [rest set_kind] in Ht. rewrite Ht. split; [done|]. rewrite length_app, Nat2Z.inj_add. by apply staged_moved; [lia|].
Qed.

Lemma payload_inv t b : readFull sz s1 = Ok (t, inl b) -> Z.of_nat (length b) = sz /\ ahead (hd ++ b) s /\ moved (Z.of_nat (length (hd ++ b))) s t.
Proof.
  intros H. assert (0 <= sz) as Hsz. { pose proof (cm_ok _ _ _ _ Hcomes) as Hh. destruct k; cbn in Hh; unfold in_u64 in *; lia. }
  destruct (decide (room s1 sz)) as [Hr|Hr].
  - rewrite readFull_ok in H by (done || apply staged_ok). injection H as <- <-. pose proof Hr as [? _].
    assert (Z.of_nat (length (take (Z.to_nat sz) (rest s1))) = sz) as Hl by (rewrite length_take; lia). split; [done|].
    split; [by apply staged_ahead; apply (ahead_take sz (set_kind None s1))|]. rewrite length_app, Nat2Z.inj_add, Hl. by apply staged_moved.
  - destruct (readFull_fails sz s1 staged_ok Hsz Hr) as (u & e & E & _). by rewrite E in H.
Qed.

End Staged.

(** ** Strings *)

Definition single (b : list Z) : bool := match b with [x] => x <? 128 | _ => false end.

Lemma encString_single b : isBytes b -> single b = true -> exists x, b = [x] /\ 0 <= x < 128 /\ encString b = headOf KByte 0 x.
Proof.
  intros Hb H. destruct b as [|x [|y b]]; [done| |done]. apply Forall_cons in Hb as [Hx _]. exists x. cbn in *. rewrite H. apply Z.ltb_lt in H. split; [done|]. split; [lia|done].
Qed.
Lemma encString_head b : single b = false -> encString b = headOf KString (Z.of_nat (length b)) 0 ++ b.
Proof. destruct b as [|x [|y b]]; [done| |done]. cbn. by intros ->. Qed.

Lemma encString_nonempty b : encString b <> [].
Proof. destruct b as [|x [|y b]]; [done|cbn; by destruct (x <? 128)|]. unfold encString. by destruct (puthead _ _ _) eqn:E; [apply puthead_cons in E|]. Qed.

Lemma encList_nonempty b : encList b <> [].
Proof. unfold encList. by destruct (puthead _ _ _) eqn:E; [apply puthead_cons in E|]. Qed.

Lemma room_length s n : streamOk s -> room s n -> n < 2 ^ 63.
Proof. intros [] [H _]. lia. Qed.

Lemma comes_byte x s : ahead [x] s -> 0 <= x < 128 -> comes KByte 0 x s.
Proof. intros Ha Hx. split; [done|done|]. destruct Ha as [_ [_ H]]. cbn in *. lia. Qed.
Lemma comes_sized k b s : k <> KByte -> streamOk s -> ahead (headOf k (Z.of_nat (length b)) 0 ++ b) s -> comes k (Z.of_nat (length b)) 0 s.
Proof.
  intros Hk Ok Ha. pose proof (room_length _ _ Ok (proj2 Ha)) as Hl. rewrite length_app, Nat2Z.inj_add in Hl.
  split; [|by apply (ahead_app _ _ s (advance (Z.of_nat (length (headOf k (Z.of_nat (length b)) 0))) s) ltac:(done)) in Ha as [? _]|].
  - destruct k; [done|..]; cbn; unfold in_u64; (split; [lia|done]).
  - destruct Ha as [_ [_ H]]. by rewrite length_app, Nat2Z.inj_add in H.
Qed.

(** An operation that starts with [Kind]. *)
Lemma parses_Kind {A} (f : Kind * Z -> M error A) (F : A -> list Z -> Prop) :
  (forall s a bs, streamOk s -> F a bs -> ahead bs s -> exists k sz bv, comes k sz bv s /\
    forall s1, staged s k sz bv s1 -> exists t, f (k, sz) s1 = Ok (t, inl a) /\ moved (Z.of_nat (length bs)) s t) ->
  (forall s s1 k sz bv t a, streamOk s -> comes k sz bv s -> staged s k sz bv s1 -> f (k, sz) s1 = Ok (t, inl a) ->
    exists bs, F a bs /\ ahead bs s /\ moved (Z.of_nat (length bs)) s t) ->
  (forall s s1 k sz bv, streamOk s -> comes k sz bv s -> staged s k sz bv s1 -> proper (f (k, sz)) s1) ->
  (forall a bs, F a bs -> bs <> []) ->
  parses EOL (Kind_ ≫= f) F.
Proof.
  intros Hf Hi Hp Hs. split; [| | | | |intros s t r H; by rewrite (bind_ok _ _ _ _ _ H), (bind_ok _ _ _ _ _ (Kind_again _ _ _ H))|
    by intros s t a (u & r & H & _)%stream_bind_inv; eauto|done].
  - intros s a bs Ok Hk HF Ha. destruct (Hf s a bs Ok HF Ha) as (k & sz & bv & Hc & H). destruct (Kind_ok k sz bv s Ok Hk Hc) as (s1 & E & Hst).
    rewrite (bind_ok _ _ _ _ _ E). by apply H.
  - intros s t a Ok Hk H. apply stream_bind_inv in H as (s1 & [k sz] & E & H). destruct (Kind_inv s s1 k sz Ok Hk E) as (bv & Hc & Hst). by eapply Hi.
  - intros s Hk He. exists (set_kinderr None s). split; [by apply bind_err, Kind_ended|]. split; cbn; try done; [lia|by rewrite bump_0].
  - intros s t Ok Hk H. destruct (Kind_returns s Ok Hk) as (u & [[k sz]|e] & E & He).
    + destruct (Kind_inv s u k sz Ok Hk E) as (bv & Hc & Hst). rewrite (bind_ok _ _ _ _ _ E) in H.
      destruct (Hp s u k sz bv Ok Hc Hst) as (v & r & E2 & Hr). rewrite E2 in H. by injection H as -> ->.
    + rewrite (bind_err _ _ _ _ _ E) in H. injection H as -> ->. by apply He.
  - intros s Ok Hk. destruct (Kind_returns s Ok Hk) as (u & [[k sz]|e] & E & _); [|eapply returns_ok; by apply bind_err].
    destruct (Kind_inv s u k sz Ok Hk E) as (bv & Hc & Hst). destruct (Hp s u k sz bv Ok Hc Hst) as (v & r & E2 & _).
    exists v, r. by rewrite (bind_ok _ _ _ _ _ E).
Qed.

(** What follows a string's head. *)
Lemma string_ok s b : streamOk s -> isBytes b -> ahead (encString b) s -> single b = false ->
  comes KString (Z.of_nat (length b)) 0 s /\ forall s1, staged s KString (Z.of_nat (length b)) 0 s1 ->
    exists t, readFull (Z.of_nat (length b)) s1 = Ok (t, inl b) /\ moved (Z.of_nat (length (encString b))) s t.
Proof.
  intros Ok Hb Ha Hs. rewrite encString_head in * by done. pose proof (comes_sized KString b s ltac:(done) Ok Ha) as Hc. split; [done|].
  intros s1 Hst. by eapply payload_ok.
Qed.

Lemma string_inv s s1 sz t b : streamOk s -> comes KString sz 0 s -> staged s KString sz 0 s1 -> readFull sz s1 = Ok (t, inl b) -> single b = false ->
  isBytes b /\ ahead (encString b) s /\ moved (Z.of_nat (length (encString b))) s t.
Proof.
  intros Ok Hc Hst H Hs. destruct (payload_inv s s1 KString sz 0 Ok Hc Hst t b H) as (Hl & Ha & Hm). rewrite encString_head, Hl by done.
  split; [|done]. apply ahead_isBytes in Ha; [|done]. by apply Forall_app in Ha as [_ ?].
Qed.

Lemma comes_bv k sz bv s : k <> KByte -> comes k sz bv s -> bv = 0.
Proof. intros Hk [Hh _ _]. destruct k; [done|by destruct Hh..]. Qed.

Lemma comes_size k sz bv s : streamOk s -> comes k sz bv s -> 0 <= sz < 2 ^ 63.
Proof.
  intros Ok [Hh Ha Hf]. assert (avail s < 2 ^ 63) by (destruct Ok; unfold avail; destruct (stack s); cbn in *; lia).
  destruct k; cbn in Hh; unfold in_u64 in *; lia.
Qed.

Lemma make_ok n s : n < 2 ^ 63 -> make n s = Ok (s, inl tt).
Proof. intros Hn. unfold make. by rewrite (proj2 (Z.leb_gt _ _)) by lia. Qed.

Lemma checked_single b s : checked (Z.of_nat (length b)) b s = if single b then Ok (s, inr ErrCanonSize) else Ok (s, inl b).
Proof. destruct b as [|x [|y b]]; [done| |done]. cbn. by destruct (x <? 128). Qed.

Lemma checked_proper sz b s : proper (checked sz b) s.
Proof. unfold checked. repeat case_match; first [by eapply proper_ok|by eapply proper_err]. Qed.

Lemma Bytes_parses : parses EOL Bytes (fun b bs => isBytes b /\ bs = encString b).
Proof.
  apply parses_Kind; [| | |by intros a bs [_ ->]; apply encString_nonempty].
  - intros s b bs Ok [Hb ->] Ha. destruct (single b) eqn:Es.
    + destruct (encString_single b Hb Es) as (x & -> & Hx & Eh). rewrite Eh in Ha |- *. exists KByte, 0, x. split; [by apply comes_byte|].
      intros s1 Hst. eexists. unfold mbind, M_bind, modify, gets, mret, M_ret. cbn. rewrite (sg_byteval _ _ _ _ _ Hst). split; [done|apply Hst].
    + destruct (string_ok s b Ok Hb Ha Es) as [Hc H]. exists KString, (Z.of_nat (length b)), 0. split; [done|]. intros s1 Hst.
      destruct (H s1 Hst) as (t & E & Hm). exists t. split; [|done]. pose proof (comes_size _ _ _ _ Ok Hc).
      rewrite (bind_ok _ _ _ _ _ (make_ok (Z.of_nat (length b)) s1 ltac:(lia))), (bind_ok _ _ _ _ _ E). by rewrite checked_single, Es.
  - intros s s1 k sz bv t b Ok Hc Hst H. destruct k.
    + unfold mbind, M_bind, modify, gets, mret, M_ret in H. cbn in H. rewrite (sg_byteval _ _ _ _ _ Hst) in H. injection H as <- <-.
      destruct Hc as [[-> Hx] Ha _]. exists [bv]. split; [|split; [done|apply Hst]]. split; [by repeat constructor; lia|]. cbn.
      by rewrite (proj2 (Z.ltb_lt _ _)) by lia.
    + pose proof (comes_bv KString sz bv s ltac:(done) Hc) as ->. apply stream_bind_inv in H as (u & [] & E & H). pose proof (comes_size _ _ _ _ Ok Hc).
      rewrite make_ok in E by lia. injection E as <-. apply stream_bind_inv in H as (u & b' & E & H). pose proof (payload_inv s s1 _ _ _ Ok Hc Hst u b' E) as (Hl & _).
      rewrite <- Hl, checked_single in H. destruct (single b') eqn:Es; [done|]. injection H as -> ->.
      destruct (string_inv _ _ _ _ _ Ok Hc Hst E Es) as (Hb & Ha & Hm). by exists (encString b).
    + done.
  - intros s s1 k sz bv Ok Hc Hst. destruct k; [by eapply proper_ok| |by eapply proper_err]. pose proof (comes_size _ _ _ _ Ok Hc).
    apply proper_bind; [eapply proper_ok, make_ok; lia|]. intros t [] E. rewrite make_ok in E by lia. injection E as <-.
    apply proper_bind; [apply readFull_proper; [by eapply staged_ok|lia]|]. intros t b _. apply checked_proper.
Qed.

(** *** Integers *)

Lemma single_be_val b : isBytes b -> noLeadingZero b -> b <> [] -> single b = (be_val b <? 128).
Proof.
  intros Hb Hz Hn. destruct b as [|x [|y b]]; [done|done|]. cbn [single]. symmetry. apply Z.ltb_ge. apply noLeadingZero_cons in Hz.
  apply Forall_cons in Hb as [Hx Hb]. rewrite be_val_cons. pose proof (be_val_range _ Hb). cbn [length] in *. rewrite Nat2Z.inj_succ, Z.pow_succ_r in * by lia. nia.
Qed.

Lemma minimal_byte x : 0 < x < 256 -> minimal x = [x].
Proof.
  intros Hx. transitivity (minimal (be_val [x])); [done|]. apply minimal_be_val; [by repeat constructor; lia|]. apply noLeadingZero_cons. lia.
Qed.
Lemma minimal_nil i : 0 <= i -> minimal i = [] -> i = 0.
Proof. intros Hi H. rewrite <- (be_val_minimal i Hi), H. done. Qed.

Lemma minimal_length_bits i m : 0 <= m -> 0 <= i < 2 ^ (8 * m) -> Z.of_nat (length (minimal i)) <= m.
Proof.
  intros Hm [Hi Hi2]. destruct (decide (i = 0)) as [->|]; [by cbn|]. rewrite minimal_length by done. apply intsize_bytes; lia.
Qed.

Lemma length_minimal_bound b m : isBytes b -> Z.of_nat (length b) <= m -> 0 <= be_val b < 2 ^ (8 * m).
Proof.
  intros Hb Hm. pose proof (be_val_range b Hb). split; [lia|]. eapply Z.lt_le_trans; [apply H|]. change 256 with (2 ^ 8). rewrite <- Z.pow_mul_r by lia.
  apply Z.pow_le_mono_r; lia.
Qed.

Lemma uint_parses m : 1 <= m <= 8 -> parses EOL (uint (8 * m)) (fun i bs => 0 <= i < 2 ^ (8 * m) /\ bs = encString (minimal i)).
Proof.
  intros Hm. assert (8 * m / 8 = m) as Hdiv by (rewrite Z.mul_comm; by apply Z.div_mul). apply parses_Kind; [| | |by intros a bs [_ ->]; apply encString_nonempty].
  - intros s i bs Ok [Hi ->] Ha. pose proof (minimal_isBytes i) as Hb. pose proof (minimal_noLeadingZero i ltac:(lia)) as Hz. destruct (single (minimal i)) eqn:Es.
    + destruct (encString_single _ Hb Es) as (x & Ex & Hx & Eh). rewrite Eh in Ha |- *. exists KByte, 0, x. split; [by apply comes_byte|].
      pose proof (be_val_minimal i ltac:(lia)) as Hv. rewrite Ex in Hz, Hv. change (x = i) in Hv. rewrite Hv in *. apply noLeadingZero_cons in Hz.
      intros s1 Hst. eexists. unfold mbind, M_bind, modify, gets, mret, M_ret. rewrite (sg_byteval _ _ _ _ _ Hst), (proj2 (Z.eqb_neq i 0)) by lia. split; [done|apply Hst].
    + set (b := minimal i) in *. assert (Z.of_nat (length b) <= m) as Hl by (by apply minimal_length_bits; [lia|]).
      destruct (string_ok s b Ok Hb Ha Es) as [Hc _]. exists KString, (Z.of_nat (length b)), 0. split; [done|]. intros s1 Hst.
      rewrite encString_head in * by done. rewrite Hdiv, (proj2 (Z.ltb_ge _ _)) by lia. unfold byte. rewrite Z.mod_small by lia.
      destruct (decide (b = [])) as [Eb|Hne].
      * assert (i = 0) as -> by (apply minimal_nil; [lia|done]). rewrite Eb. eexists. split; [done|]. rewrite app_nil_r. rewrite Eb in Hst. apply Hst.
      * assert (ahead b s1) as Hab by (by apply (staged_ahead s s1 _ _ _ Hc Hst b)).
        assert (1 <= length b)%nat by (destruct b; [done|cbn; lia]).
        rewrite (bind_ok _ _ _ _ _ (try_ok _ _ _ _ (readUint_ok b s1 ltac:(by eapply staged_ok) Hab ltac:(lia) (or_intror Hz)))).
        rewrite single_be_val in Es by done. rewrite Es, andb_false_r. subst b. rewrite be_val_minimal by lia. eexists. split; [done|].
        rewrite length_app, Nat2Z.inj_add. by eapply staged_moved; [done|lia|].
  - intros s s1 k sz bv t i Ok Hc Hst H. destruct k; [| |done].
    + unfold mbind, M_bind, modify, gets, mret, M_ret in H. rewrite (sg_byteval _ _ _ _ _ Hst) in H. destruct Hc as [[-> Hx] Ha _].
      destruct (Z.eqb_spec bv 0); [done|]. injection H as <- <-. exists [bv]. split; [|split; [done|apply Hst]]. rewrite minimal_byte by lia. split; [|cbn; by rewrite (proj2 (Z.ltb_lt _ _)) by lia].
      assert (2 ^ 8 <= 2 ^ (8 * m)) by (apply Z.pow_le_mono_r; lia). lia.
    + pose proof (comes_bv KString sz bv s ltac:(done) Hc) as ->. pose proof (comes_size _ _ _ _ Ok Hc). rewrite Hdiv in H. destruct (Z.ltb_spec m sz); [done|].
      unfold byte in H. rewrite Z.mod_small in H by lia. pose proof (staged_ok _ _ _ _ _ Ok Hc Hst) as Ok1.
      destruct (readUint_proper sz s1 Ok1 ltac:(lia)) as (u & r & E & _). rewrite (bind_ok _ _ _ _ _ (try_ok _ _ _ _ E)) in H. destruct r as [v|e]; [|by case_match].
      destruct (decide (sz = 0)) as [->|Hsz].
      { injection E as <- <-. injection H as <- <-. exists (encString []). split; [split; [|done]|split; [apply Hc|apply Hst]]. pose proof (Z.pow_pos_nonneg 2 (8 * m)). lia. }
      destruct (readUint_inv sz s1 u v Ok1 ltac:(lia) E) as (b & Hl & Hab & Hz & -> & ->). rewrite (proj2 (Z.ltb_lt 0 sz)) in H by lia. cbn [andb] in H.
      destruct (Z.ltb_spec (be_val b) 128); [done|]. injection H as <- <-. pose proof (ahead_isBytes _ _ Ok1 Hab) as Hb.
      assert (noLeadingZero b) as Hnz.
      { destruct Hz as [Hz|]; [|done]. destruct b as [|x [|y b]]; cbn [length] in Hl; try lia. apply noLeadingZero_cons. intros ->. cbn in *. lia. }
      exists (encString b). rewrite minimal_be_val by done. split; [split; [by apply length_minimal_bound; [|lia]|done]|].
      rewrite encString_head, Hl by (rewrite single_be_val; [apply Z.ltb_ge; lia|done|done|by intros ->]).
      split; [by apply (staged_ahead s s1 _ _ _ Hc Hst b)|]. rewrite length_app, Nat2Z.inj_add, Hl. by eapply staged_moved; [done|lia|].
  - intros s s1 k sz bv Ok Hc Hst. pose proof (comes_size _ _ _ _ Ok Hc). destruct k; [| |by eapply proper_err].
    + unfold proper, mbind, M_bind, modify, gets, mret, M_ret. case_match; by do 2 eexists.
    + destruct (_ <? sz); [by eapply proper_err|]. destruct (readUint_proper (byte sz) s1 ltac:(by eapply staged_ok)) as (u & r & E & He).
      { apply Z.mod_pos_bound. lia. }
      unfold proper. rewrite (bind_ok _ _ _ _ _ (try_ok _ _ _ _ E)). destruct r as [v|e]; [case_match; by do 2 eexists|].
      do 2 eexists. split; [done|]. destruct (String.eqb e ErrCanonSize); [done|congruence].
Qed.

(** An operation followed by a check of its result. *)
Lemma parses_check {E A B} (eol : E) (op : M E A) F (g : A -> M E B) (h : A -> B + E) :
  parses eol op F -> (forall a s, g a s = Ok (s, h a)) -> (forall a, h a <> inr eol) ->
  parses eol (op ≫= g) (fun b bs => exists a, F a bs /\ h a = inl b).
Proof.
  intros [P1 P2 P3 P4 P5 P6 P6' P7] Hg Hh. split.
  - intros s b bs Ok Hk (a & HF & E1) Ha. destruct (P1 s a bs Ok Hk HF Ha) as (t & E2 & Hm). exists t. by rewrite (bind_ok _ _ _ _ _ E2), Hg, E1.
  - intros s t b Ok Hk H. apply stream_bind_inv in H as (u & a & E1 & H). rewrite Hg in H. injection H as <- H.
    destruct (P2 s u a Ok Hk E1) as (bs & HF & Ha & Hm). eauto 10.
  - intros s Hk He. destruct (P3 s Hk He) as (t & E1 & Hm). exists t. split; [by apply bind_err|done].
  - intros s t Ok Hk H. destruct (P5 s Ok Hk) as (u & [a|e] & E1).
    + rewrite (bind_ok _ _ _ _ _ E1), Hg in H. injection H as _ H. by apply Hh in H.
    + rewrite (bind_err _ _ _ _ _ E1) in H. injection H as -> ->. by eapply P4.
  - intros s Ok Hk. apply returns_bind; [by apply P5|]. intros t a _. eapply returns_ok, Hg.
  - intros s t r H. unfold mbind, M_bind. by rewrite (P6 s t r H).
  - intros s t b (u & a & H & _)%stream_bind_inv. by eapply P6'.
  - intros b bs (a & HF & _). by eapply P7.
Qed.

Lemma parses_ext {E A} (eol : E) (op : M E A) F G : (forall a bs, F a bs <-> G a bs) -> parses eol op F -> parses eol op G.
Proof.
  intros HFG [P1 P2 P3 P4 P5 P6 P6' P7]. split; try done.
  - intros s a bs Ok Hk HG. apply P1; [done|done|by apply HFG].
  - intros s t a Ok Hk H. destruct (P2 s t a Ok Hk H) as (bs & HF & H'). exists bs. split; [by apply HFG|done].
  - intros a bs HG. apply (P7 a). by apply HFG.
Qed.

Lemma parses_eq {E A} (eol : E) (op op' : M E A) F : (forall s, op' s = op s) -> parses eol op F -> parses eol op' F.
Proof.
  intros He [P1 P2 P3 P4 P5 P6 P6' P7]. split; [..|exact P7].
  - intros s a bs. rewrite He. apply P1.
  - intros s t a. rewrite He. apply P2.
  - intros s. rewrite He. apply P3.
  - intros s t. rewrite He. apply P4.
  - intros s Ok Hk. destruct (P5 s Ok Hk) as (t & r & H). exists t, r. by rewrite He.
  - intros s t r H. rewrite !He. by eapply P6.
  - intros s t a. rewrite He. apply P6'.
Qed.

Lemma bind_assoc {E A B C} (m : M E A) (f : A -> M E B) (g : B -> M E C) s : ((m ≫= f) ≫= g) s = (m ≫= (fun a => f a ≫= g)) s.
Proof. unfold mbind, M_bind. by destruct (m s) as [[u [a|e]]| |]. Qed.

Lemma single_long b : 32 < Z.of_nat (length b) -> single b = false.
Proof. destruct b as [|x [|y b]]; cbn; [done|lia|done]. Qed.

Lemma bigIntBuffer_parses : parses EOL ('(k, sz) ← Kind_; bigIntBuffer k sz) (fun b bs => isBytes b /\ bs = encString b).
Proof.
  apply parses_Kind; [| | |by intros a bs [_ ->]; apply encString_nonempty].
  - intros s b bs Hs0 [Hb ->] Ha. destruct (single b) eqn:Es.
    + destruct (encString_single b Hb Es) as (x & -> & Hx & Eh). rewrite Eh in Ha |- *. exists KByte, 0, x. split; [by apply comes_byte|].
      intros s1 Hst. eexists. unfold bigIntBuffer, mbind, M_bind, modify, gets, mret, M_ret. cbn. rewrite (sg_byteval _ _ _ _ _ Hst). split; [done|apply Hst].
    + destruct (string_ok s b Hs0 Hb Ha Es) as [Hc H]. exists KString, (Z.of_nat (length b)), 0. split; [done|]. intros s1 Hst. unfold bigIntBuffer.
      destruct (Z.eqb_spec (Z.of_nat (length b)) 0) as [Hz|Hz].
      { destruct b; [|done]. eexists. split; [done|]. apply Hst. }
      destruct (H s1 Hst) as (t & E & Hm). exists t. split; [|done]. pose proof (comes_size _ _ _ _ Hs0 Hc). destruct (_ <=? 32).
      * rewrite (bind_ok _ _ _ _ _ E). by rewrite checked_single, Es.
      * by rewrite (bind_ok _ _ _ _ _ (make_ok (Z.of_nat (length b)) s1 ltac:(lia))).
  - intros s s1 k sz bv t b Hs0 Hc Hst H. destruct k; [| |done].
    + unfold bigIntBuffer, mbind, M_bind, modify, gets, mret, M_ret in H. cbn in H. rewrite (sg_byteval _ _ _ _ _ Hst) in H. injection H as <- <-.
      destruct Hc as [[-> Hx] Ha _]. exists [bv]. split; [|split; [done|apply Hst]]. split; [by repeat constructor; lia|]. cbn.
      by rewrite (proj2 (Z.ltb_lt _ _)) by lia.
    + pose proof (comes_bv KString sz bv s ltac:(done) Hc) as ->. pose proof (comes_size _ _ _ _ Hs0 Hc). unfold bigIntBuffer in H.
      destruct (Z.eqb_spec sz 0) as [->|Hz].
      { injection H as <- <-. exists (encString []). split; [by split; [constructor|]|]. split; [apply Hc|apply Hst]. }
      assert (exists u, readFull sz s1 = Ok (u, inl b) /\ t = u /\ single b = false) as (u & E & -> & Es).
      { destruct (Z.leb_spec sz 32).
        - apply stream_bind_inv in H as (u & b' & E & H). pose proof (payload_inv s s1 _ _ _ Hs0 Hc Hst u b' E) as (Hl & _).
          rewrite <- Hl, checked_single in H. destruct (single b') eqn:Es; [done|]. injection H as -> ->. eauto.
        - rewrite (bind_ok _ _ _ _ _ (make_ok sz s1 ltac:(lia))) in H. exists t. split; [done|]. split; [done|].
          apply (payload_inv s s1 _ _ _ Hs0 Hc Hst) in H as (Hl & _). apply single_long. lia. }
      destruct (string_inv _ _ _ _ _ Hs0 Hc Hst E Es) as (Hb & Ha & Hm). by exists (encString b).
  - intros s s1 k sz bv Hs0 Hc Hst. pose proof (comes_size _ _ _ _ Hs0 Hc). destruct k; [by eapply proper_ok| |by eapply proper_err]. unfold bigIntBuffer.
    assert (proper (readFull sz) s1) as Hp by (apply readFull_proper; [by eapply staged_ok|lia]).
    destruct (sz =? 0); [by eapply proper_ok|]. destruct (sz <=? 32); [apply proper_bind; [done|intros t b _; apply checked_proper]|].
    apply proper_bind; [eapply proper_ok, make_ok; lia|]. intros t [] E. rewrite make_ok in E by lia. by injection E as <-.
Qed.

Lemma bigIntBytes_parses : parses EOL bigIntBytes (fun b bs => isBytes b /\ noLeadingZero b /\ bs = encString b).
Proof.
  set (h := fun b : list Z => match b with 0 :: _ => inr ErrCanonInt | _ => inl b end : list Z + error).
  eapply parses_ext; [|eapply parses_eq; [|apply (parses_check _ _ _ (fun b s => Ok (s, h b)) h bigIntBuffer_parses)]].
  - intros b bs. split.
    + intros (b' & [Hb ->] & E). unfold h in E. destruct b' as [|[|p|p] b']; first [done|by injection E as <-].
    + intros (Hb & Hz & ->). exists b. split; [done|]. by destruct b as [|[|p|p] b].
  - intros s. rewrite bind_assoc. unfold bigIntBytes, mbind, M_bind. destruct (Kind_ s) as [[u [[k sz]|e]]| |]; try done.
    destruct (bigIntBuffer k sz u) as [[v [b|e]]| |]; try done. unfold h. by destruct b as [|[|p|p] b].
  - done.
  - intros b. unfold h. by destruct b as [|[|p|p] b].
Qed.

Lemma Uint256Bytes_parses : parses EOL Uint256Bytes (fun b bs => isBytes b /\ noLeadingZero b /\ Z.of_nat (length b) <= 32 /\ bs = encString b).
Proof.
  eapply parses_ext; [|apply (parses_check _ _ _ _ (fun b => if 32 <? Z.of_nat (length b) then inr errUintOverflow else inl b) bigIntBytes_parses)].
  - intros b bs. split.
    + intros (b' & (Hb & Hz & ->) & E). destruct (Z.ltb_spec 32 (Z.of_nat (length b'))); [done|]. injection E as <-. split_and!; done || lia.
    + intros (Hb & Hz & Hl & ->). exists b. split; [done|]. by rewrite (proj2 (Z.ltb_ge _ _)) by lia.
  - intros b s. by case_match.
  - intros b. by case_match.
Qed.

Lemma Bool_parses : parses EOL Bool (fun b bs => bs = encString (if b then [1] else [])).
Proof.
  eapply parses_ext; [|apply (parses_check _ _ _ _ (fun n => if n =? 0 then inl false else if n =? 1 then inl true
    else inr ("rlp: invalid boolean value: " +:+ pretty n)) (uint_parses 1 ltac:(lia)))].
  - intros b bs. split.
    + intros (n & [Hn ->] & E). destruct (Z.eqb_spec n 0) as [->|]; [by injection E as <-|]. destruct (Z.eqb_spec n 1) as [->|]; [by injection E as <-|done].
    + intros ->. exists (if b then 1 else 0). by destruct b.
  - intros b s. by repeat case_match.
  - intros b. by repeat case_match.
Qed.

(** A value that is taken as it is: a head with as many bytes as it says. *)
Definition isRaw (bs : list Z) : Prop := exists k sz bv p,
  headOk k sz bv /\ Z.of_nat (length p) = sz /\ isBytes p /\ bs = headOf k sz bv ++ p.

Lemma avail_bound s : streamOk s -> avail s < 2 ^ 63.
Proof. intros []. unfold avail. destruct (stack s); cbn in *; lia. Qed.

Lemma rawContent_eq k sz bv s s1 : streamOk s -> comes k sz bv s -> k <> KByte ->
  rawContent k sz s1 = (readFull sz ≫= fun b => mret (headOf k sz bv ++ b)) s1.
Proof.
  intros Hok Hc Hk. pose proof (comes_size _ _ _ _ Hok Hc). pose proof (cm_fits _ _ _ _ Hc) as Hf. pose proof (avail_bound s Hok).
  assert (Z.of_nat (length (headOf k sz bv)) = headsize sz) as Hl by (destruct k; [done|apply puthead_length; lia..]).
  rewrite Hl in Hf. unfold rawContent. rewrite add64_small by (unfold in_u64; lia).
  rewrite (bind_ok _ _ _ _ _ (make_ok (headsize sz + sz) s1 ltac:(lia))), (proj2 (Z.ltb_ge (headsize sz + sz) (headsize sz))) by lia.
  rewrite Z.add_simpl_l. by destruct k.
Qed.

Lemma Raw_parses : parses EOL Raw (fun b bs => b = bs /\ isRaw bs).
Proof.
  apply parses_Kind.
  - intros s b bs Hok [-> (k & sz & bv & p & Hh & Hl & Hp & ->)] Ha. exists k, sz, bv.
    assert (comes k sz bv s) as Hc.
    { split; [done|by apply (ahead_app _ _ s (advance (Z.of_nat (length (headOf k sz bv))) s) ltac:(done)) in Ha as [? _]|].
      destruct Ha as [_ [_ H]]. rewrite length_app, Nat2Z.inj_add, Hl in H. done. }
    split; [done|]. intros s1 Hst. destruct (payload_ok s s1 k sz bv Hok Hc Hst p Hl Ha) as (t & E & Hm). destruct (decide (k = KByte)) as [->|Hk].
    + destruct Hh as [-> Hx]. destruct p; [|done]. eexists. unfold mbind, M_bind, modify, gets, mret, M_ret. cbn. rewrite (sg_byteval _ _ _ _ _ Hst). split; [done|apply Hst].
    + exists t. split; [|done]. pose proof (rawContent_eq k sz bv s s1 Hok Hc Hk) as Hr. rewrite (bind_ok _ _ _ _ _ E) in Hr. by destruct k.
  - intros s s1 k sz bv t b Hok Hc Hst H. destruct (decide (k = KByte)) as [->|Hk].
    + unfold mbind, M_bind, modify, gets, mret, M_ret in H. cbn in H. rewrite (sg_byteval _ _ _ _ _ Hst) in H. injection H as <- <-.
      exists [bv]. split; [|split; [apply Hc|apply Hst]]. split; [done|]. exists KByte, sz, bv, []. pose proof (cm_ok _ _ _ _ Hc) as [-> Hx]. split_and!; done || constructor.
    + assert (rawContent k sz s1 = Ok (t, inl b)) as H' by (by destruct k). rewrite (rawContent_eq k sz bv s s1 Hok Hc Hk) in H'.
      apply stream_bind_inv in H' as (u & p & E & H'). injection H' as -> <-. destruct (payload_inv s s1 _ _ _ Hok Hc Hst t p E) as (Hl & Ha & Hm).
      exists (headOf k sz bv ++ p). split; [|done]. split; [done|]. exists k, sz, bv, p. pose proof (cm_ok _ _ _ _ Hc). apply ahead_isBytes in Ha as [_ Hp]%Forall_app; [|done]. done.
  - intros s s1 k sz bv Hok Hc Hst. destruct (decide (k = KByte)) as [->|Hk]; [by eapply proper_ok|]. pose proof (comes_size _ _ _ _ Hok Hc).
    assert (proper (readFull sz ≫= fun b => mret (headOf k sz bv ++ b)) s1) as Hp.
    { apply proper_bind; [apply readFull_proper; [by eapply staged_ok|lia]|]. intros t b _. by eapply proper_ok. }
    unfold proper in *. rewrite <- (rawContent_eq k sz bv s s1 Hok Hc Hk) in Hp. by destruct k.
  - intros a bs [-> (k & sz & bv & p & _ & _ & _ & ->)]. by destruct (headOf_cons k sz bv) as (b & tl & ->).
Qed.

(** ** Lists *)

(** [t] is at the first element of a list of [sz] bytes whose head takes the
    [n] bytes from [s]. *)
Record inside (n sz : Z) (s t : Stream) : Prop := {
  in_kind : kind t = None;
  in_rest : rest t = drop (Z.to_nat n) (rest s);
  in_remaining : remaining t = remaining s - n;
  in_limited : limited t = limited s;
  in_stack : stack t = {| pos := 0; lsize := sz |} :: bump n (stack s)
}.

Definition listHead (sz : Z) : list Z := headOf KList sz 0.

Lemma List_ok s sz : streamOk s -> kind s = None -> comes KList sz 0 s ->
  exists t, List s = Ok (t, inl sz) /\ inside (Z.of_nat (length (listHead sz))) sz s t.
Proof.
  intros Hok Hk Hc. destruct (Kind_ok _ _ _ s Hok Hk Hc) as (s1 & E & Hst). unfold List. rewrite (bind_ok _ _ _ _ _ E). eexists. split; [done|].
  destruct Hst as [_ _ _ _ []]. split; try done. cbn. by f_equal.
Qed.

Lemma List_inv s t sz : streamOk s -> kind s = None -> List s = Ok (t, inl sz) ->
  comes KList sz 0 s /\ inside (Z.of_nat (length (listHead sz))) sz s t.
Proof.
  intros Hok Hk H. unfold List in H. apply stream_bind_inv in H as (s1 & [k z] & E & H). destruct (Kind_inv s s1 k z Hok Hk E) as (bv & Hc & Hst).
  destruct k; [done|done|]. pose proof (comes_bv KList z bv s ltac:(done) Hc) as ->. injection H as <- <-. split; [done|].
  destruct Hst as [_ _ _ _ []]. split; try done. cbn. by f_equal.
Qed.

Lemma List_returns s : streamOk s -> kind s = None -> exists t r, List s = Ok (t, r) /\ (r = inr EOL -> ended s).
Proof.
  intros Hok Hk. destruct (Kind_returns s Hok Hk) as (u & [[k z]|e] & E & He).
  - unfold List. rewrite (bind_ok _ _ _ _ _ E). destruct k; do 2 eexists; (split; [done|intros H; discriminate H]).
  - exists u, (inr e). split; [by apply bind_err|]. intros [= ->]. by apply He.
Qed.

Section Inside.
Context (s t : Stream) (sz : Z).
Hypothesis Hok : streamOk s.
Hypothesis Hcomes : comes KList sz 0 s.
Let n := Z.of_nat (length (listHead sz)).
Hypothesis Hin : inside n sz s t.

Lemma inside_sz : 0 <= sz < 2 ^ 63.
Proof. by eapply comes_size. Qed.

Lemma inside_room : room s n.
Proof. apply (cm_ahead _ _ _ _ Hcomes). Qed.

Lemma inside_ok : streamOk t.
Proof.
  pose proof inside_sz. destruct inside_room as [Hr _]. destruct Hin, Hok. split.
  - congruence.
  - rewrite in_remaining0, in_rest0, length_drop. lia.
  - rewrite in_rest0, length_drop. lia.
  - rewrite in_rest0. by apply Forall_drop.
  - rewrite in_stack0. cbn. split_and!; try lia. pose proof (cm_fits _ _ _ _ Hcomes) as Hf. fold (listHead sz) in Hf. fold n in Hf. unfold avail in Hf.
    destruct (stack s) as [|tos st]; [done|]. cbn in *. destruct ok_stack0 as (H1 & H2 & H3). split_and!; try done; lia.
Qed.

Lemma inside_ahead p : Z.of_nat (length p) = sz -> ahead (listHead sz ++ p) s <-> ahead p t.
Proof.
  intros Hl. unfold ahead, room. assert (avail t = sz) as -> by (unfold avail; rewrite (in_stack _ _ _ _ Hin); cbn; lia).
  rewrite length_app, Nat2Z.inj_add, <- take_take_drop. fold n. rewrite (in_rest _ _ _ _ Hin), length_drop. replace (Z.to_nat n) with (length (listHead sz)) by lia.
  destruct (cm_ahead _ _ _ _ Hcomes) as [Ht Hr]. fold (listHead sz) in Ht, Hr. rewrite Ht. pose proof (cm_fits _ _ _ _ Hcomes) as Hf. fold (listHead sz) in Hf.
  fold n in Hf. destruct inside_room as [Hr1 _]. split.
  - intros [H1 H2]. apply app_inv_head in H1. split; [done|lia].
  - intros [H1 H2]. rewrite H1. split; [done|lia].
Qed.


Lemma ListEnd_at u : moved sz t u -> exists v, ListEnd u = Ok (v, inl tt) /\ moved (n + sz) s v.
Proof.
  intros Hm. pose proof inside_sz. destruct Hm, Hin. unfold ListEnd, mbind, M_bind, gets, modify, throw, mret, M_ret.
  rewrite mv_stack0, in_stack0. cbn. rewrite Z.eqb_refl. cbn. eexists. split; [done|]. split; cbn; try done.
  - rewrite mv_rest0, in_rest0, drop_drop. f_equal. lia.
  - lia.
  - congruence.
  - pose proof (cm_fits _ _ _ _ Hcomes) as Hf. fold (listHead sz) in Hf. fold n in Hf. unfold avail in Hf. destruct Hok. destruct (stack s) as [|tos st]; [done|]. cbn in *.
    rewrite add64_small by (unfold in_u64; lia). by rewrite Z.add_assoc.
Qed.

Lemma ListEnd_not u m : 0 <= m -> moved m t u -> m <> sz -> ListEnd u = Ok (u, inr errNotAtEOL).
Proof.
  intros Hm Hmv Hne. unfold ListEnd, mbind, M_bind, gets. rewrite (mv_stack _ _ _ Hmv), (in_stack _ _ _ _ Hin). cbn [bump pos lsize].
  by rewrite Z.add_0_l, (proj2 (Z.eqb_neq m sz)).
Qed.
End Inside.
