(* ===== verification/RlpRaw.v ===== *)
(** * RlpRaw: taking encodings apart in memory ([internal/avm/rlp/raw.go], [iterator.go])

    [Split], [CountValues] and the list iterator agree with the format that the
    stream reads. *)

From S2P Require Import Prelude RlpEncode RlpTypes RlpStream RlpReading.

Import Rlp RlpT Raw.

(** An encoded value of a kind with its content. *)
Definition frame (k : Kind) (c : list Z) : list Z :=
  match k with KByte => c | KString => puthead 0x80 0xB7 (Z.of_nat (length c)) ++ c | KList => encList c end.

(** The contents a kind may have: a single byte below 128 is its own encoding. *)
Definition contentOk (k : Kind) (c : list Z) : Prop :=
  match k with KByte => exists x, c = [x] /\ 0 <= x < 128 | KString => single c = false | KList => True end.

Lemma readSize_ok n r : 56 <= n < two64 -> readSize (minimal n ++ r) (Z.of_nat (length (minimal n))) = Ok n.
Proof.
  intros Hn. pose proof (minimal_length_u64 n ltac:(lia)) as Hl. unfold readSize. rewrite length_app.
  destruct (Z.ltb_spec (Z.of_nat (length (minimal n) + length r)) (Z.of_nat (length (minimal n)))); [lia|].
  rewrite (proj2 (Z.leb_le 1 _)), (proj2 (Z.leb_le _ 8)) by lia. cbn [andb]. rewrite Nat2Z.id, take_app_length, be_val_minimal by lia.
  destruct (Z.ltb_spec n 56); [lia|]. pose proof (minimal_noLeadingZero n ltac:(lia)) as Hz. destruct (minimal n) as [|x l]; [cbn in Hl; lia|].
  cbn. apply noLeadingZero_cons in Hz. by rewrite (proj2 (Z.eqb_neq x 0)).
Qed.

Lemma readSize_inv b slen n : isBytes b -> 1 <= slen <= 8 -> readSize b slen = Ok n ->
  56 <= n < two64 /\ slen = Z.of_nat (length (minimal n)) /\ take (Z.to_nat slen) b = minimal n.
Proof.
  intros Hb Hs. unfold readSize. destruct (Z.ltb_spec (Z.of_nat (length b)) slen); [done|].
  rewrite (proj2 (Z.leb_le 1 _)), (proj2 (Z.leb_le _ 8)) by lia. cbn [andb]. set (c := take (Z.to_nat slen) b).
  assert (isBytes c) as Hc by (by apply Forall_take). assert (Z.of_nat (length c) = slen) as Hl by (subst c; rewrite length_take; lia).
  destruct (Z.ltb_spec (be_val c) 56); [done|]. destruct b as [|x b]; [cbn in *; lia|]. cbn. destruct (Z.eqb_spec x 0); [done|]. intros [= <-].
  assert (noLeadingZero c) as Hz. { subst c. replace (Z.to_nat slen) with (S (Z.to_nat (slen - 1))) by lia. by apply noLeadingZero_cons. }
  rewrite minimal_be_val by done. pose proof (be_val_range c Hc) as [_ Hr]. split_and!; try done.
  eapply Z.lt_le_trans; [exact Hr|]. rewrite Hl. change two64 with (256 ^ 8). apply Z.pow_le_mono_r; lia.
Qed.

Definition tagOf (k : Kind) (c : list Z) : Z := match k with KByte => 0 | _ => headsize (Z.of_nat (length c)) end.

Lemma frame_length k c : Z.of_nat (length c) < two64 -> Z.of_nat (length (frame k c)) = tagOf k c + Z.of_nat (length c).
Proof. intros Hc. destruct k; cbn; [lia|..]; unfold encList; rewrite length_app, Nat2Z.inj_add, puthead_length by lia; done. Qed.

Lemma headsize_range n : 0 <= n < two64 -> 1 <= headsize n <= 9.
Proof.
  intros Hn. unfold headsize. destruct (Z.ltb_spec n 56); [lia|]. pose proof (intsize_bytes n 8 ltac:(lia) ltac:(lia) ltac:(cbn; lia)). lia.
Qed.

Lemma headsize_long n : 56 <= n < two64 -> headsize n = Z.of_nat (length (minimal n)) + 1.
Proof. intros Hn. unfold headsize. rewrite (proj2 (Z.ltb_ge _ _)) by lia. rewrite minimal_length by lia. lia. Qed.

Lemma tagOf_range k c : Z.of_nat (length c) < two64 -> 0 <= tagOf k c <= 9.
Proof. intros Hc. pose proof (headsize_range (Z.of_nat (length c))). destruct k; cbn; lia. Qed.

(** The check at the end of [readKind]. *)
Lemma fits_check (buf : list Z) t n : 0 <= t <= Z.of_nat (length buf) -> Z.of_nat (length buf) < 2 ^ 63 ->
  (Z.of_nat (length buf) -u t <? n) = (Z.of_nat (length buf) <? t + n).
Proof.
  intros Ht Hl. rewrite sub64_small by (unfold in_u64; lia). destruct (Z.ltb_spec (Z.of_nat (length buf) - t) n), (Z.ltb_spec (Z.of_nat (length buf)) (t + n)); lia || done.
Qed.

Lemma readKind_frame k c r : isBytes c -> contentOk k c -> Z.of_nat (length (frame k c ++ r)) < 2 ^ 63 ->
  readKind (frame k c ++ r) = Ok (k, tagOf k c, Z.of_nat (length c)).
Proof.
  intros Hb Hc Hl. rewrite length_app in Hl. assert (Z.of_nat (length c) < two64) as Hlc.
  { destruct k; cbn in Hl; unfold encList in *; rewrite ?length_app in Hl; lia. }
  pose proof (frame_length k c Hlc) as Hf. pose proof (tagOf_range k c Hlc) as Ht.
  assert (forall b rest, frame k c ++ r = b :: rest -> (if Z.of_nat (length (b :: rest)) -u tagOf k c <? Z.of_nat (length c) then Err ErrValueTooLarge
    else Ok (k, tagOf k c, Z.of_nat (length c))) = Ok (k, tagOf k c, Z.of_nat (length c))) as Hend.
  { intros b rest E. rewrite <- E. rewrite fits_check by (rewrite length_app; lia). rewrite length_app. destruct (Z.ltb_spec (Z.of_nat (length (frame k c) + length r)) (tagOf k c + Z.of_nat (length c))); [lia|done]. }
  destruct k; cbn [frame contentOk tagOf] in *.
  - destruct Hc as (x & -> & Hx). cbn [app]. unfold readKind. rewrite (proj2 (Z.ltb_lt x 128)) by lia. cbn [mbind outcome_bind]. by apply Hend.
  - destruct (Z.ltb_spec (Z.of_nat (length c)) 56) as [Hs|Hs].
    + rewrite puthead_short in * by lia. cbn [app] in *. specialize (Hend _ _ eq_refl). unfold readKind. ltb_cases. rewrite Z.add_simpl_l.
      assert (headsize (Z.of_nat (length c)) = 1) as Hh by (unfold headsize; by rewrite (proj2 (Z.ltb_lt _ _)) by lia). rewrite Hh in *.
      destruct (c ++ r) as [|b1 l] eqn:E; cbn [mbind outcome_bind]; [done|].
      destruct (Z.eqb_spec (Z.of_nat (length c)) 1) as [H1|H1]; [|done]. destruct c as [|x [|y c]]; cbn [length] in H1; try lia. cbn in Hc, E. injection E as <- <-.
      by rewrite Hc.
    + rewrite puthead_long in * by lia. cbn [app] in *. specialize (Hend _ _ eq_refl). pose proof (minimal_length_u64 (Z.of_nat (length c)) ltac:(lia)).
      unfold readKind. ltb_cases. rewrite Z.add_simpl_l, <- app_assoc, readSize_ok by lia. cbn [mbind outcome_bind]. rewrite headsize_long in * by lia. by rewrite <- app_assoc in Hend.
  - unfold encList in *. destruct (Z.ltb_spec (Z.of_nat (length c)) 56) as [Hs|Hs].
    + rewrite puthead_short in * by lia. cbn [app] in *. specialize (Hend _ _ eq_refl). unfold readKind. ltb_cases. rewrite Z.add_simpl_l.
      assert (headsize (Z.of_nat (length c)) = 1) as Hh by (unfold headsize; by rewrite (proj2 (Z.ltb_lt _ _)) by lia). rewrite Hh in *. by cbn [mbind outcome_bind].
    + rewrite puthead_long in * by lia. cbn [app] in *. specialize (Hend _ _ eq_refl). pose proof (minimal_length_u64 (Z.of_nat (length c)) ltac:(lia)).
      unfold readKind. ltb_cases. rewrite Z.add_simpl_l, <- app_assoc, readSize_ok by lia. cbn [mbind outcome_bind]. rewrite headsize_long in * by lia. by rewrite <- app_assoc in Hend.
Qed.

(** A head with room for its content behind it. *)
Lemma framed_short k a (b : Z) rest n : (k = KString /\ a = 0x80 \/ k = KList /\ a = 0xC0) -> b = a + n -> 0 <= n < 56 -> n <= Z.of_nat (length rest) ->
  exists c r, b :: rest = frame k c ++ r /\ 1 = tagOf k c /\ n = Z.of_nat (length c) /\ rest = c ++ r.
Proof.
  intros Hk -> Hn Hl. exists (take (Z.to_nat n) rest), (drop (Z.to_nat n) rest).
  assert (n = Z.of_nat (length (take (Z.to_nat n) rest))) as Hlen by (rewrite length_take; lia).
  assert (headsize n = 1) as Hh by (unfold headsize; by rewrite (proj2 (Z.ltb_lt _ _)) by lia).
  destruct Hk as [[-> ->]|[-> ->]]; cbn [frame tagOf]; unfold encList; rewrite <- Hlen, puthead_short by lia; cbn [app]; rewrite take_drop; done.
Qed.

Lemma framed_long k a (b : Z) rest n m : (k = KString /\ a = 0xB7 \/ k = KList /\ a = 0xF7) -> b = a + m -> 56 <= n < two64 -> m = Z.of_nat (length (minimal n)) ->
  take (Z.to_nat m) rest = minimal n -> m + n <= Z.of_nat (length rest) ->
  exists c r, b :: rest = frame k c ++ r /\ m + 1 = tagOf k c /\ n = Z.of_nat (length c).
Proof.
  intros Hk -> Hn Hm Ht Hl. set (rest' := drop (Z.to_nat m) rest). exists (take (Z.to_nat n) rest'), (drop (Z.to_nat n) rest').
  assert (Z.of_nat (length rest') = Z.of_nat (length rest) - m) as Hl' by (subst rest'; rewrite length_drop; lia).
  assert (n = Z.of_nat (length (take (Z.to_nat n) rest'))) as Hlen by (rewrite length_take; lia).
  assert (rest = minimal n ++ rest') as Hr by (unfold rest'; by rewrite <- Ht, take_drop).
  destruct Hk as [[-> ->]|[-> ->]]; cbn [frame tagOf]; unfold encList; rewrite <- Hlen, puthead_long, headsize_long, <- Hm by lia; (split; [|done]);
    cbn [app]; rewrite <- app_assoc, take_drop, <- Hr; done.
Qed.

Lemma readKind_framed buf k t n : isBytes buf -> Z.of_nat (length buf) < 2 ^ 63 -> readKind buf = Ok (k, t, n) ->
  exists c r, buf = frame k c ++ r /\ contentOk k c /\ t = tagOf k c /\ n = Z.of_nat (length c).
Proof.
  intros Hb Hl. destruct buf as [|b rest]; [done|]. pose proof Hb as [Hb0 Hbr]%Forall_cons. unfold readKind. cbn [length] in Hl.
  assert (forall k' t' n', 0 <= t' <= Z.of_nat (length (b :: rest)) -> (if Z.of_nat (length (b :: rest)) -u t' <? n' then Err ErrValueTooLarge else Ok (k', t', n')) = Ok (k, t, n) ->
    k' = k /\ t' = t /\ n' = n /\ t + n <= Z.of_nat (length (b :: rest))) as Hend.
  { intros k' t' n' Ht. rewrite fits_check by (cbn [length] in *; lia). destruct (Z.ltb_spec (Z.of_nat (length (b :: rest))) (t' + n')); [done|]. intros [= -> -> ->]. done. }
  cbn [length] in Hend. ltb_cases.
  - cbn [mbind outcome_bind]. intros (<- & <- & <- & _)%Hend; [|lia]. exists [b], rest. split_and!; try done. exists b. split; [done|lia].
  - assert (match rest with b1 :: _ => if (b - 128 =? 1) && (b1 <? 128) then Err ErrCanonSize else Ok (KString, 1, b - 128) | [] => Ok (KString, 1, b - 128) end =
      if (b - 128 =? 1) && match rest with b1 :: _ => b1 <? 128 | [] => false end then Err ErrCanonSize else Ok (KString, 1, b - 128)) as ->.
    { destruct rest; [by rewrite andb_false_r|done]. }
    destruct ((b - 128 =? 1) && _) eqn:Ec; [done|]. cbn [mbind outcome_bind]. intros (<- & <- & <- & Hfit)%Hend; [|lia].
    destruct (framed_short KString 0x80 b rest (b - 128)) as (c & r & E & Et & En & Er); [by left|lia|lia|lia|]. exists c, r. split_and!; try done.
    destruct c as [|x [|y c]]; [done| |done]. cbn in En. rewrite En in Ec. cbn in Ec. rewrite Er in Ec. cbn in Ec. done.
  - destruct (readSize rest (b - 183)) as [m| |] eqn:Em; try done. cbn [mbind outcome_bind]. apply readSize_inv in Em as (Hm & Hsl & Ht); [|done|lia].
    assert (Z.to_nat (b - 183) <= length rest)%nat by (apply (f_equal length) in Ht; rewrite length_take in Ht; lia).
    intros (<- & <- & <- & Hfit)%Hend; [|lia]. destruct (framed_long KString 0xB7 b rest m (b - 183)) as (c & r & E & Et & En); try done; [by left|lia|lia|].
    exists c, r. split_and!; try done. cbn. destruct c as [|x [|y c]]; [done|cbn in En; lia|done].
  - cbn [mbind outcome_bind]. intros (<- & <- & <- & Hfit)%Hend; [|lia].
    destruct (framed_short KList 0xC0 b rest (b - 192)) as (c & r & E & Et & En & Er); [by right|lia|lia|lia|]. by exists c, r.
  - destruct (readSize rest (b - 247)) as [m| |] eqn:Em; try done. cbn [mbind outcome_bind]. apply readSize_inv in Em as (Hm & Hsl & Ht); [|done|lia].
    assert (Z.to_nat (b - 247) <= length rest)%nat by (apply (f_equal length) in Ht; rewrite length_take in Ht; lia).
    intros (<- & <- & <- & Hfit)%Hend; [|lia]. destruct (framed_long KList 0xF7 b rest m (b - 247)) as (c & r & E & Et & En); try done; [by right|lia|lia|].
    by exists c, r.
Qed.

(** ** [Split] *)

Lemma isBytes_frame k c r : isBytes (frame k c ++ r) -> isBytes c /\ isBytes r.
Proof. intros [Hf Hr]%Forall_app. split; [|done]. destruct k; cbn in Hf; [done|by apply Forall_app in Hf as [_ ?]..]. Qed.

Lemma frame_small k c r : Z.of_nat (length (frame k c ++ r)) < 2 ^ 63 -> Z.of_nat (length c) < two64.
Proof. rewrite length_app. destruct k; cbn; unfold encList; rewrite ?length_app; lia. Qed.

Lemma drop_tag k c r : Z.of_nat (length c) < two64 -> drop (Z.to_nat (tagOf k c)) (frame k c ++ r) = c ++ r.
Proof.
  intros Hc. assert (forall a b, drop (Z.to_nat (headsize (Z.of_nat (length c)))) ((puthead a b (Z.of_nat (length c)) ++ c) ++ r) = c ++ r) as H.
  { intros a b. rewrite <- (puthead_length a b) by lia. rewrite Nat2Z.id, <- app_assoc. apply drop_app_length. }
  destruct k; [done|apply H|apply H].
Qed.

Lemma slices k c r : Z.of_nat (length (frame k c ++ r)) < 2 ^ 63 ->
  slice (frame k c ++ r) (tagOf k c) (tagOf k c +u Z.of_nat (length c)) = Ok c /\
  slice (frame k c ++ r) (tagOf k c +u Z.of_nat (length c)) (Z.of_nat (length (frame k c ++ r))) = Ok r /\
  slice (frame k c ++ r) 0 (tagOf k c +u Z.of_nat (length c)) = Ok (frame k c).
Proof.
  intros Hl. pose proof (frame_small k c r Hl) as Hc. pose proof (frame_length k c Hc) as Hf. pose proof (tagOf_range k c Hc). rewrite length_app in Hl.
  rewrite add64_small by (unfold in_u64; lia). rewrite !slice_ok by (rewrite ?length_app; lia). rewrite drop_tag by done.
  replace (tagOf k c + Z.of_nat (length c) - tagOf k c) with (Z.of_nat (length c)) by lia. rewrite <- Hf, Z.sub_0_r, !Nat2Z.id. cbn [drop Z.to_nat].
  rewrite !take_app_length, drop_app_length. split_and!; [done|f_equal; apply firstn_all2; rewrite length_app; lia|]. f_equal. apply take_app_length.
Qed.

Lemma Split_frame k c r : isBytes c -> contentOk k c -> Z.of_nat (length (frame k c ++ r)) < 2 ^ 63 -> Split (frame k c ++ r) = Ok (k, c, r).
Proof.
  intros Hb Hc Hl. unfold Split. rewrite readKind_frame by done. cbn [mbind outcome_bind]. destruct (slices k c r Hl) as (E1 & E2 & _).
  rewrite E1. cbn [mbind outcome_bind]. by rewrite E2.
Qed.

Lemma Split_framed b k c r : isBytes b -> Z.of_nat (length b) < 2 ^ 63 -> Split b = Ok (k, c, r) -> b = frame k c ++ r /\ contentOk k c.
Proof.
  intros Hb Hl H. unfold Split in H. destruct (readKind b) as [[[k' t] n]| |] eqn:E; try done. cbn [mbind outcome_bind] in H.
  destruct (readKind_framed b k' t n Hb Hl E) as (c' & r' & -> & Hc & -> & ->). destruct (slices k' c' r' Hl) as (E1 & E2 & _). rewrite E1 in H. cbn [mbind outcome_bind] in H.
  rewrite E2 in H. cbn [mbind outcome_bind] in H. by injection H as <- <- <-.
Qed.

(** ** [CountValues] *)

(** Encoded values one after the other. *)
Definition frames (l : list (Kind * list Z)) : list Z := concat (map (fun p => frame p.1 p.2) l).

Lemma frame_cons k c : contentOk k c -> exists b l, frame k c = b :: l.
Proof.
  intros Hc. destruct k; cbn in *; [by destruct Hc as (x & -> & _); eauto|..]; unfold encList; destruct (puthead _ _ _) eqn:E; [by apply puthead_cons in E|cbn; eauto|by apply puthead_cons in E|cbn; eauto].
Qed.

Lemma CountValues_loop_ok l : Forall (fun p => isBytes p.2 /\ contentOk p.1 p.2) l -> forall fuel i, (length l <= fuel)%nat -> Z.of_nat (length (frames l)) < 2 ^ 63 ->
  CountValues_loop fuel (frames l) i = Ok (i + Z.of_nat (length l)).
Proof.
  induction 1 as [|[k c] l [Hb Hc] Hl IH]; intros fuel i Hf Hs; cbn [length] in *; [destruct fuel; cbn; f_equal; lia|]. unfold frames in *. cbn [map concat] in *.
  destruct fuel as [|fuel]; [lia|]. cbn [CountValues_loop]. destruct (frame_cons k c Hc) as (x & y & E).
  assert (exists x y, frame k c ++ concat (map (fun p => frame p.1 p.2) l) = x :: y) as (x' & y' & E') by (rewrite E; cbn; eauto). cbn [fst snd] in *. rewrite E' at 1.
  rewrite readKind_frame by done. cbn [mbind outcome_bind]. destruct (slices k c (concat (map (fun p => frame p.1 p.2) l)) Hs) as (_ & E2 & _). rewrite E2.
  cbn [mbind outcome_bind]. rewrite IH; [f_equal; lia|lia|]. rewrite length_app in Hs. lia.
Qed.

Lemma CountValues_loop_inv fuel : forall b i n, isBytes b -> Z.of_nat (length b) < 2 ^ 63 -> CountValues_loop fuel b i = Ok n ->
  exists l, b = frames l /\ Forall (fun p => isBytes p.2 /\ contentOk p.1 p.2) l /\ n = i + Z.of_nat (length l).
Proof.
  induction fuel as [|fuel IH]; intros b i n Hb Hl H; (destruct b as [|x b]; [injection H as <-; exists []; split_and!; [done|constructor|cbn; lia]|]); [done|].
  cbn [CountValues_loop] in H. destruct (readKind (x :: b)) as [[[k t] m]| |] eqn:E; try done. cbn [mbind outcome_bind] in H.
  destruct (readKind_framed (x :: b) k t m Hb Hl E) as (c & r & Eb & Hc & -> & ->). rewrite Eb in H, Hl, Hb. destruct (slices k c r Hl) as (_ & E2 & _). rewrite E2 in H.
  cbn [mbind outcome_bind] in H. destruct (isBytes_frame k c r Hb) as [Hbc Hbr]. apply IH in H as (l & -> & Hl' & ->); [|done|rewrite length_app in Hl; lia].
  exists ((k, c) :: l). split; [by rewrite Eb|]. split; [by constructor|]. cbn. lia.
Qed.

Lemma frames_length l : Forall (fun p => isBytes p.2 /\ contentOk p.1 p.2) l -> (length l <= length (frames l))%nat.
Proof.
  induction 1 as [|[k c] l [_ Hc] Hl IH]; [done|]. unfold frames in *. cbn. rewrite length_app. destruct (frame_cons k c Hc) as (x & y & E). cbn [fst snd]. rewrite E. cbn. lia.
Qed.

(** ** [SplitUint64] *)

Lemma AppendUint64_encoding i : in_u64 i -> AppendUint64 [] i = encString (minimal i).
Proof.
  intros Hi. pose proof (encodeUint_spec i emptybuf Hi) as H. unfold write in H. cbn [str emptybuf app] in H. apply (f_equal str) in H. cbn [str] in H. rewrite <- H.
  unfold AppendUint64, encodeUint, write, putint. repeat case_match; try done. cbn. by rewrite be_bytes_length.
Qed.

(** A string of either kind. *)
Lemma string_frame c : isBytes c -> exists k, k <> KList /\ contentOk k c /\ encString c = frame k c.
Proof.
  intros Hb. destruct (single c) eqn:Es.
  - destruct (encString_single c Hb Es) as (x & -> & Hx & E). exists KByte. split; [done|]. split; [by exists x|]. done.
  - exists KString. split; [done|]. split; [done|]. by apply encString_head.
Qed.
Lemma frame_string k c : k <> KList -> isBytes c -> contentOk k c -> frame k c = encString c.
Proof.
  intros Hk Hb Hc. destruct k; [|symmetry; by apply encString_head|done]. destruct Hc as (x & -> & Hx). cbn. by rewrite (proj2 (Z.ltb_lt _ _)) by lia.
Qed.

Lemma readSize_content c : isBytes c -> (2 <= length c <= 8)%nat ->
  readSize c (byte (Z.of_nat (length c))) = if match c with 0 :: _ => true | _ => false end then Err ErrCanonSize else Ok (be_val c).
Proof.
  intros Hb Hl. unfold readSize, byte. rewrite Z.mod_small, Z.ltb_irrefl, (proj2 (Z.leb_le 1 _)), (proj2 (Z.leb_le _ 8)) by lia. cbn [andb]. rewrite Nat2Z.id, firstn_all.
  destruct c as [|x c]; [cbn in Hl; lia|]. cbn [lookup list_lookup or_panic mbind outcome_bind]. destruct (Z.eqb_spec x 0) as [->|Hx]; [by destruct (_ <? 56)|].
  apply Forall_cons in Hb as [Hx0 Hb]. rewrite (proj2 (Z.ltb_ge _ 56)); [by destruct x|]. rewrite be_val_cons. pose proof (be_val_range c Hb).
  assert (256 ^ 1 <= 256 ^ Z.of_nat (length c)) by (apply Z.pow_le_mono_r; cbn in Hl; lia). nia.
Qed.

Lemma SplitString_eq b : SplitString b = match Split b with Ok (KList, _, _) => Err ErrExpectedString | Ok (_, c, r) => Ok (c, r) | Err e => Err e | Panic => Panic end.
Proof. unfold SplitString. destruct (Split b) as [[[[] c] r]| |]; done. Qed.

(** The number a canonical content stands for. *)
Definition content64 (c r : list Z) : outcome (Z * list Z) :=
  match c with
  | [] => Ok (0, r)
  | [x] => if x =? 0 then Err ErrCanonInt else Ok (x, r)
  | _ =>
      if 8 <? Z.of_nat (length c) then Err errUintOverflow
      else match readSize c (byte (Z.of_nat (length c))) with Ok x => Ok (x, r) | Err _ => Err ErrCanonInt | Panic => Panic end
  end.

Lemma content64_ok x r : in_u64 x -> content64 (minimal x) r = Ok (x, r).
Proof.
  intros [H1 H2]. pose proof (be_val_minimal x H1) as Hv. pose proof (minimal_noLeadingZero x H1) as Hz. pose proof (minimal_isBytes x) as Hb.
  pose proof (minimal_length_bits x 8 ltac:(lia) ltac:(cbn; lia)) as Hl. unfold content64. destruct (minimal x) as [|y [|z l]] eqn:E; [cbn in Hv; by subst|..].
  - change (y = x) in Hv. subst y. apply noLeadingZero_cons in Hz. by rewrite (proj2 (Z.eqb_neq x 0)).
  - rewrite (proj2 (Z.ltb_ge _ _)) by lia. rewrite readSize_content by (done || (cbn in *; lia)). apply noLeadingZero_cons in Hz. rewrite Hv. by destruct y.
Qed.

Lemma content64_inv c r x s : isBytes c -> content64 c r = Ok (x, s) -> in_u64 x /\ c = minimal x /\ s = r.
Proof.
  intros Hb H. destruct c as [|y [|z l]]; cbn [content64] in H.
  - injection H as <- <-. by split; [unfold in_u64; lia|].
  - destruct (Z.eqb_spec y 0); [done|]. injection H as <- <-. apply Forall_cons in Hb as [Hy _]. rewrite minimal_byte by lia. by split; [unfold in_u64; lia|].
  - set (c := y :: z :: l) in *. destruct (Z.ltb_spec 8 (Z.of_nat (length c))); [done|]. rewrite readSize_content in H by (done || (subst c; cbn in *; lia)).
    assert (noLeadingZero c /\ Ok (be_val c, r) = Ok (x, s)) as [Hz [= <- <-]] by (subst c; by destruct y).
    rewrite minimal_be_val by done. split; [|done]. pose proof (length_minimal_bound c 8 Hb ltac:(lia)). unfold in_u64. cbn in *. lia.
Qed.

Lemma SplitUint64_eq b : SplitUint64 b = match SplitString b with Ok (c, r) => content64 c r | Err e => Err e | Panic => Panic end.
Proof. unfold SplitUint64. by destruct (SplitString b) as [[c r]| |]. Qed.

(** *** The iterator *)

Lemma Next_frame k c r n e : isBytes c -> contentOk k c -> frame k c <> [] -> Z.of_nat (length (frame k c ++ r)) < 2 ^ 63 ->
  Next {| data := frame k c ++ r; next := n; err := e |} = Ok ({| data := r; next := frame k c; err := None |}, true).
Proof.
  intros Hb Hc Hne Hl. unfold Next. cbn [data]. destruct (frame k c ++ r) as [|x l] eqn:Ef; [by apply app_eq_nil in Ef as [? _]|]. rewrite <- Ef in *.
  rewrite readKind_frame by done. cbn [mbind outcome_bind]. destruct (slices k c r Hl) as (_ & E2 & E3). rewrite E3. cbn [mbind outcome_bind]. by rewrite E2.
Qed.

Lemma Next_stuck b n e e' : b <> [] -> readKind b = Err e -> Next {| data := b; next := n; err := e' |} = Ok ({| data := b; next := []; err := Some e |}, true).
Proof.
  intros Hb He. unfold Next. cbn [data]. destruct b as [|x b]; [done|]. rewrite He. cbn [mbind outcome_bind]. change (0 +u 0) with 0. rewrite !slice_ok by lia.
  cbn [mbind outcome_bind]. change (Z.to_nat 0) with 0%nat. rewrite Z.sub_0_r, Nat2Z.id. cbn [drop Z.sub Z.to_nat]. by rewrite firstn_all.
Qed.

(** ** The properties *)

(** C38: [Split] and [CountValues] follow the format.  A byte slice splits into a
    kind, a content and a rest exactly when it is the one encoding of the content
    followed by the rest; it is counted as [n] values exactly when it is [n]
    encodings one after the other; and [SplitUint64] undoes [AppendUint64], and
    accepts nothing else.  The list iterator hands out the encodings one after
    the other, and stays in place, saying that there is more, where the bytes are
    malformed. *)
Theorem raw_split_count b : isBytes b -> Z.of_nat (length b) < 2 ^ 63 ->
  (forall k c r, Split b = Ok (k, c, r) <-> b = frame k c ++ r /\ contentOk k c) /\
  (forall n, CountValues b = Ok n <-> exists l, b = frames l /\ Forall (fun p => contentOk p.1 p.2) l /\ n = Z.of_nat (length l)) /\
  (forall x r, SplitUint64 b = Ok (x, r) <-> in_u64 x /\ b = AppendUint64 [] x ++ r) /\
  (forall n e k c r, b = frame k c ++ r -> frame k c <> [] -> contentOk k c ->
     Next {| data := b; next := n; err := e |} = Ok ({| data := r; next := frame k c; err := None |}, true)) /\
  (forall n e e', b <> [] -> Split b = Err e -> Next {| data := b; next := n; err := e' |} = Ok ({| data := b; next := []; err := Some e |}, true)).
Proof.
  intros Hb Hl. split; [|split; [|split; [|split]]].
  - intros k c r. split; [by apply Split_framed|]. intros [-> Hc]. apply Split_frame; [by apply isBytes_frame in Hb as [? _]|done|done].
  - intros n. unfold CountValues. split.
    + intros H. apply CountValues_loop_inv in H as (l & -> & Hf & ->); [|done|done]. exists l. split; [done|]. split; [|done]. eapply Forall_impl; [exact Hf|]. by intros p [_ ?].
    + intros (l & -> & Hf & ->). assert (Forall (fun p => isBytes p.2 /\ contentOk p.1 p.2) l) as Hf'.
      { clear Hl. unfold frames in Hb. induction Hf as [|[k c] l Hc Hf IH]; [constructor|]. cbn in Hb. apply isBytes_frame in Hb as [Hbc Hbr]. constructor; [done|by apply IH]. }
      rewrite (CountValues_loop_ok l Hf'); [done|by apply frames_length|done].
  - intros x r. rewrite SplitUint64_eq, SplitString_eq. split.
    + destruct (Split b) as [[[k c] r']| |] eqn:E; try done. apply Split_framed in E as [-> Hc]; [|done|done]. destruct (isBytes_frame _ _ _ Hb) as [Hbc _].
      intros H. assert (k <> KList) as Hk by (by destruct k). assert (content64 c r' = Ok (x, r)) as H' by (by destruct k).
      apply content64_inv in H' as (Hx & -> & ->); [|done]. split; [done|]. rewrite AppendUint64_encoding by done. by rewrite (frame_string k (minimal x)).
    + intros [Hx ->]. rewrite AppendUint64_encoding in * by done. destruct (string_frame (minimal x) (minimal_isBytes x)) as (k & Hk & Hc & E). rewrite E in *.
      rewrite Split_frame by (done || apply minimal_isBytes). destruct k; [by apply content64_ok|by apply content64_ok|done].
  - intros n e k c r -> Hne Hc. apply Next_frame; [by apply isBytes_frame in Hb as [? _]|done..].
  - intros n e e' Hne He. apply Next_stuck; [done|]. unfold Split in He. destruct (readKind b) as [[[k t] m]| |] eqn:Ek; [|by injection He as ->|discriminate He].
    destruct (readKind_framed b k t m Hb Hl Ek) as (c & r & -> & Hc & -> & ->). cbn [mbind outcome_bind] in He. destruct (slices k c r Hl) as (E1 & E2 & _).
    rewrite E1 in He. cbn [mbind outcome_bind] in He. by rewrite E2 in He.
Qed.

(** Two strings, the second a number. *)
Lemma raw_split_count_witness :
  Split [0x82; 1; 2; 5] = Ok (KString, [1; 2], [5]) /\ SplitUint64 [0x82; 4; 0; 7] = Ok (1024, [7]) /\ CountValues [0x82; 1; 2; 5] = Ok 2.
Proof.
  split; [|split].
  - apply (raw_split_count [0x82; 1; 2; 5]); [repeat constructor; lia|cbn; lia|]. split; reflexivity.
  - apply (raw_split_count [0x82; 4; 0; 7]); [repeat constructor; lia|cbn; lia|]. split; [unfold in_u64; lia|reflexivity].
  - apply (raw_split_count [0x82; 1; 2; 5]); [repeat constructor; lia|cbn; lia|]. exists [(KString, [1; 2]); (KByte, [5])].
    split; [reflexivity|]. split; [|reflexivity]. constructor; [reflexivity|]. constructor; [exists 5; split; [reflexivity|lia]|constructor].
Defined.
