(* ===== verification/RlpScratch.v ===== *)
(** * RlpScratch: encoding straight to a writer ([internal/avm/rlp/encode.go])

    The functions that write one integer or string to an [io.Writer] without an
    [encbuf], through a buffer the caller lends them, and the sizes that callers
    add up beforehand.  The buffer keeps what was put into it.  A buffer is taken
    to have no capacity beyond its length. *)

From S2P Require Import Prelude Uint256 RlpEncode RlpTypes RlpStream RlpReading.

Import Rlp.

(** ** Sizes *)

Definition StringSize (s : list Z) : Z :=
  match s with
  | [] => 1
  | [x] => if x <=? 0x7f then 1 else 2
  | _ => u64 (headsize (Z.of_nat (length s)) + Z.of_nat (length s))
  end.

Definition IntLenExcludingHead (i : Z) : Z := if i <? 0x80 then 0 else intsize i.

(** [BitLen] of a [big.Int] is that of its absolute value. *)
Definition BigIntLenExcludingHead (i : Z) : Z :=
  let bitLen := Len64 (Z.abs i) in if bitLen <? 8 then 0 else (bitLen + 7) / 8.

Definition Uint256LenExcludingHead `{U : Uint256} (i : u256) : Z :=
  let bitLen := Len64 (uval i) in if bitLen <? 8 then 0 else (bitLen + 7) / 8.

(** ** The lent buffer *)

(** [buffer[i] = x] *)
Definition setByte (i : Z) (x : Z) (buffer : list Z) : outcome (list Z) :=
  if (i <? 0) || (Z.of_nat (length buffer) <=? i) then Panic else Ok (<[Z.to_nat i := x]> buffer).

(** [copy] of [p] to the place [k], which has to have the room: [PutUint64] and
    [FillBytes] panic without it. *)
Definition putAt (k : nat) (p : list Z) (buffer : list Z) : outcome (list Z) :=
  if (length buffer <? k + length p)%nat then Panic else Ok (take k buffer ++ p ++ drop (k + length p) buffer).

Section Scratch.
Context {S : Type} (Write : S -> list Z -> S * Z * option error).

(** [_, err := w.Write(buffer[lo:hi])] *)
Definition writeSlice (lo hi : Z) (buffer : list Z) (w : S) : outcome (S * list Z * option error) :=
  p ← slice buffer lo hi; let '(w, _, err) := Write w p in Ok (w, buffer, err).

Definition EncodeInt (i : Z) (w : S) (buffer : list Z) : outcome (S * list Z * option error) :=
  if (0 <? i) && (i <? 0x80) then
    buffer ← setByte 0 (byte i) buffer;
    writeSlice 0 1 buffer w
  else
    buffer ← putAt 1 (be_bytes 8 i) buffer;
    let size := intsize i in
    buffer ← setByte (8 - size) (byte (0x80 + byte size)) buffer;
    writeSlice (8 - size) 9 buffer w.

(** [None] for a nil pointer. *)
Definition EncodeBigInt (i : option Z) (w : S) (buffer : list Z) : outcome (S * list Z * option error) :=
  let i := default 0 (Z.abs <$> i) in
  let bitLen := Len64 i in
  if bitLen <? 8 then
    buffer ← setByte 0 (if 0 <? bitLen then byte (u64 i) else 0x80) buffer;
    writeSlice 0 1 buffer w
  else
    let size := (bitLen + 7) / 8 in
    buffer ← setByte 0 (byte (0x80 + byte size)) buffer;
    buffer ← putAt 1 (be_bytes (Z.to_nat size) i) buffer;
    writeSlice 0 (1 + size) buffer w.

Definition EncodeStringSizePrefix (size : Z) (w : S) (buffer : list Z) : outcome (S * list Z * option error) :=
  if 56 <=? size then
    let beSize := (Len64 size + 7) / 8 in
    buffer ← putAt 1 (be_bytes 8 size) buffer;
    buffer ← setByte (8 - beSize) (byte (byte beSize + 183)) buffer;
    writeSlice (8 - beSize) 9 buffer w
  else
    buffer ← setByte 0 (byte (byte size + 128)) buffer;
    writeSlice 0 1 buffer w.

(** The string is written as it is, whatever the buffer holds. *)
Definition writeAll (s : list Z) (w : S) (buffer : list Z) : outcome (S * list Z * option error) :=
  let '(w, _, err) := Write w s in Ok (w, buffer, err).

(** [then_ r f]: go on with [f] unless there was an error. *)
Definition then_ (r : outcome (S * list Z * option error)) (f : S -> list Z -> outcome (S * list Z * option error)) : outcome (S * list Z * option error) :=
  '(w, buffer, err) ← r;
  match err with Some e => Ok (w, buffer, Some e) | None => f w buffer end.

Definition EncodeString (s : list Z) (w : S) (buffer : list Z) : outcome (S * list Z * option error) :=
  match s with
  | [] => buffer ← setByte 0 128 buffer; writeSlice 0 1 buffer w
  | [x] =>
      if 128 <=? x then then_ (buffer ← setByte 0 129 buffer; writeSlice 0 1 buffer w) (writeAll s)
      else writeAll s w buffer
  | _ => then_ (EncodeStringSizePrefix (Z.of_nat (length s)) w buffer) (writeAll s)
  end.
End Scratch.

(** ** What is in the buffer *)

Lemma be_bytes_drop m n z : drop m (be_bytes (m + n) z) = be_bytes n z.
Proof.
  revert z. induction n as [|n IH]; intros z.
  - rewrite Nat.add_0_r. apply drop_ge. by rewrite be_bytes_length.
  - rewrite Nat.add_succ_r. cbn [be_bytes]. rewrite drop_app_le by (rewrite be_bytes_length; lia). by rewrite IH.
Qed.

Lemma drop_insert_here (l : list Z) k x : (k < length l)%nat -> drop k (<[k := x]> l) = x :: drop (S k) l.
Proof.
  intros Hk. rewrite (drop_S _ x) by (by apply list_lookup_insert_eq). by rewrite drop_insert_lt by lia.
Qed.

Lemma setByte_first x y l : setByte 0 x (y :: l) = Ok (x :: l).
Proof. unfold setByte. cbn [length]. by rewrite (proj2 (Z.leb_gt _ _)) by lia. Qed.

(** A number at the end of nine bytes with a tag in front of it. *)
Lemma tagged_slice n tag i buffer : (n <= 8)%nat -> (9 <= length buffer)%nat -> exists buffer1 buffer2,
  putAt 1 (be_bytes 8 i) buffer = Ok buffer1 /\ setByte (8 - Z.of_nat n) tag buffer1 = Ok buffer2 /\
  slice buffer2 (8 - Z.of_nat n) 9 = Ok (tag :: be_bytes n i) /\ length buffer2 = length buffer.
Proof.
  intros Hn Hl. unfold putAt. rewrite be_bytes_length, (proj2 (Nat.ltb_ge _ _)) by lia. set (b1 := take 1 buffer ++ be_bytes 8 i ++ drop (1 + 8) buffer).
  assert (length b1 = length buffer) as Hb1. { unfold b1. rewrite !length_app, length_take, length_drop, be_bytes_length. lia. }
  eexists b1, _. split; [done|]. unfold setByte. rewrite (proj2 (Z.ltb_ge _ 0)), (proj2 (Z.leb_gt _ _)) by lia. split; [done|].
  replace (Z.to_nat (8 - Z.of_nat n)) with (8 - n)%nat by lia. split; [|by rewrite length_insert].
  rewrite slice_ok by (rewrite ?length_insert; lia). f_equal.
  replace (Z.to_nat (8 - Z.of_nat n)) with (8 - n)%nat by lia. replace (Z.to_nat (9 - (8 - Z.of_nat n))) with (S n) by lia.
  rewrite drop_insert_here by lia. cbn [take]. f_equal. unfold b1. destruct buffer as [|y buffer]; [cbn in Hl; lia|]. cbn [take drop app]. rewrite take_0, app_nil_l.
  pose proof (be_bytes_drop (8 - n) n i) as E. replace (8 - n + n)%nat with 8%nat in E by lia.
  rewrite (drop_app_le (be_bytes 8 i)), E by (rewrite be_bytes_length; lia). by rewrite take_app_le, firstn_all2 by (rewrite be_bytes_length; lia).
Qed.

Lemma intsize_u64 i : in_u64 i -> 0 <= intsize i <= 8.
Proof.
  intros [H1 H2]. destruct (decide (i = 0)) as [->|]; [done|]. pose proof (intsize_bytes i 8 ltac:(lia) ltac:(lia) H2). lia.
Qed.

(** The bytes of a number that is not a single small byte. *)
Lemma encString_minimal i : 0x80 <= i -> intsize i < 56 -> encString (minimal i) = byte (0x80 + byte (intsize i)) :: minimal i.
Proof.
  intros Hi Hs. pose proof (minimal_length i ltac:(lia)) as Hl. pose proof (intsize_nonneg i ltac:(lia)).
  assert (byte (intsize i) = intsize i) as -> by (apply Z.mod_small; lia).
  destruct (decide (i < 256)).
  - rewrite minimal_byte by lia. cbn [encString]. rewrite (proj2 (Z.ltb_ge i 128)) by lia. rewrite (intsize_between i 1) by (cbn; lia). done.
  - pose proof (intsize_ge2 i ltac:(lia)). unfold encString. destruct (minimal i) as [|x [|y l]] eqn:E; [cbn in Hl; lia|cbn in Hl; lia|].
    rewrite Hl. unfold puthead. by rewrite (proj2 (Z.ltb_lt _ _)).
Qed.

Lemma Len64_small i : 0 <= i -> (Len64 i <? 8) = (i <? 128).
Proof.
  intros Hi. destruct (Z.ltb_spec i 128).
  - apply Z.ltb_lt. pose proof (Len64_upper i 7 Hi ltac:(cbn; lia) ltac:(lia)). lia.
  - apply Z.ltb_ge. pose proof (Len64_bounds i 7 ltac:(lia) ltac:(cbn; lia) ltac:(lia)). lia.
Qed.

Section Wrote.
Context {S : Type} (Write : S -> list Z -> S * Z * option error) (contents : S -> list Z) `{!WriterLaw Write contents}.

(** [r] writes [b], or a prefix of it and an error. *)
Definition outputs (r : outcome (S * list Z * option error)) (w : S) (b : list Z) : Prop :=
  exists w' buffer e, r = Ok (w', buffer, e) /\ wrote b (contents w) (contents w') e.

Lemma writeSlice_outputs lo hi buffer w b : slice buffer lo hi = Ok b -> outputs (writeSlice Write lo hi buffer w) w b.
Proof.
  intros E. unfold writeSlice. rewrite E. cbn [mbind outcome_bind]. destruct (Write w b) as [[w' n] e] eqn:Ew.
  apply (Write_wrote Write contents) in Ew as [Hw _]. by exists w', buffer, e.
Qed.

(** One byte through the first place of the buffer. *)
Lemma byte_outputs x w buffer : (1 <= length buffer)%nat -> outputs (buffer ← setByte 0 x buffer; writeSlice Write 0 1 buffer w) w [x].
Proof.
  destruct buffer as [|y buffer]; cbn [length]; intros Hl; [lia|]. rewrite setByte_first. cbn [mbind outcome_bind]. apply writeSlice_outputs.
  by rewrite slice_ok by (cbn [length]; lia).
Qed.

Lemma tagged_outputs n tag i w buffer : 0 <= n <= 8 -> (9 <= length buffer)%nat ->
  outputs (buffer ← putAt 1 (be_bytes 8 i) buffer; buffer ← setByte (8 - n) tag buffer; writeSlice Write (8 - n) 9 buffer w) w (tag :: be_bytes (Z.to_nat n) i).
Proof.
  intros Hn Hl. destruct (tagged_slice (Z.to_nat n) tag i buffer ltac:(lia) Hl) as (b1 & b2 & E1 & E2 & E3 & _). rewrite Z2Nat.id in E2, E3 by lia.
  rewrite E1. cbn [mbind outcome_bind]. rewrite E2. cbn [mbind outcome_bind]. by apply writeSlice_outputs.
Qed.

Lemma then_outputs r w a s : outputs r w a -> outputs (then_ r (writeAll Write s)) w (a ++ s).
Proof.
  intros (w1 & b1 & e & -> & Hw). unfold then_. cbn [mbind outcome_bind]. destruct e as [e|]; [exists w1, b1, (Some e); split; [done|by apply wrote_prefix]|].
  cbn in Hw. unfold writeAll. destruct (Write w1 s) as [[w' n] e] eqn:E. apply (Write_wrote Write contents) in E as [Hw' _].
  exists w', b1, e. split; [done|]. apply wrote_more. by rewrite <- Hw.
Qed.

Lemma EncodeInt_outputs i w buffer : in_u64 i -> (9 <= length buffer)%nat -> outputs (EncodeInt Write i w buffer) w (encString (minimal i)).
Proof.
  intros Hi Hl. pose proof (intsize_u64 i Hi). destruct Hi as [Hi1 Hi2]. unfold EncodeInt. destruct (Z.ltb_spec 0 i), (Z.ltb_spec i 128); cbn [andb].
  - rewrite minimal_byte by lia. cbn [encString]. rewrite (proj2 (Z.ltb_lt i 0x80)) by lia. unfold byte. rewrite Z.mod_small by lia. apply byte_outputs. lia.
  - rewrite encString_minimal by lia. by apply tagged_outputs.
  - assert (i = 0) as -> by lia. by apply (tagged_outputs 0).
  - lia.
Qed.

Lemma EncodeBigInt_outputs i w buffer : 0 <= default 0 i < 2 ^ 440 -> (1 <= length buffer)%nat -> intsize (default 0 i) < Z.of_nat (length buffer) ->
  outputs (EncodeBigInt Write i w buffer) w (encString (minimal (default 0 i))).
Proof.
  intros Hi Hl1 Hl. unfold EncodeBigInt. replace (default 0 (Z.abs <$> i)) with (default 0 i) by (destruct i; cbn in *; lia).
  set (j := default 0 i) in *. rewrite Len64_small by lia. destruct (Z.ltb_spec j 128).
  - destruct (decide (j = 0)) as [->|]; [by apply byte_outputs|]. rewrite minimal_byte by lia. cbn [encString]. rewrite (proj2 (Z.ltb_lt j 0x80)) by lia.
    rewrite (proj2 (Z.ltb_lt 0 (Len64 j))) by (pose proof (Len64_bounds j 0 ltac:(lia) ltac:(cbn; lia) ltac:(lia)); lia).
    unfold u64, byte. rewrite (Z.mod_small j) by lia. rewrite (Z.mod_small j) by lia. by apply byte_outputs.
  - change ((Len64 j + 7) / 8) with (intsize j). pose proof (intsize_bytes j 55 ltac:(lia) ltac:(lia) ltac:(apply Hi)). rewrite encString_minimal by lia.
    destruct buffer as [|y buffer]; cbn [length] in *; [lia|]. rewrite setByte_first. cbn [mbind outcome_bind]. unfold putAt. cbn [length].
    rewrite be_bytes_length, (proj2 (Nat.ltb_ge _ _)) by lia. cbn [mbind outcome_bind]. apply writeSlice_outputs.
    pose proof (be_bytes_length (Z.to_nat (intsize j)) j). rewrite slice_ok by (cbn [take app length]; rewrite ?length_app; lia).
    cbn [take app]. replace (Z.to_nat (1 + intsize j - 0)) with (Datatypes.S (Z.to_nat (intsize j))) by lia. change (Z.to_nat 0) with 0%nat. rewrite drop_0. cbn [take].
    rewrite take_0, app_nil_l. by rewrite take_app_le, firstn_all2 by lia.
Qed.

Lemma EncodeString_outputs s w buffer : isBytes s -> Z.of_nat (length s) < 2 ^ 63 -> (9 <= length buffer)%nat -> outputs (EncodeString Write s w buffer) w (encString s).
Proof.
  intros Hs Hl Hb. destruct s as [|x [|y s]].
  - apply byte_outputs. lia.
  - cbn [EncodeString encString]. rewrite Z.leb_antisym. destruct (x <? 128); cbn [negb].
    + unfold writeAll. destruct (Write w [x]) as [[w' n] e] eqn:E. apply (Write_wrote Write contents) in E as [Hw _]. by exists w', buffer, e.
    + apply (then_outputs _ w [129] [x]), byte_outputs. lia.
  - cbn [EncodeString encString]. set (t := x :: y :: s) in *. apply then_outputs. unfold EncodeStringSizePrefix, puthead. rewrite Z.leb_antisym.
    destruct (Z.ltb_spec (Z.of_nat (length t)) 56); cbn [negb].
    + unfold byte at 1 2. rewrite (Z.mod_small (Z.of_nat (length t))), Z.add_comm by lia. apply byte_outputs. lia.
    + fold (intsize (Z.of_nat (length t))). pose proof (intsize_u64 (Z.of_nat (length t)) ltac:(unfold in_u64; lia)) as Hi.
      rewrite putint_minimal by lia. rewrite minimal_length by lia. unfold byte at 2. rewrite (Z.mod_small (intsize _)), Z.add_comm by lia. by apply tagged_outputs.
Qed.
End Wrote.

(** ** The properties *)

Lemma encString_length s : Z.of_nat (length s) < 2 ^ 63 -> Z.of_nat (length (encString s)) = StringSize s.
Proof.
  intros Hl. destruct s as [|x [|y s]]; [done| |].
  - cbn [encString StringSize]. replace (x <=? 127) with (x <? 128) by (destruct (Z.ltb_spec x 128), (Z.leb_spec x 127); lia). by destruct (x <? 128).
  - cbn [encString StringSize]. set (t := x :: y :: s) in *. rewrite length_app, Nat2Z.inj_add, puthead_length by lia.
    unfold u64. rewrite Z.mod_small; [done|]. unfold headsize. pose proof (intsize_u64 (Z.of_nat (length t)) ltac:(unfold in_u64; lia)). case_match; lia.
Qed.

Lemma encString_minimal_length i : 0 <= i -> intsize i < 56 -> Z.of_nat (length (encString (minimal i))) = 1 + if i <? 128 then 0 else intsize i.
Proof.
  intros Hi Hs. destruct (Z.ltb_spec i 128).
  - destruct (decide (i = 0)) as [->|]; [done|]. rewrite minimal_byte by lia. cbn [encString]. by rewrite (proj2 (Z.ltb_lt i 0x80)) by lia.
  - rewrite encString_minimal by lia. cbn [length]. rewrite Nat2Z.inj_succ, minimal_length by lia. lia.
Qed.


(** A writer that keeps everything. *)
Definition keepAll (s p : list Z) : list Z * Z * option error := (s ++ p, Z.of_nat (length p), None).
Lemma keepAll_law : WriterLaw keepAll id.
Proof. intros s p s' n e [= <- <- <-]. rewrite Nat2Z.id, firstn_all. split; [lia|done]. Qed.


(** A [big.Int] of 56 bytes gets the tag of a string whose length takes one
    byte, and a negative one is written as its absolute value. *)
Example EncodeBigInt_long : exists w buffer, EncodeBigInt keepAll (Some (2 ^ 440)) [] (replicate 57 0) = Ok (w, buffer, None) /\
  take 2 w = [0xB8; 1] /\ length w = 57%nat /\ take 2 (encString (minimal (2 ^ 440))) = [0xB8; 56].
Proof. eexists _, _. vm_compute. done. Qed.
Example EncodeBigInt_negative buffer w : EncodeBigInt keepAll (Some (-5)) w buffer = EncodeBigInt keepAll (Some 5) w buffer.
Proof. reflexivity. Qed.
