(* ===== verification/RlpCodec.v ===== *)
(** * RlpCodec: Go values to RLP and back ([internal/avm/rlp/decode.go], [encode.go])

    The decoders and writers that [makeDecoder] and [makeWriter] choose by type,
    and the entry points [DecodeBytes], [EncodeToBytes], [Encode] and
    [EncodeToReader].  A decoder fills a fresh value; the growing of slices and
    the reuse of values that are there already are left out.  The decoders take a
    bound on the rounds over the elements of a slice and on the depth of nested
    interfaces; [Decode] sets it one above the number of bytes that are left. *)

From stdpp Require Import pretty.
From S2P Require Import Prelude Uint256 RlpEncode RlpTypes RlpStream.

Import Rlp RlpT Stream.

(** ** Errors *)

Definition wrapStreamError (t : typ) (e : error) : derr :=
  if String.eqb e ErrCanonInt then DecodeError "non-canonical integer (leading zero bytes)" t []
  else if String.eqb e ErrCanonSize then DecodeError "non-canonical size information" t []
  else if String.eqb e ErrExpectedList then DecodeError "expected input list" t []
  else if String.eqb e ErrExpectedString then DecodeError "expected input string or byte" t []
  else if String.eqb e errUintOverflow then DecodeError "input string too long" t []
  else if String.eqb e errNotAtEOL then DecodeError "input list has too many elements" t []
  else Plain e.

Definition addErrorContext (ctx : string) (e : derr) : derr :=
  match e with DecodeError msg t c => DecodeError msg t (c ++ [ctx]) | Plain _ => e end.

Definition isEOL (e : derr) : bool := match e with Plain e => String.eqb e EOL | DecodeError _ _ _ => false end.

(** [strings.Contains] *)
Fixpoint Contains (s sub : string) : bool :=
  String.prefix sub s || match s with EmptyString => false | String _ s => Contains s sub end.

Definition ErrWrongTxTypePrefix : error := "rlp: only 1-byte tx type prefix is supported".
Definition ErrUnknownTxTypePrefix : error := "rlp: unknown tx type prefix".

(** [errors.Is] compares the identity of an error that wraps no other. *)
Definition IsInvalidRLPError (err : derr) : bool :=
  existsb (fun e => match err with Plain e' => String.eqb e' e | DecodeError _ _ _ => false end)
    [ErrExpectedString; ErrExpectedList; ErrCanonInt; ErrCanonInt; ErrCanonSize; ErrElemTooLarge; ErrValueTooLarge; ErrMoreThanOneValue;
     ErrWrongTxTypePrefix; ErrUnknownTxTypePrefix; errNotInList; errNotAtEOL; errUintOverflow] ||
  existsb (Contains (derr_Error err))
    ["rlp: input list has too many elements"; "rlp: expected input string or byte"; "rlp: expected input list";
     "rlp: non-canonical size information"; "rlp: non-canonical integer (leading zero bytes)"].

(** An integer that is too large is recognised only as the stream reports it, not
    as the decoder wraps it. *)
Example IsInvalidRLPError_overflow :
  IsInvalidRLPError (Plain errUintOverflow) = true /\ IsInvalidRLPError (wrapStreamError (TUint 64) errUintOverflow) = false.
Proof. split; vm_compute; reflexivity. Qed.

(** A call on the stream whose error is passed on by [w]. *)
Definition onErr {A} (w : error -> derr) (m : M error A) : M derr A := fun s =>
  match m s with
  | Ok (s, inl a) => Ok (s, inl a)
  | Ok (s, inr e) => Ok (s, inr (w e))
  | Err e => Err e
  | Panic => Panic
  end.

Section Codec.
Context `{U : Uint256}.

(** ** Decoders *)

Definition decoder : Type := M derr gval.

Section Decoders.
Context (fuel : nat).

Definition decodeRawValue : decoder := b ← onErr Plain Raw; mret (GByteSlice b).
Definition decodeUint (bits : Z) : decoder := i ← onErr (wrapStreamError (TUint bits)) (uint bits); mret (GNum i).
Definition decodeBool : decoder := b ← onErr (wrapStreamError TBool) Bool; mret (GBool b).
Definition decodeString : decoder := b ← onErr (wrapStreamError TString) Bytes; mret (GString b).
(** [typ] is the type of the pointer. *)
Definition decodeBigInt : decoder := b ← onErr (wrapStreamError (TPtr TBigInt)) bigIntBytes; mret (GPtr (GNum (be_val b))).
Definition decodeBigIntNoPtr : decoder := b ← onErr (wrapStreamError (TPtr TBigInt)) bigIntBytes; mret (GNum (be_val b)).
Definition decodeUint256 : decoder := b ← onErr (wrapStreamError (TPtr TUint256)) Uint256Bytes; mret (GPtr (GU256 (uSetBytes b))).
Definition decodeUint256NoPtr : decoder := b ← onErr (wrapStreamError (TPtr TUint256)) Uint256Bytes; mret (GU256 (uSetBytes b)).
Definition decodeByteSlice (t : typ) : decoder := b ← onErr (wrapStreamError t) Bytes; mret (GByteSlice b).

(** *** Slices and arrays *)

Definition elemContext (i : nat) : string := "[" +:+ pretty i +:+ "]".

Fixpoint decodeSliceElems_loop (n : nat) (i : nat) (elemdec : decoder) : M derr (list gval) :=
  match n with
  | O => fun _ => Err "out of fuel"
  | S n =>
      r ← try elemdec;
      match r with
      | inl v => l ← decodeSliceElems_loop n (S i) elemdec; mret (v :: l)
      | inr e => if isEOL e then mret [] else throw (addErrorContext (elemContext i) e)
      end
  end.
Definition decodeSliceElems (elemdec : decoder) : M derr (list gval) := decodeSliceElems_loop fuel 0 elemdec.

Definition decodeListSlice (t : typ) (elemdec : decoder) : decoder :=
  size ← onErr (wrapStreamError t) List;
  if size =? 0 then onErr Plain ListEnd;; mret (GSlice [])
  else
    l ← decodeSliceElems elemdec;
    onErr Plain ListEnd;;
    mret (GSlice l).

(** The elements of an array, [None] when the list ends before them. *)
Fixpoint decodeArrayElems (n i : nat) (elemdec : decoder) : M derr (option (list gval)) :=
  match n with
  | O => mret (Some [])
  | S n =>
      r ← try elemdec;
      match r with
      | inl v => l ← decodeArrayElems n (S i) elemdec; mret (cons v <$> l)
      | inr e => if isEOL e then mret None else throw (addErrorContext (elemContext i) e)
      end
  end.
Definition decodeListArray (t : typ) (n : nat) (elemdec : decoder) : decoder :=
  onErr (wrapStreamError t) List;;
  l ← decodeArrayElems n 0 elemdec;
  match l with
  | None => throw (DecodeError "input list has too few elements" t [])
  | Some l => onErr (wrapStreamError t) ListEnd;; mret (GList l)
  end.

Definition decodeByteArray (t : typ) (vlen : nat) : decoder :=
  '(k, size) ← onErr Plain Kind_;
  match k with
  | KByte =>
      if Nat.eqb vlen 0 then throw (DecodeError "input string too long" t [])
      else if Nat.ltb 1 vlen then throw (DecodeError "input string too short" t [])
      else
        r ← try (onErr Plain Uint);
        mret (GBytes [match r with inl bv => bv | inr _ => 0 end])
  | KString =>
      if Z.of_nat vlen <? size then throw (DecodeError "input string too long" t [])
      else if size <? Z.of_nat vlen then throw (DecodeError "input string too short" t [])
      else
        b ← onErr Plain (readFull (Z.of_nat vlen));
        match b with
        | [x] => if (size =? 1) && (x <? 128) then throw (wrapStreamError t ErrCanonSize) else mret (GBytes b)
        | _ => mret (GBytes b)
        end
  | KList => throw (wrapStreamError t ErrExpectedString)
  end.

Definition makeListDecoder (t e : typ) (array : option nat) (ts : tags) (elem : decoder + error) : decoder + error :=
  if isByte e then inl (match array with Some n => decodeByteArray t n | None => decodeByteSlice t end)
  else
    match elem with
    | inr err => inr err
    | inl elemdec =>
        inl (match array with
             | Some n => decodeListArray t n elemdec
             | None => if tail ts then l ← decodeSliceElems elemdec; mret (GSlice l) else decodeListSlice t elemdec
             end)
    end.

(** *** Structs *)

(** The decoders of the fields, or the error of the first that has none. *)
Fixpoint fieldInfos {X} (typName : string) (fields : list (field (X + error))) : list (field X) + error :=
  match fields with
  | [] => inl []
  | f :: fields =>
      match info f with
      | inr e => inr (structFieldError typName (fname f) e)
      | inl x =>
          match fieldInfos typName fields with
          | inr e => inr e
          | inl l => inl ({| index := index f; fname := fname f; ftyp := ftyp f; foptional := foptional f; info := x |} :: l)
          end
      end
  end.

Definition zeroFields (vals : list gval) (fields : list (field decoder)) : list gval :=
  fold_left (fun vals f => <[index f := zeroOf (ftyp f)]> vals) fields vals.

Fixpoint decodeFields (t : typ) (fields : list (field decoder)) (vals : list gval) : M derr (list gval) :=
  match fields with
  | [] => mret vals
  | f :: fs =>
      r ← try (info f);
      match r with
      | inl v => decodeFields t fs (<[index f := v]> vals)
      | inr e =>
          if isEOL e then
            if foptional f then mret (zeroFields vals fields) else throw (DecodeError "too few elements" t [])
          else throw (addErrorContext ("." +:+ fname f) e)
      end
  end.

Definition decodeStruct (t : typ) (fields : list (field decoder)) : decoder :=
  onErr (wrapStreamError t) List;;
  l ← decodeFields t fields (match zeroOf t with GStruct l => l | _ => [] end);
  onErr (wrapStreamError t) ListEnd;;
  mret (GStruct l).

Definition makeStructDecoder (t : typ) (name : string) (fs : list (sfield * (tags -> decoder + error))) : decoder + error :=
  match structFields name fs with
  | inr e => inr e
  | inl fields =>
      match fieldInfos name fields with
      | inr e => inr e
      | inl fields => inl (decodeStruct t fields)
      end
  end.

(** *** Pointers and interfaces *)

Definition makeSimplePtrDecoder (dec : decoder) : decoder := v ← dec; mret (GPtr v).

Definition makeNilPtrDecoder (t : typ) (dec : decoder) (nilk : Kind) : decoder :=
  '(k, size) ← onErr (wrapStreamError t) Kind_;
  if bool_decide (k <> KByte) && (size =? 0) then
    if bool_decide (k <> nilk) then
      throw (DecodeError ("wrong kind of empty value (got " +:+ Kind_String k +:+ ", want " +:+ Kind_String nilk +:+ ")") t [])
    else modify (set_kind None);; mret GNil
  else v ← dec; mret (GPtr v).

Definition makePtrDecoder (t : typ) (ts : tags) (elem : decoder + error) : decoder + error :=
  match elem with
  | inr e => inr e
  | inl dec => inl (if nilOK ts then makeNilPtrDecoder t dec (nilKind ts) else makeSimplePtrDecoder dec)
  end.

(** The types an interface receives. *)
Definition bytesType : typ := TSlice (TUint 8).
Definition ifsliceType : typ := TSlice TInterface.

(** Lists may hold lists, [n] levels deep. *)
Fixpoint decodeInterface_depth (n : nat) : decoder :=
  match n with
  | O => fun _ => Err "out of fuel"
  | S n =>
      '(k, _) ← onErr Plain Kind_;
      if decide (k = KList) then
        l ← decodeListSlice ifsliceType (decodeInterface_depth n);
        mret (GIface ifsliceType l)
      else
        b ← onErr Plain Bytes;
        mret (GIface bytesType (GByteSlice b))
  end.
Definition decodeInterface : decoder := decodeInterface_depth fuel.

(** ** Choosing a decoder *)

Definition notSerializable (t : typ) : error := "rlp: type " +:+ typeName t +:+ " is not RLP-serializable".

Fixpoint makeDecoder (t : typ) (ts : tags) : decoder + error :=
  match t with
  | TRawValue => inl decodeRawValue
  | TPtr TBigInt => inl decodeBigInt
  | TBigInt => inl decodeBigIntNoPtr
  | TPtr TUint256 => inl decodeUint256
  | TUint256 => inl decodeUint256NoPtr
  | TPtr e => makePtrDecoder t ts (makeDecoder e noTags)
  | TUint bits => inl (decodeUint bits)
  | TBool => inl decodeBool
  | TString => inl decodeString
  | TSlice e => makeListDecoder t e None ts (makeDecoder e noTags)
  | TArray n e => makeListDecoder t e (Some n) ts (makeDecoder e noTags)
  | TStruct name fs => makeStructDecoder t name (map (fun f => (f, match f with SField _ _ _ ft => makeDecoder ft end)) fs)
  | TInterface => inl decodeInterface
  | TOther _ => inr (notSerializable t)
  end.

End Decoders.

(** ** Decoding *)

Definition Decode (t : typ) : decoder := fun s =>
  (match makeDecoder (S (length (rest s))) t noTags with
  | inr e => throw (Plain e)
  | inl dcd =>
      r ← try dcd;
      match r with
      | inl v => mret v
      | inr (DecodeError msg typ ctx) =>
          throw (DecodeError msg typ (match ctx with [] => [] | _ => ctx ++ ["(" +:+ typeName t +:+ ")"] end))
      | inr e => throw e
      end
  end) s.

Definition DecodeBytes (t : typ) (b : list Z) : outcome (gval + derr) :=
  match Decode t (Reset b (Z.of_nat (length b)) newStream) with
  | Ok (s, inl v) => Ok (if (0 <? length (rest s))%nat then inr (Plain ErrMoreThanOneValue) else inl v)
  | Ok (_, inr e) => Ok (inr e)
  | Err e => Err e
  | Panic => Panic
  end.

(** ** Writers *)

(** A value that does not have the type of the writer makes reflection panic. *)
Definition writer : Type := gval -> encbuf -> outcome encbuf.

Definition writeRawValue : writer := fun v w =>
  match v with GByteSlice b => Ok (write b w) | GNil => Ok w | _ => Panic end.
Definition writeUint : writer := fun v w => match v with GNum i => Ok (encodeUint i w) | _ => Panic end.
Definition writeBoolean : writer := fun v w => match v with GBool b => Ok (writeBool b w) | _ => Panic end.
Definition writeBigIntPtr : writer := fun v w =>
  match v with GNil => Ok (write [EmptyStringCode] w) | GPtr (GNum i) => writeBigInt i w | _ => Panic end.
Definition writeBigIntNoPtr : writer := fun v w => match v with GNum i => writeBigInt i w | _ => Panic end.
Definition writeUint256Ptr : writer := fun v w =>
  match v with GNil => Ok (write [EmptyStringCode] w) | GPtr (GU256 i) => Ok (writeUint256 i w) | _ => Panic end.
Definition writeUint256NoPtr : writer := fun v w => match v with GU256 i => Ok (writeUint256 i w) | _ => Panic end.
Definition writeBytes : writer := fun v w =>
  match v with GByteSlice b => Ok (encodeString b w) | GNil => Ok (encodeString [] w) | _ => Panic end.
Definition makeByteArrayWriter : writer := fun v w => match v with GBytes b => Ok (writeByteArray b w) | _ => Panic end.
Definition writeString : writer := fun v w =>
  match v with
  | GString [x] => Ok (if x <=? 0x7f then write [x] w else write [x] (encodeStringHeader 1 w))
  | GString s => Ok (write s (encodeStringHeader (Z.of_nat (length s)) w))
  | _ => Panic
  end.

(** The elements, one after the other. *)
Definition writeElems (f : writer) (l : list gval) (w : encbuf) : outcome encbuf :=
  fold_left (fun w v => w ← w; f v w) l (Ok w).

(** [defer w.listEnd(w.list())] around [body] *)
Definition inList (body : encbuf -> outcome encbuf) (w : encbuf) : outcome encbuf :=
  let '(w, index) := list_ w in w ← body w; listEnd index w.

Definition makeSliceWriter (ts : tags) (elem : writer + error) : writer + error :=
  match elem with
  | inr e => inr e
  | inl wr => inl (fun v w =>
      match (match v with GSlice l | GList l => Some l | GNil => Some [] | _ => None end) with
      | None => Panic
      | Some l => if tail ts then writeElems wr l w else inList (writeElems wr l) w
      end)
  end.

(** The values of the fields with their writers. *)
Fixpoint writeFields (fields : list (field writer)) (vals : list gval) (w : encbuf) : outcome encbuf :=
  match fields with
  | [] => Ok w
  | f :: fields => v ← or_panic (vals !! index f); w ← info f v w; writeFields fields vals w
  end.

(** How many fields are written: optional fields that are zero are cut off at
    the end. *)
Fixpoint lastField (first n : nat) (fields : list (field writer)) (vals : list gval) : outcome nat :=
  match n with
  | O => Ok 0%nat
  | S m =>
      if Nat.leb first m then
        f ← or_panic (fields !! m);
        v ← or_panic (vals !! index f);
        if IsZero v then lastField first m fields vals else Ok n
      else Ok n
  end.

Definition writeStruct (fields : list (field writer)) (vals : list gval) (w : encbuf) : outcome encbuf :=
  let first := firstOptionalField fields in
  if Nat.eqb first (length fields) then inList (writeFields fields vals) w
  else n ← lastField first (length fields) fields vals; inList (writeFields (take n fields) vals) w.

Definition makeStructWriter (name : string) (fs : list (sfield * (tags -> writer + error))) : writer + error :=
  match structFields name fs with
  | inr e => inr e
  | inl fields =>
      match fieldInfos name fields with
      | inr e => inr e
      | inl fields => inl (fun v w =>
          match v with GStruct vals => writeStruct fields vals w | _ => Panic end)
      end
  end.

Definition makePtrWriter (e : typ) (ts : tags) (elem : writer + error) : writer + error :=
  match elem with
  | inr err => inr err
  | inl wr =>
      let nilk := if nilOK ts then nilKind ts else defaultNilKind e in
      inl (fun v w =>
        match v with
        | GNil => if decide (nilk = KString) then Ok (write [EmptyStringCode] w) else inList Ok w
        | GPtr v => wr v w
        | _ => Panic
        end)
  end.

(** [writeInterface], given the writer for the dynamic type. *)
Definition writeInterface (dynamic : typ -> writer) : writer := fun v w =>
  match v with
  | GNil => Ok (write [EmptyListCode] w)
  | GIface t v => dynamic t v w
  | _ => Panic
  end.

Fixpoint makeWriter (dynamic : typ -> writer) (t : typ) (ts : tags) : writer + error :=
  match t with
  | TRawValue => inl writeRawValue
  | TPtr TBigInt => inl writeBigIntPtr
  | TBigInt => inl writeBigIntNoPtr
  | TPtr TUint256 => inl writeUint256Ptr
  | TUint256 => inl writeUint256NoPtr
  | TPtr e => makePtrWriter e ts (makeWriter dynamic e noTags)
  | TUint _ => inl writeUint
  | TBool => inl writeBoolean
  | TString => inl writeString
  | TSlice e => if isByte e then inl writeBytes else makeSliceWriter ts (makeWriter dynamic e noTags)
  | TArray _ e => if isByte e then inl makeByteArrayWriter else makeSliceWriter ts (makeWriter dynamic e noTags)
  | TStruct name fs => makeStructWriter name (map (fun f => (f, match f with SField _ _ _ ft => makeWriter dynamic ft end)) fs)
  | TInterface => inl (writeInterface dynamic)
  | TOther _ => inr (notSerializable t)
  end.

(** [cachedWriter] and the call of the writer, for values whose interfaces are
    nested at most [n] deep. *)
Fixpoint encodeDepth (n : nat) (t : typ) : writer := fun v w =>
  match makeWriter (match n with O => fun _ _ _ => Err "out of fuel" | S n => encodeDepth n end) t noTags with
  | inl wr => wr v w
  | inr e => Err e
  end.

Fixpoint ifaceDepth (v : gval) : nat :=
  match v with
  | GList l | GSlice l | GStruct l => list_max (map ifaceDepth l)
  | GPtr v => ifaceDepth v
  | GIface _ v => S (ifaceDepth v)
  | _ => 0
  end.

Definition encode (t : typ) : writer := fun v w => encodeDepth (ifaceDepth v) t v w.

(** ** Encoding *)

Definition EncodeToBytes (t : typ) (v : gval) : outcome (list Z) := w ← encode t v emptybuf; toBytes w.
Definition EncodeToReader (t : typ) (v : gval) : outcome (Z * encReader) :=
  w ← encode t v emptybuf; Ok (Rlp.size w, newReader w).
(** [Encode] to a writer that is not an [encbuf] *)
Definition Encode {S} (Write : S -> list Z -> S * Z * option error) (t : typ) (v : gval) (out : S) : outcome (S * option error) :=
  w ← encode t v emptybuf; toWriter Write w out.

End Codec.
