(* ===== verification/RlpDecoding.v ===== *)
(** * RlpDecoding: what the decoders accept

    A decoder of [RlpCodec.v] reads a value exactly where an encoding of it comes
    next: the specification [decodes], the rules for lists, structs and pointers,
    and the relation [repr] between the values of a type and RLP items. *)

From S2P Require Import Prelude Uint256 RlpEncode RlpTypes RlpStream RlpReading RlpCodec.

Import Rlp RlpT Stream.

(** The stream is ready for a value and has less than [B] bytes. *)
Definition ready (B : nat) (s : Stream) : Prop := streamOk s /\ kind s = None /\ (length (rest s) < B)%nat.

(** A head with as many bytes behind it as it says. *)
Definition framed (bs : list Z) : Prop := exists k sz bv p, headOk k sz bv /\ Z.of_nat (length p) = sz /\ bs = headOf k sz bv ++ p.
Definition framing (F : list Z -> Prop) : Prop := forall bs, F bs -> Z.of_nat (length bs) < 2 ^ 63 -> framed bs.

Lemma framed_encString b : isBytes b -> Z.of_nat (length (encString b)) < 2 ^ 63 -> framed (encString b).
Proof.
  intros Hb Hl. pose proof (encodeString_length b). destruct (single b) eqn:Es.
  - destruct (encString_single b Hb Es) as (x & -> & Hx & Eh). rewrite Eh. exists KByte, 0, x, []. by rewrite app_nil_r.
  - rewrite encString_head by done. exists KString, (Z.of_nat (length b)), 0, b. split_and!; try done. cbn. unfold in_u64. lia.
Qed.
Lemma framed_encList p : Z.of_nat (length (encList p)) < 2 ^ 63 -> framed (encList p).
Proof.
  intros Hl. exists KList, (Z.of_nat (length p)), 0, p. unfold encList in *. rewrite length_app in Hl. split_and!; try done. cbn. unfold in_u64. lia.
Qed.
Lemma framed_isRaw bs : isRaw bs -> framed bs.
Proof. intros (k & sz & bv & p & Hh & Hl & _ & ->). by exists k, sz, bv, p. Qed.
#[export] Hint Resolve framed_encString framed_encList framed_isRaw : core.

Record decodes (B : nat) {A} (op : M derr A) (F : A -> list Z -> Prop) : Prop := {
  dc_ok : forall s a bs, ready B s -> F a bs -> ahead bs s -> exists t, op s = Ok (t, inl a) /\ moved (Z.of_nat (length bs)) s t;
  dc_inv : forall s t a, ready B s -> op s = Ok (t, inl a) -> exists bs, F a bs /\ ahead bs s /\ moved (Z.of_nat (length bs)) s t;
  dc_end : forall s, ready B s -> ended s -> exists t, op s = Ok (t, inr (Plain EOL)) /\ moved 0 s t;
  dc_eol : forall s t, ready B s -> op s = Ok (t, inr (Plain EOL)) -> ended s;
  dc_returns : forall s, ready B s -> returns op s;
  dc_again : forall s t r, Kind_ s = Ok (t, inl r) -> op t = op s;
  dc_kind : forall s t a, op s = Ok (t, inl a) -> exists u r, Kind_ s = Ok (u, inl r);
  dc_some : forall a bs, F a bs -> bs <> [];
  dc_framed : forall a, framing (F a)
}.

Lemma ready_moved B n s t : ready B s -> room s n -> moved n s t -> ready B t.
Proof.
  intros (Hok & Hk & Hl) Hr Hm. split; [by eapply moved_ok|]. split; [apply Hm|]. rewrite (mv_rest _ _ _ Hm), length_drop. lia.
Qed.

Lemma decodes_le B B' {A} (op : M derr A) F : (B' <= B)%nat -> decodes B op F -> decodes B' op F.
Proof.
  assert (forall s, (B' <= B)%nat -> ready B' s -> ready B s) as Hr by (intros s Hle (? & ? & ?); split_and!; [done|done|lia]).
  intros Hle [P1 P2 P3 P4 P5 P6 P6' P7 P8]. split; eauto.
Qed.

Lemma decodes_ext B {A} (op : M derr A) F G : (forall a bs, F a bs <-> G a bs) -> decodes B op F -> decodes B op G.
Proof.
  intros HFG [P1 P2 P3 P4 P5 P6 P6' P7 P8]. split; try done.
  - intros s a bs Hr HG. apply P1; [done|by apply HFG].
  - intros s t a Hr H. destruct (P2 s t a Hr H) as (bs & HF & H'). exists bs. split; [by apply HFG|done].
  - intros a bs HG. apply (P7 a). by apply HFG.
  - intros a bs HG. apply (P8 a). by apply HFG.
Qed.

Lemma decodes_eq B {A} (op op' : M derr A) F : (forall s, op' s = op s) -> decodes B op F -> decodes B op' F.
Proof.
  intros He [P1 P2 P3 P4 P5 P6 P6' P7 P8]. split; [..|exact P7|exact P8].
  - intros s a bs. rewrite He. apply P1.
  - intros s t a. rewrite He. apply P2.
  - intros s. rewrite He. apply P3.
  - intros s t. rewrite He. apply P4.
  - intros s Hr. destruct (P5 s Hr) as (t & r & H). exists t, r. by rewrite He.
  - intros s t r H. rewrite !He. by eapply P6.
  - intros s t a. rewrite He. apply P6'.
Qed.

(** ** Errors that pass through *)

(** The end of a list stays what it is, and nothing else becomes it. *)
Definition keepsEOL (w : error -> derr) : Prop := forall e, w e = Plain EOL <-> e = EOL.

Lemma keepsEOL_Plain : keepsEOL Plain.
Proof. intros e. split; [by intros [= ->]|by intros ->]. Qed.
Lemma keepsEOL_wrap t : keepsEOL (wrapStreamError t).
Proof.
  intros e. unfold wrapStreamError. split; [|by intros ->]. repeat (case_match; [done|]). by intros [= ->].
Qed.
#[export] Hint Resolve keepsEOL_Plain keepsEOL_wrap : core.

Lemma isEOL_spec e : isEOL e = true <-> e = Plain EOL.
Proof. destruct e as [e|]; cbn; [|done]. rewrite String.eqb_eq. split; [by intros ->|by intros [= ->]]. Qed.

Lemma onErr_ok {A} w (m : M error A) s t a : m s = Ok (t, inl a) <-> onErr w m s = Ok (t, inl a).
Proof. unfold onErr. by destruct (m s) as [[u [x|e]]| |]; split; intros [= <- <-]. Qed.
Lemma onErr_err {A} w (m : M error A) s t e : m s = Ok (t, inr e) -> onErr w m s = Ok (t, inr (w e)).
Proof. intros H. unfold onErr. by rewrite H. Qed.
Lemma onErr_eol {A} w (m : M error A) s t : keepsEOL w -> onErr w m s = Ok (t, inr (Plain EOL)) -> m s = Ok (t, inr EOL).
Proof. intros Hw. unfold onErr. destruct (m s) as [[u [x|e]]| |]; try done. intros [= <- H]. by apply Hw in H as ->. Qed.
Lemma onErr_returns {A} w (m : M error A) s : returns m s -> returns (onErr w m) s.
Proof. intros (t & [a|e] & H); [eapply returns_ok, onErr_ok, H|eapply returns_ok, onErr_err, H]. Qed.
Lemma onErr_again {A} w (m : M error A) s t : m t = m s -> onErr w m t = onErr w m s.
Proof. intros H. unfold onErr. by rewrite H. Qed.

(** A value read from the stream and put into a Go value. *)
Lemma decodes_parses B {A C} (m : M error A) F w (g : A -> C) : parses EOL m F -> keepsEOL w -> (forall a, framing (F a)) ->
  decodes B (a ← onErr w m; mret (g a)) (fun c bs => exists a, F a bs /\ c = g a).
Proof.
  intros [P1 P2 P3 P4 P5 P6 P6' P7] Hw P8. split.
  - intros s c bs (Hok & Hk & _) (a & HF & ->) Ha. destruct (P1 s a bs Hok Hk HF Ha) as (t & E & Hm). exists t. split; [|done].
    by rewrite (bind_ok _ _ _ _ _ (proj1 (onErr_ok w _ _ _ _) E)).
  - intros s t c (Hok & Hk & _) H. apply stream_bind_inv in H as (u & a & E & H). injection H as <- <-. apply onErr_ok in E.
    destruct (P2 s u a Hok Hk E) as (bs & HF & H'). eauto.
  - intros s (_ & Hk & _) He. destruct (P3 s Hk He) as (t & E & Hm). exists t. split; [|done]. apply bind_err. rewrite (onErr_err w _ _ _ _ E). by rewrite (proj2 (Hw EOL)).
  - intros s t (Hok & Hk & _) H. unfold mbind, M_bind in H. destruct (onErr w m s) as [[u [a|e]]| |] eqn:E; try done. injection H as -> ->.
    apply onErr_eol in E; [|done]. by eapply P4.
  - intros s (Hok & Hk & _). apply returns_bind; [by apply onErr_returns, P5|]. intros t a _. by eapply returns_ok.
  - intros s t r H. unfold mbind, M_bind. by rewrite (onErr_again w m s t (P6 s t r H)).
  - intros s t c (u & a & H & _)%stream_bind_inv. apply onErr_ok in H. by eapply P6'.
  - intros c bs (a & HF & _). by eapply P7.
  - intros c bs (a & HF & _). by eapply P8.
Qed.

(** ** Lists *)

Definition inlist (s : Stream) : Prop := stack s <> [].

Lemma inlist_moved n s t : moved n s t -> inlist s -> inlist t.
Proof. intros Hm. unfold inlist. rewrite (mv_stack _ _ _ Hm). by destruct (stack s). Qed.

Lemma inlist_ended s : streamOk s -> inlist s -> ended s <-> avail s = 0.
Proof. intros _. unfold inlist, ended, avail. destruct (stack s); [done|]. lia. Qed.

(** [body sz] reads the content of a list of [sz] bytes. *)
Record fills (B : nat) {A} (body : Z -> M derr A) (G : A -> list Z -> Prop) : Prop := {
  fl_ok : forall s a p, ready B s -> inlist s -> avail s = Z.of_nat (length p) -> G a p -> ahead p s ->
    exists t, body (avail s) s = Ok (t, inl a) /\ moved (Z.of_nat (length p)) s t;
  fl_inv : forall s t a, ready B s -> inlist s -> body (avail s) s = Ok (t, inl a) ->
    exists p, G a p /\ ahead p s /\ moved (Z.of_nat (length p)) s t;
  fl_returns : forall s, ready B s -> inlist s -> exists t r, body (avail s) s = Ok (t, r) /\ r <> inr (Plain EOL)
}.

Lemma listHead_length sz : (1 <= length (listHead sz))%nat.
Proof. unfold listHead. destruct (headOf_cons KList sz 0) as (b & tl & ->). cbn. lia. Qed.

Lemma encList_head p : encList p = listHead (Z.of_nat (length p)) ++ p.
Proof. done. Qed.

Section ListDecoder.
Context (B : nat) {A C : Type} (body : Z -> M derr A) (G : A -> list Z -> Prop) (w w' : error -> derr) (g : A -> C).
Hypothesis Hfills : fills B body G.
Hypothesis Hw : keepsEOL w.
Hypothesis Hw' : keepsEOL w'.

Definition listDecoder : M derr C := sz ← onErr w List; a ← body sz; onErr w' ListEnd;; mret (g a).

Lemma inside_ready s t sz : ready (S B) s -> comes KList sz 0 s -> inside (Z.of_nat (length (listHead sz))) sz s t ->
  ready B t /\ inlist t /\ avail t = sz.
Proof.
  intros (Hok & Hk & Hl) Hc Hin. pose proof (inside_ok s t sz Hok Hc Hin) as Hok'. pose proof (listHead_length sz). pose proof (inside_room s sz Hc) as [Hr _].
  unfold inlist, avail. rewrite (in_stack _ _ _ _ Hin). split_and!; [|done|cbn; lia]. split; [done|]. split; [apply Hin|].
  rewrite (in_rest _ _ _ _ Hin), length_drop. lia.
Qed.

Lemma listDecoder_ok s a p : ready (S B) s -> G a p -> ahead (encList p) s ->
  exists t, listDecoder s = Ok (t, inl (g a)) /\ moved (Z.of_nat (length (encList p))) s t.
Proof.
  intros Hr HG Ha. pose proof Hr as (Hok & Hk & Hl). rewrite encList_head in *. assert (comes KList (Z.of_nat (length p)) 0 s) as Hc by (by apply comes_sized).
  destruct (List_ok s _ Hok Hk Hc) as (t & E & Hin). destruct (inside_ready _ _ _ Hr Hc Hin) as (Hrt & Hlt & Hav).
  apply (inside_ahead s t _ Hc Hin p eq_refl) in Ha. destruct (fl_ok _ _ _ Hfills t a p Hrt Hlt Hav HG Ha) as (u & Eu & Hm). rewrite Hav in Eu.
  destruct (ListEnd_at s t _ Hok Hc Hin u Hm) as (v & Ev & Hmv). exists v. rewrite length_app, Nat2Z.inj_add. split; [|done]. unfold listDecoder.
  rewrite (bind_ok _ _ _ _ _ (proj1 (onErr_ok w _ _ _ _) E)), (bind_ok _ _ _ _ _ Eu), (bind_ok _ _ _ _ _ (proj1 (onErr_ok w' _ _ _ _) Ev)). done.
Qed.

Lemma listDecoder_inv s t c : ready (S B) s -> listDecoder s = Ok (t, inl c) ->
  exists a p, c = g a /\ G a p /\ ahead (encList p) s /\ moved (Z.of_nat (length (encList p))) s t.
Proof.
  intros Hr H. pose proof Hr as (Hok & Hk & Hl). unfold listDecoder in H. apply stream_bind_inv in H as (u & sz & E & H). apply onErr_ok in E.
  destruct (List_inv s u sz Hok Hk E) as [Hc Hin]. destruct (inside_ready _ _ _ Hr Hc Hin) as (Hru & Hlu & Hav).
  apply stream_bind_inv in H as (v & a & Eu & H). rewrite <- Hav in Eu. destruct (fl_inv _ _ _ Hfills u v a Hru Hlu Eu) as (p & HG & Ha & Hm).
  apply stream_bind_inv in H as (x & [] & Ev & H). injection H as -> <-. apply onErr_ok in Ev.
  destruct (decide (Z.of_nat (length p) = sz)) as [Hsz|Hne]; [|by rewrite (ListEnd_not s u sz Hin v (Z.of_nat (length p)) ltac:(lia) Hm Hne) in Ev].
  rewrite Hsz in Hm. destruct (ListEnd_at s u _ Hok Hc Hin v Hm) as (y & Ey & Hmv). rewrite Ev in Ey. injection Ey as <-.
  exists a, p. rewrite encList_head, Hsz, length_app, Nat2Z.inj_add, Hsz. split_and!; try done. by apply (inside_ahead s u sz Hc Hin p Hsz).
Qed.

Lemma listDecoder_end s : kind s = None -> ended s -> exists t, listDecoder s = Ok (t, inr (Plain EOL)) /\ moved 0 s t.
Proof.
  intros Hk He. exists (set_kinderr None s). split.
  - unfold listDecoder. apply bind_err. rewrite (onErr_err w List s (set_kinderr None s) EOL); [by rewrite (proj2 (Hw EOL))|]. by apply bind_err, Kind_ended.
  - split; cbn; try done; [lia|by rewrite bump_0].
Qed.

(** [ListEnd] returns. *)
Lemma ListEnd_returns u : exists t r, onErr w' ListEnd u = Ok (t, r) /\ r <> inr (Plain EOL).
Proof.
  unfold onErr, ListEnd, mbind, M_bind, gets, modify, throw, mret, M_ret. destruct (stack u) as [|tos st].
  - do 2 eexists. split; [done|]. intros [= H]. by apply Hw' in H.
  - destruct (negb _); do 2 eexists; (split; [done|]); [intros [= H]; by apply Hw' in H|done].
Qed.

(** The call returns; the end of the list around it is only reported from
    there. *)
Lemma listDecoder_runs s : ready (S B) s -> exists t r, listDecoder s = Ok (t, r) /\ (r = inr (Plain EOL) -> ended s).
Proof.
  intros Hr. pose proof Hr as (Hok & Hk & Hl). unfold listDecoder. destruct (List_returns s Hok Hk) as (u & [sz|e] & E & He).
  - rewrite (bind_ok _ _ _ _ _ (proj1 (onErr_ok w _ _ _ _) E)). destruct (List_inv s u sz Hok Hk E) as [Hc Hin].
    destruct (inside_ready _ _ _ Hr Hc Hin) as (Hru & Hlu & Hav). destruct (fl_returns _ _ _ Hfills u Hru Hlu) as (v & [a|e] & Eu & Hn); rewrite Hav in Eu.
    + rewrite (bind_ok _ _ _ _ _ Eu). destruct (ListEnd_returns v) as (x & [[]|e] & Ev & Hx).
      * rewrite (bind_ok _ _ _ _ _ Ev). do 2 eexists. split; [done|]. intros H. discriminate H.
      * rewrite (bind_err _ _ _ _ _ Ev). do 2 eexists. split; [done|]. intros [= ->]. done.
    + rewrite (bind_err _ _ _ _ _ Eu). do 2 eexists. split; [done|]. intros [= ->]. done.
  - rewrite (bind_err _ _ _ _ _ (onErr_err w _ _ _ _ E)). do 2 eexists. split; [done|]. intros [= H]. apply Hw in H as ->. by apply He.
Qed.

Lemma listDecoder_again s t r : Kind_ s = Ok (t, inl r) -> listDecoder t = listDecoder s.
Proof.
  intros H. unfold listDecoder. unfold mbind at 1 3, M_bind at 1 3. rewrite (onErr_again w List s t); [done|].
  unfold List. by rewrite (bind_ok _ _ _ _ _ H), (bind_ok _ _ _ _ _ (Kind_again _ _ _ H)).
Qed.

Lemma listDecoder_decodes : decodes (S B) listDecoder (fun c bs => exists a p, c = g a /\ G a p /\ bs = encList p).
Proof.
  split.
  - intros s c bs Hr (a & p & -> & HG & ->). by apply listDecoder_ok.
  - intros s t c Hr H. destruct (listDecoder_inv s t c Hr H) as (a & p & -> & HG & H'). exists (encList p). eauto 10.
  - intros s (_ & Hk & _). by apply listDecoder_end.
  - intros s t Hr H. destruct (listDecoder_runs s Hr) as (u & r & E & He). rewrite E in H. injection H as -> ->. by apply He.
  - intros s Hr. destruct (listDecoder_runs s Hr) as (u & r & E & _). by eapply returns_ok.
  - apply listDecoder_again.
  - intros s t c (u & a & H & _)%stream_bind_inv. apply onErr_ok in H. apply stream_bind_inv in H as (v & r & H & _). eauto.
  - intros c bs (a & p & _ & _ & ->). apply encList_nonempty.
  - intros c bs (a & p & _ & _ & ->). apply framed_encList.
Qed.
End ListDecoder.

(** ** Elements *)

Lemma bind_try_ok {A C} (m : M derr A) (f : A + derr -> M derr C) s t r : m s = Ok (t, r) -> (try m ≫= f) s = f r t.
Proof. intros H. by rewrite (bind_ok _ _ _ _ _ (try_ok _ _ _ _ H)). Qed.

Lemma decodes_eol_moved B {A} (op : M derr A) F s t : decodes B op F -> ready B s -> op s = Ok (t, inr (Plain EOL)) -> ended s /\ moved 0 s t.
Proof.
  intros Hd Hr H. pose proof (dc_eol _ _ _ Hd s t Hr H) as He. split; [done|]. destruct (dc_end _ _ _ Hd s Hr He) as (u & E & Hm).
  rewrite E in H. by injection H as <-.
Qed.

Lemma Forall2_nonempty {A} (F : A -> list Z -> Prop) vs bss : (forall a bs, F a bs -> bs <> []) -> Forall2 F vs bss -> (length vs <= length (concat bss))%nat.
Proof.
  intros HF. induction 1 as [|v bs vs bss Hv Hvs IH]; [done|]. cbn. rewrite length_app. apply HF in Hv. destruct bs; [done|]. cbn. lia.
Qed.

Lemma ahead_nil s : streamOk s -> ahead [] s.
Proof. intros []. split; [done|]. unfold room, avail. destruct (stack s); cbn in *; lia. Qed.

Lemma ahead_cons a b s t B {A} (op : M derr A) F x : decodes B op F -> ready B s -> F x a -> ahead (a ++ b) s -> op s = Ok (t, inl x) -> moved (Z.of_nat (length a)) s t ->
  ahead b t /\ ready B t.
Proof.
  intros Hd Hr HF Ha E Hm. apply (ahead_app a b s t Hm) in Ha as [Ha Hb]. split; [done|]. eapply ready_moved; [done|apply Ha|done].
Qed.

Section Elems.
Context `{U : Uint256} (B : nat) (elemdec : decoder) (Fe : gval -> list Z -> Prop).
Hypothesis Hd : decodes B elemdec Fe.

(** The concatenation of the elements' encodings. *)
Definition elemsOf (vs : list gval) (p : list Z) : Prop := exists bss, Forall2 Fe vs bss /\ p = concat bss.

Lemma elemsOf_cons v vs bs p : Fe v bs -> elemsOf vs p -> elemsOf (v :: vs) (bs ++ p).
Proof. intros Hv (bss & H & ->). exists (bs :: bss). split; [by constructor|done]. Qed.

Lemma slice_loop_ok vs bss : Forall2 Fe vs bss -> forall n i s, (length vs < n)%nat -> ready B s -> inlist s -> avail s = Z.of_nat (length (concat bss)) ->
  ahead (concat bss) s -> exists t, decodeSliceElems_loop n i elemdec s = Ok (t, inl vs) /\ moved (Z.of_nat (length (concat bss))) s t.
Proof.
  induction 1 as [|v bs vs bss Hv Hvs IH]; intros n i s Hn Hr Hl Hav Ha; (destruct n as [|n]; [cbn in Hn; lia|]); cbn [decodeSliceElems_loop concat] in *.
  - destruct (dc_end _ _ _ Hd s Hr) as (t & E & Hm); [apply inlist_ended; [apply Hr|done|done]|]. exists t. by rewrite (bind_try_ok _ _ _ _ _ E).
  - pose proof (proj1 (ahead_app bs (concat bss) s (advance (Z.of_nat (length bs)) s) ltac:(done)) Ha) as [Hb _].
    destruct (dc_ok _ _ _ Hd s v bs Hr Hv Hb) as (t & E & Hm). destruct (ahead_cons _ _ _ _ _ _ _ _ Hd Hr Hv Ha E Hm) as [Ha' Hr'].
    pose proof (moved_avail _ s t (proj1 (proj2 Hb)) Hm) as Hav'. rewrite length_app, Nat2Z.inj_add in Hav |- *.
    destruct (IH n (S i) t) as (u & Eu & Hmu); [cbn in Hn; lia|done|by eapply inlist_moved|lia|done|]. exists u.
    rewrite (bind_try_ok _ _ _ _ _ E), (bind_ok _ _ _ _ _ Eu). split; [done|]. by eapply moved_trans; [lia|lia|..].
Qed.

Lemma slice_loop_inv n : forall i s t vs, ready B s -> decodeSliceElems_loop n i elemdec s = Ok (t, inl vs) ->
  exists p, elemsOf vs p /\ ahead p s /\ moved (Z.of_nat (length p)) s t.
Proof.
  induction n as [|n IH]; intros i s t vs Hr H; [done|]. cbn [decodeSliceElems_loop] in H. destruct (dc_returns _ _ _ Hd s Hr) as (u & r & E).
  rewrite (bind_try_ok _ _ _ _ _ E) in H. destruct r as [v|e].
  - apply stream_bind_inv in H as (x & l & El & H). injection H as -> <-. destruct (dc_inv _ _ _ Hd s u v Hr E) as (bs & HF & Ha & Hm).
    assert (ready B u) as Hru by (eapply ready_moved; [done|apply Ha|done]).
    destruct (IH (S i) u t l Hru El) as (p & Hp & Hap & Hmp). exists (bs ++ p). split; [by apply elemsOf_cons|]. split; [by apply (ahead_app bs p s u Hm)|].
    rewrite length_app, Nat2Z.inj_add. by eapply moved_trans; [lia|lia|..].
  - destruct (isEOL e) eqn:He; [|done]. injection H as -> <-. apply isEOL_spec in He as ->. destruct (decodes_eol_moved _ _ _ _ _ Hd Hr E) as [_ Hm].
    exists []. split; [by exists []|]. split; [apply ahead_nil, Hr|done].
Qed.

Lemma slice_loop_returns n : forall i s, ready B s -> (length (rest s) < n)%nat ->
  exists t r, decodeSliceElems_loop n i elemdec s = Ok (t, r) /\ r <> inr (Plain EOL).
Proof.
  induction n as [|n IH]; intros i s Hr Hn; [lia|]. cbn [decodeSliceElems_loop]. destruct (dc_returns _ _ _ Hd s Hr) as (u & r & E).
  rewrite (bind_try_ok _ _ _ _ _ E). destruct r as [v|e].
  - destruct (dc_inv _ _ _ Hd s u v Hr E) as (bs & HF & Ha & Hm). assert (ready B u) as Hru by (eapply ready_moved; [done|apply Ha|done]).
    pose proof (dc_some _ _ _ Hd v bs HF) as Hs. destruct Ha as [_ [Hr1 _]].
    destruct (IH (S i) u Hru) as (x & [l|e] & El & Hx).
    { rewrite (mv_rest _ _ _ Hm), length_drop. destruct bs; [done|]. cbn in *. lia. }
    + rewrite (bind_ok _ _ _ _ _ El). by do 2 eexists.
    + rewrite (bind_err _ _ _ _ _ El). do 2 eexists. split; [done|congruence].
  - destruct (isEOL e) eqn:He; [by do 2 eexists|]. do 2 eexists. split; [done|]. intros [= H]. destruct e as [e|]; cbn in *; [|done].
    injection H as ->. done.
Qed.

Lemma slice_fills fuel : (B <= fuel)%nat ->
  fills B (fun sz => if sz =? 0 then mret [] else decodeSliceElems fuel elemdec) elemsOf.
Proof.
  intros HB. split.
  - intros s vs p Hr Hl Hav (bss & HF & ->) Ha. destruct (Z.eqb_spec (avail s) 0) as [Hz|Hz].
    + assert (vs = []) as ->. { pose proof (Forall2_nonempty _ _ _ (dc_some _ _ _ Hd) HF). destruct vs; [done|]. cbn in *. lia. }
      exists s. split; [done|]. rewrite <- Hav, Hz. split; try done; [apply Hr|lia|by rewrite bump_0].
    + apply slice_loop_ok; try done. pose proof (Forall2_nonempty _ _ _ (dc_some _ _ _ Hd) HF). destruct Hr as (_ & _ & Hr), Ha as [_ [Ha _]]. lia.
  - intros s t vs Hr Hl H. destruct (Z.eqb_spec (avail s) 0) as [Hz|Hz]; [|by apply slice_loop_inv in H].
    injection H as <- <-. exists []. split; [by exists []|]. split; [apply ahead_nil, Hr|]. split; try done; [apply Hr|cbn; lia|by rewrite bump_0].
  - intros s Hr Hl. destruct (_ =? 0); [by do 2 eexists|]. apply slice_loop_returns; [done|]. destruct Hr as (_ & _ & Hr). lia.
Qed.

Lemma decodeListSlice_decodes fuel t : (B <= fuel)%nat ->
  decodes (S B) (decodeListSlice fuel t elemdec) (fun v bs => exists vs p, v = GSlice vs /\ elemsOf vs p /\ bs = encList p).
Proof.
  intros HB. pose proof (listDecoder_decodes B _ _ (wrapStreamError t) Plain GSlice (slice_fills fuel HB) ltac:(auto) ltac:(auto)) as H.
  eapply decodes_eq; [|exact H]. intros s. unfold decodeListSlice, listDecoder, mbind, M_bind.
  destruct (onErr (wrapStreamError t) List s) as [[u [sz|e]]| |]; try done. by destruct (sz =? 0).
Qed.

(** Arrays have as many elements as their type says. *)
Lemma array_loop_ok vs bss : Forall2 Fe vs bss -> forall i s, ready B s -> ahead (concat bss) s ->
  exists t, decodeArrayElems (length vs) i elemdec s = Ok (t, inl (Some vs)) /\ moved (Z.of_nat (length (concat bss))) s t.
Proof.
  induction 1 as [|v bs vs bss Hv Hvs IH]; intros i s Hr Ha; cbn [decodeArrayElems concat length] in *.
  - exists s. split; [done|]. split; try done; [apply Hr|cbn; lia|by rewrite bump_0].
  - pose proof (proj1 (ahead_app bs (concat bss) s (advance (Z.of_nat (length bs)) s) ltac:(done)) Ha) as [Hb _].
    destruct (dc_ok _ _ _ Hd s v bs Hr Hv Hb) as (t & E & Hm). destruct (ahead_cons _ _ _ _ _ _ _ _ Hd Hr Hv Ha E Hm) as [Ha' Hr'].
    rewrite length_app, Nat2Z.inj_add. destruct (IH (S i) t Hr' Ha') as (u & Eu & Hmu). exists u.
    rewrite (bind_try_ok _ _ _ _ _ E), (bind_ok _ _ _ _ _ Eu). split; [done|]. by eapply moved_trans; [lia|lia|..].
Qed.

Lemma array_loop_inv n : forall i s t vs, ready B s -> decodeArrayElems n i elemdec s = Ok (t, inl (Some vs)) ->
  exists p, length vs = n /\ elemsOf vs p /\ ahead p s /\ moved (Z.of_nat (length p)) s t.
Proof.
  induction n as [|n IH]; intros i s t vs Hr H; cbn [decodeArrayElems] in H.
  - injection H as <- <-. exists []. split; [done|]. split; [by exists []|]. split; [apply ahead_nil, Hr|]. split; try done; [apply Hr|cbn; lia|by rewrite bump_0].
  - destruct (dc_returns _ _ _ Hd s Hr) as (u & r & E). rewrite (bind_try_ok _ _ _ _ _ E) in H. destruct r as [v|e]; [|by destruct (isEOL e)].
    apply stream_bind_inv in H as (x & [l|] & El & H); [|done]. injection H as -> <-. destruct (dc_inv _ _ _ Hd s u v Hr E) as (bs & HF & Ha & Hm).
    assert (ready B u) as Hru by (eapply ready_moved; [done|apply Ha|done]).
    destruct (IH (S i) u t l Hru El) as (p & Hn & Hp & Hap & Hmp). exists (bs ++ p). split; [cbn; by rewrite Hn|]. split; [by apply elemsOf_cons|].
    split; [by apply (ahead_app bs p s u Hm)|]. rewrite length_app, Nat2Z.inj_add. by eapply moved_trans; [lia|lia|..].
Qed.

Lemma addErrorContext_EOL c e : isEOL e = false -> addErrorContext c e <> Plain EOL.
Proof. intros He H. destruct e as [e|]; cbn in *; [|done]. injection H as ->. done. Qed.

Lemma array_loop_returns n : forall i s, ready B s -> exists t r, decodeArrayElems n i elemdec s = Ok (t, r) /\ r <> inr (Plain EOL).
Proof.
  induction n as [|n IH]; intros i s Hr; cbn [decodeArrayElems]; [by do 2 eexists|]. destruct (dc_returns _ _ _ Hd s Hr) as (u & r & E).
  rewrite (bind_try_ok _ _ _ _ _ E). destruct r as [v|e].
  - destruct (dc_inv _ _ _ Hd s u v Hr E) as (bs & HF & Ha & Hm). assert (ready B u) as Hru by (eapply ready_moved; [done|apply Ha|done]).
    destruct (IH (S i) u Hru) as (x & [l|e] & El & Hx); [rewrite (bind_ok _ _ _ _ _ El); by do 2 eexists|].
    rewrite (bind_err _ _ _ _ _ El). do 2 eexists. split; [done|congruence].
  - destruct (isEOL e) eqn:He; [by do 2 eexists|]. do 2 eexists. split; [done|]. intros [= H]. by eapply addErrorContext_EOL.
Qed.

Lemma array_fills t n : fills B (fun _ => l ← decodeArrayElems n 0 elemdec;
  match l with None => throw (DecodeError "input list has too few elements" t []) | Some l => mret l end)
  (fun vs p => length vs = n /\ elemsOf vs p).
Proof.
  split.
  - intros s vs p Hr Hl Hav (<- & bss & HF & ->) Ha. destruct (array_loop_ok vs bss HF 0 s Hr Ha) as (u & E & Hm). exists u. by rewrite (bind_ok _ _ _ _ _ E).
  - intros s u vs Hr Hl H. apply stream_bind_inv in H as (x & [l|] & E & H); [|done]. injection H as -> ->.
    destruct (array_loop_inv n 0 s u vs Hr E) as (p & Hn & Hp & H'). eauto.
  - intros s Hr Hl. destruct (array_loop_returns n 0 s Hr) as (u & [[l|]|e] & E & Hn).
    + rewrite (bind_ok _ _ _ _ _ E). by do 2 eexists.
    + rewrite (bind_ok _ _ _ _ _ E). by do 2 eexists.
    + rewrite (bind_err _ _ _ _ _ E). do 2 eexists. split; [done|congruence].
Qed.

Lemma decodeListArray_decodes t n :
  decodes (S B) (decodeListArray t n elemdec) (fun v bs => exists vs p, v = GList vs /\ (length vs = n /\ elemsOf vs p) /\ bs = encList p).
Proof.
  pose proof (listDecoder_decodes B _ _ (wrapStreamError t) (wrapStreamError t) GList (array_fills t n) ltac:(auto) ltac:(auto)) as H.
  eapply decodes_eq; [|exact H]. intros s. unfold decodeListArray, listDecoder, mbind, M_bind.
  destruct (onErr (wrapStreamError t) List s) as [[u [sz|e]]| |]; try done. by destruct (decodeArrayElems n 0 elemdec u) as [[v [[l|]|e]]| |].
Qed.
End Elems.

(** ** Decoders that look at the kind *)

Definition settles {A} (m : M derr A) (s : Stream) : Prop := exists t r, m s = Ok (t, r) /\ r <> inr (Plain EOL).

Lemma settles_ok {A} (m : M derr A) s t a : m s = Ok (t, inl a) -> settles m s.
Proof. intros H. by exists t, (inl a). Qed.
Lemma settles_err {A} (m : M derr A) s t e : m s = Ok (t, inr e) -> e <> Plain EOL -> settles m s.
Proof. intros H He. exists t, (inr e). split; [done|congruence]. Qed.
Lemma settles_bind {A C} (m : M derr A) (f : A -> M derr C) s : settles m s -> (forall t a, m s = Ok (t, inl a) -> settles (f a) t) -> settles (m ≫= f) s.
Proof.
  intros (t & [a|e] & H & He) Hf; [|eapply settles_err; [by apply bind_err|congruence]].
  destruct (Hf t a H) as (u & r & Hr & Hn). exists u, r. by rewrite (bind_ok _ _ _ _ _ H).
Qed.
Lemma settles_onErr {A} w (m : M error A) s : keepsEOL w -> proper m s -> settles (onErr w m) s.
Proof.
  intros Hw (t & [a|e] & H & He); [by eapply settles_ok, onErr_ok|]. eapply settles_err; [by apply onErr_err|]. rewrite (Hw e). congruence.
Qed.

Lemma decodes_Kind B {A} w (f : Kind * Z -> M derr A) (F : A -> list Z -> Prop) : keepsEOL w ->
  (forall s a bs, ready B s -> F a bs -> ahead bs s -> exists k sz bv, comes k sz bv s /\
    forall s1, Kind_ s = Ok (s1, inl (k, sz)) -> staged s k sz bv s1 -> exists t, f (k, sz) s1 = Ok (t, inl a) /\ moved (Z.of_nat (length bs)) s t) ->
  (forall s s1 k sz bv t a, ready B s -> comes k sz bv s -> Kind_ s = Ok (s1, inl (k, sz)) -> staged s k sz bv s1 -> f (k, sz) s1 = Ok (t, inl a) ->
    exists bs, F a bs /\ ahead bs s /\ moved (Z.of_nat (length bs)) s t) ->
  (forall s s1 k sz bv, ready B s -> comes k sz bv s -> Kind_ s = Ok (s1, inl (k, sz)) -> staged s k sz bv s1 -> settles (f (k, sz)) s1) ->
  (forall a bs, F a bs -> bs <> []) -> (forall a, framing (F a)) ->
  decodes B (onErr w Kind_ ≫= f) F.
Proof.
  intros Hw Hf Hi Hp Hs Hfr. split; [| | | | | | |done|done].
  - intros s a bs Hr HF Ha. pose proof Hr as (Hok & Hk & _). destruct (Hf s a bs Hr HF Ha) as (k & sz & bv & Hc & H).
    destruct (Kind_ok k sz bv s Hok Hk Hc) as (s1 & E & Hst). rewrite (bind_ok _ _ _ _ _ (proj1 (onErr_ok w _ _ _ _) E)). by apply H.
  - intros s t a Hr H. pose proof Hr as (Hok & Hk & _). apply stream_bind_inv in H as (s1 & [k sz] & E & H). apply onErr_ok in E.
    destruct (Kind_inv s s1 k sz Hok Hk E) as (bv & Hc & Hst). by eapply Hi.
  - intros s (_ & Hk & _) He. exists (set_kinderr None s). split; [|split; cbn; try done; [lia|by rewrite bump_0]].
    apply bind_err. rewrite (onErr_err w _ _ _ _ (Kind_ended s Hk He)). by rewrite (proj2 (Hw EOL)).
  - intros s t Hr H. pose proof Hr as (Hok & Hk & _). destruct (Kind_returns s Hok Hk) as (u & [[k sz]|e] & E & He).
    + destruct (Kind_inv s u k sz Hok Hk E) as (bv & Hc & Hst). rewrite (bind_ok _ _ _ _ _ (proj1 (onErr_ok w _ _ _ _) E)) in H.
      destruct (Hp s u k sz bv Hr Hc E Hst) as (v & r & E2 & Hn). rewrite E2 in H. by injection H as -> ->.
    + rewrite (bind_err _ _ _ _ _ (onErr_err w _ _ _ _ E)) in H. injection H as -> H. apply Hw in H as ->. by apply He.
  - intros s Hr. pose proof Hr as (Hok & Hk & _). destruct (Kind_returns s Hok Hk) as (u & [[k sz]|e] & E & _); [|eapply returns_ok; by apply bind_err, onErr_err].
    destruct (Kind_inv s u k sz Hok Hk E) as (bv & Hc & Hst). destruct (Hp s u k sz bv Hr Hc E Hst) as (v & r & E2 & _).
    exists v, r. by rewrite (bind_ok _ _ _ _ _ (proj1 (onErr_ok w _ _ _ _) E)).
  - intros s t r H. unfold mbind, M_bind. by rewrite (onErr_again w Kind_ s t) by (by rewrite H, (Kind_again _ _ _ H)).
  - intros s t a (u & r & H & _)%stream_bind_inv. apply onErr_ok in H. eauto.
Qed.

Section Kinds.
Context `{U : Uint256}.

(** Byte arrays.  An array of one byte that is zero leaves the stream where it
    was, so length 1 is left out. *)
Lemma decodeByteArray_decodes B t n : n <> 1%nat ->
  decodes B (decodeByteArray t n) (fun v bs => exists b, v = GBytes b /\ length b = n /\ isBytes b /\ bs = encString b).
Proof.
  intros Hn. unfold decodeByteArray. apply decodes_Kind; [auto|..].
  - intros s v bs (Hok & _) (b & -> & Hl & Hb & ->) Ha.
    assert (single b = false) as Hs by (destruct b as [|x [|y b]]; cbn in *; try done; lia).
    destruct (string_ok s b Hok Hb Ha Hs) as [Hc H]. exists KString, (Z.of_nat (length b)), 0. split; [done|]. intros s1 _ Hst.
    destruct (H s1 Hst) as (u & E & Hm). exists u. split; [|done]. rewrite Hl in *. rewrite (proj2 (Z.ltb_ge _ _)) by lia.
    rewrite (bind_ok _ _ _ _ _ (proj1 (onErr_ok Plain _ _ _ _) E)). destruct b as [|x [|y b]]; cbn in *; done || lia.
  - intros s s1 k sz bv u v (Hok & _) Hc _ Hst H. destruct k; [| |done].
    + destruct (Nat.eqb_spec n 0); [done|]. destruct (Nat.ltb_spec 1 n); [done|lia].
    + pose proof (comes_bv KString sz bv s ltac:(done) Hc) as ->. destruct (Z.ltb_spec (Z.of_nat n) sz); [done|]. destruct (Z.ltb_spec sz (Z.of_nat n)); [done|].
      assert (sz = Z.of_nat n) as -> by lia. apply stream_bind_inv in H as (x & b & E & H). apply onErr_ok in E.
      pose proof (payload_inv s s1 _ _ _ Hok Hc Hst x b E) as (Hl & _). assert (single b = false) as Hs by (destruct b as [|y [|z b]]; cbn in *; try done; lia).
      assert (Ok (x, inl (GBytes b)) = Ok (u, inl v :> gval + derr)) as [= <- <-] by (destruct b as [|y [|z b]]; cbn in *; [exact H|lia|exact H]).
      destruct (string_inv _ _ _ _ _ Hok Hc Hst E Hs) as (Hb & Ha & Hm). exists (encString b). split; [|done]. exists b. split_and!; try done. lia.
  - intros s s1 k sz bv (Hok & _) Hc _ Hst. pose proof (comes_size _ _ _ _ Hok Hc). destruct k.
    + destruct (Nat.eqb_spec n 0); [by eapply settles_err|]. destruct (Nat.ltb_spec 1 n); [by eapply settles_err|lia].
    + destruct (_ <? sz); [by eapply settles_err|]. destruct (sz <? _); [by eapply settles_err|].
      apply settles_bind; [apply settles_onErr; [auto|apply readFull_proper; [by eapply staged_ok|lia]]|].
      intros x b _. destruct b as [|y [|z b]]; [by eapply settles_ok|case_match; [by eapply settles_err|by eapply settles_ok]|by eapply settles_ok].
    + by eapply settles_err.
  - intros v bs (b & _ & _ & _ & ->). apply encString_nonempty.
  - intros v bs (b & _ & _ & Hb & ->). by apply framed_encString.
Qed.

(** ** Pointers *)

Lemma decodes_map B {A C} (op : M derr A) F (g : A -> C) : decodes B op F -> decodes B (a ← op; mret (g a)) (fun c bs => exists a, c = g a /\ F a bs).
Proof.
  intros [P1 P2 P3 P4 P5 P6 P6' P7 P8]. split.
  - intros s c bs Hr (a & -> & HF) Ha. destruct (P1 s a bs Hr HF Ha) as (t & E & Hm). exists t. by rewrite (bind_ok _ _ _ _ _ E).
  - intros s t c Hr H. apply stream_bind_inv in H as (u & a & E & H). injection H as -> <-. destruct (P2 s t a Hr E) as (bs & HF & H'). eauto.
  - intros s Hk He. destruct (P3 s Hk He) as (t & E & Hm). exists t. split; [by apply bind_err|done].
  - intros s t Hr H. unfold mbind, M_bind in H. destruct (op s) as [[u [a|e]]| |] eqn:E; try done. injection H as -> ->. by eapply P4.
  - intros s Hr. apply returns_bind; [by apply P5|]. intros t a _. by eapply returns_ok.
  - intros s t r H. unfold mbind, M_bind. by rewrite (P6 s t r H).
  - intros s t c (u & a & H & _)%stream_bind_inv. by eapply P6'.
  - intros c bs (a & _ & HF). by eapply P7.
  - intros c bs (a & _ & HF). by eapply P8.
Qed.

(** The head of a value is the only one that comes. *)
Lemma comes_unique k sz bv k' sz' bv' s : streamOk s -> kind s = None -> comes k sz bv s -> comes k' sz' bv' s -> k = k' /\ sz = sz'.
Proof.
  intros Hok Hk H1 H2. destruct (Kind_ok _ _ _ s Hok Hk H1) as (u & E1 & _). destruct (Kind_ok _ _ _ s Hok Hk H2) as (v & E2 & _).
  rewrite E1 in E2. by injection E2 as _ <- <-.
Qed.

Definition emptyOf (k : Kind) : list Z := headOf k 0 0.

Lemma comes_empty k s : k <> KByte -> ahead (emptyOf k) s -> comes k 0 0 s.
Proof.
  intros Hk Ha. split; [destruct k; [done|by split; [unfold in_u64; lia|]..]|done|]. destruct Ha as [_ [_ H]]. unfold emptyOf in H. lia.
Qed.


Lemma framed_comes bs s : framed bs -> ahead bs s -> exists k sz bv p, comes k sz bv s /\ Z.of_nat (length p) = sz /\ bs = headOf k sz bv ++ p.
Proof.
  intros (k & sz & bv & p & Hh & Hl & ->) Ha. exists k, sz, bv, p. split; [|done].
  split; [done|by apply (ahead_app _ _ s (advance (Z.of_nat (length (headOf k sz bv))) s) ltac:(done)) in Ha as [? _]|].
  destruct Ha as [_ [_ H]]. rewrite length_app, Nat2Z.inj_add, Hl in H. done.
Qed.

(** An empty value ahead is all that a decoder reads. *)
Lemma empty_ahead bs k bv s : streamOk s -> kind s = None -> framed bs -> ahead bs s -> k <> KByte -> comes k 0 bv s -> bs = emptyOf k.
Proof.
  intros Hok Hk Hf Ha Hb Hc. destruct (framed_comes bs s Hf Ha) as (k' & sz & bv' & p & Hc' & Hl & ->).
  destruct (comes_unique _ _ _ _ _ _ s Hok Hk Hc Hc') as [<- <-]. destruct p; [|done]. rewrite app_nil_r. by rewrite (comes_bv k 0 bv' s Hb Hc').
Qed.

(** A nil pointer is the empty value of the kind; no other pointer is. *)
Lemma makeNilPtrDecoder_decodes B t (dec : decoder) F nilk : nilk <> KByte -> decodes B dec F ->
  decodes B (makeNilPtrDecoder t dec nilk) (fun v bs => (v = GNil /\ bs = emptyOf nilk) \/
    (exists x, v = GPtr x /\ F x bs /\ bs <> emptyOf KString /\ bs <> emptyOf KList)).
Proof.
  intros Hn Hd. unfold makeNilPtrDecoder. apply decodes_Kind; [auto|..].
  - intros s v bs Hr HF Ha. pose proof Hr as (Hok & Hk & _). destruct HF as [[-> ->]|(x & -> & HF & H1 & H2)].
    + exists nilk, 0, 0. split; [by apply comes_empty|]. intros s1 _ Hst. rewrite bool_decide_true by done. cbn. rewrite bool_decide_false by (by intros []).
      eexists. split; [done|]. apply Hst.
    + destruct (dc_ok _ _ _ Hd s x bs Hr HF Ha) as (u & E & Hm). destruct (dc_kind _ _ _ Hd s u x E) as (s1 & [k sz] & EK).
      destruct (Kind_inv s s1 k sz Hok Hk EK) as (bv & Hc & Hst). exists k, sz, bv. split; [done|]. intros s2 E2 Hst2.
      rewrite EK in E2. injection E2 as <-. exists u. split; [|done].
      assert (bool_decide (k <> KByte) && (sz =? 0) = false) as ->.
      { apply not_true_iff_false. intros [Hk1%bool_decide_eq_true Hz%Z.eqb_eq]%andb_true_iff. subst sz.
        pose proof (dc_framed _ _ _ Hd x bs HF (room_length _ _ Hok (proj2 Ha))) as Hf.
        pose proof (empty_ahead bs k bv s Hok Hk Hf Ha Hk1 Hc). by destruct k. }
      rewrite (bind_ok _ _ _ _ _ (eq_trans (dc_again _ _ _ Hd s s1 _ EK) E)). done.
  - intros s s1 k sz bv u v Hr Hc EK Hst H. pose proof Hr as (Hok & Hk & _). destruct (bool_decide (k <> KByte) && (sz =? 0)) eqn:Ht.
    + apply andb_true_iff in Ht as [Hk1%bool_decide_eq_true Hz%Z.eqb_eq]. subst sz. destruct (decide (k = nilk)) as [->|Hne]; [|by rewrite bool_decide_true in H].
      rewrite bool_decide_false in H by (by intros []). injection H as <- <-. pose proof (comes_bv nilk 0 bv s Hk1 Hc) as ->.
      exists (emptyOf nilk). split; [by left|]. split; [apply Hc|apply Hst].
    + apply stream_bind_inv in H as (x & y & E & H). injection H as -> <-. rewrite (dc_again _ _ _ Hd s s1 _ EK) in E.
      destruct (dc_inv _ _ _ Hd s u y Hr E) as (bs & HF & Ha & Hm). exists bs. split; [|done]. right. exists y. split_and!; try done.
      * intros ->. destruct (comes_unique _ _ _ _ _ _ s Hok Hk Hc (comes_empty KString s ltac:(done) Ha)) as [-> ->]. done.
      * intros ->. destruct (comes_unique _ _ _ _ _ _ s Hok Hk Hc (comes_empty KList s ltac:(done) Ha)) as [-> ->]. done.
  - intros s s1 k sz bv Hr Hc EK Hst. destruct (_ && _); [case_match; [by eapply settles_err|by eapply settles_ok]|].
    unfold settles, mbind, M_bind. rewrite (dc_again _ _ _ Hd s s1 _ EK). destruct (dc_returns _ _ _ Hd s Hr) as (u & [x|e] & E); rewrite E; [by do 2 eexists|].
    do 2 eexists. split; [done|]. intros [= ->]. pose proof (dc_eol _ _ _ Hd s u Hr E) as He. rewrite Kind_ended in EK; [done|apply Hr|done].
  - intros v bs [[_ ->]|(x & _ & HF & _)]; [by destruct nilk|by eapply dc_some].
  - intros v bs [[_ ->]|(x & _ & HF & _)]; [|by apply (dc_framed _ _ _ Hd x)]. intros _. exists nilk, 0, 0, [].
    rewrite app_nil_r. split_and!; try done. destruct nilk; [done|by split; [unfold in_u64; lia|]..].
Qed.

(** ** Interfaces *)

(** Encodings of items. *)
Definition encoded {A} (R : A -> item -> Prop) (v : A) (bs : list Z) : Prop := exists it, R v it /\ bs = encoding it.
Definition encodings (l : list item) : list Z := concat (map encoding l).

Lemma elemsOf_items (R : gval -> item -> Prop) vs p : elemsOf (encoded R) vs p <-> exists l, Forall2 R vs l /\ p = encodings l.
Proof.
  split.
  - intros (bss & H & ->). induction H as [|v bs vs bss (it & Hv & ->) Hvs (l & Hl & E)]; [by exists []|]. exists (it :: l). cbn. by rewrite E; split; [constructor|].
  - intros (l & H & ->). exists (map encoding l). split; [|done]. induction H; cbn; constructor; [by eexists|done].
Qed.

(** What an interface value stands for: byte slices and lists of interfaces. *)
Inductive ifaceRepr : gval -> item -> Prop :=
| ir_bytes b : isBytes b -> ifaceRepr (GIface bytesType (GByteSlice b)) (IStr b)
| ir_list vs l : Forall2 ifaceRepr vs l -> ifaceRepr (GIface ifsliceType (GSlice vs)) (IList l).

Lemma ifaceRepr_list v bs : (exists vs, v = GIface ifsliceType vs /\ exists l p, vs = GSlice l /\ elemsOf (encoded ifaceRepr) l p /\ bs = encList p) ->
  encoded ifaceRepr v bs.
Proof.
  intros (vs & -> & l & p & -> & Hl & ->). apply elemsOf_items in Hl as (its & Hf & ->). exists (IList its). by split; [constructor|].
Qed.
Lemma ifaceRepr_bytes v bs : (exists b, (isBytes b /\ bs = encString b) /\ v = GIface bytesType (GByteSlice b)) -> encoded ifaceRepr v bs.
Proof. intros (b & [Hb ->] & ->). exists (IStr b). by split; [constructor|]. Qed.

(** A decoder that looks at the kind first and then calls one that does. *)
Lemma settles_again B {A} (op : M derr A) F s s1 r : decodes B op F -> ready B s -> Kind_ s = Ok (s1, inl r) -> settles op s1.
Proof.
  intros Hd Hr EK. unfold settles. rewrite (dc_again _ _ _ Hd s s1 _ EK). destruct (dc_returns _ _ _ Hd s Hr) as (u & q & E). exists u, q. split; [done|].
  intros ->. pose proof (dc_eol _ _ _ Hd s u Hr E) as He. rewrite Kind_ended in EK; [done|apply Hr|done].
Qed.

Lemma string_comes b s : streamOk s -> isBytes b -> ahead (encString b) s -> exists k sz bv, comes k sz bv s /\ k <> KList.
Proof.
  intros Hok Hb Ha. destruct (single b) eqn:Es.
  - destruct (encString_single b Hb Es) as (x & -> & Hx & Eh). rewrite Eh in Ha. exists KByte, 0, x. split; [by apply comes_byte|done].
  - destruct (string_ok s b Hok Hb Ha Es) as [Hc _]. by exists KString, (Z.of_nat (length b)), 0.
Qed.
Lemma list_comes p s : streamOk s -> ahead (encList p) s -> comes KList (Z.of_nat (length p)) 0 s.
Proof. intros Hok Ha. rewrite encList_head in Ha. by apply comes_sized. Qed.

Lemma decodeInterface_depth_decodes fuel n : (n <= fuel)%nat -> decodes n (decodeInterface_depth fuel n) (encoded ifaceRepr).
Proof.
  assert (forall v bs, encoded ifaceRepr v bs -> bs <> []) as Hne.
  { intros v bs (it & Hv & ->). destruct Hv; [apply encString_nonempty|apply encList_nonempty]. }
  assert (forall v, framing (encoded ifaceRepr v)) as Hfr.
  { intros v bs (it & Hv & ->). destruct Hv; [by apply framed_encString|apply framed_encList]. }
  induction n as [|n IH]; intros Hn.
  { assert (forall s, ~ ready 0 s) as H0 by (intros s (_ & _ & H); lia).
    split; [by intros s a bs ?%H0|by intros s t a ?%H0|by intros s ?%H0|by intros s t ?%H0|by intros s ?%H0|done|done|done|done]. }
  pose proof (decodeListSlice_decodes n _ _ (IH ltac:(lia)) fuel ifsliceType ltac:(lia)) as Hl. apply (decodes_map _ _ _ (GIface ifsliceType)) in Hl.
  pose proof (decodes_parses (S n) Bytes _ Plain (fun b => GIface bytesType (GByteSlice b)) Bytes_parses ltac:(auto) ltac:(by intros b bs [Hb ->]; apply framed_encString)) as Hb.
  cbn [decodeInterface_depth]. apply decodes_Kind; [auto|..]; [..|done|done].
  - intros s v bs Hr (it & Hv & ->) Ha. pose proof Hr as (Hok & Hk & _). destruct Hv as [b Hbb|vs l Hvs]; cbn [encoding] in *.
    + destruct (string_comes b s Hok Hbb Ha) as (k & sz & bv & Hc & Hkl). exists k, sz, bv. split; [done|]. intros s1 EK _. rewrite decide_False by done.
      rewrite (dc_again _ _ _ Hb s s1 _ EK). apply (dc_ok _ _ _ Hb); [done| |done]. eauto.
    + exists KList, (Z.of_nat (length (encodings l))), 0. split; [by apply list_comes|]. intros s1 EK _. rewrite decide_True by done.
      rewrite (dc_again _ _ _ Hl s s1 _ EK). apply (dc_ok _ _ _ Hl); [done| |done]. exists (GSlice vs). split; [done|]. eexists _, (encodings l).
      split; [done|]. split; [|done]. apply elemsOf_items. eauto.
  - intros s s1 k sz bv t v Hr Hc EK _ H. destruct (decide (k = KList)).
    + rewrite (dc_again _ _ _ Hl s s1 _ EK) in H. destruct (dc_inv _ _ _ Hl s t v Hr H) as (bs & HF & H'). exists bs. split; [by apply ifaceRepr_list|done].
    + rewrite (dc_again _ _ _ Hb s s1 _ EK) in H. destruct (dc_inv _ _ _ Hb s t v Hr H) as (bs & HF & H'). exists bs. split; [by apply ifaceRepr_bytes|done].
  - intros s s1 k sz bv Hr Hc EK _. destruct (decide (k = KList)); by eapply settles_again.
Qed.
End Kinds.

(** ** Structs *)

(** What a field's value stands for: an item, or several for a tail. *)
Notation fieldRel := (gval -> list item -> Prop).

Section Structs.
Context `{U : Uint256}.

(** The fields from here on are zero. *)
Definition zeroFrom {X} (vals : list gval) (fs : list (field X)) : Prop := Forall (fun f => vals !! index f = Some (zeroOf (ftyp f))) fs.

(** The items of the coded fields.  Optional fields may be left out at the end
    when they are zero; a [strict] list leaves out all it can. *)
Inductive fieldsRepr (strict : bool) : list (field fieldRel) -> list gval -> list item -> Prop :=
| fr_nil vals : fieldsRepr strict [] vals []
| fr_cons f fs vals v l1 l2 : vals !! index f = Some v -> info f v l1 -> fieldsRepr strict fs vals l2 ->
    (strict = true -> foptional f = true -> ~ zeroFrom vals (f :: fs)) -> fieldsRepr strict (f :: fs) vals (l1 ++ l2)
| fr_cut f fs vals : foptional f = true -> zeroFrom vals (f :: fs) -> fieldsRepr strict (f :: fs) vals [].


(** The same field, whatever is known about its type. *)
Definition sameField {X Y} (f : field X) (f' : field Y) : Prop :=
  index f = index f' /\ ftyp f = ftyp f' /\ foptional f = foptional f'.

Definition plainField (B : nat) (d : decoder) (R : fieldRel) : Prop :=
  exists R1, decodes B d (encoded R1) /\ forall v l, R v l <-> exists it, l = [it] /\ R1 v it.
Definition tailField (B : nat) (d : decoder) (R : fieldRel) : Prop :=
  fills B (fun _ => d) (fun v p => exists l, R v l /\ p = encodings l).

Inductive fieldsOk (B : nat) : list (field decoder) -> list (field fieldRel) -> Prop :=
| fo_nil : fieldsOk B [] []
| fo_tail fd fr : sameField fd fr -> foptional fd = false -> tailField B (info fd) (info fr) -> fieldsOk B [fd] [fr]
| fo_cons fd fr fds frs : sameField fd fr -> plainField B (info fd) (info fr) -> fieldsOk B fds frs -> fieldsOk B (fd :: fds) (fr :: frs).

(** Values that differ at most at the fields. *)
Definition agree {X} (fs : list (field X)) (vals vals0 : list gval) : Prop :=
  length vals = length vals0 /\ forall i, i ∉ map index fs -> vals !! i = vals0 !! i.

Lemma agree_cons {X} (f : field X) (fs : list (field X)) vals vals0 v : index f ∉ map index fs -> vals !! index f = Some v ->
  agree (f :: fs) vals vals0 <-> agree fs vals (<[index f := v]> vals0) /\ (index f < length vals0)%nat.
Proof.
  intros Hnd Hv. unfold agree. rewrite length_insert. split.
  - intros [Hl Ha]. apply lookup_lt_Some in Hv as Hlt. rewrite Hl in Hlt. split; [|done]. split; [done|]. intros i Hi.
    destruct (decide (i = index f)) as [->|Hne]; [by rewrite list_lookup_insert_eq|]. rewrite list_lookup_insert_ne by done. apply Ha. cbn. set_solver.
  - intros [[Hl Ha] Hlt]. split; [done|]. intros i Hi. cbn in Hi. rewrite Ha by set_solver. apply list_lookup_insert_ne. set_solver.
Qed.

Lemma agree_insert {X} (f : field X) (fs : list (field X)) vals vals0 v : index f ∉ map index fs -> (index f < length vals0)%nat -> agree fs vals (<[index f := v]> vals0) ->
  vals !! index f = Some v.
Proof. intros Hnd Hlt [_ Ha]. rewrite Ha by done. by apply list_lookup_insert_eq. Qed.

Lemma zeroFields_agree fs vals0 : NoDup (map index fs) -> Forall (fun f => index f < length vals0)%nat fs ->
  agree fs (zeroFields vals0 fs) vals0 /\ zeroFrom (zeroFields vals0 fs) fs.
Proof.
  revert vals0. induction fs as [|f fs IH]; intros vals0 Hnd Hlt; unfold zeroFrom in *; [by split|]. cbn [map] in Hnd. apply NoDup_cons in Hnd as [Hni Hnd].
  apply Forall_cons in Hlt as [Hf Hlt]. unfold zeroFields in *. cbn [fold_left].
  destruct (IH (<[index f := zeroOf (ftyp f)]> vals0) Hnd) as [Ha Hz].
  { eapply Forall_impl; [exact Hlt|]. intros x Hx. by rewrite length_insert. }
  pose proof (agree_insert f fs _ _ _ Hni Hf Ha) as Hv. split; [by apply agree_cons with (zeroOf (ftyp f))|]. by constructor.
Qed.

Lemma agree_nil vals vals0 : @agree decoder [] vals vals0 -> vals = vals0.
Proof. intros [_ Ha]. apply list_eq. intros i. apply Ha. by intros ?%elem_of_nil. Qed.

Lemma agree_zero (fs : list (field decoder)) vals vals0 : agree fs vals vals0 -> NoDup (map index fs) ->
  zeroFrom vals fs -> zeroFields vals0 fs = vals.
Proof.
  intros Ha Hnd Hz. revert vals0 Ha. induction fs as [|f fs IH]; intros vals0 Ha; [by apply agree_nil in Ha as ->|].
  cbn [map] in Hnd. apply NoDup_cons in Hnd as [Hni Hnd]. apply Forall_cons in Hz as [Hf Hz]. unfold zeroFields, zeroFrom in *. cbn [fold_left].
  apply IH; [done|done|]. by eapply agree_cons in Ha as [? _].
Qed.

Lemma fieldsOk_same B fds frs : fieldsOk B fds frs -> map index fds = map index frs /\
  Forall2 (fun fd fr => ftyp fd = ftyp fr) fds frs.
Proof.
  induction 1 as [|fd fr (Hi & Ht & _)|fd fr fds frs (Hi & Ht & _) _ _ [IH1 IH2]]; cbn; [done|by rewrite Hi; repeat constructor|].
  rewrite Hi, IH1. by repeat constructor.
Qed.

Lemma zeros_same (fds : list (field decoder)) (frs : list (field fieldRel)) (vals : list gval) : map index fds = map index frs -> Forall2 (fun fd fr => ftyp fd = ftyp fr) fds frs ->
  zeroFrom vals fds <-> zeroFrom vals frs.
Proof.
  intros Hi Ht. unfold zeroFrom. induction Ht as [|fd fr fds frs Hf Ht IH]; [split; constructor|]. cbn in Hi. injection Hi as Hi1 Hi2. rewrite !Forall_cons, Hi1, Hf, (IH Hi2). done.
Qed.

Lemma encodings_app l1 l2 : encodings (l1 ++ l2) = encodings l1 ++ encodings l2.
Proof. unfold encodings. by rewrite map_app, concat_app. Qed.

Lemma encodings_one it : encodings [it] = encoding it.
Proof. unfold encodings. cbn. by rewrite app_nil_r. Qed.

Lemma fields_ok B t fds frs : fieldsOk B fds frs -> NoDup (map index fds) -> forall vals vals0 l s, fieldsRepr false frs vals l -> agree fds vals vals0 ->
  ready B s -> inlist s -> avail s = Z.of_nat (length (encodings l)) -> ahead (encodings l) s ->
  exists u, decodeFields t fds vals0 s = Ok (u, inl vals) /\ moved (Z.of_nat (length (encodings l))) s u.
Proof.
  induction 1 as [|fd fr Hsame Hopt Hd|fd fr fds frs Hsame (R1 & Hd & HR) Hok IH]; intros Hnd vals vals0 l s HF Hag Hr Hl Hav Ha; cbn [decodeFields].
  - inversion HF; subst. apply agree_nil in Hag as ->. exists s. split; [done|]. split; try done; [apply Hr|cbn; lia|by rewrite bump_0].
  - inversion HF as [|? ? ? v l1 l2 Hv Hi Hn Hs|? ? ? Ho]; subst; [|by destruct Hsame as (_ & _ & Hs'); rewrite Hs', Ho in Hopt].
    inversion Hn; subst. rewrite app_nil_r in *. destruct (fl_ok _ _ _ Hd s v (encodings l1) Hr Hl Hav (ex_intro _ l1 (conj Hi eq_refl)) Ha) as (u & E & Hm).
    exists u. rewrite (bind_try_ok _ _ _ _ _ E). split; [|done]. destruct Hsame as (Hidx & _). rewrite <- Hidx in Hv.
    apply (agree_cons fd [] vals vals0 v) in Hag as [Hag _]; [|by intros ?%elem_of_nil|done]. by rewrite (agree_nil _ _ Hag).
  - cbn [map] in Hnd. apply NoDup_cons in Hnd as [Hni Hnd]. pose proof Hsame as (Hidx & Hty & Hop).
    inversion HF as [|? ? ? v l1 l2 Hv Hi Hn Hs|? ? ? Ho Hz]; subst.
    + apply HR in Hi as (it & -> & Hi). rewrite encodings_app, encodings_one in *. rewrite <- Hidx in Hv.
      pose proof (proj1 (ahead_app (encoding it) (encodings l2) s (advance (Z.of_nat (length (encoding it))) s) ltac:(done)) Ha) as [Hb _].
      assert (encoded R1 v (encoding it)) as He by (by eexists).
      destruct (dc_ok _ _ _ Hd s v _ Hr He Hb) as (u & E & Hm). destruct (ahead_cons _ _ _ _ _ _ _ _ Hd Hr He Ha E Hm) as [Ha' Hr'].
      pose proof (moved_avail _ s u (proj1 (proj2 Hb)) Hm) as Hav'. rewrite length_app, Nat2Z.inj_add in Hav |- *.
      apply (agree_cons fd fds vals vals0 v) in Hag as [Hag _]; [|done|done].
      destruct (IH Hnd vals (<[index fd := v]> vals0) l2 u) as (x & Ex & Hmx); try done; [by eapply inlist_moved|lia|].
      exists x. rewrite (bind_try_ok _ _ _ _ _ E). split; [done|]. by eapply moved_trans; [lia|lia|..].
    + destruct (dc_end _ _ _ Hd s Hr) as (u & E & Hm); [apply inlist_ended; [apply Hr|done|done]|]. exists u. rewrite (bind_try_ok _ _ _ _ _ E). cbn [isEOL].
      change (String.eqb EOL EOL) with true. cbn iota. rewrite Hop, Ho. split; [|done].
      destruct (fieldsOk_same _ _ _ Hok) as [Hmi Hmt].
      apply (zeros_same (fd :: fds) (fr :: frs) vals) in Hz; [|cbn; by rewrite Hidx, Hmi|by constructor].
      rewrite (agree_zero (fd :: fds) vals vals0); [done|done|by constructor|done].
Qed.

Lemma fields_inv B t fds frs : fieldsOk B fds frs -> NoDup (map index fds) -> forall vals0 s u vals, Forall (fun f => index f < length vals0)%nat fds ->
  ready B s -> inlist s -> decodeFields t fds vals0 s = Ok (u, inl vals) ->
  exists l, fieldsRepr false frs vals l /\ agree fds vals vals0 /\ ahead (encodings l) s /\ moved (Z.of_nat (length (encodings l))) s u.
Proof.
  induction 1 as [|fd fr Hsame Hopt Hd|fd fr fds frs Hsame (R1 & Hd & HR) Hok IH]; intros Hnd vals0 s u vals Hlt Hr Hl H; cbn [decodeFields] in H.
  - injection H as <- <-. exists []. split; [constructor|]. split; [done|]. split; [apply ahead_nil, Hr|]. split; try done; [apply Hr|cbn; lia|by rewrite bump_0].
  - destruct (fl_returns _ _ _ Hd s Hr Hl) as (x & [v|e] & E & Hn); rewrite (bind_try_ok _ _ _ _ _ E) in H.
    2: { destruct (isEOL e); [|done]. by rewrite Hopt in H. }
    injection H as <- <-. destruct (fl_inv _ _ _ Hd s x v Hr Hl E) as (p & (l & HR & ->) & Ha & Hm). apply Forall_cons in Hlt as [Hlt _].
    pose proof Hsame as (Hidx & _). assert (<[index fd := v]> vals0 !! index fr = Some v) as Hv by (rewrite <- Hidx; by apply list_lookup_insert_eq).
    exists l. split; [rewrite <- (app_nil_r l); econstructor; [exact Hv|done|constructor|done]|]. split; [|done].
    apply (agree_cons fd [] _ vals0 v); [by intros ?%elem_of_nil|by apply list_lookup_insert_eq|done].
  - cbn [map] in Hnd. apply NoDup_cons in Hnd as [Hni Hnd]. pose proof Hsame as (Hidx & Hty & Hop). pose proof Hlt as [Hf Hlt']%Forall_cons.
    destruct (dc_returns _ _ _ Hd s Hr) as (x & [v|e] & E); rewrite (bind_try_ok _ _ _ _ _ E) in H.
    + destruct (dc_inv _ _ _ Hd s x v Hr E) as (bs & (it & Hi & ->) & Ha & Hm). assert (ready B x) as Hrx by (eapply ready_moved; [done|apply Ha|done]).
      destruct (IH Hnd (<[index fd := v]> vals0) x u vals) as (l & HF & Hag & Hal & Hml); try done; [|by eapply inlist_moved|].
      { eapply Forall_impl; [exact Hlt'|]. intros y Hy. by rewrite length_insert. }
      pose proof (agree_insert fd fds _ _ _ Hni Hf Hag) as Hv. exists ([it] ++ l). rewrite encodings_app, encodings_one.
      split; [econstructor; [by rewrite <- Hidx|apply HR; eauto|done|done]|]. split; [by apply (agree_cons fd fds vals vals0 v)|].
      split; [by apply (ahead_app _ _ s x Hm)|]. rewrite length_app, Nat2Z.inj_add. by eapply moved_trans; [lia|lia|..].
    + destruct (isEOL e) eqn:He; [|done]. destruct (foptional fd) eqn:Ho; [|done]. injection H as <- <-. apply isEOL_spec in He as ->.
      destruct (decodes_eol_moved _ _ _ _ _ Hd Hr E) as [_ Hm]. destruct (zeroFields_agree (fd :: fds) vals0) as [Hag Hz]; [by constructor|done|].
      destruct (fieldsOk_same _ _ _ Hok) as [Hmi Hmt]. exists []. split; [|split; [done|split; [apply ahead_nil, Hr|done]]].
      apply fr_cut; [by rewrite <- Hop|]. by apply (zeros_same (fd :: fds) (fr :: frs)); [cbn; by rewrite Hidx, Hmi|by constructor|].
Qed.

Lemma fields_returns B t fds frs : fieldsOk B fds frs -> forall vals0 s, ready B s -> inlist s -> settles (decodeFields t fds vals0) s.
Proof.
  induction 1 as [|fd fr Hsame Hopt Hd|fd fr fds frs Hsame (R1 & Hd & HR) Hok IH]; intros vals0 s Hr Hl; cbn [decodeFields]; [by eapply settles_ok|..].
  - destruct (fl_returns _ _ _ Hd s Hr Hl) as (x & [v|e] & E & Hn); unfold settles; rewrite (bind_try_ok _ _ _ _ _ E); [by do 2 eexists|].
    destruct (isEOL e) eqn:He; [by apply isEOL_spec in He as ->|]. do 2 eexists. split; [done|]. intros [= H]. by eapply addErrorContext_EOL.
  - destruct (dc_returns _ _ _ Hd s Hr) as (x & [v|e] & E); unfold settles; rewrite (bind_try_ok _ _ _ _ _ E).
    + destruct (dc_inv _ _ _ Hd s x v Hr E) as (bs & HF & Ha & Hm). apply IH; [eapply ready_moved; [done|apply Ha|done]|by eapply inlist_moved].
    + destruct (isEOL e) eqn:He; [case_match; by do 2 eexists|]. do 2 eexists. split; [done|]. intros [= H]. by eapply addErrorContext_EOL.
Qed.

Lemma decodeStruct_decodes B t fds frs vals0 : zeroOf t = GStruct vals0 -> fieldsOk B fds frs -> NoDup (map index fds) ->
  Forall (fun f => index f < length vals0)%nat fds ->
  decodes (S B) (decodeStruct t fds) (encoded (fun v it => exists vals l, v = GStruct vals /\ it = IList l /\ fieldsRepr false frs vals l /\ agree fds vals vals0)).
Proof.
  intros Hz Hok Hnd Hlt.
  assert (fills B (fun _ => decodeFields t fds vals0) (fun vals p => exists l, fieldsRepr false frs vals l /\ agree fds vals vals0 /\ p = encodings l)) as Hf.
  { split.
    - intros s vals p Hr Hl Hav (l & HF & Hag & ->) Ha. by eapply fields_ok.
    - intros s u vals Hr Hl H. destruct (fields_inv B t fds frs Hok Hnd vals0 s u vals Hlt Hr Hl H) as (l & HF & Hag & H'). eauto 10.
    - intros s Hr Hl. by eapply fields_returns. }
  pose proof (listDecoder_decodes B _ _ (wrapStreamError t) (wrapStreamError t) GStruct Hf ltac:(auto) ltac:(auto)) as H.
  eapply decodes_ext; [|eapply decodes_eq; [|exact H]].
  - intros v bs. split.
    + intros (vals & p & -> & (l & HF & Hag & ->) & ->). exists (IList l). eauto 10.
    + intros (it & (vals & l & -> & -> & HF & Hag) & ->). exists vals, (encodings l). eauto 10.
  - intros s. unfold decodeStruct, listDecoder. by rewrite Hz.
Qed.
End Structs.
