(* ===== verification/RlpRepr.v ===== *)
(** * RlpRepr: what the values of a type stand for

    [repr t] relates a value of type [t] to the RLP items it is coded as, as the
    package documentation states it; every decoder that [makeDecoder] chooses
    reads exactly the encodings of these items. *)

From S2P Require Import Prelude Uint256 RlpEncode RlpTypes RlpStream RlpReading RlpCodec RlpDecoding.

Import Rlp RlpT Stream.

Section Repr.
Context `{U : Uint256}.

Definition emptyItem (k : Kind) : item := match k with KList => IList [] | _ => IStr [] end.

Lemma emptyItem_encoding k : k <> KByte -> encoding (emptyItem k) = emptyOf k.
Proof. by destruct k. Qed.

(** A tail swallows the rest of the list. *)
Definition isTail (t : typ) (ts : tags) : bool := match t with TSlice e => negb (isByte e) && tail ts | _ => false end.

(** The items of a value; [strict] is about optional fields. *)
Fixpoint repr (strict : bool) (t : typ) (ts : tags) : fieldRel :=
  match t with
  | TRawValue => fun v l => exists b, v = GByteSlice b /\ isRaw b /\ l = [IRaw b]
  | TPtr TBigInt => fun v l => exists i, v = GPtr (GNum i) /\ 0 <= i /\ l = [IStr (minimal i)]
  | TBigInt => fun v l => exists i, v = GNum i /\ 0 <= i /\ l = [IStr (minimal i)]
  | TPtr TUint256 => fun v l => exists x, v = GPtr (GU256 x) /\ l = [IStr (minimal (uval x))]
  | TUint256 => fun v l => exists x, v = GU256 x /\ l = [IStr (minimal (uval x))]
  | TPtr e => fun v l =>
      if nilOK ts then
        (v = GNil /\ l = [emptyItem (nilKind ts)]) \/
        (exists x it, v = GPtr x /\ l = [it] /\ repr strict e noTags x [it] /\ encoding it <> emptyOf KString /\ encoding it <> emptyOf KList)
      else exists x, v = GPtr x /\ repr strict e noTags x l
  | TUint bits => fun v l => exists i, v = GNum i /\ 0 <= i < 2 ^ bits /\ l = [IStr (minimal i)]
  | TBool => fun v l => exists b, v = GBool b /\ l = [IStr (if b then [1] else [])]
  | TString => fun v l => exists b, v = GString b /\ isBytes b /\ l = [IStr b]
  | TSlice e => fun v l =>
      if isByte e then exists b, v = GByteSlice b /\ isBytes b /\ l = [IStr b]
      else exists vs its, v = GSlice vs /\ Forall2 (fun x it => repr strict e noTags x [it]) vs its /\ l = if tail ts then its else [IList its]
  | TArray n e => fun v l =>
      if isByte e then exists b, v = GBytes b /\ length b = n /\ isBytes b /\ l = [IStr b]
      else exists vs its, v = GList vs /\ length vs = n /\ Forall2 (fun x it => repr strict e noTags x [it]) vs its /\ l = [IList its]
  | TStruct name fs => fun v l =>
      match structFields name (map (fun f => (f, match f with SField _ _ _ ft => repr strict ft end)) fs) with
      | inr _ => False
      | inl frs => exists vals its, v = GStruct vals /\ l = [IList its] /\ fieldsRepr strict frs vals its /\
          agree frs vals (map (fun '(SField _ _ _ t) => zeroOf t) fs)
      end
  | TInterface => fun v l => exists it, ifaceRepr v it /\ l = [it]
  | TOther _ => fun _ _ => False
  end.

(** Types whose decoders terminate: unsigned integers have whole bytes, and
    there is no array of one byte. *)
Fixpoint decodable (t : typ) : bool :=
  match t with
  | TUint bits => (bits mod 8 =? 0) && (8 <=? bits) && (bits <=? 64)
  | TSlice e | TPtr e => decodable e
  | TArray n e => negb (isByte e && Nat.eqb n 1) && decodable e
  | TStruct _ fs => forallb (fun '(SField _ _ _ t) => decodable t) fs
  | _ => true
  end.

(** ** Struct tags *)

Definition tagsOk (last : bool) (ft : typ) (ts : tags) : Prop :=
  (tail ts = true -> last = true /\ optional ts = false /\ isSlice ft = true) /\ (nilOK ts = true -> nilKind ts <> KByte).

Lemma defaultNilKind_ne t : defaultNilKind t <> KByte.
Proof. unfold defaultNilKind. by case_match. Qed.

Lemma parseTag_ok name n ft last ts t ts' : tagsOk last ft ts -> parseTag name n ft last ts t = inl ts' -> tagsOk last ft ts'.
Proof.
  intros [H1 H2]. unfold parseTag, tagsOk. repeat (case_match; try done); intros [= <-]; cbn; try (by split); split; try done.
  - intros _. apply defaultNilKind_ne.
  - congruence.
  - intros _. by destruct last, (isSlice ft).
Qed.

Lemma parseStructTag_ok name n tag ft last ts : parseStructTag name n tag ft last = inl ts -> tagsOk last ft ts.
Proof.
  unfold parseStructTag. assert (tagsOk last ft noTags) as H0 by done. revert H0. generalize noTags. induction (splitComma _ _) as [|t l IH]; intros ts0 H0; cbn; [by intros [= <-]|].
  destruct (parseTag name n ft last ts0 (TrimSpace t)) eqn:E; [|done]. apply IH. by eapply parseTag_ok.
Qed.

(** ** Fields *)

Lemma lastPublicField_mono fs : forall i last, (last <= i)%nat -> (last <= lastPublicField i last fs)%nat.
Proof.
  induction fs as [|[n e tag t] fs IH]; intros i last Hl; cbn; [lia|]. destruct e; [|apply IH; lia]. etransitivity; [exact Hl|apply IH; lia].
Qed.
Lemma lastPublicField_ge fs : forall i last j n tag t, (last <= i)%nat -> fs !! j = Some (SField n true tag t) -> (i + j <= lastPublicField i last fs)%nat.
Proof.
  induction fs as [|[n e tag t] fs IH]; intros i last j n' tag' t' Hl H; [done|]. destruct j as [|j]; cbn in *.
  - injection H as -> -> -> ->. rewrite Nat.add_0_r. apply lastPublicField_mono. lia.
  - replace (i + S j)%nat with (S i + j)%nat by lia. eapply IH; [|done]. destruct e; lia.
Qed.

(** No exported field, no coded field. *)
Lemma structFields_private {X} name last (g : sfield -> tags -> X) fs : forall i any, (forall j n tag t, fs !! j <> Some (SField n true tag t)) ->
  structFields_loop name last i any (map (fun f => (f, g f)) fs) = inl [].
Proof.
  induction fs as [|[n e tag t] fs IH]; intros i any Hp; [done|]. cbn. destruct e; [by destruct (Hp 0%nat n tag t)|]. apply IH. intros j n' tag' t'. apply (Hp (S j)).
Qed.

(** What the struct decoder needs of the decoder of a field. *)
Definition decoderOk (B fuel : nat) (t : typ) : Prop := forall ts last d, tagsOk last t ts -> makeDecoder fuel t ts = inl d ->
  if isTail t ts then tailField B d (repr false t ts) else plainField B d (repr false t ts).

Lemma structFields_ok B fuel name last fs : Forall (fun '(SField _ _ _ t) => decoderOk B fuel t) fs -> forall i any fields fds,
  (forall j n tag t, fs !! j = Some (SField n true tag t) -> (i + j <= last)%nat) ->
  structFields_loop name last i any (map (fun f => (f, match f with SField _ _ _ ft => makeDecoder fuel ft end)) fs) = inl fields ->
  fieldInfos name fields = inl fds ->
  exists frs, structFields_loop name last i any (map (fun f => (f, match f with SField _ _ _ ft => repr false ft end)) fs) = inl frs /\
    fieldsOk B fds frs /\ NoDup (map index fds) /\ Forall (fun f => i <= index f < i + length fs)%nat fds.
Proof.
  induction 1 as [|[n e tag t] fs Hf Hfs IH]; intros i any fields fds Hlast Hs Hi; cbn [map structFields_loop] in *.
  { injection Hs as <-. injection Hi as <-. exists []. split_and!; constructor. }
  assert (forall j n tag t, fs !! j = Some (SField n true tag t) -> (S i + j <= last)%nat) as Hlast'.
  { intros j n' tag' t' Hj. specialize (Hlast (S j) n' tag' t' Hj). lia. }
  assert (forall fds, Forall (fun f : field decoder => S i <= index f < S i + length fs)%nat fds -> Forall (fun f : field decoder => i <= index f < i + length (SField n e tag t :: fs))%nat fds) as Hw.
  { intros l Hl. eapply Forall_impl; [exact Hl|]. cbn. intros f. lia. }
  destruct e.
  2: { destruct (IH (S i) any fields fds Hlast' Hs Hi) as (frs & E & H1 & H2 & H3). exists frs. eauto. }
  destruct (parseStructTag name n tag t (i =? last)%nat) as [ts|] eqn:Ep; [|done]. pose proof (parseStructTag_ok _ _ _ _ _ _ Ep) as Ht.
  destruct (ignored ts).
  { destruct (IH (S i) any fields fds Hlast' Hs Hi) as (frs & E & H1 & H2 & H3). exists frs. eauto. }
  destruct (negb (optional ts || tail ts) && any); [done|].
  destruct (structFields_loop name last (S i) _ _) as [r|] eqn:Er; [|done]. injection Hs as <-. cbn [fieldInfos info] in Hi.
  destruct (makeDecoder fuel t ts) as [d|] eqn:Ed; [|done]. destruct (fieldInfos name r) as [fds'|] eqn:Ei; [|done]. injection Hi as <-.
  destruct (IH (S i) _ r fds' Hlast' Er Ei) as (frs & E & H1 & H2 & H3). rewrite E. eexists. split; [done|].
  pose proof (Hf ts _ d Ht Ed) as Hd. split_and!.
  - destruct (isTail t ts) eqn:Et; [|by apply fo_cons].
    assert (tail ts = true) as Htl by (destruct t; cbn in Et; try done; by apply andb_true_iff in Et as [_ ?]).
    destruct (proj1 Ht Htl) as (Hlst & Hopt & _). apply Nat.eqb_eq in Hlst.
    assert (fds' = []) as ->.
    { rewrite (structFields_private name last (fun f => match f with SField _ _ _ ft => makeDecoder fuel ft end)) in Er; [injection Er as <-; by injection Ei as <-|].
      intros j n' tag' t' Hj. specialize (Hlast' j n' tag' t' Hj). lia. }
    inversion H1; subst. by apply fo_tail.
  - cbn [map index]. constructor; [|done]. intros (f & Hx & Hin)%list_elem_of_fmap. rewrite Forall_forall in H3. specialize (H3 f Hin). lia.
  - constructor; [cbn; lia|by apply Hw].
Qed.

(** ** Single values *)

Lemma plain_intro B (d : decoder) F (R : fieldRel) (R1 : gval -> item -> Prop) : decodes B d F -> (forall v bs, F v bs <-> encoded R1 v bs) ->
  (forall v l, R v l <-> exists it, l = [it] /\ R1 v it) -> plainField B d R.
Proof. intros Hd HF HR. exists R1. split; [by eapply decodes_ext|done]. Qed.

(** A string, read as a value of some type. *)
Lemma plain_string {A} B (m : M error A) (F : A -> list Z -> Prop) w (g : A -> gval) (R : fieldRel) (P : gval -> list Z -> Prop) :
  parses EOL m F -> keepsEOL w -> (forall v b, P v b -> isBytes b) ->
  (forall v bs, (exists a, F a bs /\ v = g a) <-> (exists b, P v b /\ bs = encString b)) ->
  (forall v l, R v l <-> exists b, P v b /\ l = [IStr b]) ->
  plainField B (a ← onErr w m; mret (g a)) R.
Proof.
  intros Hp Hw Hb HF HR. apply (plain_intro B _ (fun v bs => exists a, F a bs /\ v = g a) R (fun v it => exists b, P v b /\ it = IStr b)).
  - apply decodes_parses; [done|done|]. intros a bs Ha. destruct (proj1 (HF (g a) bs)) as (b & HP & ->); [eauto|]. by apply framed_encString, (Hb (g a)).
  - intros v bs. rewrite HF. split.
    + intros (b & HP & ->). exists (IStr b). eauto.
    + intros (it & (b & HP & ->) & ->). eauto.
  - intros v l. rewrite HR. split; [intros (b & HP & ->); eauto|intros (it & -> & b & HP & ->); eauto].
Qed.

Lemma bigInt_repr v bs (g : Z -> gval) : (exists b, (isBytes b /\ noLeadingZero b /\ bs = encString b) /\ v = g (be_val b)) <->
  (exists b, (exists i, v = g i /\ 0 <= i /\ b = minimal i) /\ bs = encString b).
Proof.
  split.
  - intros (b & (Hb & Hz & ->) & ->). exists b. split; [|done]. exists (be_val b). pose proof (be_val_range b Hb). rewrite minimal_be_val by done. split_and!; done || lia.
  - intros (b & (i & -> & Hi & ->) & ->). exists (minimal i). rewrite be_val_minimal by done. split; [|done].
    split_and!; [apply minimal_isBytes|by apply minimal_noLeadingZero|done].
Qed.

Lemma uint256_repr v bs (g : u256 -> gval) : (exists b, (isBytes b /\ noLeadingZero b /\ Z.of_nat (length b) <= 32 /\ bs = encString b) /\ v = g (uSetBytes b)) <->
  (exists b, (exists x, v = g x /\ b = minimal (uval x)) /\ bs = encString b).
Proof.
  split.
  - intros (b & (Hb & Hz & Hl & ->) & ->). exists b. split; [|done]. exists (uSetBytes b). split; [done|].
    rewrite uSetBytes_spec by done. pose proof (length_minimal_bound b 32 Hb Hl). rewrite Z.mod_small by (unfold two256; lia). by rewrite minimal_be_val.
  - intros (b & (x & -> & ->) & ->). exists (minimal (uval x)). pose proof (uval_range x) as [H1 H2]. unfold two256 in H2. split.
    + split_and!; [apply minimal_isBytes|by apply minimal_noLeadingZero|by apply (minimal_length_bits _ 32); [lia|]|done].
    + f_equal. apply uval_inj. rewrite uSetBytes_spec by apply minimal_isBytes. rewrite be_val_minimal by done. symmetry. by apply Z.mod_small.
Qed.

Lemma decodeBigInt_plain B strict ts : plainField B decodeBigInt (repr strict (TPtr TBigInt) ts).
Proof.
  eapply plain_string; [apply bigIntBytes_parses|auto| |intros v bs; apply (bigInt_repr v bs (fun i => GPtr (GNum i)))|].
  - intros v b (i & _ & _ & ->). apply minimal_isBytes.
  - intros v l. cbn. split; [intros (i & -> & Hi & ->); eauto 10|intros (b & (i & -> & Hi & ->) & ->); eauto 10].
Qed.
Lemma decodeBigIntNoPtr_plain B strict ts : plainField B decodeBigIntNoPtr (repr strict TBigInt ts).
Proof.
  eapply plain_string; [apply bigIntBytes_parses|auto| |intros v bs; apply (bigInt_repr v bs GNum)|].
  - intros v b (i & _ & _ & ->). apply minimal_isBytes.
  - intros v l. cbn. split; [intros (i & -> & Hi & ->); eauto 10|intros (b & (i & -> & Hi & ->) & ->); eauto 10].
Qed.
Lemma decodeUint256_plain B strict ts : plainField B decodeUint256 (repr strict (TPtr TUint256) ts).
Proof.
  eapply plain_string; [apply Uint256Bytes_parses|auto| |intros v bs; apply (uint256_repr v bs (fun x => GPtr (GU256 x)))|].
  - intros v b (x & _ & ->). apply minimal_isBytes.
  - intros v l. cbn. split; [intros (x & -> & ->); eauto 10|intros (b & (x & -> & ->) & ->); eauto 10].
Qed.
Lemma decodeUint256NoPtr_plain B strict ts : plainField B decodeUint256NoPtr (repr strict TUint256 ts).
Proof.
  eapply plain_string; [apply Uint256Bytes_parses|auto| |intros v bs; apply (uint256_repr v bs GU256)|].
  - intros v b (x & _ & ->). apply minimal_isBytes.
  - intros v l. cbn. split; [intros (x & -> & ->); eauto 10|intros (b & (x & -> & ->) & ->); eauto 10].
Qed.

Lemma decodeUint_plain B strict ts bits : decodable (TUint bits) = true -> plainField B (decodeUint bits) (repr strict (TUint bits) ts).
Proof.
  cbn. intros [[H1%Z.eqb_eq H2%Z.leb_le]%andb_true_iff H3%Z.leb_le]%andb_true_iff.
  pose proof (Z.div_mod bits 8 ltac:(lia)) as Hm. assert (bits = 8 * (bits / 8)) as Hb by lia. rewrite Hb. set (m := bits / 8) in *.
  eapply (plain_string _ _ _ _ _ _ (fun v b => exists i, v = GNum i /\ 0 <= i < 2 ^ (8 * m) /\ b = minimal i)); [apply (uint_parses m); lia|auto| | |].
  - intros v b (i & _ & _ & ->). apply minimal_isBytes.
  - intros v bs. split; [intros (i & [Hi ->] & ->); eauto 10|intros (b & (i & -> & Hi & ->) & ->); eauto 10].
  - intros v l. cbn. split; [intros (i & -> & Hi & ->); eauto 10|intros (b & (i & -> & Hi & ->) & ->); eauto 10].
Qed.
Lemma decodeBool_plain B strict ts : plainField B decodeBool (repr strict TBool ts).
Proof.
  eapply (plain_string _ _ _ _ _ _ (fun v b => exists x, v = GBool x /\ b = if x then [1] else [])); [apply Bool_parses|auto| | |].
  - intros v b (x & _ & ->). destruct x; repeat constructor; lia.
  - intros v bs. split; [intros (x & -> & ->); eauto 10|intros (b & (x & -> & ->) & ->); eauto 10].
  - intros v l. cbn. split; [intros (x & -> & ->); eauto 10|intros (b & (x & -> & ->) & ->); eauto 10].
Qed.
Lemma decodeBytes_plain B t (g : list Z -> gval) (R : fieldRel) : (forall v l, R v l <-> exists b, v = g b /\ isBytes b /\ l = [IStr b]) ->
  plainField B (b ← onErr (wrapStreamError t) Bytes; mret (g b)) R.
Proof.
  intros HR. eapply (plain_string _ _ _ _ _ _ (fun v b => v = g b /\ isBytes b)); [apply Bytes_parses|auto|by intros v b [_ ?]| |].
  - intros v bs. split; [intros (b & [Hb ->] & ->); eauto 10|intros (b & [-> Hb] & ->); eauto 10].
  - intros v l. rewrite HR. split; [intros (b & -> & Hb & ->); eauto 10|intros (b & [-> Hb] & ->); eauto 10].
Qed.
Lemma decodeRawValue_plain B strict ts : plainField B decodeRawValue (repr strict TRawValue ts).
Proof.
  eapply (plain_intro B _ _ _ (fun v it => exists b, v = GByteSlice b /\ isRaw b /\ it = IRaw b)).
  - apply decodes_parses; [apply Raw_parses|auto|]. intros a bs [_ Hb] _. by apply framed_isRaw.
  - intros v bs. split.
    + intros (b & [-> Hb] & ->). exists (IRaw bs). eauto 10.
    + intros (it & (b & -> & Hb & ->) & ->). cbn. eauto 10.
  - intros v l. cbn. split; [intros (b & -> & Hb & ->); eauto 10|intros (it & -> & b & -> & Hb & ->); eauto 10].
Qed.

(** ** Composite values *)

Lemma encoded_ext {A} (R R' : A -> item -> Prop) v bs : (forall it, R v it <-> R' v it) -> encoded R v bs <-> encoded R' v bs.
Proof. intros H. split; intros (it & Hi & ->); exists it; (split; [by apply H|done]). Qed.

(** The elements of a slice. *)
Lemma plain_elem B d (R : fieldRel) : plainField B d R -> decodes B d (encoded (fun v it => R v [it])).
Proof.
  intros (R1 & Hd & HR). eapply decodes_ext; [|exact Hd]. intros v bs. apply encoded_ext. intros it. rewrite HR. split.
  - eauto.
  - intros (it' & [= <-] & H). done.
Qed.

Lemma slice_plain B fuel t d R (Rs : fieldRel) : (B <= fuel)%nat -> plainField B d R ->
  (forall v l, Rs v l <-> exists vs its, v = GSlice vs /\ Forall2 (fun x it => R x [it]) vs its /\ l = [IList its]) ->
  plainField (S B) (decodeListSlice fuel t d) Rs.
Proof.
  intros HB Hd HR. apply (plain_intro _ _ _ _ (fun v it => exists vs its, v = GSlice vs /\ Forall2 (fun x it => R x [it]) vs its /\ it = IList its)
    (decodeListSlice_decodes B d _ (plain_elem _ _ _ Hd) fuel t HB)).
  - intros v bs. split.
    + intros (vs & p & -> & Hp & ->). apply elemsOf_items in Hp as (its & Hf & ->). exists (IList its). eauto 10.
    + intros (it & (vs & its & -> & Hf & ->) & ->). exists vs, (encodings its). split; [done|]. split; [|done]. apply elemsOf_items. eauto.
  - intros v l. rewrite HR. split; [intros (vs & its & -> & Hf & ->); eauto 10|intros (it & -> & vs & its & -> & Hf & ->); eauto 10].
Qed.

Lemma array_plain B t n d R (Rs : fieldRel) : plainField B d R ->
  (forall v l, Rs v l <-> exists vs its, v = GList vs /\ length vs = n /\ Forall2 (fun x it => R x [it]) vs its /\ l = [IList its]) ->
  plainField (S B) (decodeListArray t n d) Rs.
Proof.
  intros Hd HR. apply (plain_intro _ _ _ _ (fun v it => exists vs its, v = GList vs /\ length vs = n /\ Forall2 (fun x it => R x [it]) vs its /\ it = IList its)
    (decodeListArray_decodes B d _ (plain_elem _ _ _ Hd) t n)).
  - intros v bs. split.
    + intros (vs & p & -> & (Hn & Hp) & ->). apply elemsOf_items in Hp as (its & Hf & ->). exists (IList its). eauto 10.
    + intros (it & (vs & its & -> & Hn & Hf & ->) & ->). exists vs, (encodings its). split; [done|]. split; [|done]. split; [done|]. apply elemsOf_items. eauto.
  - intros v l. rewrite HR. split; [intros (vs & its & -> & Hn & Hf & ->); eauto 10|intros (it & -> & vs & its & -> & Hn & Hf & ->); eauto 10].
Qed.

(** A tail reads on to the end of the list. *)
Lemma slice_tail B fuel d R (Rs : fieldRel) : (B <= fuel)%nat -> plainField B d R ->
  (forall v l, Rs v l <-> exists vs, v = GSlice vs /\ Forall2 (fun x it => R x [it]) vs l) ->
  tailField B (l ← decodeSliceElems fuel d; mret (GSlice l)) Rs.
Proof.
  intros HB Hd HR. apply plain_elem in Hd. split.
  - intros s v p Hr Hl Hav (l & HRs & ->) Ha. apply HR in HRs as (vs & -> & Hf).
    assert (Forall2 (encoded (fun x it => R x [it])) vs (map encoding l)) as Hf2 by (clear -Hf; induction Hf; cbn; constructor; [by eexists|done]).
    pose proof (Forall2_nonempty _ _ _ (dc_some _ _ _ Hd) Hf2) as Hlen. fold (encodings l) in Hlen.
    destruct (slice_loop_ok B d _ Hd vs (map encoding l) Hf2 fuel 0 s) as (u & E & Hm); try done.
    { destruct Hr as (_ & _ & Hr), Ha as [_ [Ha _]]. lia. }
    exists u. by rewrite (bind_ok _ _ _ _ _ E).
  - intros s u v Hr Hl H. apply stream_bind_inv in H as (x & vs & E & H). injection H as <- <-.
    destruct (slice_loop_inv B d _ Hd fuel 0 s x vs Hr E) as (p & Hp & H'). apply elemsOf_items in Hp as (l & Hf & ->).
    exists (encodings l). split; [|done]. exists l. split; [|done]. apply HR. eauto.
  - intros s Hr Hl. destruct (slice_loop_returns B d _ Hd fuel 0 s Hr) as (u & [vs|e] & E & Hn); [destruct Hr as (_ & _ & Hr); lia|..]; unfold mbind, M_bind.
    + unfold decodeSliceElems. rewrite E. by do 2 eexists.
    + unfold decodeSliceElems. rewrite E. do 2 eexists. split; [done|congruence].
Qed.

Lemma simplePtr_plain B d R (Rs : fieldRel) : plainField B d R -> (forall v l, Rs v l <-> exists x, v = GPtr x /\ R x l) ->
  plainField B (makeSimplePtrDecoder d) Rs.
Proof.
  intros (R1 & Hd & HR1) HR. apply (plain_intro _ _ _ _ (fun v it => exists x, v = GPtr x /\ R1 x it) (decodes_map B d _ GPtr Hd)).
  - intros v bs. split; [intros (x & -> & it & Hx & ->); exists it; eauto|intros (it & (x & -> & Hx) & ->); exists x; split; [done|by exists it]].
  - intros v l. rewrite HR. split.
    + intros (x & -> & Hx). apply HR1 in Hx as (it & -> & Hx). eauto.
    + intros (it & -> & x & -> & Hx). exists x. split; [done|]. apply HR1. eauto.
Qed.

Lemma nilPtr_plain B t d R k (Rs : fieldRel) : plainField B d R -> k <> KByte ->
  (forall v l, Rs v l <-> (v = GNil /\ l = [emptyItem k]) \/
    (exists x it, v = GPtr x /\ l = [it] /\ R x [it] /\ encoding it <> emptyOf KString /\ encoding it <> emptyOf KList)) ->
  plainField B (makeNilPtrDecoder t d k) Rs.
Proof.
  intros Hd Hk HR. apply plain_elem in Hd.
  apply (plain_intro _ _ _ _ (fun v it => (v = GNil /\ it = emptyItem k) \/
    (exists x, v = GPtr x /\ R x [it] /\ encoding it <> emptyOf KString /\ encoding it <> emptyOf KList)) (makeNilPtrDecoder_decodes B t d _ k Hk Hd)).
  - intros v bs. split.
    + intros [[-> ->]|(x & -> & (it & Hx & ->) & H1 & H2)]; [exists (emptyItem k); rewrite emptyItem_encoding by done; eauto|exists it; eauto 10].
    + intros (it & [[-> ->]|(x & -> & Hx & H1 & H2)] & ->); [left; by rewrite emptyItem_encoding|right; exists x; split_and!; [done|by exists it|done|done]].
  - intros v l. rewrite HR. split.
    + intros [[-> ->]|(x & it & -> & -> & H)]; eauto 10.
    + intros (it & -> & [[-> ->]|(x & -> & H)]); eauto 10.
Qed.

Lemma plain_le B d R : plainField (S B) d R -> plainField B d R.
Proof. intros (R1 & Hd & HR). exists R1. split; [|done]. eapply decodes_le; [|exact Hd]. lia. Qed.

Lemma noTags_ok t : tagsOk false t noTags.
Proof. done. Qed.
Lemma noTags_tail t : isTail t noTags = false.
Proof. destruct t; try done. cbn. by rewrite andb_false_r. Qed.

Lemma decoderOk_elem B fuel t d : decoderOk B fuel t -> makeDecoder fuel t noTags = inl d -> plainField B d (repr false t noTags).
Proof. intros Ht E. pose proof (Ht noTags false d (noTags_ok t) E) as H. by rewrite noTags_tail in H. Qed.


Lemma slice_decoderOk B fuel e : (B <= fuel)%nat -> decoderOk B fuel e -> decoderOk B fuel (TSlice e).
Proof.
  intros HB He ts last d Ht E. cbn [makeDecoder] in E. unfold makeListDecoder in E. cbn [isTail].
  destruct (isByte e) eqn:Eb; cbn [negb andb].
  - injection E as <-. apply decodeBytes_plain. intros v l. cbn. by rewrite Eb.
  - destruct (makeDecoder fuel e noTags) as [de|] eqn:Ee; [|done]. injection E as <-. pose proof (decoderOk_elem _ _ _ _ He Ee) as Hd.
    destruct (tail ts) eqn:Et.
    + eapply slice_tail; [done|exact Hd|]. intros v l. cbn. rewrite Eb, Et. split; [intros (vs & its & -> & Hf & ->); eauto|intros (vs & -> & Hf); eauto].
    + apply plain_le. eapply slice_plain; [done|exact Hd|]. intros v l. cbn. by rewrite Eb, Et.
Qed.

Lemma array_decoderOk B fuel n e : decodable (TArray n e) = true -> decoderOk B fuel e -> decoderOk B fuel (TArray n e).
Proof.
  intros Hdec He ts last d Ht E. cbn [makeDecoder] in E. unfold makeListDecoder in E. cbn [isTail]. cbn in Hdec. destruct (isByte e) eqn:Eb.
  - injection E as <-. cbn in Hdec. apply andb_true_iff in Hdec as [Hn%negb_true_iff%Nat.eqb_neq _].
    apply (plain_intro _ _ _ _ (fun v it => exists b, v = GBytes b /\ length b = n /\ isBytes b /\ it = IStr b) (decodeByteArray_decodes B _ n Hn)).
    + intros v bs. split; [intros (b & -> & Hl & Hb & ->); exists (IStr b); eauto 10|intros (it & (b & -> & Hl & Hb & ->) & ->); eauto 10].
    + intros v l. cbn. rewrite Eb. split; [intros (b & -> & Hl & Hb & ->); eauto 10|intros (it & -> & b & -> & Hl & Hb & ->); eauto 10].
  - destruct (makeDecoder fuel e noTags) as [de|] eqn:Ee; [|done]. injection E as <-. apply plain_le.
    eapply array_plain; [by eapply decoderOk_elem|]. intros v l. cbn. by rewrite Eb.
Qed.

(** Pointers other than the two that have decoders of their own. *)
Definition ownPtr (e : typ) : bool := match e with TBigInt | TUint256 => true | _ => false end.
Lemma makeDecoder_ptr fuel e ts : ownPtr e = false -> makeDecoder fuel (TPtr e) ts = makePtrDecoder (TPtr e) ts (makeDecoder fuel e noTags).
Proof. by destruct e. Qed.
Lemma repr_ptr strict e ts v l : ownPtr e = false -> repr strict (TPtr e) ts v l =
  (if nilOK ts then
     (v = GNil /\ l = [emptyItem (nilKind ts)]) \/
     (exists x it, v = GPtr x /\ l = [it] /\ repr strict e noTags x [it] /\ encoding it <> emptyOf KString /\ encoding it <> emptyOf KList)
   else exists x, v = GPtr x /\ repr strict e noTags x l).
Proof. by destruct e. Qed.

Lemma ptr_decoderOk B fuel e : decoderOk B fuel e -> decoderOk B fuel (TPtr e).
Proof.
  intros He ts last d Ht E. cbn [isTail]. destruct (ownPtr e) eqn:Eo.
  { destruct e; try done; cbn in E; injection E as <-; [apply decodeBigInt_plain|apply decodeUint256_plain]. }
  rewrite makeDecoder_ptr in E by done. unfold makePtrDecoder in E. destruct (makeDecoder fuel e noTags) as [de|] eqn:Ee; [|done]. injection E as <-.
  pose proof (decoderOk_elem _ _ _ _ He Ee) as Hd. destruct (nilOK ts) eqn:En.
  - eapply nilPtr_plain; [exact Hd|by apply Ht|]. intros v l. by rewrite repr_ptr, En.
  - eapply simplePtr_plain; [exact Hd|]. intros v l. by rewrite repr_ptr, En.
Qed.

Lemma struct_decoderOk B fuel name fs : Forall (fun '(SField _ _ _ t) => decoderOk B fuel t) fs -> decoderOk B fuel (TStruct name fs).
Proof.
  intros Hfs ts last d Ht E. cbn [makeDecoder] in E. unfold makeStructDecoder in E.
  destruct (structFields name _) as [fields|] eqn:Es; [|done]. destruct (fieldInfos name fields) as [fds|] eqn:Ei; [|done]. injection E as <-. cbn [isTail].
  unfold structFields in Es. rewrite map_map in Es. cbn [fst] in Es. rewrite map_id in Es.
  destruct (structFields_ok B fuel name (lastPublicField 0 0 fs) fs Hfs 0 false fields fds) as (frs & Er & Hok & Hnd & Hlt); try done.
  { intros j n tag t Hj. by eapply (lastPublicField_ge fs 0 0). }
  assert (zeroOf (TStruct name fs) = GStruct (map (fun '(SField _ _ _ t) => zeroOf t) fs)) as Hz by done.
  apply plain_le. eapply plain_intro; [eapply (decodeStruct_decodes B _ fds frs); [exact Hz|done|done|]|by intros v bs|].
  { eapply Forall_impl; [exact Hlt|]. cbn. intros f Hf. rewrite length_map. lia. }
  intros v l. cbn [repr]. unfold structFields. rewrite map_map. cbn [fst]. rewrite map_id, Er. destruct (fieldsOk_same _ _ _ Hok) as [Hmi _]. unfold agree. rewrite Hmi.
  split; [intros (vals & its & -> & -> & H1 & H2); eauto 10|intros (it & -> & vals & its & -> & -> & H1 & H2); eauto 10].
Qed.

(** Every decoder reads what the values of its type stand for. *)
Lemma makeDecoder_ok fuel t : decodable t = true -> forall B, (B <= fuel)%nat -> decoderOk B fuel t.
Proof.
  induction t as [ | | |bits| | |e IH|n e IH|name fs IH|e IH| |name] using typ_ind'; intros Hdec B HB.
  - intros ts last d Ht [= <-]. apply decodeRawValue_plain.
  - intros ts last d Ht [= <-]. apply decodeBigIntNoPtr_plain.
  - intros ts last d Ht [= <-]. apply decodeUint256NoPtr_plain.
  - intros ts last d Ht [= <-]. by apply decodeUint_plain.
  - intros ts last d Ht [= <-]. apply decodeBool_plain.
  - intros ts last d Ht [= <-]. by apply decodeBytes_plain.
  - apply slice_decoderOk; [done|by apply IH].
  - apply array_decoderOk; [done|]. apply IH; [|done]. cbn in Hdec. by apply andb_true_iff in Hdec as [_ ?].
  - apply struct_decoderOk. cbn in Hdec. rewrite forallb_forall in Hdec. rewrite Forall_forall in *. intros [n e tag t] Hin.
    apply (IH _ Hin); [|done]. apply (Hdec (SField n e tag t)). by apply list_elem_of_In.
  - apply ptr_decoderOk. by apply IH.
  - intros ts last d Ht [= <-]. cbn [isTail]. eapply (plain_intro _ _ _ _ ifaceRepr); [|by intros v bs|].
    + eapply decodes_le; [exact HB|]. by apply decodeInterface_depth_decodes.
    + intros v l. cbn. split; intros (it & H1 & H2); eauto.
  - intros ts last d Ht. done.
Qed.
End Repr.
