(* ===== verification/RlpWriting.v ===== *)
(** * RlpWriting: what the writers write

    The writers that [makeWriter] chooses add the items a value stands for to the
    buffer; with [RlpEncode.v] the buffer then leaves as their encoding. *)

From S2P Require Import Prelude Uint256 RlpEncode RlpTypes RlpStream RlpReading RlpCodec RlpDecoding RlpRepr.

Import Rlp RlpT.

Section Writing.
Context `{U : Uint256}.

(** ** Zero values *)

Lemma IsZero_zeroOf t : IsZero (zeroOf t) = true.
Proof.
  induction t as [ | | |bits| | |e IH|n e IH|name fs IH|e IH| |name] using typ_ind'; cbn; try done.
  - by rewrite (proj2 (uIsZero_true _)).
  - destruct (isByte e); cbn; induction n; cbn; try done. by rewrite IH.
  - induction IH as [|[n e tag t] fs Ht Hfs IHfs]; cbn; [done|]. by rewrite Ht.
Qed.

Lemma IsZero_list (vs : list gval) (z : gval) : Forall (fun v => IsZero v = true -> v = z) vs -> forallb IsZero vs = true -> vs = replicate (length vs) z.
Proof. induction 1 as [|v vs Hv Hvs IH]; cbn; [done|]. intros [H1 H2]%andb_true_iff. by rewrite (Hv H1), <- IH. Qed.

Lemma forallb_lookup {A} (f : A -> bool) l i x : forallb f l = true -> l !! i = Some x -> f x = true.
Proof. intros Hf Hi. rewrite forallb_forall in Hf. apply Hf, list_elem_of_In. by eapply list_elem_of_lookup_2. Qed.

(** The values of coded fields that are zero are the zero values. *)
Lemma fieldsRepr_zero strict frs vals l : fieldsRepr strict frs vals l -> Forall (fun f => forall v l, info f v l -> IsZero v = true -> v = zeroOf (ftyp f)) frs ->
  forallb IsZero vals = true -> zeroFrom vals frs.
Proof.
  induction 1 as [vals|f fs vals v l1 l2 Hv Hi Hr IH Hs|f fs vals Ho Hz]; intros Hf Hz0; [constructor| |done].
  apply Forall_cons in Hf as [Hf Hfs]. constructor; [|by apply IH]. rewrite Hv. f_equal. eapply Hf; [done|]. by eapply forallb_lookup.
Qed.

Lemma structFields_typ {X} (g : sfield -> tags -> X) (P : typ -> X -> Prop) name last fs : forall i any fields,
  Forall (fun f => forall ts, P (match f with SField _ _ _ t => t end) (g f ts)) fs ->
  structFields_loop name last i any (map (fun f => (f, g f)) fs) = inl fields ->
  Forall (fun f => P (ftyp f) (info f) /\ (i <= index f)%nat /\ exists n e tag, fs !! (index f - i)%nat = Some (SField n e tag (ftyp f))) fields.
Proof.
  induction fs as [|[n e tag t] fs IH]; intros i any fields HP H; cbn in H; [injection H as <-; constructor|]. apply Forall_cons in HP as [HP HPs].
  assert (forall fields, Forall (fun f : field X => P (ftyp f) (info f) /\ (S i <= index f)%nat /\ exists n e tag, fs !! (index f - S i)%nat = Some (SField n e tag (ftyp f))) fields ->
    Forall (fun f : field X => P (ftyp f) (info f) /\ (i <= index f)%nat /\ exists n' e' tag', (SField n e tag t :: fs) !! (index f - i)%nat = Some (SField n' e' tag' (ftyp f))) fields) as Hw.
  { intros l Hl. eapply Forall_impl; [exact Hl|]. cbn. intros f (H1 & H2 & H3). split_and!; [done|lia|]. replace (index f - i)%nat with (S (index f - S i)) by lia. done. }
  destruct e; [|by eapply Hw, IH]. destruct (parseStructTag _ _ _ _ _) as [ts|]; [|done]. destruct (ignored ts); [by eapply Hw, IH|].
  destruct (_ && any); [done|]. destruct (structFields_loop _ _ _ _ _) as [r|] eqn:Er; [|done]. injection H as <-. constructor; [|by eapply Hw, IH].
  cbn. split; [apply HP|]. split; [lia|]. rewrite Nat.sub_diag. cbn. eauto.
Qed.

Lemma list_eq_zero (vals zeros : list gval) : length vals = length zeros -> (forall i v, vals !! i = Some v -> zeros !! i = Some v) -> vals = zeros.
Proof.
  intros Hl H. apply list_eq. intros i. destruct (vals !! i) as [v|] eqn:E; [by symmetry; apply H|]. symmetry. apply lookup_ge_None. rewrite <- Hl. by apply lookup_ge_None.
Qed.

Lemma repr_zero strict t : forall ts v l, repr strict t ts v l -> IsZero v = true -> v = zeroOf t.
Proof.
  induction t as [ | | |bits| | |e IH|n e IH|name fs IH|e IH| |name] using typ_ind'; intros ts v l; cbn [repr zeroOf].
  - by intros (b & -> & _).
  - intros (i & -> & _). cbn. by intros ->%Z.eqb_eq.
  - intros (x & -> & _). cbn. by intros ->%uIsZero_true.
  - intros (i & -> & _). cbn. by intros ->%Z.eqb_eq.
  - intros (b & -> & _). cbn. by destruct b.
  - intros (b & -> & _). cbn. by destruct b.
  - destruct (isByte e); [by intros (b & -> & _)|by intros (vs & its & -> & _)].
  - destruct (isByte e); [intros (b & -> & <- & _)|intros (vs & its & -> & <- & Hf & _)]; cbn; intros Hz.
    + f_equal. clear -Hz. induction b as [|x b IHb]; cbn in *; [done|]. apply andb_true_iff in Hz as [Hx Hz]. destruct x; [|done..]. by rewrite <- IHb.
    + f_equal. apply IsZero_list; [|done]. apply Forall_forall. intros v Hv. apply list_elem_of_lookup in Hv as [i Hi].
      destruct (Forall2_lookup_l _ _ _ _ _ Hf Hi) as (it & _ & Hr). by eapply IH.
  - destruct (structFields name _) as [frs|] eqn:Es; [|done]. intros (vals & its & -> & _ & Hf & Hag). cbn. intros Hz. f_equal.
    unfold structFields in Es. rewrite map_map in Es. cbn [fst] in Es. rewrite map_id in Es.
    pose proof (structFields_typ (fun f => match f with SField _ _ _ ft => repr strict ft end) (fun t R => forall v l, R v l -> IsZero v = true -> v = zeroOf t) _ _ fs _ _ _
      ltac:(eapply Forall_impl; [exact IH|]; intros [n e tag t] Ht ts' v' l'; by apply Ht) Es) as Hft.
    assert (zeroFrom vals frs) as Hzf. { eapply fieldsRepr_zero; [done| |done]. eapply Forall_impl; [exact Hft|]. intros f [H _]. done. }
    destruct Hag as [Hlen Hag]. apply list_eq_zero; [done|]. intros i v Hv.
    destruct (decide (i ∈ map index frs)) as [Hin|Hni]; [|by rewrite <- Hag].
    apply list_elem_of_fmap in Hin as (f & -> & Hin). unfold zeroFrom in Hzf. rewrite Forall_forall in Hzf, Hft. pose proof (Hzf f Hin) as Hvz. rewrite Hv in Hvz. injection Hvz as ->.
    destruct (Hft f Hin) as (_ & _ & n & e & tag & Hlk). rewrite Nat.sub_0_r in Hlk. by rewrite list_lookup_fmap, Hlk.
  - destruct e; first [by intros (x & -> & _)|destruct (nilOK ts); [by intros [[-> _]|(x & it & -> & _)]|by intros (x & -> & _)]].
  - intros (it & Hi & _). by destruct Hi.
  - done.
Qed.

(** ** Adding items *)

(** Encodings that fit a slice. *)
Definition small (l : list item) : Prop := Z.of_nat (length (encodings l)) < 2 ^ 63.

Lemma small_app l1 l2 : small (l1 ++ l2) -> small l1 /\ small l2.
Proof. unfold small. rewrite encodings_app, length_app. lia. Qed.
Lemma small_list its : small [IList its] -> small its.
Proof. unfold small. rewrite encodings_one. cbn [encoding]. unfold encList. rewrite length_app. fold (encodings its). lia. Qed.
Lemma small_cons it l : small (it :: l) -> small [it] /\ small l.
Proof. apply (small_app [it] l). Qed.
Lemma small_str b : small [IStr b] -> Z.of_nat (length b) < two64.
Proof. unfold small. rewrite encodings_one. pose proof (encodeString_length b). cbn [encoding]. lia. Qed.

Lemma adds_encodeString b : small [IStr b] -> adds (fun w => Ok (encodeString b w)) [IStr b].
Proof. intros Hs%small_str. apply adds_str. intros w. by rewrite encodeString_spec. Qed.
Lemma adds_writeByteArray b : small [IStr b] -> adds (fun w => Ok (writeByteArray b w)) [IStr b].
Proof. intros Hs%small_str. apply adds_str. intros w. by rewrite writeByteArray_spec. Qed.
Lemma adds_encodeUint i : in_u64 i -> adds (fun w => Ok (encodeUint i w)) [IStr (minimal i)].
Proof. intros Hi. apply adds_str. intros w. by rewrite encodeUint_spec. Qed.
Lemma adds_writeBigInt i : 0 <= i -> small [IStr (minimal i)] -> adds (writeBigInt i) [IStr (minimal i)].
Proof. intros Hi Hs%small_str. apply adds_str. intros w. by rewrite writeBigInt_spec. Qed.
Lemma adds_writeUint256 x : adds (fun w => Ok (writeUint256 x w)) [IStr (minimal (uval x))].
Proof. apply adds_str. intros w. by rewrite writeUint256_spec. Qed.
Lemma adds_writeBool b : adds (fun w => Ok (writeBool b w)) [IStr (if b then [1] else [])].
Proof. apply adds_str. intros w. by destruct b. Qed.
Lemma adds_empty k : k <> KByte -> adds (fun w => if decide (k = KString) then Ok (write [EmptyStringCode] w) else inList Ok w) [emptyItem k].
Proof.
  intros Hk. destruct k; [done|..]; cbn [emptyItem].
  - apply adds_str. done.
  - apply (adds_list Ok []); [done|apply adds_nil].
Qed.

Lemma writeString_eq b w : writeString (GString b) w = Ok (encodeString b w).
Proof. destruct b as [|x [|y b]]; [done| |done]. cbn. unfold encodeString. cbn. by destruct (x <=? 127). Qed.

Lemma adds_ext f g l : (forall w, f w = g w) -> adds g l -> adds f l.
Proof. intros He Hg w. by rewrite He. Qed.

Lemma adds_inList f l : small l -> adds f l -> adds (inList f) [IList l].
Proof. intros Hs Hf. by apply adds_list. Qed.

Lemma writeElems_adds f vs its : Forall2 (fun v it => adds (f v) [it]) vs its -> adds (writeElems f vs) its.
Proof.
  unfold writeElems. induction 1 as [|v it vs its Hv Hvs IH]; intros w; cbn; [by rewrite addedL_nil|].
  by rewrite Hv, (IH (addedL [it] w)), <- addedL_app.
Qed.

Lemma Forall2_small {A} (P Q : A -> item -> Prop) vs its : small its -> (forall v it, v ∈ vs -> P v it -> small [it] -> Q v it) -> Forall2 P vs its -> Forall2 Q vs its.
Proof.
  intros Hs HPQ Hf. induction Hf as [|v it vs its Hv Hvs IH]; [constructor|]. apply small_cons in Hs as [H1 H2].
  constructor; [apply HPQ; [constructor|done|done]|]. apply IH; [done|]. intros v' it' Hin. apply HPQ. by constructor.
Qed.

(** ** Interfaces *)

Definition dynamicOf (n : nat) : typ -> writer := match n with O => fun _ _ _ => Err "out of fuel" | S n => encodeDepth n end.

Lemma encodeDepth_eq n t : encodeDepth n t = fun v w => match makeWriter (dynamicOf n) t noTags with inl wr => wr v w | inr e => Err e end.
Proof. by destruct n. Qed.

Lemma list_max_elem (f : gval -> nat) l n v : (list_max (map f l) <= n)%nat -> v ∈ l -> (f v <= n)%nat.
Proof. intros Hm Hv. apply list_max_le in Hm. rewrite Forall_map, Forall_forall in Hm. by apply Hm. Qed.

Lemma writeInterface_adds n : forall v it, ifaceRepr v it -> (ifaceDepth v <= n)%nat -> small [it] -> adds (writeInterface (dynamicOf n) v) [it].
Proof.
  induction n as [|n IH]; intros v it Hv Hd Hs; [by destruct Hv; cbn in Hd; lia|]. destruct Hv as [b Hb|vs l Hvs].
  - apply (adds_ext _ (fun w => Ok (encodeString b w))); [|by apply adds_encodeString]. intros w. cbn. by rewrite encodeDepth_eq.
  - apply (adds_ext _ (inList (writeElems (writeInterface (dynamicOf n)) vs))); [intros w; cbn; by rewrite encodeDepth_eq|]. apply small_list in Hs. apply adds_inList; [done|].
    apply writeElems_adds. eapply Forall2_small; [done| |exact Hvs]. intros v it Hin Hv Hi. apply IH; [done| |done].
    cbn in Hd. eapply list_max_elem; [|exact Hin]. lia.
Qed.

(** ** Structs *)

(** The writer writes what the values stand for. *)
Definition writes (n : nat) (wr : writer) (R : fieldRel) : Prop := forall v l, R v l -> (ifaceDepth v <= n)%nat -> small l -> adds (wr v) l.

Definition zeroRel (t : typ) (R : fieldRel) : Prop := forall v l, R v l -> IsZero v = true -> v = zeroOf t.
Definition neverZero (R : fieldRel) : Prop := forall v l, R v l -> IsZero v = false.

(** After an optional field all are optional, or a tail ends the struct. *)
Fixpoint optionalEnd (any : bool) (frs : list (field fieldRel)) : Prop :=
  match frs with
  | [] => True
  | f :: fs => (any = true -> foptional f = true \/ (fs = [] /\ neverZero (info f))) /\ optionalEnd (any || foptional f) fs
  end.

Definition writesField (n : nat) (fw : field writer) (fr : field fieldRel) : Prop :=
  sameField fw fr /\ writes n (info fw) (info fr) /\ zeroRel (ftyp fr) (info fr).

(** How many fields a strict list of items has, and that they are written. *)
Lemma writeFields_adds n frs vals l : fieldsRepr true frs vals l -> forall fws, Forall2 (writesField n) fws frs ->
  Forall (fun v => ifaceDepth v <= n)%nat vals -> small l ->
  exists k, (k <= length frs)%nat /\ (k = length frs \/ exists f, frs !! k = Some f /\ foptional f = true) /\ zeroFrom vals (drop k frs) /\
    (forall j f, (j < k)%nat -> frs !! j = Some f -> exists v l1, vals !! index f = Some v /\ info f v l1 /\
      (foptional f = true -> zeroFrom vals (drop (S j) frs) -> IsZero v = false)) /\
    adds (writeFields (take k fws) vals) l.
Proof.
  induction 1 as [vals|f fs vals v l1 l2 Hv Hi Hr IH Hs|f fs vals Ho Hz]; intros fws Hf Hd Hsm.
  - inversion Hf; subst. exists 0%nat. split_and!; [done|by left|constructor|intros j f Hj; lia|apply adds_nil].
  - inversion Hf as [|fw ? fws' ? (Hsame & Hw & Hzr) Hf']; subst. apply small_app in Hsm as [Hs1 Hs2].
    destruct (IH fws' Hf' Hd Hs2) as (k & H1 & H2 & H3 & H4 & H5). exists (S k). split_and!; [cbn; lia| |done|..].
    + destruct H2 as [->|H2]; [by left|by right].
    + intros [|j] f' Hj Hf0; [|apply (H4 j f'); [lia|done]]. injection Hf0 as <-. exists v, l1. split_and!; [done|done|]. intros Ho Hzf.
      apply not_true_iff_false. intros Hz. apply (Hs eq_refl Ho). constructor; [|done]. rewrite Hv. f_equal. by eapply Hzr.
    + cbn [take]. pose proof Hsame as (Hidx & _). apply (adds_ext _ (fun w => w ← info fw v w; writeFields (take k fws') vals w)).
      { intros w. cbn [writeFields]. by rewrite Hidx, Hv. }
      apply adds_seq; [|done]. apply Hw; [done| |done]. rewrite Forall_forall in Hd. apply Hd. by eapply list_elem_of_lookup_2.
  - exists 0%nat. split_and!; [lia|right; by exists f|done|intros j f' Hj; lia|]. cbn. apply adds_nil.
Qed.

Lemma lastField_spec first (fws : list (field writer)) vals k : forall n, (k <= n <= length fws)%nat ->
  (forall j f, (k <= j < n)%nat -> fws !! j = Some f -> (first <= j)%nat /\ exists v, vals !! index f = Some v /\ IsZero v = true) ->
  (forall j f, k = S j -> (first <= j)%nat -> fws !! j = Some f -> exists v, vals !! index f = Some v /\ IsZero v = false) ->
  lastField first n fws vals = Ok k.
Proof.
  induction n as [|m IH]; intros Hn Hz Hstop; [by assert (k = 0%nat) as -> by lia|]. cbn [lastField].
  destruct (lookup_lt_is_Some_2 fws m ltac:(lia)) as [f Hf]. destruct (decide (k = S m)) as [->|Hne].
  - destruct (Nat.leb_spec first m); [|done]. destruct (Hstop m f eq_refl ltac:(lia) Hf) as (v & Hv & Hzv). rewrite Hf. cbn. rewrite Hv. cbn. by rewrite Hzv.
  - destruct (Hz m f ltac:(lia) Hf) as (Hfm & v & Hv & Hzv). rewrite (proj2 (Nat.leb_le _ _) Hfm), Hf. cbn. rewrite Hv. cbn. rewrite Hzv.
    apply IH; [lia| |done]. intros j f' Hj. apply Hz. lia.
Qed.

Lemma firstOptionalField_le {X} (fs : list (field X)) j f : fs !! j = Some f -> foptional f = true -> (firstOptionalField fs <= j)%nat.
Proof.
  revert j. induction fs as [|g fs IH]; intros j Hj Ho; [done|]. cbn. destruct (foptional g) eqn:E; [lia|]. destruct j as [|j]; cbn in Hj; [congruence|].
  specialize (IH j Hj Ho). lia.
Qed.

Lemma optionalEnd_after any frs j f : optionalEnd any frs -> frs !! j = Some f -> (any = true \/ firstOptionalField frs <= j)%nat ->
  foptional f = true \/ neverZero (info f).
Proof.
  revert any j. induction frs as [|g frs IH]; intros any j Hend Hj Hor; [done|]. destruct Hend as [Hg Hend]. destruct j as [|j]; cbn in Hj, Hor.
  - injection Hj as ->. destruct (foptional f) eqn:E; [by left|]. destruct Hor as [->|?]; [|lia]. destruct (Hg eq_refl) as [?|[_ ?]]; [done|by right].
  - apply (IH (any || foptional g) j Hend Hj). destruct (foptional g) eqn:E; [left; by destruct any|]. destruct Hor as [->|?]; [by left|right; lia].
Qed.

Lemma firstOptionalField_same n fws frs : Forall2 (writesField n) fws frs -> firstOptionalField fws = firstOptionalField frs.
Proof. induction 1 as [|fw fr fws frs ((_ & _ & Ho) & _) Hf IH]; [done|]. cbn. by rewrite Ho, IH. Qed.

Lemma writeStruct_adds n fws frs vals l : Forall2 (writesField n) fws frs -> optionalEnd false frs -> fieldsRepr true frs vals l ->
  Forall (fun v => ifaceDepth v <= n)%nat vals -> small [IList l] -> adds (writeStruct fws vals) [IList l].
Proof.
  intros Hf Hend Hr Hd Hs%small_list. destruct (writeFields_adds n frs vals l Hr fws Hf Hd Hs) as (k & Hk & Hcut & Hzero & Hbefore & Hadds).
  pose proof (Forall2_length _ _ _ Hf) as Hlen. pose proof (firstOptionalField_same _ _ _ Hf) as Hfirst. unfold writeStruct. destruct (Nat.eqb_spec (firstOptionalField fws) (length fws)) as [He|He].
  - assert (k = length frs) as ->.
    { destruct Hcut as [?|(f & Hfk & Ho)]; [done|]. pose proof (firstOptionalField_le frs k f Hfk Ho). apply lookup_lt_Some in Hfk. lia. }
    rewrite <- Hlen, firstn_all in Hadds. by apply adds_inList.
  - rewrite (lastField_spec _ fws vals k); [by apply adds_inList|lia|..].
    + intros j f Hj Hfj. rewrite Hfirst. destruct Hcut as [->|(g & Hgk & Ho)]; [lia|]. pose proof (firstOptionalField_le frs k g Hgk Ho). split; [lia|].
      destruct (Forall2_lookup_l _ _ _ _ _ Hf Hfj) as (fr & Hfr & (Hidx & _) & _). unfold zeroFrom in Hzero. rewrite Forall_forall in Hzero.
      rewrite Hidx. exists (zeroOf (ftyp fr)). split; [|apply IsZero_zeroOf]. apply Hzero. apply list_elem_of_lookup. exists (j - k)%nat. rewrite lookup_drop.
      by replace (k + (j - k))%nat with j by lia.
    + intros j f -> Hfj Hj. destruct (Forall2_lookup_l _ _ _ _ _ Hf Hj) as (fr & Hfr & (Hidx & _) & _). destruct (Hbefore j fr ltac:(lia) Hfr) as (v & l1 & Hv & Hi & Hz).
      rewrite Hidx. exists v. split; [done|]. rewrite Hfirst in Hfj. destruct (optionalEnd_after false frs j fr Hend Hfr ltac:(by right)) as [Ho|Hn]; [by apply Hz|by eapply Hn].
Qed.

(** ** Every writer *)

Definition writerOk (n : nat) (t : typ) : Prop := forall ts last wr, tagsOk last t ts -> makeWriter (dynamicOf n) t ts = inl wr -> writes n wr (repr true t ts).

Lemma tail_neverZero strict t ts : tail ts = true -> isSlice t = true -> neverZero (repr strict t ts).
Proof.
  intros Ht Hs v l. destruct t; try done; cbn [repr]; [by intros (b & -> & _)|]. destruct (isByte t); [by intros (b & -> & _)|by intros (vs & its & -> & _)].
Qed.

Lemma structFields_writers n name last fs : Forall (fun '(SField _ _ _ t) => writerOk n t) fs -> forall i any fields fws,
  (forall j n tag t, fs !! j = Some (SField n true tag t) -> (i + j <= last)%nat) ->
  structFields_loop name last i any (map (fun f => (f, match f with SField _ _ _ ft => makeWriter (dynamicOf n) ft end)) fs) = inl fields ->
  fieldInfos name fields = inl fws ->
  exists frs, structFields_loop name last i any (map (fun f => (f, match f with SField _ _ _ ft => repr true ft end)) fs) = inl frs /\
    Forall2 (writesField n) fws frs /\ optionalEnd any frs.
Proof.
  induction 1 as [|[nm e tag t] fs Hf Hfs IH]; intros i any fields fws Hlast Hs Hi; cbn [map structFields_loop] in *.
  { injection Hs as <-. injection Hi as <-. exists []. split_and!; constructor. }
  assert (forall j n tag t, fs !! j = Some (SField n true tag t) -> (S i + j <= last)%nat) as Hlast'.
  { intros j n' tag' t' Hj. specialize (Hlast (S j) n' tag' t' Hj). lia. }
  destruct e; [|by eapply IH]. destruct (parseStructTag name nm tag t (i =? last)%nat) as [ts|] eqn:Ep; [|done]. pose proof (parseStructTag_ok _ _ _ _ _ _ Ep) as Ht.
  destruct (ignored ts); [by eapply IH|]. destruct (negb (optional ts || tail ts) && any) eqn:Ea; [done|].
  destruct (structFields_loop name last (S i) _ _) as [r|] eqn:Er; [|done]. injection Hs as <-. cbn [fieldInfos info] in Hi.
  destruct (makeWriter (dynamicOf n) t ts) as [wr|] eqn:Ed; [|done]. destruct (fieldInfos name r) as [fws'|] eqn:Ei; [|done]. injection Hi as <-.
  destruct (IH (S i) _ r fws' Hlast' Er Ei) as (frs & E & H1 & H2). rewrite E. eexists. split; [done|]. split.
  - constructor; [|done]. split; [done|]. split; [by eapply Hf|]. intros v l. apply repr_zero.
  - assert (tail ts = true -> frs = []) as Htl.
    { intros Htl. destruct (proj1 Ht Htl) as (Hlst%Nat.eqb_eq & _).
      rewrite (structFields_private name last (fun f => match f with SField _ _ _ ft => repr true ft end)) in E; [by injection E as <-|].
      intros j n' tag' t' Hj. specialize (Hlast' j n' tag' t' Hj). lia. }
    cbn. split.
    + intros ->. rewrite andb_true_r in Ea. apply negb_false_iff, orb_true_iff in Ea as [Ho|Htt]; [by left|]. right. split; [by apply Htl|].
      apply tail_neverZero; [done|]. by apply (proj1 Ht Htt).
    + destruct (tail ts); [by rewrite (Htl eq_refl)|]. by rewrite orb_false_r in H2.
Qed.

Lemma makeWriter_ptr n e ts : ownPtr e = false -> makeWriter (dynamicOf n) (TPtr e) ts = makePtrWriter e ts (makeWriter (dynamicOf n) e noTags).
Proof. by destruct e. Qed.

Lemma writerOk_elems n e wr vs its : writerOk n e -> makeWriter (dynamicOf n) e noTags = inl wr -> Forall2 (fun x it => repr true e noTags x [it]) vs its ->
  (list_max (map ifaceDepth vs) <= n)%nat -> small its -> adds (writeElems wr vs) its.
Proof.
  intros He E Hf Hd Hs. apply writeElems_adds. eapply Forall2_small; [done| |exact Hf]. intros v it Hin Hv Hi.
  apply (He noTags false wr (noTags_ok e) E); [done| |done]. by eapply list_max_elem.
Qed.

Lemma sequence_writes n e wr ts (vs : list gval) its : writerOk n e -> makeWriter (dynamicOf n) e noTags = inl wr -> Forall2 (fun x it => repr true e noTags x [it]) vs its ->
  (list_max (map ifaceDepth vs) <= n)%nat -> small (if tail ts then its else [IList its]) ->
  adds (fun w => if tail ts then writeElems wr vs w else inList (writeElems wr vs) w) (if tail ts then its else [IList its]).
Proof.
  intros He E Hf Hd Hs. destruct (tail ts); [by eapply writerOk_elems|]. apply small_list in Hs. apply adds_inList; [done|]. by eapply writerOk_elems.
Qed.

Lemma list_writerOk n e ts wr : writerOk n e -> makeSliceWriter ts (makeWriter (dynamicOf n) e noTags) = inl wr ->
  forall vs its, Forall2 (fun x it => repr true e noTags x [it]) vs its -> (list_max (map ifaceDepth vs) <= n)%nat -> small (if tail ts then its else [IList its]) ->
  adds (wr (GSlice vs)) (if tail ts then its else [IList its]) /\ adds (wr (GList vs)) (if tail ts then its else [IList its]).
Proof.
  intros He E vs its Hf Hd Hs. unfold makeSliceWriter in E. destruct (makeWriter (dynamicOf n) e noTags) as [we|] eqn:Ee; [|done]. injection E as <-.
  split; by eapply adds_ext; [|eapply sequence_writes]; cbn.
Qed.

Lemma makeWriter_ok n t : decodable t = true -> writerOk n t.
Proof.
  induction t as [ | | |bits| | |e IH|k e IH|name fs IH|e IH| |name] using typ_ind'; intros Hdec ts last wr Ht E v l Hv Hd Hs.
  - injection E as <-. destruct Hv as (b & -> & Hb & ->). apply adds_raw.
  - injection E as <-. destruct Hv as (i & -> & Hi & ->). by apply adds_writeBigInt.
  - injection E as <-. destruct Hv as (x & -> & ->). apply adds_writeUint256.
  - injection E as <-. destruct Hv as (i & -> & Hi & ->). apply adds_encodeUint. cbn in Hdec. apply andb_true_iff in Hdec as [_ Hb%Z.leb_le].
    unfold in_u64. split; [lia|]. assert (2 ^ bits <= 2 ^ 64) by (apply Z.pow_le_mono_r; lia). lia.
  - injection E as <-. destruct Hv as (b & -> & ->). apply adds_writeBool.
  - injection E as <-. destruct Hv as (b & -> & Hb & ->). eapply adds_ext; [intros w; apply writeString_eq|by apply adds_encodeString].
  - cbn [makeWriter repr] in E, Hv. destruct (isByte e) eqn:Eb; [injection E as <-; destruct Hv as (b & -> & Hb & ->); by apply adds_encodeString|].
    destruct Hv as (vs & its & -> & Hf & ->). by eapply (list_writerOk n e ts wr (IH Hdec) E).
  - cbn [makeWriter repr] in E, Hv. cbn in Hdec. apply andb_true_iff in Hdec as [_ Hdec].
    destruct (isByte e) eqn:Eb; [injection E as <-; destruct Hv as (b & -> & Hl & Hb & ->); by apply adds_writeByteArray|].
    destruct Hv as (vs & its & -> & Hl & Hf & ->).
    assert (tail ts = false) as Htl. { destruct (tail ts) eqn:Htl; [|done]. by destruct (proj1 Ht Htl) as (_ & _ & ?). }
    pose proof (list_writerOk n e ts wr (IH Hdec) E vs its Hf) as H. rewrite Htl in H. by apply H.
  - cbn [makeWriter repr] in E, Hv. unfold makeStructWriter in E. destruct (structFields name (map _ fs)) as [fields|] eqn:Es in E; [|done].
    destruct (fieldInfos name fields) as [fws|] eqn:Ei; [|done]. injection E as <-.
    unfold structFields in Es, Hv. rewrite !map_map in Es, Hv. cbn [fst] in Es, Hv. rewrite map_id in Es, Hv.
    cbn in Hdec. rewrite forallb_forall in Hdec.
    destruct (structFields_writers n name (lastPublicField 0 0 fs) fs) with (i := 0%nat) (any := false) (fields := fields) (fws := fws) as (frs & Er & Hfw & Hend); try done.
    { rewrite Forall_forall in *. intros [nm e tag t] Hin. apply (IH _ Hin). apply (Hdec (SField nm e tag t)). by apply list_elem_of_In. }
    { intros j nm tag t Hj. by eapply (lastPublicField_ge fs 0 0). }
    rewrite Er in Hv. destruct Hv as (vals & its & -> & -> & Hr & _). eapply writeStruct_adds; try done.
    apply Forall_forall. intros v Hin. by eapply list_max_elem.
  - destruct (ownPtr e) eqn:Eo.
    { destruct e; try done; injection E as <-; [destruct Hv as (i & -> & Hi & ->); by apply adds_writeBigInt|destruct Hv as (x & -> & ->); apply adds_writeUint256]. }
    rewrite makeWriter_ptr in E by done. rewrite repr_ptr in Hv by done. unfold makePtrWriter in E.
    destruct (makeWriter (dynamicOf n) e noTags) as [we|] eqn:Ee; [|done]. injection E as <-. pose proof (IH Hdec noTags false we (noTags_ok e) Ee) as Hwe.
    destruct (nilOK ts) eqn:En; [destruct Hv as [[-> ->]|(x & it & -> & -> & Hv & _)]|destruct Hv as (x & -> & Hv)].
    + eapply adds_ext; [|apply (adds_empty (nilKind ts)); by apply Ht]. done.
    + by apply Hwe.
    + by apply Hwe.
  - injection E as <-. destruct Hv as (it & Hi & ->). by apply writeInterface_adds.
  - done.
Qed.
End Writing.
