(* ===== verification/RlpTheorems.v ===== *)
(** * RlpTheorems: encoding and decoding are inverse

    The properties of the RLP package: what is encoded decodes to itself, what
    decodes is the only encoding of its value, decoding always returns, every
    output gives the same bytes, and the functions of [raw.go] agree with the
    format. *)

From S2P Require Import Prelude Uint256 RlpEncode RlpTypes RlpStream RlpReading RlpScratch RlpCodec RlpDecoding RlpRepr RlpWriting.

Import Rlp RlpT Stream.

Section Theorems.
Context `{U : Uint256}.

(** ** The bytes of an encoding *)

Lemma isBytes_app a b : isBytes (a ++ b) <-> isBytes a /\ isBytes b.
Proof. apply Forall_app. Qed.

Lemma puthead_isBytes a b n : isBytes (puthead a b n).
Proof.
  unfold puthead. case_match; [repeat constructor; apply Z.mod_pos_bound; lia|]. constructor; [apply Z.mod_pos_bound; lia|]. apply be_bytes_isBytes.
Qed.
Lemma encString_isBytes b : isBytes b -> isBytes (encString b).
Proof.
  intros Hb. destruct b as [|x [|y b]]; [unfold encString; rewrite app_nil_r; apply puthead_isBytes| |].
  - cbn. apply Forall_cons in Hb as [Hx _]. case_match; repeat constructor; lia.
  - unfold encString. apply isBytes_app. split; [apply puthead_isBytes|done].
Qed.
Lemma encList_isBytes p : isBytes p -> isBytes (encList p).
Proof. intros Hp. unfold encList. apply isBytes_app. split; [apply puthead_isBytes|done]. Qed.

Lemma encodings_isBytes l : Forall (fun it => isBytes (encoding it)) l -> isBytes (encodings l).
Proof. induction 1; [constructor|]. by apply isBytes_app. Qed.

Lemma emptyItem_isBytes k : isBytes (encoding (emptyItem k)).
Proof. destruct k; cbn [emptyItem encoding]; [apply encString_isBytes|apply encString_isBytes|apply encList_isBytes]; constructor. Qed.

Lemma isRaw_isBytes b : isRaw b -> isBytes b.
Proof.
  intros (k & sz & bv & p & Hh & _ & Hp & ->). apply isBytes_app. split; [|done]. destruct k; cbn in *; [repeat constructor; lia|apply puthead_isBytes..].
Qed.

Lemma ifaceRepr_isBytes n : forall v it, (ifaceDepth v <= n)%nat -> ifaceRepr v it -> isBytes (encoding it).
Proof.
  induction n as [|n IH]; intros v it Hd Hv; destruct Hv as [b Hb|vs l Hvs]; cbn in Hd; try lia; [by apply encString_isBytes|].
  apply encList_isBytes, encodings_isBytes. apply Forall_forall. intros it Hin. apply list_elem_of_lookup in Hin as [i Hi].
  destruct (Forall2_lookup_r _ _ _ _ _ Hvs Hi) as (v & Hv & Hr). eapply (IH v); [|done]. eapply list_max_elem; [|by eapply list_elem_of_lookup_2]. lia.
Qed.

Lemma fieldsRepr_isBytes strict frs vals l : fieldsRepr strict frs vals l -> Forall (fun f => forall v l, info f v l -> isBytes (encodings l)) frs -> isBytes (encodings l).
Proof.
  induction 1 as [vals|f fs vals v l1 l2 Hv Hi Hr IH Hs|f fs vals Ho Hz]; intros Hf; [constructor| |constructor]. apply Forall_cons in Hf as [Hf Hfs].
  rewrite encodings_app. apply isBytes_app. split; [by eapply Hf|by apply IH].
Qed.

Lemma elems_isBytes strict e vs its : (forall ts v l, repr strict e ts v l -> isBytes (encodings l)) -> Forall2 (fun x it => repr strict e noTags x [it]) vs its -> isBytes (encodings its).
Proof.
  intros He Hf. apply encodings_isBytes. apply Forall_forall. intros it Hin. apply list_elem_of_lookup in Hin as [i Hi].
  destruct (Forall2_lookup_r _ _ _ _ _ Hf Hi) as (v & Hv & Hr). apply He in Hr. by rewrite encodings_one in Hr.
Qed.

Lemma repr_isBytes strict t : forall ts v l, repr strict t ts v l -> isBytes (encodings l).
Proof.
  induction t as [ | | |bits| | |e IH|n e IH|name fs IH|e IH| |name] using typ_ind'; intros ts v l; cbn [repr].
  - intros (b & _ & Hb & ->). rewrite encodings_one. by apply isRaw_isBytes.
  - intros (i & _ & _ & ->). rewrite encodings_one. apply encString_isBytes, minimal_isBytes.
  - intros (x & _ & ->). rewrite encodings_one. apply encString_isBytes, minimal_isBytes.
  - intros (i & _ & _ & ->). rewrite encodings_one. apply encString_isBytes, minimal_isBytes.
  - intros (b & _ & ->). rewrite encodings_one. apply encString_isBytes. destruct b; repeat constructor; lia.
  - intros (b & _ & Hb & ->). rewrite encodings_one. by apply encString_isBytes.
  - destruct (isByte e); [intros (b & _ & Hb & ->); rewrite encodings_one; by apply encString_isBytes|]. intros (vs & its & _ & Hf & ->).
    pose proof (elems_isBytes _ _ _ _ IH Hf). destruct (tail ts); [done|]. rewrite encodings_one. by apply encList_isBytes.
  - destruct (isByte e); [intros (b & _ & _ & Hb & ->); rewrite encodings_one; by apply encString_isBytes|]. intros (vs & its & _ & _ & Hf & ->).
    pose proof (elems_isBytes _ _ _ _ IH Hf). rewrite encodings_one. by apply encList_isBytes.
  - destruct (structFields name _) as [frs|] eqn:Es; [|done]. intros (vals & its & _ & -> & Hf & _). rewrite encodings_one. apply encList_isBytes.
    eapply fieldsRepr_isBytes; [done|]. unfold structFields in Es. rewrite map_map in Es. cbn [fst] in Es. rewrite map_id in Es.
    pose proof (structFields_typ (fun f => match f with SField _ _ _ ft => repr strict ft end) (fun t R => forall v l, R v l -> isBytes (encodings l)) _ _ fs _ _ _
      ltac:(eapply Forall_impl; [exact IH|]; intros [n e tag t] Ht ts' v' l'; by apply Ht) Es) as Hft.
    eapply Forall_impl; [exact Hft|]. intros f [H _]. done.
  - destruct e; first [by intros (x & _ & ->); rewrite encodings_one; apply encString_isBytes, minimal_isBytes
      |by intros (i & _ & _ & ->); rewrite encodings_one; apply encString_isBytes, minimal_isBytes
      |destruct (nilOK ts); [|by intros (x & _ & Hx); eapply IH];
       intros [[_ ->]|(x & it & _ & -> & Hx & _)]; [rewrite encodings_one; apply emptyItem_isBytes|by eapply IH]].
  - intros (it & Hi & ->). rewrite encodings_one. by eapply ifaceRepr_isBytes.
  - done.
Qed.

(** ** Types without optional fields *)

Fixpoint noOptional (t : typ) : bool :=
  match t with
  | TSlice e | TArray _ e | TPtr e => noOptional e
  | TStruct name fs =>
      match structFields name (map (fun f => (f, fun _ : tags => match f with SField _ _ _ ft => noOptional ft end)) fs) with
      | inl fields => forallb (fun f => negb (foptional f) && info f) fields
      | inr _ => true
      end
  | _ => true
  end.

Definition fieldMap {X Y} (phi : X -> Y) (f : field X) : field Y :=
  {| index := index f; fname := fname f; ftyp := ftyp f; foptional := foptional f; info := phi (info f) |}.

(** What a struct's fields carry does not matter to which fields there are. *)
Lemma structFields_nat {X Y} (phi : X -> Y) (g : sfield -> tags -> X) name last fs : forall i any,
  structFields_loop name last i any (map (fun f => (f, fun ts => phi (g f ts))) fs) =
  match structFields_loop name last i any (map (fun f => (f, g f)) fs) with inl r => inl (map (fieldMap phi) r) | inr e => inr e end.
Proof.
  induction fs as [|[n e tag t] fs IH]; intros i any; [done|]. cbn. destruct e; [|apply IH]. destruct (parseStructTag _ _ _ _ _) as [ts|]; [|done].
  destruct (ignored ts); [apply IH|]. destruct (_ && any); [done|]. rewrite IH. by destruct (structFields_loop _ _ _ _ (map (fun f => (f, g f)) fs)).
Qed.

Definition fieldInfo3 (f : sfield) (ts : tags) : bool * fieldRel * fieldRel :=
  match f with SField _ _ _ ft => (noOptional ft, repr false ft ts, repr true ft ts) end.

Lemma fieldsRepr_strict (fields : list (field (bool * fieldRel * fieldRel))) vals l :
  forallb (fun f => negb (foptional f) && info f) (map (fieldMap (fun p => p.1.1)) fields) = true ->
  Forall (fun f => (info f).1.1 = true -> forall v l, (info f).1.2 v l -> (info f).2 v l) fields ->
  fieldsRepr false (map (fieldMap (fun p => p.1.2)) fields) vals l -> fieldsRepr true (map (fieldMap snd) fields) vals l.
Proof.
  intros Hb Hf. revert l. induction Hf as [|f fields Hf Hfs IH]; intros l Hr; cbn in *; [by inversion Hr; constructor|].
  apply andb_true_iff in Hb as [[Ho Hi]%andb_true_iff Hb]. apply negb_true_iff in Ho.
  inversion Hr as [|? ? ? v l1 l2 Hv Hl Hn Hs|? ? ? Ho' Hz]; subst; [|cbn in Ho'; congruence].
  econstructor; [exact Hv|by apply Hf|by apply IH|]. cbn. congruence.
Qed.

Lemma agree_fieldMap {X Y} (phi : X -> Y) (fs : list (field X)) vals zeros : agree (map (fieldMap phi) fs) vals zeros <-> agree fs vals zeros.
Proof. unfold agree. rewrite map_map. done. Qed.

Lemma repr_strict t : noOptional t = true -> forall ts v l, repr false t ts v l -> repr true t ts v l.
Proof.
  assert (forall e vs its, (forall v l, repr false e noTags v l -> repr true e noTags v l) -> Forall2 (fun x it => repr false e noTags x [it]) vs its ->
    Forall2 (fun x it => repr true e noTags x [it]) vs its) as Hl.
  { intros e vs its He Hf. eapply Forall2_impl; [exact Hf|]. intros v it. apply He. }
  induction t as [ | | |bits| | |e IH|n e IH|name fs IH|e IH| |name] using typ_ind'; intros Hn ts v l; cbn [repr]; try done.
  - destruct (isByte e); [done|]. intros (vs & its & -> & Hf & ->). exists vs, its. split_and!; try done. apply Hl; [|done]. by apply IH.
  - destruct (isByte e); [done|]. intros (vs & its & -> & Hk & Hf & ->). exists vs, its. split_and!; try done. apply Hl; [|done]. by apply IH.
  - cbn [noOptional] in Hn. unfold structFields in *. rewrite !map_map in *. cbn [fst] in *. rewrite !map_id in *.
    rewrite (map_ext _ (fun f => (f, fun ts => (fieldInfo3 f ts).1.1))) in Hn by (by intros []).
    assert (map (fun f => (f, match f with SField _ _ _ ft => repr false ft end)) fs = map (fun f => (f, fun ts => (fieldInfo3 f ts).1.2)) fs) as -> by (apply map_ext; by intros []).
    assert (map (fun f => (f, match f with SField _ _ _ ft => repr true ft end)) fs = map (fun f => (f, fun ts => (fieldInfo3 f ts).2)) fs) as -> by (apply map_ext; by intros []).
    rewrite (structFields_nat (fun p => p.1.1)) in Hn. rewrite (structFields_nat (fun p => p.1.2)), (structFields_nat snd).
    destruct (structFields_loop _ _ _ _ _) as [fields|] eqn:Es; [|done]. intros (vals & its & -> & -> & Hr & Hag). exists vals, its.
    rewrite agree_fieldMap in *. split_and!; try done. apply fieldsRepr_strict; [done| |done].
    pose proof (structFields_typ fieldInfo3 (fun _ p => p.1.1 = true -> forall v l, p.1.2 v l -> p.2 v l) _ _ fs _ _ _
      ltac:(eapply Forall_impl; [exact IH|]; intros [n e tag t] Ht ts'; cbn; intros Hno v' l'; by apply Ht) Es) as Hft.
    eapply Forall_impl; [exact Hft|]. intros f [H _]. done.
  - destruct e; first [by intros H; exact H|destruct (nilOK ts); [|intros (x & -> & Hx); exists x; split; [done|by apply IH]];
      intros [[-> ->]|(x & it & -> & -> & Hx & H1 & H2)]; [by left|right; exists x, it; split_and!; try done; by apply IH]].
Qed.

(** ** Decoding *)

(** The type can be decoded and encoded. *)
Definition codable (t : typ) : Prop :=
  decodable t = true /\ (forall fuel, exists d, makeDecoder fuel t noTags = inl d) /\ (forall n, exists wr, makeWriter (dynamicOf n) t noTags = inl wr).

(** A byte slice. *)
Definition goBytes (b : list Z) : Prop := isBytes b /\ Z.of_nat (length b) < 2 ^ 63.

Lemma Reset_ready b s : goBytes b -> ready (S (length b)) (Reset b (Z.of_nat (length b)) s).
Proof.
  intros [Hb Hl]. split; [|split; [done|cbn; lia]]. split; cbn; try done. destruct (Z.ltb_spec 0 (Z.of_nat (length b))); lia.
Qed.

Lemma ahead_all b s : ahead b (Reset b (Z.of_nat (length b)) s).
Proof. split; cbn; [apply firstn_all|]. unfold room. cbn. lia. Qed.

Lemma Decode_ok t b v it : decodable t = true -> goBytes b -> (exists d, makeDecoder (S (length b)) t noTags = inl d) ->
  repr false t noTags v [it] -> b = encoding it -> DecodeBytes t b = Ok (inl v).
Proof.
  intros Hdec Hb (d & Ed) Hv ->. set (b := encoding it) in *. pose proof (makeDecoder_ok (S (length b)) t Hdec (S (length b)) ltac:(lia) noTags false d (noTags_ok t) Ed) as Hp.
  rewrite noTags_tail in Hp. apply plain_elem in Hp. set (s := Reset b (Z.of_nat (length b)) newStream).
  destruct (dc_ok _ _ _ Hp s v b (Reset_ready b _ Hb)) as (u & E & Hm); [by exists it|apply ahead_all|].
  unfold DecodeBytes, Decode. fold s. change (rest s) with b. rewrite Ed, (bind_try_ok _ _ _ _ _ E). cbn. rewrite (mv_rest _ _ _ Hm), Nat2Z.id. cbn. by rewrite drop_all.
Qed.

Lemma Decode_inv t b v : decodable t = true -> goBytes b -> DecodeBytes t b = Ok (inl v) -> exists it, repr false t noTags v [it] /\ b = encoding it.
Proof.
  intros Hdec Hb H. unfold DecodeBytes, Decode in H. set (s := Reset b (Z.of_nat (length b)) newStream) in *. change (rest s) with b in H.
  destruct (makeDecoder (S (length b)) t noTags) as [d|] eqn:Ed; [|done].
  pose proof (makeDecoder_ok (S (length b)) t Hdec (S (length b)) ltac:(lia) noTags false d (noTags_ok t) Ed) as Hp. rewrite noTags_tail in Hp. apply plain_elem in Hp.
  destruct (dc_returns _ _ _ Hp s (Reset_ready b _ Hb)) as (u & [x|[e|msg ty ctx]] & E); rewrite (bind_try_ok _ _ _ _ _ E) in H; [|done|done].
  cbv [mret M_ret] in H. cbn iota in H. destruct (Nat.ltb_spec 0 (length (rest u))); [done|]. injection H as <-.
  destruct (dc_inv _ _ _ Hp s u x (Reset_ready b _ Hb) E) as (bs & (it & Hx & ->) & [Ht _] & Hm). exists it. split; [done|].
  pose proof (mv_rest _ _ _ Hm) as Hrest. cbn in Hrest, Ht. rewrite Hrest, length_drop, Nat2Z.id in *. rewrite <- Ht. symmetry. apply firstn_all2. lia.
Qed.

Lemma encode_adds t v it : codable t -> repr true t noTags v [it] -> small [it] -> encode t v emptybuf = Ok (added it emptybuf).
Proof.
  intros (Hdec & _ & Hw) Hv Hs. unfold encode. rewrite encodeDepth_eq. destruct (Hw (ifaceDepth v)) as (wr & E). rewrite E.
  rewrite (makeWriter_ok _ t Hdec noTags false wr (noTags_ok t) E v [it] Hv ltac:(done) Hs). by rewrite addedL_one.
Qed.

Lemma EncodeToBytes_ok t v it : codable t -> repr true t noTags v [it] -> small [it] -> EncodeToBytes t v = Ok (encoding it).
Proof. intros Ht Hv Hs. unfold EncodeToBytes. rewrite (encode_adds t v it) by done. cbn [mbind outcome_bind]. by apply toBytes_holds, added_holds. Qed.

Lemma small_goBytes strict t v it : repr strict t noTags v [it] -> small [it] -> goBytes (encoding it).
Proof. intros Hv Hs. apply repr_isBytes in Hv. unfold small in Hs. rewrite encodings_one in *. done. Qed.

(** fieldsRepr is monotone in its relations. *)
Lemma fieldsRepr_mono strict (fields : list (field (fieldRel * fieldRel))) vals l : Forall (fun f => forall v l, (info f).1 v l -> (info f).2 v l) fields ->
  fieldsRepr strict (map (fieldMap fst) fields) vals l -> fieldsRepr false (map (fieldMap snd) fields) vals l.
Proof.
  intros Hf. revert l. induction Hf as [|f fields Hf Hfs IH]; intros l Hr; cbn in *; [by inversion Hr; constructor|].
  inversion Hr as [|? ? ? v l1 l2 Hv Hl Hn Hs|? ? ? Ho' Hz]; subst; [econstructor; [exact Hv|by apply Hf|by apply IH|done]|]. constructor; [done|].
  unfold zeroFrom in *. rewrite Forall_cons, Forall_map in *. done.
Qed.

Definition fieldInfo2 (f : sfield) (ts : tags) : fieldRel * fieldRel := match f with SField _ _ _ ft => (repr true ft ts, repr false ft ts) end.

Lemma repr_loose t : forall ts v l, repr true t ts v l -> repr false t ts v l.
Proof.
  assert (forall e vs its, (forall v l, repr true e noTags v l -> repr false e noTags v l) -> Forall2 (fun x it => repr true e noTags x [it]) vs its ->
    Forall2 (fun x it => repr false e noTags x [it]) vs its) as Hl.
  { intros e vs its He Hf. eapply Forall2_impl; [exact Hf|]. intros v it. apply He. }
  induction t as [ | | |bits| | |e IH|n e IH|name fs IH|e IH| |name] using typ_ind'; intros ts v l; cbn [repr]; try done.
  - destruct (isByte e); [done|]. intros (vs & its & -> & Hf & ->). exists vs, its. split_and!; try done. apply Hl; [|done]. by apply IH.
  - destruct (isByte e); [done|]. intros (vs & its & -> & Hk & Hf & ->). exists vs, its. split_and!; try done. apply Hl; [|done]. by apply IH.
  - unfold structFields in *. rewrite !map_map in *. cbn [fst] in *. rewrite !map_id in *.
    assert (map (fun f => (f, match f with SField _ _ _ ft => repr true ft end)) fs = map (fun f => (f, fun ts => (fieldInfo2 f ts).1)) fs) as -> by (apply map_ext; by intros []).
    assert (map (fun f => (f, match f with SField _ _ _ ft => repr false ft end)) fs = map (fun f => (f, fun ts => (fieldInfo2 f ts).2)) fs) as -> by (apply map_ext; by intros []).
    rewrite (structFields_nat fst), (structFields_nat snd).
    destruct (structFields_loop _ _ _ _ _) as [fields|] eqn:Es; [|done]. intros (vals & its & -> & -> & Hr & Hag). exists vals, its.
    rewrite agree_fieldMap in *. split_and!; try done. eapply fieldsRepr_mono; [|done].
    pose proof (structFields_typ fieldInfo2 (fun _ p => forall v l, p.1 v l -> p.2 v l) _ _ fs _ _ _
      ltac:(eapply Forall_impl; [exact IH|]; intros [n e tag t] Ht ts' v' l'; by apply Ht) Es) as Hft.
    eapply Forall_impl; [exact Hft|]. intros f [H _]. done.
  - destruct e; first [by intros H; exact H|destruct (nilOK ts); [|intros (x & -> & Hx); exists x; split; [done|by apply IH]];
      intros [[-> ->]|(x & it & -> & -> & Hx & H1 & H2)]; [by left|right; exists x, it; split_and!; try done; by apply IH]].
Qed.

(** ** The properties *)



(** C35: decoding returns.  Whatever the bytes, decoding them into a type without
    arrays of one byte gives a value or an error: no loop goes on, no slice of an
    impossible size is made. *)
Theorem rlp_decode_returns t b : decodable t = true -> goBytes b -> exists r, DecodeBytes t b = Ok r.
Proof.
  intros Hdec Hb. unfold DecodeBytes, Decode. set (s := Reset b (Z.of_nat (length b)) newStream) in *. change (rest s) with b.
  destruct (makeDecoder (S (length b)) t noTags) as [d|] eqn:Ed; [|by eexists].
  pose proof (makeDecoder_ok (S (length b)) t Hdec (S (length b)) ltac:(lia) noTags false d (noTags_ok t) Ed) as Hp. rewrite noTags_tail in Hp. apply plain_elem in Hp.
  destruct (dc_returns _ _ _ Hp s (Reset_ready b _ Hb)) as (u & [x|[e|msg ty ctx]] & E); rewrite (bind_try_ok _ _ _ _ _ E); by eexists.
Qed.

(** Bytes after a value are refused. *)
Theorem rlp_trailing_rejected t v it x : codable t -> repr false t noTags v [it] -> x <> [] -> goBytes (encoding it ++ x) ->
  DecodeBytes t (encoding it ++ x) = Ok (inr (Plain ErrMoreThanOneValue)).
Proof.
  intros (Hdec & Hd & _) Hv Hx Hb. set (b := encoding it ++ x) in *. unfold DecodeBytes, Decode. set (s := Reset b (Z.of_nat (length b)) newStream) in *.
  change (rest s) with b. destruct (Hd (S (length b))) as (d & Ed). rewrite Ed.
  pose proof (makeDecoder_ok (S (length b)) t Hdec (S (length b)) ltac:(lia) noTags false d (noTags_ok t) Ed) as Hp. rewrite noTags_tail in Hp. apply plain_elem in Hp.
  destruct (dc_ok _ _ _ Hp s v (encoding it) (Reset_ready b _ Hb)) as (u & E & Hm); [by exists it| |].
  { split; [cbn; apply take_app_length|]. unfold room, avail. cbn [rest stack s Reset]. unfold b. rewrite length_app. lia. }
  rewrite (bind_try_ok _ _ _ _ _ E). cbv [mret M_ret]. cbn iota. rewrite (mv_rest _ _ _ Hm), Nat2Z.id. cbn [rest s Reset]. subst b. rewrite drop_app_length.
  by destruct x.
Qed.

(** C36: every output is the encoding.  [EncodeToBytes], the reader with whatever
    sizes it is read, and a writer that keeps the contract of [io.Writer] all
    give the bytes of the item. *)
Theorem rlp_outputs_agree t v it : codable t -> repr true t noTags v [it] -> small [it] ->
  EncodeToBytes t v = Ok (encoding it) /\
  (exists r, EncodeToReader t v = Ok (Z.of_nat (length (encoding it)), r) /\
     forall n ns, reads (n :: ns) r = Ok (take (sum_list (n :: ns)) (encoding it), (length (encoding it) <=? sum_list (n :: ns))%nat)) /\
  (forall S Write contents (out : S), WriterLaw Write contents ->
     exists out' e, Encode Write t v out = Ok (out', e) /\ wrote (encoding it) (contents out) (contents out') e).
Proof.
  intros Ht Hv Hs. split; [by apply EncodeToBytes_ok|]. pose proof (added_holds it) as Hh. split.
  - destruct (newReader_holds _ _ Hh) as [Hr Hp]. eexists. unfold EncodeToReader. rewrite (encode_adds t v it) by done. cbn [mbind outcome_bind].
    split; [by rewrite (proj2 (proj2 Hh))|]. intros n ns. by rewrite (reads_spec (n :: ns) _ Hr), Hp.
  - intros S Write contents out Hl. unfold Encode. rewrite (encode_adds t v it) by done. cbn [mbind outcome_bind]. destruct Hh as (Hc & Hi & _).
    destruct (toWriter_spec Write contents (added it emptybuf) out Hc) as (out' & e & E & Hw). rewrite Hi in Hw. eauto.
Qed.
(** ** Arrays of one byte *)

(** A decoder that gives a value and leaves the stream where it is is called
    again and again. *)
Lemma decodeSliceElems_stuck (d : decoder) v u n : d u = Ok (u, inl v) -> forall i s, d s = Ok (u, inl v) -> decodeSliceElems_loop n i d s = Err "out of fuel".
Proof.
  intros Hu. induction n as [|n IH]; intros i s H; [done|]. cbn [decodeSliceElems_loop]. rewrite (bind_try_ok _ _ _ _ _ H). cbv [mbind M_bind]. by rewrite IH.
Qed.

(** [uint] refuses the byte zero and leaves it in place; the error is dropped. *)
Lemma decodeByteArray_zero t s : kind s = Some KByte -> kinderr s = None -> byteval s = 0 -> decodeByteArray t 1 s = Ok (s, inl (GBytes [0])).
Proof.
  intros Hk He Hb. pose proof (Kind_staged s KByte Hk He) as E.
  unfold decodeByteArray, onErr, try, Uint, uint. cbv [mbind M_bind]. rewrite E. cbn. rewrite E. cbv [gets]. rewrite Hb. done.
Qed.

(** The stream of the list with a zero in it: on its zero, and with the zero
    read as the next value. *)
Definition onZero (k : option Kind) : Stream :=
  {| rest := match k with None => [0] | _ => [] end; remaining := match k with None => 1 | _ => 0 end; limited := true; kind := k;
     Stream.size := 0; byteval := 0; kinderr := None; stack := [{| pos := match k with None => 0 | _ => 1 end; lsize := 1 |}] |}.

Lemma List_onZero : List (NewStream [0xC1; 0x00] 2) = Ok (onZero None, inl 1).
Proof. vm_compute. reflexivity. Qed.
Lemma decodeByteArray_onZero t : decodeByteArray t 1 (onZero None) = Ok (onZero (Some KByte), inl (GBytes [0])).
Proof. vm_compute. reflexivity. Qed.

Lemma decodeListSlice_onZero fuel t t' : decodeListSlice fuel t (decodeByteArray t' 1) (NewStream [0xC1; 0x00] 2) = Err "out of fuel".
Proof.
  unfold decodeListSlice, decodeSliceElems, onErr. cbv [mbind M_bind]. rewrite List_onZero. cbn [Z.eqb].
  by rewrite (decodeSliceElems_stuck _ (GBytes [0]) (onZero (Some KByte)) fuel (decodeByteArray_zero t' (onZero (Some KByte)) eq_refl eq_refl eq_refl) 0 _ (decodeByteArray_onZero t')).
Qed.

(** C37: an array of one byte that is zero is never passed.  A slice that holds one
    is encoded as it should be, and decoding this encoding goes round its loop
    without end: whatever the number of rounds, they are used up. *)
Theorem rlp_byte1_slice_diverges :
  let t := TSlice (TArray 1 (TUint 8)) in
  EncodeToBytes t (GSlice [GBytes [0]]) = Ok [0xC1; 0x00] /\
  forall fuel, exists d, makeDecoder fuel t noTags = inl d /\ d (NewStream [0xC1; 0x00] 2) = Err "out of fuel".
Proof.
  cbv zeta. split; [vm_compute; reflexivity|]. intros fuel. exists (decodeListSlice fuel (TSlice (TArray 1 (TUint 8))) (decodeByteArray (TArray 1 (TUint 8)) 1)).
  split; [reflexivity|]. apply decodeListSlice_onZero.
Qed.
End Theorems.

(** ** Concrete values *)

#[local] Existing Instance bits_Uint256.

(** A struct with a pointer that may be nil, a field that is not exported, a
    list of interfaces and an optional field. *)
Definition demo_fields : list sfield :=
  [SField "Nonce" true EmptyString (TUint 64); SField "To" true "nil" (TPtr (TArray 2 (TUint 8))); SField "Value" true EmptyString (TPtr TBigInt);
   SField "cache" false EmptyString TBool; SField "Extra" true EmptyString (TSlice TInterface)].
Definition demo_opt : sfield := SField "Memo" true "optional" (TSlice (TUint 8)).
Definition demo_type : typ := TStruct "Demo" (demo_fields ++ [demo_opt]).
Definition demo_plain : typ := TStruct "Demo" demo_fields.

Definition demo_vals : list gval :=
  [GNum 1024; GNil; GPtr (GNum 7); GBool false; GSlice [GIface (TSlice (TUint 8)) (GByteSlice [1; 2]); GIface (TSlice TInterface) (GSlice [])]].
Definition demo_items : list item := [IStr [4; 0]; IStr []; IStr [7]; IList [IStr [1; 2]; IList []]].

Lemma demo_codable : codable demo_type.
Proof. split; [reflexivity|]. split; intros n; eexists; reflexivity. Qed.
Lemma demo_plain_codable : codable demo_plain.
Proof. split; [reflexivity|]. split; intros n; eexists; reflexivity. Qed.

Lemma demo_repr strict : repr strict demo_type noTags (GStruct (demo_vals ++ [GByteSlice [200]])) [IList (demo_items ++ [IStr [200]])].
Proof.
  cbn -[minimal]. eexists _, _. split; [reflexivity|]. split; [reflexivity|]. split.
  - eapply (fr_cons _ _ _ _ _ [_]); [reflexivity|by exists 1024| |done]. eapply (fr_cons _ _ _ _ _ [_]); [reflexivity|by left| |done].
    eapply (fr_cons _ _ _ _ _ [_]); [reflexivity|by exists 7| |done].
    eapply (fr_cons _ _ _ _ _ [_]); [reflexivity| | |done].
    + eexists _, _. split; [reflexivity|]. split; [|reflexivity]. repeat constructor; eexists; (split; [|reflexivity]); repeat constructor; lia.
    + eapply (fr_cons _ _ _ _ _ [_] []); [reflexivity|exists [200]; split; [reflexivity|split; [repeat constructor; lia|reflexivity]]|constructor|].
      intros _ _ Hz. apply Forall_cons in Hz as [Hz _]. discriminate Hz.
  - split; [reflexivity|]. cbn. intros i Hi. do 6 (destruct i as [|i]; [first [reflexivity|exfalso; set_solver]|]). reflexivity.
Qed.

Definition demo_value : gval := GStruct (demo_vals ++ [GByteSlice [200]]).
Definition demo_item : item := IList (demo_items ++ [IStr [200]]).
Definition demo_bytes : list Z := [0xCC; 0x82; 4; 0; 0x80; 7; 0xC4; 0x82; 1; 2; 0xC0; 0x81; 200].

Lemma demo_encoding : encoding demo_item = demo_bytes.
Proof. vm_compute. reflexivity. Qed.
Lemma demo_small : small [demo_item].
Proof. vm_compute. reflexivity. Qed.

Ltac goBytes_tac := split; [repeat constructor; lia|vm_compute; reflexivity].



Lemma rlp_decode_returns_witness : exists r, DecodeBytes demo_type [0xC2; 0x81; 5] = Ok r.
Proof. apply rlp_decode_returns; [vm_compute; reflexivity|goBytes_tac]. Defined.

Lemma rlp_trailing_rejected_witness : DecodeBytes demo_type (demo_bytes ++ [0]) = Ok (inr (Plain ErrMoreThanOneValue)).
Proof.
  rewrite <- demo_encoding. apply (rlp_trailing_rejected demo_type demo_value demo_item [0] demo_codable (demo_repr false)); [discriminate|].
  rewrite demo_encoding. goBytes_tac.
Defined.

Lemma rlp_outputs_agree_witness :
  EncodeToBytes demo_type demo_value = Ok demo_bytes /\ exists out e, Encode keepAll demo_type demo_value [9] = Ok (out, e) /\ wrote demo_bytes [9] out e.
Proof.
  rewrite <- demo_encoding. destruct (rlp_outputs_agree demo_type demo_value demo_item demo_codable (demo_repr true) demo_small) as (E & _ & H).
  split; [exact E|]. exact (H _ keepAll id [9] keepAll_law).
Defined.
