(* ===== verification/RlpTyped.v ===== *)
(** * RlpTyped: decoding gives values of the type

    Go's [reflect] would panic on a value that does not fit the variable it is set
    into.  [hasType v t] says that [v] is a value that a variable of type [t] can
    hold: the integers are within their width, arrays have their length, structs
    a value for every field, and what is in an interface is of its dynamic type. *)

From S2P Require Import Prelude Uint256 RlpEncode RlpTypes RlpStream RlpReading RlpCodec RlpDecoding RlpRepr RlpWriting RlpTheorems.

Import Rlp RlpT Stream.

Section Typed.
Context `{U : Uint256}.

Definition bytesb (b : list Z) : bool := forallb (fun x => (0 <=? x) && (x <? 256)) b.

Fixpoint hasType (v : gval) (t : typ) {struct v} : bool :=
  match v, t with
  | GString b, TString => bytesb b
  | GBytes b, TArray n e => isByte e && Nat.eqb (length b) n && bytesb b
  | GByteSlice b, TRawValue => bytesb b
  | GByteSlice b, TSlice e => isByte e && bytesb b
  | GNum i, TUint bits => (0 <=? i) && (i <? 2 ^ bits)
  | GNum i, TBigInt => true
  | GU256 x, TUint256 => true
  | GBool b, TBool => true
  | GList l, TArray n e => negb (isByte e) && Nat.eqb (length l) n && forallb (fun v => hasType v e) l
  | GSlice l, TSlice e => negb (isByte e) && forallb (fun v => hasType v e) l
  | GStruct l, TStruct _ fs =>
      (fix fields (l : list gval) (fs : list sfield) {struct l} : bool :=
         match l, fs with
         | [], [] => true
         | v :: l, SField _ _ _ t :: fs => hasType v t && fields l fs
         | _, _ => false
         end) l fs
  | GNil, (TRawValue | TSlice _ | TPtr _ | TInterface | TOther _) => true
  | GPtr v, TPtr e => hasType v e
  | GIface t v, TInterface => hasType v t
  | _, _ => false
  end.

Lemma bytesb_ok b : isBytes b -> bytesb b = true.
Proof. intros Hb. apply forallb_forall. intros x Hx. apply list_elem_of_In in Hx. pose proof (proj1 (Forall_forall _ _) Hb x Hx). cbv beta in *. apply andb_true_iff. split; [apply Z.leb_le|apply Z.ltb_lt]; lia. Qed.

(** A struct by the index of its fields. *)
Lemma hasType_struct name l fs : length l = length fs -> (forall i v n e tag t, l !! i = Some v -> fs !! i = Some (SField n e tag t) -> hasType v t = true) -> hasType (GStruct l) (TStruct name fs) = true.
Proof.
  cbn [hasType]. revert fs. induction l as [|v l IH]; intros [|[n e tag t] fs] Hl Hi; try done. apply andb_true_iff. split; [by apply (Hi 0%nat v n e tag t)|].
  apply IH; [by injection Hl|]. intros i. apply (Hi (S i)).
Qed.

Lemma zeroOf_typed t : decodable t = true -> hasType (zeroOf t) t = true.
Proof.
  induction t as [ | | |bits| | |e IH|n e IH|name fs IH|e IH| |name] using typ_ind'; intros Hd; cbn [zeroOf]; try done.
  - cbn in *. apply andb_true_iff in Hd as [[_ Hd]%andb_true_iff _]. apply Z.ltb_lt, Z.pow_pos_nonneg; lia.
  - cbn [decodable] in Hd. apply andb_true_iff in Hd as [_ Hd]. destruct (isByte e) eqn:Eb; cbn [hasType]; rewrite Eb, length_replicate, Nat.eqb_refl; cbn [negb andb].
    + apply bytesb_ok. apply Forall_replicate. lia.
    + apply forallb_forall. intros x Hx. apply list_elem_of_In, elem_of_replicate in Hx as [-> _]. by apply IH.
  - apply hasType_struct; [by rewrite length_map|]. intros i v n e tag t Hv Hf. change (map ?f fs) with (f <$> fs) in Hv. rewrite list_lookup_fmap, Hf in Hv. injection Hv as <-.
    pose proof (Forall_lookup_1 _ _ _ _ IH Hf) as Ht. cbn beta iota in Ht. apply Ht. cbn [decodable] in Hd. apply (proj1 (forallb_forall _ _) Hd (SField n e tag t)), list_elem_of_In. by eapply list_elem_of_lookup_2.
Qed.

Lemma repr_fields_typed strict (frs : list (field fieldRel)) vals its : fieldsRepr strict frs vals its -> Forall (fun f => decodable (ftyp f) = true /\ forall v l, info f v l -> hasType v (ftyp f) = true) frs ->
  forall f v, f ∈ frs -> vals !! index f = Some v -> hasType v (ftyp f) = true.
Proof.
  induction 1 as [vals|f fs vals v l1 l2 Hv Hi Hf IH _|f fs vals Ho Hz]; intros Hall g w Hg Hw.
  - by apply elem_of_nil in Hg.
  - apply Forall_cons in Hall as [[_ Hf1] Hfs]. apply elem_of_cons in Hg as [->|Hg]; [|by apply IH]. assert (w = v) as -> by congruence. by eapply Hf1.
  - unfold zeroFrom in Hz. pose proof (proj1 (Forall_forall _ _) Hz g Hg) as E. cbv beta in E. assert (w = zeroOf (ftyp g)) as -> by congruence. apply zeroOf_typed.
    by apply (proj1 (Forall_forall _ _) Hall g Hg).
Qed.

Lemma iface_typed v it : ifaceRepr v it -> hasType v TInterface = true.
Proof.
  revert it. enough (forall it v, ifaceRepr v it -> hasType v TInterface = true) as Hg by (intros; by eapply Hg). intros it. induction it as [b|b|l IH] using item_ind'; intros w Hw; inversion Hw as [b' Hb|vs l' Hvs]; subst.
  - cbn. by apply bytesb_ok.
  - cbn. apply forallb_forall. intros x Hx. apply list_elem_of_In in Hx. clear Hw. induction Hvs as [|y z vs l Hy Hvs IHl]; [by apply elem_of_nil in Hx|]. apply Forall_cons in IH as [IH1 IH2].
    apply elem_of_cons in Hx as [->|Hx]; [by apply IH1|by apply IHl].
Qed.

Lemma repr_typed t : decodable t = true -> forall ts v l, repr false t ts v l -> hasType v t = true.
Proof.
  assert (forall e (vs : list gval) (its : list item), (forall ts v l, repr false e ts v l -> hasType v e = true) -> Forall2 (fun x it => repr false e noTags x [it]) vs its -> forallb (fun v => hasType v e) vs = true) as Hl.
  { intros e vs its He Hf. induction Hf as [|x it vs its Hx Hf IH]; [done|]. cbn. apply andb_true_iff. split; [by eapply He|done]. }
  induction t as [ | | |bits| | |e IH|n e IH|name fs IH|e IH| |name] using typ_ind'; intros Hd ts v l; cbn [repr].
  - intros (b & -> & Hb & _). cbn. by apply bytesb_ok, isRaw_isBytes.
  - by intros (i & -> & _).
  - by intros (x & -> & _).
  - intros (i & -> & Hi & _). cbn. apply andb_true_iff. split; [apply Z.leb_le|apply Z.ltb_lt]; lia.
  - by intros (b & -> & _).
  - intros (b & -> & Hb & _). cbn. by apply bytesb_ok.
  - cbn [decodable] in Hd. destruct (isByte e) eqn:Eb.
    + intros (b & -> & Hb & _). cbn. rewrite Eb. by apply bytesb_ok.
    + intros (vs & its & -> & Hf & _). cbn. rewrite Eb. cbn. eapply Hl; [by apply IH|done].
  - cbn [decodable] in Hd. apply andb_true_iff in Hd as [_ Hd]. destruct (isByte e) eqn:Eb.
    + intros (b & -> & <- & Hb & _). cbn. rewrite Eb, Nat.eqb_refl. by apply bytesb_ok.
    + intros (vs & its & -> & <- & Hf & _). cbn. rewrite Eb, Nat.eqb_refl. cbn. eapply Hl; [by apply IH|done].
  - unfold structFields. rewrite map_map. cbn [fst]. rewrite map_id. destruct (structFields_loop _ _ _ _ _) as [frs|] eqn:Es; [|done]. intros (vals & its & -> & _ & Hr & Hag).
    assert (forall f, f ∈ fs -> decodable (match f with SField _ _ _ t => t end) = true) as Hdf.
    { intros f Hf. cbn [decodable] in Hd. apply list_elem_of_In in Hf. pose proof (proj1 (forallb_forall _ _) Hd f Hf) as E. by destruct f. }
    pose proof (structFields_typ (fun f => match f with SField _ _ _ ft => repr false ft end) (fun t R => decodable t = true /\ forall v l, R v l -> hasType v t = true) _ _ fs _ _ _
      ltac:(apply Forall_forall; intros f Hf ts'; pose proof (proj1 (Forall_forall _ _) IH f Hf) as Ht; pose proof (Hdf f Hf) as Hdt; destruct f; split; [done|by apply Ht]) Es) as Hft.
    destruct Hag as [Hlen Hag]. rewrite length_map in Hlen. apply hasType_struct; [done|]. intros i w n e tag t Hw Hf. destruct (decide (i ∈ map index frs)) as [Hi|Hi].
    + change (map index frs) with (index <$> frs) in Hi. apply list_elem_of_fmap in Hi as (f & -> & Hfin). pose proof (proj1 (Forall_forall _ _) Hft f Hfin) as (_ & _ & n' & e' & tag' & E). rewrite Nat.sub_0_r, Hf in E.
      injection E as _ _ _ ->. eapply repr_fields_typed; [exact Hr| |done|done]. eapply Forall_impl; [exact Hft|]. by intros g [? _].
    + rewrite Hag in Hw by done. change (map ?f fs) with (f <$> fs) in Hw. rewrite list_lookup_fmap, Hf in Hw. injection Hw as <-. apply zeroOf_typed.
      apply (Hdf (SField n e tag t)). by eapply list_elem_of_lookup_2.
  - cbn [decodable] in Hd. destruct e; first [by intros (? & -> & _)|destruct (nilOK ts); [intros [[-> _]|(x & it & -> & _ & Hx & _)]; [done|]|intros (x & -> & Hx)]; cbn; by eapply IH].
  - intros (it & Hv & _). by eapply iface_typed.
  - done.
Qed.

(** C22: Decoding respects types.  Whatever bytes are decoded into a variable, a
    value that comes out can be held by it: no integer exceeds its width, arrays
    have their length, structs have a value of the right type for every field,
    those that are not coded included, and what an interface holds is of the
    type it claims. *)
Theorem rlp_decode_typed t b v : decodable t = true -> goBytes b -> DecodeBytes t b = Ok (inl v) -> hasType v t = true.
Proof. intros Hd Hb H. destruct (Decode_inv t b v Hd Hb H) as (it & Hv & _). by eapply repr_typed. Qed.
End Typed.

#[local] Existing Instance bits_Uint256.

Lemma rlp_decode_typed_witness : hasType (GStruct demo_vals) demo_plain = true.
Proof.
  apply (rlp_decode_typed demo_plain [0xCA; 0x82; 4; 0; 0x80; 7; 0xC4; 0x82; 1; 2; 0xC0] (GStruct demo_vals));
    [reflexivity|goBytes_tac|vm_cast_no_check (eq_refl (Ok (inl (GStruct demo_vals) : gval + derr)))].
Defined.
