(* ===== verification/StateModel.v ===== *)
(** * StateModel: the world-state cache of block execution

    [modules/state/state_object.go], [journal.go], [intra_block_state.go] and
    [entire.go]: accounts loaded on demand from a [StateReader], modified in
    place and journalled so that [RevertToSnapshot] can undo the modifications.

    A live [*stateObject] is owned either by the [stateObjects] map or by one
    journal entry ([resetObjectChange]), never by both, so objects are values
    stored in the map.  A [*BalanceIncrease] is shared between [balanceInc] and
    the journal, so it is a pointer into [biHeap].  The tracer hooks and the
    debug prints have no effect on the state and are left out; an error is
    represented by its message. *)

From S2P Require Import Prelude Uint256 AccessList.

Section Accounts.
Context `{U : Uint256}.

(** [account.StateAccount] *)
Record StateAccount := mkStateAccount {
  Initialised : bool;
  Nonce : Z;
  Balance : u256;
  Root : Hash;
  CodeHash : Hash;
  Incarnation : Z
}.

Definition zeroAccount : StateAccount :=
  {| Initialised := false; Nonce := 0; Balance := uzero; Root := 0; CodeHash := 0; Incarnation := 0 |}.

(** [a.Copy(image)] assigns every field. *)
Definition Account_Copy (a image : StateAccount) : StateAccount :=
  {| Initialised := Initialised image; Nonce := Nonce image; Balance := Balance image;
     Root := Root image; CodeHash := CodeHash image; Incarnation := Incarnation image |}.

Definition set_Balance (b : u256) (a : StateAccount) : StateAccount :=
  {| Initialised := Initialised a; Nonce := Nonce a; Balance := b; Root := Root a;
     CodeHash := CodeHash a; Incarnation := Incarnation a |}.
Definition set_Initialised (i : bool) (a : StateAccount) : StateAccount :=
  {| Initialised := i; Nonce := Nonce a; Balance := Balance a; Root := Root a;
     CodeHash := CodeHash a; Incarnation := Incarnation a |}.
Definition set_Nonce (n : Z) (a : StateAccount) : StateAccount :=
  {| Initialised := Initialised a; Nonce := n; Balance := Balance a; Root := Root a;
     CodeHash := CodeHash a; Incarnation := Incarnation a |}.
Definition set_CodeHash (h : Hash) (a : StateAccount) : StateAccount :=
  {| Initialised := Initialised a; Nonce := Nonce a; Balance := Balance a; Root := Root a;
     CodeHash := h; Incarnation := Incarnation a |}.
Definition set_Incarnation (i : Z) (a : StateAccount) : StateAccount :=
  {| Initialised := Initialised a; Nonce := Nonce a; Balance := Balance a; Root := Root a;
     CodeHash := CodeHash a; Incarnation := i |}.

(** What [state] takes from code outside the repository: the Keccak-256 hash
    and the protobuf encoding of an account. *)
Class StateEnv := {
  Keccak256Hash : list Z -> Hash;
  EncodeForStorage : StateAccount -> list Z
}.

(** [modules/state/database.go]: the reader interface.  A Go method that returns
    [(value, error)] returns both. *)
Record StateReader := {
  ReadAccountData : Address -> option StateAccount * option error;
  ReadAccountStorage : Address -> Z -> Hash -> option (list Z) * option error;
  ReadAccountCode : Address -> Z -> Hash -> option (list Z) * option error;
  ReadAccountCodeSize : Address -> Z -> Hash -> Z * option error;
  ReadAccountIncarnation : Address -> Z * option error
}.

(** [block.Log], with the fields that [AddLog] fills in. *)
Record Log := {
  LogAddress : Address;
  Topics : list Hash;
  LogData : list Z;
  LogTxHash : Hash;
  LogBlockHash : Hash;
  LogTxIndex : Z;
  LogIndex : Z
}.

(** ** Objects *)

Record stateObject := mkObject {
  address : Address;
  data : StateAccount;
  original : StateAccount;
  code : option (list Z);
  originStorage : gmap Hash u256;
  blockOriginStorage : gmap Hash u256;
  dirtyStorage : gmap Hash u256;
  fakeStorage : option (gmap Hash u256);
  dirtyCode : bool;
  selfdestructed : bool;
  deleted : bool;
  created : bool
}.

Definition with_data (f : StateAccount -> StateAccount) (o : stateObject) : stateObject :=
  {| address := address o; data := f (data o); original := original o; code := code o;
     originStorage := originStorage o; blockOriginStorage := blockOriginStorage o;
     dirtyStorage := dirtyStorage o; fakeStorage := fakeStorage o; dirtyCode := dirtyCode o;
     selfdestructed := selfdestructed o; deleted := deleted o; created := created o |}.
Definition with_code (c : option (list Z)) (o : stateObject) : stateObject :=
  {| address := address o; data := data o; original := original o; code := c;
     originStorage := originStorage o; blockOriginStorage := blockOriginStorage o;
     dirtyStorage := dirtyStorage o; fakeStorage := fakeStorage o; dirtyCode := dirtyCode o;
     selfdestructed := selfdestructed o; deleted := deleted o; created := created o |}.
Definition with_origin (f : gmap Hash u256 -> gmap Hash u256) (g : gmap Hash u256 -> gmap Hash u256)
  (o : stateObject) : stateObject :=
  {| address := address o; data := data o; original := original o; code := code o;
     originStorage := f (originStorage o); blockOriginStorage := g (blockOriginStorage o);
     dirtyStorage := dirtyStorage o; fakeStorage := fakeStorage o; dirtyCode := dirtyCode o;
     selfdestructed := selfdestructed o; deleted := deleted o; created := created o |}.
Definition with_dirtyStorage (f : gmap Hash u256 -> gmap Hash u256) (o : stateObject) : stateObject :=
  {| address := address o; data := data o; original := original o; code := code o;
     originStorage := originStorage o; blockOriginStorage := blockOriginStorage o;
     dirtyStorage := f (dirtyStorage o); fakeStorage := fakeStorage o; dirtyCode := dirtyCode o;
     selfdestructed := selfdestructed o; deleted := deleted o; created := created o |}.
Definition with_fakeStorage (f : option (gmap Hash u256)) (o : stateObject) : stateObject :=
  {| address := address o; data := data o; original := original o; code := code o;
     originStorage := originStorage o; blockOriginStorage := blockOriginStorage o;
     dirtyStorage := dirtyStorage o; fakeStorage := f; dirtyCode := dirtyCode o;
     selfdestructed := selfdestructed o; deleted := deleted o; created := created o |}.
Definition with_dirtyCode (b : bool) (o : stateObject) : stateObject :=
  {| address := address o; data := data o; original := original o; code := code o;
     originStorage := originStorage o; blockOriginStorage := blockOriginStorage o;
     dirtyStorage := dirtyStorage o; fakeStorage := fakeStorage o; dirtyCode := b;
     selfdestructed := selfdestructed o; deleted := deleted o; created := created o |}.
Definition with_selfdestructed (b : bool) (o : stateObject) : stateObject :=
  {| address := address o; data := data o; original := original o; code := code o;
     originStorage := originStorage o; blockOriginStorage := blockOriginStorage o;
     dirtyStorage := dirtyStorage o; fakeStorage := fakeStorage o; dirtyCode := dirtyCode o;
     selfdestructed := b; deleted := deleted o; created := created o |}.
Definition with_deleted (b : bool) (o : stateObject) : stateObject :=
  {| address := address o; data := data o; original := original o; code := code o;
     originStorage := originStorage o; blockOriginStorage := blockOriginStorage o;
     dirtyStorage := dirtyStorage o; fakeStorage := fakeStorage o; dirtyCode := dirtyCode o;
     selfdestructed := selfdestructed o; deleted := b; created := created o |}.
Definition with_created (b : bool) (o : stateObject) : stateObject :=
  {| address := address o; data := data o; original := original o; code := code o;
     originStorage := originStorage o; blockOriginStorage := blockOriginStorage o;
     dirtyStorage := dirtyStorage o; fakeStorage := fakeStorage o; dirtyCode := dirtyCode o;
     selfdestructed := selfdestructed o; deleted := deleted o; created := b |}.

(** ** The journal *)

Inductive journalEntry :=
| createObjectChange (account : Address)
| resetObjectChange (account : Address) (prev : stateObject)
| selfdestructChange (account : Address) (prev : bool) (prevbalance : u256)
| balanceChange (account : Address) (prev : u256)
| balanceIncrease (account : Address) (increase : u256)
| balanceIncreaseTransfer (bi : nat)
| nonceChange (account : Address) (prev : Z)
| storageChange (account : Address) (key : Hash) (prevalue : u256)
| fakeStorageChange (account : Address) (key : Hash) (prevalue : u256)
| codeChange (account : Address) (prevcode : option (list Z)) (prevhash : Hash)
| refundChange (prev : Z)
| addLogChange (txhash : Hash)
| touchChange (account : Address)
| accessListAddAccountChange (addr : Address)
| accessListAddSlotChange (addr : Address) (slot : Hash).

Definition dirtied (e : journalEntry) : option Address :=
  match e with
  | createObjectChange a | selfdestructChange a _ _ | balanceChange a _ | balanceIncrease a _
  | nonceChange a _ | storageChange a _ _ | fakeStorageChange a _ _ | codeChange a _ _
  | touchChange a => Some a
  | resetObjectChange _ _ | balanceIncreaseTransfer _ | refundChange _ | addLogChange _
  | accessListAddAccountChange _ | accessListAddSlotChange _ _ => None
  end.

Record journal := mkJournal {
  entries : list journalEntry;
  dirties : gmap Address Z
}.

Definition newJournal : journal := {| entries := []; dirties := ∅ |}.

(** [j.dirties[a]++] reads a missing count as 0. *)
Definition journal_dirty (j : journal) (a : Address) : journal :=
  {| entries := entries j; dirties := <[a := default 0 (dirties j !! a) + 1]> (dirties j) |}.

Definition journal_append (j : journal) (e : journalEntry) : journal :=
  let j' := {| entries := entries j ++ [e]; dirties := dirties j |} in
  match dirtied e with
  | Some a => journal_dirty j' a
  | None => j'
  end.

(** Dropping the dirty tracking of one reverted entry. *)
Definition journal_undirty (j : journal) (e : journalEntry) : journal :=
  match dirtied e with
  | Some a =>
      let c := default 0 (dirties j !! a) - 1 in
      {| entries := entries j;
         dirties := if c =? 0 then delete a (dirties j) else <[a := c]> (dirties j) |}
  | None => j
  end.

(** ** Balance increases and the witness snapshot *)

Record BalanceIncrease := mkBI {
  increase : u256;
  transferred : bool;
  count : Z
}.

Record Item := mkItem { Key : list Z; Value : list Z }.

(** [entire.go]'s [Snapshot]: the pre-state items that execution has read. *)
Record Snapshot := mkSnapshot {
  Items : list Item;
  OutHash : Hash;
  accounts : gmap (list Z) Z;
  storage : gmap (list Z) Z;
  written : bool;
  getOneFun : option (string -> list Z -> option (list Z) * option error)
}.

(** ** The state of one block *)

Record IntraBlockState := mkIBS {
  stateReader : StateReader;
  stateObjects : gmap Address stateObject;
  stateObjectsDirty : gset Address;
  nilAccounts : gset Address;
  savedErr : option error;
  refund : Z;
  thash : Hash;
  bhash : Hash;
  txIndex : Z;
  logs : gmap Hash (list Log);
  logSize : Z;
  jrnl : journal;
  validRevisions : list (Z * nat);
  nextRevisionID : Z;
  accList : AccessList.accessList;
  balanceInc : gmap Address nat;
  biHeap : list BalanceIncrease;
  snap : option Snapshot;
  codeMap : option (gmap Hash (list Z));
  height : Z
}.

End Accounts.

Section Operations.
Context `{U : Uint256} `{E : @StateEnv U}.

(** ** Field updates of the state *)

Definition set_stateObjects (v : gmap Address stateObject) (s : IntraBlockState) : IntraBlockState :=
  {| stateReader := stateReader s; stateObjects := v; stateObjectsDirty := stateObjectsDirty s;
     nilAccounts := nilAccounts s; savedErr := savedErr s; refund := refund s; thash := thash s;
     bhash := bhash s; txIndex := txIndex s; logs := logs s; logSize := logSize s; jrnl := jrnl s;
     validRevisions := validRevisions s; nextRevisionID := nextRevisionID s; accList := accList s;
     balanceInc := balanceInc s; biHeap := biHeap s; snap := snap s; codeMap := codeMap s;
     height := height s |}.
Definition set_stateObjectsDirty (v : gset Address) (s : IntraBlockState) : IntraBlockState :=
  {| stateReader := stateReader s; stateObjects := stateObjects s; stateObjectsDirty := v;
     nilAccounts := nilAccounts s; savedErr := savedErr s; refund := refund s; thash := thash s;
     bhash := bhash s; txIndex := txIndex s; logs := logs s; logSize := logSize s; jrnl := jrnl s;
     validRevisions := validRevisions s; nextRevisionID := nextRevisionID s; accList := accList s;
     balanceInc := balanceInc s; biHeap := biHeap s; snap := snap s; codeMap := codeMap s;
     height := height s |}.
Definition set_nilAccounts (v : gset Address) (s : IntraBlockState) : IntraBlockState :=
  {| stateReader := stateReader s; stateObjects := stateObjects s;
     stateObjectsDirty := stateObjectsDirty s; nilAccounts := v; savedErr := savedErr s;
     refund := refund s; thash := thash s; bhash := bhash s; txIndex := txIndex s; logs := logs s;
     logSize := logSize s; jrnl := jrnl s; validRevisions := validRevisions s;
     nextRevisionID := nextRevisionID s; accList := accList s; balanceInc := balanceInc s;
     biHeap := biHeap s; snap := snap s; codeMap := codeMap s; height := height s |}.
Definition set_savedErr (v : option error) (s : IntraBlockState) : IntraBlockState :=
  {| stateReader := stateReader s; stateObjects := stateObjects s;
     stateObjectsDirty := stateObjectsDirty s; nilAccounts := nilAccounts s; savedErr := v;
     refund := refund s; thash := thash s; bhash := bhash s; txIndex := txIndex s; logs := logs s;
     logSize := logSize s; jrnl := jrnl s; validRevisions := validRevisions s;
     nextRevisionID := nextRevisionID s; accList := accList s; balanceInc := balanceInc s;
     biHeap := biHeap s; snap := snap s; codeMap := codeMap s; height := height s |}.
Definition set_refund (v : Z) (s : IntraBlockState) : IntraBlockState :=
  {| stateReader := stateReader s; stateObjects := stateObjects s;
     stateObjectsDirty := stateObjectsDirty s; nilAccounts := nilAccounts s;
     savedErr := savedErr s; refund := v; thash := thash s; bhash := bhash s; txIndex := txIndex s;
     logs := logs s; logSize := logSize s; jrnl := jrnl s; validRevisions := validRevisions s;
     nextRevisionID := nextRevisionID s; accList := accList s; balanceInc := balanceInc s;
     biHeap := biHeap s; snap := snap s; codeMap := codeMap s; height := height s |}.
Definition set_jrnl (v : journal) (s : IntraBlockState) : IntraBlockState :=
  {| stateReader := stateReader s; stateObjects := stateObjects s;
     stateObjectsDirty := stateObjectsDirty s; nilAccounts := nilAccounts s;
     savedErr := savedErr s; refund := refund s; thash := thash s; bhash := bhash s;
     txIndex := txIndex s; logs := logs s; logSize := logSize s; jrnl := v;
     validRevisions := validRevisions s; nextRevisionID := nextRevisionID s; accList := accList s;
     balanceInc := balanceInc s; biHeap := biHeap s; snap := snap s; codeMap := codeMap s;
     height := height s |}.
Definition set_accList (v : AccessList.accessList) (s : IntraBlockState) : IntraBlockState :=
  {| stateReader := stateReader s; stateObjects := stateObjects s;
     stateObjectsDirty := stateObjectsDirty s; nilAccounts := nilAccounts s;
     savedErr := savedErr s; refund := refund s; thash := thash s; bhash := bhash s;
     txIndex := txIndex s; logs := logs s; logSize := logSize s; jrnl := jrnl s;
     validRevisions := validRevisions s; nextRevisionID := nextRevisionID s; accList := v;
     balanceInc := balanceInc s; biHeap := biHeap s; snap := snap s; codeMap := codeMap s;
     height := height s |}.
Definition set_biHeap (v : list BalanceIncrease) (s : IntraBlockState) : IntraBlockState :=
  {| stateReader := stateReader s; stateObjects := stateObjects s;
     stateObjectsDirty := stateObjectsDirty s; nilAccounts := nilAccounts s;
     savedErr := savedErr s; refund := refund s; thash := thash s; bhash := bhash s;
     txIndex := txIndex s; logs := logs s; logSize := logSize s; jrnl := jrnl s;
     validRevisions := validRevisions s; nextRevisionID := nextRevisionID s; accList := accList s;
     balanceInc := balanceInc s; biHeap := v; snap := snap s; codeMap := codeMap s;
     height := height s |}.
Definition set_snap (v : option Snapshot) (s : IntraBlockState) : IntraBlockState :=
  {| stateReader := stateReader s; stateObjects := stateObjects s;
     stateObjectsDirty := stateObjectsDirty s; nilAccounts := nilAccounts s;
     savedErr := savedErr s; refund := refund s; thash := thash s; bhash := bhash s;
     txIndex := txIndex s; logs := logs s; logSize := logSize s; jrnl := jrnl s;
     validRevisions := validRevisions s; nextRevisionID := nextRevisionID s; accList := accList s;
     balanceInc := balanceInc s; biHeap := biHeap s; snap := v; codeMap := codeMap s;
     height := height s |}.
Definition set_codeMap (v : option (gmap Hash (list Z))) (s : IntraBlockState) : IntraBlockState :=
  {| stateReader := stateReader s; stateObjects := stateObjects s;
     stateObjectsDirty := stateObjectsDirty s; nilAccounts := nilAccounts s;
     savedErr := savedErr s; refund := refund s; thash := thash s; bhash := bhash s;
     txIndex := txIndex s; logs := logs s; logSize := logSize s; jrnl := jrnl s;
     validRevisions := validRevisions s; nextRevisionID := nextRevisionID s; accList := accList s;
     balanceInc := balanceInc s; biHeap := biHeap s; snap := snap s; codeMap := v;
     height := height s |}.
Definition set_stateReader (v : StateReader) (s : IntraBlockState) : IntraBlockState :=
  {| stateReader := v; stateObjects := stateObjects s; stateObjectsDirty := stateObjectsDirty s;
     nilAccounts := nilAccounts s; savedErr := savedErr s; refund := refund s; thash := thash s;
     bhash := bhash s; txIndex := txIndex s; logs := logs s; logSize := logSize s; jrnl := jrnl s;
     validRevisions := validRevisions s; nextRevisionID := nextRevisionID s; accList := accList s;
     balanceInc := balanceInc s; biHeap := biHeap s; snap := snap s; codeMap := codeMap s;
     height := height s |}.
Definition set_height (v : Z) (s : IntraBlockState) : IntraBlockState :=
  {| stateReader := stateReader s; stateObjects := stateObjects s;
     stateObjectsDirty := stateObjectsDirty s; nilAccounts := nilAccounts s;
     savedErr := savedErr s; refund := refund s; thash := thash s; bhash := bhash s;
     txIndex := txIndex s; logs := logs s; logSize := logSize s; jrnl := jrnl s;
     validRevisions := validRevisions s; nextRevisionID := nextRevisionID s; accList := accList s;
     balanceInc := balanceInc s; biHeap := biHeap s; snap := snap s; codeMap := codeMap s;
     height := v |}.
Definition set_logs (v0 : gmap Hash (list Log)) (v1 : Z) (s : IntraBlockState) : IntraBlockState :=
  {| stateReader := stateReader s; stateObjects := stateObjects s;
     stateObjectsDirty := stateObjectsDirty s; nilAccounts := nilAccounts s;
     savedErr := savedErr s; refund := refund s; thash := thash s; bhash := bhash s;
     txIndex := txIndex s; logs := v0; logSize := v1; jrnl := jrnl s;
     validRevisions := validRevisions s; nextRevisionID := nextRevisionID s; accList := accList s;
     balanceInc := balanceInc s; biHeap := biHeap s; snap := snap s; codeMap := codeMap s;
     height := height s |}.
Definition set_revisions (v0 : list (Z * nat)) (v1 : Z) (s : IntraBlockState) : IntraBlockState :=
  {| stateReader := stateReader s; stateObjects := stateObjects s;
     stateObjectsDirty := stateObjectsDirty s; nilAccounts := nilAccounts s;
     savedErr := savedErr s; refund := refund s; thash := thash s; bhash := bhash s;
     txIndex := txIndex s; logs := logs s; logSize := logSize s; jrnl := jrnl s;
     validRevisions := v0; nextRevisionID := v1; accList := accList s; balanceInc := balanceInc s;
     biHeap := biHeap s; snap := snap s; codeMap := codeMap s; height := height s |}.
Definition set_balanceInc (v0 : gmap Address nat) (v1 : list BalanceIncrease) (s : IntraBlockState) : IntraBlockState :=
  {| stateReader := stateReader s; stateObjects := stateObjects s;
     stateObjectsDirty := stateObjectsDirty s; nilAccounts := nilAccounts s;
     savedErr := savedErr s; refund := refund s; thash := thash s; bhash := bhash s;
     txIndex := txIndex s; logs := logs s; logSize := logSize s; jrnl := jrnl s;
     validRevisions := validRevisions s; nextRevisionID := nextRevisionID s; accList := accList s;
     balanceInc := v0; biHeap := v1; snap := snap s; codeMap := codeMap s; height := height s |}.
Definition set_tx (v0 : Hash) (v1 : Hash) (v2 : Z) (s : IntraBlockState) : IntraBlockState :=
  {| stateReader := stateReader s; stateObjects := stateObjects s;
     stateObjectsDirty := stateObjectsDirty s; nilAccounts := nilAccounts s;
     savedErr := savedErr s; refund := refund s; thash := v0; bhash := v1; txIndex := v2;
     logs := logs s; logSize := logSize s; jrnl := jrnl s; validRevisions := validRevisions s;
     nextRevisionID := nextRevisionID s; accList := accList s; balanceInc := balanceInc s;
     biHeap := biHeap s; snap := snap s; codeMap := codeMap s; height := height s |}.

(** [emptyCodeHash] *)
Definition emptyCodeHash : Hash := Keccak256Hash [].

(** The address of the RIPEMD precompile, which [touch] keeps dirty. *)
Definition ripemd : Address := 3.

(** [SystemAddress] *)
Definition SystemAddress : Address := 1461501637330902918203684832716283019655932542974.

(** ** [entire.go]: the witness snapshot *)

Definition NewWritableSnapshot : Snapshot :=
  {| Items := []; OutHash := emptyCodeHash; accounts := ∅; storage := ∅; written := true;
     getOneFun := None |}.

Definition NewReadableSnapshot : Snapshot :=
  {| Items := []; OutHash := emptyCodeHash; accounts := ∅; storage := ∅; written := false;
     getOneFun := None |}.

Definition CanWrite (sn : Snapshot) : bool := written sn.

(** [modules.PlainGenerateCompositeStorageKey] *)
Definition PlainGenerateCompositeStorageKey (a : Address) (incarnation : Z) (key : Hash) : list Z :=
  be_bytes 20 a ++ be_bytes 2 incarnation ++ be_bytes 32 key.

(** A missing index in [Items] is a Go index panic; [ReadSnapshotData] and
    [SetSnapshot] only store indices of [Items]. *)
Definition Snapshot_ReadAccountStorage (sn : Snapshot) (a : Address) (incarnation : Z) (key : Hash)
  : option (list Z) * option error :=
  if written sn then (None, None)
  else
    let compositeKey := PlainGenerateCompositeStorageKey a incarnation key in
    match storage sn !! compositeKey with
    | None =>
        match getOneFun sn with
        | Some f => f "Storage"%string compositeKey
        | None => (None, None)
        end
    | Some i =>
        match AccessList.index (Items sn) i with
        | Some it => (Some (Value it), None)
        | None => (None, None)
        end
    end.

Definition AddAccount (sn : Snapshot) (a : Address) (acc : StateAccount) : Snapshot :=
  if negb (written sn) then sn
  else
    let items := Items sn ++ [{| Key := be_bytes 20 a; Value := EncodeForStorage acc |}] in
    {| Items := items; OutHash := OutHash sn;
       accounts := <[be_bytes 20 a := Z.of_nat (length items)]> (accounts sn);
       storage := storage sn; written := written sn; getOneFun := getOneFun sn |}.

Definition AddStorage (sn : Snapshot) (a : Address) (key : Hash) (incarnation : Z) (value : list Z)
  : Snapshot :=
  if negb (written sn) || (Nat.eqb (length value) 0) then sn
  else
    let compositeKey := PlainGenerateCompositeStorageKey a incarnation key in
    {| Items := Items sn ++ [{| Key := compositeKey; Value := value |}]; OutHash := OutHash sn;
       accounts := accounts sn;
       storage := <[compositeKey := Z.of_nat (size (storage sn))]> (storage sn);
       written := written sn; getOneFun := getOneFun sn |}.

(** ** Objects and errors *)

(** [setError], [setErrorUnsafe]: the first error is kept. *)
Definition setError (s : IntraBlockState) (err : error) : IntraBlockState :=
  match savedErr s with
  | None => set_savedErr (Some err) s
  | Some _ => s
  end.

Definition append (s : IntraBlockState) (e : journalEntry) : IntraBlockState :=
  set_jrnl (journal_append (jrnl s) e) s.

(** Writing through the pointer of a live object. *)
Definition put (s : IntraBlockState) (o : stateObject) : IntraBlockState :=
  set_stateObjects (<[address o := o]> (stateObjects s)) s.

Definition empty (o : stateObject) : bool :=
  (Nonce (data o) =? 0) && uIsZero (Balance (data o)) && (CodeHash (data o) =? emptyCodeHash).

Definition newObject (a : Address) (dat orig : StateAccount) : stateObject :=
  let d := Account_Copy zeroAccount dat in
  let d := if negb (Initialised d) then set_Initialised true (set_Balance uzero d) else d in
  let d := if CodeHash d =? 0 then set_CodeHash emptyCodeHash d else d in
  {| address := a; data := d; original := Account_Copy zeroAccount orig; code := None;
     originStorage := ∅; blockOriginStorage := ∅; dirtyStorage := ∅; fakeStorage := None;
     dirtyCode := false; selfdestructed := false; deleted := false; created := false |}.

Definition markSelfdestructed (o : stateObject) : stateObject := with_selfdestructed true o.

Definition touch (s : IntraBlockState) (o : stateObject) : IntraBlockState :=
  let s := append s (touchChange (address o)) in
  if address o =? ripemd then set_jrnl (journal_dirty (jrnl s) (address o)) s else s.

(** The decoded storage word: a missing entry reads as zero. *)
Definition decode_word (enc : option (list Z)) : u256 :=
  match enc with Some b => uSetBytes b | None => uzero end.

(** Caching a committed value. *)
Definition cache_origin (key : Hash) (v : u256) (o : stateObject) : stateObject :=
  with_origin <[key := v]> <[key := v]> o.

(** [so.GetCommittedState(key, &out)] *)
Definition so_GetCommittedState (s : IntraBlockState) (o : stateObject) (key : Hash)
  : IntraBlockState * u256 :=
  match fakeStorage o with
  | Some f => (s, default uzero (f !! key))
  | None =>
      match originStorage o !! key with
      | Some v => (s, v)
      | None =>
          if created o then (s, uzero)
          else
            let from_db :=
              let '(enc, err) :=
                ReadAccountStorage (stateReader s) (address o) (Incarnation (data o)) key in
              match err with
              | Some e => (setError s e, uzero)
              | None =>
                  let s := match enc, snap s with
                           | Some b, Some sn =>
                               if CanWrite sn
                               then set_snap (Some (AddStorage sn (address o) key
                                                      (Incarnation (data o)) b)) s
                               else s
                           | _, _ => s
                           end in
                  let out := decode_word enc in
                  (put s (cache_origin key out o), out)
              end in
            match snap s with
            | Some sn =>
                if negb (CanWrite sn) then
                  let '(enc, err) :=
                    Snapshot_ReadAccountStorage sn (address o) (Incarnation (data o)) key in
                  match err with
                  | Some e => (setError s e, uzero)
                  | None => let out := decode_word enc in (put s (cache_origin key out o), out)
                  end
                else from_db
            | None => from_db
            end
      end
  end.

(** [so.GetState(key, &out)] *)
Definition so_GetState (s : IntraBlockState) (o : stateObject) (key : Hash)
  : IntraBlockState * u256 :=
  match fakeStorage o with
  | Some f => (s, default uzero (f !! key))
  | None =>
      match dirtyStorage o !! key with
      | Some v => (s, v)
      | None => so_GetCommittedState s o key
      end
  end.

Definition so_setState (key : Hash) (v : u256) (o : stateObject) : stateObject :=
  with_dirtyStorage <[key := v]> o.

(** Reading back the object a method has just written. *)
Definition live (s : IntraBlockState) (o : stateObject) : stateObject :=
  default o (stateObjects s !! address o).

(** [so.SetState(key, value)] *)
Definition so_SetState (s : IntraBlockState) (o : stateObject) (key : Hash) (value : u256)
  : IntraBlockState :=
  match fakeStorage o with
  | Some f =>
      let s := append s (fakeStorageChange (address o) key (default uzero (f !! key))) in
      put s (with_fakeStorage (Some (<[key := value]> f)) o)
  | None =>
      let '(s, prev) := so_GetState s o key in
      if bool_decide (prev = value) then s
      else
        let s := append s (storageChange (address o) key prev) in
        put s (so_setState key value (live s o))
  end.

(** [so.SetStorage(storage)]: debugging only, not journalled. *)
Definition so_SetStorage `{MapRange} (o : stateObject) (st : gmap Hash u256) : stateObject :=
  let f := default ∅ (fakeStorage o) in
  with_fakeStorage (Some (foldl (fun m kv => <[kv.1 := kv.2]> m) f (range st))) o.

Definition so_setBalance (amount : u256) (o : stateObject) : stateObject :=
  with_data (fun d => set_Initialised true (set_Balance amount d)) o.

Definition so_SetBalance (s : IntraBlockState) (o : stateObject) (amount : u256) : IntraBlockState :=
  let s := append s (balanceChange (address o) (Balance (data o))) in
  put s (so_setBalance amount o).

Definition so_AddBalance (s : IntraBlockState) (o : stateObject) (amount : u256) : IntraBlockState :=
  if uIsZero amount then
    if empty o then touch s o else s
  else so_SetBalance s o (uAdd (Balance (data o)) amount).

Definition so_SubBalance (s : IntraBlockState) (o : stateObject) (amount : u256) : IntraBlockState :=
  if uIsZero amount then s
  else so_SetBalance s o (uSub (Balance (data o)) amount).

(** [so.Code()] *)
Definition so_Code (s : IntraBlockState) (o : stateObject) : IntraBlockState * option (list Z) :=
  match code o with
  | Some c => (s, Some c)
  | None =>
      if CodeHash (data o) =? emptyCodeHash then (s, None)
      else
        let '(c, err) :=
          ReadAccountCode (stateReader s) (address o) (Incarnation (data o)) (CodeHash (data o)) in
        let s := match err with Some e => setError s e | None => s end in
        (put s (with_code c o), c)
  end.

Definition so_setCode (codeHash : Hash) (c : option (list Z)) (o : stateObject) : stateObject :=
  with_dirtyCode true (with_data (set_CodeHash codeHash) (with_code c o)).

Definition so_SetCode (s : IntraBlockState) (o : stateObject) (codeHash : Hash) (c : option (list Z))
  : IntraBlockState :=
  let '(s, prevcode) := so_Code s o in
  let s := append s (codeChange (address o) prevcode (CodeHash (data o))) in
  put s (so_setCode codeHash c (live s o)).

Definition so_setNonce (n : Z) (o : stateObject) : stateObject := with_data (set_Nonce n) o.

Definition so_SetNonce (s : IntraBlockState) (o : stateObject) (n : Z) : IntraBlockState :=
  let s := append s (nonceChange (address o) (Nonce (data o))) in
  put s (so_setNonce n o).

(** ** [intra_block_state.go]: loading and creating objects *)

Definition New (reader : StateReader) : IntraBlockState :=
  {| stateReader := reader; stateObjects := ∅; stateObjectsDirty := ∅; nilAccounts := ∅;
     savedErr := None; refund := 0; thash := 0; bhash := 0; txIndex := 0; logs := ∅; logSize := 0;
     jrnl := newJournal; validRevisions := []; nextRevisionID := 0;
     accList := AccessList.newAccessList; balanceInc := ∅; biHeap := []; snap := None;
     codeMap := None; height := 0 |}.

(** The increase recorded for an address, with its pointer. *)
Definition getBI (s : IntraBlockState) (a : Address) : option (nat * BalanceIncrease) :=
  p ← balanceInc s !! a; bi ← biHeap s !! p; Some (p, bi).

(** [bi, ok := balanceInc[addr]; ok && !bi.transferred] *)
Definition pending (s : IntraBlockState) (a : Address) : option (nat * BalanceIncrease) :=
  match getBI s a with
  | Some (p, bi) => if transferred bi then None else Some (p, bi)
  | None => None
  end.

Definition set_transferred (b : bool) (bi : BalanceIncrease) : BalanceIncrease :=
  {| increase := increase bi; transferred := b; count := count bi |}.

(** Inserts [object]; a pending increase moves into its balance.  Returns the
    object as stored. *)
Definition setStateObject (s : IntraBlockState) (a : Address) (object : stateObject)
  : IntraBlockState * stateObject :=
  let '(s, object) :=
    match pending s a with
    | Some (p, bi) =>
        let object := with_data (fun d => set_Balance (uAdd (Balance d) (increase bi)) d) object in
        let s := set_biHeap (alter (set_transferred true) p (biHeap s)) s in
        (append s (balanceIncreaseTransfer p), object)
    | None => (s, object)
    end in
  (set_stateObjects (<[a := object]> (stateObjects s)) s, object).

Definition createObject (s : IntraBlockState) (a : Address) (previous : option stateObject)
  : IntraBlockState * stateObject :=
  let orig := match previous with None => zeroAccount | Some p => original p end in
  let newobj := so_setNonce 0 (newObject a zeroAccount orig) in
  let s := append s (match previous with
                     | None => createObjectChange a
                     | Some p => resetObjectChange a p
                     end) in
  setStateObject s a newobj.

(** [nil] when the account does not exist or cannot be read. *)
Definition getStateObject (s : IntraBlockState) (a : Address)
  : IntraBlockState * option stateObject :=
  let create s :=
    match pending s a with
    | Some _ => let '(s, o) := createObject s a None in (s, Some o)
    | None => (s, None)
    end in
  match stateObjects s !! a with
  | Some o => (s, Some o)
  | None =>
      if decide (a ∈ nilAccounts s) then create s
      else
        let '(acc, err) := ReadAccountData (stateReader s) a in
        match err with
        | Some e => (setError s e, None)
        | None =>
            match acc with
            | None => create (set_nilAccounts ({[ a ]} ∪ nilAccounts s) s)
            | Some acc =>
                let s := match snap s with
                         | Some sn => if CanWrite sn then set_snap (Some (AddAccount sn a acc)) s else s
                         | None => s
                         end in
                let '(s, o) := setStateObject s a (newObject a acc acc) in (s, Some o)
            end
        end
  end.

Definition GetOrNewStateObject (s : IntraBlockState) (a : Address) : IntraBlockState * stateObject :=
  let '(s, so) := getStateObject s a in
  match so with
  | Some o => if deleted o then createObject s a (Some o) else (s, o)
  | None => createObject s a None
  end.

(** ** Readers *)

Definition alive (so : option stateObject) : option stateObject :=
  match so with Some o => if deleted o then None else Some o | None => None end.

Definition Exist (s : IntraBlockState) (a : Address) : IntraBlockState * bool :=
  let '(s, so) := getStateObject s a in
  (s, match alive so with Some _ => true | None => false end).

Definition Empty (s : IntraBlockState) (a : Address) : IntraBlockState * bool :=
  let '(s, so) := getStateObject s a in
  (s, match so with None => true | Some o => deleted o || empty o end).

Definition GetBalance (s : IntraBlockState) (a : Address) : IntraBlockState * u256 :=
  let '(s, so) := getStateObject s a in
  (s, match alive so with Some o => Balance (data o) | None => uzero end).

Definition GetNonce (s : IntraBlockState) (a : Address) : IntraBlockState * Z :=
  let '(s, so) := getStateObject s a in
  (s, match alive so with Some o => Nonce (data o) | None => 0 end).

Definition GetCode (s : IntraBlockState) (a : Address) : IntraBlockState * option (list Z) :=
  let '(s, so) := getStateObject s a in
  match alive so with
  | Some o =>
      let '(s, c) := so_Code s o in
      (match c, codeMap s with
       | Some (_ :: _ as b), Some m => set_codeMap (Some (<[CodeHash (data o) := b]> m)) s
       | _, _ => s
       end, c)
  | None => (s, None)
  end.

Definition GetCodeSize (s : IntraBlockState) (a : Address) : IntraBlockState * Z :=
  let '(s, so) := getStateObject s a in
  match alive so with
  | None => (s, 0)
  | Some o =>
      match code o with
      | Some c => (s, Z.of_nat (length c))
      | None =>
          let '(len, err) :=
            ReadAccountCodeSize (stateReader s) a (Incarnation (data o)) (CodeHash (data o)) in
          let s := match err with Some e => setError s e | None => s end in
          match codeMap s with
          | Some m =>
              if 0 <? len then
                let '(c, _) :=
                  ReadAccountCode (stateReader s) a (Incarnation (data o)) (CodeHash (data o)) in
                (set_codeMap (Some (<[CodeHash (data o) := from_nil c]> m)) s, len)
              else (s, len)
          | None => (s, len)
          end
      end
  end.

Definition GetCodeHash (s : IntraBlockState) (a : Address) : IntraBlockState * Hash :=
  let '(s, so) := getStateObject s a in
  (s, match alive so with Some o => CodeHash (data o) | None => 0 end).

Definition GetState (s : IntraBlockState) (a : Address) (key : Hash) : IntraBlockState * u256 :=
  let '(s, so) := getStateObject s a in
  match alive so with Some o => so_GetState s o key | None => (s, uzero) end.

Definition GetCommittedState (s : IntraBlockState) (a : Address) (key : Hash)
  : IntraBlockState * u256 :=
  let '(s, so) := getStateObject s a in
  match alive so with Some o => so_GetCommittedState s o key | None => (s, uzero) end.

Definition HasSuicided (s : IntraBlockState) (a : Address) : IntraBlockState * bool :=
  let '(s, so) := getStateObject s a in
  (s, match alive so with
      | Some o => if created o then false else selfdestructed o
      | None => false
      end).

Definition GetIncarnation (s : IntraBlockState) (a : Address) : IntraBlockState * Z :=
  let '(s, so) := getStateObject s a in
  (s, match so with Some o => Incarnation (data o) | None => 0 end).

Definition GetLogs (s : IntraBlockState) (h : Hash) : list Log := from_nil (logs s !! h).

Definition GetRefund (s : IntraBlockState) : Z := refund s.

(** ** Writers *)

Definition AddLog (s : IntraBlockState) (l : Log) : IntraBlockState :=
  let s := append s (addLogChange (thash s)) in
  let l := {| LogAddress := LogAddress l; Topics := Topics l; LogData := LogData l;
              LogTxHash := thash s; LogBlockHash := bhash s; LogTxIndex := txIndex s;
              LogIndex := logSize s |} in
  set_logs (<[thash s := from_nil (logs s !! thash s) ++ [l]]> (logs s)) (logSize s +u 1) s.

Definition AddRefund (s : IntraBlockState) (gas : Z) : IntraBlockState :=
  let s := append s (refundChange (refund s)) in
  set_refund (refund s +u gas) s.

Definition SubRefund (s : IntraBlockState) (gas : Z) : IntraBlockState :=
  let s := append s (refundChange (refund s)) in
  let s := if refund s <? gas then setError s "refund counter below zero" else s in
  set_refund (refund s -u gas) s.

(** An increase for an account that has not been read is only recorded. *)
Definition AddBalance (s : IntraBlockState) (a : Address) (amount : u256) : IntraBlockState :=
  let needAccount := bool_decide (is_Some (stateObjects s !! a)) || ((a =? ripemd) && uIsZero amount) in
  if negb needAccount then
    let s := append s (balanceIncrease a amount) in
    let '(s, p) :=
      match balanceInc s !! a with
      | Some p => (s, p)
      | None =>
          let p := length (biHeap s) in
          (set_balanceInc (<[a := p]> (balanceInc s))
             (biHeap s ++ [{| increase := uzero; transferred := false; count := 0 |}]) s, p)
      end in
    set_biHeap (alter (fun bi => {| increase := uAdd (increase bi) amount;
                                    transferred := transferred bi; count := count bi + 1 |})
                  p (biHeap s)) s
  else
    let '(s, o) := GetOrNewStateObject s a in so_AddBalance s o amount.

Definition SubBalance (s : IntraBlockState) (a : Address) (amount : u256) : IntraBlockState :=
  let '(s, o) := GetOrNewStateObject s a in so_SubBalance s o amount.

Definition SetBalance (s : IntraBlockState) (a : Address) (amount : u256) : IntraBlockState :=
  let '(s, o) := GetOrNewStateObject s a in so_SetBalance s o amount.

Definition SetNonce (s : IntraBlockState) (a : Address) (n : Z) : IntraBlockState :=
  let '(s, o) := GetOrNewStateObject s a in so_SetNonce s o n.

Definition SetCode (s : IntraBlockState) (a : Address) (c : option (list Z)) : IntraBlockState :=
  let '(s, o) := GetOrNewStateObject s a in so_SetCode s o (Keccak256Hash (from_nil c)) c.

Definition SetState (s : IntraBlockState) (a : Address) (key : Hash) (value : u256)
  : IntraBlockState :=
  let '(s, o) := GetOrNewStateObject s a in so_SetState s o key value.

Definition SetStorage `{MapRange} (s : IntraBlockState) (a : Address) (st : gmap Hash u256)
  : IntraBlockState :=
  let '(s, o) := GetOrNewStateObject s a in put s (so_SetStorage o st).

Definition SetIncarnation (s : IntraBlockState) (a : Address) (incarnation : Z) : IntraBlockState :=
  let '(s, o) := GetOrNewStateObject s a in put s (with_data (set_Incarnation incarnation) o).

(** [Suicide] and [Selfdestruct] *)
Definition Suicide (s : IntraBlockState) (a : Address) : IntraBlockState * bool :=
  let '(s, so) := getStateObject s a in
  match alive so with
  | None => (s, false)
  | Some o =>
      let s := append s (selfdestructChange a (selfdestructed o) (Balance (data o))) in
      (put s (with_data (set_Balance uzero) (with_created false (markSelfdestructed o))), true)
  end.

Definition CreateAccount (s : IntraBlockState) (a : Address) (contractCreation : bool)
  : IntraBlockState :=
  let '(s, previous) := getStateObject s a in
  let prevInc :=
    if contractCreation then
      let from_reader :=
        let '(inc, err) := ReadAccountIncarnation (stateReader s) a in
        match err with None => inc | Some _ => 0 end in
      match previous with
      | Some p => if selfdestructed p then Incarnation (data p) else from_reader
      | None => from_reader
      end
    else 0 in
  let '(s, newObj) := createObject s a previous in
  let newObj := match previous with
                | Some p => with_data (fun d => set_Initialised true (set_Balance (Balance (data p)) d)) newObj
                | None => newObj
                end in
  let newObj := if contractCreation
                then with_data (set_Incarnation ((prevInc + 1) mod 65536)) (with_created true newObj)
                else with_selfdestructed false newObj in
  put s newObj.

(** ** Access list *)

Definition AddAddressToAccessList (s : IntraBlockState) (a : Address) : IntraBlockState :=
  let '(al, added) := AccessList.AddAddress (accList s) a in
  let s := set_accList al s in
  if added then append s (accessListAddAccountChange a) else s.

(** [None] is a panic of the access list. *)
Definition AddSlotToAccessList (s : IntraBlockState) (a : Address) (slot : Hash)
  : option IntraBlockState :=
  '(al, (addrMod, slotMod)) ← AccessList.AddSlot (accList s) a slot;
  let s := set_accList al s in
  let s := if addrMod : bool then append s (accessListAddAccountChange a) else s in
  Some (if slotMod : bool then append s (accessListAddSlotChange a slot) else s).

Definition PrepareAccessList (s : IntraBlockState) (sender : Address) (dst : option Address)
  (precompiles : list Address) (list : list (Address * list Hash)) : option IntraBlockState :=
  let s := AddAddressToAccessList s sender in
  let s := match dst with Some d => AddAddressToAccessList s d | None => s end in
  let s := foldl AddAddressToAccessList s precompiles in
  foldl (fun os el =>
           s ← os;
           foldl (fun os key => s ← os; AddSlotToAccessList s el.1 key)
             (Some (AddAddressToAccessList s el.1)) el.2)
    (Some s) list.

Definition AddressInAccessList (s : IntraBlockState) (a : Address) : bool :=
  AccessList.ContainsAddress (accList s) a.

Definition SlotInAccessList (s : IntraBlockState) (a : Address) (slot : Hash) : option (bool * bool) :=
  AccessList.Contains (accList s) a slot.

(** [Prepare]: start a transaction. *)
Definition Prepare (s : IntraBlockState) (th bh : Hash) (ti : Z) : IntraBlockState :=
  set_accList AccessList.newAccessList (set_tx th bh ti s).

(** ** Reverting *)

(** [ch.revert(s)]; [None] is a panic (nil dereference, missing slot). *)
Definition revert_entry (s : IntraBlockState) (e : journalEntry) : option IntraBlockState :=
  let on_object a (f : stateObject -> option stateObject) :=
    let '(s, so) := getStateObject s a in
    o ← so; o' ← f o; Some (put s o') in
  match e with
  | createObjectChange a =>
      Some (set_stateObjectsDirty (stateObjectsDirty s ∖ {[ a ]})
              (set_stateObjects (delete a (stateObjects s)) s))
  | resetObjectChange a prev => Some (setStateObject s a prev).1
  | selfdestructChange a prev prevbalance =>
      let '(s, so) := getStateObject s a in
      Some (match so with
            | Some o => put s (so_setBalance prevbalance (with_selfdestructed prev o))
            | None => s
            end)
  | touchChange _ => Some s
  | balanceChange a prev => on_object a (fun o => Some (so_setBalance prev o))
  | balanceIncrease a inc =>
      match balanceInc s !! a with
      | None => Some s
      | Some p =>
          bi ← biHeap s !! p;
          let bi := {| increase := uSub (increase bi) inc; transferred := transferred bi;
                       count := count bi - 1 |} in
          let s := set_biHeap (<[p := bi]> (biHeap s)) s in
          Some (if count bi =? 0 then set_balanceInc (delete a (balanceInc s)) (biHeap s) s else s)
      end
  | balanceIncreaseTransfer p => Some (set_biHeap (alter (set_transferred false) p (biHeap s)) s)
  | nonceChange a prev => on_object a (fun o => Some (so_setNonce prev o))
  | codeChange a prevcode prevhash => on_object a (fun o => Some (so_setCode prevhash prevcode o))
  | storageChange a key prevalue => on_object a (fun o => Some (so_setState key prevalue o))
  | fakeStorageChange a key prevalue =>
      on_object a (fun o => f ← fakeStorage o; Some (with_fakeStorage (Some (<[key := prevalue]> f)) o))
  | refundChange prev => Some (set_refund prev s)
  | addLogChange txhash =>
      let l := from_nil (logs s !! txhash) in
      match l with
      | [] => None
      | [_] => Some (set_logs (delete txhash (logs s)) (logSize s -u 1) s)
      | _ => Some (set_logs (<[txhash := take (length l - 1) l]> (logs s)) (logSize s -u 1) s)
      end
  | accessListAddAccountChange a => Some (set_accList (AccessList.DeleteAddress (accList s) a) s)
  | accessListAddSlotChange a slot =>
      al ← AccessList.DeleteSlot (accList s) a slot; Some (set_accList al s)
  end.

(** The loop of [journal.revert]: the [n] entries from [snapshot + n - 1] down
    to [snapshot]; a revert may itself append entries, which the final
    truncation drops. *)
Fixpoint revert_loop (s : IntraBlockState) (snapshot n : nat) : option IntraBlockState :=
  match n with
  | O => Some s
  | S n' =>
      e ← entries (jrnl s) !! (snapshot + n')%nat;
      s' ← revert_entry s e;
      revert_loop (set_jrnl (journal_undirty (jrnl s') e) s') snapshot n'
  end.

Definition journal_revert (s : IntraBlockState) (snapshot : nat) : option IntraBlockState :=
  s' ← revert_loop s snapshot (length (entries (jrnl s)) - snapshot);
  Some (set_jrnl {| entries := take snapshot (entries (jrnl s')); dirties := dirties (jrnl s') |} s').

(** [Snapshot()] returns the identifier of the new revision. *)
Definition TakeSnapshot (s : IntraBlockState) : IntraBlockState * Z :=
  let id := nextRevisionID s in
  (set_revisions (validRevisions s ++ [(id, length (entries (jrnl s)))]) (id + 1) s, id).

Definition RevertToSnapshot (s : IntraBlockState) (revid : Z) : option IntraBlockState :=
  let revs := validRevisions s in
  let idx := sort_Search (length revs)
               (fun i => match revs !! i with Some (id, _) => revid <=? id | None => true end) in
  '(id, journalIndex) ← revs !! idx;
  if negb (id =? revid) then None
  else
    s' ← journal_revert s journalIndex;
    Some (set_revisions (take idx (validRevisions s')) (nextRevisionID s') s').

Definition clearJournalAndRefund (s : IntraBlockState) : IntraBlockState :=
  set_refund 0 (set_revisions [] (nextRevisionID s) (set_jrnl newJournal s)).

Definition Reset (s : IntraBlockState) : IntraBlockState :=
  let s := set_stateObjectsDirty ∅ (set_stateObjects ∅ s) in
  let s := set_logs ∅ 0 (set_tx 0 0 0 s) in
  let s := clearJournalAndRefund s in
  set_balanceInc ∅ (biHeap s) (set_accList AccessList.newAccessList s).

End Operations.
