(* ===== verification/StateRevert.v ===== *)
(** * StateRevert: [RevertToSnapshot] restores the observable state

    The caches of [StateModel] (loaded objects, committed slots, loaded code,
    accounts known to be missing) are filled by reads and survive a revert, so
    two states are compared by what their reads return: [equiv].  The journal
    of a run of operations rewinds ([rewinds]) each state to one [equiv] to the
    state before it. *)

From S2P Require Import Prelude Uint256 AccessList StateModel.

Section Observation.
Context `{U : Uint256} `{E : @StateEnv U}.
Implicit Types s t : IntraBlockState.
Implicit Types o : stateObject.

(** ** What reads return, without the caching *)

(** Where storage is read from: the readable witness, else the reader. *)
Definition source s (a : Address) (inc : Z) (k : Hash) : option (list Z) * option error :=
  match snap s with
  | Some sn => if negb (CanWrite sn) then Snapshot_ReadAccountStorage sn a inc k
               else ReadAccountStorage (stateReader s) a inc k
  | None => ReadAccountStorage (stateReader s) a inc k
  end.

Definition committed s o (k : Hash) : u256 :=
  match fakeStorage o with
  | Some f => default uzero (f !! k)
  | None =>
      match originStorage o !! k with
      | Some v => v
      | None =>
          if created o then uzero
          else match source s (address o) (Incarnation (data o)) k with
               | (_, Some _) => uzero
               | (enc, None) => decode_word enc
               end
      end
  end.

Definition stored s o (k : Hash) : u256 :=
  match fakeStorage o with
  | Some f => default uzero (f !! k)
  | None => match dirtyStorage o !! k with Some v => v | None => committed s o k end
  end.

Definition codeOf s o : option (list Z) :=
  match code o with
  | Some c => Some c
  | None =>
      if CodeHash (data o) =? emptyCodeHash then None
      else (ReadAccountCode (stateReader s) (address o) (Incarnation (data o)) (CodeHash (data o))).1
  end.

(** The object [getStateObject] finds when no balance increase is pending. *)
Definition load s (a : Address) : option stateObject :=
  match stateObjects s !! a with
  | Some o => Some o
  | None =>
      match ReadAccountData (stateReader s) a with
      | (Some acc, None) => Some (newObject a acc acc)
      | _ => None
      end
  end.

(** ** Equivalence *)

Record obj_equiv s o1 o2 : Prop := {
  oe_address : address o1 = address o2;
  oe_data : data o1 = data o2;
  oe_original : original o1 = original o2;
  oe_selfdestructed : selfdestructed o1 = selfdestructed o2;
  oe_deleted : deleted o1 = deleted o2;
  oe_created : created o1 = created o2;
  oe_fake : is_Some (fakeStorage o1) <-> is_Some (fakeStorage o2);
  oe_committed : forall k, committed s o1 k = committed s o2 k;
  oe_stored : forall k, stored s o1 k = stored s o2 k;
  oe_code : codeOf s o1 = codeOf s o2
}.

Record equiv s t : Prop := {
  eq_reader : stateReader s = stateReader t;
  eq_source : forall a i k, source s a i k = source t a i k;
  eq_refund : refund s = refund t;
  eq_thash : thash s = thash t;
  eq_bhash : bhash s = bhash t;
  eq_txIndex : txIndex s = txIndex t;
  eq_logs : forall h, GetLogs s h = GetLogs t h;
  eq_logSize : logSize s = logSize t;
  eq_accList : accList s = accList t;
  eq_balanceInc : balanceInc s = balanceInc t;
  eq_biHeap : biHeap s = biHeap t;
  eq_objects : forall a, option_Forall2 (obj_equiv s) (load s a) (load t a)
}.

Lemma committed_source s t o k :
  (forall a i k, source s a i k = source t a i k) -> committed s o k = committed t o k.
Proof. intros H. unfold committed. by rewrite H. Qed.

Lemma stored_source s t o k :
  (forall a i k, source s a i k = source t a i k) -> stored s o k = stored t o k.
Proof. intros H. unfold stored. by rewrite (committed_source s t). Qed.

Lemma codeOf_reader s t o : stateReader s = stateReader t -> codeOf s o = codeOf t o.
Proof. intros H. unfold codeOf. by rewrite H. Qed.

Lemma obj_equiv_source s t o1 o2 :
  stateReader s = stateReader t -> (forall a i k, source s a i k = source t a i k) ->
  obj_equiv s o1 o2 -> obj_equiv t o1 o2.
Proof.
  intros Hr Hs []. split; auto.
  - intros k. rewrite <- !(committed_source s t) by done. auto.
  - intros k. rewrite <- !(stored_source s t) by done. auto.
  - rewrite <- !(codeOf_reader s t) by done. auto.
Qed.

Lemma obj_equiv_refl s o : obj_equiv s o o.
Proof. by split. Qed.

Lemma obj_equiv_sym s o1 o2 : obj_equiv s o1 o2 -> obj_equiv s o2 o1.
Proof. intros []. split; auto; by symmetry. Qed.

Lemma obj_equiv_trans s o1 o2 o3 : obj_equiv s o1 o2 -> obj_equiv s o2 o3 -> obj_equiv s o1 o3.
Proof. intros [] []. split; try (etrans; eauto). Qed.

Lemma option_Forall2_mono {A B} (P Q : A -> B -> Prop) x y :
  (forall a b, P a b -> Q a b) -> option_Forall2 P x y -> option_Forall2 Q x y.
Proof. intros H []; constructor; auto. Qed.

#[global] Instance equiv_Equivalence : Equivalence equiv.
Proof.
  split.
  - intros s. split; auto. intros a. destruct (load s a); constructor. apply obj_equiv_refl.
  - intros s t []. split; auto. intros a.
    specialize (eq_objects0 a). inv eq_objects0; constructor.
    apply obj_equiv_sym. eapply obj_equiv_source; eauto.
  - intros s t u [] []. split; try (etrans; eauto).
    intros a. specialize (eq_objects0 a). specialize (eq_objects1 a).
    inv eq_objects0; inv eq_objects1; try congruence; constructor.
    eapply obj_equiv_trans; [eauto|].
    replace y with x0 by congruence.
    eapply (obj_equiv_source t s); auto.
Qed.

(** ** The invariant of a transaction in progress *)

(** No balance increase is pending: [FinalizeTx] has moved them into objects. *)
Record Inv s : Prop := {
  inv_live : forall a o, stateObjects s !! a = Some o ->
    address o = a /\ Initialised (data o) = true;
  inv_nil : forall a, a ∈ nilAccounts s -> ReadAccountData (stateReader s) a = (None, None);
  inv_pending : forall a, pending s a = None;
  inv_accList : AccessList.wf (accList s);
  inv_logSize : in_u64 (logSize s)
}.

Lemma newObject_live a d g : address (newObject a d g) = a /\ Initialised (data (newObject a d g)) = true.
Proof.
  split; [done|]. unfold newObject; cbn.
  by destruct (Initialised d) eqn:Ei; cbn; case_match; cbn; rewrite ?Ei.
Qed.

Lemma load_live s a o : Inv s -> load s a = Some o -> address o = a /\ Initialised (data o) = true.
Proof.
  intros I. unfold load. destruct (stateObjects s !! a) eqn:E1.
  - intros [= <-]. by eapply inv_live.
  - destruct (ReadAccountData _ a) as [[acc|] [e|]]; intros; simplify_eq. apply newObject_live.
Qed.

(** [Inv] carries over to an equivalent state that knows only true absences. *)
Lemma Inv_equiv s t :
  Inv s -> equiv s t -> (forall a, a ∈ nilAccounts t -> ReadAccountData (stateReader t) a = (None, None)) ->
  Inv t.
Proof.
  intros I Q Hn. split; auto.
  - intros a o Ho. assert (load t a = Some o) as Hl by (unfold load; by rewrite Ho).
    pose proof (eq_objects _ _ Q a) as Hq. rewrite Hl in Hq. inv Hq.
    destruct (load_live s a x I ltac:(done)). destruct H1. split; congruence.
  - intros a. pose proof (inv_pending _ I a) as Hp. unfold pending, getBI in *.
    by rewrite <- (eq_balanceInc _ _ Q), <- (eq_biHeap _ _ Q).
  - rewrite <- (eq_accList _ _ Q). apply I.
  - rewrite <- (eq_logSize _ _ Q). apply I.
Qed.

(** ** Steps that only fill caches *)

(** The journal and the revisions are the same and the reads are. *)
Record quiet s t : Prop := {
  q_equiv : equiv s t;
  q_inv : Inv t;
  q_jrnl : jrnl t = jrnl s;
  q_revs : validRevisions t = validRevisions s;
  q_next : nextRevisionID t = nextRevisionID s
}.

Lemma quiet_refl s : Inv s -> quiet s s.
Proof. by split. Qed.

Lemma quiet_trans s t u : quiet s t -> quiet t u -> quiet s u.
Proof. intros [] []. split; auto; try congruence. by etrans. Qed.

(** Everything but the live objects, the error, the witness and the code map is
    the same, and the witness serves the same storage. *)
Record frame s t : Prop := {
  fr_reader : stateReader t = stateReader s;
  fr_source : forall a i k, source t a i k = source s a i k;
  fr_refund : refund t = refund s;
  fr_tx : (thash t, bhash t, txIndex t) = (thash s, bhash s, txIndex s);
  fr_logs : logs t = logs s;
  fr_logSize : logSize t = logSize s;
  fr_accList : accList t = accList s;
  fr_inc : (balanceInc t, biHeap t) = (balanceInc s, biHeap s)
}.

Lemma frame_equiv s t :
  frame s t -> (forall a, option_Forall2 (obj_equiv s) (load s a) (load t a)) -> equiv s t.
Proof.
  intros [] Ho. simplify_eq. split; auto; try congruence.
  intros h. unfold GetLogs. by rewrite fr_logs0.
Qed.

Lemma frame_setError s e : frame s (setError s e).
Proof. unfold setError. destruct (savedErr s); by split. Qed.

Lemma frame_put s o : frame s (put s o).
Proof. by split. Qed.

Lemma frame_snap s sn sn' :
  snap s = Some sn -> written sn = true -> written sn' = true -> frame s (set_snap (Some sn') s).
Proof.
  intros Hs Hw Hw'. split; try done. intros. unfold source; cbn. rewrite Hs.
  unfold CanWrite. by rewrite Hw, Hw'.
Qed.

Lemma AddAccount_written sn a acc : written (AddAccount sn a acc) = written sn.
Proof. unfold AddAccount. by destruct (negb (written sn)). Qed.

Lemma AddStorage_written sn a k i v : written (AddStorage sn a k i v) = written sn.
Proof. unfold AddStorage. by case_match. Qed.

Lemma load_put s o a : load (put s o) a = if decide (address o = a) then Some o else load s a.
Proof.
  unfold load, put; cbn. rewrite lookup_insert. case_decide; done.
Qed.

Lemma load_frame s t a :
  stateReader t = stateReader s -> stateObjects t = stateObjects s -> load t a = load s a.
Proof. intros H1 H2. unfold load. by rewrite H1, H2. Qed.

Lemma setError_fields s e :
  stateObjects (setError s e) = stateObjects s /\ nilAccounts (setError s e) = nilAccounts s /\
  jrnl (setError s e) = jrnl s /\ validRevisions (setError s e) = validRevisions s /\
  nextRevisionID (setError s e) = nextRevisionID s.
Proof. unfold setError. by destruct (savedErr s). Qed.

(** Replacing a loaded object by an equivalent one is quiet. *)
Lemma quiet_put s o o' :
  Inv s -> load s (address o) = Some o -> obj_equiv s o o' -> quiet s (put s o').
Proof.
  intros I Hl Ho. assert (equiv s (put s o')) as Q.
  { apply frame_equiv; [apply frame_put|]. intros a. rewrite load_put.
    case_decide as Ha.
    - rewrite <- Ha, <- (oe_address _ _ _ Ho), Hl. by constructor.
    - destruct (load s a); constructor. apply obj_equiv_refl. }
  split; auto. eapply Inv_equiv; eauto. apply I.
Qed.

Lemma quiet_setError s e : Inv s -> quiet s (setError s e).
Proof.
  intros I. destruct (setError_fields s e) as (H1 & H2 & H3 & H4 & H5).
  assert (equiv s (setError s e)) as Q.
  { apply frame_equiv; [apply frame_setError|]. intros a.
    rewrite (load_frame s (setError s e)) by (done || apply frame_setError).
    destruct (load s a); constructor. apply obj_equiv_refl. }
  split; auto. eapply Inv_equiv; eauto. rewrite H2.
  rewrite (fr_reader _ _ (frame_setError s e)). apply I.
Qed.

Lemma quiet_snap s sn sn' :
  Inv s -> snap s = Some sn -> written sn = true -> written sn' = true ->
  quiet s (set_snap (Some sn') s).
Proof.
  intros I Hs Hw Hw'. assert (equiv s (set_snap (Some sn') s)) as Q.
  { apply frame_equiv; [by eapply frame_snap|]. intros a.
    rewrite (load_frame s (set_snap _ s)) by done.
    destruct (load s a); constructor. apply obj_equiv_refl. }
  split; auto. eapply Inv_equiv; eauto. apply I.
Qed.

Lemma quiet_codeMap s m : Inv s -> quiet s (set_codeMap m s).
Proof.
  intros I. assert (equiv s (set_codeMap m s)) as Q.
  { apply frame_equiv; [by split|]. intros a.
    rewrite (load_frame s (set_codeMap _ s)) by done.
    destruct (load s a); constructor. apply obj_equiv_refl. }
  split; auto. eapply Inv_equiv; eauto. apply I.
Qed.

Lemma quiet_nilAccounts s a :
  Inv s -> ReadAccountData (stateReader s) a = (None, None) ->
  quiet s (set_nilAccounts ({[ a ]} ∪ nilAccounts s) s).
Proof.
  intros I Ha. assert (equiv s (set_nilAccounts ({[ a ]} ∪ nilAccounts s) s)) as Q.
  { apply frame_equiv; [by split|]. intros b.
    rewrite (load_frame s (set_nilAccounts _ s)) by done.
    destruct (load s b); constructor. apply obj_equiv_refl. }
  split; auto. eapply Inv_equiv; eauto. cbn. intros b Hb.
  apply elem_of_union in Hb as [Hb|Hb]; [apply elem_of_singleton in Hb; by subst|by apply I].
Qed.

(** ** Loading an object *)

Lemma setStateObject_no_pending s a o :
  pending s a = None -> setStateObject s a o = (set_stateObjects (<[a := o]> (stateObjects s)) s, o).
Proof. intros H. unfold setStateObject. by rewrite H. Qed.

(** Without pending increases [getStateObject] returns [load] and fills caches. *)
Lemma getStateObject_spec s a s' so :
  Inv s -> getStateObject s a = (s', so) ->
  quiet s s' /\ so = load s a /\ (forall o, so = Some o -> stateObjects s' !! a = Some o).
Proof.
  intros I. unfold getStateObject, load.
  destruct (stateObjects s !! a) as [o|] eqn:Eo.
  { intros [= <- <-]. split_and!; [by apply quiet_refl|done|congruence]. }
  case_decide as Hn.
  { rewrite (inv_pending _ I). intros [= <- <-].
    split_and!; [by apply quiet_refl| |done]. by rewrite (inv_nil _ I a Hn). }
  destruct (ReadAccountData (stateReader s) a) as [[acc|] [e|]] eqn:Er.
  - intros [= <- <-]. split_and!; [by apply quiet_setError|done|done].
  - set (s1 := match snap s with
               | Some sn => if CanWrite sn then set_snap (Some (AddAccount sn a acc)) s else s
               | None => s end).
    assert (quiet s s1 /\ load s1 a = Some (newObject a acc acc)) as [Q1 Hl1].
    { assert (load s a = Some (newObject a acc acc)) as Hl by (unfold load; by rewrite Eo, Er).
      subst s1. destruct (snap s) as [sn|] eqn:Es; [|by split; [apply quiet_refl|]].
      unfold CanWrite. destruct (written sn) eqn:Ew; [|by split; [apply quiet_refl|]].
      split; [|by rewrite (load_frame s)].
      apply (quiet_snap s sn); auto. by rewrite AddAccount_written. }
    rewrite setStateObject_no_pending by apply (q_inv _ _ Q1).
    intros [= <- <-]. split_and!; [|done|intros; cbn; by simplify_map_eq].
    eapply quiet_trans; [exact Q1|].
    apply (quiet_put s1 (newObject a acc acc) (newObject a acc acc)); [apply Q1|done|apply obj_equiv_refl].
  - intros [= <- <-]. split_and!; [by apply quiet_setError|done|done].
  - assert (pending (set_nilAccounts ({[a]} ∪ nilAccounts s) s) a = None) as Hp
      by apply (inv_pending _ I a).
    rewrite Hp. intros [= <- <-].
    split_and!; [by apply quiet_nilAccounts|done|done].
Qed.

(** ** Object reads *)

Lemma quiet_live s s' o :
  quiet s s' -> stateObjects s !! address o = Some o ->
  forall o', stateObjects s' !! address o = Some o' -> obj_equiv s o o'.
Proof.
  intros Q H o' H'. pose proof (eq_objects _ _ (q_equiv _ _ Q) (address o)) as Ho.
  unfold load in Ho. rewrite H, H' in Ho. by inv Ho.
Qed.

Lemma cache_origin_equiv s o k enc :
  fakeStorage o = None -> originStorage o !! k = None -> created o = false ->
  source s (address o) (Incarnation (data o)) k = (enc, None) ->
  obj_equiv s o (cache_origin k (decode_word enc) o).
Proof.
  intros Hf Ho Hc Hs.
  assert (forall k', committed s o k' = committed s (cache_origin k (decode_word enc) o) k') as Hk.
  { intros k'. unfold committed; cbn. rewrite Hf, Hc, lookup_insert.
    case_decide; [subst; by rewrite Ho, Hs|done]. }
  split; auto. intros k'. unfold stored. cbn. rewrite Hf, Hk. done.
Qed.

Lemma so_GetCommittedState_spec s o k s' v :
  Inv s -> stateObjects s !! address o = Some o -> so_GetCommittedState s o k = (s', v) ->
  quiet s s' /\ v = committed s o k /\ is_Some (stateObjects s' !! address o).
Proof.
  intros I Hl. unfold so_GetCommittedState, committed.
  assert (load s (address o) = Some o) as Hload by (unfold load; by rewrite Hl).
  destruct (fakeStorage o) as [f|] eqn:Ef.
  { intros [= <- <-]. eauto using quiet_refl. }
  destruct (originStorage o !! k) as [w|] eqn:Eo.
  { intros [= <- <-]. eauto using quiet_refl. }
  destruct (created o) eqn:Ec.
  { intros [= <- <-]. eauto using quiet_refl. }
  assert (forall s1 enc, quiet s s1 -> stateObjects s1 = stateObjects s ->
    source s (address o) (Incarnation (data o)) k = (enc, None) ->
    quiet s (put s1 (cache_origin k (decode_word enc) o)) /\
    is_Some (stateObjects (put s1 (cache_origin k (decode_word enc) o)) !! address o)) as Hput.
  { intros s1 enc Q1 Hs1 Hsrc. split; [|cbn; by rewrite lookup_insert_eq].
    eapply quiet_trans; [exact Q1|]. apply (quiet_put s1 o); [apply Q1| |].
    - unfold load. by rewrite Hs1, Hl.
    - apply (obj_equiv_source s s1);
        [apply (q_equiv _ _ Q1)|apply (q_equiv _ _ Q1)|by apply cache_origin_equiv]. }
  assert (forall e, quiet s (setError s e) /\ is_Some (stateObjects (setError s e) !! address o)) as Herr.
  { intros e. split; [by apply quiet_setError|].
    rewrite (proj1 (setError_fields s e)). eauto. }
  unfold source in *. unfold CanWrite in *.
  destruct (snap s) as [sn|] eqn:Es; [destruct (written sn) eqn:Ew; cbn [negb]|].
  - destruct (ReadAccountStorage _ _ _ k) as [enc [e|]] eqn:Er; intros [= <- <-].
    + destruct (Herr e). by destruct enc.
    + destruct (Hput (match enc with
                      | Some b => set_snap (Some (AddStorage sn (address o) k (Incarnation (data o)) b)) s
                      | None => s end) enc) as [??]; [|by destruct enc|done|by destruct enc].
      destruct enc; [|by apply quiet_refl]. apply (quiet_snap s sn); auto.
      by rewrite AddStorage_written.
  - destruct (Snapshot_ReadAccountStorage sn _ _ k) as [enc [e|]] eqn:Er; intros [= <- <-].
    + destruct (Herr e). by destruct enc.
    + destruct (Hput s enc) as [??]; [by apply quiet_refl|done|done|by destruct enc].
  - destruct (ReadAccountStorage _ _ _ k) as [enc [e|]] eqn:Er; intros [= <- <-].
    + destruct (Herr e). by destruct enc.
    + destruct (Hput s enc) as [??]; [by apply quiet_refl|done|done|by destruct enc].
Qed.

Lemma so_GetState_spec s o k s' v :
  Inv s -> stateObjects s !! address o = Some o -> so_GetState s o k = (s', v) ->
  quiet s s' /\ v = stored s o k /\ is_Some (stateObjects s' !! address o).
Proof.
  intros I Hl. unfold so_GetState, stored.
  destruct (fakeStorage o) as [f|] eqn:Ef.
  { intros [= <- <-]. eauto using quiet_refl. }
  destruct (dirtyStorage o !! k) as [w|] eqn:Ed.
  { intros [= <- <-]. eauto using quiet_refl. }
  by apply so_GetCommittedState_spec.
Qed.

Lemma so_Code_spec s o s' c :
  Inv s -> stateObjects s !! address o = Some o -> so_Code s o = (s', c) ->
  quiet s s' /\ c = codeOf s o /\ is_Some (stateObjects s' !! address o).
Proof.
  intros I Hl. unfold so_Code, codeOf.
  destruct (code o) as [b|] eqn:Eb.
  { intros [= <- <-]. eauto using quiet_refl. }
  destruct (CodeHash (data o) =? emptyCodeHash) eqn:Eh.
  { intros [= <- <-]. eauto using quiet_refl. }
  destruct (ReadAccountCode _ _ _ _) as [b err] eqn:Er. intros [= <- <-].
  set (s1 := match err with Some e => setError s e | None => s end).
  assert (quiet s s1 /\ stateObjects s1 = stateObjects s) as [Q1 Hs1].
  { subst s1. destruct err; [|by auto using quiet_refl].
    split; [by apply quiet_setError|apply setError_fields]. }
  split_and!; [|done|cbn; by rewrite lookup_insert_eq].
  eapply quiet_trans; [exact Q1|]. apply (quiet_put s1 o); [apply Q1| |].
  - unfold load. by rewrite Hs1, Hl.
  - split; auto. unfold codeOf; cbn. rewrite Eb, Eh.
    rewrite <- (eq_reader _ _ (q_equiv _ _ Q1)), Er. by destruct b.
Qed.

(** ** Reverting equivalent states *)

Definition nil_ok s : Prop :=
  forall a, a ∈ nilAccounts s -> ReadAccountData (stateReader s) a = (None, None).

(** [t] differs from [s] in what reverting changes, not in the bookkeeping. *)
Definition same_book s t : Prop :=
  jrnl t = jrnl s /\ validRevisions t = validRevisions s /\ nextRevisionID t = nextRevisionID s.

Lemma quiet_book s t : quiet s t -> same_book s t.
Proof. intros []. done. Qed.

Lemma obj_equiv_put s o o1 o2 : obj_equiv s o1 o2 -> obj_equiv (put s o) o1 o2.
Proof. apply obj_equiv_source; done. Qed.

Lemma put_equiv s t o1 o2 : equiv s t -> obj_equiv s o1 o2 -> equiv (put s o1) (put t o2).
Proof.
  intros [] Ho. split; auto. intros a. rewrite !load_put.
  rewrite <- (oe_address _ _ _ Ho). case_decide.
  - constructor. by apply obj_equiv_put.
  - eapply option_Forall2_mono; [|apply eq_objects0]. intros; by apply obj_equiv_put.
Qed.

(** An update of objects that respects equivalence. *)
Definition respects s (f : stateObject -> option stateObject) : Prop :=
  forall o1 o2 o1', obj_equiv s o1 o2 -> f o1 = Some o1' ->
  exists o2', f o2 = Some o2' /\ obj_equiv s o1' o2'.

Definition on_object s a (f : stateObject -> option stateObject) : option IntraBlockState :=
  let '(s, so) := getStateObject s a in o ← so; o' ← f o; Some (put s o').

Lemma on_object_equiv s t a f s' :
  Inv s -> Inv t -> equiv s t -> respects s f -> on_object s a f = Some s' ->
  exists t', on_object t a f = Some t' /\ equiv s' t' /\ same_book t t' /\ nil_ok t'.
Proof.
  intros Is It Q Hf. unfold on_object.
  destruct (getStateObject s a) as [s1 so] eqn:Es. destruct (getStateObject t a) as [t1 to] eqn:Et.
  destruct (getStateObject_spec _ _ _ _ Is Es) as (Qs & -> & _).
  destruct (getStateObject_spec _ _ _ _ It Et) as (Qt & -> & _).
  pose proof (eq_objects _ _ Q a) as Ho.
  destruct (load s a) as [o1|]; [|done]. inv Ho. cbn.
  destruct (f o1) as [o1'|] eqn:Ef; [|done]. cbn. intros [= <-].
  destruct (Hf _ _ _ ltac:(eassumption) Ef) as (o2' & -> & Ho'). cbn.
  eexists; split; [done|]. split_and!.
  - apply put_equiv.
    + transitivity s; [symmetry; apply Qs|]. transitivity t; [done|apply Qt].
    + eapply (obj_equiv_source s s1); eauto; apply (q_equiv _ _ Qs).
  - destruct (quiet_book _ _ Qt) as (?&?&?). done.
  - exact (inv_nil _ (q_inv _ _ Qt)).
Qed.

Lemma respects_data s (g : StateAccount -> StateAccount) :
  (forall d, Incarnation (g d) = Incarnation d) -> (forall d, CodeHash (g d) = CodeHash d) ->
  respects s (fun o => Some (with_data g o)).
Proof.
  intros Hi Hc o1 o2 o1' Ho [= <-]. eexists; split; [done|]. destruct Ho.
  assert (forall o k, committed s (with_data g o) k = committed s o k) as Hcm
    by (intros; unfold committed; cbn; by rewrite Hi).
  assert (forall o k, stored s (with_data g o) k = stored s o k) as Hst
    by (intros; unfold stored; cbn; by rewrite Hcm).
  assert (forall o, codeOf s (with_data g o) = codeOf s o) as Hco
    by (intros; unfold codeOf; cbn; by rewrite Hi, Hc).
  split; cbn; auto; try congruence; intros; by rewrite ?Hcm, ?Hst, ?Hco.
Qed.

Lemma respects_setState s k v : respects s (fun o => Some (so_setState k v o)).
Proof.
  intros o1 o2 o1' Ho [= <-]. eexists; split; [done|]. destruct Ho. split; cbn; auto.
  intros k'. specialize (oe_stored0 k'). specialize (oe_committed0 k').
  unfold stored in *; cbn. destruct (fakeStorage o1) eqn:E1, (fakeStorage o2) eqn:E2; auto.
  - by destruct oe_fake0 as [[? ?] _].
  - by destruct oe_fake0 as [_ [? ?]].
  - rewrite !lookup_insert. case_decide; done.
Qed.

Lemma respects_fake s k v :
  respects s (fun o => f ← fakeStorage o; Some (with_fakeStorage (Some (<[k := v]> f)) o)).
Proof.
  intros o1 o2 o1' Ho. destruct (fakeStorage o1) as [f1|] eqn:E1; cbn; [|done].
  intros [= <-]. destruct Ho. rewrite E1 in oe_fake0.
  destruct (fakeStorage o2) as [f2|] eqn:E2; [|by destruct oe_fake0 as [[? ?] _]].
  assert (forall k', default uzero (f1 !! k') = default uzero (f2 !! k')) as Hf.
  { intros k'. specialize (oe_stored0 k'). unfold stored in oe_stored0. by rewrite E1, E2 in oe_stored0. }
  assert (forall k', default uzero (<[k := v]> f1 !! k') = default uzero (<[k := v]> f2 !! k')) as Hf'.
  { intros k'. rewrite !lookup_insert. case_decide; done. }
  eexists; split; [done|]. split; cbn; auto. by split.
Qed.

Lemma respects_setCode s h c : respects s (fun o => Some (so_setCode h c o)).
Proof.
  intros o1 o2 o1' Ho [= <-]. eexists; split; [done|]. destruct Ho.
  assert (forall o k, committed s (so_setCode h c o) k = committed s o k) as Hcm by done.
  assert (forall o k, stored s (so_setCode h c o) k = stored s o k) as Hst by done.
  split; cbn; auto; try congruence; try (intros; by rewrite ?Hcm, ?Hst).
  unfold codeOf; cbn. by rewrite oe_data0, oe_address0.
Qed.

Lemma respects_selfdestructed s b bal :
  respects s (fun o => Some (so_setBalance bal (with_selfdestructed b o))).
Proof.
  intros o1 o2 o1' Ho [= <-].
  assert (obj_equiv s (with_selfdestructed b o1) (with_selfdestructed b o2)) as Ho'
    by (destruct Ho; split; auto).
  unfold so_setBalance. eapply respects_data; eauto.
Qed.

Lemma load_delete s a b :
  load (set_stateObjectsDirty (stateObjectsDirty s ∖ {[ a ]})
          (set_stateObjects (delete a (stateObjects s)) s)) b =
  if decide (a = b) then
    match ReadAccountData (stateReader s) b with
    | (Some acc, None) => Some (newObject b acc acc)
    | _ => None
    end
  else load s b.
Proof. unfold load; cbn. rewrite lookup_delete. by case_decide. Qed.

Lemma objects_source s s' x y :
  stateReader s' = stateReader s -> (forall a i k, source s' a i k = source s a i k) ->
  option_Forall2 (obj_equiv s) x y -> option_Forall2 (obj_equiv s') x y.
Proof. intros Hr Hs. apply option_Forall2_mono. intros o1 o2. apply obj_equiv_source; auto. Qed.

End Observation.

(** Equivalence after updates that leave the objects alone. *)
Ltac solve_equiv Q :=
  destruct Q; split; cbn; auto; try congruence;
  try (let b := fresh "b" in
       intros b; match goal with
       | H : forall a, option_Forall2 (obj_equiv ?s) _ _ |- option_Forall2 _ _ _ =>
           apply (objects_source s); [done|done|apply H]
       end).

Section Rewinding.
Context `{U : Uint256} `{E : @StateEnv U}.
Implicit Types s t : IntraBlockState.
Implicit Types o : stateObject.

(** Undoing the last log of [txhash] only depends on what [GetLogs] returns. *)
Lemma revert_log_equiv s t h s' :
  equiv s t -> revert_entry s (addLogChange h) = Some s' ->
  exists t', revert_entry t (addLogChange h) = Some t' /\ equiv s' t' /\ same_book t t' /\
    nilAccounts t' = nilAccounts t /\ stateReader t' = stateReader t.
Proof.
  intros Q. cbn. pose proof (eq_logs _ _ Q) as Hl. unfold GetLogs in Hl. rewrite <- (Hl h).
  destruct (from_nil (logs s !! h)) as [|x [|y l]] eqn:El; [done| |]; intros [= <-];
    (eexists; split; [done|]); split_and!; try done; solve_equiv Q;
    intros h'; unfold GetLogs; cbn.
  - rewrite !lookup_delete. case_decide; [done|apply Hl].
  - rewrite !lookup_insert. case_decide; [done|apply Hl].
Qed.

(** Reverting an entry on equivalent states gives equivalent states. *)
Lemma revert_entry_equiv s t e s' :
  Inv s -> Inv t -> equiv s t -> revert_entry s e = Some s' ->
  exists t', revert_entry t e = Some t' /\ equiv s' t' /\ same_book t t' /\ nil_ok t'.
Proof.
  intros Is It Q. assert (nil_ok t) as Hn by exact (inv_nil _ It).
  destruct e as [a|a prev|a b bal|a bal|a inc|p|a n|a k v|a k v|a c h|r|h|a|a|a k].
  - intros [= <-]. eexists; split; [done|]. split_and!; try done.
    solve_equiv Q. intros b. rewrite !load_delete, <- eq_reader0.
    case_decide; [|by apply (objects_source s)].
    destruct (ReadAccountData _ b) as [[acc|] [?|]]; constructor. apply obj_equiv_refl.
  - cbn. rewrite !setStateObject_no_pending by (by apply inv_pending). cbn. intros [= <-].
    eexists; split; [done|]. split_and!; try done. solve_equiv Q.
    intros b. unfold load; cbn. rewrite !lookup_insert.
    case_decide; [constructor; apply obj_equiv_refl|].
    apply (objects_source s); [done|done|apply eq_objects0].
  - intros Hs. destruct (load s a) eqn:El.
    + destruct (on_object_equiv s t a _ s' Is It Q (respects_selfdestructed s b bal))
        as (t' & Ht & ?).
      { revert Hs. cbn. unfold on_object. destruct (getStateObject s a) as [s1 so] eqn:Es.
        destruct (getStateObject_spec _ _ _ _ Is Es) as (_ & -> & _). by rewrite El. }
      exists t'. split; [|done]. revert Ht. cbn. unfold on_object.
      destruct (getStateObject t a) as [t1 to]. by destruct to.
    + revert Hs. cbn. destruct (getStateObject s a) as [s1 so] eqn:Es.
      destruct (getStateObject t a) as [t1 to] eqn:Et.
      destruct (getStateObject_spec _ _ _ _ Is Es) as (Qs & -> & _).
      destruct (getStateObject_spec _ _ _ _ It Et) as (Qt & -> & _).
      pose proof (eq_objects _ _ Q a) as Ho. rewrite El in *. inv Ho. intros [= <-].
      eexists; split; [done|]. split_and!; [|by apply quiet_book|exact (inv_nil _ (q_inv _ _ Qt))].
      transitivity s; [symmetry; apply Qs|]. transitivity t; [done|apply Qt].
  - apply on_object_equiv; auto. apply respects_data; done.
  - cbn. rewrite <- (eq_balanceInc _ _ Q), <- (eq_biHeap _ _ Q).
    destruct (balanceInc s !! a) as [p|]; cbn.
    2: { intros [= <-]. eexists; split; [done|]. done. }
    destruct (biHeap s !! p) as [bi|]; cbn; [|done]. intros [= <-].
    eexists; split; [done|].
    split_and!; case_match; try done; solve_equiv Q.
  - intros [= <-]. eexists; split; [done|]. split_and!; try done. solve_equiv Q.
  - apply on_object_equiv; auto. apply respects_data; done.
  - apply on_object_equiv; auto. apply respects_setState.
  - apply on_object_equiv; auto. apply respects_fake.
  - apply on_object_equiv; auto. apply respects_setCode.
  - intros [= <-]. eexists; split; [done|]. split_and!; try done. solve_equiv Q.
  - intros Hs. destruct (revert_log_equiv _ _ _ _ Q Hs) as (t' & Ht & Q' & Hb & Hnil & Hr).
    exists t'. split_and!; auto. unfold nil_ok. by rewrite Hnil, Hr.
  - intros [= <-]. eexists; split; [done|]. done.
  - intros [= <-]. eexists; split; [done|]. split_and!; try done.
    solve_equiv Q.
  - cbn. rewrite <- (eq_accList _ _ Q).
    destruct (AccessList.DeleteSlot (accList s) a k); cbn; [|done]. intros [= <-].
    eexists; split; [done|]. split_and!; try done. solve_equiv Q.
Qed.

(** ** Rewinding a list of entries *)

(** [rewinds k s s0]: reverting the entries [k], newest first, takes [s] to a
    state equivalent to [s0], and every state on the way satisfies [Inv]. *)
Fixpoint rewinds (k : list journalEntry) s (s0 : IntraBlockState) : Prop :=
  Inv s /\
  match k with
  | [] => equiv s s0
  | e :: k' => exists s', revert_entry s e = Some s' /\ rewinds k' s' s0
  end.

Lemma rewinds_Inv k s s0 : rewinds k s s0 -> Inv s.
Proof. by destruct k as [|??]; intros [? _]. Qed.

Lemma rewinds_equiv k s t s0 : rewinds k s s0 -> equiv s t -> Inv t -> rewinds k t s0.
Proof.
  revert s t. induction k as [|e k IH]; intros s t [Is Hk] Q It; split; auto.
  - transitivity s; [by symmetry|done].
  - destruct Hk as (s' & Hs & Hk).
    destruct (revert_entry_equiv s t e s' Is It Q Hs) as (t' & Ht & Q' & _ & Hn).
    exists t'. split; [done|]. apply (IH s'); auto.
    apply (Inv_equiv s'); auto. by eapply rewinds_Inv.
Qed.

Lemma rewinds_app k1 k2 s t s0 : rewinds k1 s t -> rewinds k2 t s0 -> rewinds (k1 ++ k2) s s0.
Proof.
  revert s. induction k1 as [|e k1 IH]; intros s [Is Hk] Ht; cbn.
  - eapply rewinds_equiv; eauto. by symmetry.
  - destruct Hk as (s' & Hs & Hk). split; eauto.
Qed.

Lemma rewinds_quiet s t : quiet s t -> rewinds [] t s.
Proof. intros Q. split; [apply Q|]. symmetry. apply Q. Qed.

Lemma rewinds_one e s t t' :
  Inv t -> revert_entry t e = Some t' -> equiv t' s -> Inv t' -> rewinds [e] t s.
Proof. intros. split; [done|]. eexists; split; [done|]. by split. Qed.

(** ** Dirty tracking *)

(** How often [a] is dirtied by the entries [l]. *)
Definition dirty_count (l : list journalEntry) (a : Address) : Z :=
  Z.of_nat (length (filter (fun e => dirtied e = Some a) l)).

(** [d] counts, for every address but the RIPEMD precompile, the entries of [l]
    that dirtied it, and holds no zero counts. *)
Definition dirties_for (l : list journalEntry) (d : gmap Address Z) : Prop :=
  forall a, a <> ripemd ->
  d !! a = if dirty_count l a =? 0 then None else Some (dirty_count l a).

Lemma dirty_count_nonneg l a : 0 <= dirty_count l a.
Proof. unfold dirty_count. lia. Qed.

Lemma dirty_count_snoc l e a :
  dirty_count (l ++ [e]) a = dirty_count l a + (if decide (dirtied e = Some a) then 1 else 0).
Proof.
  unfold dirty_count. rewrite filter_app, length_app. cbn.
  case_decide; cbn; lia.
Qed.

Lemma dirties_for_append j e :
  dirties_for (entries j) (dirties j) ->
  dirties_for (entries (journal_append j e)) (dirties (journal_append j e)).
Proof.
  intros H a Ha. specialize (H a Ha). pose proof (dirty_count_nonneg (entries j) a).
  unfold journal_append. destruct (dirtied e) as [b|] eqn:Ed; cbn; rewrite dirty_count_snoc, Ed.
  - rewrite lookup_insert. destruct (decide (b = a)) as [->|Hb].
    + rewrite decide_True by done. rewrite H.
      destruct (Z.eqb_spec (dirty_count (entries j) a) 0) as [->|]; cbn; [done|].
      destruct (Z.eqb_spec (dirty_count (entries j) a + 1) 0); [lia|done].
    + rewrite decide_False by congruence. by rewrite Z.add_0_r.
  - rewrite decide_False by congruence. by rewrite Z.add_0_r.
Qed.

Lemma dirties_for_undirty l e j :
  dirties_for (l ++ [e]) (dirties j) -> dirties_for l (dirties (journal_undirty j e)).
Proof.
  intros H a Ha. specialize (H a Ha). rewrite dirty_count_snoc in H.
  pose proof (dirty_count_nonneg l a). unfold journal_undirty.
  destruct (dirtied e) as [b|] eqn:Ed; cbn.
  - destruct (decide (b = a)) as [->|Hb].
    + rewrite decide_True in H by done.
      destruct (Z.eqb_spec (dirty_count l a + 1) 0); [lia|]. rewrite H. cbn.
      replace (dirty_count l a + 1 - 1) with (dirty_count l a) by lia.
      destruct (dirty_count l a =? 0); by simplify_map_eq.
    + rewrite decide_False, Z.add_0_r in H by congruence.
      rewrite <- H. destruct (_ - 1 =? 0); [by rewrite lookup_delete_ne|by rewrite lookup_insert_ne].
  - rewrite decide_False, Z.add_0_r in H by congruence. done.
Qed.

Lemma dirties_for_ripemd l j :
  dirties_for l (dirties j) -> dirties_for l (dirties (journal_dirty j ripemd)).
Proof. intros H a Ha. cbn. rewrite lookup_insert_ne by done. by apply H. Qed.

Definition dirties_ok s : Prop := dirties_for (entries (jrnl s)) (dirties (jrnl s)).

(** ** Journalled steps *)

(** [s1] is [s] after a step that appended the entries [es], which rewind it. *)
Record journalled s s1 (es : list journalEntry) : Prop := {
  jd_entries : entries (jrnl s1) = entries (jrnl s) ++ es;
  jd_rewinds : rewinds (reverse es) s1 s;
  jd_dirties : dirties_ok s -> dirties_ok s1;
  jd_revs : validRevisions s1 = validRevisions s;
  jd_next : nextRevisionID s1 = nextRevisionID s
}.

Lemma journalled_Inv s s1 es : journalled s s1 es -> Inv s1.
Proof. intros []. by eapply rewinds_Inv. Qed.

Lemma journalled_trans s s1 s2 es1 es2 :
  journalled s s1 es1 -> journalled s1 s2 es2 -> journalled s s2 (es1 ++ es2).
Proof.
  intros [] []. split; try congruence.
  - rewrite jd_entries1, jd_entries0. by rewrite app_assoc.
  - rewrite reverse_app. by eapply rewinds_app.
  - auto.
Qed.

Lemma journalled_quiet s s1 : quiet s s1 -> journalled s s1 [].
Proof.
  intros Q. split; [|by apply rewinds_quiet| |apply Q|apply Q].
  - by rewrite (q_jrnl _ _ Q), app_nil_r.
  - unfold dirties_ok. by rewrite (q_jrnl _ _ Q).
Qed.

Lemma append_entries s e : entries (jrnl (append s e)) = entries (jrnl s) ++ [e].
Proof. unfold append, journal_append; cbn. by destruct (dirtied e). Qed.

Lemma append_dirties s e : dirties_ok s -> dirties_ok (append s e).
Proof. apply dirties_for_append. Qed.

Lemma Inv_put s o : Inv s -> Initialised (data o) = true -> Inv (put s o).
Proof.
  intros I Hi. destruct I as [H1 H2 H3 H4 H5]. split; auto.
  intros a x. cbn. rewrite lookup_insert. case_decide; [intros [= <-]; done|apply H1].
Qed.

Lemma Inv_append s e : Inv s -> Inv (append s e).
Proof. intros [H1 H2 H3 H4 H5]. split; auto. Qed.

Lemma equiv_append s e : equiv (append s e) s.
Proof. assert (equiv s s) as Q by done. solve_equiv Q. Qed.

(** Undo by [on_object]: the entry restores the object it was made for. *)
Lemma journalled_put s o o' e f o'' :
  Inv s -> stateObjects s !! address o = Some o ->
  address o' = address o -> Initialised (data o') = true -> Initialised (data o'') = true ->
  revert_entry (put (append s e) o') e = on_object (put (append s e) o') (address o) f ->
  f o' = Some o'' -> obj_equiv s o'' o ->
  journalled s (put (append s e) o') [e].
Proof.
  intros I Hl Ha Hi Hi' He Hf Ho.
  assert (Inv (put (append s e) o')) as I1 by auto using Inv_put, Inv_append.
  split; [by rewrite <- append_entries| |apply (append_dirties s)|done|done].
  apply (rewinds_one _ _ _ (put (put (append s e) o') o'')); auto using Inv_put.
  - rewrite He. unfold on_object, getStateObject; cbn.
    rewrite <- Ha, lookup_insert_eq. cbn. by rewrite Hf.
  - assert (equiv s s) as Q by done. solve_equiv Q. intros a. rewrite !load_put, Ha.
    rewrite (oe_address _ _ _ Ho). case_decide as Hd.
    + subst a. unfold load. rewrite Hl. constructor. by apply (obj_equiv_source s).
    + apply (objects_source s); [done|done|apply eq_objects0].
Qed.

(** Installing a new object over [load s a]: the entry brings the old one back. *)
Definition install_entry (a : Address) (previous : option stateObject) : journalEntry :=
  match previous with None => createObjectChange a | Some p => resetObjectChange a p end.

Lemma journalled_install s a o' :
  Inv s -> address o' = a -> Initialised (data o') = true ->
  journalled s (put (append s (install_entry a (load s a))) o') [install_entry a (load s a)].
Proof.
  intros I Ha Hi. set (e := install_entry a (load s a)).
  assert (Inv (put (append s e) o')) as I1 by auto using Inv_put, Inv_append.
  split; [by rewrite <- append_entries| |apply (append_dirties s)|done|done].
  assert (forall b, option_Forall2 (obj_equiv s) (load s b) (load s b)) as Hrefl.
  { intros b. destruct (load s b); constructor. apply obj_equiv_refl. }
  assert (equiv s s) as Q by done.
  subst e. destruct (load s a) as [p|] eqn:El; cbn [install_entry] in *.
  - destruct (load_live _ _ _ I El) as [Hpa Hpi].
    eapply rewinds_one; [done|..].
    + cbn. rewrite setStateObject_no_pending by (apply (inv_pending _ I1)). done.
    + solve_equiv Q. intros b. unfold load; cbn. rewrite !lookup_insert.
      case_decide as Hb; [subst b; fold (load s a); rewrite El; constructor; apply obj_equiv_refl|].
      rewrite Ha, decide_False by done. apply (objects_source s); [done|done|apply Hrefl].
    + rewrite <- Hpa at 1. apply (Inv_put _ p I1). done.
  - eapply rewinds_one; [done|done|..].
    + solve_equiv Q. intros b. unfold load; cbn. rewrite lookup_delete. case_decide as Hb.
      * subst b. fold (load s a). rewrite El. unfold load in El.
        destruct (stateObjects s !! a); [done|].
        destruct (ReadAccountData _ a) as [[?|] [?|]]; by try constructor.
      * rewrite lookup_insert, Ha, decide_False by done.
        apply (objects_source s); [done|done|apply Hrefl].
    + destruct I1 as [H1 H2 H3 H4 H5]. split; auto. intros b x. cbn.
      rewrite lookup_delete_Some. intros [_ ?]. by apply H1.
Qed.

Lemma createObject_eq s a previous :
  Inv s ->
  createObject s a previous =
  let o := so_setNonce 0 (newObject a zeroAccount
             (match previous with None => zeroAccount | Some p => original p end)) in
  (put (append s (install_entry a previous)) o, o).
Proof.
  intros I. unfold createObject. rewrite setStateObject_no_pending by apply (inv_pending _ I).
  by destruct previous.
Qed.

Lemma setNonce_newObject_live a d g :
  address (so_setNonce 0 (newObject a d g)) = a /\
  Initialised (data (so_setNonce 0 (newObject a d g))) = true.
Proof. exact (newObject_live a d g). Qed.

Lemma load_quiet s s1 a : quiet s s1 -> option_Forall2 (obj_equiv s) (load s a) (load s1 a).
Proof. intros Q. apply (q_equiv _ _ Q). Qed.

(** [getStateObject] again after a quiet step finds what is there. *)
Lemma load_self s a o : stateObjects s !! a = Some o -> load s a = Some o.
Proof. intros H. unfold load. by rewrite H. Qed.

Lemma getStateObject_load s a s1 so :
  Inv s -> getStateObject s a = (s1, so) -> load s1 a = so.
Proof.
  intros I H. destruct (getStateObject_spec _ _ _ _ I H) as (Q & Hso & Hl).
  destruct so as [o|]; [by apply load_self, Hl|].
  pose proof (load_quiet _ _ a Q) as Ho. rewrite <- Hso in Ho. by inv Ho.
Qed.

Lemma GetOrNewStateObject_spec s a s1 o :
  Inv s -> GetOrNewStateObject s a = (s1, o) ->
  exists es, journalled s s1 es /\ stateObjects s1 !! address o = Some o /\ address o = a /\
    deleted o = false.
Proof.
  intros I. unfold GetOrNewStateObject. destruct (getStateObject s a) as [s0 so] eqn:Es.
  destruct (getStateObject_spec _ _ _ _ I Es) as (Q & Hso & Hl).
  pose proof (getStateObject_load _ _ _ _ I Es) as Hl0.
  pose proof (q_inv _ _ Q) as I0.
  assert (forall s1 o1, createObject s0 a so = (s1, o1) ->
    exists es, journalled s s1 es /\ stateObjects s1 !! address o1 = Some o1 /\ address o1 = a /\
    deleted o1 = false) as Hcreate.
  { intros s2 o2. rewrite createObject_eq by done. cbv zeta. intros [= <- <-].
    exists ([] ++ [install_entry a so]). split_and!; [|cbn; by simplify_map_eq|done|done].
    eapply journalled_trans; [by apply journalled_quiet|].
    rewrite <- Hl0. apply journalled_install; [done|done|apply setNonce_newObject_live]. }
  destruct so as [o0|]; [destruct (deleted o0) eqn:Ed|]; auto.
  intros [= <- <-]. exists []. destruct (load_live _ _ _ I (eq_sym Hso)) as [Ha _].
  split_and!; auto; [by apply journalled_quiet|]. rewrite Ha. by apply Hl.
Qed.

End Rewinding.
