(* ===== verification/StateJournal.v ===== *)
(** * StateJournal: every operation of the state is journalled

    Each writer of [StateModel] appends entries that rewind its effect.  The
    operations a transaction performs are collected in [op]; a run of them,
    with nested snapshots and reverts, is undone by [RevertToSnapshot]. *)

From S2P Require Import Prelude Uint256 AccessList StateModel StateRevert.

Section Writers.
Context `{U : Uint256} `{E : @StateEnv U}.
Implicit Types s t : IntraBlockState.
Implicit Types o : stateObject.

Notation "s ⟶ s1" := (exists es, journalled s s1 es) (at level 70).

Lemma step_trans s s1 s2 : s ⟶ s1 -> (Inv s1 -> s1 ⟶ s2) -> s ⟶ s2.
Proof.
  intros [es1 H1] H2. destruct (H2 (journalled_Inv _ _ _ H1)) as [es2 ?].
  eauto using journalled_trans.
Qed.

Lemma step_quiet s s1 : quiet s s1 -> s ⟶ s1.
Proof. eauto using journalled_quiet. Qed.

Lemma step_refl s : Inv s -> s ⟶ s.
Proof. eauto using step_quiet, quiet_refl. Qed.

Lemma account_eta (d : StateAccount) b :
  Initialised d = true -> set_Initialised true (set_Balance (Balance d) (set_Initialised true (set_Balance b d))) = d.
Proof. by destruct d; cbn; intros ->. Qed.

Lemma so_SetBalance_step s o v :
  Inv s -> stateObjects s !! address o = Some o -> s ⟶ so_SetBalance s o v.
Proof.
  intros I Hl. eexists. destruct (inv_live _ I _ _ Hl) as [_ Hi].
  eapply (journalled_put s o _ _ _ o); [done|done|done|done|done|reflexivity| |apply obj_equiv_refl].
  cbn. f_equal. unfold so_setBalance, with_data; cbn. rewrite account_eta by done. by destruct o.
Qed.

Lemma so_SetNonce_step s o n :
  Inv s -> stateObjects s !! address o = Some o -> s ⟶ so_SetNonce s o n.
Proof.
  intros I Hl. eexists. destruct (inv_live _ I _ _ Hl) as [_ Hi].
  eapply (journalled_put s o _ _ _ o); [done|done|done|done|done|reflexivity| |apply obj_equiv_refl].
  destruct o as [? [] ? ? ? ? ? ? ? ? ? ?]. done.
Qed.

Lemma touch_step s o : Inv s -> s ⟶ touch s o.
Proof.
  intros I. exists [touchChange (address o)].
  assert (Inv (touch s o)) as I1.
  { unfold touch. case_match; [|by apply Inv_append].
    destruct (Inv_append s (touchChange (address o)) I) as [H1 H2 H3 H4 H5]. by split. }
  assert (equiv (touch s o) s) as Q1.
  { assert (equiv s s) as Q by done. unfold touch. case_match; solve_equiv Q. }
  split.
  - unfold touch. by case_match.
  - by eapply rewinds_one.
  - intros Hd. apply (append_dirties _ (touchChange (address o))) in Hd.
    unfold touch. case_match; [|done]. zbool. rewrite H in *. exact (dirties_for_ripemd _ _ Hd).
  - unfold touch. by case_match.
  - unfold touch. by case_match.
Qed.

Lemma so_AddBalance_step s o v :
  Inv s -> stateObjects s !! address o = Some o -> s ⟶ so_AddBalance s o v.
Proof.
  intros I Hl. unfold so_AddBalance. destruct (uIsZero v); [|by apply so_SetBalance_step].
  destruct (empty o); [by apply touch_step|by apply step_refl].
Qed.

Lemma so_SubBalance_step s o v :
  Inv s -> stateObjects s !! address o = Some o -> s ⟶ so_SubBalance s o v.
Proof.
  intros I Hl. unfold so_SubBalance. destruct (uIsZero v); [by apply step_refl|by apply so_SetBalance_step].
Qed.

Lemma stored_fake_none s o k :
  fakeStorage o = None -> stored s o k = match dirtyStorage o !! k with Some v => v | None => committed s o k end.
Proof. intros H. unfold stored. by rewrite H. Qed.

(** Writing [stored] back over a write restores the object. *)
Lemma setState_undo s o k v :
  fakeStorage o = None -> obj_equiv s (so_setState k (stored s o k) (so_setState k v o)) o.
Proof.
  intros Hf. split; auto. intros k'. rewrite !stored_fake_none by done. cbn.
  rewrite lookup_insert. case_decide; [by subst|by rewrite lookup_insert_ne].
Qed.

Lemma fake_undo s o f k v :
  fakeStorage o = Some f ->
  obj_equiv s (with_fakeStorage (Some (<[k := default uzero (f !! k)]> (<[k := v]> f))) o) o.
Proof.
  intros Hf.
  assert (forall k', default uzero (<[k := default uzero (f !! k)]> (<[k := v]> f) !! k')
                     = default uzero (f !! k')) as Hk.
  { intros k'. rewrite insert_insert_eq, lookup_insert. by case_decide; subst. }
  split; cbn; rewrite ?Hf; auto; [done|..]; intros k'; unfold committed, stored; cbn; by rewrite ?Hf.
Qed.

Lemma so_SetState_step s o k v :
  Inv s -> stateObjects s !! address o = Some o -> s ⟶ so_SetState s o k v.
Proof.
  intros I Hl. destruct (inv_live _ I _ _ Hl) as [_ Hi]. unfold so_SetState.
  destruct (fakeStorage o) as [f|] eqn:Ef.
  { eexists. eapply (journalled_put s o); [done|done|done|done| |reflexivity|done|exact (fake_undo s o f k v Ef)].
    done. }
  destruct (so_GetState s o k) as [s1 prev] eqn:Eg.
  destruct (so_GetState_spec _ _ _ _ _ I Hl Eg) as (Q & -> & [o1 Ho1]).
  pose proof (quiet_live _ _ _ Q Hl _ Ho1) as He.
  case_bool_decide; [by apply step_quiet|].
  eapply step_trans; [by apply step_quiet|]. intros I1.
  unfold live. cbn. rewrite Ho1. cbn.
  assert (fakeStorage o1 = None) as Ef1.
  { destruct (fakeStorage o1) eqn:E1; [|done]. destruct (oe_fake _ _ _ He) as [_ Hx].
    rewrite E1, Ef in Hx. by destruct Hx. }
  rewrite (oe_stored _ _ _ He), (oe_address _ _ _ He) in *.
  rewrite (stored_source s s1) by apply (q_equiv _ _ Q).
  destruct (inv_live _ I1 _ _ Ho1) as [_ Hi1].
  eexists. eapply (journalled_put s1 o1); [done|done|done|done| |reflexivity|done|by apply setState_undo].
  done.
Qed.

Lemma so_SetCode_step s o h c :
  Inv s -> stateObjects s !! address o = Some o -> s ⟶ so_SetCode s o h c.
Proof.
  intros I Hl. unfold so_SetCode. destruct (so_Code s o) as [s1 prev] eqn:Ec.
  destruct (so_Code_spec _ _ _ _ I Hl Ec) as (Q & -> & [o1 Ho1]).
  pose proof (quiet_live _ _ _ Q Hl _ Ho1) as He.
  eapply step_trans; [by apply step_quiet|]. intros I1.
  unfold live. cbn. rewrite Ho1. cbn.
  rewrite (oe_code _ _ _ He), (oe_address _ _ _ He), (oe_data _ _ _ He) in *.
  rewrite (codeOf_reader s s1) by apply (q_equiv _ _ Q).
  destruct (inv_live _ I1 _ _ Ho1) as [_ Hi1].
  eexists. eapply (journalled_put s1 o1); [done|done|done|done| |reflexivity|done|]; [done|].
  split; auto.
  - by destruct o1 as [? [] ? ? ? ? ? ? ? ? ? ?].
  - unfold codeOf. cbn. destruct (code o1) eqn:E1; [done|].
    destruct (CodeHash (data o1) =? emptyCodeHash); [done|].
    by destruct (ReadAccountCode _ _ _ _).1.
Qed.

(** ** The methods of [IntraBlockState] *)

Lemma via_object s a (m : IntraBlockState -> stateObject -> IntraBlockState) :
  Inv s ->
  (forall t o, Inv t -> stateObjects t !! address o = Some o -> t ⟶ m t o) ->
  s ⟶ (let '(s, o) := GetOrNewStateObject s a in m s o).
Proof.
  intros I Hm. destruct (GetOrNewStateObject s a) as [s1 o] eqn:Eg.
  destruct (GetOrNewStateObject_spec _ _ _ _ I Eg) as (es & Hj & Hl & _).
  eapply step_trans; [eauto|]. intros I1. by apply Hm.
Qed.

Lemma SetBalance_step s a v : Inv s -> s ⟶ SetBalance s a v.
Proof. intros I. apply via_object; auto using so_SetBalance_step. Qed.

Lemma SubBalance_step s a v : Inv s -> s ⟶ SubBalance s a v.
Proof. intros I. apply via_object; auto using so_SubBalance_step. Qed.

Lemma SetNonce_step s a n : Inv s -> s ⟶ SetNonce s a n.
Proof. intros I. apply via_object; auto using so_SetNonce_step. Qed.

Lemma SetCode_step s a c : Inv s -> s ⟶ SetCode s a c.
Proof. intros I. apply via_object; auto using so_SetCode_step. Qed.

Lemma SetState_step s a k v : Inv s -> s ⟶ SetState s a k v.
Proof. intros I. apply via_object; auto using so_SetState_step. Qed.

(** [AddBalance] on an account that has been read (or the touched precompile). *)
Lemma AddBalance_step s a v :
  Inv s -> is_Some (stateObjects s !! a) \/ (a = ripemd /\ v = uzero) -> s ⟶ AddBalance s a v.
Proof.
  intros I Ha. unfold AddBalance.
  replace (bool_decide (is_Some (stateObjects s !! a)) || (a =? ripemd) && uIsZero v) with true.
  { cbn. apply via_object; auto using so_AddBalance_step. }
  symmetry. apply orb_true_iff. destruct Ha as [Ha|[-> ->]].
  - left. by apply bool_decide_eq_true.
  - right. rewrite Z.eqb_refl. cbn. by apply uIsZero_true.
Qed.

Lemma put_put s o1 o2 : address o1 = address o2 -> put (put s o1) o2 = put s o2.
Proof. intros H. unfold put, set_stateObjects; cbn. by rewrite H, insert_insert_eq. Qed.

Lemma CreateAccount_step s a b : Inv s -> s ⟶ CreateAccount s a b.
Proof.
  intros I. unfold CreateAccount. destruct (getStateObject s a) as [s0 prev] eqn:Eg.
  destruct (getStateObject_spec _ _ _ _ I Eg) as (Q & _ & _).
  pose proof (getStateObject_load _ _ _ _ I Eg) as Hl0.
  eapply step_trans; [by apply step_quiet|]. intros I0.
  rewrite createObject_eq by done. cbv zeta.
  set (new := so_setNonce 0 (newObject a zeroAccount _)).
  assert (address new = a /\ Initialised (data new) = true) as [Ha Hi]
    by apply setNonce_newObject_live.
  set (new' := match prev with Some p => _ | None => new end).
  assert (address new' = a /\ Initialised (data new') = true) as [Ha' Hi']
    by (subst new'; by destruct prev).
  set (new'' := if b then _ else _).
  assert (address new'' = a /\ Initialised (data new'') = true) as [Ha'' Hi'']
    by (subst new''; by destruct b).
  rewrite put_put by congruence. rewrite <- Hl0. eexists. by apply journalled_install.
Qed.

Lemma Suicide_step s a :
  Inv s -> (forall o, load s a = Some o -> deleted o = false -> created o = false) ->
  s ⟶ (Suicide s a).1.
Proof.
  intros I Hc. unfold Suicide. destruct (getStateObject s a) as [s1 so] eqn:Eg.
  destruct (getStateObject_spec _ _ _ _ I Eg) as (Q & Hso & Hl).
  destruct so as [o|]; cbn; [destruct (deleted o) eqn:Ed; cbn|]; [by apply step_quiet| |by apply step_quiet].
  specialize (Hc o (eq_sym Hso) Ed). specialize (Hl o eq_refl).
  eapply step_trans; [by apply step_quiet|]. intros I1.
  destruct (inv_live _ I1 _ _ Hl) as [Ha Hi]. subst a.
  eexists. eapply (journalled_put s1 o _ _
    (fun o' => Some (so_setBalance (Balance (data o)) (with_selfdestructed (selfdestructed o) o'))) o);
    try done.
  - cbn. unfold on_object, getStateObject; cbn. by rewrite lookup_insert_eq.
  - f_equal. destruct o as [? [] ? ? ? ? ? ? ? ? ? ?]; cbn in *. by subst.
Qed.

(** ** Logs, refunds and the access list *)

Lemma AddLog_step s l : Inv s -> s ⟶ AddLog s l.
Proof.
  intros I. set (e := addLogChange (thash s)).
  assert (Inv (AddLog s l)) as I1.
  { destruct I as [H1 H2 H3 H4 H5]. split; auto. apply add64_range. }
  exists [e]. split; [by rewrite <- append_entries| |apply (append_dirties s)|done|done].
  set (l' := {| LogAddress := LogAddress l; Topics := Topics l; LogData := LogData l;
                LogTxHash := thash s; LogBlockHash := bhash s; LogTxIndex := txIndex s;
                LogIndex := logSize s |}).
  assert (logSize s +u 1 -u 1 = logSize s) as Hsz.
  { destruct (inv_logSize _ I). unfold add64, sub64, u64.
    rewrite Zminus_mod_idemp_l. replace (logSize s + 1 - 1) with (logSize s) by lia.
    by apply Z.mod_small. }
  assert (equiv s s) as Q by done.
  destruct (from_nil (logs s !! thash s)) as [|x xs] eqn:El.
  - eapply rewinds_one; [done|..].
    + cbn. rewrite lookup_insert_eq. cbn. rewrite El. cbn. done.
    + solve_equiv Q. intros h. unfold GetLogs; cbn. rewrite lookup_delete.
      case_decide; [by subst; rewrite El|by rewrite lookup_insert_ne].
    + destruct I as [H1 H2 H3 H4 H5]. split; auto. apply sub64_range.
  - eapply (rewinds_one e _ _ (set_logs (<[thash s := x :: xs]> (<[thash s := x :: xs ++ [l']]> (logs s)))
        (logSize s +u 1 -u 1) (append s e))); [done|..].
    + cbn. rewrite lookup_insert_eq. cbn. rewrite El. cbn. fold l'.
      destruct (xs ++ [l']) as [|y ys] eqn:Ex; [by destruct xs|]. rewrite <- Ex.
      replace (length (xs ++ [l']) - 0)%nat with (S (length xs)) by (rewrite length_app; simpl; lia).
      cbn [take]. by rewrite take_app_length.
    + solve_equiv Q. intros h. unfold GetLogs; cbn. rewrite insert_insert_eq, lookup_insert.
      case_decide; [by subst; rewrite El|done].
    + destruct I as [H1 H2 H3 H4 H5]. split; auto. apply sub64_range.
Qed.

Lemma refund_step s s1 v :
  Inv s -> quiet (append s (refundChange (refund s))) s1 -> s ⟶ set_refund v s1.
Proof.
  intros I Q. exists [refundChange (refund s)].
  assert (Inv s1) as I1 by apply Q.
  assert (forall r, Inv (set_refund r s1)) as Ir by (intros; by destruct I1).
  split; [|..].
  - cbn. by rewrite (q_jrnl _ _ Q), append_entries.
  - eapply rewinds_one; [auto|done| |exact (Ir (refund s))].
    transitivity (append s (refundChange (refund s))); [|apply equiv_append].
    pose proof (q_equiv _ _ Q) as Q1. symmetry in Q1. solve_equiv Q1.
  - intros Hd. unfold dirties_ok. cbn. rewrite (q_jrnl _ _ Q). by apply append_dirties.
  - apply Q.
  - apply Q.
Qed.

Lemma AddRefund_step s g : Inv s -> s ⟶ AddRefund s g.
Proof. intros I. apply refund_step; auto using quiet_refl, Inv_append. Qed.

Lemma SubRefund_step s g : Inv s -> s ⟶ SubRefund s g.
Proof.
  intros I. unfold SubRefund. cbn. apply refund_step; [done|].
  case_match; auto using quiet_setError, quiet_refl, Inv_append.
Qed.

Lemma Inv_accList s al : Inv s -> AccessList.wf al -> Inv (set_accList al s).
Proof. intros [H1 H2 H3 H4 H5] W. by split. Qed.

Lemma AddAddress_step s a : Inv s -> s ⟶ AddAddressToAccessList s a.
Proof.
  intros I. unfold AddAddressToAccessList.
  destruct (AccessList.AddAddress (accList s) a) as [al added] eqn:Ea.
  pose proof (AccessList.wf_AddAddress (accList s) a (inv_accList _ I)) as W. rewrite Ea in W.
  destruct added.
  - exists [accessListAddAccountChange a]. split; [by rewrite <- append_entries| |apply (append_dirties s)|done|done].
    eapply rewinds_one; [by apply Inv_append, Inv_accList|done| |].
    + cbn. rewrite (AccessList.DeleteAddress_AddAddress _ _ _ Ea).
      assert (equiv s s) as Q by done. solve_equiv Q.
    + cbn. rewrite (AccessList.DeleteAddress_AddAddress _ _ _ Ea).
      apply Inv_accList; [by apply Inv_append, Inv_accList|apply I].
  - assert (al = accList s) as ->.
    { unfold AccessList.AddAddress in Ea. destruct (AccessList.addresses (accList s) !! a); congruence. }
    replace (set_accList (accList s) s) with s by by destruct s. by apply step_refl.
Qed.

Lemma AddSlot_step s a k : Inv s -> exists s1, AddSlotToAccessList s a k = Some s1 /\ s ⟶ s1.
Proof.
  intros I. pose proof (inv_accList _ I) as W. unfold AddSlotToAccessList.
  destruct (AccessList.AddSlot_total (accList s) a k W) as [[al [am sm]] Ea].
  rewrite Ea. cbn. eexists; split; [done|].
  pose proof (AccessList.wf_AddSlot _ _ _ _ _ W Ea) as W1.
  destruct sm.
  2: { destruct (AccessList.AddSlot_inv _ _ _ _ _ W Ea)
         as [([=] & _)|(i & sl & _ & _ & [([= ->] & _ & ->)|([=] & _)])].
       replace (set_accList (accList s) s) with s by by destruct s. by apply step_refl. }
  pose proof (AccessList.DeleteSlot_AddSlot _ _ _ _ _ W Ea) as Hd.
  assert (equiv s s) as Q by done.
  destruct am.
  - pose proof (AccessList.AddSlot_absent _ _ _ _ _ W Ea) as Hn.
    pose proof (AccessList.wf_AddAddress _ a W) as W2.
    assert (AccessList.AddAddress (accList s) a = ((AccessList.AddAddress (accList s) a).1, true)) as Hadd
      by (unfold AccessList.AddAddress; by rewrite Hn).
    exists [accessListAddAccountChange a; accessListAddSlotChange a k].
    split; [cbn; by rewrite <- app_assoc| | |done|done].
    2: { intros Hdo. apply (append_dirties (append s _)), (append_dirties s), Hdo. }
    split; [by apply Inv_append, Inv_append, Inv_accList|].
    eexists; split; [cbn; by rewrite Hd|].
    eapply rewinds_one; [by apply Inv_accList, W2; apply Inv_append, Inv_append, Inv_accList|done|..].
    + cbn. rewrite (AccessList.DeleteAddress_AddAddress _ _ _ Hadd). solve_equiv Q.
    + cbn. rewrite (AccessList.DeleteAddress_AddAddress _ _ _ Hadd).
      destruct I as [H1 H2 H3 H4 H5]. by split.
  - exists [accessListAddSlotChange a k]. split; [by rewrite <- append_entries| |apply (append_dirties s)|done|done].
    eapply rewinds_one; [by apply Inv_append, Inv_accList|cbn; by rewrite Hd|..].
    + solve_equiv Q.
    + destruct I as [H1 H2 H3 H4 H5]. by split.
Qed.

End Writers.
