(* ===== verification/StateSnapshot.v ===== *)
(** * StateSnapshot: runs between [Snapshot] and [RevertToSnapshot]

    The operations the EVM and the state transition perform on the state, the
    runs they form with nested snapshots, and the theorem that reverting to a
    snapshot restores every observable value. *)

From S2P Require Import Prelude Uint256 AccessList StateModel StateRevert StateJournal.

Section Runs.
Context `{U : Uint256} `{E : @StateEnv U}.
Implicit Types s t : IntraBlockState.

(** ** Operations *)

Inductive op :=
| OExist (a : Address) | OEmpty (a : Address) | OGetBalance (a : Address) | OGetNonce (a : Address)
| OGetCode (a : Address) | OGetCodeSize (a : Address) | OGetCodeHash (a : Address)
| OGetState (a : Address) (k : Hash) | OGetCommittedState (a : Address) (k : Hash)
| OHasSuicided (a : Address)
| OAddBalance (a : Address) (v : u256) | OSubBalance (a : Address) (v : u256)
| OSetBalance (a : Address) (v : u256) | OSetNonce (a : Address) (n : Z)
| OSetCode (a : Address) (c : option (list Z)) | OSetState (a : Address) (k : Hash) (v : u256)
| OSuicide (a : Address) | OCreateAccount (a : Address) (contractCreation : bool)
| OAddLog (l : Log) | OAddRefund (g : Z) | OSubRefund (g : Z)
| OAddAddressToAccessList (a : Address) | OAddSlotToAccessList (a : Address) (k : Hash).

Definition exec s (x : op) : option IntraBlockState :=
  match x with
  | OExist a => Some (Exist s a).1
  | OEmpty a => Some (Empty s a).1
  | OGetBalance a => Some (GetBalance s a).1
  | OGetNonce a => Some (GetNonce s a).1
  | OGetCode a => Some (GetCode s a).1
  | OGetCodeSize a => Some (GetCodeSize s a).1
  | OGetCodeHash a => Some (GetCodeHash s a).1
  | OGetState a k => Some (GetState s a k).1
  | OGetCommittedState a k => Some (GetCommittedState s a k).1
  | OHasSuicided a => Some (HasSuicided s a).1
  | OAddBalance a v => Some (AddBalance s a v)
  | OSubBalance a v => Some (SubBalance s a v)
  | OSetBalance a v => Some (SetBalance s a v)
  | OSetNonce a n => Some (SetNonce s a n)
  | OSetCode a c => Some (SetCode s a c)
  | OSetState a k v => Some (SetState s a k v)
  | OSuicide a => Some (Suicide s a).1
  | OCreateAccount a b => Some (CreateAccount s a b)
  | OAddLog l => Some (AddLog s l)
  | OAddRefund g => Some (AddRefund s g)
  | OSubRefund g => Some (SubRefund s g)
  | OAddAddressToAccessList a => Some (AddAddressToAccessList s a)
  | OAddSlotToAccessList a k => AddSlotToAccessList s a k
  end.

(** The discipline under which the journal is complete: a balance is only added
    to an account that has been read, and an account created in this block is
    not destroyed. *)
Definition allowed s (x : op) : Prop :=
  match x with
  | OAddBalance a v => is_Some (stateObjects s !! a) \/ (a = ripemd /\ v = uzero)
  | OSuicide a => forall o, load s a = Some o -> deleted o = false -> created o = false
  | _ => True
  end.

Lemma read_quiet s a : Inv s -> quiet s (getStateObject s a).1.
Proof.
  intros I. destruct (getStateObject s a) as [s1 so] eqn:Eg.
  by destruct (getStateObject_spec _ _ _ _ I Eg).
Qed.

(** Reads that first load an object and then look at it. *)
Lemma read_object_quiet {A} s a (m : IntraBlockState -> stateObject -> IntraBlockState * A) (d : A) :
  Inv s ->
  (forall t o, Inv t -> stateObjects t !! address o = Some o -> address o = a -> quiet t (m t o).1) ->
  quiet s (let '(s, so) := getStateObject s a in
           match alive so with Some o => m s o | None => (s, d) end).1.
Proof.
  intros I Hm. destruct (getStateObject s a) as [s1 so] eqn:Eg.
  destruct (getStateObject_spec _ _ _ _ I Eg) as (Q & Hso & Hl).
  destruct so as [o|]; cbn; [destruct (deleted o); cbn|]; [done| |done].
  destruct (load_live _ _ _ I (eq_sym Hso)) as [Ha _].
  eapply quiet_trans; [done|]. apply Hm; [apply Q| |done]. rewrite Ha. by apply Hl.
Qed.

Lemma GetCode_quiet s a : Inv s -> quiet s (GetCode s a).1.
Proof.
  intros I. apply read_object_quiet; [done|]. intros t o It Hl _.
  destruct (so_Code t o) as [t1 c] eqn:Ec.
  destruct (so_Code_spec _ _ _ _ It Hl Ec) as (Q & _ & _).
  pose proof (q_inv _ _ Q). cbn.
  destruct c as [[|? ?]|], (codeMap t1); try done.
  eapply quiet_trans; [done|by apply quiet_codeMap].
Qed.

Lemma GetCodeSize_quiet s a : Inv s -> quiet s (GetCodeSize s a).1.
Proof.
  intros I. apply (read_object_quiet s a (fun s o => match code o with
    | Some c => (s, Z.of_nat (length c)) | None => _ end) 0 I).
  intros t o It Hl _. destruct (code o); [by apply quiet_refl|].
  destruct (ReadAccountCodeSize _ _ _ _) as [len err].
  set (t1 := match err with Some e => setError t e | None => t end).
  assert (quiet t t1) as Q.
  { subst t1. destruct err; [by apply quiet_setError|by apply quiet_refl]. }
  destruct (codeMap t1); [|done]. destruct (0 <? len); [|done].
  destruct (ReadAccountCode _ _ _ _). eapply quiet_trans; [done|]. apply quiet_codeMap, Q.
Qed.

Lemma GetState_quiet s a k : Inv s -> quiet s (GetState s a k).1.
Proof.
  intros I. apply read_object_quiet; [done|]. intros t o It Hl _.
  destruct (so_GetState t o k) eqn:Eg. by destruct (so_GetState_spec _ _ _ _ _ It Hl Eg).
Qed.

Lemma GetCommittedState_quiet s a k : Inv s -> quiet s (GetCommittedState s a k).1.
Proof.
  intros I. apply read_object_quiet; [done|]. intros t o It Hl _.
  destruct (so_GetCommittedState t o k) eqn:Eg.
  by destruct (so_GetCommittedState_spec _ _ _ _ _ It Hl Eg).
Qed.

(** Every allowed operation runs and is journalled. *)
Lemma exec_step s x :
  Inv s -> allowed s x -> exists s1, exec s x = Some s1 /\ exists es, journalled s s1 es.
Proof.
  intros I Ha.
  assert (forall a, exists es, journalled s (getStateObject s a).1 es) as Hr.
  { intros a. apply step_quiet, read_quiet, I. }
  destruct x; cbn in Ha |- *; try (eexists; split; [done|]).
  - specialize (Hr a). unfold Exist. by destruct (getStateObject s a).
  - specialize (Hr a). unfold Empty. by destruct (getStateObject s a).
  - specialize (Hr a). unfold GetBalance. by destruct (getStateObject s a).
  - specialize (Hr a). unfold GetNonce. by destruct (getStateObject s a).
  - by apply step_quiet, GetCode_quiet.
  - by apply step_quiet, GetCodeSize_quiet.
  - specialize (Hr a). unfold GetCodeHash. by destruct (getStateObject s a).
  - by apply step_quiet, GetState_quiet.
  - by apply step_quiet, GetCommittedState_quiet.
  - specialize (Hr a). unfold HasSuicided. by destruct (getStateObject s a).
  - by apply AddBalance_step.
  - by apply SubBalance_step.
  - by apply SetBalance_step.
  - by apply SetNonce_step.
  - by apply SetCode_step.
  - by apply SetState_step.
  - by apply Suicide_step.
  - by apply CreateAccount_step.
  - by apply AddLog_step.
  - by apply AddRefund_step.
  - by apply SubRefund_step.
  - by apply AddAddress_step.
  - by apply AddSlot_step.
Qed.

(** ** Rewinding with [journal.revert] *)

Lemma Inv_jrnl s j : Inv s -> Inv (set_jrnl j s).
Proof. intros []. by split. Qed.

Lemma equiv_jrnl s j : equiv s (set_jrnl j s).
Proof. assert (equiv s s) as Q by done. solve_equiv Q. Qed.

Lemma undirty_entries j e : entries (journal_undirty j e) = entries j.
Proof. unfold journal_undirty. by destruct (dirtied e). Qed.

Lemma revert_loop_spec k2 k1 s s0 pre rest :
  rewinds (k2 ++ k1) s s0 -> entries (jrnl s) = pre ++ reverse k2 ++ rest ->
  exists s', revert_loop s (length pre) (length k2) = Some s' /\ rewinds k1 s' s0 /\
    entries (jrnl s') = entries (jrnl s) /\ validRevisions s' = validRevisions s /\
    nextRevisionID s' = nextRevisionID s /\
    (dirties_for (pre ++ reverse k2) (dirties (jrnl s)) -> dirties_for pre (dirties (jrnl s'))).
Proof.
  revert s rest. induction k2 as [|e k2 IH]; intros s rest Hr He; [exists s; by rewrite app_nil_r|].
  destruct Hr as [I (s1 & Hs1 & Hr)].
  destruct (revert_entry_equiv s s e s1 I I) as (s1' & Hs1' & _ & (Hj & Hv & Hn) & _); [reflexivity|done|].
  assert (s1' = s1) as -> by congruence.
  cbn [length revert_loop]. rewrite reverse_cons, (app_assoc pre).
  rewrite reverse_cons, <- app_assoc in He. cbn in He.
  assert (entries (jrnl s) !! (length pre + length k2)%nat = Some e) as ->.
  { rewrite He, lookup_app_r by lia. replace (length pre + length k2 - length pre)%nat
      with (length (reverse k2)) by (rewrite length_reverse; lia).
    by rewrite lookup_app_r, Nat.sub_diag. }
  cbn. rewrite Hs1. cbn.
  set (s2 := set_jrnl (journal_undirty (jrnl s1) e) s1).
  destruct (IH s2 (e :: rest)) as (s' & Hs' & Hr' & He' & Hv' & Hn' & Hd').
  - eapply rewinds_equiv; [done|apply equiv_jrnl|]. apply Inv_jrnl. by eapply rewinds_Inv.
  - subst s2. cbn. by rewrite undirty_entries, Hj, He.
  - exists s'. split_and!; auto.
    + rewrite He'. subst s2. cbn. by rewrite undirty_entries, Hj.
    + by rewrite Hv'.
    + by rewrite Hn'.
    + intros Hd. apply Hd'. subst s2. cbn.
      apply dirties_for_undirty. by rewrite Hj.
Qed.

Lemma journal_revert_spec k2 k1 s s0 pre :
  rewinds (k2 ++ k1) s s0 -> entries (jrnl s) = pre ++ reverse k2 ->
  exists s', journal_revert s (length pre) = Some s' /\ rewinds k1 s' s0 /\
    entries (jrnl s') = pre /\ validRevisions s' = validRevisions s /\
    nextRevisionID s' = nextRevisionID s /\ (dirties_ok s -> dirties_ok s').
Proof.
  intros Hr He. unfold journal_revert.
  replace (length (entries (jrnl s)) - length pre)%nat with (length k2)
    by (rewrite He, length_app, length_reverse; lia).
  destruct (revert_loop_spec k2 k1 s s0 pre []) as (s' & -> & Hr' & He' & Hv & Hn & Hd);
    [done|by rewrite app_nil_r|].
  cbn. eexists; split; [done|]. split_and!; auto.
  - eapply rewinds_equiv; [done|apply equiv_jrnl|]. apply Inv_jrnl. by eapply rewinds_Inv.
  - cbn. by rewrite He', He, take_app_length.
  - unfold dirties_ok. cbn. rewrite He', He, take_app_length. apply Hd.
Qed.

(** ** Finding a revision *)

Definition revs_sorted (revs : list (Z * nat)) : Prop := StronglySorted (fun x y => x.1 < y.1) revs.

Lemma StronglySorted_lookup {A} (R : A -> A -> Prop) l i j x y :
  StronglySorted R l -> l !! i = Some x -> l !! j = Some y -> (i < j)%nat -> R x y.
Proof.
  intros Hs. revert i j. induction Hs as [|z l Hs IH Hz]; intros [|i] [|j] Hx Hy Hij; try lia; try done; cbn in *.
  - simplify_eq. eapply (Forall_lookup_1 _ _ _ _ Hz Hy).
  - eapply (IH i j); eauto. lia.
Qed.

Lemma revs_sorted_lt revs i j x y :
  revs_sorted revs -> revs !! i = Some x -> revs !! j = Some y -> (i < j)%nat -> x.1 < y.1.
Proof. exact (StronglySorted_lookup (fun x y => x.1 < y.1) revs i j x y). Qed.

Lemma search_revision revs i id j :
  revs_sorted revs -> revs !! i = Some (id, j) ->
  sort_Search (length revs)
    (fun i => match revs !! i with Some (id', _) => id <=? id' | None => true end) = i.
Proof.
  intros Hs Hi. set (f := fun i => match revs !! i with Some (id', _) => id <=? id' | None => true end).
  destruct (sort_Search_spec (length revs) f) as (Hr & Hlo & Hhi).
  { subst f. cbn. intros a b Hab. destruct (revs !! b) as [[y yj]|] eqn:Eb; [|done].
    destruct (decide (a = b)) as [->|]; [by rewrite Eb|].
    destruct (revs !! a) as [[x xj]|] eqn:Ea.
    - intros. zbool. apply Z.leb_le. pose proof (revs_sorted_lt _ _ _ _ _ Hs Ea Eb). cbn in *. lia.
    - apply lookup_ge_None in Ea. apply lookup_lt_Some in Eb. lia. }
  set (r := sort_Search (length revs) f) in *.
  destruct (lt_eq_lt_dec r i) as [[Hlt|]|Hgt]; [exfalso|done|exfalso].
  - destruct Hhi as [Hn|Hf]; [apply lookup_lt_Some in Hi; lia|].
    unfold f in Hf. destruct (revs !! r) as [[x xj]|] eqn:Ex.
    + zbool. pose proof (revs_sorted_lt _ _ _ _ _ Hs Ex Hi Hlt). cbn in *. lia.
    + apply lookup_ge_None in Ex. apply lookup_lt_Some in Hi. lia.
  - specialize (Hlo i Hgt). unfold f in Hlo. rewrite Hi in Hlo. zbool. lia.
Qed.

(** ** Runs *)

(** One step of a run inside the revision [base]: an operation, a nested
    snapshot, or a revert to a revision taken after [base]. *)
Inductive step (base : Z) : IntraBlockState -> IntraBlockState -> Prop :=
| step_op s x s' : allowed s x -> exec s x = Some s' -> step base s s'
| step_snapshot s : step base s (TakeSnapshot s).1
| step_revert s id s' : base < id -> RevertToSnapshot s id = Some s' -> step base s s'.

(** Revision identifiers grow and are below the next one. *)
Record revs_ok s : Prop := {
  ro_sorted : revs_sorted (validRevisions s);
  ro_next : Forall (fun r => r.1 < nextRevisionID s) (validRevisions s)
}.

(** What holds of every state of a run that started in [s0] with revision [id]. *)
Record run_inv s0 (id : Z) s (es : list journalEntry) (extra : list (Z * nat)) : Prop := {
  ri_entries : entries (jrnl s) = entries (jrnl s0) ++ es;
  ri_rewinds : rewinds (reverse es) s s0;
  ri_dirties : dirties_ok s;
  ri_revs : validRevisions s = validRevisions s0 ++ (id, length (entries (jrnl s0))) :: extra;
  ri_ok : revs_ok s;
  ri_range : Forall (fun r => length (entries (jrnl s0)) <= r.2 <= length (entries (jrnl s)))%nat extra;
  ri_mono : StronglySorted (fun x y => x.2 <= y.2)%nat extra
}.

Lemma StronglySorted_snoc {A} (R : A -> A -> Prop) l x :
  StronglySorted R l -> Forall (fun y => R y x) l -> StronglySorted R (l ++ [x]).
Proof.
  induction 1 as [|y l Hs IH Hy]; intros Hx; cbn; [by repeat constructor|].
  inv Hx. constructor; [auto|]. apply Forall_app; auto.
Qed.

Lemma StronglySorted_take {A} (R : A -> A -> Prop) l n :
  StronglySorted R l -> StronglySorted R (take n l).
Proof.
  intros H. revert n. induction H as [|y l Hs IH Hy]; intros [|n]; cbn; constructor; auto.
  by apply Forall_take.
Qed.

Lemma revs_ok_push s n :
  revs_ok s -> revs_ok (set_revisions (validRevisions s ++ [(nextRevisionID s, n)]) (nextRevisionID s + 1) s).
Proof.
  intros [H1 H2]. split; cbn.
  - apply StronglySorted_snoc; [done|]. eapply Forall_impl; [exact H2|done].
  - apply Forall_app. split; [|repeat constructor; cbn; lia].
    eapply Forall_impl; [exact H2|]. cbn; lia.
Qed.

Lemma run_inv_start s :
  Inv s -> revs_ok s -> dirties_ok s -> run_inv s (nextRevisionID s) (TakeSnapshot s).1 [] [].
Proof.
  intros I R D. split; cbn; auto; try (by constructor).
  - by rewrite app_nil_r.
  - split; [by destruct I|]. assert (equiv s s) as Q by done. solve_equiv Q.
  - by apply revs_ok_push.
Qed.

(** What [RevertToSnapshot] finds, it finds among the valid revisions. *)
Lemma RevertToSnapshot_inv s id s' :
  RevertToSnapshot s id = Some s' ->
  exists i j s1, validRevisions s !! i = Some (id, j) /\ journal_revert s j = Some s1 /\
    s' = set_revisions (take i (validRevisions s1)) (nextRevisionID s1) s1.
Proof.
  unfold RevertToSnapshot. set (i := sort_Search _ _).
  destruct (validRevisions s !! i) as [[id' j]|] eqn:Ei; cbn; [|done].
  destruct (Z.eqb_spec id' id) as [->|]; cbn; [|done].
  destruct (journal_revert s j) as [s1|] eqn:Ej; cbn; [|done]. intros [= <-]. eauto 10.
Qed.

Lemma revs_ok_take s i n : revs_ok s -> n = nextRevisionID s ->
  forall s1, validRevisions s1 = validRevisions s -> nextRevisionID s1 = nextRevisionID s ->
  revs_ok (set_revisions (take i (validRevisions s1)) n s1).
Proof.
  intros [H1 H2] -> s1 Hv Hn. split; cbn; rewrite Hv.
  - by apply StronglySorted_take.
  - by apply Forall_take.
Qed.

Lemma rewinds_revisions k s s0 v n : rewinds k s s0 -> rewinds k (set_revisions v n s) s0.
Proof.
  intros Hr. pose proof (rewinds_Inv _ _ _ Hr) as [].
  eapply rewinds_equiv; [done| |by split]. assert (equiv s s) as Q by done. solve_equiv Q.
Qed.

(** A nested revert keeps the invariant of the run. *)
Lemma run_inv_revert s0 id s es extra id' s' :
  run_inv s0 id s es extra -> id < id' -> RevertToSnapshot s id' = Some s' ->
  exists es' extra', run_inv s0 id s' es' extra'.
Proof.
  intros [He Hr Hd Hv Ho Hrg Hm] Hlt H.
  destruct (RevertToSnapshot_inv _ _ _ H) as (i & j & s1 & Hi & Hj & ->).
  set (n := length (validRevisions s0)) in *.
  assert (validRevisions s !! n = Some (id, length (entries (jrnl s0)))) as Hn.
  { by rewrite Hv, lookup_app_r, Nat.sub_diag. }
  assert (n < i)%nat as Hni.
  { destruct (decide (n < i)%nat) as [|Hge]; [done|].
    destruct (decide (i = n)) as [->|]; [rewrite Hn in Hi; simplify_eq; lia|].
    pose proof (revs_sorted_lt _ _ _ _ _ (ro_sorted _ Ho) Hi Hn). cbn in *. lia. }
  rewrite Hv, lookup_app_r in Hi by lia.
  replace (i - length (validRevisions s0))%nat with (S (i - n - 1)) in Hi by (subst n; lia).
  cbn in Hi. set (m := (i - n - 1)%nat) in *.
  pose proof (Forall_lookup_1 _ _ _ _ Hrg Hi) as [Hj1 Hj2]. cbn in Hj1, Hj2.
  set (q := (j - length (entries (jrnl s0)))%nat).
  destruct (journal_revert_spec (reverse (drop q es)) (reverse (take q es)) s s0
              (entries (jrnl s0) ++ take q es)) as (s1' & Hs1 & Hr1 & He1 & Hv1 & Hn1 & Hd1).
  { rewrite <- reverse_app, take_drop. done. }
  { rewrite reverse_involutive, <- app_assoc, take_drop. done. }
  assert (length (entries (jrnl s0) ++ take q es) = j) as Hlen.
  { rewrite length_app, length_take. rewrite He, length_app in Hj2. lia. }
  rewrite Hlen in Hs1. assert (s1' = s1) as -> by congruence.
  exists (take q es), (take m extra). split; cbn; auto.
  - by apply rewinds_revisions.
  - rewrite Hv1, Hv, take_app. f_equal; [apply take_ge; lia|].
    replace (i - length (validRevisions s0))%nat with (S m) by (subst m n; lia). done.
  - by apply (revs_ok_take s).
  - rewrite He1, Hlen. apply Forall_lookup. intros x r Hx.
    apply lookup_take_Some in Hx as [Hx Hxm].
    pose proof (Forall_lookup_1 _ _ _ _ Hrg Hx) as [Hx1 Hx2].
    split; [done|].
    exact (StronglySorted_lookup _ extra x m r (id', j) Hm Hx Hi Hxm).
  - by apply StronglySorted_take.
Qed.

Lemma run_inv_step s0 id s es extra s' :
  run_inv s0 id s es extra -> step id s s' -> exists es' extra', run_inv s0 id s' es' extra'.
Proof.
  intros R Hs. destruct Hs as [s x s' Ha Hx|s|s id' s' Hlt Hrev].
  - destruct R as [He Hr Hd Hv Ho Hrg Hm].
    destruct (exec_step s x (rewinds_Inv _ _ _ Hr) Ha) as (s1 & Hs1 & es1 & [Je Jr Jd Jv Jn]).
    assert (s1 = s') as -> by congruence.
    exists (es ++ es1), extra. split; auto.
    + by rewrite Je, He, app_assoc.
    + rewrite reverse_app. by eapply rewinds_app.
    + congruence.
    + destruct Ho. split; by rewrite Jv, ?Jn.
    + eapply Forall_impl; [exact Hrg|]. cbn. intros r [??]. rewrite Je, length_app. lia.
  - destruct R as [He Hr Hd Hv Ho Hrg Hm].
    exists es, (extra ++ [(nextRevisionID s, length (entries (jrnl s)))]). split; cbn; auto.
    + by apply rewinds_revisions.
    + by rewrite Hv, <- app_assoc.
    + by apply revs_ok_push.
    + apply Forall_app. split; [done|]. apply Forall_singleton. cbn. rewrite He, length_app. lia.
    + apply StronglySorted_snoc; [done|]. eapply Forall_impl; [exact Hrg|]. cbn. intros r ?; lia.
  - by eapply run_inv_revert.
Qed.

Lemma run_inv_steps s0 id s es extra s' :
  run_inv s0 id s es extra -> rtc (step id) s s' -> exists es' extra', run_inv s0 id s' es' extra'.
Proof.
  intros R Hs. revert es extra R. induction Hs as [s|s s1 s' H1 _ IH]; intros es extra R; [by eauto|].
  destruct (run_inv_step _ _ _ _ _ _ R H1) as (? & ? & R1). by eapply IH.
Qed.

(** Reverting to the revision the run started with. *)
Lemma run_revert s0 id s es extra :
  run_inv s0 id s es extra ->
  exists s', RevertToSnapshot s id = Some s' /\ equiv s' s0 /\ Inv s' /\ dirties_ok s' /\
    entries (jrnl s') = entries (jrnl s0) /\ validRevisions s' = validRevisions s0.
Proof.
  intros [He Hr Hd Hv Ho Hrg Hm]. set (n := length (validRevisions s0)).
  assert (validRevisions s !! n = Some (id, length (entries (jrnl s0)))) as Hn.
  { by rewrite Hv, lookup_app_r, Nat.sub_diag. }
  destruct (journal_revert_spec (reverse es) [] s s0 (entries (jrnl s0)))
    as (s1 & Hs1 & Hr1 & He1 & Hv1 & Hn1 & Hd1).
  { by rewrite app_nil_r. }
  { by rewrite reverse_involutive. }
  unfold RevertToSnapshot. rewrite (search_revision _ _ _ _ (ro_sorted _ Ho) Hn), Hn. cbn.
  rewrite Z.eqb_refl. cbn. rewrite Hs1. cbn. eexists; split; [done|].
  destruct (rewinds_revisions [] s1 s0 (take n (validRevisions s1)) (nextRevisionID s1) Hr1) as [? ?].
  split_and!; auto. subst n. cbn. by rewrite Hv1, Hv, take_app_length.
Qed.

(** ** What the methods of the state return *)

Record same_reads s t : Prop := {
  sr_Exist : forall a, (Exist s a).2 = (Exist t a).2;
  sr_Empty : forall a, (Empty s a).2 = (Empty t a).2;
  sr_GetBalance : forall a, (GetBalance s a).2 = (GetBalance t a).2;
  sr_GetNonce : forall a, (GetNonce s a).2 = (GetNonce t a).2;
  sr_GetCode : forall a, (GetCode s a).2 = (GetCode t a).2;
  sr_GetCodeHash : forall a, (GetCodeHash s a).2 = (GetCodeHash t a).2;
  sr_GetState : forall a k, (GetState s a k).2 = (GetState t a k).2;
  sr_GetCommittedState : forall a k, (GetCommittedState s a k).2 = (GetCommittedState t a k).2;
  sr_HasSuicided : forall a, (HasSuicided s a).2 = (HasSuicided t a).2;
  sr_GetIncarnation : forall a, (GetIncarnation s a).2 = (GetIncarnation t a).2;
  sr_GetLogs : forall h, GetLogs s h = GetLogs t h;
  sr_GetRefund : GetRefund s = GetRefund t;
  sr_Address : forall a, AddressInAccessList s a = AddressInAccessList t a;
  sr_Slot : forall a k, SlotInAccessList s a k = SlotInAccessList t a k
}.

Lemma load_reads s a : Inv s -> (getStateObject s a).2 = load s a.
Proof.
  intros I. destruct (getStateObject s a) eqn:Eg.
  by destruct (getStateObject_spec _ _ _ _ I Eg) as (_ & -> & _).
Qed.

(** A read through [load]. *)
Definition reads {A} (m : IntraBlockState -> stateObject -> A) (d : A) s a : A :=
  match alive (load s a) with Some o => m s o | None => d end.

Lemma reads_equiv {A} (m : IntraBlockState -> stateObject -> A) d s t a :
  equiv s t -> (forall o1 o2, obj_equiv s o1 o2 -> m s o1 = m t o2) -> reads m d s a = reads m d t a.
Proof.
  intros Q Hm. unfold reads. pose proof (eq_objects _ _ Q a) as Ho. inv Ho; cbn; [|done].
  rewrite (oe_deleted _ _ _ ltac:(eassumption)). destruct (deleted y); [done|]. by apply Hm.
Qed.

(** Plain fields, and the fields with a cache. *)
Lemma read_field {A} (m : stateObject -> A) (d : A) s a :
  Inv s ->
  (let '(s, so) := getStateObject s a in (s, match alive so with Some o => m o | None => d end)).2
  = reads (fun _ => m) d s a.
Proof.
  intros I. unfold reads. rewrite <- (load_reads s a I). by destruct (getStateObject s a).
Qed.

Lemma read_cached {A} (m : IntraBlockState -> stateObject -> IntraBlockState * A)
    (v : IntraBlockState -> stateObject -> A) (d : A) s a :
  Inv s ->
  (forall t o, Inv t -> stateObjects t !! address o = Some o -> (m t o).2 = v t o) ->
  (forall t o, equiv s t -> v t o = v s o) ->
  (let '(s, so) := getStateObject s a in match alive so with Some o => m s o | None => (s, d) end).2
  = reads v d s a.
Proof.
  intros I Hm Hv. unfold reads. rewrite <- (load_reads s a I).
  destruct (getStateObject s a) as [s1 so] eqn:Eg.
  destruct (getStateObject_spec _ _ _ _ I Eg) as (Q & Hso & Hl). cbn.
  destruct so as [o|]; cbn; [destruct (deleted o) eqn:Ed; cbn|]; [done| |done].
  destruct (load_live _ _ _ I (eq_sym Hso)) as [Ha _].
  rewrite Hm; [apply Hv, Q|apply Q|]. rewrite Ha. by apply Hl.
Qed.

Lemma GetState_reads s a k : Inv s -> (GetState s a k).2 = reads (fun s o => stored s o k) uzero s a.
Proof.
  intros I. apply read_cached; [done| |].
  - intros t o It Hl. destruct (so_GetState t o k) eqn:Eg.
    by destruct (so_GetState_spec _ _ _ _ _ It Hl Eg) as (_ & -> & _).
  - intros t o Q. apply stored_source. intros. symmetry. apply Q.
Qed.

Lemma GetCommittedState_reads s a k :
  Inv s -> (GetCommittedState s a k).2 = reads (fun s o => committed s o k) uzero s a.
Proof.
  intros I. apply read_cached; [done| |].
  - intros t o It Hl. destruct (so_GetCommittedState t o k) eqn:Eg.
    by destruct (so_GetCommittedState_spec _ _ _ _ _ It Hl Eg) as (_ & -> & _).
  - intros t o Q. apply committed_source. intros. symmetry. apply Q.
Qed.

Lemma GetCode_reads s a : Inv s -> (GetCode s a).2 = reads codeOf None s a.
Proof.
  intros I. apply read_cached; [done| |].
  - intros t o It Hl. destruct (so_Code t o) eqn:Eg.
    by destruct (so_Code_spec _ _ _ _ It Hl Eg) as (_ & -> & _).
  - intros t o Q. apply codeOf_reader. symmetry. apply Q.
Qed.

Lemma empty_data o1 o2 : data o1 = data o2 -> empty o1 = empty o2.
Proof. intros H. unfold empty. by rewrite H. Qed.

Lemma equiv_same_reads s t : Inv s -> Inv t -> equiv s t -> same_reads s t.
Proof.
  intros Is It Q.
  assert (forall A (m : stateObject -> A) d a, (forall o1 o2, obj_equiv s o1 o2 -> m o1 = m o2) ->
    (let '(s, so) := getStateObject s a in (s, match alive so with Some o => m o | None => d end)).2 =
    (let '(s, so) := getStateObject t a in (s, match alive so with Some o => m o | None => d end)).2)
    as Hf.
  { intros A m d a Hm. rewrite !read_field by done. by apply reads_equiv. }
  split.
  - intros a. by apply (Hf bool (fun _ => true) false a).
  - intros a. unfold Empty. pose proof (load_reads s a Is) as Hs. pose proof (load_reads t a It) as Ht.
    destruct (getStateObject s a), (getStateObject t a); cbn in *. subst.
    pose proof (eq_objects _ _ Q a) as Ho. inv Ho; [|done].
    rewrite (oe_deleted _ _ _ ltac:(eassumption)). f_equal. by eapply empty_data, oe_data.
  - intros a. apply Hf. intros o1 o2 Ho. by rewrite (oe_data _ _ _ Ho).
  - intros a. apply Hf. intros o1 o2 Ho. by rewrite (oe_data _ _ _ Ho).
  - intros a. rewrite !GetCode_reads by done. apply reads_equiv; [done|].
    intros o1 o2 Ho. rewrite (oe_code _ _ _ Ho). apply codeOf_reader, Q.
  - intros a. apply Hf. intros o1 o2 Ho. by rewrite (oe_data _ _ _ Ho).
  - intros a k. rewrite !GetState_reads by done. apply reads_equiv; [done|].
    intros o1 o2 Ho. rewrite (oe_stored _ _ _ Ho). apply stored_source, Q.
  - intros a k. rewrite !GetCommittedState_reads by done. apply reads_equiv; [done|].
    intros o1 o2 Ho. rewrite (oe_committed _ _ _ Ho). apply committed_source, Q.
  - intros a. apply Hf. intros o1 o2 []. by rewrite oe_created, oe_selfdestructed.
  - intros a. unfold GetIncarnation. pose proof (load_reads s a Is) as Hs. pose proof (load_reads t a It) as Ht.
    destruct (getStateObject s a), (getStateObject t a); cbn in *. subst.
    pose proof (eq_objects _ _ Q a) as Ho. inv Ho; [|done].
    by rewrite (oe_data _ _ _ ltac:(eassumption)).
  - apply Q.
  - apply Q.
  - intros a. unfold AddressInAccessList. by rewrite (eq_accList _ _ Q).
  - intros a k. unfold SlotInAccessList. by rewrite (eq_accList _ _ Q).
Qed.

End Runs.

(** ** A small world for the witnesses *)

Module Demo.
#[local] Instance demo_u256 : Uint256 := bits_Uint256.

#[local] Instance demo_env : StateEnv :=
  {| Keccak256Hash := fun l => 1 + be_val l; EncodeForStorage := fun acc => [Nonce acc mod 256] |}.

(** Account 7 holds 100; every slot of the database holds 5. *)
Definition reader : StateReader := {|
  ReadAccountData := fun a =>
    if a =? 7 then (Some {| Initialised := true; Nonce := 3; Balance := uSetUint64 100; Root := 0;
                            CodeHash := 0; Incarnation := 0 |}, None)
    else (None, None);
  ReadAccountStorage := fun _ _ _ => (Some [5], None);
  ReadAccountCode := fun _ _ _ => (None, None);
  ReadAccountCodeSize := fun _ _ _ => (0, None);
  ReadAccountIncarnation := fun _ => (0, None)
|}.

Definition s0 : IntraBlockState := New reader.

Lemma s0_Inv : Inv s0.
Proof.
  split.
  - intros a o H. cbn in H. by rewrite lookup_empty in H.
  - intros a H. cbn in H. set_solver.
  - intros a. unfold pending, getBI. cbn. by rewrite lookup_empty.
  - apply AccessList.wf_new.
  - unfold in_u64; cbn; lia.
Qed.

Lemma s0_revs : revs_ok s0.
Proof. split; constructor. Qed.

Lemma s0_dirties : dirties_ok s0.
Proof. intros a Ha. done. Qed.

Definition log0 : Log :=
  {| LogAddress := 9; Topics := []; LogData := [1]; LogTxHash := 0; LogBlockHash := 0;
     LogTxIndex := 0; LogIndex := 0 |}.

(** Touches every kind of entry but the two the discipline excludes. *)
Definition ops : list op :=
  [OGetBalance 7; OAddBalance 7 (uSetUint64 5); OSetState 7 1 (uSetUint64 9); OSetNonce 8 4;
   OCreateAccount 9 true; OSetCode 9 (Some [96; 0]); OAddLog log0; OAddRefund 10; OSubRefund 3;
   OAddSlotToAccessList 9 2; OAddAddressToAccessList 7; OSuicide 7].

Fixpoint run (s : IntraBlockState) (l : list op) : option IntraBlockState :=
  match l with [] => Some s | x :: l => s' ← exec s x; run s' l end.

Fixpoint allowedb (s : IntraBlockState) (l : list op) : bool :=
  match l with
  | [] => true
  | x :: l =>
      (match x with
       | OAddBalance a v => bool_decide (is_Some (stateObjects s !! a))
       | OSuicide a => match load s a with Some o => negb (created o) | None => true end
       | _ => true
       end) && (match exec s x with Some s' => allowedb s' l | None => false end)
  end.

Lemma run_steps base l s s' : allowedb s l = true -> run s l = Some s' -> rtc (step base) s s'.
Proof.
  revert s. induction l as [|x l IH]; intros s Ha Hr; cbn in *; [simplify_eq; constructor|].
  apply andb_true_iff in Ha as [Ha Hn]. destruct (exec s x) as [s1|] eqn:Ex; [|done]. cbn in Hr.
  eapply rtc_l; [apply (step_op _ s x s1); [|done]|by apply IH].
  destruct x; try done; cbn in *.
  - left. by apply bool_decide_eq_true in Ha.
  - intros o Ho _. rewrite Ho in Ha. by apply negb_true_iff in Ha.
Qed.

Definition s1 : IntraBlockState := (TakeSnapshot s0).1.
Definition s2 : IntraBlockState := default s1 (run s1 ops).

Lemma run_default :
  (match run s1 ops with Some _ => true | None => false end) = true -> run s1 ops = Some s2.
Proof. unfold s2. by destruct (run s1 ops). Qed.

End Demo.


#[local] Existing Instance Demo.demo_u256.
#[local] Existing Instance Demo.demo_env.


(** A balance added to an account that has not been read yet survives the
    revert once the account is read: the discipline of [allowed] is needed. *)
Theorem unread_AddBalance_survives_revert :
  let '(s1, id) := TakeSnapshot Demo.s0 in
  match RevertToSnapshot (GetBalance (AddBalance s1 7 (uSetUint64 5)) 7).1 id with
  | Some s3 => uval (GetBalance Demo.s0 7).2 = 100 /\ uval (GetBalance s3 7).2 = 105
  | None => False
  end.
Proof. vm_compute. split; reflexivity. Qed.

(** Reverting the destruction of an account created in this block leaves it
    marked as not created, so its storage is read from the database. *)
Theorem selfdestruct_revert_loses_created :
  let s := CreateAccount Demo.s0 9 true in
  let '(s1, id) := TakeSnapshot s in
  match RevertToSnapshot (Suicide s1 9).1 id with
  | Some s3 => uval (GetCommittedState s 9 1).2 = 0 /\ uval (GetCommittedState s3 9 1).2 = 5
  | None => False
  end.
Proof. vm_compute. split; reflexivity. Qed.
