(* ===== verification/StateCommit.v ===== *)
(** * StateCommit: finalising transactions and blocks

    [updateAccount], [FinalizeTx], [SoftFinalise], [MakeWriteSet], [CommitBlock]
    and [BalanceIncreaseSet] of [modules/state/intra_block_state.go], with
    [updateTrie] of [state_object.go].  The [StateWriter] interface is a
    function on an abstract writer state that may report an error; the maps are
    visited in any order. *)

From S2P Require Import Prelude Uint256 ChainConfig AccessList StateModel StateRevert StateJournal StateSnapshot.

Section Commit.
Context `{U : Uint256} `{E : @StateEnv U} `{M : MapRange}.
Implicit Types s t : IntraBlockState.
Implicit Types o : stateObject.

(** The calls of the [StateWriter] interface. *)
Inductive writeCall :=
| UpdateAccountData (a : Address) (orig account : StateAccount)
| UpdateAccountCode (a : Address) (incarnation : Z) (codeHash : Hash) (code : list Z)
| DeleteAccount (a : Address) (orig : StateAccount)
| WriteAccountStorage (a : Address) (incarnation : Z) (key : Hash) (orig value : u256)
| CreateContract (a : Address).

Context {W : Type}.
Variable write : writeCall -> W -> W * option error.

(** The loop of [updateTrie] over the dirty slots. *)
Fixpoint updateTrie_loop (o : stateObject) (w : W) (l : list (Hash * u256))
  : stateObject * W * option error :=
  match l with
  | [] => (o, w, None)
  | (key, value) :: l =>
      let orig := default uzero (blockOriginStorage o !! key) in
      let o := with_origin <[key := value]> id o in
      let '(w, err) :=
        write (WriteAccountStorage (address o) (Incarnation (data o)) key orig value) w in
      match err with
      | Some e => (o, w, Some e)
      | None => updateTrie_loop o w l
      end
  end.

Definition updateTrie (o : stateObject) (w : W) : stateObject * W * option error :=
  updateTrie_loop o w (range (dirtyStorage o)).

Definition updateAccount (EIP161Enabled isAura : bool) (w : W) (a : Address) (o : stateObject)
  (isDirty : bool) : stateObject * W * option error :=
  let emptyRemoval := EIP161Enabled && empty o && (negb isAura || negb (a =? SystemAddress)) in
  let '(o, w, err) :=
    if selfdestructed o || (isDirty && emptyRemoval) then
      let '(w, err) := write (DeleteAccount a (original o)) w in
      match err with
      | Some e => (o, w, Some e)
      | None => (with_deleted true o, w, None)
      end
    else (o, w, None) in
  match err with
  | Some e => (o, w, Some e)
  | None =>
      if isDirty && (created o || negb (selfdestructed o)) && negb emptyRemoval then
        let o := with_deleted false o in
        let '(w, err) :=
          match code o with
          | Some c =>
              if dirtyCode o
              then write (UpdateAccountCode a (Incarnation (data o)) (CodeHash (data o)) c) w
              else (w, None)
          | None => (w, None)
          end in
        match err with
        | Some e => (o, w, Some e)
        | None =>
            let '(w, err) := if created o then write (CreateContract a) w else (w, None) in
            match err with
            | Some e => (o, w, Some e)
            | None =>
                let '(o, w, err) := updateTrie o w in
                match err with
                | Some e => (o, w, Some e)
                | None =>
                    let '(w, err) := write (UpdateAccountData a (original o) (data o)) w in
                    (o, w, err)
                end
            end
        end
      else (o, w, None)
  end.

(** [for addr, bi := range sdb.balanceInc]: load every account with a pending
    increase. *)
Definition transferIncreases s : IntraBlockState :=
  foldl (fun s (ap : Address * nat) =>
           match biHeap s !! ap.2 with
           | Some bi => if transferred bi then s else (getStateObject s ap.1).1
           | None => s
           end) s (range (balanceInc s)).

Fixpoint finalize_loop (rules : Rules.Rules) s (w : W) (l : list (Address * Z))
  : IntraBlockState * W * option error :=
  match l with
  | [] => (s, w, None)
  | (a, _) :: l =>
      match stateObjects s !! a with
      | None => finalize_loop rules s w l
      | Some so =>
          let '(so, w, err) := updateAccount (Rules.IsSpuriousDragon rules) (Rules.IsAura rules) w a so true in
          let s := set_stateObjects (<[a := so]> (stateObjects s)) s in
          match err with
          | Some e => (s, w, Some e)
          | None => finalize_loop rules (set_stateObjectsDirty ({[ a ]} ∪ stateObjectsDirty s) s) w l
          end
      end
  end.

Definition FinalizeTx (rules : Rules.Rules) s (w : W) : IntraBlockState * W * option error :=
  let s := transferIncreases s in
  let '(s, w, err) := finalize_loop rules s w (range (dirties (jrnl s))) in
  match err with
  | Some e => (s, w, Some e)
  | None => (clearJournalAndRefund s, w, None)
  end.

Definition SoftFinalise s : IntraBlockState :=
  let s := foldl (fun s (ac : Address * Z) =>
                    match stateObjects s !! ac.1 with
                    | None => s
                    | Some _ => set_stateObjectsDirty ({[ ac.1 ]} ∪ stateObjectsDirty s) s
                    end) s (range (dirties (jrnl s))) in
  clearJournalAndRefund s.

Fixpoint writeset_loop (rules : Rules.Rules) s (w : W) (l : list (Address * stateObject))
  : IntraBlockState * W * option error :=
  match l with
  | [] => (s, w, None)
  | (a, so) :: l =>
      let isDirty := bool_decide (a ∈ stateObjectsDirty s) in
      let '(so, w, err) := updateAccount (Rules.IsSpuriousDragon rules) (Rules.IsAura rules) w a so isDirty in
      let s := set_stateObjects (<[a := so]> (stateObjects s)) s in
      match err with
      | Some e => (s, w, Some e)
      | None => writeset_loop rules s w l
      end
  end.

Definition MakeWriteSet (rules : Rules.Rules) s (w : W) : IntraBlockState * W * option error :=
  let s := foldl (fun s (ac : Address * Z) =>
                    set_stateObjectsDirty ({[ ac.1 ]} ∪ stateObjectsDirty s) s)
             s (range (dirties (jrnl s))) in
  let '(s, w, err) := writeset_loop rules s w (range (stateObjects s)) in
  match err with
  | Some e => (s, w, Some e)
  | None => (clearJournalAndRefund s, w, None)
  end.

Definition CommitBlock (rules : Rules.Rules) s (w : W) : IntraBlockState * W * option error :=
  MakeWriteSet rules (transferIncreases s) w.

Definition BalanceIncreaseSet s : gmap Address u256 :=
  foldl (fun m (ap : Address * nat) =>
           match biHeap s !! ap.2 with
           | Some bi => if transferred bi then m else <[ap.1 := increase bi]> m
           | None => m
           end) ∅ (range (balanceInc s)).

(** ** Storage of a finalised account *)

(** The dirty slots become the original ones; nothing else changes. *)
Definition promoted (o o' : stateObject) (l : list (Hash * u256)) : Prop :=
  o' = with_origin (fun m => foldl (fun m kv => <[kv.1 := kv.2]> m) m l) id o.

Lemma updateTrie_loop_ok l o w o' w' :
  updateTrie_loop o w l = (o', w', None) -> promoted o o' l.
Proof.
  revert o w. induction l as [|[k v] l IH]; intros o w; cbn.
  - intros [= <- <-]. unfold promoted. by destruct o.
  - destruct (write _ w) as [w1 [e|]]; [done|]. intros H%IH. unfold promoted in *.
    by rewrite H.
Qed.

Lemma foldl_insert_lookup (l : list (Hash * u256)) (m : gmap Hash u256) k :
  NoDup l.*1 ->
  foldl (fun m kv => <[kv.1 := kv.2]> m) m l !! k =
  match (list_to_map l : gmap Hash u256) !! k with Some v => Some v | None => m !! k end.
Proof.
  revert m. induction l as [|[k' v] l IH]; intros m Hnd; cbn; [done|]. inv Hnd.
  rewrite IH by done. rewrite !lookup_insert. case_decide as Hk; [subst|done].
  by rewrite (not_elem_of_list_to_map_1 (M := gmap Hash) l k).
Qed.

Lemma range_list_to_map (m : gmap Hash u256) : (list_to_map (range m) : gmap Hash u256) = m.
Proof.
  rewrite (list_to_map_proper (range m) (map_to_list m)); [apply list_to_map_to_list| |apply range_perm].
  apply NoDup_range_fst.
Qed.

Lemma updateTrie_lookup o w o' w' k :
  updateTrie o w = (o', w', None) ->
  originStorage o' !! k = match dirtyStorage o !! k with Some v => Some v | None => originStorage o !! k end.
Proof.
  intros ->%updateTrie_loop_ok. cbn.
  rewrite foldl_insert_lookup by apply NoDup_range_fst. by rewrite range_list_to_map.
Qed.

(** What a successful update of a dirty, surviving account leaves. *)
Lemma updateAccount_survives eip aura w a o o' w' :
  selfdestructed o = false ->
  eip && empty o && (negb aura || negb (a =? SystemAddress)) = false ->
  updateAccount eip aura w a o true = (o', w', None) ->
  exists w1 w2, updateTrie (with_deleted false o) w1 = (o', w2, None).
Proof.
  intros Hs He. unfold updateAccount. rewrite He, Hs. cbn. rewrite Hs, orb_true_r. cbn.
  repeat (case_match; simplify_eq; try done); intros; simplify_eq; eauto.
Qed.

Lemma updateTrie_fields o w o' w' :
  updateTrie o w = (o', w', None) ->
  address o' = address o /\ data o' = data o /\ dirtyStorage o' = dirtyStorage o /\
  fakeStorage o' = fakeStorage o /\ created o' = created o /\ deleted o' = deleted o.
Proof. by intros ->%updateTrie_loop_ok. Qed.

(** ** Objects keep their identity through [updateAccount] *)

Definition keeps (o o' : stateObject) : Prop := address o' = address o /\ data o' = data o.

Lemma updateTrie_loop_keeps l o w : keeps o (updateTrie_loop o w l).1.1.
Proof.
  revert o w. induction l as [|[k v] l IH]; intros o w; cbn; [done|].
  destruct (write _ w) as [w1 [e|]]; [done|]. apply (IH (with_origin <[k := v]> id o)).
Qed.

Lemma updateAccount_keeps eip aura w a o d : keeps o (updateAccount eip aura w a o d).1.1.
Proof.
  unfold updateAccount. set (er := eip && empty o && _).
  set (r1 := if selfdestructed o || _ then _ else _).
  assert (keeps o r1.1.1) as H1.
  { subst r1. case_match; [|done]. destruct (write _ w) as [w1 [e|]]; done. }
  destruct r1 as [[o1 w1] [e|]]; cbn in *; [done|].
  case_match; [|done].
  destruct (match code o1 with
            | Some c => if dirtyCode o1
                then write (UpdateAccountCode a (Incarnation (data o1)) (CodeHash (data o1)) c) w1
                else (w1, None)
            | None => (w1, None) end) as [w2 [e|]]; [done|].
  destruct (if created o1 then write (CreateContract a) w2 else (w2, None)) as [w3 [e|]]; [done|].
  pose proof (updateTrie_loop_keeps (range (dirtyStorage (with_deleted false o1))) (with_deleted false o1) w3) as H2.
  unfold updateTrie. destruct (updateTrie_loop _ w3 _) as [[o4 w4] [e|]]; cbn in *.
  - destruct H1, H2; cbn in *. split; congruence.
  - destruct (write _ w4) as [w5 e]. destruct H1, H2; cbn in *. split; congruence.
Qed.

(** ** The invariant between operations, increases included *)

Record WInv s : Prop := {
  wi_live : forall a o, stateObjects s !! a = Some o -> address o = a /\ Initialised (data o) = true;
  wi_nil : nil_ok s;
  wi_accList : AccessList.wf (accList s);
  wi_logSize : in_u64 (logSize s);
  wi_inj : forall a b p, balanceInc s !! a = Some p -> balanceInc s !! b = Some p -> a = b;
  wi_bound : forall a p, balanceInc s !! a = Some p -> (p < length (biHeap s))%nat;
  wi_pending : forall a, is_Some (pending s a) -> stateObjects s !! a = None;
  wi_open : forall a, stateObjects s !! a = None -> is_Some (balanceInc s !! a) -> is_Some (pending s a)
}.

(** The balance the database holds for [a]. *)
Definition stored_balance s (a : Address) : u256 :=
  match ReadAccountData (stateReader s) a with
  | (Some acc, None) => Balance (data (newObject a acc acc))
  | _ => uzero
  end.

(** [t] is [s] after moving the increase of [a] into its object. *)
Record moved s t (a : Address) (inc : u256) : Prop := {
  mv_inv : WInv t;
  mv_reader : stateReader t = stateReader s;
  mv_inc : balanceInc t = balanceInc s;
  mv_done : pending t a = None;
  mv_other : forall b, b <> a -> pending t b = pending s b;
  mv_object : exists o, stateObjects t !! a = Some o /\ Balance (data o) = uAdd (stored_balance s a) inc /\
    deleted o = false;
  mv_objects : forall b, b <> a -> stateObjects t !! b = stateObjects s !! b
}.

Lemma pending_balanceInc s a p bi :
  pending s a = Some (p, bi) ->
  balanceInc s !! a = Some p /\ biHeap s !! p = Some bi /\ transferred bi = false.
Proof.
  unfold pending, getBI. destruct (balanceInc s !! a) as [p'|]; cbn; [|done].
  destruct (biHeap s !! p') as [bi'|] eqn:Eb; cbn; [|done].
  destruct (transferred bi') eqn:Et; [done|]. intros; by simplify_eq.
Qed.

Lemma setStateObject_moved s s1 a p bi o :
  WInv s -> pending s a = Some (p, bi) ->
  stateReader s1 = stateReader s -> stateObjects s1 = stateObjects s -> balanceInc s1 = balanceInc s ->
  biHeap s1 = biHeap s -> nil_ok s1 -> accList s1 = accList s -> logSize s1 = logSize s ->
  address o = a -> Initialised (data o) = true -> Balance (data o) = stored_balance s a ->
  deleted o = false -> moved s (setStateObject s1 a o).1 a (increase bi).
Proof.
  intros WI Hp Hr Ho Hb Hh Hn Ha Hl Hoa Hoi Hob Hod.
  destruct (pending_balanceInc _ _ _ _ Hp) as (Hbp & Hhp & Ht).
  assert (pending s1 a = Some (p, bi)) as Hp1.
  { revert Hp. unfold pending, getBI. by rewrite Hb, Hh. }
  unfold setStateObject. rewrite Hp1. cbn.
  set (t := set_stateObjects _ _).
  assert (forall b, pending t b = if decide (b = a) then None else pending s b) as Hpt.
  { intros b. unfold pending, getBI. cbn. rewrite Hb, Hh.
    case_decide as Hba.
    - subst b. rewrite Hbp. cbn. rewrite list_lookup_alter_eq, Hhp. done.
    - destruct (balanceInc s !! b) as [q|] eqn:Eq; cbn; [|done].
      rewrite list_lookup_alter_ne; [done|]. intros ->. by apply Hba, (wi_inj _ WI b a q). }
  split; cbn; auto.
  - split; cbn; rewrite ?Ha, ?Hl, ?Hb, ?Ho; try apply WI.
    + intros b x. rewrite lookup_insert. case_decide; [|apply WI]. intros [= <-]. by subst.
    + done.
    + intros b q Hq. rewrite length_alter, Hh. by apply (wi_bound _ WI b).
    + intros b [x Hx]. rewrite Hpt in Hx. case_decide; [done|].
      rewrite lookup_insert_ne by done. apply (wi_pending _ WI). eauto.
    + intros b. rewrite lookup_insert, Hpt. case_decide; [done|]. rewrite decide_False by done.
      apply (wi_open _ WI).
  - rewrite Hpt. by rewrite decide_True.
  - intros b Hb'. rewrite Hpt. by rewrite decide_False.
  - eexists. split; [apply lookup_insert_eq|]. cbn. by rewrite Hob.
  - intros b Hb'. by rewrite lookup_insert_ne, Ho.
Qed.

(** Loading an account with a pending increase moves the increase. *)
Lemma getStateObject_moved s a p bi :
  WInv s -> pending s a = Some (p, bi) -> (ReadAccountData (stateReader s) a).2 = None ->
  moved s (getStateObject s a).1 a (increase bi).
Proof.
  intros WI Hp Hr. assert (stateObjects s !! a = None) as Hno by (apply (wi_pending _ WI); eauto).
  assert (forall s1, stateReader s1 = stateReader s -> stateObjects s1 = stateObjects s ->
    balanceInc s1 = balanceInc s -> biHeap s1 = biHeap s -> nil_ok s1 -> accList s1 = accList s ->
    logSize s1 = logSize s -> ReadAccountData (stateReader s) a = (None, None) ->
    moved s (match pending s1 a with
             | Some _ => let '(s, o) := createObject s1 a None in (s, Some o)
             | None => (s1, None)
             end).1 a (increase bi)) as Hcreate.
  { intros s1 H1 H2 H3 H4 H5 H6 H7 Hrd.
    replace (pending s1 a) with (pending s a) by (unfold pending, getBI; by rewrite H3, H4).
    rewrite Hp. unfold createObject.
    pose proof (setStateObject_moved s (append s1 (createObjectChange a)) a p bi
      (so_setNonce 0 (newObject a zeroAccount zeroAccount)) WI Hp) as Hm.
    destruct (setStateObject _ a _). cbn in *. apply Hm; auto.
    unfold stored_balance. by rewrite Hrd. }
  unfold getStateObject. rewrite Hno. case_decide as Hn.
  { apply Hcreate; auto; [apply WI|by apply (wi_nil _ WI)]. }
  destruct (ReadAccountData (stateReader s) a) as [[acc|] [e|]] eqn:Er; cbn in Hr; [done| |done|].
  - set (s1 := match snap s with
               | Some sn => if CanWrite sn then set_snap (Some (AddAccount sn a acc)) s else s
               | None => s end).
    assert (moved s (setStateObject s1 a (newObject a acc acc)).1 a (increase bi)) as Hm.
    { apply (setStateObject_moved s s1 a p); auto;
        try (subst s1; by repeat case_match).
      - subst s1. repeat case_match; apply WI.
      - apply newObject_live.
      - unfold stored_balance. by rewrite Er. }
    by destruct (setStateObject s1 a (newObject a acc acc)).
  - apply Hcreate; auto. cbn. intros b Hb.
    cbn in Hb. apply elem_of_union in Hb as [Hb|Hb]; [apply elem_of_singleton in Hb; by subst|by apply WI].
Qed.

(** [transferIncreases] settles every pending increase. *)
Record settled s t : Prop := {
  st_inv : WInv t;
  st_reader : stateReader t = stateReader s;
  st_none : forall a, pending t a = None;
  st_keep : forall a, pending s a = None -> stateObjects t !! a = stateObjects s !! a;
  st_moved : forall a p bi, pending s a = Some (p, bi) ->
    exists o, stateObjects t !! a = Some o /\ Balance (data o) = uAdd (stored_balance s a) (increase bi)
}.

Lemma transfer_loop l s :
  WInv s -> NoDup l.*1 ->
  (forall a p, (a, p) ∈ l -> balanceInc s !! a = Some p) ->
  (forall a, is_Some (pending s a) -> a ∈ l.*1) ->
  (forall a, is_Some (pending s a) -> (ReadAccountData (stateReader s) a).2 = None) ->
  settled s (foldl (fun s (ap : Address * nat) =>
           match biHeap s !! ap.2 with
           | Some bi => if transferred bi then s else (getStateObject s ap.1).1
           | None => s
           end) s l).
Proof.
  revert s. induction l as [|[a p] l IH]; intros s WI Hnd Hin Hpe Hrd; cbn [foldl].
  { assert (forall a, pending s a = None) as Hnone.
    { intros a. destruct (pending s a) eqn:Ep; [|done]. exfalso.
      apply (not_elem_of_nil a). apply Hpe. rewrite Ep. eauto. }
    split; auto. intros a p bi Hp. by rewrite Hnone in Hp. }
  inv Hnd. cbn [fst snd].
  assert (balanceInc s !! a = Some p) as Hap by (apply Hin; left).
  assert (pending s a = None \/ exists bi, pending s a = Some (p, bi)) as Hcase.
  { destruct (pending s a) as [[q bi]|] eqn:Ep; [right|by left].
    destruct (pending_balanceInc _ _ _ _ Ep) as (? & _). exists bi. by simplify_eq. }
  destruct Hcase as [Hnone|[bi Hp]].
  - assert ((match biHeap s !! p with
             | Some bi => if transferred bi then s else (getStateObject s a).1
             | None => s end) = s) as ->.
    { revert Hnone. unfold pending, getBI. rewrite Hap. cbn.
      destruct (biHeap s !! p) as [bi|]; cbn; [|done]. by destruct (transferred bi). }
    apply IH; auto; [intros; apply Hin; by right|].
    intros b Hb. destruct (proj1 (elem_of_cons _ _ _) (Hpe b Hb)) as [Hba|]; [|done].
    cbn in Hba. subst b. rewrite Hnone in Hb. by destruct Hb.
  - destruct (pending_balanceInc _ _ _ _ Hp) as (_ & Hbi & Ht). rewrite Hbi, Ht.
    pose proof (getStateObject_moved s a p bi WI Hp (Hrd a ltac:(rewrite Hp; eauto))) as Hm.
    set (s1 := (getStateObject s a).1) in *.
    assert (forall b, is_Some (pending s1 b) -> b <> a /\ is_Some (pending s b)) as Hs1.
    { intros b Hb. destruct (decide (b = a)) as [->|Hba];
        [rewrite (mv_done _ _ _ _ Hm) in Hb; by destruct Hb|].
      split; [done|]. by rewrite (mv_other _ _ _ _ Hm b Hba) in Hb. }
    destruct (IH s1) as [T1 T2 T3 T4 T5].
    + apply Hm.
    + done.
    + intros b q Hb. rewrite (mv_inc _ _ _ _ Hm). apply Hin. by right.
    + intros b Hb. destruct (Hs1 b Hb) as [Hba Hb'].
      by destruct (proj1 (elem_of_cons _ _ _) (Hpe b Hb')).
    + intros b Hb. rewrite (mv_reader _ _ _ _ Hm). by apply Hrd, Hs1.
    + split; auto; [by rewrite T2, (mv_reader _ _ _ _ Hm)| |].
      * intros b Hb. destruct (decide (b = a)) as [->|Hba]; [by rewrite Hp in Hb|].
        rewrite T4, (mv_objects _ _ _ _ Hm) by (done || by rewrite (mv_other _ _ _ _ Hm)). done.
      * intros b q bj Hb. destruct (decide (b = a)) as [->|Hba].
        -- rewrite Hp in Hb. simplify_eq. rewrite T4 by apply (mv_done _ _ _ _ Hm).
           destruct (mv_object _ _ _ _ Hm) as (o & ? & ? & _). by exists o.
        -- destruct (T5 b q bj) as (o & Ho & Hbal); [by rewrite (mv_other _ _ _ _ Hm)|].
           exists o. split; [done|]. rewrite Hbal. unfold stored_balance.
           by rewrite (mv_reader _ _ _ _ Hm).
Qed.

Lemma transferIncreases_settled s :
  WInv s -> (forall a, is_Some (pending s a) -> (ReadAccountData (stateReader s) a).2 = None) ->
  settled s (transferIncreases s).
Proof.
  intros WI Hr. apply transfer_loop; auto with n42.
  - intros a p. by rewrite elem_of_range.
  - intros a [[p bi] Hp]. destruct (pending_balanceInc _ _ _ _ Hp) as (Hb & _).
    apply list_elem_of_fmap. exists (a, p). split; [done|]. by apply elem_of_range.
Qed.

(** ** The loop of [FinalizeTx] *)

(** The objects keep address and account data; only the caches and the deleted
    flag change. *)
Record finalized s t : Prop := {
  fz_reader : stateReader t = stateReader s;
  fz_nil : nilAccounts t = nilAccounts s;
  fz_accList : accList t = accList s;
  fz_logSize : logSize t = logSize s;
  fz_inc : balanceInc t = balanceInc s;
  fz_heap : biHeap t = biHeap s;
  fz_objects : forall a, option_Forall2 keeps (stateObjects s !! a) (stateObjects t !! a);
  fz_dirty : stateObjectsDirty s ⊆ stateObjectsDirty t
}.

Lemma keeps_refl o : keeps o o.
Proof. done. Qed.

Lemma finalized_refl s : finalized s s.
Proof. split; auto. intros a. destruct (stateObjects s !! a); constructor. apply keeps_refl. Qed.

Lemma finalized_trans s t u : finalized s t -> finalized t u -> finalized s u.
Proof.
  intros [????? ? Hst Hd1] [????? ? Htu Hd2]. split; try congruence; [|by etrans].
  intros a. specialize (Hst a). specialize (Htu a).
  inv Hst; inv Htu; try congruence; constructor.
  replace y with x0 in * by congruence.
  match goal with H1 : keeps x _, H2 : keeps x0 _ |- _ => destruct H1, H2 end.
  split; congruence.
Qed.

Lemma finalized_put s a so d :
  stateObjects s !! a = Some so -> forall so', keeps so so' ->
  finalized s (set_stateObjectsDirty (d ∪ stateObjectsDirty s) (set_stateObjects (<[a := so']> (stateObjects s)) s)).
Proof.
  intros Hs so' Hk. split; cbn; auto; [|set_solver]. intros b. rewrite lookup_insert. case_decide as Hb.
  - subst b. rewrite Hs. by constructor.
  - destruct (stateObjects s !! b); constructor. apply keeps_refl.
Qed.

Hypothesis write_ok : forall c w, (write c w).2 = None.

Lemma updateTrie_loop_total l o w : (updateTrie_loop o w l).2 = None.
Proof.
  revert o w. induction l as [|[k v] l IH]; intros o w; cbn; [done|].
  pose proof (write_ok (WriteAccountStorage (address o) (Incarnation (data o)) k
    (default uzero (blockOriginStorage o !! k)) v) w).
  destruct (write _ w) as [w1 e]. cbn in *. subst. apply IH.
Qed.

Lemma updateAccount_total eip aura w a o d : (updateAccount eip aura w a o d).2 = None.
Proof.
  assert (forall c w w1 e, write c w = (w1, Some e) -> False) as Hw.
  { intros c w0 w1 e H. pose proof (write_ok c w0) as H'. by rewrite H in H'. }
  unfold updateAccount. repeat (case_match; simplify_eq/=; try done; try (by exfalso; eauto)).
  all: repeat match goal with
       | H : (if ?b then _ else _) = _ |- _ => destruct b; simplify_eq
       | H : match ?m with _ => _ end = _ |- _ => destruct m eqn:?; simplify_eq
       end; try (by exfalso; eauto).
  all: try (match goal with H : write ?c ?w = (_, ?e) |- _ =>
              pose proof (write_ok c w) as Hx; by rewrite H in Hx end).
  all: match goal with H : updateTrie ?o ?w = (_, _, Some _) |- _ =>
         pose proof (updateTrie_loop_total (range (dirtyStorage o)) o w) as Hx;
         unfold updateTrie in H; by rewrite H in Hx end.
Qed.

Lemma finalize_loop_total rules l s w :
  exists t w', finalize_loop rules s w l = (t, w', None) /\ finalized s t /\
    (forall a, a ∈ l.*1 -> is_Some (stateObjects s !! a) -> a ∈ stateObjectsDirty t).
Proof.
  revert s w. induction l as [|[a c] l IH]; intros s w; cbn.
  { exists s, w. split_and!; [done|apply finalized_refl|]. intros a Ha. by apply not_elem_of_nil in Ha. }
  destruct (stateObjects s !! a) as [so|] eqn:Eo.
  2: { destruct (IH s w) as (t & w' & ? & ? & Hd). exists t, w'. split_and!; auto.
       intros b [->|]%elem_of_cons Hb; [|by apply Hd]. rewrite Eo in Hb. by destruct Hb. }
  pose proof (updateAccount_keeps (Rules.IsSpuriousDragon rules) (Rules.IsAura rules) w a so true) as Hk.
  pose proof (updateAccount_total (Rules.IsSpuriousDragon rules) (Rules.IsAura rules) w a so true) as He.
  destruct (updateAccount _ _ w a so true) as [[so' w1] e]. cbn in *. subst e.
  set (s1 := set_stateObjectsDirty _ _).
  assert (finalized s s1) as F1 by (by apply (finalized_put s a so)).
  destruct (IH s1 w1) as (t & w' & Ht & F2 & Hd).
  exists t, w'. split_and!; [done|by eapply finalized_trans|].
  intros b Hb Hsome. apply elem_of_cons in Hb as [->|Hb].
  - apply (fz_dirty _ _ F2). subst s1. cbn. set_solver.
  - apply Hd; [done|]. pose proof (fz_objects _ _ F1 b) as Hf. inv Hf; [eauto|].
    match goal with H : None = stateObjects s !! b |- _ => rewrite <- H in Hsome end. by destruct Hsome.
Qed.

Lemma finalized_WInv s t : finalized s t -> WInv s -> WInv t.
Proof.
  intros F WI. assert (forall a, pending t a = pending s a) as Hp.
  { intros a. unfold pending, getBI. by rewrite (fz_inc _ _ F), (fz_heap _ _ F). }
  split.
  - intros a o Ho. pose proof (fz_objects _ _ F a) as Hf. rewrite Ho in Hf. inv Hf.
    match goal with H : keeps ?x o, H' : Some ?x = _ |- _ =>
      destruct H as [-> ->]; apply (wi_live _ WI); by symmetry in H' end.
  - intros a. rewrite (fz_nil _ _ F), (fz_reader _ _ F). apply WI.
  - rewrite (fz_accList _ _ F). apply WI.
  - rewrite (fz_logSize _ _ F). apply WI.
  - intros a b p. rewrite (fz_inc _ _ F). apply WI.
  - intros a p. rewrite (fz_inc _ _ F), (fz_heap _ _ F). apply WI.
  - intros a Ha. rewrite Hp in Ha. pose proof (fz_objects _ _ F a) as Hf.
    rewrite (wi_pending _ WI a Ha) in Hf. by inv Hf.
  - intros a Ha. rewrite (fz_inc _ _ F), Hp. apply (wi_open _ WI).
    pose proof (fz_objects _ _ F a) as Hf. rewrite Ha in Hf. by inv Hf.
Qed.

Lemma WInv_Inv s : WInv s -> (forall a, pending s a = None) -> Inv s.
Proof. intros [] Hp. split; auto. Qed.

Lemma Inv_cleared s : Inv s -> Inv (clearJournalAndRefund s).
Proof. intros []. split; auto. Qed.

Lemma cleared_ok s : revs_ok (clearJournalAndRefund s) /\ dirties_ok (clearJournalAndRefund s).
Proof. split; [split; constructor|]. intros a Ha. done. Qed.

End Commit.

(** ** A writer that records its calls *)

Section Recording.
Context `{U : Uint256} `{E : @StateEnv U} `{M : MapRange}.
Implicit Types o : stateObject.

Definition record_call (c : writeCall) (w : list writeCall) : list writeCall * option error :=
  (w ++ [c], None).

Definition storage_call o (kv : Hash * u256) : writeCall :=
  WriteAccountStorage (address o) (Incarnation (data o)) kv.1
    (default uzero (blockOriginStorage o !! kv.1)) kv.2.

Lemma updateTrie_loop_calls l o w :
  exists o', updateTrie_loop record_call o w l = (o', w ++ (storage_call o <$> l), None) /\
    original o' = original o /\ data o' = data o.
Proof.
  revert o w. induction l as [|[k v] l IH]; intros o w; cbn; [exists o; by rewrite app_nil_r|].
  destruct (IH (with_origin <[k := v]> id o)
    (w ++ [storage_call o (k, v)])) as (o' & Ho & H1 & H2).
  exists o'. split; [|done]. rewrite <- app_assoc in Ho. exact Ho.
Qed.

(** Removal of an empty account, as [updateAccount] decides it. *)
Definition removesEmpty (eip aura : bool) (a : Address) o : bool :=
  eip && empty o && (negb aura || negb (a =? SystemAddress)).

Definition delete_calls eip aura a o (isDirty : bool) : list writeCall :=
  if selfdestructed o || (isDirty && removesEmpty eip aura a o) then [DeleteAccount a (original o)] else [].

Definition code_calls a o : list writeCall :=
  match code o with
  | Some c => if dirtyCode o then [UpdateAccountCode a (Incarnation (data o)) (CodeHash (data o)) c] else []
  | None => []
  end.

Definition update_calls eip aura a o (isDirty : bool) (slots : list (Hash * u256)) : list writeCall :=
  if isDirty && (created o || negb (selfdestructed o)) && negb (removesEmpty eip aura a o) then
    code_calls a o ++ (if created o then [CreateContract a] else []) ++
    (storage_call o <$> slots) ++ [UpdateAccountData a (original o) (data o)]
  else [].

End Recording.


(** The storage of an account that survives [updateAccount] becomes its
    committed storage: every slot keeps its value, and the committed value of
    every slot is that value. *)
Theorem updateAccount_commits_storage `{U : Uint256} `{E : @StateEnv U} `{M : MapRange} {W}
  (write : writeCall -> W -> W * option error) eip aura w a o o' w' s k :
  selfdestructed o = false -> removesEmpty eip aura a o = false -> fakeStorage o = None ->
  updateAccount write eip aura w a o true = (o', w', None) ->
  stored s o' k = stored s o k /\ committed s o' k = stored s o k.
Proof.
  intros Hs He Hf Hu.
  destruct (updateAccount_survives write _ _ _ _ _ _ _ Hs He Hu) as (w1 & w2 & Ht).
  destruct (updateTrie_fields _ _ _ _ _ Ht) as (Ha & Hd & Hdi & Hfa & Hc & _).
  pose proof (updateTrie_lookup _ _ _ _ _ k Ht) as Ho. cbn in *.
  unfold stored, committed. rewrite Hfa, Hf, Hdi, Ho, Hc, Ha, Hd.
  by destruct (dirtyStorage o !! k).
Qed.

(** What reaches the state writer.  With a writer that records its calls,
    [updateAccount] issues exactly: the deletion of a destroyed or empty
    account; for a live dirty account its code if it changed, the contract
    creation, one storage write per dirty slot, in the order the map is
    visited, with the value the slot had at the start of the block, and the
    account data last. *)
Theorem updateAccount_calls `{U : Uint256} `{E : @StateEnv U} `{M : MapRange}
  eip aura w a o isDirty :
  (updateAccount record_call eip aura w a o isDirty).1.2 =
    w ++ delete_calls eip aura a o isDirty ++ update_calls eip aura a o isDirty (range (dirtyStorage o)) /\
  (updateAccount record_call eip aura w a o isDirty).2 = None.
Proof.
  split; [|by apply updateAccount_total].
  unfold updateAccount, delete_calls, update_calls, code_calls. fold (removesEmpty eip aura a o).
  destruct (selfdestructed o || isDirty && removesEmpty eip aura a o); cbn;
    (destruct (isDirty && _ && _); cbn; [|by rewrite ?app_nil_r]);
    destruct (code o), (dirtyCode o), (created o); cbn;
    match goal with |- context [updateTrie ?c ?x ?y] =>
      destruct (updateTrie_loop_calls (range (dirtyStorage x)) x y) as (? & Ht & Ho & Hd) end;
    unfold updateTrie; cbn in Ht |- *; rewrite Ht; cbn; rewrite Ho, Hd, <- ?app_assoc; done.
Qed.

#[local] Existing Instance Demo.demo_u256.
#[local] Existing Instance Demo.demo_env.

Module CommitDemo.

#[local] Existing Instance canonical_range.

(** An unread account of the demonstration database receives 5. *)
Definition s : IntraBlockState := AddBalance Demo.s0 7 (uSetUint64 5).

Lemma s_WInv : WInv s.
Proof.
  unfold s, AddBalance. rewrite bool_decide_false by (cbn; rewrite lookup_empty; by intros []).
  cbn. rewrite lookup_empty. split.
  - intros a o H. cbn in H. by rewrite lookup_empty in H.
  - intros a H. cbn in H. set_solver.
  - apply AccessList.wf_new.
  - unfold in_u64; cbn; lia.
  - intros a b p. cbn. rewrite !lookup_insert, !lookup_empty. repeat case_decide; congruence.
  - intros a p. cbn. rewrite lookup_insert, lookup_empty. case_decide; [|done]. intros [= <-]. lia.
  - intros a _. cbn. apply lookup_empty.
  - intros a _ [p Hp]. unfold pending, getBI. cbn in *. rewrite Hp. cbn.
    rewrite lookup_insert, lookup_empty in Hp. case_decide; simplify_eq. cbn. eauto.
Qed.

(** A contract with one dirty slot. *)
Definition contract : stateObject :=
  with_dirtyStorage <[1 := uSetUint64 9]> (newObject 9
    {| Initialised := true; Nonce := 1; Balance := uSetUint64 0; Root := 0; CodeHash := 0; Incarnation := 1 |}
    zeroAccount).

End CommitDemo.

#[local] Existing Instance canonical_range.


Lemma updateAccount_commits_storage_witness :
  let '(o', w', e) := updateAccount record_call true false [] 9 CommitDemo.contract true in
  length w' = 2%nat /\ uval (committed Demo.s0 o' 1) = 9.
Proof.
  assert (length (updateAccount record_call true false [] 9 CommitDemo.contract true).1.2 = 2%nat) as Hl
    by (vm_compute; reflexivity).
  pose proof (updateAccount_total record_call (fun _ _ => eq_refl) true false [] 9 CommitDemo.contract true) as He.
  destruct (updateAccount record_call true false [] 9 CommitDemo.contract true) as [[o' w'] e] eqn:Eu.
  cbn [snd] in He. subst e. split.
  - exact Hl.
  - rewrite (proj2 (updateAccount_commits_storage record_call true false [] 9 CommitDemo.contract
      o' w' Demo.s0 1 eq_refl ltac:(vm_compute; reflexivity) eq_refl Eu)).
    vm_compute. reflexivity.
Defined.

Lemma updateAccount_calls_witness :
  length (updateAccount record_call true false [] 9 CommitDemo.contract true).1.2 = 2%nat.
Proof.
  rewrite (proj1 (updateAccount_calls true false [] 9 CommitDemo.contract true)).
  vm_compute. reflexivity.
Defined.
