(* ===== verification/StateSound.v ===== *)
(** * StateSound: the journal can always be undone

    [StateSnapshot] shows what a revert restores under the discipline its runs
    keep.  Here the operations are free: whatever a virtual machine does to the
    state, the journal stays revertible, so that reverting to a valid revision
    never dereferences a missing object, log, slot or increase; on the way the
    state keeps its well-formedness [Good], in which code matches its hash. *)

From S2P Require Import Prelude Uint256 AccessList StateModel StateRevert StateSnapshot.

Section Sound.
Context `{U : Uint256} `{E : @StateEnv U}.
Implicit Types s t : IntraBlockState.

(** ** Well-formed states *)

Definition maxCode : Z := 2 ^ 62.

Definition codeOk (h : Hash) (c : list Z) : Prop := Keccak256Hash c = h /\ Z.of_nat (length c) < maxCode.

Definition objOk (o : stateObject) : Prop :=
  fakeStorage o = None /\ forall c, code o = Some c -> codeOk (CodeHash (data o)) c.

(** The database returns the code of a hash. *)
Definition codesOk (r : StateReader) : Prop := forall a inc h c err,
  ReadAccountCode r a inc h = (Some c, err) -> codeOk h c.

Record Good s : Prop := {
  gd_objects : forall a o, stateObjects s !! a = Some o -> address o = a /\ objOk o;
  gd_nil : nil_ok s;
  gd_heap : forall a p, balanceInc s !! a = Some p -> (p < length (biHeap s))%nat;
  gd_accList : AccessList.wf (accList s);
  gd_refund : in_u64 (refund s);
  gd_codes : codesOk (stateReader s)
}.

(** The account has an object, or gets one from the database. *)
Definition known s (a : Address) : Prop :=
  is_Some (stateObjects s !! a) \/ exists acc, ReadAccountData (stateReader s) a = (Some acc, None).

Definition logCount s (h : Hash) : nat := length (from_nil (logs s !! h)).

(** [t] has all that reverting what [s] can revert needs. *)
Record covers s t : Prop := {
  cv_reader : stateReader t = stateReader s;
  cv_known : forall a, known s a -> known t a;
  cv_accList : accList t = accList s;
  cv_logs : forall h, logCount t h = logCount s h
}.

Lemma covers_refl s : covers s s.
Proof. by split. Qed.

Lemma covers_trans s t u : covers s t -> covers t u -> covers s u.
Proof. intros [] []. split; [congruence|auto|congruence|]. intros h. congruence. Qed.

(** The address is in the access list. *)
Definition listed s (a : Address) : Prop := is_Some (AccessList.addresses (accList s) !! a).

(** ** Revertible journals *)

(** What must hold of an entry by itself, and the account it needs. *)
Definition entryOk (e : journalEntry) : Prop :=
  match e with
  | resetObjectChange a p => address p = a /\ objOk p
  | codeChange _ c h => forall c', c = Some c' -> codeOk h c'
  | fakeStorageChange _ _ _ => False
  | refundChange p => in_u64 p
  | _ => True
  end.

Definition needed (e : journalEntry) : option Address :=
  match e with
  | selfdestructChange a _ _ | balanceChange a _ | nonceChange a _ | codeChange a _ _ | storageChange a _ _ => Some a
  | _ => None
  end.

Definition needOk s (e : journalEntry) : Prop := forall a, needed e = Some a -> known s a.

(** The entries [k], newest first, can be reverted one after the other. *)
Fixpoint revertible (k : list journalEntry) s : Prop :=
  Good s /\
  match k with
  | [] => True
  | e :: k => entryOk e /\ needOk s e /\ exists s', revert_entry s e = Some s' /\ revertible k s'
  end.

Lemma revertible_Good k s : revertible k s -> Good s.
Proof. by destruct k; intros []. Qed.

(** ** Changes that need no entry *)

(** [t] differs from [s] in caches, objects and increases only. *)
Record mild s t : Prop := {
  mi_good : Good t;
  mi_covers : covers s t;
  mi_entries : entries (jrnl t) = entries (jrnl s);
  mi_revs : validRevisions t = validRevisions s;
  mi_next : nextRevisionID t = nextRevisionID s
}.

Lemma mild_refl s : Good s -> mild s s.
Proof. by split. Qed.

Lemma mild_trans s t u : mild s t -> mild t u -> mild s u.
Proof. intros [] []. split; [done|by eapply covers_trans|congruence..]. Qed.

Lemma Good_put s o : Good s -> objOk o -> Good (put s o).
Proof.
  intros [] Ho. split; cbn; auto. intros a x. rewrite lookup_insert. case_decide as Ha; [|auto].
  intros [= <-]. by subst.
Qed.

Lemma known_put s o a : known s a -> known (put s o) a.
Proof.
  intros [H|H]; [left|by right]. cbn. rewrite lookup_insert. by case_decide.
Qed.

Lemma mild_put s o : Good s -> objOk o -> mild s (put s o).
Proof. intros G Ho. split; try done; [by apply Good_put|]. split; try done. intros a. apply known_put. Qed.

(** A change of fields that matter neither to [Good] nor to [covers]. *)
Lemma mild_fields s t :
  Good s -> stateReader t = stateReader s -> stateObjects t = stateObjects s -> nilAccounts t = nilAccounts s ->
  balanceInc t = balanceInc s -> biHeap t = biHeap s -> accList t = accList s -> refund t = refund s ->
  logs t = logs s -> entries (jrnl t) = entries (jrnl s) -> validRevisions t = validRevisions s ->
  nextRevisionID t = nextRevisionID s -> mild s t.
Proof.
  intros [] H1 H2 H3 H4 H5 H6 H7 H8 H9 H10 H11. split; [| |done|done|done].
  - split; unfold nil_ok in *; by rewrite ?H1, ?H2, ?H3, ?H4, ?H5, ?H6, ?H7.
  - split; [done| |done|]; unfold known, logCount; intros; by rewrite ?H1, ?H2, ?H8.
Qed.

Lemma mild_setError s e : Good s -> mild s (setError s e).
Proof. intros G. unfold setError. case_match; [by apply mild_refl|]. by apply mild_fields. Qed.

Lemma mild_snap s sn : Good s -> mild s (set_snap sn s).
Proof. intros G. by apply mild_fields. Qed.

Lemma mild_nil s a : Good s -> ReadAccountData (stateReader s) a = (None, None) ->
  mild s (set_nilAccounts ({[ a ]} ∪ nilAccounts s) s).
Proof.
  intros [] Ha. split; try done. split; cbn; auto. intros b Hb. cbn in *.
  apply elem_of_union in Hb as [Hb|Hb]; [apply elem_of_singleton in Hb; by subst|by apply gd_nil0].
Qed.

(** Inserting an object. *)
Lemma mild_insert s a o : Good s -> address o = a -> objOk o -> mild s (set_stateObjects (<[a := o]> (stateObjects s)) s).
Proof. intros G <- Ho. by apply (mild_put s o). Qed.

(** Changing the increases. *)
Lemma mild_heap s h : Good s -> length h = length (biHeap s) -> mild s (set_biHeap h s).
Proof. intros [] Hl. split; try done. split; cbn; auto. intros a p Hp. rewrite Hl. by eapply gd_heap0. Qed.

(** ** Loading objects *)

(** [t] is [s] after changes of which some may have been journalled. *)
Record extends s t : Prop := {
  ex_good : Good t;
  ex_covers : covers s t;
  ex_entries : exists es, entries (jrnl t) = entries (jrnl s) ++ es;
  ex_revs : validRevisions t = validRevisions s;
  ex_next : nextRevisionID t = nextRevisionID s
}.

Lemma mild_extends s t : mild s t -> extends s t.
Proof. intros []. split; auto. exists []. by rewrite app_nil_r. Qed.

Lemma extends_trans s t u : extends s t -> extends t u -> extends s u.
Proof.
  intros [? ? [es1 H1] ? ?] [? ? [es2 H2] ? ?]. split; [done|by eapply covers_trans| |congruence..].
  exists (es1 ++ es2). by rewrite H2, H1, app_assoc.
Qed.

Lemma mild_append_fields s e : Good s -> Good (append s e) /\ covers s (append s e).
Proof. intros []. split; by split. Qed.

Lemma extends_append s e : Good s -> extends s (append s e).
Proof.
  intros G. destruct (mild_append_fields s e G). split; try done. exists [e]. cbn. unfold journal_append. by case_match.
Qed.

Lemma setStateObject_extends s a o : Good s -> address o = a -> objOk o ->
  extends s (setStateObject s a o).1 /\ objOk (setStateObject s a o).2 /\ address (setStateObject s a o).2 = a /\
  stateObjects (setStateObject s a o).1 !! a = Some (setStateObject s a o).2.
Proof.
  intros G Ha Ho. unfold setStateObject. destruct (pending s a) as [[p bi]|]; cbn.
  - set (s1 := set_biHeap _ s). assert (mild s s1) as M1.
    { apply mild_heap; [done|]. by rewrite length_alter. }
    set (s2 := append s1 (balanceIncreaseTransfer p)).
    assert (extends s1 s2) as M2 by apply extends_append, M1.
    split; [|split; [done|split; [done|by rewrite lookup_insert_eq]]].
    eapply extends_trans; [by apply mild_extends|]. eapply extends_trans; [exact M2|].
    apply mild_extends, (mild_insert s2); [apply M2|done|done].
  - split; [|by rewrite lookup_insert_eq]. by apply mild_extends, mild_insert.
Qed.

Lemma setStateObject_known s a o b : known (setStateObject s a o).1 b -> known s b \/ b = a.
Proof.
  unfold setStateObject, known. destruct (pending s a) as [[p bi]|]; cbn; rewrite lookup_insert; case_decide; auto.
Qed.

(** A known account is found without creating it. *)
Lemma getStateObject_known s a : Good s -> known s a ->
  exists o, (getStateObject s a).2 = Some o /\ address o = a /\ objOk o /\ extends s (getStateObject s a).1 /\
    forall b, known (getStateObject s a).1 b -> known s b.
Proof.
  intros G Hk. unfold getStateObject. destruct (stateObjects s !! a) as [o|] eqn:Eo.
  { exists o. destruct (gd_objects _ G a o Eo). split_and!; auto. by apply mild_extends, mild_refl. }
  assert (known s a) as Hka by done. destruct Hk as [Hk|[acc Hacc]]; [rewrite Eo in Hk; by destruct Hk|].
  destruct (decide (a ∈ nilAccounts s)) as [Hn|_]; [by rewrite (gd_nil _ G a Hn) in Hacc|].
  rewrite Hacc. set (s1 := match snap s with Some _ => _ | None => s end).
  assert (mild s s1) as M1.
  { subst s1. destruct (snap s); [case_match; [by apply mild_snap|]|]; by apply mild_refl. }
  assert (forall b, known s1 b -> known s b) as Hk1.
  { subst s1. intros b. by destruct (snap s); [case_match|]. }
  pose proof (setStateObject_known s1 a (newObject a acc acc)) as Hkn.
  pose proof (setStateObject_extends s1 a (newObject a acc acc) (mi_good _ _ M1) eq_refl) as Hs.
  destruct (setStateObject s1 a _) as [s2 o]. cbn in *. destruct Hs as (X & Ho & Ha & _); [done|].
  exists o. split_and!; auto; [eapply extends_trans; [by apply mild_extends|done]|].
  intros b Hb. destruct (Hkn b Hb) as [?| ->]; auto.
Qed.

(** ** One entry *)

Definition plain (e : journalEntry) : Prop :=
  match e with
  | createObjectChange _ | addLogChange _ | accessListAddAccountChange _ | accessListAddSlotChange _ _ => False
  | _ => True
  end.

(** Entries that take nothing away can be reverted in every good state. *)
Record undone s (e : journalEntry) s' : Prop := {
  un_extends : extends s s';
  un_known : forall b, known s' b -> known s b \/ exists p, e = resetObjectChange b p;
  un_reset : forall b p, e = resetObjectChange b p -> known s' b
}.

Lemma undone_other s e s' : extends s s' -> (forall b, known s' b -> known s b) ->
  (forall b p, e <> resetObjectChange b p) -> undone s e s'.
Proof. intros X Hb Hne. split; auto. intros b p ->. by destruct (Hne b p). Qed.

(** The entries that write to an object. *)
Lemma on_object_undone s e a f :
  Good s -> known s a -> (forall b p, e <> resetObjectChange b p) ->
  (forall o, address o = a -> objOk o -> exists o', f o = Some o' /\ address o' = a /\ objOk o') ->
  exists s', (let '(s, so) := getStateObject s a in o ← so; o' ← f o; Some (put s o')) = Some s' /\ undone s e s'.
Proof.
  intros G Hk Hne Hf. destruct (getStateObject_known s a G Hk) as (o & Ho & Ha & Hok & X & Hb).
  destruct (getStateObject s a) as [t so]. cbn in *. subst so. cbn. destruct (Hf o Ha Hok) as (o' & -> & Ha' & Ho'). cbn.
  eexists. split; [done|]. apply undone_other; [|intros b|done].
  - eapply extends_trans; [exact X|]. apply mild_extends, mild_put; [apply X|done].
  - unfold known. cbn. rewrite Ha', lookup_insert. case_decide; [by subst|]. apply Hb.
Qed.

Lemma revert_plain s e : Good s -> plain e -> entryOk e -> needOk s e ->
  exists s', revert_entry s e = Some s' /\ undone s e s'.
Proof.
  intros G Hp He Hn. assert (extends s s) as Hself by by apply mild_extends, mild_refl.
  destruct e; try done; unfold needOk in Hn; cbn in Hn;
    try solve [apply on_object_undone; [done|by apply Hn|done|cbn; eauto]].
  - eexists. split; [done|]. destruct He as [Ha Ho]. destruct (setStateObject_extends s account prev G Ha Ho) as (X & _ & _ & Hx).
    split; [done| |].
    + intros b Hb. destruct (setStateObject_known _ _ _ _ Hb) as [?| ->]; eauto.
    + intros b p [= <- <-]. left. rewrite Hx. eauto.
  - destruct (on_object_undone s (selfdestructChange account prev prevbalance) account
      (fun o => Some (so_setBalance prevbalance (with_selfdestructed prev o)))) as (s' & Hs' & X); [done|by apply Hn|done|eauto|].
    cbn in *. exists s'. split; [|done]. destruct (getStateObject s account) as [t [o|]]; cbn in Hs'; [done|done].
  - cbn. destruct (balanceInc s !! account) as [q|] eqn:Eq; [|by exists s; split; [|apply undone_other]].
    destruct (lookup_lt_is_Some_2 (biHeap s) q) as [bi Hbi]; [by eapply gd_heap|]. rewrite Hbi. cbn.
    eexists. split; [done|]. set (h := <[q := _]> (biHeap s)).
    assert (mild s (set_biHeap h s)) as M by (apply mild_heap; [done|by subst h; rewrite length_insert]).
    case_match; (apply undone_other; [apply mild_extends|done|done]); [|done].
    eapply mild_trans; [exact M|]. destruct M as [[] _ _ _ _]. split; try done. split; cbn in *; auto.
    intros b r Hr. apply lookup_delete_Some in Hr as [_ Hr]. eauto.
  - eexists. split; [done|]. apply undone_other; [apply mild_extends, mild_heap; [done|by rewrite length_alter]|done|done].
  - apply on_object_undone; [done|by apply Hn|done|]. intros o Ha [Hf _]. eexists. split; [done|]. split; [done|].
    split; [done|]. intros c Hc. by apply He.
  - eexists. split; [done|]. apply undone_other; [|done|done]. apply mild_extends. destruct G. by split.
  - eexists. split; [done|]. by apply undone_other.
Qed.

(** ** Reverting in a state that covers another *)

Record booked s t : Prop := {
  bk_entries : exists es, entries (jrnl t) = entries (jrnl s) ++ es;
  bk_revs : validRevisions t = validRevisions s;
  bk_next : nextRevisionID t = nextRevisionID s;
  bk_reader : stateReader t = stateReader s
}.

Lemma extends_booked s t : extends s t -> booked s t.
Proof. intros []. split; auto. by apply cv_reader. Qed.

Lemma booked_same s t : jrnl t = jrnl s -> validRevisions t = validRevisions s -> nextRevisionID t = nextRevisionID s ->
  stateReader t = stateReader s -> booked s t.
Proof. intros H1 H2 H3 H4. split; auto. exists []. by rewrite H1, app_nil_r. Qed.

Lemma revert_log s h :
  match revert_entry s (addLogChange h) with
  | Some s' => (0 < logCount s h)%nat /\ exists L n, s' = set_logs L n s /\
      forall h', logCount s' h' = if decide (h' = h) then pred (logCount s h) else logCount s h'
  | None => logCount s h = 0%nat
  end.
Proof.
  cbn. unfold logCount. destruct (from_nil (logs s !! h)) as [|x [|y l]] eqn:El; [done| |].
  - split; [cbn; lia|]. do 2 eexists. split; [done|]. intros h'. cbn. rewrite lookup_delete.
    case_decide; [subst; by rewrite decide_True by done|]. by rewrite decide_False by congruence.
  - split; [cbn; lia|]. do 2 eexists. split; [done|]. intros h'. cbn [logs set_logs]. rewrite lookup_insert.
    case_decide; [subst; rewrite decide_True by done|by rewrite decide_False by congruence].
    cbn -[take]. rewrite length_take. cbn. lia.
Qed.

Lemma Good_logs s L n : Good s -> Good (set_logs L n s).
Proof. intros []. by split. Qed.

Lemma Good_accList s al : Good s -> AccessList.wf al -> Good (set_accList al s).
Proof. intros [] W. by split. Qed.

Lemma covers_revert s t e s' :
  Good s -> Good t -> covers s t -> entryOk e -> needOk s e -> revert_entry s e = Some s' -> Good s' ->
  exists t', revert_entry t e = Some t' /\ booked t t' /\ covers s' t' /\ Good t'.
Proof.
  intros Gs Gt C He Hn Hs Gs'. assert (needOk t e) as Hnt by (intros a Ha; by apply C, Hn).
  assert (plain e -> exists t', revert_entry t e = Some t' /\ booked t t' /\ covers s' t' /\ Good t') as Hplain.
  { intros Hp. destruct (revert_plain s e Gs Hp He Hn) as (s1 & Hs1 & [Xs Ks Rs]).
    assert (s1 = s') as -> by congruence. destruct (revert_plain t e Gt Hp He Hnt) as (t' & Ht & [Xt Kt Rt]).
    exists t'. split_and!; [done|by apply extends_booked| |apply Xt]. destruct Xs as [_ [] _ _ _], Xt as [_ [] _ _ _], C.
    split; [congruence| |congruence|intros h; congruence].
    intros a Ha. destruct (Ks a Ha) as [Hk|[p ->]]; [auto|by eapply Rt]. }
  destruct C as [Cr Ck Ca Cl]. destruct Gs' as [? ? ? Wal ? ?]. destruct e; try (by apply Hplain); cbn in Hs |- *.
  - injection Hs as <-. eexists. split; [done|]. split; [by apply booked_same|]. split.
    + split; [done| |done|done]. intros a. unfold known. cbn. rewrite !lookup_delete.
      case_decide; [intros [[? [=]]|Ha]; right; by rewrite Cr|apply Ck].
    + destruct Gt. split; cbn; auto. intros a o Ho. apply lookup_delete_Some in Ho as [_ Ho]. eauto.
  - pose proof (revert_log s txhash) as Ls. pose proof (revert_log t txhash) as Lt. cbn in Ls, Lt.
    rewrite Hs in Ls. destruct Ls as (Hpos & L & n & -> & Hcount). pose proof (Cl txhash) as Hc.
    match type of Lt with match ?r with _ => _ end => destruct r as [t'|]; [|lia] end.
    destruct Lt as (_ & L' & n' & -> & Hcount'). eexists. split; [done|]. split; [by apply booked_same|].
    split; [|by apply Good_logs]. split; [done|done|done|]. intros h. rewrite Hcount, Hcount'. case_decide; auto.
  - injection Hs as <-. eexists. split; [done|]. split; [by apply booked_same|]. rewrite Ca.
    split; [by split|by apply Good_accList].
  - rewrite Ca. destruct (AccessList.DeleteSlot (accList s) addr slot) as [al|]; [|done]. cbn in *. injection Hs as <-.
    eexists. split; [done|]. split; [by apply booked_same|]. split; [by split|by apply Good_accList].
Qed.

Lemma revert_listed s e s' a :
  Good s -> entryOk e -> needOk s e -> revert_entry s e = Some s' -> e <> accessListAddAccountChange a ->
  listed s a -> listed s' a.
Proof.
  intros G He Hn Hs Hne Ha. unfold listed in *.
  assert (plain e -> accList s' = accList s) as Hp.
  { intros Hp. destruct (revert_plain s e G Hp He Hn) as (s1 & Hs1 & [X _ _]). assert (s1 = s') as -> by congruence.
    apply (cv_accList _ _ (ex_covers _ _ X)). }
  destruct e; try (by rewrite Hp); cbn in Hs.
  - by simplify_eq.
  - by repeat case_match; simplify_eq.
  - simplify_eq. cbn. rewrite lookup_delete_ne; [done|congruence].
  - destruct (AccessList.DeleteSlot (accList s) addr slot) as [al|] eqn:Ed; [|done]. cbn in Hs. simplify_eq. cbn.
    unfold AccessList.DeleteSlot in Ed. destruct (AccessList.addresses (accList s) !! addr); [|done]. cbn in Ed.
    destruct (AccessList.index _ _); [|done]. cbn in Ed. case_decide; simplify_eq; cbn; [|done].
    rewrite lookup_insert. case_decide; eauto.
Qed.

Lemma revertible_covers k s t : revertible k s -> covers s t -> Good t -> revertible k t.
Proof.
  revert s t. induction k as [|e k IH]; intros s t [Gs Hk] C Gt; split; auto.
  destruct Hk as (He & Hn & s' & Hs & Hk). split; [done|]. split; [intros a Ha; by apply C, Hn|].
  destruct (covers_revert s t e s') as (t' & Ht & _ & C' & Gt'); auto; [by eapply revertible_Good|].
  exists t'. split; [done|]. by apply (IH s').
Qed.

(** ** Undoing a part of the journal *)

Lemma Good_jrnl s j : Good s -> Good (set_jrnl j s).
Proof. intros []. by split. Qed.

Lemma covers_jrnl s j : covers s (set_jrnl j s).
Proof. by split. Qed.

Lemma revert_loop_sound k2 k1 s pre rest :
  revertible (k2 ++ k1) s -> entries (jrnl s) = pre ++ reverse k2 ++ rest ->
  exists s', revert_loop s (length pre) (length k2) = Some s' /\ revertible k1 s' /\
    (exists rest', entries (jrnl s') = pre ++ rest') /\ validRevisions s' = validRevisions s /\
    nextRevisionID s' = nextRevisionID s /\ stateReader s' = stateReader s /\
    forall a, accessListAddAccountChange a ∉ k2 -> listed s a -> listed s' a.
Proof.
  revert s rest. induction k2 as [|e k2 IH]; intros s rest Hr Hj; [exists s; eauto 10|].
  destruct Hr as [G (He & Hn & s1 & Hs1 & Hr)]. pose proof (revertible_Good _ _ Hr) as G1.
  destruct (covers_revert s s e s1 G G (covers_refl s) He Hn Hs1 G1) as (s1' & Hs1' & [[es Hes] Hv Hx Hrd] & _).
  assert (s1' = s1) as -> by congruence. cbn [length revert_loop].
  rewrite reverse_cons, <- app_assoc in Hj. cbn in Hj.
  assert (entries (jrnl s) !! (length pre + length k2)%nat = Some e) as ->.
  { rewrite Hj, lookup_app_r by lia. replace (length pre + length k2 - length pre)%nat
      with (length (reverse k2)) by (rewrite length_reverse; lia).
    by rewrite lookup_app_r, Nat.sub_diag. }
  cbn. rewrite Hs1. cbn. set (s2 := set_jrnl (journal_undirty (jrnl s1) e) s1).
  destruct (IH s2 (e :: rest ++ es)) as (s' & Hs' & Hr' & Hp' & Hv' & Hn' & Hrd' & Hl').
  - eapply revertible_covers; [done|apply covers_jrnl|by apply Good_jrnl].
  - subst s2. cbn. rewrite undirty_entries, Hes, Hj. by rewrite <- !app_assoc.
  - exists s'. split_and!; auto; [by rewrite Hv'|by rewrite Hn'|by rewrite Hrd'|].
    intros a Ha Hs. rewrite not_elem_of_cons in Ha. apply Hl'; [apply Ha|]. eapply (revert_listed s e s1); eauto. naive_solver.
Qed.

Lemma journal_revert_sound k2 k1 s pre :
  revertible (k2 ++ k1) s -> entries (jrnl s) = pre ++ reverse k2 ->
  exists s', journal_revert s (length pre) = Some s' /\ revertible k1 s' /\ entries (jrnl s') = pre /\
    validRevisions s' = validRevisions s /\ nextRevisionID s' = nextRevisionID s /\ stateReader s' = stateReader s /\
    forall a, accessListAddAccountChange a ∉ k2 -> listed s a -> listed s' a.
Proof.
  intros Hr He. unfold journal_revert.
  replace (length (entries (jrnl s)) - length pre)%nat with (length k2)
    by (rewrite He, length_app, length_reverse; lia).
  destruct (revert_loop_sound k2 k1 s pre []) as (s' & -> & Hr' & [rest' He'] & Hv & Hn & Hrd & Hl); [done|by rewrite app_nil_r|].
  cbn. eexists. split; [done|]. split_and!; auto.
  - eapply revertible_covers; [done|apply covers_jrnl|]. apply Good_jrnl. by eapply revertible_Good.
  - cbn. by rewrite He', take_app_length.
Qed.

(** ** What operations do to the journal *)

Record grows s t : Prop := {
  gr_good : Good t;
  gr_reader : stateReader t = stateReader s;
  gr_known : forall a, known s a -> known t a;
  gr_journal : exists es, entries (jrnl t) = entries (jrnl s) ++ es /\
    (forall k, revertible k s -> revertible (reverse es ++ k) t) /\
    forall a, listed s a -> listed t a /\ accessListAddAccountChange a ∉ es;
  gr_revs : validRevisions t = validRevisions s;
  gr_next : nextRevisionID t = nextRevisionID s
}.

Lemma mild_grows s t : mild s t -> grows s t.
Proof.
  intros [G C He Hv Hn]. split; [done|apply C|apply C| |done|done]. exists []. split; [by rewrite app_nil_r|].
  split; [intros k Hk; by eapply revertible_covers|]. intros a Ha. split; [|set_solver]. unfold listed. by rewrite (cv_accList _ _ C).
Qed.

Lemma grows_refl s : Good s -> grows s s.
Proof. intros G. by apply mild_grows, mild_refl. Qed.

Lemma grows_trans s t u : grows s t -> grows t u -> grows s u.
Proof.
  intros [_ R1 K1 (es1 & E1 & H1 & L1) V1 N1] [G2 R2 K2 (es2 & E2 & H2 & L2) V2 N2].
  split; [done|congruence|auto| |congruence|congruence].
  exists (es1 ++ es2). split; [by rewrite E2, E1, app_assoc|]. split; [intros k Hk; rewrite reverse_app, <- app_assoc; auto|].
  intros a Ha. destruct (L1 a Ha) as [Hb ?]. destruct (L2 a Hb). split; [done|]. set_solver.
Qed.

(** One journalled change: reverting its entry covers the state before. *)
Lemma grows_one s t e t' :
  Good t -> stateReader t = stateReader s -> (forall a, known s a -> known t a) ->
  entries (jrnl t) = entries (jrnl s) ++ [e] -> validRevisions t = validRevisions s -> nextRevisionID t = nextRevisionID s ->
  entryOk e -> needOk t e -> revert_entry t e = Some t' -> covers s t' -> Good t' ->
  (forall a, listed s a -> listed t a /\ e <> accessListAddAccountChange a) -> grows s t.
Proof.
  intros G R K He V N Hok Hn Hr C G' L. split; auto. exists [e]. split; [done|]. split.
  - intros k Hk. cbn. split; [done|]. split; [done|]. split; [done|]. exists t'. split; [done|]. by eapply revertible_covers.
  - intros a Ha. destruct (L a Ha) as [? Hne]. split; [done|]. rewrite list_elem_of_singleton. congruence.
Qed.

Lemma append_plain s e : Good s -> plain e -> entryOk e -> needOk s e -> grows s (append s e).
Proof.
  intros G Hp He Hn. destruct (mild_append_fields s e G) as [G1 C1].
  destruct (revert_plain (append s e) e G1 Hp He Hn) as (s' & Hs' & [X _ _]).
  apply (grows_one s _ e s'); try done; [apply append_entries| |apply X|].
  - eapply covers_trans; [exact C1|apply X].
  - intros a Ha. split; [done|]. by intros ->.
Qed.

Lemma append_create s a : Good s -> stateObjects s !! a = None -> grows s (append s (createObjectChange a)).
Proof.
  intros G Ha. destruct (mild_append_fields s (createObjectChange a) G) as [G1 C1].
  eapply (grows_one s _ (createObjectChange a)); try done.
  - split; [done| |done|done]. intros b. unfold known. cbn. rewrite lookup_delete. case_decide; [|done].
    subst. rewrite Ha. intros [[? ?]|?]; [done|by right].
  - destruct G1. split; cbn; auto. intros b o Ho. apply lookup_delete_Some in Ho as [_ Ho]. by apply gd_objects0.
Qed.

Lemma setStateObject_grows s a o : Good s -> address o = a -> objOk o -> grows s (setStateObject s a o).1.
Proof.
  intros G Ha Ho. unfold setStateObject. destruct (pending s a) as [[p bi]|]; cbn.
  - set (s1 := set_biHeap _ s). assert (grows s s1) as M1.
    { apply mild_grows, mild_heap; [done|]. by rewrite length_alter. }
    set (s2 := append s1 (balanceIncreaseTransfer p)).
    assert (grows s1 s2) as M2 by (by apply append_plain; [apply M1|..]).
    eapply grows_trans; [exact M1|]. eapply grows_trans; [exact M2|].
    apply mild_grows, (mild_insert s2); [apply M2|done|done].
  - by apply mild_grows, mild_insert.
Qed.

Lemma createObject_grows s a p : Good s ->
  match p with Some o => address o = a /\ objOk o | None => stateObjects s !! a = None end ->
  grows s (createObject s a p).1 /\ address (createObject s a p).2 = a /\ objOk (createObject s a p).2 /\
  stateObjects (createObject s a p).1 !! a = Some (createObject s a p).2.
Proof.
  intros G Hp. unfold createObject. set (s1 := append s _). set (o := so_setNonce 0 _).
  assert (grows s s1) as M1.
  { subst s1. destruct p as [p|]; [|by apply append_create]. by apply append_plain. }
  destruct (setStateObject_extends s1 a o (gr_good _ _ M1)) as (_ & H1 & H2 & H3); [done|done|].
  split_and!; auto. eapply grows_trans; [exact M1|]. by apply setStateObject_grows; [apply M1|..].
Qed.

(** The object of [a] in [s]. *)
Definition objectOf s (a : Address) (o : stateObject) : Prop := stateObjects s !! a = Some o /\ address o = a /\ objOk o.

Lemma objectOf_known s a o : objectOf s a o -> known s a.
Proof. intros [H _]. left. eauto. Qed.

Lemma getStateObject_grows s a : Good s ->
  grows s (getStateObject s a).1 /\
  match (getStateObject s a).2 with
  | Some o => objectOf (getStateObject s a).1 a o
  | None => stateObjects (getStateObject s a).1 !! a = None
  end.
Proof.
  intros G. unfold getStateObject. destruct (stateObjects s !! a) as [o|] eqn:Eo.
  { split; [by apply grows_refl|]. by split; [|apply (gd_objects _ G)]. }
  assert (forall t, mild s t -> stateObjects t !! a = None ->
    let r := match pending t a with Some _ => let '(s, o) := createObject t a None in (s, Some o) | None => (t, None) end in
    grows s r.1 /\ match r.2 with Some o => objectOf r.1 a o | None => stateObjects r.1 !! a = None end) as Hcreate.
  { intros t M Ht. cbn. destruct (pending t a) as [?|]; [|by split; [apply mild_grows|]].
    pose proof (createObject_grows t a None (mi_good _ _ M) Ht) as Hc. destruct (createObject t a None) as [u o].
    cbn in *. destruct Hc as (X & H1 & H2 & H3). split; [|done]. eapply grows_trans; [by apply mild_grows|done]. }
  destruct (decide (a ∈ nilAccounts s)); [apply (Hcreate s); [by apply mild_refl|done]|].
  destruct (ReadAccountData (stateReader s) a) as [[acc|] [e|]] eqn:Er.
  - cbn. split; [by apply mild_grows, mild_setError|]. unfold setError. by case_match.
  - set (s1 := match snap s with Some _ => _ | None => s end).
    assert (mild s s1) as M1.
    { subst s1. destruct (snap s); [case_match; [by apply mild_snap|]|]; by apply mild_refl. }
    destruct (setStateObject_extends s1 a (newObject a acc acc) (mi_good _ _ M1) eq_refl) as (_ & H1 & H2 & H3); [done|].
    pose proof (setStateObject_grows s1 a (newObject a acc acc) (mi_good _ _ M1) eq_refl) as Hg.
    destruct (setStateObject s1 a _) as [u o]. cbn in *. split; [|done].
    eapply grows_trans; [by apply mild_grows|by apply Hg].
  - cbn. split; [by apply mild_grows, mild_setError|]. unfold setError. by case_match.
  - apply (Hcreate (set_nilAccounts _ s)); [by apply mild_nil|done].
Qed.

Lemma GetOrNewStateObject_grows s a : Good s ->
  grows s (GetOrNewStateObject s a).1 /\ objectOf (GetOrNewStateObject s a).1 a (GetOrNewStateObject s a).2.
Proof.
  intros G. unfold GetOrNewStateObject. destruct (getStateObject_grows s a G) as [X H].
  destruct (getStateObject s a) as [t [o|]]; cbn in *.
  - destruct (deleted o); [|done]. destruct H as (H1 & H2 & H3).
    destruct (createObject_grows t a (Some o) (gr_good _ _ X)) as (Y & Y1 & Y2 & Y3); [done|].
    split; [by eapply grows_trans|done].
  - destruct (createObject_grows t a None (gr_good _ _ X)) as (Y & Y1 & Y2 & Y3); [done|].
    split; [by eapply grows_trans|done].
Qed.

(** ** The methods of an object *)

Lemma live_ok s o : Good s -> objOk o -> objOk (live s o) /\ address (live s o) = address o.
Proof.
  intros G Ho. unfold live. destruct (stateObjects s !! address o) eqn:Eo; [|done].
  by apply (gd_objects _ G) in Eo as [? ?].
Qed.

Lemma so_GetCommittedState_mild s o k : Good s -> objOk o -> mild s (so_GetCommittedState s o k).1.
Proof.
  intros G Ho. unfold so_GetCommittedState. destruct (Ho) as [Hf Hc]. rewrite Hf.
  assert (forall t v, mild s t -> mild s (put t (cache_origin k v o))) as Hput.
  { intros t v M. eapply mild_trans; [exact M|]. by apply mild_put; [apply M|]. }
  repeat case_match; simplify_eq; cbn;
    first [by apply mild_refl | by apply mild_setError | apply Hput; first [by apply mild_snap | by apply mild_refl]].
Qed.

Lemma so_GetState_mild s o k : Good s -> objOk o -> mild s (so_GetState s o k).1.
Proof.
  intros G Ho. unfold so_GetState. destruct (Ho) as [Hf Hc]. rewrite Hf.
  destruct (dirtyStorage o !! k); [by apply mild_refl|by apply so_GetCommittedState_mild].
Qed.

(** Code that is read matches its hash. *)
Lemma so_Code_mild s o : Good s -> objOk o ->
  mild s (so_Code s o).1 /\ forall c, (so_Code s o).2 = Some c -> codeOk (CodeHash (data o)) c.
Proof.
  intros G Ho. unfold so_Code. destruct (code o) as [c|] eqn:Ec.
  { split; [by apply mild_refl|]. intros c' [= <-]. by apply Ho. }
  destruct (_ =? _); [by split; [apply mild_refl|]|].
  destruct (ReadAccountCode _ _ _ _) as [c err] eqn:Er. cbn.
  assert (forall c', c = Some c' -> codeOk (CodeHash (data o)) c') as Hc.
  { intros c' ->. by eapply (gd_codes _ G). }
  split; [|done]. set (s1 := match err with Some e => setError s e | None => s end).
  assert (mild s s1) as M by (subst s1; destruct err; [by apply mild_setError|by apply mild_refl]).
  eapply mild_trans; [exact M|]. apply mild_put; [apply M|]. split; [apply Ho|done].
Qed.

(** Appending an entry for an object and writing to it. *)
Lemma write_grows s a e o : Good s -> known s a -> plain e -> entryOk e -> (forall b, needed e = Some b -> b = a) ->
  objOk o -> grows s (put (append s e) o).
Proof.
  intros G Hk Hp He Hn Ho. assert (grows s (append s e)) as X.
  { apply append_plain; auto. intros b Hb. by rewrite (Hn b Hb). }
  eapply grows_trans; [exact X|]. by apply mild_grows, mild_put; [apply X|].
Qed.

Lemma so_SetBalance_grows s a o v : Good s -> objectOf s a o -> grows s (so_SetBalance s o v).
Proof.
  intros G Ho. pose proof (objectOf_known _ _ _ Ho). destruct Ho as (_ & Ha & Ho).
  apply (write_grows s a); try done. intros b [= <-]. done.
Qed.

Lemma so_AddBalance_grows s a o v : Good s -> objectOf s a o -> grows s (so_AddBalance s o v).
Proof.
  intros G Ho. unfold so_AddBalance. case_match; [|by eapply so_SetBalance_grows].
  case_match; [|by apply grows_refl]. unfold touch. set (s1 := append s _).
  assert (grows s s1) as X by by apply append_plain.
  case_match; [|done]. eapply grows_trans; [exact X|]. apply mild_grows. by apply mild_fields; [apply X|..].
Qed.

Lemma so_SubBalance_grows s a o v : Good s -> objectOf s a o -> grows s (so_SubBalance s o v).
Proof. intros G Ho. unfold so_SubBalance. case_match; [by apply grows_refl|by eapply so_SetBalance_grows]. Qed.

Lemma so_SetNonce_grows s a o n : Good s -> objectOf s a o -> grows s (so_SetNonce s o n).
Proof.
  intros G Ho. pose proof (objectOf_known _ _ _ Ho). destruct Ho as (_ & Ha & Ho).
  apply (write_grows s a); try done. intros b [= <-]. done.
Qed.

Lemma so_SetState_grows s a o k v : Good s -> objectOf s a o -> grows s (so_SetState s o k v).
Proof.
  intros G Ho. pose proof (objectOf_known _ _ _ Ho) as Hk. destruct Ho as (_ & Ha & Ho). unfold so_SetState.
  destruct (Ho) as [-> _]. pose proof (so_GetState_mild s o k G Ho) as M. destruct (so_GetState s o k) as [t prev]. cbn in M.
  case_match; [by apply mild_grows|]. eapply grows_trans; [by apply mild_grows|].
  pose proof (mi_good _ _ M) as Gt. apply (write_grows t a); try done; [by apply M| |exact (proj1 (live_ok t o Gt Ho))].
  intros b [= <-]. done.
Qed.

Lemma so_SetCode_grows s a o c : Good s -> objectOf s a o -> (forall c', c = Some c' -> Z.of_nat (length c') < maxCode) ->
  grows s (so_SetCode s o (Keccak256Hash (from_nil c)) c).
Proof.
  intros G Ho Hlen. pose proof (objectOf_known _ _ _ Ho) as Hk. destruct Ho as (_ & Ha & Ho). unfold so_SetCode.
  destruct (so_Code_mild s o G Ho) as [M Hc]. destruct (so_Code s o) as [t prev]. cbn in M, Hc.
  eapply grows_trans; [by apply mild_grows|]. pose proof (mi_good _ _ M) as Gt.
  apply (write_grows t a); try done; [by apply M| |].
  - intros b [= <-]. done.
  - destruct (live_ok t o Gt Ho) as [[Hf _] _]. split; [done|]. intros c' [= ->]. split; [done|by apply Hlen].
Qed.

(** ** The operations *)

(** Code that is stored is not longer than memory can be. *)
Definition bounded (x : op) : Prop :=
  match x with OSetCode _ (Some c) => Z.of_nat (length c) < maxCode | _ => True end.

Lemma GetCode_grows s a : Good s -> grows s (GetCode s a).1.
Proof.
  intros G. unfold GetCode. destruct (getStateObject_grows s a G) as [X Ho].
  destruct (getStateObject s a) as [t [o|]]; cbn in *; [|done]. destruct (deleted o); cbn; [done|]. destruct Ho as (_ & _ & Ho).
  destruct (so_Code_mild t o (gr_good _ _ X) Ho) as [M _]. destruct (so_Code t o) as [u c]. cbn in *.
  eapply grows_trans; [exact X|]. eapply grows_trans; [by apply mild_grows|].
  repeat case_match; try (apply grows_refl, M). apply mild_grows. by apply mild_fields; [apply M|..].
Qed.

Lemma GetCodeSize_grows s a : Good s -> grows s (GetCodeSize s a).1.
Proof.
  intros G. unfold GetCodeSize. destruct (getStateObject_grows s a G) as [X Ho].
  destruct (getStateObject s a) as [t [o|]]; cbn in *; [|done]. destruct (deleted o); cbn; [done|].
  eapply grows_trans; [exact X|]. pose proof (gr_good _ _ X) as Gt.
  destruct (code o); [by apply grows_refl|]. destruct (ReadAccountCodeSize _ _ _ _) as [len err].
  set (u := match err with Some e => setError t e | None => t end).
  assert (mild t u) as M by (subst u; destruct err; [by apply mild_setError|by apply mild_refl]).
  destruct (codeMap u); [|by apply mild_grows]. destruct (0 <? len); [|by apply mild_grows].
  destruct (ReadAccountCode _ _ _ _). cbn. eapply grows_trans; [by apply mild_grows|].
  apply mild_grows. by apply mild_fields; [apply M|..].
Qed.

Lemma AddBalance_grows s a v : Good s -> grows s (AddBalance s a v).
Proof.
  intros G. unfold AddBalance. destruct (negb _).
  2: { destruct (GetOrNewStateObject_grows s a G) as [X Ho]. destruct (GetOrNewStateObject s a) as [t o]. cbn in *.
       eapply grows_trans; [exact X|]. eapply so_AddBalance_grows; [apply X|exact Ho]. }
  set (s1 := append s (balanceIncrease a v)). assert (grows s s1) as X by by apply append_plain.
  eapply grows_trans; [exact X|]. pose proof (gr_good _ _ X) as G1.
  destruct (balanceInc s1 !! a) as [p|] eqn:Ep; [by apply mild_grows, mild_heap; [|rewrite length_alter]|].
  set (s2 := set_balanceInc _ _ s1). assert (mild s1 s2) as M.
  { destruct G1. split; try done. split; cbn; auto. intros b p. rewrite length_app, lookup_insert. cbn.
    case_decide; [intros [= <-]; lia|]. intros Hp. specialize (gd_heap0 b p Hp). cbn in *. lia. }
  eapply grows_trans; [by apply mild_grows|]. apply mild_grows, mild_heap; [apply M|]. by rewrite length_alter.
Qed.

Lemma Suicide_grows s a : Good s -> grows s (Suicide s a).1.
Proof.
  intros G. unfold Suicide. destruct (getStateObject_grows s a G) as [X Ho].
  destruct (getStateObject s a) as [t [o|]]; cbn in *; [|done]. destruct (deleted o); cbn; [done|].
  eapply grows_trans; [exact X|]. pose proof (objectOf_known _ _ _ Ho). destruct Ho as (_ & Ha & Ho).
  apply (write_grows t a); try done; [apply X|]. intros b [= <-]. done.
Qed.

Lemma CreateAccount_grows s a b : Good s -> grows s (CreateAccount s a b).
Proof.
  intros G. unfold CreateAccount. destruct (getStateObject_grows s a G) as [X Hp].
  destruct (getStateObject s a) as [t previous]. cbn in *. set (prevInc := if b then _ else _).
  destruct (createObject_grows t a previous (gr_good _ _ X)) as (Y & Ha & Ho & _).
  { destruct previous; [apply Hp|done]. }
  destruct (createObject t a previous) as [u o]. cbn in *.
  eapply grows_trans; [exact X|]. eapply grows_trans; [exact Y|].
  apply mild_grows, mild_put; [apply Y|]. destruct previous, b; exact Ho.
Qed.

Lemma AddLog_grows s l : Good s -> grows s (AddLog s l).
Proof.
  intros G. unfold AddLog. set (s1 := append s (addLogChange (thash s))).
  destruct (mild_append_fields s (addLogChange (thash s)) G) as [G1 _]. set (t := set_logs _ _ s1).
  pose proof (revert_log t (thash s)) as Hr. assert (logCount t (thash s) = S (logCount s (thash s))) as Hc.
  { unfold logCount. cbn. rewrite lookup_insert_eq. cbn. rewrite length_app. cbn. lia. }
  destruct (revert_entry t (addLogChange (thash s))) as [t'|] eqn:Et; [|lia]. destruct Hr as (_ & L & n & -> & Hn).
  eapply (grows_one s t (addLogChange (thash s))); try done; [by apply Good_logs| |by apply Good_logs, Good_logs].
  split; try done. intros h. rewrite Hn. case_decide; [subst; rewrite Hc; done|].
  unfold logCount. cbn. by rewrite lookup_insert_ne by congruence.
Qed.

Lemma refund_grows s v : Good s -> in_u64 v -> grows s (set_refund v (append s (refundChange (refund s)))).
Proof.
  intros G Hv. assert (grows s (append s (refundChange (refund s)))) as X by (apply append_plain; try done; apply G).
  eapply grows_trans; [exact X|]. apply mild_grows. destruct (gr_good _ _ X). by split.
Qed.

Lemma SubRefund_grows s g : Good s -> grows s (SubRefund s g).
Proof.
  intros G. unfold SubRefund. pose proof (refund_grows s (refund s -u g) G (sub64_range _ _)) as X. cbn.
  case_match; [|done]. unfold setError. cbn. destruct (savedErr s) eqn:Ee; [done|].
  eapply grows_trans; [exact X|]. apply mild_grows. by apply mild_fields; [apply X|..].
Qed.

Lemma AddAddressToAccessList_grows s a : Good s -> grows s (AddAddressToAccessList s a).
Proof.
  intros G. unfold AddAddressToAccessList. pose proof (AccessList.wf_AddAddress (accList s) a (gd_accList _ G)) as Wal.
  destruct (AccessList.AddAddress (accList s) a) as [al added] eqn:Ea. cbn in Wal. destruct added.
  - assert (Good (append (set_accList al s) (accessListAddAccountChange a))) as G1.
    { apply Good_jrnl. by apply Good_accList. }
    set (t := append _ _) in *. apply (grows_one s t (accessListAddAccountChange a) (set_accList (accList s) t)); try done.
    + cbn. by rewrite (AccessList.DeleteAddress_AddAddress _ _ _ Ea).
    + apply Good_accList; [done|apply G].
    + unfold AccessList.AddAddress in Ea. destruct (AccessList.addresses (accList s) !! a) eqn:Eb; [done|].
      injection Ea as <-. intros b Hb. unfold listed in *. cbn. rewrite lookup_insert.
      case_decide; [subst; rewrite Eb in Hb; by destruct Hb|]. split; [done|congruence].
  - assert (al = accList s) as ->.
    { unfold AccessList.AddAddress in Ea. destruct (AccessList.addresses (accList s) !! a); congruence. }
    replace (set_accList (accList s) s) with s by by destruct s. by apply grows_refl.
Qed.

Lemma AddSlot_listed al a k al' fl b :
  AccessList.wf al -> AccessList.AddSlot al a k = Some (al', fl) -> a = b \/ is_Some (AccessList.addresses al !! b) ->
  is_Some (AccessList.addresses al' !! b).
Proof.
  intros Wal H Hb. destruct (AccessList.AddSlot_inv _ _ _ _ _ Wal H)
    as [(_ & Ha & ->)|(i & s & Ha & Hs & [(_ & _ & ->)|(_ & Hk & ->)])]; cbn.
  - rewrite lookup_insert. case_decide; [eauto|]. by destruct Hb.
  - destruct Hb as [<-|]; [rewrite Ha; eauto|done].
  - destruct Hb as [<-|]; [rewrite Ha; eauto|done].
Qed.

Lemma AddSlotToAccessList_grows s a k : Good s -> exists t, AddSlotToAccessList s a k = Some t /\ grows s t.
Proof.
  intros G. pose proof (gd_accList _ G) as Wal. unfold AddSlotToAccessList.
  destruct (AccessList.AddSlot_total (accList s) a k Wal) as [[al [am sm]] Ea]. rewrite Ea. cbn. eexists. split; [done|].
  pose proof (AccessList.wf_AddSlot _ _ _ _ _ Wal Ea) as W1. destruct sm.
  2: { destruct (AccessList.AddSlot_inv _ _ _ _ _ Wal Ea) as [([=] & _)|(i & sl & _ & _ & [([= ->] & _ & ->)|([=] & _)])].
       replace (set_accList (accList s) s) with s by by destruct s. by apply grows_refl. }
  pose proof (AccessList.DeleteSlot_AddSlot _ _ _ _ _ Wal Ea) as Hd.
  assert (Good (append (set_accList al s) (accessListAddSlotChange a k))) as G1 by (by apply Good_jrnl, Good_accList).
  destruct am.
  - pose proof (AccessList.AddSlot_absent _ _ _ _ _ Wal Ea) as Hn.
    assert (AccessList.AddAddress (accList s) a = ((AccessList.AddAddress (accList s) a).1, true)) as Hadd
      by (unfold AccessList.AddAddress; by rewrite Hn).
    pose proof (AddAddressToAccessList_grows s a G) as X. unfold AddAddressToAccessList in X. rewrite Hadd in X.
    set (s1 := append (set_accList _ s) _) in X. eapply grows_trans; [exact X|].
    set (t := append (append _ _) _). apply (grows_one s1 t (accessListAddSlotChange a k) (set_accList (accList s1) t)); try done.
    + by apply Good_jrnl, Good_jrnl, Good_accList.
    + cbn. by rewrite Hd.
    + apply Good_accList; [by apply Good_jrnl, Good_jrnl, Good_accList|apply X].
    + intros b Hb. split; [|done]. eapply AddSlot_listed; [exact Wal|exact Ea|]. unfold listed in *. cbn in Hb |- *.
      unfold AccessList.AddAddress in Hb. rewrite Hn in Hb. cbn in Hb. rewrite lookup_insert in Hb. case_decide; auto.
  - set (t := append _ _). apply (grows_one s t (accessListAddSlotChange a k) (set_accList (accList s) t)); try done.
    + cbn. by rewrite Hd.
    + by apply Good_accList.
    + intros b Hb. split; [|done]. eapply AddSlot_listed; [exact Wal|exact Ea|by right].
Qed.

(** Every operation runs, and the journal stays revertible. *)
Lemma exec_grows s x : Good s -> bounded x -> exists t, exec s x = Some t /\ grows s t.
Proof.
  intros G Hb.
  assert (forall a f, (forall t o, Good t -> objectOf t a o -> grows t (f t o)) ->
    grows s (let '(t, o) := GetOrNewStateObject s a in f t o)) as Hw.
  { intros a f Hf. destruct (GetOrNewStateObject_grows s a G) as [X Ho]. destruct (GetOrNewStateObject s a) as [t o].
    eapply grows_trans; [exact X|]. apply Hf; [apply X|done]. }
  assert (forall a, grows s (getStateObject s a).1) as Hr by (intros a; by apply getStateObject_grows).
  destruct x; cbn; try (eexists; split; [done|]);
    try (solve [unfold Exist, Empty, GetBalance, GetNonce, GetCodeHash, HasSuicided; specialize (Hr a);
                by destruct (getStateObject s a)]).
  - by apply GetCode_grows.
  - by apply GetCodeSize_grows.
  - unfold GetState. pose proof (Hr a) as X. destruct (getStateObject_grows s a G) as [_ Ho].
    destruct (getStateObject s a) as [t [o|]]; cbn in *; [|done]. destruct (deleted o); cbn; [done|].
    eapply grows_trans; [exact X|]. apply mild_grows, so_GetState_mild; [apply X|apply Ho].
  - unfold GetCommittedState. pose proof (Hr a) as X. destruct (getStateObject_grows s a G) as [_ Ho].
    destruct (getStateObject s a) as [t [o|]]; cbn in *; [|done]. destruct (deleted o); cbn; [done|].
    eapply grows_trans; [exact X|]. apply mild_grows, so_GetCommittedState_mild; [apply X|apply Ho].
  - by apply AddBalance_grows.
  - apply Hw. intros. by eapply so_SubBalance_grows.
  - apply Hw. intros. by eapply so_SetBalance_grows.
  - apply Hw. intros. by eapply so_SetNonce_grows.
  - apply (Hw a (fun t o => so_SetCode t o (Keccak256Hash (from_nil c)) c)). intros. eapply so_SetCode_grows; [done|done|].
    by intros c' ->.
  - apply (Hw a (fun t o => so_SetState t o k v)). intros. by eapply so_SetState_grows.
  - by apply Suicide_grows.
  - by apply CreateAccount_grows.
  - by apply AddLog_grows.
  - apply refund_grows; [done|apply add64_range].
  - by apply SubRefund_grows.
  - by apply AddAddressToAccessList_grows.
  - by apply AddSlotToAccessList_grows.
Qed.

(** ** Runs *)

(** One step of a machine: an operation, a snapshot, or a revert to a revision
    not older than [base]. *)
Inductive free (base : Z) : IntraBlockState -> IntraBlockState -> Prop :=
| free_op s x s' : bounded x -> exec s x = Some s' -> free base s s'
| free_snapshot s : free base s (TakeSnapshot s).1
| free_revert s id s' : base <= id -> RevertToSnapshot s id = Some s' -> free base s s'.

(** The journal can be undone down to its start, and the revisions are marks
    on it. *)
Record sound s : Prop := {
  sd_journal : revertible (reverse (entries (jrnl s))) s;
  sd_revs : revs_ok s;
  sd_marks : Forall (fun r => r.2 <= length (entries (jrnl s)))%nat (validRevisions s);
  sd_mono : StronglySorted (fun x y => x.2 <= y.2)%nat (validRevisions s)
}.

Lemma sound_Good s : sound s -> Good s.
Proof. intros []. by eapply revertible_Good. Qed.

Lemma grows_sound s t : sound s -> grows s t -> sound t.
Proof.
  intros [Hj Hr Hm Ho] [G R K (es & He & Hk & _) Hv Hn]. split.
  - rewrite He, reverse_app. by apply Hk.
  - destruct Hr. split; by rewrite ?Hv, ?Hn.
  - rewrite Hv, He. eapply Forall_impl; [exact Hm|]. intros r Hr'. cbn in *. rewrite length_app. lia.
  - by rewrite Hv.
Qed.

Lemma Good_revisions s v n : Good s -> Good (set_revisions v n s).
Proof. intros []. by split. Qed.

Lemma revertible_revisions k s v n : revertible k s -> revertible k (set_revisions v n s).
Proof. intros Hk. eapply revertible_covers; [exact Hk|by split|]. apply Good_revisions. by eapply revertible_Good. Qed.

Lemma snapshot_sound s : sound s -> sound (TakeSnapshot s).1.
Proof.
  intros [Hj Hr Hm Ho]. split; cbn.
  - by apply revertible_revisions.
  - by apply revs_ok_push.
  - apply Forall_app. split; [done|]. by apply Forall_singleton.
  - apply StronglySorted_snoc; [done|]. done.
Qed.

(** A valid revision can be reverted to. *)
Lemma revert_sound s i id j : sound s -> validRevisions s !! i = Some (id, j) ->
  exists s', RevertToSnapshot s id = Some s' /\ sound s' /\ validRevisions s' = take i (validRevisions s) /\
    nextRevisionID s' = nextRevisionID s /\ stateReader s' = stateReader s /\ entries (jrnl s') = take j (entries (jrnl s)) /\
    forall a, accessListAddAccountChange a ∉ drop j (entries (jrnl s)) -> listed s a -> listed s' a.
Proof.
  intros [Hj Hr Hm Ho] Hi. pose proof (Forall_lookup_1 _ _ _ _ Hm Hi) as Hle. cbn in Hle.
  destruct (journal_revert_sound (reverse (drop j (entries (jrnl s)))) (reverse (take j (entries (jrnl s)))) s
    (take j (entries (jrnl s)))) as (s1 & Hs1 & Hk & He & Hv & Hn & Hrd & Hl).
  { by rewrite <- reverse_app, take_drop. }
  { by rewrite reverse_involutive, take_drop. }
  rewrite length_take_le in Hs1 by done. unfold RevertToSnapshot.
  rewrite (search_revision _ _ _ _ (ro_sorted _ Hr) Hi), Hi. cbn. rewrite Z.eqb_refl. cbn. rewrite Hs1. cbn.
  eexists. split; [done|]. cbn. rewrite Hv. split; [|split_and!; try done; intros a Ha; apply Hl; by rewrite elem_of_reverse].
  split; cbn; rewrite ?Hv, ?He.
  - by apply revertible_revisions.
  - rewrite <- Hv. by apply (revs_ok_take s).
  - rewrite length_take_le by done. apply Forall_lookup. intros x r Hx. apply lookup_take_Some in Hx as [Hx Hxi].
    exact (StronglySorted_lookup _ _ _ _ _ _ Ho Hx Hi Hxi).
  - by apply StronglySorted_take.
Qed.

(** What a run from [s] that only reverts to revisions from [base] on leaves
    alone: the revisions and the journal so far, and the addresses that are in
    the access list. *)
Record within (base : Z) s t : Prop := {
  wi_sound : sound t;
  wi_prefix : forall i r, validRevisions s !! i = Some r -> r.1 < base -> validRevisions t !! i = Some r;
  wi_marks : Forall (fun r => base <= r.1 -> (length (entries (jrnl s)) <= r.2)%nat) (validRevisions t);
  wi_next : nextRevisionID s <= nextRevisionID t;
  wi_reader : stateReader t = stateReader s;
  wi_journal : exists es, entries (jrnl t) = entries (jrnl s) ++ es /\
    forall a, listed s a -> listed t a /\ accessListAddAccountChange a ∉ es
}.

Lemma within_start s : sound s -> within (nextRevisionID s) s s.
Proof.
  intros S. split; try done; [|exists []; split; [by rewrite app_nil_r|intros; split; [done|set_solver]]].
  eapply Forall_impl; [apply (ro_next _ (sd_revs _ S))|]. intros r Hr. cbn in *. lia.
Qed.

Lemma within_op base s t u : within base s t -> grows t u -> within base s u.
Proof.
  intros [S Hp Hm Hn Hr (es & He & Hl)] X. destruct (gr_journal _ _ X) as (es' & He' & _ & Hl').
  split; [by eapply grows_sound|by rewrite (gr_revs _ _ X)|by rewrite (gr_revs _ _ X)|by rewrite (gr_next _ _ X)| |].
  - by rewrite (gr_reader _ _ X).
  - exists (es ++ es'). split; [by rewrite He', He, app_assoc|]. intros a Ha. destruct (Hl a Ha) as [Hb ?].
    destruct (Hl' a Hb). split; [done|set_solver].
Qed.

Lemma within_revert base s t id u : base <= id -> within base s t -> RevertToSnapshot t id = Some u -> within base s u.
Proof.
  intros Hle [S Hp Hm Hn Hr (es & He & Hl)] Hrev. destruct (RevertToSnapshot_inv _ _ _ Hrev) as (i & j & _ & Hi & _).
  destruct (revert_sound t i id j S Hi) as (u' & Hu & Su & Hv & Hnu & Hru & Heu & Hlu). rewrite Hrev in Hu. simplify_eq.
  assert (length (entries (jrnl s)) <= j)%nat as Hj by apply (Forall_lookup_1 _ _ _ _ Hm Hi Hle).
  split; [done| |by rewrite Hv; apply Forall_take|lia|congruence|].
  - intros k r Hk Hlt. rewrite Hv. apply lookup_take_Some. split; [auto|].
    destruct (decide (k < i)%nat) as [|Hge]; [done|]. specialize (Hp k r Hk Hlt).
    destruct (decide (k = i)) as [->|]; [simplify_eq; cbn in Hlt; lia|].
    pose proof (revs_sorted_lt _ _ _ _ _ (ro_sorted _ (sd_revs _ S)) Hi Hp ltac:(lia)). cbn in *. lia.
  - exists (take (j - length (entries (jrnl s))) es). split; [by rewrite Heu, He, take_app, take_ge by lia|].
    intros a Ha. destruct (Hl a Ha) as [Hb Hne]. split.
    + apply Hlu; [|done]. rewrite He, drop_app, drop_ge by lia. cbn. intros Hin. apply Hne. rewrite <- (take_drop (j - length (entries (jrnl s))) es). set_solver.
    + intros Hin. apply Hne. rewrite <- (take_drop (j - length (entries (jrnl s))) es). set_solver.
Qed.

Lemma within_step base s t u : within base s t -> free base t u -> within base s u.
Proof.
  intros X Hf. destruct Hf as [t x u Hb Hx|t|t id u Hle Hr].
  - destruct (exec_grows t x (sound_Good _ (wi_sound _ _ _ X)) Hb) as (t' & Ht & Y). rewrite Hx in Ht. simplify_eq.
    by eapply within_op.
  - destruct X as [S Hp Hm Hn Hrd (es & He & Hl)]. split; [by apply snapshot_sound| | |cbn; lia|done|by exists es].
    + intros i r Hi Hlt. cbn. apply lookup_app_l_Some. auto.
    + cbn. apply Forall_app. split; [done|]. apply Forall_singleton. intros _. cbn. rewrite He, length_app. lia.
  - by eapply within_revert.
Qed.

(** ** Runs as an order *)

Lemma free_mono base base' : base' <= base -> forall s t, free base s t -> free base' s t.
Proof.
  intros Hb s t Hf. destruct Hf as [s x t Hx Hs|s|s id t Hle Hr].
  - by eapply free_op.
  - apply free_snapshot.
  - eapply free_revert; [|exact Hr]. lia.
Qed.

Definition goes s t : Prop := sound s -> rtc (free (nextRevisionID s)) s t.

Lemma run_within base s t u : within base s t -> rtc (free base) t u -> within base s u.
Proof. intros X H. induction H as [t|t t' u Ht _ IH]; [done|]. apply IH. by eapply within_step. Qed.

Lemma goes_within s t : sound s -> goes s t -> within (nextRevisionID s) s t.
Proof. intros S H. eapply run_within; [by apply within_start|by apply H]. Qed.

#[global] Instance goes_preorder : PreOrder goes.
Proof.
  split; [intros s S; reflexivity|]. intros s t u H1 H2 S. pose proof (goes_within _ _ S H1) as X.
  specialize (H1 S). specialize (H2 (wi_sound _ _ _ X)). pose proof (wi_next _ _ _ X). etrans; [exact H1|].
  eapply rtc_subrel; [|exact H2]. by apply free_mono.
Qed.

Lemma goes_op s x t : bounded x -> exec s x = Some t -> goes s t.
Proof. intros Hb Hx _. apply rtc_once. by eapply free_op. Qed.

(** After any run since a snapshot the snapshot can be reverted to. *)
Lemma snapshot_revert s s1 id s2 :
  TakeSnapshot s = (s1, id) -> sound s -> goes s1 s2 ->
  exists s3, RevertToSnapshot s2 id = Some s3 /\ goes s s3.
Proof.
  intros [= <- <-] S Hrun. pose proof (goes_within _ _ (snapshot_sound _ S) Hrun) as X.
  set (n := length (validRevisions s)).
  assert (validRevisions s2 !! n = Some (nextRevisionID s, length (entries (jrnl s)))) as Hi.
  { apply (wi_prefix _ _ _ X); [|cbn; lia]. cbn. by rewrite lookup_app_r, Nat.sub_diag. }
  destruct (revert_sound s2 n _ _ (wi_sound _ _ _ X) Hi) as (s3 & Hs3 & _). exists s3. split; [done|]. intros _.
  eapply rtc_l; [apply free_snapshot|]. eapply rtc_r; [|by eapply (free_revert _ _ (nextRevisionID s))].
  eapply rtc_subrel; [|apply Hrun, snapshot_sound, S]. apply free_mono. cbn. lia.
Qed.

(** ** Where runs start *)

Lemma start_sound s : Good s -> entries (jrnl s) = [] -> validRevisions s = [] -> sound s.
Proof. intros G He Hv. split; rewrite ?He, ?Hv; [by split|split; rewrite Hv; constructor|constructor|constructor]. Qed.

Lemma New_sound r : codesOk r -> sound (New r).
Proof.
  intros Hr. apply start_sound; [|done|done]. by split; cbn.
Qed.

(** ** The code of an account *)

(** A live object with the code hash [h]. *)
Definition hashAt s (a : Address) (h : Hash) : Prop :=
  exists o, stateObjects s !! a = Some o /\ deleted o = false /\ CodeHash (data o) = h.

Lemma GetCodeHash_at s a h : hashAt s a h -> GetCodeHash s a = (s, h).
Proof. intros (o & Ho & Hd & Hh). unfold GetCodeHash, getStateObject. rewrite Ho. cbn. by rewrite Hd, Hh. Qed.

Lemma GetCode_at s a c : Good s -> (GetCode s a).2 = Some c -> exists h, codeOk h c /\ hashAt (GetCode s a).1 a h.
Proof.
  intros G. unfold GetCode. destruct (getStateObject_grows s a G) as [X Ho].
  destruct (getStateObject s a) as [t [o|]]; cbn in *; [|done]. destruct (deleted o) eqn:Ed; [done|]. cbn.
  destruct Ho as (Hoa & Ha & Ho). destruct (so_Code_mild t o (gr_good _ _ X) Ho) as [_ Hc].
  destruct (so_Code t o) as [u c'] eqn:Es. cbn in *. intros ->. exists (CodeHash (data o)). split; [by apply Hc|].
  assert (hashAt u a (CodeHash (data o))) as Hu.
  { unfold so_Code in Es. destruct (code o); [simplify_eq; by exists o|]. destruct (_ =? _); [done|].
    destruct (ReadAccountCode _ _ _ _) as [c1 err]. simplify_eq. eexists. cbn. rewrite lookup_insert_eq. done. }
  destruct Hu as (o' & H1 & H2 & H3). exists o'. by repeat case_match.
Qed.

(** Objects that are there stay there, with their code hash. *)
Lemma setStateObject_other s a o b : a <> b -> stateObjects (setStateObject s a o).1 !! b = stateObjects s !! b.
Proof. intros Hab. unfold setStateObject. destruct (pending s a) as [[p bi]|]; cbn; by rewrite lookup_insert_ne. Qed.

Lemma createObject_other s a p b : a <> b -> stateObjects (createObject s a p).1 !! b = stateObjects s !! b.
Proof. intros Hab. unfold createObject. by rewrite setStateObject_other. Qed.

Lemma getStateObject_hashAt s a b h : hashAt s b h -> hashAt (getStateObject s a).1 b h.
Proof.
  intros Hb. unfold getStateObject. destruct (stateObjects s !! a) as [o|] eqn:Eo; [done|].
  assert (a <> b) as Hab. { intros <-. destruct Hb as (o & Ho & _). congruence. }
  assert (forall t, stateObjects t = stateObjects s -> hashAt
    (match pending t a with Some _ => let '(s, o) := createObject t a None in (s, Some o) | None => (t, None) end).1 b h) as Hc.
  { intros t Ht. destruct (pending t a); [|destruct Hb as (o & ?); exists o; cbn; by rewrite Ht].
    pose proof (createObject_other t a None b Hab) as Hn. destruct (createObject t a None). cbn in *.
    destruct Hb as (o & ?). exists o. by rewrite Hn, Ht. }
  case_decide; [by apply Hc|]. destruct (ReadAccountData (stateReader s) a) as [[acc|] [e|]]; try (by apply Hc).
  - cbn. unfold setError. by case_match.
  - set (s1 := match snap s with Some _ => _ | None => s end). assert (stateObjects s1 = stateObjects s) as H1 by (subst s1; by repeat case_match).
    pose proof (setStateObject_other s1 a (newObject a acc acc) b Hab) as Hn. destruct (setStateObject s1 a _). cbn in *.
    destruct Hb as (o & ?). exists o. by rewrite Hn, H1.
  - cbn. unfold setError. by case_match.
Qed.

Lemma GetOrNewStateObject_hashAt s a b h : hashAt s b h -> hashAt (GetOrNewStateObject s a).1 b h.
Proof.
  intros Hb. unfold GetOrNewStateObject. pose proof (getStateObject_hashAt s a b h Hb) as Ht.
  destruct (getStateObject s a) as [t so] eqn:Eg. cbn in Ht.
  assert (forall p, (exists o, so = Some o /\ deleted o = true) \/ so = None -> hashAt (createObject t a p).1 b h) as Hc.
  { intros p Hso. destruct (decide (a = b)) as [<-|Hab].
    - destruct Hb as (o & Ho & Hd & _). unfold getStateObject in Eg. rewrite Ho in Eg. simplify_eq.
      destruct Hso as [(o' & [= <-] & ?)|?]; congruence.
    - destruct Ht as (o & ?). exists o. by rewrite createObject_other. }
  destruct so as [o|]; [|auto]. destruct (deleted o) eqn:Ed; [eauto|done].
Qed.

Lemma put_hashAt s o b h :
  hashAt s b h -> (address o = b -> deleted o = false /\ CodeHash (data o) = h) -> hashAt (put s o) b h.
Proof.
  intros (o' & Ho & Hd & Hh) Hb. unfold hashAt. cbn. setoid_rewrite lookup_insert. case_decide; [|eauto].
  destruct Hb; eauto.
Qed.

Lemma so_SetBalance_hashAt s a o v b h : objectOf s a o -> hashAt s b h -> hashAt (so_SetBalance s o v) b h.
Proof.
  intros (Ho & Ha & _) Hb. apply put_hashAt; [done|]. cbn. intros <-. rewrite Ha in Hb.
  destruct Hb as (o' & Ho' & Hd & Hh). rewrite Ho in Ho'. by simplify_eq.
Qed.

Lemma SubBalance_hashAt s a v b h : Good s -> hashAt s b h -> hashAt (SubBalance s a v) b h.
Proof.
  intros G Hb. unfold SubBalance. destruct (GetOrNewStateObject_grows s a G) as [_ Ho].
  pose proof (GetOrNewStateObject_hashAt s a b h Hb) as Ht. destruct (GetOrNewStateObject s a) as [t o]. cbn in *.
  unfold so_SubBalance. case_match; [done|]. by eapply so_SetBalance_hashAt.
Qed.

Lemma AddBalance_hashAt s a v b h : Good s -> hashAt s b h -> hashAt (AddBalance s a v) b h.
Proof.
  intros G Hb. unfold AddBalance. destruct (negb _); [by destruct (balanceInc _ !! a)|].
  destruct (GetOrNewStateObject_grows s a G) as [_ Ho].
  pose proof (GetOrNewStateObject_hashAt s a b h Hb) as Ht. destruct (GetOrNewStateObject s a) as [t o]. cbn in *.
  unfold so_AddBalance, touch. repeat case_match; try done. by eapply so_SetBalance_hashAt.
Qed.

End Sound.
