(* ===== verification/StateBalance.v ===== *)
(** * StateBalance: balances, with the pending increases

    [AddBalance] on an account that is not loaded only records an increase,
    which the account receives when it is loaded.  Seen through [GetBalance]
    the state is a plain map of balances all the same: the operations on
    balances of [intra_block_state.go] refine those of a map. *)

From S2P Require Import Prelude Uint256 ChainConfig AccessList StateModel StateRevert StateJournal StateSnapshot StateCommit.

Section Balance.
Context `{U : Uint256} `{E : @StateEnv U}.
Implicit Types s t : IntraBlockState.
Implicit Types o : stateObject.

(** The balance of [a]: that of its object, or what the database holds plus
    the pending increase. *)
Definition balance_of s (a : Address) : u256 :=
  match stateObjects s !! a with
  | Some o => if deleted o then uzero else Balance (data o)
  | None =>
      match pending s a with
      | Some (_, bi) => uAdd (stored_balance s a) (increase bi)
      | None => stored_balance s a
      end
  end.

(** The database answers. *)
Definition reads_ok s : Prop := forall a, (ReadAccountData (stateReader s) a).2 = None.

(** [t] has the balances of [s] but for [a], which has [v]. *)
Record balanced s t (a : Address) (v : u256) : Prop := {
  ba_inv : WInv t;
  ba_reader : stateReader t = stateReader s;
  ba_at : balance_of t a = v;
  ba_other : forall b, b <> a -> balance_of t b = balance_of s b
}.

Lemma balanced_refl s a : WInv s -> balanced s s a (balance_of s a).
Proof. by split. Qed.

Lemma balanced_reads s t a v : balanced s t a v -> reads_ok s -> reads_ok t.
Proof. intros B R b. rewrite (ba_reader _ _ _ _ B). apply R. Qed.

Lemma balanced_trans s t u a v w : balanced s t a v -> balanced t u a w -> balanced s u a w.
Proof. intros [] []. split; [done|congruence|done|]. intros b Hb. rewrite ba_other1; auto. Qed.

(** What [balance_of] and [WInv] depend on. *)
Lemma balance_of_ext s t b :
  stateObjects t !! b = stateObjects s !! b -> pending t b = pending s b -> stateReader t = stateReader s ->
  balance_of t b = balance_of s b.
Proof. intros H1 H2 H3. unfold balance_of, stored_balance. by rewrite H1, H2, H3. Qed.

(** Steps that change neither objects nor increases. *)
Lemma WInv_ext s t :
  stateObjects t = stateObjects s -> balanceInc t = balanceInc s -> biHeap t = biHeap s ->
  nil_ok t -> accList t = accList s -> logSize t = logSize s -> WInv s -> WInv t.
Proof.
  intros H1 H2 H3 H4 H5 H6 []. assert (forall a, pending t a = pending s a) as Hp.
  { intros a. unfold pending, getBI. by rewrite H2, H3. }
  split; rewrite ?H1, ?H2, ?H3, ?H5, ?H6; auto; intros a; rewrite Hp; auto.
Qed.

Lemma balanced_quiet s t a :
  stateObjects t = stateObjects s -> balanceInc t = balanceInc s -> biHeap t = biHeap s ->
  stateReader t = stateReader s -> nil_ok t -> accList t = accList s -> logSize t = logSize s -> WInv s ->
  balanced s t a (balance_of s a).
Proof.
  intros H1 H2 H3 H4 H5 H6 H7 WI. split; [by eapply WInv_ext|done| |];
    intros; apply balance_of_ext; try done; try (by rewrite H1); unfold pending, getBI; by rewrite H2, H3.
Qed.

(** Replacing the live object of [a]. *)
Lemma balanced_put s o a :
  WInv s -> address o = a -> Initialised (data o) = true -> pending s a = None -> deleted o = false ->
  balanced s (put s o) a (Balance (data o)).
Proof.
  intros WI <- Hi Hp Hd. split; cbn.
  - destruct WI. split; auto; cbn.
    + intros b x. rewrite lookup_insert. case_decide; [|auto]. intros [= <-]. by subst.
    + intros b Hb. change (is_Some (pending s b)) in Hb. rewrite lookup_insert_ne; [by apply wi_pending|].
      intros <-. rewrite Hp in Hb. by destruct Hb.
    + intros b. change (pending (put s o) b) with (pending s b). rewrite lookup_insert.
      case_decide; [done|]. apply wi_open.
  - done.
  - unfold balance_of. cbn. by rewrite lookup_insert_eq, Hd.
  - intros b Hb. apply balance_of_ext; [cbn; by rewrite lookup_insert_ne|done|done].
Qed.

Lemma pending_none_inserted s a o : WInv s -> stateObjects s !! a = Some o -> pending s a = None.
Proof.
  intros WI Ho. destruct (pending s a) eqn:Ep; [|done].
  rewrite (wi_pending _ WI a) in Ho by (rewrite Ep; eauto). done.
Qed.

(** Inserting an object where no increase is pending. *)
Lemma setStateObject_balanced s a o :
  WInv s -> pending s a = None -> address o = a -> Initialised (data o) = true -> deleted o = false ->
  setStateObject s a o = (put s o, o) /\ balanced s (put s o) a (Balance (data o)).
Proof.
  intros WI Hp Ha Hi Hd. split; [|by apply balanced_put].
  unfold setStateObject. rewrite Hp. unfold put. by rewrite Ha.
Qed.

Lemma moved_balanced s t a p bi :
  pending s a = Some (p, bi) -> stateObjects s !! a = None -> moved s t a (increase bi) ->
  balanced s t a (balance_of s a).
Proof.
  intros Hp Hno Hm. split; [apply Hm|apply Hm| |].
  - destruct (mv_object _ _ _ _ Hm) as (o & Ho & Hb & Hd). unfold balance_of. by rewrite Ho, Hd, Hno, Hp.
  - intros b Hb. apply balance_of_ext; [by apply (mv_objects _ _ _ _ Hm)|by apply (mv_other _ _ _ _ Hm)|apply Hm].
Qed.

(** [append] only touches the journal. *)
Lemma balanced_append s e a : WInv s -> balanced s (append s e) a (balance_of s a).
Proof. intros WI. apply balanced_quiet; auto. apply (wi_nil _ WI). Qed.

Lemma setStateObject_found s a o :
  stateObjects (setStateObject s a o).1 !! a = Some (setStateObject s a o).2.
Proof. unfold setStateObject. destruct (pending s a) as [[p bi]|]; cbn; apply lookup_insert_eq. Qed.

Lemma getStateObject_found s a :
  is_Some (pending s a) -> (ReadAccountData (stateReader s) a).2 = None ->
  stateObjects (getStateObject s a).1 !! a = (getStateObject s a).2.
Proof.
  intros [x Hp] Hr. assert (forall s1, pending s1 a = pending s a ->
    let r := match pending s1 a with Some _ => let '(s, o) := createObject s1 a None in (s, Some o)
             | None => (s1, None) end in stateObjects r.1 !! a = r.2) as Hc.
  { intros s1 ->. rewrite Hp. unfold createObject.
    match goal with |- context [setStateObject ?x ?y ?z] => pose proof (setStateObject_found x y z) as Hf end.
    by destruct (setStateObject _ _ _). }
  unfold getStateObject. destruct (stateObjects s !! a) eqn:Eo; [done|].
  case_decide; [by apply Hc|]. destruct (ReadAccountData (stateReader s) a) as [[acc|] [e|]]; try done.
  - match goal with |- context [setStateObject ?x ?y ?z] => pose proof (setStateObject_found x y z) as Hf end.
    by destruct (setStateObject _ _ _).
  - by apply Hc.
Qed.

(** Loading an account: no balance changes, the increase is settled, and the
    object found carries the balance. *)
Lemma getStateObject_balanced s a :
  WInv s -> reads_ok s ->
  let '(t, so) := getStateObject s a in
  balanced s t a (balance_of s a) /\ stateObjects t !! a = so /\ pending t a = None /\
  (so = None -> balance_of s a = uzero).
Proof.
  intros WI R. destruct (pending s a) as [[p bi]|] eqn:Ep.
  - assert (stateObjects s !! a = None) as Hno by (apply (wi_pending _ WI); rewrite Ep; eauto).
    pose proof (getStateObject_moved s a p bi WI Ep (R a)) as Hm.
    pose proof (getStateObject_found s a ltac:(rewrite Ep; eauto) (R a)) as Hf. destruct (getStateObject s a) as [t so]. cbn in *.
    split_and!; [by eapply moved_balanced|done|apply Hm|].
    intros ->. destruct (mv_object _ _ _ _ Hm) as (o & Ho & _). by rewrite Hf in Ho.
  - unfold getStateObject. destruct (stateObjects s !! a) as [o|] eqn:Eo.
    { split_and!; [by apply balanced_refl|done|done|done]. }
    assert (balance_of s a = stored_balance s a) as Hb by (unfold balance_of; by rewrite Eo, Ep).
    case_decide as Hn.
    { rewrite Ep. split_and!; [by apply balanced_refl|done|done|]. intros _.
      rewrite Hb. unfold stored_balance. by rewrite (wi_nil _ WI a Hn). }
    specialize (R a). destruct (ReadAccountData (stateReader s) a) as [[acc|] [e|]] eqn:Er; try done.
    + set (s1 := match snap s with Some sn => if CanWrite sn then _ else s | None => s end).
      assert (balanced s s1 a (balance_of s a)) as B1.
      { apply balanced_quiet; try done; subst s1; repeat case_match; try done; apply WI. }
      assert (pending s1 a = None /\ stateReader s1 = stateReader s) as [Ep1 Er1]
        by (subst s1; repeat case_match; done).
      destruct (setStateObject_balanced s1 a (newObject a acc acc)) as [-> B2];
        [apply B1|done|apply newObject_live..|done|].
      split_and!; [|cbn; apply lookup_insert_eq|done|done].
      eapply balanced_trans; [exact B1|]. rewrite Hb. unfold stored_balance. by rewrite Er.
    + change (pending (set_nilAccounts ({[a]} ∪ nilAccounts s) s) a) with (pending s a). rewrite Ep.
      split_and!; [|done|done|].
      * apply balanced_quiet; try done. intros b Hb'. cbn in Hb'.
        apply elem_of_union in Hb' as [Hb'%elem_of_singleton|Hb']; [by subst|by apply (wi_nil _ WI)].
      * intros _. rewrite Hb. unfold stored_balance. by rewrite Er.
Qed.

Lemma balance_of_live s a o :
  stateObjects s !! a = Some o -> deleted o = false -> Balance (data o) = balance_of s a.
Proof. intros Ho Hd. unfold balance_of. by rewrite Ho, Hd. Qed.

(** Creating an object where none is alive. *)
Lemma createObject_balanced s a prev :
  WInv s -> pending s a = None -> balance_of s a = uzero ->
  let '(t, o) := createObject s a prev in
  balanced s t a (balance_of s a) /\ stateObjects t !! a = Some o /\ deleted o = false /\
  Balance (data o) = balance_of s a.
Proof.
  intros WI Hp Hb. unfold createObject.
  set (o := so_setNonce 0 _). set (s1 := append s _).
  assert (balanced s s1 a (balance_of s a)) as B1 by (by apply balanced_append).
  destruct (setStateObject_balanced s1 a o) as [-> B2]; [apply B1|exact Hp|apply setNonce_newObject_live..|done|].
  assert (Balance (data o) = uzero) as Ho by (subst o; cbn; by repeat case_match).
  rewrite Ho in B2. rewrite Hb in *. split_and!; [by eapply balanced_trans|apply lookup_insert_eq|done|done].
Qed.

Lemma GetOrNewStateObject_balanced s a :
  WInv s -> reads_ok s ->
  let '(t, o) := GetOrNewStateObject s a in
  balanced s t a (balance_of s a) /\ stateObjects t !! a = Some o /\ deleted o = false /\
  Balance (data o) = balance_of s a.
Proof.
  intros WI R. unfold GetOrNewStateObject. pose proof (getStateObject_balanced s a WI R) as Hg.
  destruct (getStateObject s a) as [t so]. destruct Hg as (B & Hso & Hp & Hz).
  assert (forall prev, balance_of s a = uzero -> let '(t', o) := createObject t a prev in
    balanced s t' a (balance_of s a) /\ stateObjects t' !! a = Some o /\ deleted o = false /\
    Balance (data o) = balance_of s a) as Hc.
  { intros prev H0. pose proof (createObject_balanced t a prev (ba_inv _ _ _ _ B) Hp) as H1.
    rewrite (ba_at _ _ _ _ B) in H1. specialize (H1 H0). destruct (createObject t a prev) as [t' o].
    destruct H1 as (B' & H1). split; [by eapply balanced_trans|done]. }
  destruct so as [o|]; [|by apply Hc, Hz]. destruct (deleted o) eqn:Ed.
  - apply Hc. rewrite <- (ba_at _ _ _ _ B). unfold balance_of. by rewrite Hso, Ed.
  - split_and!; auto. rewrite (balance_of_live t a o) by done. apply (ba_at _ _ _ _ B).
Qed.

Lemma so_SetBalance_balanced s o a v :
  WInv s -> stateObjects s !! a = Some o -> deleted o = false -> balanced s (so_SetBalance s o v) a v.
Proof.
  intros WI Ho Hd. destruct (wi_live _ WI a o Ho) as [Ha Hi]. unfold so_SetBalance.
  eapply balanced_trans; [by apply (balanced_append s (balanceChange (address o) (Balance (data o))))|].
  apply (balanced_put (append s _) (so_setBalance v o) a); [|done|done| |done].
  - apply (balanced_append s _ a WI).
  - change (pending s a = None). by eapply pending_none_inserted.
Qed.

Lemma uAdd_zero_r x v : uIsZero v = true -> uAdd x v = x.
Proof. intros ->%uIsZero_true. apply uAdd_0_r. Qed.

Lemma uSub_zero_r x v : uIsZero v = true -> uSub x v = x.
Proof.
  intros ->%uIsZero_true. rewrite <- (uAdd_0_r x) at 1. apply uSub_uAdd.
Qed.

Lemma touch_balanced s o a : WInv s -> balanced s (touch s o) a (balance_of s a).
Proof. intros WI. unfold touch. case_match; (apply balanced_quiet; auto; apply (wi_nil _ WI)). Qed.

(** The increase of an account that is not loaded. *)
Definition addIncrease s (a : Address) (v : u256) : IntraBlockState :=
  let '(s, p) :=
    match balanceInc s !! a with
    | Some p => (s, p)
    | None =>
        let p := length (biHeap s) in
        (set_balanceInc (<[a := p]> (balanceInc s))
           (biHeap s ++ [{| increase := uzero; transferred := false; count := 0 |}]) s, p)
    end in
  set_biHeap (alter (fun bi => {| increase := uAdd (increase bi) v;
                                  transferred := transferred bi; count := count bi + 1 |})
                p (biHeap s)) s.

Lemma WInv_heap s f p :
  (forall bi, transferred (f bi) = transferred bi) -> WInv s -> WInv (set_biHeap (alter f p (biHeap s)) s).
Proof.
  intros Hf [].
  assert (forall a, is_Some (pending (set_biHeap (alter f p (biHeap s)) s) a) <-> is_Some (pending s a)) as Hp.
  { intros a. unfold pending, getBI. cbn. destruct (balanceInc s !! a) as [q|]; cbn; [|done].
    destruct (decide (q = p)) as [->|Hq]; [rewrite list_lookup_alter_eq|by rewrite list_lookup_alter_ne].
    destruct (biHeap s !! p) as [bi|]; cbn; [|done]. rewrite Hf. by destruct (transferred bi). }
  split; cbn; auto.
  - intros a q Hq. rewrite length_alter. eauto.
  - intros a Ha. apply wi_pending. by apply Hp.
  - intros a Ha Hb. apply Hp. auto.
Qed.

Lemma pending_lookup s a p bi :
  balanceInc s !! a = Some p -> biHeap s !! p = Some bi -> transferred bi = false -> pending s a = Some (p, bi).
Proof. intros H1 H2 H3. unfold pending, getBI. rewrite H1. cbn. rewrite H2. cbn. by rewrite H3. Qed.

Lemma addIncrease_balanced s a v :
  WInv s -> stateObjects s !! a = None -> balanced s (addIncrease s a v) a (uAdd (balance_of s a) v).
Proof.
  intros WI Hno. unfold addIncrease. destruct (balanceInc s !! a) as [p|] eqn:Eb.
  - destruct (wi_open _ WI a Hno ltac:(rewrite Eb; eauto)) as [[q bi] Hp].
    destruct (pending_balanceInc _ _ _ _ Hp) as (Hq & Hbi & Ht). rewrite Eb in Hq. simplify_eq.
    split; [by apply WInv_heap|done| |].
    + unfold balance_of. cbn. rewrite Hno, Hp. erewrite pending_lookup;
        [|exact Eb|cbn; rewrite list_lookup_alter_eq, Hbi; reflexivity|done]. cbn.
      unfold stored_balance. cbn. apply uAdd_assoc.
    + intros b Hb. apply balance_of_ext; [done| |done]. unfold pending, getBI. cbn.
      destruct (balanceInc s !! b) as [r|] eqn:Er; cbn; [|done].
      rewrite list_lookup_alter_ne; [done|]. intros ->. by apply Hb, (wi_inj _ WI b a r).
  - assert (pending s a = None) as Hp by (unfold pending, getBI; by rewrite Eb).
    set (n := length (biHeap s)). set (h := biHeap s ++ _).
    assert (forall b, b <> a -> pending (set_balanceInc (<[a := n]> (balanceInc s)) h s) b = pending s b) as Hpo.
    { intros b Hb. unfold pending, getBI. cbn. rewrite lookup_insert_ne by done.
      destruct (balanceInc s !! b) as [r|] eqn:Er; cbn; [|done]. subst h.
      by rewrite lookup_app_l by (by apply (wi_bound _ WI b)). }
    assert (h !! n = Some {| increase := uzero; transferred := false; count := 0 |}) as Hn.
    { subst h n. by rewrite lookup_app_r, Nat.sub_diag by lia. }
    split.
    + apply WInv_heap; [done|]. destruct WI. split; auto; cbn.
      * intros b c r. rewrite !lookup_insert. repeat case_decide; subst; auto; try congruence.
        -- intros [= <-] Hc. apply wi_bound in Hc. subst n. lia.
        -- intros Hb [= <-]. apply wi_bound in Hb. subst n. lia.
        -- apply wi_inj.
      * intros b r. rewrite lookup_insert. subst h n. rewrite length_app. cbn. case_decide.
        -- intros [= <-]. lia.
        -- intros Hr%wi_bound. lia.
      * intros b Hb. destruct (decide (b = a)) as [->|Hne]; [done|]. rewrite Hpo in Hb by done. auto.
      * intros b Hb Hs. destruct (decide (b = a)) as [->|Hne].
        -- erewrite pending_lookup; [eauto|apply lookup_insert_eq|exact Hn|done].
        -- rewrite Hpo by done. rewrite lookup_insert_ne in Hs by done. auto.
    + done.
    + unfold balance_of. cbn. rewrite Hno, Hp. erewrite pending_lookup;
        [|apply lookup_insert_eq|cbn; rewrite list_lookup_alter_eq, Hn; reflexivity|done]. cbn.
      unfold stored_balance. cbn. by rewrite uAdd_0_l.
    + intros b Hb. apply balance_of_ext; [done| |done]. rewrite <- Hpo by done. unfold pending, getBI. cbn.
      rewrite lookup_insert_ne by done. destruct (balanceInc s !! b) as [r|] eqn:Er; cbn; [|done].
      rewrite list_lookup_alter_ne; [done|]. apply (wi_bound _ WI) in Er. subst n. lia.
Qed.

(** ** The operations on balances *)

Lemma GetBalance_balanced s a :
  WInv s -> reads_ok s ->
  (GetBalance s a).2 = balance_of s a /\ balanced s (GetBalance s a).1 a (balance_of s a).
Proof.
  intros WI R. unfold GetBalance. pose proof (getStateObject_balanced s a WI R) as Hg.
  destruct (getStateObject s a) as [t so]. destruct Hg as (B & Hso & _ & Hz). cbn. split; [|done].
  destruct so as [o|]; cbn; [|by rewrite Hz]. rewrite <- (ba_at _ _ _ _ B). unfold balance_of. rewrite Hso.
  by destruct (deleted o).
Qed.

Lemma AddBalance_balanced s a v :
  WInv s -> reads_ok s -> balanced s (AddBalance s a v) a (uAdd (balance_of s a) v).
Proof.
  intros WI R. unfold AddBalance. destruct (negb _) eqn:Ena.
  - fold (addIncrease (append s (balanceIncrease a v)) a v).
    assert (stateObjects s !! a = None) as Hno.
    { apply negb_true_iff, orb_false_iff in Ena as [Ena _]. apply bool_decide_eq_false in Ena.
      by apply eq_None_not_Some. }
    pose proof (balanced_append s (balanceIncrease a v) a WI) as B1.
    eapply balanced_trans; [exact B1|]. rewrite <- (ba_at _ _ _ _ B1).
    by apply addIncrease_balanced; [apply B1|].
  - pose proof (GetOrNewStateObject_balanced s a WI R) as Hg.
    destruct (GetOrNewStateObject s a) as [t o]. destruct Hg as (B & Ho & Hd & Hb).
    unfold so_AddBalance. destruct (uIsZero v) eqn:Ez.
    + rewrite (uAdd_zero_r _ _ Ez). case_match; [|done]. eapply balanced_trans; [exact B|].
      rewrite <- (ba_at _ _ _ _ B). apply touch_balanced, B.
    + eapply balanced_trans; [exact B|]. rewrite <- Hb.
      by apply so_SetBalance_balanced; [apply B| |].
Qed.

Lemma SubBalance_balanced s a v :
  WInv s -> reads_ok s -> balanced s (SubBalance s a v) a (uSub (balance_of s a) v).
Proof.
  intros WI R. unfold SubBalance. pose proof (GetOrNewStateObject_balanced s a WI R) as Hg.
  destruct (GetOrNewStateObject s a) as [t o]. destruct Hg as (B & Ho & Hd & Hb).
  unfold so_SubBalance. destruct (uIsZero v) eqn:Ez; [by rewrite (uSub_zero_r _ _ Ez)|].
  eapply balanced_trans; [exact B|]. rewrite <- Hb. by apply so_SetBalance_balanced; [apply B| |].
Qed.

Lemma SetBalance_balanced s a v : WInv s -> reads_ok s -> balanced s (SetBalance s a v) a v.
Proof.
  intros WI R. unfold SetBalance. pose proof (GetOrNewStateObject_balanced s a WI R) as Hg.
  destruct (GetOrNewStateObject s a) as [t o]. destruct Hg as (B & Ho & Hd & Hb).
  eapply balanced_trans; [exact B|]. by apply so_SetBalance_balanced; [apply B| |].
Qed.

(** ** Refinement to a map of balances *)

Inductive balanceOp :=
| BGet (a : Address)
| BAdd (a : Address) (v : u256)
| BSub (a : Address) (v : u256)
| BSet (a : Address) (v : u256).

(** The state after the operations, and what the reads returned. *)
Fixpoint run_balances s (l : list balanceOp) : IntraBlockState * list u256 :=
  match l with
  | [] => (s, [])
  | BGet a :: l => let '(s, v) := GetBalance s a in let '(s, vs) := run_balances s l in (s, v :: vs)
  | BAdd a v :: l => run_balances (AddBalance s a v) l
  | BSub a v :: l => run_balances (SubBalance s a v) l
  | BSet a v :: l => run_balances (SetBalance s a v) l
  end.

Definition upd (f : Address -> u256) (a : Address) (v : u256) (b : Address) : u256 :=
  if decide (b = a) then v else f b.

Fixpoint spec_balances (f : Address -> u256) (l : list balanceOp) : (Address -> u256) * list u256 :=
  match l with
  | [] => (f, [])
  | BGet a :: l => let '(g, vs) := spec_balances f l in (g, f a :: vs)
  | BAdd a v :: l => spec_balances (upd f a (uAdd (f a) v)) l
  | BSub a v :: l => spec_balances (upd f a (uSub (f a) v)) l
  | BSet a v :: l => spec_balances (upd f a v) l
  end.

Lemma balanced_upd s t a v (f : Address -> u256) :
  balanced s t a v -> (forall b, balance_of s b = f b) -> forall b, balance_of t b = upd f a v b.
Proof.
  intros B Hf b. unfold upd. case_decide as Hb; [subst; apply B|]. rewrite (ba_other _ _ _ _ B) by done. apply Hf.
Qed.

Lemma run_balances_spec l s f :
  WInv s -> reads_ok s -> (forall b, balance_of s b = f b) ->
  (run_balances s l).2 = (spec_balances f l).2 /\ WInv (run_balances s l).1 /\
  forall b, balance_of (run_balances s l).1 b = (spec_balances f l).1 b.
Proof.
  revert s f. induction l as [|[a|a v|a v|a v] l IH]; intros s f WI R Hf; cbn [run_balances spec_balances]; [done| | | |].
  - destruct (GetBalance_balanced s a WI R) as [Hv B]. destruct (GetBalance s a) as [t v]. cbn in Hv, B.
    destruct (IH t f) as (H1 & H2 & H3); [apply B|by eapply balanced_reads| |].
    { intros b. rewrite (balanced_upd _ _ _ _ f B Hf). unfold upd. case_decide; [by subst; apply Hf|done]. }
    destruct (run_balances t l), (spec_balances f l). cbn in *. split_and!; [|done|done]. by rewrite Hv, Hf, H1.
  - pose proof (AddBalance_balanced s a v WI R) as B. rewrite <- Hf.
    apply IH; [apply B|by eapply balanced_reads|by apply (balanced_upd s)].
  - pose proof (SubBalance_balanced s a v WI R) as B. rewrite <- Hf.
    apply IH; [apply B|by eapply balanced_reads|by apply (balanced_upd s)].
  - pose proof (SetBalance_balanced s a v WI R) as B.
    apply IH; [apply B|by eapply balanced_reads|by apply (balanced_upd s)].
Qed.

End Balance.

(** C12: the state is a map of balances.  However reads, additions,
    subtractions and assignments of balances are interleaved, and although
    additions to accounts that are not loaded are only recorded, every read
    returns what a plain map of balances would, and the final balances are
    those of the map. *)
Theorem balances_refine `{U : Uint256} `{E : @StateEnv U} s l :
  WInv s -> reads_ok s ->
  (run_balances s l).2 = (spec_balances (balance_of s) l).2 /\ WInv (run_balances s l).1 /\
  forall a, balance_of (run_balances s l).1 a = (spec_balances (balance_of s) l).1 a.
Proof. intros WI R. by apply run_balances_spec. Qed.

#[local] Existing Instance Demo.demo_u256.
#[local] Existing Instance Demo.demo_env.

(** Five is added to account 7 before it is read, and to the absent account 8. *)
Lemma balances_refine_witness :
  map uval (run_balances CommitDemo.s [BAdd 7 (uSetUint64 1); BGet 7; BSub 7 (uSetUint64 6); BAdd 8 (uSetUint64 5);
                                       BGet 7; BGet 8]).2 = [106; 100; 5] /\
  reads_ok CommitDemo.s.
Proof.
  assert (reads_ok CommitDemo.s) as R.
  { intros a. change (stateReader CommitDemo.s) with Demo.reader. cbn. by destruct (a =? 7). }
  split; [|exact R].
  rewrite (proj1 (balances_refine CommitDemo.s [BAdd 7 (uSetUint64 1); BGet 7; BSub 7 (uSetUint64 6);
    BAdd 8 (uSetUint64 5); BGet 7; BGet 8] CommitDemo.s_WInv R)).
  vm_compute. reflexivity.
Defined.
