(* ===== verification/StateTransition.v ===== *)
(** * StateTransition: applying a message

    The gas pool of [common/gaspool.go] and [internal/state_transition.go]:
    [IntrinsicGas], [buyGas], [preCheck], [refundGas] and [TransitionDb] over
    the state of [StateModel].  The virtual machine is the interface the code
    calls it through ([vm.VMInterface]): a class with the calls and what the
    transition relies on.  [None] is a panic. *)

From S2P Require Import Prelude Uint256 ChainConfig AccessList StateModel StateRevert StateJournal StateSnapshot StateCommit StateBalance.

(** ** [common/gaspool.go] *)

Module GasPool.

Definition ErrGasLimitReached : error := "gas limit reached".

Definition AddGas (gp amount : Z) : option Z :=
  if MaxUint64 -u amount <? gp then None else Some (gp +u amount).

Definition SubGas (gp amount : Z) : Z * option error :=
  if gp <? amount then (gp, Some ErrGasLimitReached) else (gp -u amount, None).

Lemma AddGas_spec gp amount : in_u64 gp -> in_u64 amount ->
  AddGas gp amount = if two64 <=? gp + amount then None else Some (gp + amount).
Proof.
  unfold in_u64, AddGas, MaxUint64. intros. rewrite sub64_small by (unfold in_u64; lia).
  destruct (Z.ltb_spec (18446744073709551615 - amount) gp), (Z.leb_spec two64 (gp + amount)); try lia; [done|].
  by rewrite add64_small by (unfold in_u64; lia).
Qed.

End GasPool.

Definition ErrInsufficientFunds : error := "insufficient funds for gas * price + value".
Definition ErrGasUintOverflow : error := "gas uint64 overflow".
Definition ErrNonceTooHigh : error := "nonce too high".
Definition ErrNonceTooLow : error := "nonce too low".
Definition ErrNonceMax : error := "nonce has max value".
Definition ErrSenderNoEOA : error := "sender not an eoa".
Definition ErrTipAboveFeeCap : error := "max priority fee per gas higher than max fee per gas".
Definition ErrFeeCapTooLow : error := "max fee per gas less than block base fee".
Definition ErrIntrinsicGas : error := "intrinsic gas too low".

Definition TxGas : Z := 21000.
Definition TxGasContractCreation : Z := 53000.
Definition TxDataZeroGas : Z := 4.
Definition TxDataNonZeroGasFrontier : Z := 68.
Definition TxDataNonZeroGasEIP2028 : Z := 16.
Definition InitCodeWordGas : Z := 2.
Definition TxAccessListAddressGas : Z := 2400.
Definition TxAccessListStorageKeyGas : Z := 1900.
Definition RefundQuotient : Z := 2.
Definition RefundQuotientEIP3529 : Z := 5.

(** [transaction.AccessList]: addresses with their storage keys. *)
Abbreviation accessTuples := (list (Address * list Hash)).

Definition StorageKeys (al : accessTuples) : Z :=
  fold_right (fun t n => Z.of_nat (length t.2) + n) 0 al.

Definition toWordSize (size : Z) : Z :=
  if MaxUint64 - 31 <? size then MaxUint64 / 32 + 1 else (size +u 31) / 32.

(** [None] as the access list is a nil list. *)
Definition IntrinsicGas (data : list Z) (accessList : option accessTuples)
  (isContractCreation isHomestead isEIP2028 isEIP3860 : bool) : outcome Z :=
  let gas := if isContractCreation && isHomestead then TxGasContractCreation else TxGas in
  let dataLen := Z.of_nat (length data) in
  gas ← (if 0 <? dataLen then
           let nz := Z.of_nat (length (filter (fun b => b <> 0) data)) in
           let nonZeroGas := if isEIP2028 then TxDataNonZeroGasEIP2028 else TxDataNonZeroGasFrontier in
           _ ← fail_if ((MaxUint64 -u gas) / nonZeroGas <? nz) ErrGasUintOverflow;
           let gas := gas +u nz *u nonZeroGas in
           let z := dataLen -u nz in
           _ ← fail_if ((MaxUint64 -u gas) / TxDataZeroGas <? z) ErrGasUintOverflow;
           let gas := gas +u z *u TxDataZeroGas in
           if isContractCreation && isEIP3860 then
             let lenWords := toWordSize dataLen in
             _ ← fail_if ((MaxUint64 -u gas) / InitCodeWordGas <? lenWords) ErrGasUintOverflow;
             Ok (gas +u lenWords *u InitCodeWordGas)
           else Ok gas
         else Ok gas);
  match accessList with
  | None => Ok gas
  | Some al =>
      let gas := gas +u Z.of_nat (length al) *u TxAccessListAddressGas in
      Ok (gas +u StorageKeys al *u TxAccessListStorageKeyGas)
  end.

Section Transition.
Context `{U : Uint256} `{E : @StateEnv U}.

(** [Message] *)
Record Message := {
  From : Address;
  To : option Address;
  GasPrice : u256;
  FeeCap : option u256;
  Tip : u256;
  Gas : Z;
  Value : u256;
  MNonce : Z;
  CheckNonce : bool;
  Data : list Z;
  MAccessList : option accessTuples;
  IsFree : bool
}.

(** What the transition reads of the machine's configuration and block context. *)
Record TxContext := {
  ChainRules : Rules.Rules;
  Eip1559FeeCollector : option Address;
  NoBaseFee : bool;
  ctxBaseFee : option u256;
  ctxCoinbase : Address;
  ActivePrecompiles : list Address;
  isParlia : bool
}.

(** [vm.VMInterface]: a call returns the state, the return data, the gas left
    and the error of the execution. *)
Class VMInterface := {
  Call : IntraBlockState -> Address -> Address -> list Z -> Z -> u256 -> bool ->
         IntraBlockState * list Z * Z * option error;
  Create : IntraBlockState -> Address -> list Z -> Z -> u256 ->
           IntraBlockState * list Z * Z * option error;
  (** the machine hands back at most the gas it was given *)
  Call_gas : forall s a b d g v bo, in_u64 g -> 0 <= (Call s a b d g v bo).1.2 <= g;
  Create_gas : forall s a d g v, in_u64 g -> 0 <= (Create s a d g v).1.2 <= g;
  (** it keeps the state consistent and on its database *)
  Call_state : forall s a b d g v bo, WInv s ->
    WInv (Call s a b d g v bo).1.1.1 /\ stateReader (Call s a b d g v bo).1.1.1 = stateReader s;
  Create_state : forall s a d g v, WInv s ->
    WInv (Create s a d g v).1.1.1 /\ stateReader (Create s a d g v).1.1.1 = stateReader s;
  (** the refund counter is a [uint64] *)
  Call_refund : forall s a b d g v bo, in_u64 (refund s) -> in_u64 (refund (Call s a b d g v bo).1.1.1);
  Create_refund : forall s a d g v, in_u64 (refund s) -> in_u64 (refund (Create s a d g v).1.1.1)
}.

Record StateTransition := {
  gp : Z;
  gas : Z;
  initialGas : Z;
  state : IntraBlockState
}.

Definition set_state s st := {| gp := gp st; gas := gas st; initialGas := initialGas st; state := s |}.
Definition set_gas g st := {| gp := gp st; gas := g; initialGas := initialGas st; state := state st |}.

Record ExecutionResult := {
  UsedGas : Z;
  ErrVM : option error;
  ReturnData : list Z
}.

Definition NewStateTransition (s : IntraBlockState) (gp : Z) : StateTransition :=
  {| gp := gp; gas := 0; initialGas := 0; state := s |}.

Definition buyGas (msg : Message) (gasBailout : bool) (st : StateTransition) : StateTransition * option error :=
  let '(mgval, overflow) := uMulOverflow (uSetUint64 (Gas msg)) (GasPrice msg) in
  if overflow then (st, Some ErrInsufficientFunds)
  else
    let '(balanceCheck, overflow) :=
      match FeeCap msg with
      | None => (mgval, false)
      | Some cap =>
          let '(c, o1) := uMulOverflow (uSetUint64 (Gas msg)) cap in
          if o1 then (c, true)
          else uAddOverflow c (Value msg)
      end in
    if overflow then (st, Some ErrInsufficientFunds)
    else
      let '(s, have) := GetBalance (state st) (From msg) in
      let st := set_state s st in
      let subBalance := negb (uLt have balanceCheck) in
      if negb subBalance && negb gasBailout then (st, Some ErrInsufficientFunds)
      else
        let '(gp', err) := GasPool.SubGas (gp st) (Gas msg) in
        let st := {| gp := gp'; gas := gas st; initialGas := initialGas st; state := state st |} in
        match err with
        | Some e => if negb gasBailout then (st, Some e)
                    else ({| gp := gp st; gas := gas st +u Gas msg; initialGas := Gas msg;
                             state := if subBalance then SubBalance (state st) (From msg) mgval else state st |}, None)
        | None => ({| gp := gp st; gas := gas st +u Gas msg; initialGas := Gas msg;
                      state := if subBalance then SubBalance (state st) (From msg) mgval else state st |}, None)
        end.

Definition CheckEip1559TxGasFeeCap (gasFeeCap tip : u256) (baseFee : option u256) (isFree : bool) : option error :=
  if uLt gasFeeCap tip then Some ErrTipAboveFeeCap
  else match baseFee with
       | Some b => if uLt gasFeeCap b && negb isFree then Some ErrFeeCapTooLow else None
       | None => None
       end.

(** The nonce and sender part of [preCheck]. *)
Definition checkSender (msg : Message) (s : IntraBlockState) : IntraBlockState * option error :=
  if CheckNonce msg then
    let '(s, stNonce) := GetNonce s (From msg) in
    if stNonce <? MNonce msg then (s, Some ErrNonceTooHigh)
    else if MNonce msg <? stNonce then (s, Some ErrNonceTooLow)
    else if stNonce +u 1 <? stNonce then (s, Some ErrNonceMax)
    else
      let '(s, codeHash) := GetCodeHash s (From msg) in
      if negb (codeHash =? emptyCodeHash) && negb (codeHash =? 0) then (s, Some ErrSenderNoEOA)
      else (s, None)
  else (s, None).

Definition preCheck (ctx : TxContext) (msg : Message) (gasBailout : bool) (st : StateTransition)
  : option (StateTransition * option error) :=
  let '(s, err) := checkSender msg (state st) in
  let st := set_state s st in
  match err with
  | Some e => Some (st, Some e)
  | None =>
      if Rules.IsLondon (ChainRules ctx) then
        cap ← FeeCap msg;
        let err :=
          if negb (NoBaseFee ctx) || negb (uIsZero cap) || negb (uIsZero (Tip msg))
          then CheckEip1559TxGasFeeCap cap (Tip msg) (ctxBaseFee ctx) (IsFree msg)
          else None in
        match err with
        | Some e => Some (st, Some e)
        | None => Some (buyGas msg gasBailout st)
        end
      else Some (buyGas msg gasBailout st)
  end.

Definition gasUsed (st : StateTransition) : Z := initialGas st -u gas st.

Definition refundGas (msg : Message) (refundQuotient : Z) (st : StateTransition) : option StateTransition :=
  let refund := gasUsed st / refundQuotient in
  let refund := if GetRefund (state st) <? refund then GetRefund (state st) else refund in
  let gas' := gas st +u refund in
  let remaining := uMul (uSetUint64 gas') (GasPrice msg) in
  let s := AddBalance (state st) (From msg) remaining in
  gp' ← GasPool.AddGas (gp st) gas';
  Some {| gp := gp'; gas := gas'; initialGas := initialGas st; state := s |}.

(** [CanTransfer] of [internal/evm.go]. *)
Definition CanTransfer (s : IntraBlockState) (a : Address) (amount : u256) : IntraBlockState * bool :=
  let '(s, b) := GetBalance s a in (s, negb (uLt b amount)).

(** The price per gas the block producer receives. *)
Definition effectiveTip (ctx : TxContext) (msg : Message) : option u256 :=
  if Rules.IsLondon (ChainRules ctx) then
    cap ← FeeCap msg;
    base ← ctxBaseFee ctx;
    if uGt cap base
    then let d := uSub cap base in Some (if uLt d (Tip msg) then d else Tip msg)
    else Some uzero
  else Some (GasPrice msg).

Context `{VM : VMInterface}.

(** The state the machine is called on: access list and nonce are set up. *)
Definition prepareCall (ctx : TxContext) (msg : Message) (s : IntraBlockState) : option IntraBlockState :=
  s ← (if Rules.IsBerlin (ChainRules ctx) then
         s ← PrepareAccessList s (From msg) (To msg) (ActivePrecompiles ctx) (from_nil (MAccessList msg));
         Some (if Rules.IsShanghai (ChainRules ctx) then AddAddressToAccessList s (ctxCoinbase ctx) else s)
       else Some s);
  Some (match To msg with
        | None => s
        | Some _ => let '(s, n) := GetNonce s (From msg) in SetNonce s (From msg) (n +u 1)
        end).

Definition TransitionDb (ctx : TxContext) (msg : Message) (refunds gasBailout : bool) (st : StateTransition)
  : option (StateTransition * (ExecutionResult + error)) :=
  let gasBailout := isParlia ctx || gasBailout in
  '(st, err) ← preCheck ctx msg gasBailout st;
  match err with
  | Some e => Some (st, inr e)
  | None =>
      let contractCreation := bool_decide (To msg = None) in
      let rules := ChainRules ctx in
      match IntrinsicGas (Data msg) (MAccessList msg) contractCreation (Rules.IsHomestead rules)
              (Rules.IsIstanbul rules) (Rules.IsShanghai rules) with
      | Panic => None
      | Err e => Some (st, inr e)
      | Ok intrinsic =>
          if gas st <? intrinsic then Some (st, inr ErrIntrinsicGas)
          else
            let st := set_gas (gas st -u intrinsic) st in
            let '(s, bailout) :=
              if gasBailout && negb (uIsZero (Value msg))
              then let '(s, can) := CanTransfer (state st) (From msg) (Value msg) in (s, negb can)
              else (state st, false) in
            s ← prepareCall ctx msg s;
            let '(s, ret, g, vmerr) :=
              match To msg with
              | None => Create s (From msg) (Data msg) (gas st) (Value msg)
              | Some to => Call s (From msg) to (Data msg) (gas st) (Value msg) bailout
              end in
            let st := set_gas g (set_state s st) in
            st ← (if refunds
                  then refundGas msg (if Rules.IsLondon rules then RefundQuotientEIP3529 else RefundQuotient) st
                  else Some st);
            tip ← effectiveTip ctx msg;
            let amount := uMul (uSetUint64 (gasUsed st)) tip in
            let s := if isParlia ctx then AddBalance (state st) SystemAddress amount
                     else AddBalance (state st) (ctxCoinbase ctx) amount in
            s ← (if negb (IsFree msg) && Rules.IsLondon rules && Rules.IsEip1559FeeCollector rules then
                   collector ← Eip1559FeeCollector ctx;
                   base ← ctxBaseFee ctx;
                   Some (AddBalance s collector (uMul (uSetUint64 (gasUsed st)) base))
                 else Some s);
            let st := set_state s st in
            Some (st, inl {| UsedGas := gasUsed st; ErrVM := vmerr; ReturnData := ret |})
      end
  end.

End Transition.

(** ** Balances through the steps before and after the machine *)

Section Steps.
Context `{U : Uint256} `{E : @StateEnv U}.
Implicit Types s t : IntraBlockState.

(** [t] has the balances and the refund counter of [s]. *)
Record keeps_balances s t : Prop := {
  kb_inv : WInv t;
  kb_reader : stateReader t = stateReader s;
  kb_refund : refund t = refund s;
  kb_all : forall b, balance_of t b = balance_of s b
}.

Lemma keeps_balances_refl s : WInv s -> keeps_balances s s.
Proof. by split. Qed.

Lemma keeps_balances_trans s t u : keeps_balances s t -> keeps_balances t u -> keeps_balances s u.
Proof. intros [] []. split; congruence. Qed.

Lemma keeps_balances_reads s t : keeps_balances s t -> reads_ok s -> reads_ok t.
Proof. intros K R b. rewrite (kb_reader _ _ K). apply R. Qed.

Lemma balanced_keeps s t a : balanced s t a (balance_of s a) -> refund t = refund s -> keeps_balances s t.
Proof.
  intros B Hr. split; [apply B|apply B|done|]. intros b.
  destruct (decide (b = a)) as [->|]; [apply B|by apply (ba_other _ _ _ _ B)].
Qed.

Lemma setStateObject_refund s a o : refund (setStateObject s a o).1 = refund s.
Proof. unfold setStateObject. by destruct (pending s a) as [[]|]. Qed.

Lemma createObject_refund s a p : refund (createObject s a p).1 = refund s.
Proof. unfold createObject. by rewrite setStateObject_refund. Qed.

Lemma getStateObject_refund s a : refund (getStateObject s a).1 = refund s.
Proof.
  unfold getStateObject. destruct (stateObjects s !! a); [done|].
  assert (forall s1, refund s1 = refund s ->
    refund (match pending s1 a with Some _ => let '(s, o) := createObject s1 a None in (s, Some o)
            | None => (s1, None) end).1 = refund s) as Hc.
  { intros s1 H1. destruct (pending s1 a); [|done]. pose proof (createObject_refund s1 a None) as Hr.
    destruct (createObject s1 a None). cbn in *. congruence. }
  case_decide; [by apply Hc|]. destruct (ReadAccountData (stateReader s) a) as [[acc|] [e|]]; try (by apply Hc).
  - unfold setError. by case_match.
  - set (s1 := match snap s with Some _ => _ | None => s end).
    assert (refund s1 = refund s) as H1 by (subst s1; by repeat case_match).
    pose proof (setStateObject_refund s1 a (newObject a acc acc)) as Hr.
    destruct (setStateObject s1 a _). cbn in *. congruence.
  - unfold setError. by case_match.
Qed.

Lemma GetOrNewStateObject_refund s a : refund (GetOrNewStateObject s a).1 = refund s.
Proof.
  unfold GetOrNewStateObject. pose proof (getStateObject_refund s a) as Hr.
  destruct (getStateObject s a) as [t [o|]]; cbn in Hr; [case_match; [|done]|];
    rewrite <- Hr; apply createObject_refund.
Qed.

Lemma getStateObject_keeps s a : WInv s -> reads_ok s -> keeps_balances s (getStateObject s a).1.
Proof.
  intros WI R. pose proof (getStateObject_balanced s a WI R) as Hg. pose proof (getStateObject_refund s a) as Hr.
  destruct (getStateObject s a). by eapply balanced_keeps; [apply Hg|].
Qed.

Lemma GetNonce_keeps s a : WInv s -> reads_ok s -> keeps_balances s (GetNonce s a).1.
Proof.
  intros WI R. unfold GetNonce. pose proof (getStateObject_keeps s a WI R). by destruct (getStateObject s a).
Qed.

Lemma GetCodeHash_keeps s a : WInv s -> reads_ok s -> keeps_balances s (GetCodeHash s a).1.
Proof.
  intros WI R. unfold GetCodeHash. pose proof (getStateObject_keeps s a WI R). by destruct (getStateObject s a).
Qed.

Lemma GetBalance_keeps s a : WInv s -> reads_ok s -> keeps_balances s (GetBalance s a).1.
Proof.
  intros WI R. unfold GetBalance. pose proof (getStateObject_keeps s a WI R). by destruct (getStateObject s a).
Qed.

Lemma SetNonce_keeps s a n : WInv s -> reads_ok s -> keeps_balances s (SetNonce s a n).
Proof.
  intros WI R. unfold SetNonce. pose proof (GetOrNewStateObject_balanced s a WI R) as Hg.
  pose proof (GetOrNewStateObject_refund s a) as Hr.
  destruct (GetOrNewStateObject s a) as [t o]. destruct Hg as (B & Ho & Hd & Hb).
  assert (WInv t) as WT by apply B. destruct (wi_live _ WT a o Ho) as [Ha Hi].
  eapply (balanced_keeps s _ a); [|done]. eapply balanced_trans; [exact B|]. unfold so_SetNonce.
  eapply balanced_trans; [by apply (balanced_append t (nonceChange (address o) (Nonce (data o))))|].
  rewrite <- Hb. apply (balanced_put (append t _) (so_setNonce n o) a); [|done|done| |done].
  - by apply (balanced_append t _ a).
  - change (pending t a = None). by eapply pending_none_inserted.
Qed.

Lemma accList_keeps s al : WInv s -> AccessList.wf al -> keeps_balances s (set_accList al s).
Proof. intros WI Hal. destruct WI. split; auto. split; auto. Qed.

Lemma append_keeps s e : WInv s -> keeps_balances s (append s e).
Proof. intros WI. eapply (balanced_keeps s _ 0); [by apply balanced_append|done]. Qed.

Lemma AddAddressToAccessList_keeps s a : WInv s -> keeps_balances s (AddAddressToAccessList s a).
Proof.
  intros WI. unfold AddAddressToAccessList.
  pose proof (AccessList.wf_AddAddress (accList s) a (wi_accList _ WI)) as Hal.
  destruct (AccessList.AddAddress (accList s) a) as [al b]. pose proof (accList_keeps s al WI Hal) as K.
  destruct b; [|done]. eapply keeps_balances_trans; [exact K|]. apply append_keeps, K.
Qed.

Lemma AddSlotToAccessList_keeps s a k t :
  WInv s -> AddSlotToAccessList s a k = Some t -> keeps_balances s t.
Proof.
  intros WI. unfold AddSlotToAccessList.
  destruct (AccessList.AddSlot (accList s) a k) as [[al [b1 b2]]|] eqn:Es; cbn; [|done]. intros [= <-].
  pose proof (accList_keeps s al WI (AccessList.wf_AddSlot _ _ _ _ _ (wi_accList _ WI) Es)) as K.
  assert (forall e s1, keeps_balances s s1 -> keeps_balances s (append s1 e)) as Ha.
  { intros e s1 K1. eapply keeps_balances_trans; [exact K1|]. apply append_keeps, K1. }
  destruct b1, b2; auto.
Qed.

Lemma foldl_keeps {A} (f : IntraBlockState -> A -> IntraBlockState) l s :
  (forall s x, WInv s -> keeps_balances s (f s x)) -> WInv s -> keeps_balances s (foldl f s l).
Proof.
  intros Hf. revert s. induction l as [|x l IH]; intros s WI; cbn; [by apply keeps_balances_refl|].
  pose proof (Hf s x WI) as K. eapply keeps_balances_trans; [exact K|]. apply IH, K.
Qed.

Lemma foldl_option_keeps {A} (f : IntraBlockState -> A -> option IntraBlockState) l s t :
  (forall s x t, WInv s -> f s x = Some t -> keeps_balances s t) -> WInv s ->
  foldl (fun os x => s ← os; f s x) (Some s) l = Some t -> keeps_balances s t.
Proof.
  intros Hf. revert s. induction l as [|x l IH]; intros s WI; cbn; [intros [= ->]; by apply keeps_balances_refl|].
  destruct (f s x) as [s1|] eqn:Ef.
  - intros Hl. pose proof (Hf s x s1 WI Ef) as K. eapply keeps_balances_trans; [exact K|]. by apply IH; [apply K|].
  - assert (foldl (fun os x => s ← os; f s x) None l = None) as -> by (clear; induction l; done). done.
Qed.

Lemma PrepareAccessList_keeps s a d pre l t :
  WInv s -> PrepareAccessList s a d pre l = Some t -> keeps_balances s t.
Proof.
  intros WI. unfold PrepareAccessList. set (s1 := AddAddressToAccessList s a).
  assert (keeps_balances s s1) as K1 by (by apply AddAddressToAccessList_keeps).
  set (s2 := match d with Some d => AddAddressToAccessList s1 d | None => s1 end).
  assert (keeps_balances s s2) as K2.
  { subst s2. destruct d; [|done]. eapply keeps_balances_trans; [exact K1|]. apply AddAddressToAccessList_keeps, K1. }
  pose proof (foldl_keeps AddAddressToAccessList pre s2 AddAddressToAccessList_keeps (kb_inv _ _ K2)) as K3.
  set (s3 := foldl _ s2 pre) in *. intros Hl.
  eapply keeps_balances_trans; [exact K2|]. eapply keeps_balances_trans; [exact K3|].
  eapply (foldl_option_keeps (fun s (el : Address * list Hash) =>
    foldl (fun os key => s ← os; AddSlotToAccessList s el.1 key) (Some (AddAddressToAccessList s el.1)) el.2) l);
    [|apply K3|exact Hl].
  intros u [b ks] v WU Hks. pose proof (AddAddressToAccessList_keeps u b WU) as K4.
  eapply keeps_balances_trans; [exact K4|].
  eapply (foldl_option_keeps (fun s key => AddSlotToAccessList s b key)); [|apply K4|exact Hks].
  intros; by eapply AddSlotToAccessList_keeps.
Qed.

End Steps.

(** ** Intrinsic gas *)

Section Intrinsic.
Variable data : list Z.
Variables isContractCreation isHomestead isEIP2028 isEIP3860 : bool.

Definition nonZero : Z := Z.of_nat (length (filter (fun b => b <> 0) data)).
Definition dataLength : Z := Z.of_nat (length data).

(** The cost of the transaction and its data, as the Yellow Paper and EIP-2028
    and EIP-3860 state it. *)
Definition dataCost : Z :=
  (if isContractCreation && isHomestead then TxGasContractCreation else TxGas) +
  nonZero * (if isEIP2028 then TxDataNonZeroGasEIP2028 else TxDataNonZeroGasFrontier) +
  (dataLength - nonZero) * TxDataZeroGas +
  (if isContractCreation && isEIP3860 then (dataLength + 31) / 32 * InitCodeWordGas else 0).

Lemma nonZero_range : 0 <= nonZero <= dataLength.
Proof. unfold nonZero, dataLength. pose proof (length_filter (fun b => b <> 0) data). lia. Qed.

(** The guard before each addition is exactly that it does not overflow. *)
Lemma guard_spec g n k : in_u64 g -> 0 <= n -> 0 < k ->
  ((MaxUint64 -u g) / k <? n) = (two64 <=? g + n * k).
Proof.
  unfold in_u64, MaxUint64. intros Hg Hn Hk. rewrite sub64_small by (unfold in_u64; lia).
  apply Bool.eq_iff_eq_true. rewrite Z.ltb_lt, Z.leb_le.
  pose proof (Z.mul_div_le (18446744073709551615 - g) k Hk).
  pose proof (Z.mul_succ_div_gt (18446744073709551615 - g) k Hk). nia.
Qed.

Lemma guarded_add g n k : in_u64 g -> 0 <= n -> 0 < k -> g + n * k < two64 -> g +u n *u k = g + n * k.
Proof.
  unfold in_u64. intros Hg Hn Hk Hs. rewrite mul64_small by (unfold in_u64; nia).
  rewrite add64_small; [done|unfold in_u64; nia].
Qed.

Lemma toWordSize_spec n : in_u64 n -> toWordSize n = (n + 31) / 32.
Proof.
  unfold in_u64, toWordSize, MaxUint64. intros Hn. case_match; zbool.
  - assert (n + 31 = 32 * 576460752303423488 + (n + 31 - 18446744073709551616)) as -> by lia.
    rewrite Z.mul_comm, Z.div_add_l by lia. rewrite (Z.div_small (n + 31 - _)) by lia. done.
  - by rewrite add64_small by (unfold in_u64; lia).
Qed.

(** Each step checks that it fits, so the sum is exact or an error. *)
Lemma IntrinsicGas_data :
  in_u64 dataLength ->
  IntrinsicGas data None isContractCreation isHomestead isEIP2028 isEIP3860 =
  if two64 <=? dataCost then Err ErrGasUintOverflow else Ok dataCost.
Proof.
  intros Hd. pose proof nonZero_range as Hnz. unfold IntrinsicGas, dataCost.
  fold dataLength nonZero. set (base := if isContractCreation && isHomestead then _ else _).
  assert (0 <= base <= 53000) as Hb by (subst base; unfold TxGas, TxGasContractCreation; case_match; lia).
  set (nzg := if isEIP2028 then _ else _).
  assert (0 < nzg) as Hg by (subst nzg; unfold TxDataNonZeroGasEIP2028, TxDataNonZeroGasFrontier; case_match; lia).
  unfold in_u64 in Hd. set (words := (dataLength + 31) / 32).
  assert (0 <= words) as Hw by (apply Z.div_pos; lia).
  unfold TxDataZeroGas, InitCodeWordGas.
  destruct (Z.ltb_spec 0 dataLength) as [Hpos|Hzero].
  2: { assert (dataLength = 0) as H0 by lia. assert (nonZero = 0) as H1 by lia.
       assert (words = 0) as H2 by (subst words; by rewrite H0).
       rewrite H0, H1, H2. cbn [mbind outcome_bind]. rewrite (proj2 (Z.leb_gt _ _)) by (case_match; lia).
       f_equal. case_match; lia. }
  rewrite (guard_spec base nonZero nzg) by (unfold in_u64; lia).
  destruct (Z.leb_spec two64 (base + nonZero * nzg)) as [Ho|Hs1]; cbn [fail_if mbind outcome_bind].
  { rewrite (proj2 (Z.leb_le _ _)) by (case_match; lia). done. }
  rewrite (guarded_add base nonZero nzg) by (unfold in_u64; lia). rewrite (sub64_small dataLength) by (unfold in_u64; lia).
  rewrite (guard_spec _ (dataLength - nonZero) 4) by (unfold in_u64; nia).
  destruct (Z.leb_spec two64 (base + nonZero * nzg + (dataLength - nonZero) * 4)) as [Ho|Hs2];
    cbn [fail_if mbind outcome_bind].
  { rewrite (proj2 (Z.leb_le _ _)) by (case_match; lia). done. }
  rewrite (guarded_add _ (dataLength - nonZero) 4) by (unfold in_u64; nia). destruct (isContractCreation && isEIP3860); cbn [mbind outcome_bind].
  - rewrite toWordSize_spec by (unfold in_u64; lia). fold words. rewrite guard_spec by (unfold in_u64; nia).
    destruct (Z.leb_spec two64 (base + nonZero * nzg + (dataLength - nonZero) * 4 + words * 2)) as [Ho|Hs3];
      cbn [fail_if mbind outcome_bind]; [done|].
    by rewrite guarded_add by (unfold in_u64; nia).
  - rewrite (proj2 (Z.leb_gt _ _)) by lia. f_equal. lia.
Qed.

End Intrinsic.

Lemma StorageKeys_nonneg al : 0 <= StorageKeys al.
Proof. unfold StorageKeys. induction al as [|[a ks] al IH]; cbn [fold_right snd]; lia. Qed.


