(* ===== verification/TransitionTheorems.v ===== *)
(** * TransitionTheorems: gas and fees of a message

    What [TransitionDb] does with the gas of the message, the gas pool of the
    block and the balances of sender, block producer and fee collector, for
    every machine that satisfies [VMInterface]. *)

From S2P Require Import Prelude Uint256 ChainConfig AccessList StateModel StateRevert StateJournal StateSnapshot StateCommit StateBalance StateTransition.

Section Facts.
Context `{U : Uint256} `{E : @StateEnv U}.
Implicit Types s t : IntraBlockState.

Lemma touch_refund s o : refund (touch s o) = refund s.
Proof. unfold touch. by case_match. Qed.

Lemma SubBalance_refund s a v : refund (SubBalance s a v) = refund s.
Proof.
  unfold SubBalance. pose proof (GetOrNewStateObject_refund s a) as Hr.
  destruct (GetOrNewStateObject s a). unfold so_SubBalance. by case_match.
Qed.

Lemma keeps_balanced s t u a v w :
  keeps_balances s t -> balanced t u a v -> (v = w) -> balanced s u a w.
Proof.
  intros K B <-. split; [apply B| |apply B|].
  - rewrite (ba_reader _ _ _ _ B). apply K.
  - intros b Hb. rewrite (ba_other _ _ _ _ B) by done. apply K.
Qed.

Lemma checkSender_keeps msg s :
  WInv s -> reads_ok s -> keeps_balances s (checkSender msg s).1.
Proof.
  intros WI R. unfold checkSender. destruct (CheckNonce msg); [|by apply keeps_balances_refl].
  pose proof (GetNonce_keeps s (From msg) WI R) as K1. destruct (GetNonce s (From msg)) as [s1 n]. cbn in K1.
  repeat (case_match; [done|]).
  pose proof (GetCodeHash_keeps s1 (From msg) (kb_inv _ _ K1) (keeps_balances_reads _ _ K1 R)) as K2.
  destruct (GetCodeHash s1 (From msg)) as [s2 h]. cbn in K2.
  case_match; by eapply keeps_balances_trans.
Qed.

(** The funds a sender needs up front. *)
Definition required (msg : Message) : Z :=
  match FeeCap msg with
  | Some cap => Gas msg * uval cap + uval (Value msg)
  | None => Gas msg * uval (GasPrice msg)
  end.

(** What buying the gas does: nothing but move it from the pool to the
    transition and the price out of the sender's balance. *)
Record bought (msg : Message) (st st' : StateTransition) : Prop := {
  bo_cost : Gas msg * uval (GasPrice msg) < two256;
  bo_pool : Gas msg <= gp st /\ gp st' = gp st - Gas msg;
  bo_gas : gas st' = gas st +u Gas msg /\ initialGas st' = Gas msg;
  bo_funds : required msg <= uval (balance_of (state st) (From msg));
  bo_refund : refund (state st') = refund (state st);
  bo_balance : balanced (state st) (state st') (From msg)
    (uSub (balance_of (state st) (From msg)) (uMul (uSetUint64 (Gas msg)) (GasPrice msg)))
}.

Lemma uMul_gas g p : in_u64 g -> g * uval p < two256 -> uval (uMul (uSetUint64 g) p) = g * uval p.
Proof.
  intros Hg Hs. rewrite uMul_small; rewrite uSetUint64_spec by done; done.
Qed.

Lemma SubGas_None x amount y :
  in_u64 x -> in_u64 amount -> GasPool.SubGas x amount = (y, None) -> amount <= x /\ y = x - amount.
Proof.
  unfold GasPool.SubGas, in_u64. intros Hx Ha. case_match; zbool; [done|]. intros [= <-].
  split; [lia|]. apply sub64_small. unfold in_u64. lia.
Qed.

Lemma buyGas_ok msg st st' :
  WInv (state st) -> reads_ok (state st) -> in_u64 (gp st) -> in_u64 (Gas msg) ->
  buyGas msg false st = (st', None) -> bought msg st st'.
Proof.
  intros WI R Hgp Hg. unfold buyGas. rewrite uMulOverflow_spec. rewrite uSetUint64_spec by done.
  destruct (Z.leb_spec two256 (Gas msg * uval (GasPrice msg))) as [|Hc]; [done|].
  set (mgval := uMul (uSetUint64 (Gas msg)) (GasPrice msg)).
  destruct (match FeeCap msg with None => (mgval, false) | Some cap => _ end) as [check ov] eqn:Ech.
  destruct ov; [done|].
  assert (uval check = required msg) as Hcheck.
  { unfold required. destruct (FeeCap msg) as [cap|]; [|injection Ech as <-; by apply uMul_gas].
    rewrite uMulOverflow_spec in Ech. rewrite uSetUint64_spec in Ech by done.
    destruct (Z.leb_spec two256 (Gas msg * uval cap)); [done|]. rewrite uAddOverflow_spec in Ech.
    injection Ech as <- Ho. apply Z.leb_gt in Ho. rewrite uAdd_small by done. by rewrite uMul_gas. }
  destruct (GetBalance_balanced (state st) (From msg) WI R) as [Hv _].
  pose proof (GetBalance_keeps (state st) (From msg) WI R) as K.
  destruct (GetBalance (state st) (From msg)) as [s1 have]. cbn in Hv, K. subst have.
  unfold uLt. rewrite Hcheck. destruct (Z.ltb_spec (uval (balance_of (state st) (From msg))) (required msg)); [done|].
  cbn. destruct (GasPool.SubGas (gp st) (Gas msg)) as [gp' [e|]] eqn:Es; [done|]. intros [= <-].
  destruct (SubGas_None _ _ _ Hgp Hg Es) as [Hle ->]. split; cbn; auto.
  - rewrite SubBalance_refund. apply K.
  - eapply keeps_balanced; [exact K|apply SubBalance_balanced; [apply K|by eapply keeps_balances_reads]|].
    by rewrite (kb_all _ _ K).
Qed.

Lemma preCheck_ok ctx msg st st' :
  WInv (state st) -> reads_ok (state st) -> in_u64 (gp st) -> in_u64 (Gas msg) ->
  preCheck ctx msg false st = Some (st', None) -> bought msg st st'.
Proof.
  intros WI R Hgp Hg. unfold preCheck. pose proof (checkSender_keeps msg (state st) WI R) as K.
  destruct (checkSender msg (state st)) as [s1 [e|]]; cbn in K; [done|].
  assert (forall st', buyGas msg false (set_state s1 st) = (st', None) -> bought msg st st') as Hb.
  { intros st1 H. apply buyGas_ok in H; [|apply K|by eapply keeps_balances_reads|done|done].
    destruct H as [H1 H2 H3 H4 H5 H6]. cbn in *. rewrite (kb_all _ _ K) in *. split; auto.
    - rewrite H5. apply K.
    - by eapply keeps_balanced. }
  intros Hp. apply Hb. revert Hp. destruct (Rules.IsLondon (ChainRules ctx)); [|by intros [= Hx]].
  destruct (FeeCap msg); cbn; [|done]. case_match; [done|]. by intros [= Hx].
Qed.

Lemma prepareCall_keeps ctx msg s t :
  WInv s -> reads_ok s -> prepareCall ctx msg s = Some t -> keeps_balances s t.
Proof.
  intros WI R. unfold prepareCall. intros H.
  assert (exists s1, keeps_balances s s1 /\
    t = match To msg with None => s1
        | Some _ => let '(s, n) := GetNonce s1 (From msg) in SetNonce s (From msg) (n +u 1) end) as (s1 & K & ->).
  { destruct (Rules.IsBerlin (ChainRules ctx)); cbn in H; [|injection H as <-; exists s; split; [by apply keeps_balances_refl|done]].
    destruct (PrepareAccessList _ _ _ _ _) as [s1|] eqn:Ep; cbn in H; [|done]. injection H as <-.
    pose proof (PrepareAccessList_keeps _ _ _ _ _ _ WI Ep) as K1. eexists. split; [|done].
    case_match; [|done]. eapply keeps_balances_trans; [exact K1|]. apply AddAddressToAccessList_keeps, K1. }
  destruct (To msg); [|done].
  pose proof (GetNonce_keeps s1 (From msg) (kb_inv _ _ K) (keeps_balances_reads _ _ K R)) as K2.
  destruct (GetNonce s1 (From msg)) as [s2 n]. cbn in K2.
  eapply keeps_balances_trans; [exact K|]. eapply keeps_balances_trans; [exact K2|].
  apply SetNonce_keeps; [apply K2|]. eapply keeps_balances_reads; [exact K2|]. by eapply keeps_balances_reads.
Qed.

(** The gas handed back after the machine left [g] of [total]. *)
Definition refunded (total g q : Z) (counter : Z) : Z := Z.min ((total - g) / q) counter.

Lemma refundGas_ok msg q st st' :
  WInv (state st) -> reads_ok (state st) -> 0 < q -> in_u64 (initialGas st) -> 0 <= gas st <= initialGas st ->
  in_u64 (gp st) -> in_u64 (refund (state st)) -> refundGas msg q st = Some st' ->
  let g' := gas st + refunded (initialGas st) (gas st) q (refund (state st)) in
  gas st' = g' /\ initialGas st' = initialGas st /\ gas st <= g' <= initialGas st /\ gp st' = gp st + g' /\
  balanced (state st) (state st') (From msg)
    (uAdd (balance_of (state st) (From msg)) (uMul (uSetUint64 g') (GasPrice msg))).
Proof.
  intros WI R Hq Hi Hg Hgp Hr. unfold in_u64 in *. unfold refundGas, gasUsed, GetRefund.
  rewrite sub64_small by (unfold in_u64; lia).
  assert (0 <= (initialGas st - gas st) / q <= initialGas st - gas st).
  { split; [apply Z.div_pos; lia|apply Z.div_le_upper_bound; [lia|nia]]. }
  set (rf := if refund (state st) <? _ then _ else _).
  assert (rf = refunded (initialGas st) (gas st) q (refund (state st))) as ->.
  { subst rf. unfold refunded. case_match; zbool; lia. }
  set (r := refunded _ _ _ _). assert (0 <= r <= initialGas st - gas st) by (subst r; unfold refunded; lia).
  rewrite (add64_small (gas st)) by (unfold in_u64; lia).
  rewrite GasPool.AddGas_spec by (unfold in_u64; lia). case_match; cbn; [done|]. intros [= <-]. cbn.
  split_and!; [done|done|lia|lia|done|]. by apply AddBalance_balanced.
Qed.

End Facts.

Section Transition.
Context `{U : Uint256} `{E : @StateEnv U} `{VM : @VMInterface U}.
Implicit Types s t : IntraBlockState.

(** The call of the machine. *)
Definition machine (msg : Message) s (g : Z) (bailout : bool) : IntraBlockState * list Z * Z * option error :=
  match To msg with
  | None => Create s (From msg) (Data msg) g (Value msg)
  | Some to => Call s (From msg) to (Data msg) g (Value msg) bailout
  end.

Lemma machine_gas msg s g b : in_u64 g -> 0 <= (machine msg s g b).1.2 <= g.
Proof. intros. unfold machine. case_match; [by apply Call_gas|by apply Create_gas]. Qed.

Lemma machine_state msg s g b : WInv s ->
  WInv (machine msg s g b).1.1.1 /\ stateReader (machine msg s g b).1.1.1 = stateReader s.
Proof. intros. unfold machine. case_match; [by apply Call_state|by apply Create_state]. Qed.

Lemma machine_refund msg s g b : in_u64 (refund s) -> in_u64 (refund (machine msg s g b).1.1.1).
Proof. intros. unfold machine. case_match; [by apply Call_refund|by apply Create_refund]. Qed.

(** The quotient that caps the refund. *)
Definition quotient (ctx : TxContext) : Z :=
  if Rules.IsLondon (ChainRules ctx) then RefundQuotientEIP3529 else RefundQuotient.

(** Who receives the base fee, and at which price: nobody unless the collector
    is active. *)
Definition burn (ctx : TxContext) (msg : Message) : option (Address * u256) :=
  if negb (IsFree msg) && Rules.IsLondon (ChainRules ctx) && Rules.IsEip1559FeeCollector (ChainRules ctx)
  then c ← Eip1559FeeCollector ctx; b ← ctxBaseFee ctx; Some (c, b)
  else None.

Definition intrinsicOf (ctx : TxContext) (msg : Message) : outcome Z :=
  let rules := ChainRules ctx in
  IntrinsicGas (Data msg) (MAccessList msg) (bool_decide (To msg = None)) (Rules.IsHomestead rules)
    (Rules.IsIstanbul rules) (Rules.IsShanghai rules).

(** The anatomy of a transition that succeeds: the state [s_in] the machine is
    called on, what it returns, and the final state. *)
Record applied (ctx : TxContext) (msg : Message) s (gp0 : Z) (st : StateTransition) (r : ExecutionResult)
  (intrinsic g : Z) s_in s_out (tip : u256) : Prop := {
  ap_intrinsic : intrinsicOf ctx msg = Ok intrinsic;
  ap_tip : effectiveTip ctx msg = Some tip;
  ap_bounds : intrinsic <= Gas msg <= gp0 /\ 0 <= g <= Gas msg - intrinsic;
  ap_machine : machine msg s_in (Gas msg - intrinsic) false = (s_out, ReturnData r, g, ErrVM r);
  ap_used : UsedGas r = Gas msg - g - refunded (Gas msg) g (quotient ctx) (refund s_out);
  ap_used_range : 0 <= UsedGas r <= Gas msg - g;
  ap_pool : gp st = gp0 - UsedGas r;
  ap_cost : Gas msg * uval (GasPrice msg) < two256;
  ap_funds : required msg <= uval (balance_of s (From msg));
  ap_in : forall b, balance_of s_in b =
    upd (balance_of s) (From msg) (uSub (balance_of s (From msg)) (uMul (uSetUint64 (Gas msg)) (GasPrice msg))) b;
  ap_out : forall b, balance_of (state st) b =
    let f1 := upd (balance_of s_out) (From msg)
      (uAdd (balance_of s_out (From msg)) (uMul (uSetUint64 (Gas msg - UsedGas r)) (GasPrice msg))) in
    let f2 := upd f1 (ctxCoinbase ctx) (uAdd (f1 (ctxCoinbase ctx)) (uMul (uSetUint64 (UsedGas r)) tip)) in
    match burn ctx msg with
    | Some (c, base) => upd f2 c (uAdd (f2 c) (uMul (uSetUint64 (UsedGas r)) base)) b
    | None => f2 b
    end
}.

Lemma quotient_pos ctx : 0 < quotient ctx.
Proof. unfold quotient, RefundQuotientEIP3529, RefundQuotient. case_match; lia. Qed.

Lemma IntrinsicGas_nonneg data al a b c d g : IntrinsicGas data al a b c d = Ok g -> 0 <= g.
Proof.
  assert (forall x y, 0 <= x +u y) as Ha by (intros; apply u64_range).
  unfold IntrinsicGas. rewrite bind_Ok. intros (g0 & H0 & Hg).
  destruct al; [injection Hg as <-; apply Ha|]. injection Hg as <-. destruct (0 <? Z.of_nat (length data)).
  - apply bind_Ok in H0 as (? & _ & H0). apply bind_Ok in H0 as (? & _ & H0).
    destruct (a && d); [apply bind_Ok in H0 as (? & _ & H0)|]; injection H0 as <-; apply Ha.
  - injection H0 as <-. unfold TxGas, TxGasContractCreation. case_match; lia.
Qed.

Lemma balanced_upd_trans t u (f : Address -> u256) a v :
  (forall b, balance_of t b = f b) -> balanced t u a v -> forall b, balance_of u b = upd f a v b.
Proof. intros Hf B. by apply (balanced_upd t). Qed.

(** Paying the producer and the collector at the end. *)
Lemma payout ctx msg s s' tip used :
  WInv s -> reads_ok s ->
  (if negb (IsFree msg) && Rules.IsLondon (ChainRules ctx) && Rules.IsEip1559FeeCollector (ChainRules ctx) then
     c ← Eip1559FeeCollector ctx; b ← ctxBaseFee ctx;
     Some (AddBalance (AddBalance s (ctxCoinbase ctx) (uMul (uSetUint64 used) tip)) c (uMul (uSetUint64 used) b))
   else Some (AddBalance s (ctxCoinbase ctx) (uMul (uSetUint64 used) tip))) = Some s' ->
  forall b, balance_of s' b =
    let f2 := upd (balance_of s) (ctxCoinbase ctx)
                (uAdd (balance_of s (ctxCoinbase ctx)) (uMul (uSetUint64 used) tip)) in
    match burn ctx msg with
    | Some (c, base) => upd f2 c (uAdd (f2 c) (uMul (uSetUint64 used) base)) b
    | None => f2 b
    end.
Proof.
  intros WI R. set (s1 := AddBalance s _ _).
  pose proof (AddBalance_balanced s (ctxCoinbase ctx) (uMul (uSetUint64 used) tip) WI R) as B1.
  pose proof (balanced_upd_trans s s1 (balance_of s) _ _ (fun _ => eq_refl) B1) as H1. cbn in B1. fold s1 in B1.
  unfold burn. destruct (negb (IsFree msg) && _ && _); cbn; [|by intros [= <-]].
  destruct (Eip1559FeeCollector ctx) as [c|]; cbn; [|done]. destruct (ctxBaseFee ctx) as [base|]; cbn; [|done].
  intros [= <-] b.
  pose proof (AddBalance_balanced s1 c (uMul (uSetUint64 used) base) (ba_inv _ _ _ _ B1)
    (balanced_reads _ _ _ _ B1 R)) as B2.
  rewrite (balanced_upd_trans s1 _ _ _ _ H1 B2). by rewrite H1.
Qed.

Lemma upd_ext (f g : Address -> u256) a v b : (forall b, f b = g b) -> upd f a v b = upd g a v b.
Proof. intros H. unfold upd. by case_decide. Qed.

Lemma transition_applied ctx msg s gp0 st r :
  WInv s -> reads_ok s -> in_u64 gp0 -> in_u64 (Gas msg) -> in_u64 (refund s) -> isParlia ctx = false ->
  TransitionDb ctx msg true false (NewStateTransition s gp0) = Some (st, inl r) ->
  exists intrinsic g s_in s_out tip, applied ctx msg s gp0 st r intrinsic g s_in s_out tip.
Proof.
  intros WI R Hgp Hg Hrf Hpar. unfold TransitionDb. rewrite Hpar. cbn [orb].
  destruct (preCheck ctx msg false (NewStateTransition s gp0)) as [[st1 [e|]]|] eqn:Ep; cbn; [done| |done].
  destruct (preCheck_ok ctx msg (NewStateTransition s gp0) st1 WI R Hgp Hg Ep) as [B1 [B2 B2'] [B3 B3'] B4 B5 B6]. cbn in B2, B2', B3, B4, B5, B6.
  rewrite add64_small, Z.add_0_l in B3 by done. unfold in_u64 in Hg, Hgp.
  fold (intrinsicOf ctx msg). destruct (intrinsicOf ctx msg) as [intr| |] eqn:Ei; [|done|done].
  pose proof (IntrinsicGas_nonneg _ _ _ _ _ _ _ Ei) as Hi0.
  destruct (Z.ltb_spec (gas st1) intr) as [|Hle]; [done|].
  rewrite sub64_small by (unfold in_u64; lia). rewrite B3 in *. cbn [set_gas gas state].
  pose proof (ba_inv _ _ _ _ B6) as W1. pose proof (balanced_reads _ _ _ _ B6 R) as R1.
  destruct (prepareCall ctx msg (state st1)) as [s_in|] eqn:Epc; cbn [mbind option_bind]; [|done].
  pose proof (prepareCall_keeps ctx msg _ _ W1 R1 Epc) as K.
  fold (machine msg s_in (Gas msg - intr) false).
  pose proof (machine_gas msg s_in (Gas msg - intr) false ltac:(unfold in_u64; lia)) as Mg.
  pose proof (machine_state msg s_in (Gas msg - intr) false (kb_inv _ _ K)) as [Ms Mr].
  pose proof (machine_refund msg s_in (Gas msg - intr) false) as Mf.
  destruct (machine msg s_in (Gas msg - intr) false) as [[[s_out ret] g] vmerr] eqn:Em. cbn [fst snd] in *.
  assert (in_u64 (refund s_out)) as Hro by (apply Mf; rewrite (kb_refund _ _ K), B5; done).
  assert (reads_ok s_out) as Ro.
  { intros b. rewrite Mr. apply (keeps_balances_reads _ _ K R1). }
  fold (quotient ctx). match goal with |- context [refundGas msg (quotient ctx) ?x] => set (st2 := x) end.
  destruct (refundGas msg (quotient ctx) st2) as [st3|] eqn:Er; cbn [mbind option_bind]; [|done].
  destruct (refundGas_ok msg (quotient ctx) st2 st3 Ms Ro (quotient_pos ctx)) as (G1 & G2 & G3 & G4 & G5);
    subst st2; cbn [set_gas set_state gas state gp initialGas] in *; rewrite ?B3' in *; unfold in_u64; try lia; try done.
  destruct (effectiveTip ctx msg) as [tip|] eqn:Et; cbn [mbind option_bind]; [|done].
  assert (gasUsed st3 = Gas msg - gas st3) as Hused.
  { unfold gasUsed. rewrite G2. apply sub64_small. unfold in_u64. lia. }
  rewrite Hused. set (used := Gas msg - gas st3) in *.
  match goal with |- mbind _ ?m = _ -> _ => destruct m as [s'|] eqn:Epay; cbn [mbind option_bind]; [|done] end.
  intros [= <- <-]. pose proof (payout ctx msg (state st3) s' tip used (ba_inv _ _ _ _ G5) (balanced_reads _ _ _ _ G5 Ro) Epay) as Hpay.
  exists intr, g, s_in, s_out, tip.
  assert (gasUsed (set_state s' st3) = used) as Hu' by exact Hused.
  split; cbn [UsedGas ErrVM ReturnData gp set_state state]; rewrite ?Hu'; try done; try lia.
  - intros b. rewrite (kb_all _ _ K). by apply (balanced_upd_trans s).
  - intros b. rewrite Hpay. cbn zeta.
    assert (forall b, balance_of (state st3) b =
      upd (balance_of s_out) (From msg) (uAdd (balance_of s_out (From msg))
        (uMul (uSetUint64 (Gas msg - used)) (GasPrice msg))) b) as H3.
    { replace (Gas msg - used) with (gas st3) by (subst used; lia). rewrite G1. by apply (balanced_upd_trans s_out). }
    destruct (burn ctx msg) as [[c base]|]; rewrite ?H3; [|by apply upd_ext].
    rewrite (upd_ext _ (upd (balance_of s_out) _ _) (ctxCoinbase ctx) _ c H3). apply upd_ext. intros. by apply upd_ext.
Qed.

End Transition.


Lemma upd_same `{U : Uint256} (f : Address -> u256) a v : upd f a v a = v.
Proof. unfold upd. by rewrite decide_True. Qed.

Lemma upd_other `{U : Uint256} (f : Address -> u256) a v b : b <> a -> upd f a v b = f b.
Proof. intros. unfold upd. by rewrite decide_False. Qed.

Lemma credit_exact `{U : Uint256} x g p :
  in_u64 g -> uval x + g * uval p < two256 -> uval (uAdd x (uMul (uSetUint64 g) p)) = uval x + g * uval p.
Proof.
  intros Hg Hs. pose proof (uval_nonneg x).
  rewrite uAdd_small; rewrite uMul_gas by (done || lia); done.
Qed.


(** ** Example: a machine that does nothing *)

Module TransitionDemo.

#[local] Existing Instance Demo.demo_u256.
#[local] Existing Instance Demo.demo_env.

Lemma idle_gas g : in_u64 g -> 0 <= g <= g.
Proof. unfold in_u64. lia. Qed.

#[local] Instance idle : VMInterface := {|
  Call := fun s a b d g v bo => (s, [], g, None);
  Create := fun s a d g v => (s, [], g, None);
  Call_gas := fun s a b d g v bo H => idle_gas g H;
  Create_gas := fun s a d g v H => idle_gas g H;
  Call_state := fun s a b d g v bo W => conj W eq_refl;
  Create_state := fun s a d g v W => conj W eq_refl;
  Call_refund := fun s a b d g v bo H => H;
  Create_refund := fun s a d g v H => H
|}.

(** Account 7 holds a million. *)
Definition reader : StateReader := {|
  ReadAccountData := fun a =>
    if a =? 7 then (Some {| Initialised := true; Nonce := 3; Balance := uSetUint64 1000000; Root := 0;
                            CodeHash := 0; Incarnation := 0 |}, None)
    else (None, None);
  ReadAccountStorage := fun _ _ _ => (None, None);
  ReadAccountCode := fun _ _ _ => (None, None);
  ReadAccountCodeSize := fun _ _ _ => (0, None);
  ReadAccountIncarnation := fun _ => (0, None)
|}.

Definition s : IntraBlockState := New reader.

Lemma start_WInv : WInv s.
Proof.
  split; cbn; try (intros *; rewrite ?lookup_empty; by intros); try (intros a Ha; set_solver).
Qed.

Lemma s_reads : reads_ok s.
Proof. intros a. cbn. by destruct (a =? 7). Qed.

Definition msg : Message := {|
  From := 7; To := Some 8; GasPrice := uSetUint64 12; FeeCap := Some (uSetUint64 20); Tip := uSetUint64 2;
  Gas := 30000; Value := uSetUint64 0; MNonce := 3; CheckNonce := true; Data := []; MAccessList := None;
  IsFree := false
|}.

Definition ctx : TxContext := {|
  ChainRules := ChainConfig.rules ChainConfig.genesisForks 40; Eip1559FeeCollector := None; NoBaseFee := false;
  ctxBaseFee := Some (uSetUint64 10); ctxCoinbase := 9; ActivePrecompiles := [1; 2]; isParlia := false
|}.

Definition run : option (StateTransition * (ExecutionResult + error)) :=
  TransitionDb ctx msg true false (NewStateTransition s 100000).

Definition used : option Z := match run with Some (_, inl r) => Some (UsedGas r) | _ => None end.

End TransitionDemo.

#[local] Existing Instance Demo.demo_u256.
#[local] Existing Instance Demo.demo_env.
#[local] Existing Instance TransitionDemo.idle.


