(* ===== verification/Voting.v ===== *)
(** * Voting: the authorization snapshot of the proof-of-authority engine

    [internal/consensus/apos/snapshot.go] (and its twin in [apoa]): the set of
    signers, the recent signers, the open votes with their tally, and [apply],
    which moves a snapshot over a run of headers; [verifySeal] and
    [calcDifficulty] of [apos.go].  The configuration is its epoch length. *)

From S2P Require Import Prelude Uint256 Header.

Module Voting.

Definition errInvalidVote : error := "vote nonce not 0x00..0 or 0xff..f".
Definition errInvalidVotingChain : error := "invalid voting chain".
Definition errUnauthorizedSigner : error := "unauthorized signer".
Definition errRecentlySigned : error := "recently signed".
Definition errUnknownBlock : error := "unknown block".
Definition errWrongDifficulty : error := "wrong difficulty".

Definition nonceAuthVote : Z := MaxUint64.
Definition nonceDropVote : Z := 0.

Record Vote := {
  VSigner : Address;
  VBlock : Z;
  VAddress : Address;
  VAuthorize : bool
}.

Record Tally := {
  TAuthorize : bool;
  TVotes : Z
}.

Record Snapshot := {
  SNumber : Z;
  SHash : Hash;
  Signers : gset Address;
  Recents : gmap Z Address;
  Votes : list Vote;
  Tallies : gmap Address Tally
}.

Definition set_head n h s := {| SNumber := n; SHash := h; Signers := Signers s;
  Recents := Recents s; Votes := Votes s; Tallies := Tallies s |}.
Definition set_Signers x s := {| SNumber := SNumber s; SHash := SHash s; Signers := x;
  Recents := Recents s; Votes := Votes s; Tallies := Tallies s |}.
Definition set_Recents x s := {| SNumber := SNumber s; SHash := SHash s; Signers := Signers s;
  Recents := x; Votes := Votes s; Tallies := Tallies s |}.
Definition set_Votes x s := {| SNumber := SNumber s; SHash := SHash s; Signers := Signers s;
  Recents := Recents s; Votes := x; Tallies := Tallies s |}.
Definition set_Tallies x s := {| SNumber := SNumber s; SHash := SHash s; Signers := Signers s;
  Recents := Recents s; Votes := Votes s; Tallies := x |}.

Definition newSnapshot (number : Z) (hash : Hash) (signers : list Address) : Snapshot :=
  {| SNumber := number; SHash := hash;
     Signers := foldl (fun m signer => {[ signer ]} ∪ m) ∅ signers;
     Recents := ∅; Votes := []; Tallies := ∅ |}.

Definition validVote (s : Snapshot) (address : Address) (authorize : bool) : bool :=
  let signer := bool_decide (address ∈ Signers s) in
  (signer && negb authorize) || (negb signer && authorize).

Definition cast (s : Snapshot) (address : Address) (authorize : bool) : Snapshot * bool :=
  if negb (validVote s address authorize) then (s, false)
  else
    match Tallies s !! address with
    | Some old =>
        (set_Tallies (<[address := {| TAuthorize := TAuthorize old; TVotes := TVotes old + 1 |}]> (Tallies s)) s, true)
    | None =>
        (set_Tallies (<[address := {| TAuthorize := authorize; TVotes := 1 |}]> (Tallies s)) s, true)
    end.

Definition uncast (s : Snapshot) (address : Address) (authorize : bool) : Snapshot * bool :=
  match Tallies s !! address with
  | None => (s, false)
  | Some tally =>
      if negb (Bool.eqb (TAuthorize tally) authorize) then (s, false)
      else if 1 <? TVotes tally
      then (set_Tallies (<[address := {| TAuthorize := TAuthorize tally; TVotes := TVotes tally - 1 |}]> (Tallies s)) s, true)
      else (set_Tallies (delete address (Tallies s)) s, true)
  end.

(** [uint64(len(snap.Signers)/2 + 1)] *)
Definition limit (s : Snapshot) : Z := Z.of_nat (size (Signers s)) / 2 + 1.

(** [if limit := ...; number >= limit { delete(snap.Recents, number-limit) }] *)
Definition expire (s : Snapshot) (number : Z) : Snapshot :=
  if limit s <=? number then set_Recents (delete (number - limit s) (Recents s)) s else s.

(** The loop that discards the previous vote of a signer on an address: [pre]
    are the votes already passed. *)
Fixpoint discardPrevious (s : Snapshot) (signer coinbase : Address) (pre votes : list Vote) : Snapshot :=
  match votes with
  | [] => s
  | vote :: votes =>
      if (VSigner vote =? signer) && (VAddress vote =? coinbase)
      then set_Votes (pre ++ votes) (uncast s (VAddress vote) (VAuthorize vote)).1
      else discardPrevious s signer coinbase (pre ++ [vote]) votes
  end.

(** The loop that discards the votes a deauthorized signer cast. *)
Fixpoint discardCast (s : Snapshot) (coinbase : Address) (pre votes : list Vote) : Snapshot :=
  match votes with
  | [] => set_Votes pre s
  | vote :: votes =>
      if VSigner vote =? coinbase
      then discardCast (uncast s (VAddress vote) (VAuthorize vote)).1 coinbase pre votes
      else discardCast s coinbase (pre ++ [vote]) votes
  end.

(** The loop that discards the votes around the account that just changed. *)
Fixpoint discardAround (s : Snapshot) (coinbase : Address) (pre votes : list Vote) : Snapshot :=
  match votes with
  | [] => set_Votes pre s
  | vote :: votes =>
      if VAddress vote =? coinbase then discardAround s coinbase pre votes
      else discardAround s coinbase (pre ++ [vote]) votes
  end.

(** [if tally := snap.Tally[header.Coinbase]; tally.Votes > len(snap.Signers)/2] *)
Definition updateSigners (s : Snapshot) (number : Z) (coinbase : Address) : Snapshot :=
  let tally := default {| TAuthorize := false; TVotes := 0 |} (Tallies s !! coinbase) in
  if Z.of_nat (size (Signers s)) / 2 <? TVotes tally then
    let s :=
      if TAuthorize tally then set_Signers ({[ coinbase ]} ∪ Signers s) s
      else
        let s := set_Signers (Signers s ∖ {[ coinbase ]}) s in
        let s := expire s number in
        discardCast s coinbase [] (Votes s) in
    let s := discardAround s coinbase [] (Votes s) in
    set_Tallies (delete coinbase (Tallies s)) s
  else s.

Section Apply.
Context `{U : Uint256} `{K : @HeaderCrypto U} `{M : MapRange}.
Variable Epoch : Z.

(** The body of the loop of [apply]. *)
Definition applyHeader (s : Snapshot) (header : Header) : outcome Snapshot :=
  let number := uUint64 (Number header) in
  if Epoch =? 0 then Panic
  else
    let s := if number mod Epoch =? 0 then set_Tallies ∅ (set_Votes [] s) else s in
    let s := expire s number in
    signer ← ecrecover header;
    _ ← fail_if (negb (bool_decide (signer ∈ Signers s))) errUnauthorizedSigner;
    _ ← fail_if (existsb (fun kv => kv.2 =? signer) (range (Recents s))) errRecentlySigned;
    let s := set_Recents (<[number := signer]> (Recents s)) s in
    let s := discardPrevious s signer (Coinbase header) [] (Votes s) in
    authorize ← (if HNonce header =? nonceAuthVote then Ok true
                 else if HNonce header =? nonceDropVote then Ok false
                 else Err errInvalidVote);
    let '(s, counted) := cast s (Coinbase header) authorize in
    let s := if counted
             then set_Votes (Votes s ++ [{| VSigner := signer; VBlock := number;
                                            VAddress := Coinbase header; VAuthorize := authorize |}]) s
             else s in
    Ok (updateSigners s number (Coinbase header)).

Fixpoint applyHeaders (s : Snapshot) (headers : list Header) : outcome Snapshot :=
  match headers with
  | [] => Ok s
  | header :: headers => s ← applyHeader s header; applyHeaders s headers
  end.

(** [headers[i+1].Number == headers[i].Number+1] for every [i] *)
Fixpoint contiguous (headers : list Header) : bool :=
  match headers with
  | h :: (h' :: _) as headers' =>
      (uUint64 (Number h') =? uUint64 (Number h) +u 1) && contiguous headers'
  | _ => true
  end.

Definition apply (s : Snapshot) (headers : list Header) : outcome Snapshot :=
  match headers with
  | [] => Ok s
  | h0 :: _ =>
      _ ← fail_if (negb (contiguous headers)) errInvalidVotingChain;
      _ ← fail_if (negb (uUint64 (Number h0) =? SNumber s +u 1)) errInvalidVotingChain;
      snap ← applyHeaders s headers;
      Ok (set_head (SNumber snap +u Z.of_nat (length headers)) (HeaderHash (List.last headers h0)) snap)
  end.

(** The addresses in ascending order. *)
Definition signers (s : Snapshot) : list Address :=
  merge_sort Z.le (range (gset_to_gmap tt (Signers s))).*1.

Fixpoint offsetOf (signer : Address) (l : list Address) : nat :=
  match l with
  | [] => O
  | a :: l => if a =? signer then O else S (offsetOf signer l)
  end.

(** Panics (division by zero) when there is no signer. *)
Definition inturn (s : Snapshot) (number : Z) (signer : Address) : outcome bool :=
  let l := signers s in
  if (length l =? 0)%nat then Panic
  else Ok (number mod Z.of_nat (length l) =? Z.of_nat (offsetOf signer l)).

Definition calcDifficulty (s : Snapshot) (signer : Address) : outcome u256 :=
  b ← inturn s (SNumber s +u 1) signer;
  Ok (if b : bool then uSetUint64 2 else uSetUint64 1).

(** [c.verifySeal]; [fakeDiff] is the engine's testing switch. *)
Definition verifySeal (fakeDiff : bool) (s : Snapshot) (header : Header) : outcome unit :=
  let number := uUint64 (Number header) in
  if number =? 0 then Err errUnknownBlock
  else
    signer ← ecrecover header;
    _ ← fail_if (negb (bool_decide (signer ∈ Signers s))) errUnauthorizedSigner;
    _ ← fail_if (existsb (fun kv => (kv.2 =? signer) && (number -u limit s <? kv.1)) (range (Recents s)))
          errRecentlySigned;
    if fakeDiff then Ok tt
    else
      turn ← inturn s number signer;
      _ ← fail_if (turn && negb (uval (Difficulty header) =? 2)) errWrongDifficulty;
      fail_if (negb turn && negb (uval (Difficulty header) =? 1)) errWrongDifficulty.

End Apply.

End Voting.
