(* ===== verification/VotingFacts.v ===== *)
(** * VotingFacts: the voting invariant and what it guarantees

    Votes are cast by authorized signers, one per signer and account, each one
    against the account's present status, and the tally is exactly the count of
    them; the recent signers are those of the last blocks.  [applyHeader] keeps
    all of it. *)

From S2P Require Import Prelude Uint256 Header Voting.
Import Voting.

(** ** The tally counts the votes *)

Definition votesOn (a : Address) (V : list Vote) : list Vote := filter (fun v => VAddress v = a) V.

(** What the tally of [a] has to be. *)
Definition tallyOf (S : gset Address) (V : list Vote) (a : Address) : option Tally :=
  match length (votesOn a V) with
  | O => None
  | n => Some {| TAuthorize := bool_decide (a ∉ S); TVotes := Z.of_nat n |}
  end.

(** [T] tallies [V], for the accounts satisfying [ok]. *)
Record tallied (ok : Address -> Prop) (S : gset Address) (V : list Vote) (T : gmap Address Tally) : Prop := {
  ta_votes : forall v, v ∈ V -> ok (VAddress v) -> VAuthorize v = bool_decide (VAddress v ∉ S);
  ta_tally : forall a, ok a -> T !! a = tallyOf S V a
}.

Lemma validVote_spec s a b : validVote s a b = Bool.eqb b (bool_decide (a ∉ Signers s)).
Proof.
  unfold validVote. destruct (decide (a ∈ Signers s)) as [H|H].
  - rewrite (bool_decide_true (a ∈ _)), (bool_decide_false (a ∉ _)) by auto. by destruct b.
  - rewrite (bool_decide_false (a ∈ _)), (bool_decide_true (a ∉ _)) by auto. by destruct b.
Qed.

Lemma tallyOf_Permutation S V1 V2 a : V1 ≡ₚ V2 -> tallyOf S V1 a = tallyOf S V2 a.
Proof. intros H. unfold tallyOf, votesOn. by rewrite H. Qed.

Lemma tallied_Permutation ok S V1 V2 T : V1 ≡ₚ V2 -> tallied ok S V1 T -> tallied ok S V2 T.
Proof.
  intros HP [H1 H2]. split.
  - intros v Hv. apply H1. by rewrite HP.
  - intros a Ha. rewrite H2 by done. by apply tallyOf_Permutation.
Qed.

(** A new vote raises its tally by one. *)
Lemma tallied_cons ok S V T v :
  tallied ok S V T -> VAuthorize v = bool_decide (VAddress v ∉ S) ->
  tallied ok S (v :: V)
    (<[VAddress v := match T !! VAddress v with
                     | Some old => {| TAuthorize := TAuthorize old; TVotes := TVotes old + 1 |}
                     | None => {| TAuthorize := VAuthorize v; TVotes := 1 |}
                     end]> T).
Proof.
  intros [H1 H2] Hv. split.
  - intros w [->|Hw]%elem_of_cons; [done|by apply H1].
  - intros a Ha. rewrite lookup_insert. unfold tallyOf, votesOn. rewrite filter_cons.
    destruct (decide (VAddress v = a)) as [Hva|Hva]; [|by apply H2]. subst a. rewrite H2 by done. unfold tallyOf, votesOn.
    destruct (length (filter _ V)) eqn:El; cbn; rewrite El; [by rewrite Hv|].
    do 2 f_equal. lia.
Qed.

(** Withdrawing a vote lowers it by one, and drops an empty tally. *)
Lemma tallied_uncast ok s v V :
  tallied ok (Signers s) (v :: V) (Tallies s) ->
  tallied ok (Signers s) V (Tallies (uncast s (VAddress v) (VAuthorize v)).1).
Proof.
  intros [H1 H2]. split; [intros w Hw; apply H1; by right|].
  intros a Ha. specialize (H2 a Ha) as H2a. revert H2a. unfold tallyOf, votesOn. rewrite filter_cons.
  case_decide as Hva.
  - subst a. pose proof (H1 v ltac:(by left) Ha) as Hv. intros H2a. cbn in H2a. unfold uncast. rewrite H2a. cbn.
    rewrite Hv, eqb_reflx. cbn. destruct (length (filter _ V)) eqn:El.
    + rewrite (proj2 (Z.ltb_ge _ _)) by lia. cbn. by rewrite lookup_delete_eq.
    + rewrite (proj2 (Z.ltb_lt _ _)) by lia. cbn. rewrite lookup_insert_eq. do 2 f_equal. lia.
  - intros <-. unfold uncast. destruct (Tallies s !! VAddress v); [|done].
    repeat case_match; cbn; rewrite ?lookup_insert_ne, ?lookup_delete_ne by done; done.
Qed.

Lemma uncast_frame s a b :
  Signers (uncast s a b).1 = Signers s /\ Recents (uncast s a b).1 = Recents s /\
  Votes (uncast s a b).1 = Votes s.
Proof. unfold uncast. by repeat case_match. Qed.

(** ** The loops over the votes *)

Definition isPair (x c : Address) (v : Vote) : bool := (VSigner v =? x) && (VAddress v =? c).

Lemma discardPrevious_spec V s x c pre :
  tallied (fun _ => True) (Signers s) (pre ++ V) (Tallies s) ->
  NoDup ((fun v => (VSigner v, VAddress v)) <$> V) -> Votes s = pre ++ V ->
  let t := discardPrevious s x c pre V in
  Signers t = Signers s /\ Recents t = Recents s /\
  tallied (fun _ => True) (Signers s) (Votes t) (Tallies t) /\
  Votes t = pre ++ filter (fun v => isPair x c v = false) V.
Proof.
  revert s pre. induction V as [|v V IH]; intros s pre HT HN HV; cbn [discardPrevious].
  { split_and!; auto. by rewrite HV. }
  inv HN. fold (isPair x c v). destruct (isPair x c v) eqn:Ep.
  - destruct (uncast_frame s (VAddress v) (VAuthorize v)) as (HS & HR & _).
    cbn [set_Votes Signers Recents Tallies Votes]. rewrite HS, HR. split_and!; auto.
    + apply tallied_uncast. eapply tallied_Permutation; [|exact HT]. by rewrite Permutation_middle.
    + rewrite filter_cons, decide_False by congruence. f_equal.
      rewrite filter_all; [done|]. intros w Hw.
      match goal with H : ~ _ ∈ _ |- _ => rename H into Hnin end.
      apply not_true_iff_false. intros Hp. apply Hnin. apply list_elem_of_fmap. exists w. split; [|done].
      unfold isPair in *. apply andb_true_iff in Hp as [], Ep as []. zbool. congruence.
  - destruct (IH s (pre ++ [v])) as (H3 & H4 & H5 & H6).
    + by rewrite <- app_assoc.
    + done.
    + by rewrite <- app_assoc.
    + split_and!; auto. rewrite filter_cons, decide_True by done. rewrite H6. by rewrite <- app_assoc.
Qed.

Lemma discardCast_spec ok V s c pre :
  tallied ok (Signers s) (pre ++ V) (Tallies s) ->
  let t := discardCast s c pre V in
  Signers t = Signers s /\ Recents t = Recents s /\
  tallied ok (Signers s) (Votes t) (Tallies t) /\
  Votes t = pre ++ filter (fun v => VSigner v <> c) V.
Proof.
  revert s pre. induction V as [|v V IH]; intros s pre HT; cbn [discardCast].
  { rewrite app_nil_r in HT. split_and!; auto. by rewrite app_nil_r. }
  rewrite filter_cons. destruct (Z.eqb_spec (VSigner v) c) as [Hc|Hc].
  - rewrite decide_False by auto.
    destruct (uncast_frame s (VAddress v) (VAuthorize v)) as (HS & HR & _).
    destruct (IH (uncast s (VAddress v) (VAuthorize v)).1 pre) as (H3 & H4 & H5 & H6).
    { rewrite HS. apply tallied_uncast. eapply tallied_Permutation; [|exact HT]. by rewrite Permutation_middle. }
    rewrite HS in *. rewrite HR in *. split_and!; auto.
  - rewrite decide_True by auto. destruct (IH s (pre ++ [v])) as (H3 & H4 & H5 & H6).
    { by rewrite <- app_assoc. }
    split_and!; auto. rewrite H6. by rewrite <- app_assoc.
Qed.

Lemma discardAround_spec V s c pre :
  let t := discardAround s c pre V in
  Signers t = Signers s /\ Recents t = Recents s /\ Tallies t = Tallies s /\
  Votes t = pre ++ filter (fun v => VAddress v <> c) V.
Proof.
  revert pre. induction V as [|v V IH]; intros pre; cbn [discardAround]; [cbn; by rewrite app_nil_r|].
  rewrite filter_cons. destruct (Z.eqb_spec (VAddress v) c) as [Hc|Hc].
  - rewrite decide_False by auto. apply IH.
  - rewrite decide_True by auto. destruct (IH (pre ++ [v])) as (H3 & H4 & H5 & H6).
    split_and!; auto. rewrite H6. by rewrite <- app_assoc.
Qed.

(** ** The invariant of the votes *)

Definition voteKey (v : Vote) : Address * Address := (VSigner v, VAddress v).

Record votes_ok (s : Snapshot) : Prop := {
  vo_signer : forall v, v ∈ Votes s -> VSigner v ∈ Signers s;
  vo_once : NoDup (voteKey <$> Votes s);
  vo_tally : tallied (fun _ => True) (Signers s) (Votes s) (Tallies s)
}.

Lemma votes_ok_new number hash l : votes_ok (newSnapshot number hash l).
Proof.
  split; cbn.
  - intros v Hv. by apply not_elem_of_nil in Hv.
  - constructor.
  - split; [intros v Hv; by apply not_elem_of_nil in Hv|]. intros a _. by rewrite lookup_empty.
Qed.

Lemma votes_ok_recents s r : votes_ok s -> votes_ok (set_Recents r s).
Proof. intros []. by split. Qed.

Lemma expire_frame s n :
  Signers (expire s n) = Signers s /\ Votes (expire s n) = Votes s /\ Tallies (expire s n) = Tallies s /\
  SNumber (expire s n) = SNumber s.
Proof. unfold expire. by case_match. Qed.

Lemma votes_ok_expire s n : votes_ok s -> votes_ok (expire s n).
Proof. unfold expire. case_match; [apply votes_ok_recents|done]. Qed.

Lemma votes_ok_discardPrevious s x c :
  votes_ok s ->
  let t := discardPrevious s x c [] (Votes s) in
  Signers t = Signers s /\ Recents t = Recents s /\ votes_ok t /\
  Votes t = filter (fun v => isPair x c v = false) (Votes s).
Proof.
  intros [H1 H2 H3]. destruct (discardPrevious_spec (Votes s) s x c [] H3 H2 eq_refl) as (HS & HR & HT & HV).
  cbn in *. split_and!; auto. split.
  - intros v. rewrite HS, HV. intros [_ Hv]%list_elem_of_filter. by apply H1.
  - rewrite HV. by apply NoDup_fmap_filter.
  - by rewrite HS.
Qed.

Lemma cast_spec s a b : validVote s a b = true ->
  (cast s a b).2 = true /\
  (cast s a b).1 = set_Tallies (<[a := match Tallies s !! a with
                     | Some old => {| TAuthorize := TAuthorize old; TVotes := TVotes old + 1 |}
                     | None => {| TAuthorize := b; TVotes := 1 |}
                     end]> (Tallies s)) s.
Proof. intros H. unfold cast. rewrite H. cbn. by destruct (Tallies s !! a). Qed.

(** Casting a vote that its signer has not cast yet, and recording it. *)
Lemma votes_ok_cast s v :
  votes_ok s -> VSigner v ∈ Signers s -> (forall w, w ∈ Votes s -> voteKey w <> voteKey v) ->
  let t := (cast s (VAddress v) (VAuthorize v)).1 in
  if (cast s (VAddress v) (VAuthorize v)).2
  then votes_ok (set_Votes (Votes t ++ [v]) t) /\ Signers t = Signers s /\ Recents t = Recents s /\ Votes t = Votes s
  else t = s.
Proof.
  intros [H1 H2 H3] Hs Hn. destruct (validVote s (VAddress v) (VAuthorize v)) eqn:Ev.
  - destruct (cast_spec s (VAddress v) (VAuthorize v) Ev) as [-> ->]. cbn. split; [|done]. split; cbn.
    + intros w. rewrite elem_of_app, list_elem_of_singleton. intros [Hw| ->]; auto.
    + rewrite fmap_app. apply NoDup_app. split_and!; [done| |cbn; apply NoDup_singleton].
      intros k (w & -> & Hw)%list_elem_of_fmap Hk%list_elem_of_singleton. by apply (Hn w).
    + apply (tallied_Permutation _ _ (v :: Votes s)); [by rewrite Permutation_app_comm|].
      apply (tallied_cons _ _ _ _ v); [exact H3|].
      rewrite validVote_spec in Ev. by apply eqb_prop in Ev.
  - unfold cast. by rewrite Ev.
Qed.

(** The votes the tally of [c] counts come from distinct signers. *)
Lemma voters_distinct s c :
  votes_ok s ->
  let X : gset Address := list_to_set (VSigner <$> votesOn c (Votes s)) in
  X ⊆ Signers s /\ size X = length (votesOn c (Votes s)).
Proof.
  intros [H1 H2 _]. split.
  - intros x. rewrite elem_of_list_to_set, list_elem_of_fmap. intros (v & -> & Hv).
    apply H1. by apply list_elem_of_filter in Hv as [_ ?].
  - rewrite size_list_to_set, length_fmap; [done|].
    apply (NoDup_fmap_filter _ (fun v => VAddress v = c)) in H2. fold (votesOn c (Votes s)) in H2.
    assert (forall v, v ∈ votesOn c (Votes s) -> VAddress v = c) as Hc.
    { intros v Hv. by apply list_elem_of_filter in Hv as [? _]. }
    revert H2 Hc. generalize (votesOn c (Votes s)). intros l. induction l as [|v l IH]; intros HN Hc; [constructor|].
    cbn in *. inv HN. constructor; [|apply IH; [done|intros; apply Hc; by right]].
    intros (w & Hw1 & Hw2)%list_elem_of_fmap. match goal with H : _ ∉ _ |- _ => apply H end.
    apply list_elem_of_fmap. exists w. split; [|done]. unfold voteKey.
    rewrite (Hc v), (Hc w), Hw1 by (by left || by right). done.
Qed.

(** [T] tallies all of [V] but the votes on [c]; the others do not see the
    status of [c]. *)
Lemma tallied_off S S' V T c :
  (forall a, a <> c -> (a ∈ S' <-> a ∈ S)) ->
  tallied (fun _ => True) S V T -> tallied (fun a => a <> c) S' V T.
Proof.
  intros HS [H1 H2]. split.
  - intros v Hv Hc. rewrite (H1 v Hv) by done. apply bool_decide_ext. by rewrite (HS _ Hc).
  - intros a Ha. rewrite H2 by done. unfold tallyOf. case_match; [done|].
    do 2 f_equal. apply bool_decide_ext. by rewrite (HS _ Ha).
Qed.

Lemma votesOn_drop a c V :
  votesOn a (filter (fun v => VAddress v <> c) V) = if decide (a = c) then [] else votesOn a V.
Proof.
  unfold votesOn. induction V as [|v V IH]; [by case_decide|].
  rewrite !filter_cons. repeat case_decide; subst; try done; rewrite ?filter_cons, ?IH;
    repeat case_decide; subst; done.
Qed.

Lemma tallied_drop S V T c :
  tallied (fun a => a <> c) S V T ->
  tallied (fun _ => True) S (filter (fun v => VAddress v <> c) V) (delete c T).
Proof.
  intros [H1 H2]. split.
  - intros v [Hc Hv]%list_elem_of_filter _. by apply H1.
  - intros a _. destruct (decide (a = c)) as [->|Ha].
    + rewrite lookup_delete_eq. unfold tallyOf. by rewrite votesOn_drop, decide_True.
    + rewrite lookup_delete_ne by done. rewrite H2 by done. unfold tallyOf.
      by rewrite votesOn_drop, decide_False.
Qed.

(** ** The change of the signer set *)

Lemma updateSigners_ok s n c : votes_ok s -> votes_ok (updateSigners s n c).
Proof.
  intros I. unfold updateSigners. set (tally := default _ _).
  case_match; [|done]. destruct (TAuthorize tally).
  - set (s1 := set_Signers ({[c]} ∪ Signers s) s).
    destruct (discardAround_spec (Votes s1) s1 c []) as (HS & HR & HT & HV). cbn in HS, HR, HT, HV.
    split; cbn.
    + intros v. rewrite HV, HS. intros [_ Hv]%list_elem_of_filter. cbn. pose proof (vo_signer _ I v Hv). set_solver.
    + rewrite HV. apply NoDup_fmap_filter, I.
    + rewrite HV, HS, HT. apply tallied_drop. apply (tallied_off (Signers s)); [set_solver|apply I].
  - set (s1 := expire (set_Signers (Signers s ∖ {[c]}) s) n).
    destruct (expire_frame (set_Signers (Signers s ∖ {[c]}) s) n) as (ES & EV & ET & _). fold s1 in ES, EV, ET.
    destruct (discardCast_spec (fun a => a <> c) (Votes s1) s1 c []) as (CS & CR & CT & CV).
    { rewrite ES, EV, ET. cbn. apply (tallied_off (Signers s)); [set_solver|apply I]. }
    set (s2 := discardCast s1 c [] (Votes s1)) in *.
    destruct (discardAround_spec (Votes s2) s2 c []) as (HS & HR & HT & HV). cbn in HV, CV.
    split; cbn.
    + intros v. rewrite HV, HS, CS, ES, CV, EV. intros [_ [Hs Hv]%list_elem_of_filter]%list_elem_of_filter. cbn.
      pose proof (vo_signer _ I v Hv). set_solver.
    + rewrite HV, CV, EV. do 2 apply NoDup_fmap_filter. apply I.
    + rewrite HV, HS, HT, CS. by apply tallied_drop.
Qed.

(** [SNumber] only moves at the end of [apply]. *)
Lemma uncast_number s a b : SNumber (uncast s a b).1 = SNumber s.
Proof. unfold uncast. by repeat case_match. Qed.

Lemma cast_number s a b : SNumber (cast s a b).1 = SNumber s.
Proof. unfold cast. by repeat case_match. Qed.

Lemma discardPrevious_number V s x c pre : SNumber (discardPrevious s x c pre V) = SNumber s.
Proof. revert pre. induction V; intros; cbn; [done|]. case_match; [apply uncast_number|auto]. Qed.

Lemma discardCast_number V s c pre : SNumber (discardCast s c pre V) = SNumber s.
Proof. revert s pre. induction V; intros; cbn; [done|]. case_match; [etrans; [eauto|apply uncast_number]|auto]. Qed.

Lemma discardAround_number V s c pre : SNumber (discardAround s c pre V) = SNumber s.
Proof. revert pre. induction V; intros; cbn; [done|]. case_match; auto. Qed.

Lemma updateSigners_number s n c : SNumber (updateSigners s n c) = SNumber s.
Proof.
  unfold updateSigners. repeat case_match; cbn; rewrite ?discardAround_number, ?discardCast_number; try done.
  apply (expire_frame (set_Signers (Signers s ∖ {[c]}) s)).
Qed.

Lemma div2_lt n k : n / 2 < k <-> n < 2 * k.
Proof. pose proof (Z.div_mod n 2). pose proof (Z.mod_pos_bound n 2). lia. Qed.

(** What [updateSigners] does to the signers and the recent ones: nothing
    without a strict majority of votes on [c]; otherwise [c] changes sides, and
    when it leaves the expired entry goes too. *)
Lemma updateSigners_signers s n c :
  votes_ok s ->
  let t := updateSigners s n c in
  t = s \/
  Z.of_nat (size (Signers s)) < 2 * Z.of_nat (length (votesOn c (Votes s))) /\
  ((c ∉ Signers s /\ Signers t = {[ c ]} ∪ Signers s /\ Recents t = Recents s) \/
   (c ∈ Signers s /\ Signers t = Signers s ∖ {[ c ]} /\
    Recents t = Recents (expire (set_Signers (Signers s ∖ {[ c ]}) s) n))).
Proof.
  intros I. cbn zeta. unfold updateSigners. rewrite (ta_tally _ _ _ _ (vo_tally _ I) c ltac:(done)).
  unfold tallyOf. destruct (length (votesOn c (Votes s))) as [|k] eqn:Ek; cbn [default TVotes TAuthorize].
  { rewrite (proj2 (Z.ltb_ge _ _)); [by left|]. apply Z.div_pos; lia. }
  case_match eqn:Hlt; [apply Z.ltb_lt in Hlt|by left].
  right. split; [by apply div2_lt|]. case_bool_decide as Hc.
  - left. destruct (discardAround_spec (Votes s) (set_Signers ({[c]} ∪ Signers s) s) c []) as (HS & HR & _).
    split_and!; [done|exact HS|exact HR].
  - right. set (s1 := expire _ n).
    destruct (discardCast_spec (fun a => a <> c) (Votes s1) s1 c []) as (CS & CR & _).
    { destruct (expire_frame (set_Signers (Signers s ∖ {[c]}) s) n) as (ES & EV & ET & _).
      fold s1 in ES, EV, ET. rewrite ES, EV, ET. apply (tallied_off (Signers s)); [set_solver|apply I]. }
    set (s2 := discardCast s1 c [] (Votes s1)) in *.
    destruct (discardAround_spec (Votes s2) s2 c []) as (HS & HR & _).
    split_and!; [by destruct (decide (c ∈ Signers s))| |].
    + cbn. rewrite HS, CS. exact (proj1 (expire_frame (set_Signers (Signers s ∖ {[c]}) s) n)).
    + cbn. by rewrite HR, CR.
Qed.

(** ** The recent signers *)

(** The entries are of the last [limit] blocks up to [n], one per signer. *)
Record recents_ok (n : Z) (s : Snapshot) : Prop := {
  re_window : forall k x, Recents s !! k = Some x -> 0 <= k <= n /\ n < k + limit s;
  re_once : forall j k x, Recents s !! j = Some x -> Recents s !! k = Some x -> j = k
}.

Lemma recents_ok_new number hash l n : recents_ok n (newSnapshot number hash l).
Proof. split; cbn; intros *; by rewrite lookup_empty. Qed.

Lemma limit_pos s : 0 < limit s.
Proof. unfold limit. pose proof (Z.div_pos (Z.of_nat (size (Signers s))) 2). lia. Qed.

Lemma expire_lookup s n k x :
  Recents (expire s n) !! k = Some x <-> Recents s !! k = Some x /\ (n = k + limit s -> n < limit s).
Proof.
  unfold expire. destruct (Z.leb_spec (limit s) n); cbn; [|naive_solver lia].
  rewrite lookup_delete_Some. split; intros [H1 H2]; (split; [|try lia]); auto; lia.
Qed.

(** After [expire], the entries are those of the window of block [n]. *)
Lemma expire_window n s k x :
  recents_ok (n - 1) s -> Recents (expire s n) !! k = Some x ->
  0 <= k < n /\ n < k + limit s /\ Recents s !! k = Some x.
Proof.
  intros R [Hk Hne]%expire_lookup. destruct (re_window _ _ R k x Hk). split; [lia|]. split; [|done].
  destruct (decide (n = k + limit s)) as [He|]; [|lia]. specialize (Hne He). lia.
Qed.

Lemma limit_remove s c :
  c ∈ Signers s -> limit s - 1 <= limit (set_Signers (Signers s ∖ {[ c ]}) s) <= limit s.
Proof.
  intros Hc. unfold limit. cbn. rewrite size_difference by set_solver. rewrite size_singleton.
  assert (size (Signers s) <> 0)%nat as Hz.
  { intros Hz. apply size_empty_inv in Hz. set_solver. }
  assert (Z.of_nat (size (Signers s) - 1) = Z.of_nat (size (Signers s)) - 1) as -> by lia.
  pose proof (Z.div_le_mono (Z.of_nat (size (Signers s)) - 1) (Z.of_nat (size (Signers s))) 2).
  pose proof (Z.div_le_mono (Z.of_nat (size (Signers s)) - 2) (Z.of_nat (size (Signers s)) - 1) 2).
  replace (Z.of_nat (size (Signers s)) - 2) with (Z.of_nat (size (Signers s)) + (-1) * 2) in * by lia.
  rewrite Z.div_add in * by lia. lia.
Qed.

Lemma limit_add s c : limit s <= limit (set_Signers ({[ c ]} ∪ Signers s) s).
Proof.
  unfold limit. cbn. pose proof (subseteq_size (Signers s) ({[ c ]} ∪ Signers s) ltac:(set_solver)).
  pose proof (Z.div_le_mono (Z.of_nat (size (Signers s))) (Z.of_nat (size ({[ c ]} ∪ Signers s))) 2). lia.
Qed.

Lemma limit_Signers s t : Signers s = Signers t -> limit s = limit t.
Proof. unfold limit. by intros ->. Qed.

Lemma updateSigners_recents s n c :
  votes_ok s -> recents_ok n s -> recents_ok n (updateSigners s n c).
Proof.
  intros I R. destruct (updateSigners_signers s n c I) as [->|(_ & [(_ & HS & HR)|(Hc & HS & HR)])]; [done| |].
  - pose proof (limit_add s c). split; [|rewrite HR; apply R].
    intros k x. rewrite HR, (limit_Signers _ (set_Signers ({[c]} ∪ Signers s) s)) by done.
    intros Hk. destruct (re_window _ _ R k x Hk). lia.
  - pose proof (limit_remove s c Hc). set (s1 := set_Signers (Signers s ∖ {[c]}) s) in *. split.
    + intros k x. rewrite HR, (limit_Signers _ s1) by done.
      intros [Hk Hl]%expire_lookup. destruct (re_window _ _ R k x Hk). split; [lia|].
      destruct (decide (n = k + limit s1)) as [He|]; [|lia]. specialize (Hl He). lia.
    + intros j k x. rewrite HR, !expire_lookup. intros [Hj _] [Hk _]. by apply (re_once _ _ R j k x).
Qed.

(** ** One header *)

Section Step.
Context `{U : Uint256} `{K : @HeaderCrypto U} `{M : MapRange}.
Variable Epoch : Z.

(** The snapshot right before the signer set is updated. *)
Record accepted (s : Snapshot) (h : Header) (x : Address) (t : Snapshot) : Prop := {
  ac_signer : ecrecover h = Ok x;
  ac_authorized : x ∈ Signers s;
  ac_fresh : forall k, Recents (expire s (uUint64 (Number h))) !! k <> Some x;
  ac_recents : Recents t = <[uUint64 (Number h) := x]> (Recents (expire s (uUint64 (Number h))));
  ac_Signers : Signers t = Signers s;
  ac_number : SNumber t = SNumber s;
  ac_votes_ok : votes_ok t;
  ac_votes : forall v, v ∈ Votes t -> v ∈ Votes s \/
    (VSigner v = x /\ VAddress v = Coinbase h /\ VAuthorize v = (HNonce h =? nonceAuthVote))
}.

Lemma existsb_range (m : gmap Z Address) (f : Z * Address -> bool) :
  existsb f (range m) = false <-> forall k x, m !! k = Some x -> f (k, x) = false.
Proof.
  rewrite <- not_true_iff_false, existsb_exists. split.
  - intros H k x Hk. apply not_true_iff_false. intros Hf. apply H. exists (k, x).
    split; [|done]. by apply list_elem_of_In, elem_of_range.
  - intros H [[k x] [Hin Hf]]. apply list_elem_of_In, elem_of_range in Hin.
    rewrite (H k x Hin) in Hf. done.
Qed.

Lemma applyHeader_accepted s h t :
  votes_ok s -> applyHeader Epoch s h = Ok t ->
  exists x s', accepted s h x s' /\ t = updateSigners s' (uUint64 (Number h)) (Coinbase h).
Proof.
  intros I. unfold applyHeader. set (n := uUint64 (Number h)). destruct (Epoch =? 0); [done|].
  set (s0 := if n mod Epoch =? 0 then _ else s).
  assert (votes_ok s0 /\ Signers s0 = Signers s /\ Recents s0 = Recents s /\ SNumber s0 = SNumber s /\
    forall v, v ∈ Votes s0 -> v ∈ Votes s) as (I0 & S0 & R0 & N0 & V0).
  { subst s0. case_match; [|done]. split; [|split_and!; try done; intros v Hv; by apply not_elem_of_nil in Hv].
    split; cbn; [intros v Hv; by apply not_elem_of_nil in Hv|constructor|].
    split; [intros v Hv; by apply not_elem_of_nil in Hv|]. intros a _. by rewrite lookup_empty. }
  destruct (ecrecover h) as [x| |] eqn:Ex; cbn; [|done..].
  assert (Recents (expire s0 n) = Recents (expire s n)) as Hre.
  { unfold expire. rewrite (limit_Signers s0 s S0). by case_match; cbn; rewrite R0. }
  destruct (expire_frame s0 n) as (ES & EV & ET & EN). pose proof (votes_ok_expire s0 n I0) as I1.
  set (s1 := expire s0 n) in *.
  destruct (decide (x ∈ Signers s1)) as [Hx|]; [rewrite bool_decide_true by done|by rewrite bool_decide_false].
  cbn. destruct (existsb _ (range (Recents s1))) eqn:Eex; cbn; [done|].
  set (s2 := set_Recents (<[n := x]> (Recents s1)) s1).
  pose proof (votes_ok_discardPrevious s2 x (Coinbase h) (votes_ok_recents _ _ I1)) as (PS & PR & PI & PV).
  change (Votes s2) with (Votes s1) in *.
  set (s3 := discardPrevious s2 x (Coinbase h) [] (Votes s1)) in *.
  assert (forall a, (if HNonce h =? nonceAuthVote then Ok true
    else if HNonce h =? nonceDropVote then Ok false else Err errInvalidVote) = Ok a ->
    a = (HNonce h =? nonceAuthVote)) as Hauth by (intros a; repeat case_match; by intros [= <-]).
  destruct (if HNonce h =? nonceAuthVote then _ else _) as [auth| |] eqn:Ea; cbn; [|done..].
  specialize (Hauth auth eq_refl).
  set (v := {| VSigner := x; VBlock := n; VAddress := Coinbase h; VAuthorize := auth |}).
  pose proof (votes_ok_cast s3 v PI) as Hcast. cbn in Hcast.
  pose proof (cast_number s3 (Coinbase h) auth) as CN.
  destruct (cast s3 (Coinbase h) auth) as [s4 counted]. cbn [fst snd] in *.
  assert (SNumber s3 = SNumber s) as N3.
  { subst s3. rewrite discardPrevious_number. cbn. by rewrite EN. }
  assert (forall w, w ∈ Votes s3 -> voteKey w <> voteKey v) as Hkey.
  { intros w. rewrite PV. intros [Hw _]%list_elem_of_filter [= Hw1 Hw2]. unfold isPair in Hw.
    by rewrite Hw1, Hw2, !Z.eqb_refl in Hw. }
  specialize (Hcast ltac:(rewrite PS; cbn; congruence) Hkey).
  assert (forall k, Recents (expire s n) !! k <> Some x) as Hfresh.
  { intros k Hk. rewrite <- Hre in Hk. apply (proj1 (existsb_range _ _) Eex) in Hk. cbn in Hk. lia. }
  assert (forall w, w ∈ Votes s3 -> w ∈ Votes s) as V3.
  { intros w. rewrite PV. intros [_ Hw]%list_elem_of_filter. apply V0. by rewrite <- EV. }
  intros [= <-]. exists x. destruct counted.
  - destruct Hcast as (I4 & S4 & R4 & V4). exists (set_Votes (Votes s4 ++ [v]) s4). split; [|done].
    split; cbn; auto; try congruence.
    + rewrite R4, PR. cbn. by rewrite Hre.
    + rewrite S4, PS. cbn. congruence.
    + intros w. rewrite V4, elem_of_app, list_elem_of_singleton. intros [Hw| ->]; [left; auto|by right].
  - subst s4. exists s3. split; [|done]. split; cbn; auto; try congruence.
    + rewrite PR. cbn. by rewrite Hre.
    + rewrite PS. cbn. congruence.
Qed.

Lemma accepted_recents s h x t :
  recents_ok (uUint64 (Number h) - 1) s -> accepted s h x t -> recents_ok (uUint64 (Number h)) t.
Proof.
  intros R A. set (n := uUint64 (Number h)) in *. pose proof (limit_pos s).
  assert (0 <= n) by apply u64_range.
  split.
  - intros k y. rewrite (ac_recents _ _ _ _ A), (limit_Signers t s (ac_Signers _ _ _ _ A)). fold n.
    rewrite lookup_insert_Some. intros [[<- _]|[_ Hk]]; [lia|].
    destruct (expire_window n s k y R Hk) as (? & ? & _). lia.
  - intros j k y. rewrite (ac_recents _ _ _ _ A). fold n. rewrite !lookup_insert_Some.
    pose proof (ac_fresh _ _ _ _ A) as Hf. fold n in Hf.
    intros [[<- <-]|[_ Hj]] [[<- Hx]|[_ Hk]]; try done; try (by apply Hf in Hk).
    + subst y. by apply Hf in Hj.
    + apply expire_lookup in Hj as [Hj _], Hk as [Hk _]. by apply (re_once _ _ R j k y).
Qed.

Lemma applyHeader_ok s h t :
  votes_ok s -> recents_ok (uUint64 (Number h) - 1) s -> applyHeader Epoch s h = Ok t ->
  votes_ok t /\ recents_ok (uUint64 (Number h)) t /\ SNumber t = SNumber s.
Proof.
  intros I R H. destruct (applyHeader_accepted s h t I H) as (x & s' & A & ->).
  pose proof (ac_votes_ok _ _ _ _ A). pose proof (accepted_recents _ _ _ _ R A).
  split_and!; [by apply updateSigners_ok|by apply updateSigners_recents|].
  rewrite updateSigners_number. apply A.
Qed.

(** The headers are numbered [n], [n + 1], ... *)
Fixpoint numbered (n : Z) (hs : list Header) : Prop :=
  match hs with [] => True | h :: hs => uUint64 (Number h) = n /\ numbered (n + 1) hs end.

Lemma contiguous_numbered hs n :
  contiguous hs = true -> n + Z.of_nat (length hs) <= two64 ->
  match hs with [] => True | h :: _ => uUint64 (Number h) = n end -> numbered n hs.
Proof.
  revert n. induction hs as [|h hs IH]; intros n Hc Hn Hh; [done|]. split; [done|].
  pose proof (u64_range (uval (Number h))) as Hr. fold (uUint64 (Number h)) in Hr. unfold in_u64 in Hr.
  destruct hs as [|h' hs]; [done|]. cbn [contiguous] in Hc. apply andb_true_iff in Hc as [Hc1 Hc2].
  apply IH; [done|cbn [length] in *; lia|]. zbool. rewrite Hc1, Hh. cbn [length] in Hn. u64_norm. done.
Qed.

Lemma applyHeaders_ok hs s t n :
  votes_ok s -> recents_ok (n - 1) s -> numbered n hs -> applyHeaders Epoch s hs = Ok t ->
  votes_ok t /\ recents_ok (n - 1 + Z.of_nat (length hs)) t /\ SNumber t = SNumber s.
Proof.
  revert s n. induction hs as [|h hs IH]; intros s n I R; cbn [applyHeaders numbered].
  { intros _ [= ->]. cbn. by rewrite Z.add_0_r. }
  intros [Hn Hs]. rewrite bind_Ok. intros (s1 & H1 & H2). rewrite <- Hn in R.
  destruct (applyHeader_ok s h s1 I R H1) as (I1 & R1 & N1). rewrite Hn in R1.
  destruct (IH s1 (n + 1) I1) as (I2 & R2 & N2); [by replace (n + 1 - 1) with n by lia|done|done|].
  split_and!; [done| |congruence]. replace (n - 1 + _) with (n + 1 - 1 + Z.of_nat (length hs)) by (cbn [length]; lia).
  done.
Qed.

(** ** In turn *)

Lemma StronglySorted_le_lt l : StronglySorted Z.le l -> NoDup l -> StronglySorted Z.lt l.
Proof.
  induction 1 as [|a l _ IH HF]; intros HN; [constructor|]. inv HN. constructor; [by apply IH|].
  rewrite Forall_forall in *. intros y Hy. specialize (HF y Hy).
  assert (y <> a) by (by intros ->). lia.
Qed.

Lemma signers_spec s :
  StronglySorted Z.lt (signers s) /\ (forall a, a ∈ signers s <-> a ∈ Signers s) /\
  length (signers s) = size (Signers s).
Proof.
  assert (signers s ≡ₚ elements (Signers s)) as HP.
  { unfold signers. rewrite merge_sort_Permutation, range_perm.
    apply NoDup_Permutation; [apply NoDup_fst_map_to_list|apply NoDup_elements|].
    intros a. rewrite elem_of_elements, list_elem_of_fmap. split.
    - intros ([b []] & -> & Hb). apply elem_of_map_to_list, lookup_gset_to_gmap_Some in Hb. by destruct Hb.
    - intros Ha. exists (a, tt). split; [done|]. by apply elem_of_map_to_list, lookup_gset_to_gmap_Some. }
  split_and!.
  - assert (StronglySorted Z.le (signers s)) as HS.
    { apply StronglySorted_merge_sort; [intros x y z; lia|intros x y; lia]. }
    assert (NoDup (signers s)) as HN by (rewrite HP; apply NoDup_elements).
    by apply StronglySorted_le_lt.
  - intros a. rewrite HP. apply elem_of_elements.
  - by rewrite HP.
Qed.

Lemma offsetOf_lookup l x i :
  NoDup l -> (i < length l)%nat -> (offsetOf x l = i <-> l !! i = Some x).
Proof.
  revert i. induction l as [|a l IH]; intros i HN Hi; [cbn in Hi; lia|]. inv HN. cbn [offsetOf].
  destruct (Z.eqb_spec a x) as [->|Hax].
  - destruct i; [done|]. split; [done|]. cbn. intros Hl%list_elem_of_lookup_2. done.
  - destruct i; cbn; [naive_solver|]. cbn in Hi. rewrite <- (IH i) by (done || lia). lia.
Qed.

Lemma StronglySorted_lt_NoDup l : StronglySorted Z.lt l -> NoDup l.
Proof.
  induction 1 as [|a l _ IH HF]; constructor; [|done].
  intros Ha. rewrite Forall_forall in HF. specialize (HF a Ha). lia.
Qed.

End Step.
