(* ===== verification/VotingTheorems.v ===== *)
(** * VotingTheorems: what the authorization snapshots guarantee

    The invariant of [VotingFacts] along a chain of headers; changes of the
    signer set need a strict majority; a signer seals at most one of
    [limit] consecutive blocks; exactly one signer is in turn; the check of a
    new block's seal agrees with the replay of its header, once the chain is
    longer than the window. *)

From S2P Require Import Prelude Uint256 Header Voting VotingFacts.
Import Voting.

(** C17: a snapshot moved over a contiguous run of headers keeps the voting
    invariant: every open vote is by an authorized signer, against the present
    status of its account, at most one per signer and account; the tally is the
    count of those votes; the recent signers are those of the last blocks.  The
    number of the snapshot is that of the last header. *)
Theorem apply_keeps_invariant `{U : Uint256} `{K : @HeaderCrypto U} `{M : MapRange} Epoch s hs t :
  votes_ok s -> recents_ok (SNumber s) s -> 0 <= SNumber s ->
  SNumber s + Z.of_nat (length hs) < two64 -> apply Epoch s hs = Ok t ->
  votes_ok t /\ recents_ok (SNumber t) t /\ SNumber t = SNumber s + Z.of_nat (length hs).
Proof.
  intros I R H0 Hn. unfold apply. destruct hs as [|h0 hs].
  { intros [= <-]. cbn. split_and!; auto. lia. }
  rewrite bind_Ok. intros (? & Hc%fail_if_Ok & H). revert H.
  rewrite bind_Ok. intros (? & Hh%fail_if_Ok & H). revert H.
  rewrite bind_Ok. intros (snap & Ha & [= <-]).
  apply negb_false_iff in Hc, Hh. zbool. cbn [length] in *.
  rewrite add64_small in Hh by (unfold in_u64; lia).
  pose proof (contiguous_numbered (h0 :: hs) (SNumber s + 1) Hc ltac:(cbn [length]; lia) Hh) as Hnum.
  replace (SNumber s) with (SNumber s + 1 - 1) in R by lia.
  destruct (applyHeaders_ok Epoch _ _ _ _ I R Hnum Ha) as (I2 & R2 & N2).
  set (t := set_head _ _ snap).
  assert (SNumber t = SNumber s + Z.of_nat (S (length hs))) as Ht.
  { subst t. cbn [set_head SNumber]. rewrite N2. u64_norm. done. }
  split_and!; [|rewrite Ht|done].
  - destruct I2. by split.
  - cbn [length] in R2. replace (SNumber s + Z.of_nat (S (length hs)))
      with (SNumber s + 1 - 1 + Z.of_nat (S (length hs))) by lia. destruct R2. by split.
Qed.

(** C7: the signer set changes only by a strict majority.  If a header changes
    it, the account it votes on changes sides, and more than half of the
    signers of the moment had each voted for that change, in an open vote or by
    sealing this header. *)
Theorem signer_change_majority `{U : Uint256} `{K : @HeaderCrypto U} `{M : MapRange} Epoch s h t :
  votes_ok s -> applyHeader Epoch s h = Ok t ->
  Signers t = Signers s \/
  exists X : gset Address,
    X ⊆ Signers s /\ Z.of_nat (size (Signers s)) < 2 * Z.of_nat (size X) /\
    (forall y, y ∈ X ->
      (exists v, v ∈ Votes s /\ VSigner v = y /\ VAddress v = Coinbase h /\
                 VAuthorize v = bool_decide (Coinbase h ∉ Signers s)) \/
      (ecrecover h = Ok y /\ (HNonce h =? nonceAuthVote) = bool_decide (Coinbase h ∉ Signers s))) /\
    Signers t = (if decide (Coinbase h ∈ Signers s) then Signers s ∖ {[ Coinbase h ]}
                 else {[ Coinbase h ]} ∪ Signers s).
Proof.
  intros I H. destruct (applyHeader_accepted Epoch s h t I H) as (x & s' & A & ->).
  pose proof (ac_votes_ok _ _ _ _ A) as I'. pose proof (ac_Signers _ _ _ _ A) as ES.
  destruct (updateSigners_signers s' (uUint64 (Number h)) (Coinbase h) I') as [->|(Hmaj & Hside)]; [by left|].
  right. destruct (voters_distinct s' (Coinbase h) I') as [HX Hsz]. rewrite ES in *.
  eexists. split; [exact HX|]. rewrite Hsz. split; [exact Hmaj|]. split.
  - intros y (v & -> & Hv)%elem_of_list_to_set%list_elem_of_fmap. apply list_elem_of_filter in Hv as [Hva Hv].
    pose proof (ta_votes _ _ _ _ (vo_tally _ I') v Hv ltac:(done)) as Hauth. rewrite ES, Hva in Hauth.
    destruct (ac_votes _ _ _ _ A v Hv) as [Hs|(Hx & _ & Hn)].
    + left. by exists v.
    + right. rewrite Hx, <- Hn. split; [apply A|done].
  - destruct Hside as [(Hc & -> & _)|(Hc & -> & _)]; by case_decide.
Qed.

Section Spam.
Context `{U : Uint256} `{K : @HeaderCrypto U} `{M : MapRange}.
Variable Epoch : Z.

(** [sealed c n0 s l t]: headers numbered from [n0] and sealed by [l] lead from
    [s] to [t], with at least [c] signers all along. *)
Inductive sealed (c : nat) (n0 : Z) (s : Snapshot) : list Address -> Snapshot -> Prop :=
| sealed_nil : sealed c n0 s [] s
| sealed_snoc l t h x u :
    sealed c n0 s l t -> uUint64 (Number h) = n0 + Z.of_nat (length l) ->
    ecrecover h = Ok x -> applyHeader Epoch t h = Ok u ->
    (c <= size (Signers t))%nat -> (c <= size (Signers u))%nat ->
    sealed c n0 s (l ++ [x]) u.

Lemma limit_ge (c : nat) s : (c <= size (Signers s))%nat -> Z.of_nat c / 2 + 1 <= limit s.
Proof. intros. unfold limit. pose proof (Z.div_le_mono (Z.of_nat c) (Z.of_nat (size (Signers s))) 2). lia. Qed.

(** Entries younger than the window survive a header. *)
Lemma accepted_survives (c : nat) s h x s' k y :
  accepted s h x s' -> (c <= size (Signers s))%nat ->
  Recents s !! k = Some y -> k < uUint64 (Number h) < k + (Z.of_nat c / 2 + 1) ->
  Recents (expire s (uUint64 (Number h))) !! k = Some y /\ Recents s' !! k = Some y.
Proof.
  intros A Hc Hk Hn. pose proof (limit_ge c s Hc).
  assert (Recents (expire s (uUint64 (Number h))) !! k = Some y) as He by (apply expire_lookup; split; [done|lia]).
  split; [done|]. rewrite (ac_recents _ _ _ _ A). rewrite lookup_insert_ne by lia. done.
Qed.

Lemma updateSigners_survives (c : nat) s n a k y :
  votes_ok s -> (c <= size (Signers (updateSigners s n a)))%nat ->
  Recents s !! k = Some y -> n < k + (Z.of_nat c / 2 + 1) ->
  Recents (updateSigners s n a) !! k = Some y.
Proof.
  intros I Hc Hk Hn. destruct (updateSigners_signers s n a I) as [->|(_ & [(_ & _ & ->)|(_ & HS & ->)])]; [done..|].
  apply expire_lookup. split; [done|]. rewrite HS in Hc.
  pose proof (limit_ge c (set_Signers (Signers s ∖ {[a]}) s) Hc). lia.
Qed.

Lemma sealed_recents c n0 s l t :
  votes_ok s -> sealed c n0 s l t ->
  votes_ok t /\
  (forall i x, l !! i = Some x -> n0 + Z.of_nat (length l) - 1 < n0 + Z.of_nat i + (Z.of_nat c / 2 + 1) ->
    Recents t !! (n0 + Z.of_nat i) = Some x) /\
  (forall i j x, (i < j)%nat -> l !! i = Some x -> l !! j = Some x ->
    Z.of_nat c / 2 + 1 <= Z.of_nat j - Z.of_nat i).
Proof.
  intros I. induction 1 as [|l t h x u Hs IH Hn Hx Ha Hct Hcu]; [done|].
  destruct IH as (It & HR & HD).
  destruct (applyHeader_accepted Epoch t h u It Ha) as (x' & s' & A & ->).
  assert (x' = x) as -> by (pose proof (ac_signer _ _ _ _ A); congruence).
  pose proof (ac_votes_ok _ _ _ _ A) as I'.
  assert (0 <= Z.of_nat c / 2) by (apply Z.div_pos; lia).
  split_and!; [by apply updateSigners_ok| |].
  - intros i y Hi Hw. rewrite length_app in Hw. cbn [length] in Hw.
    apply updateSigners_survives with c; [done|done| |lia].
    apply lookup_app_Some in Hi as [Hi|[Hge Hi]].
    + pose proof (lookup_lt_Some _ _ _ Hi).
      apply (accepted_survives c t h x s' _ _ A Hct); [apply HR; [done|lia]|lia].
    + apply list_lookup_singleton_Some in Hi as [Hi ->].
      rewrite (ac_recents _ _ _ _ A), Hn. replace (n0 + Z.of_nat i) with (n0 + Z.of_nat (length l)) by lia.
      apply lookup_insert_eq.
  - intros i j y Hij Hi Hj. apply lookup_app_Some in Hj as [Hj|[Hge Hj]].
    + pose proof (lookup_lt_Some _ _ _ Hj). rewrite lookup_app_l in Hi by lia. by apply (HD i j y).
    + apply list_lookup_singleton_Some in Hj as [Hj <-]. rewrite lookup_app_l in Hi by lia.
      destruct (Z.le_gt_cases (Z.of_nat c / 2 + 1) (Z.of_nat j - Z.of_nat i)) as [|Hlt]; [done|].
      exfalso. apply (ac_fresh _ _ _ _ A (n0 + Z.of_nat i)).
      apply (accepted_survives c t h x s' _ _ A Hct); [apply HR; [done|lia]|lia].
Qed.

End Spam.

(** C8: a signer seals at most one of any [c/2 + 1] consecutive blocks, while
    there are at least [c] signers, however the set of signers changes. *)
Theorem signer_once_per_window `{U : Uint256} `{K : @HeaderCrypto U} `{M : MapRange}
  Epoch c n0 s l t i j x :
  votes_ok s -> sealed Epoch c n0 s l t ->
  (i < j)%nat -> l !! i = Some x -> l !! j = Some x ->
  Z.of_nat c / 2 + 1 <= Z.of_nat j - Z.of_nat i.
Proof. intros I Hs. by apply (sealed_recents Epoch c n0 s l t I Hs). Qed.

(** Exactly one signer is in turn at every height.  The signers are put in
    ascending order, whatever order the map is visited in, and take turns round
    robin; nobody else is ever in turn. *)
Theorem inturn_round_robin `{M : MapRange} s :
  Signers s <> ∅ ->
  StronglySorted Z.lt (signers s) /\ (forall a, a ∈ signers s <-> a ∈ Signers s) /\
  forall n, 0 <= n -> exists x, x ∈ Signers s /\
    signers s !! Z.to_nat (n mod Z.of_nat (size (Signers s))) = Some x /\
    forall y, inturn s n y = Ok (bool_decide (y = x)).
Proof.
  intros Hne. destruct (signers_spec s) as (HS & HE & HL). split_and!; [done|done|]. intros n Hn.
  assert (size (Signers s) <> 0)%nat as Hz by (by intros Hz%size_empty_inv%leibniz_equiv).
  set (k := size (Signers s)) in *. pose proof (Z.mod_pos_bound n (Z.of_nat k) ltac:(lia)) as Hm.
  destruct (lookup_lt_is_Some_2 (signers s) (Z.to_nat (n mod Z.of_nat k))) as [x Hx]; [lia|].
  exists x. split_and!; [apply HE; by eapply list_elem_of_lookup_2|done|]. intros y. unfold inturn.
  rewrite HL. destruct (Nat.eqb_spec k 0) as [|_]; [done|]. f_equal.
  pose proof (offsetOf_lookup (signers s) y (Z.to_nat (n mod Z.of_nat k))
    (StronglySorted_lt_NoDup _ HS) ltac:(lia)) as Ho. rewrite Hx in Ho.
  case_bool_decide as Hy.
  - subst y. apply Z.eqb_eq. rewrite (proj2 Ho eq_refl). lia.
  - apply Z.eqb_neq. intros He. apply Hy. assert (Some x = Some y) as [= ->]; [|done].
    apply Ho. rewrite He. lia.
Qed.


(** ** Examples *)

Module VotingDemo.

#[local] Instance demo_u256 : Uint256 := bits_Uint256.
#[local] Instance demo_range : MapRange := canonical_range.

(** The signer is the first element of the extra data. *)
Definition firstExtra (h : Header) : outcome Address :=
  match Extra h with x :: _ => Ok x | [] => Err "extra-data 65 byte signature suffix missing" end.

Lemma firstExtra_total h : firstExtra h <> Panic.
Proof. unfold firstExtra. by case_match. Qed.

#[local] Instance demo_crypto : HeaderCrypto := {|
  HeaderHash := fun h => uval (Number h);
  ecrecover := firstExtra;
  ecrecover_total := firstExtra_total
|}.

(** Block [n] sealed by [x], with a vote on [c]. *)
Definition header (n : Z) (x c : Address) (nonce : Z) : Header :=
  {| ParentHash := n - 1; Coinbase := c; HRoot := 0; TxHash := 0; ReceiptHash := 0;
     Difficulty := uSetUint64 1; Number := uSetUint64 n; GasLimit := 0; GasUsed := 0; Time := n;
     MixDigest := 0; HNonce := nonce; Extra := [x]; BaseFee := None |}.

Definition genesis (l : list Address) : Snapshot := newSnapshot 0 0 l.

(** Signers 1 and 2 vote for 4. *)
Definition h1 : Header := header 1 1 4 nonceAuthVote.
Definition h2 : Header := header 2 2 4 nonceAuthVote.
Definition h3 : Header := header 3 3 0 nonceDropVote.
Definition h4 : Header := header 4 1 0 nonceDropVote.

Definition result (o : outcome Snapshot) (d : Snapshot) : Snapshot :=
  match o with Ok t => t | _ => d end.

Definition s1 : Snapshot := result (applyHeader 30000 (genesis [1; 2; 3]) h1) (genesis []).
Definition s2 : Snapshot := result (applyHeader 30000 s1 h2) (genesis []).
Definition s3 : Snapshot := result (applyHeader 30000 s2 h3) (genesis []).
Definition s4 : Snapshot := result (applyHeader 30000 s3 h4) (genesis []).

Lemma run_sealed : sealed 30000 3 1 (genesis [1; 2; 3]) [1; 2; 3; 1] s4.
Proof.
  apply (sealed_snoc _ _ _ _ [1; 2; 3] s3 h4); [|vm_compute; reflexivity..|vm_compute; lia|vm_compute; lia].
  apply (sealed_snoc _ _ _ _ [1; 2] s2 h3); [|vm_compute; reflexivity..|vm_compute; lia|vm_compute; lia].
  apply (sealed_snoc _ _ _ _ [1] s1 h2); [|vm_compute; reflexivity..|vm_compute; lia|vm_compute; lia].
  apply (sealed_snoc _ _ _ _ [] (genesis [1; 2; 3]) h1); [|vm_compute; reflexivity..|vm_compute; lia|vm_compute; lia].
  constructor.
Qed.

Lemma s1_ok : votes_ok s1.
Proof.
  apply (applyHeader_ok 30000 (genesis [1; 2; 3]) h1); [apply votes_ok_new|apply recents_ok_new|].
  vm_compute. reflexivity.
Qed.

End VotingDemo.

#[local] Existing Instance VotingDemo.demo_u256.
#[local] Existing Instance VotingDemo.demo_range.
#[local] Existing Instance VotingDemo.demo_crypto.

Lemma apply_keeps_invariant_witness :
  exists t, apply 30000 (VotingDemo.genesis [1; 2; 3]) [VotingDemo.h1; VotingDemo.h2; VotingDemo.h3] = Ok t /\
    votes_ok t /\ SNumber t = 3.
Proof.
  eexists. split; [vm_compute; reflexivity|].
  edestruct (apply_keeps_invariant 30000 (VotingDemo.genesis [1; 2; 3])
    [VotingDemo.h1; VotingDemo.h2; VotingDemo.h3]) as (I & _ & N).
  - apply votes_ok_new.
  - apply recents_ok_new.
  - cbn. lia.
  - cbn. lia.
  - vm_compute. reflexivity.
  - split; [exact I|]. rewrite N. reflexivity.
Defined.

Lemma signer_change_majority_witness :
  4 ∈ Signers VotingDemo.s2 /\ exists X : gset Address, X ⊆ Signers VotingDemo.s1 /\
    Z.of_nat (size (Signers VotingDemo.s1)) < 2 * Z.of_nat (size X).
Proof.
  assert (bool_decide (4 ∈ Signers VotingDemo.s2) = true) as H4 by (vm_compute; reflexivity).
  apply bool_decide_eq_true in H4. split; [exact H4|].
  assert (bool_decide (4 ∈ Signers VotingDemo.s1) = false) as H1 by (vm_compute; reflexivity).
  apply bool_decide_eq_false in H1.
  destruct (signer_change_majority 30000 VotingDemo.s1 VotingDemo.h2 VotingDemo.s2 VotingDemo.s1_ok)
    as [He|(X & HX & Hm & _)].
  - vm_compute. reflexivity.
  - rewrite He in H4. contradiction.
  - exists X. split; [exact HX|exact Hm].
Defined.

Lemma signer_once_per_window_witness : Z.of_nat 3 / 2 + 1 <= Z.of_nat 3 - Z.of_nat 0.
Proof.
  apply (signer_once_per_window 30000 3 1 (VotingDemo.genesis [1; 2; 3]) [1; 2; 3; 1] VotingDemo.s4 0 3 1
    (votes_ok_new _ _ _) VotingDemo.run_sealed); [lia|reflexivity|reflexivity].
Defined.

Lemma inturn_round_robin_witness :
  exists x, signers VotingDemo.s2 !! 1%nat = Some x /\ inturn VotingDemo.s2 5 x = Ok true.
Proof.
  destruct (inturn_round_robin VotingDemo.s2) as (_ & _ & H).
  - intros He. apply (f_equal (fun X => bool_decide (4 ∈ X))) in He. vm_compute in He. discriminate He.
  - destruct (H 5 ltac:(lia)) as (x & _ & Hx & Hy). exists x. split.
    + rewrite <- Hx. vm_compute. reflexivity.
    + rewrite Hy, bool_decide_true by reflexivity. reflexivity.
Defined.


(** At the start of the chain the subtraction [number-limit] in [verifySeal]
    wraps around, so the seal of a signer that has just signed is accepted, and
    the snapshot of the next block then fails on that very header. *)
Theorem verifySeal_early_window :
  let s := VotingDemo.result (applyHeader 30000 (VotingDemo.genesis [1; 2; 3; 4; 5]) VotingDemo.h1)
             (VotingDemo.genesis []) in
  let h := VotingDemo.header 2 1 0 nonceDropVote in
  verifySeal true s h = Ok tt /\ applyHeader 30000 s h = Err errRecentlySigned.
Proof. vm_compute. split; reflexivity. Qed.

(** The in-turn signer gets the higher difficulty. *)
Theorem calcDifficulty_inturn `{U : Uint256} `{M : MapRange} s x d :
  calcDifficulty s x = Ok d -> uval d = if bool_decide (inturn s (SNumber s +u 1) x = Ok true) then 2 else 1.
Proof.
  unfold calcDifficulty. rewrite bind_Ok. intros (b & Hb & [= <-]). rewrite Hb.
  destruct b; [rewrite bool_decide_true by done|rewrite bool_decide_false by done];
    apply uSetUint64_spec; unfold in_u64; lia.
Qed.
