(* ===== verification/Transaction.v ===== *)
(** * Transaction: [common/transaction]

    The three kinds of transaction of [legacy_tx.go], [access_list.go] and
    [dynamic_fee_tx.go] with their [copy] and accessors, and the methods of
    [Transaction] that the pool and the block processing use: costs, fee
    comparisons, the effective tip and [AsMessage].

    A pointer that may be nil is an [option]; amounts (price, caps, value,
    chain id) are set by every constructor and are plain numbers.  Writing
    through a nil pointer panics.  The hash of a transaction is computed by
    third-party cryptography, hence the class [TxHasher]; the cached hash of
    the source is that value. *)

From S2P Require Import Prelude Uint256 ChainConfig StateModel StateTransition.

Module Transaction.

Section Transaction.
Context `{U : Uint256}.

Record LegacyTx := {
  lNonce : Z; lGasPrice : u256; lGas : Z;
  lTo : option Address; lFrom : option Address;
  lValue : u256; lData : option (list Z);
  lV : option u256; lR : option u256; lS : option u256;
  lSign : option (list Z)
}.

Record AccessListTx := {
  aChainID : u256; aNonce : Z; aGasPrice : u256; aGas : Z;
  aTo : option Address; aFrom : option Address;
  aValue : u256; aData : option (list Z);
  aAccessList : accessTuples;
  aSign : option (list Z);
  aV : option u256; aR : option u256; aS : option u256
}.

Record DynamicFeeTx := {
  dChainID : u256; dNonce : Z; dGasTipCap : u256; dGasFeeCap : u256; dGas : Z;
  dTo : option Address; dFrom : option Address;
  dValue : u256; dData : option (list Z);
  dAccessList : accessTuples;
  dSign : option (list Z);
  dV : option u256; dR : option u256; dS : option u256
}.

Inductive TxData :=
| Legacy (t : LegacyTx)
| AccessList (t : AccessListTx)
| DynamicFee (t : DynamicFeeTx).

#[export] Instance LegacyTx_eq_dec : EqDecision LegacyTx.
Proof. solve_decision. Defined.
#[export] Instance AccessListTx_eq_dec : EqDecision AccessListTx.
Proof. solve_decision. Defined.
#[export] Instance DynamicFeeTx_eq_dec : EqDecision DynamicFeeTx.
Proof. solve_decision. Defined.
#[export] Instance TxData_eq_dec : EqDecision TxData.
Proof. solve_decision. Defined.

(** [if x != nil { p.Set(x) }] for a freshly allocated [p] *)
Definition set_fresh (x : option u256) : option u256 := Some (default uzero x).

(** the same for a [p] that is nil *)
Definition set_nil (x : option u256) : outcome (option u256) :=
  match x with None => Ok None | Some _ => Panic end.

(** [copy(dst, src)] copies [min(len(dst), len(src))] elements; [dst] is nil here. *)
Definition copy_into_nil {A} (src : option (list A)) : option (list A) := None.

Definition LegacyTx_copy (t : LegacyTx) : LegacyTx := {|
  lNonce := lNonce t; lGasPrice := lGasPrice t; lGas := lGas t; lTo := lTo t; lFrom := lFrom t;
  lValue := lValue t; lData := lData t;
  lV := set_fresh (lV t); lR := set_fresh (lR t); lS := set_fresh (lS t);
  lSign := copy_into_nil (lSign t) |}.

Definition AccessListTx_copy (t : AccessListTx) : outcome AccessListTx :=
  v ← set_nil (aV t);
  r ← set_nil (aR t);
  s ← set_nil (aS t);
  mret {| aChainID := aChainID t; aNonce := aNonce t; aGasPrice := aGasPrice t; aGas := aGas t;
          aTo := aTo t; aFrom := aFrom t; aValue := aValue t; aData := aData t;
          aAccessList := aAccessList t; aSign := copy_into_nil (aSign t);
          aV := v; aR := r; aS := s |}.

Definition DynamicFeeTx_copy (t : DynamicFeeTx) : DynamicFeeTx := {|
  dChainID := dChainID t; dNonce := dNonce t; dGasTipCap := dGasTipCap t; dGasFeeCap := dGasFeeCap t;
  dGas := dGas t; dTo := dTo t; dFrom := dFrom t; dValue := dValue t; dData := dData t;
  dAccessList := dAccessList t; dSign := copy_into_nil (dSign t);
  dV := set_fresh (dV t); dR := set_fresh (dR t); dS := set_fresh (dS t) |}.

(** [NewTx]: a transaction over a copy of its data. *)
Definition NewTx (inner : TxData) : outcome TxData :=
  match inner with
  | Legacy t => Ok (Legacy (LegacyTx_copy t))
  | AccessList t => t' ← AccessListTx_copy t; Ok (AccessList t')
  | DynamicFee t => Ok (DynamicFee (DynamicFeeTx_copy t))
  end.

Definition Nonce (tx : TxData) : Z :=
  match tx with Legacy t => lNonce t | AccessList t => aNonce t | DynamicFee t => dNonce t end.
Definition Gas (tx : TxData) : Z :=
  match tx with Legacy t => lGas t | AccessList t => aGas t | DynamicFee t => dGas t end.
Definition GasPrice (tx : TxData) : u256 :=
  match tx with Legacy t => lGasPrice t | AccessList t => aGasPrice t | DynamicFee t => dGasFeeCap t end.
Definition GasTipCap (tx : TxData) : u256 :=
  match tx with Legacy t => lGasPrice t | AccessList t => aGasPrice t | DynamicFee t => dGasTipCap t end.
Definition GasFeeCap (tx : TxData) : u256 :=
  match tx with Legacy t => lGasPrice t | AccessList t => aGasPrice t | DynamicFee t => dGasFeeCap t end.
Definition Value (tx : TxData) : u256 :=
  match tx with Legacy t => lValue t | AccessList t => aValue t | DynamicFee t => dValue t end.
Definition To (tx : TxData) : option Address :=
  match tx with Legacy t => lTo t | AccessList t => aTo t | DynamicFee t => dTo t end.
Definition From (tx : TxData) : option Address :=
  match tx with Legacy t => lFrom t | AccessList t => aFrom t | DynamicFee t => dFrom t end.
Definition Data (tx : TxData) : option (list Z) :=
  match tx with Legacy t => lData t | AccessList t => aData t | DynamicFee t => dData t end.
Definition Sign (tx : TxData) : option (list Z) :=
  match tx with Legacy t => lSign t | AccessList t => aSign t | DynamicFee t => dSign t end.
(** A legacy transaction has no access list. *)
Definition GetAccessList (tx : TxData) : option accessTuples :=
  match tx with Legacy t => None | AccessList t => Some (aAccessList t) | DynamicFee t => Some (dAccessList t) end.
Definition RawSignatureValues (tx : TxData) : option u256 * option u256 * option u256 :=
  match tx with
  | Legacy t => (lV t, lR t, lS t)
  | AccessList t => (aV t, aR t, aS t)
  | DynamicFee t => (dV t, dR t, dS t)
  end.

Definition Cost (tx : TxData) : u256 :=
  uAdd (uMul (GasPrice tx) (uSetUint64 (Gas tx))) (Value tx).

(** [Cmp] of the 256-bit package. *)
Definition uCmp (x y : u256) : Z :=
  if uLt x y then -1 else if uGt x y then 1 else 0.

Definition GasFeeCapCmp (tx other : TxData) : Z := uCmp (GasFeeCap tx) (GasFeeCap other).
Definition GasTipCapCmp (tx other : TxData) : Z := uCmp (GasTipCap tx) (GasTipCap other).
Definition GasFeeCapIntCmp (tx : TxData) (other : u256) : Z := uCmp (GasFeeCap tx) other.
Definition GasTipCapIntCmp (tx : TxData) (other : u256) : Z := uCmp (GasTipCap tx) other.

Definition uint256Min (x y : u256) : u256 := if uCmp x y =? 1 then x else y.

Definition ErrGasFeeCapTooLow : error := "fee cap less than base fee".

Definition EffectiveGasTip (tx : TxData) (baseFee : option u256) : u256 * option error :=
  match baseFee with
  | None => (GasTipCap tx, None)
  | Some b =>
      let err := if uCmp (GasFeeCap tx) b =? -1 then Some ErrGasFeeCapTooLow else None in
      (uint256Min (GasTipCap tx) (uSub (GasFeeCap tx) b), err)
  end.

Definition EffectiveGasTipValue (tx : TxData) (baseFee : option u256) : u256 := (EffectiveGasTip tx baseFee).1.

Definition EffectiveGasTipCmp (tx other : TxData) (baseFee : option u256) : Z :=
  match baseFee with
  | None => GasTipCapCmp tx other
  | Some _ => uCmp (EffectiveGasTipValue tx baseFee) (EffectiveGasTipValue other baseFee)
  end.

Definition EffectiveGasTipIntCmp (tx : TxData) (other : u256) (baseFee : option u256) : Z :=
  match baseFee with
  | None => GasTipCapIntCmp tx other
  | Some _ => uCmp (EffectiveGasTipValue tx baseFee) other
  end.

(** [AsMessage]: the sender is dereferenced, so a transaction without one panics. *)
Definition AsMessage (tx : TxData) (baseFee : option u256) : outcome Message :=
  let gasPrice :=
    match baseFee with
    | None => GasPrice tx
    | Some b =>
        let p := uAdd (GasTipCap tx) b in
        if uGt p (GasFeeCap tx) then GasFeeCap tx else p
    end in
  match From tx with
  | None => Panic
  | Some from => Ok {|
      StateTransition.From := from; StateTransition.To := To tx; StateTransition.GasPrice := gasPrice;
      FeeCap := Some (GasFeeCap tx); Tip := GasTipCap tx; StateTransition.Gas := Gas tx;
      StateTransition.Value := Value tx; MNonce := Nonce tx; CheckNonce := false;
      StateTransition.Data := from_nil (Data tx); MAccessList := GetAccessList tx; IsFree := false |}
  end.

End Transaction.

(** Hashing a transaction: Keccak over its RLP encoding. *)
Class TxHasher `{U : Uint256} := { TxHash : TxData -> Hash }.

Section Facts.
Context `{U : Uint256}.

Lemma uCmp_spec x y :
  (uCmp x y < 0 <-> uval x < uval y) /\ (uCmp x y = 0 <-> x = y) /\ (0 < uCmp x y <-> uval y < uval x).
Proof.
  unfold uCmp, uLt, uGt.
  destruct (Z.ltb_spec (uval x) (uval y)), (Z.ltb_spec (uval y) (uval x)); split_and!; split; intros Hc;
    try lia; try (apply uval_inj; lia); subst; lia.
Qed.

Lemma uCmp_leb x y : (uCmp x y <=? 0) = (uval x <=? uval y).
Proof.
  destruct (uCmp_spec x y) as (_ & _ & H3). destruct (Z.leb_spec (uval x) (uval y)), (Z.leb_spec (uCmp x y) 0); lia.
Qed.

Lemma uint256Min_max x y : uval (uint256Min x y) = Z.max (uval x) (uval y).
Proof.
  unfold uint256Min, uCmp, uLt, uGt.
  destruct (Z.ltb_spec (uval x) (uval y)); cbn [Z.eqb Z.pos_sub]; [rewrite Z.max_r; lia|].
  destruct (Z.ltb_spec (uval y) (uval x)); cbn; lia.
Qed.

Lemma Cost_eq tx : Cost tx = uAdd (Value tx) (uMul (GasPrice tx) (uSetUint64 (Gas tx))).
Proof. apply uAdd_comm. Qed.

(** Copying keeps everything a signature covers but the signature bytes. *)
Lemma NewTx_keeps tx tx' : NewTx tx = Ok tx' ->
  Nonce tx' = Nonce tx /\ Gas tx' = Gas tx /\ GasPrice tx' = GasPrice tx /\ GasTipCap tx' = GasTipCap tx /\
  GasFeeCap tx' = GasFeeCap tx /\ Value tx' = Value tx /\ To tx' = To tx /\ From tx' = From tx /\
  Data tx' = Data tx /\ GetAccessList tx' = GetAccessList tx /\ Sign tx' = None.
Proof.
  destruct tx as [t|t|t]; cbn [NewTx]; [by intros [= <-]| |by intros [= <-]].
  unfold AccessListTx_copy. intros (a & Ha & [= <-])%bind_Ok.
  apply bind_Ok in Ha as (v & _ & Ha). apply bind_Ok in Ha as (r & _ & Ha).
  apply bind_Ok in Ha as (s & _ & [= <-]). done.
Qed.

(** The copy of an access list transaction panics once it carries a signature. *)
Lemma AccessListTx_copy_panics t : NewTx (AccessList t) = Panic <-> aV t <> None \/ aR t <> None \/ aS t <> None.
Proof.
  cbn [NewTx]. unfold AccessListTx_copy.
  destruct (aV t), (aR t), (aS t); cbn; naive_solver.
Qed.

(** What block processing pays as tip for a transaction. *)
Lemma effectiveTip_min ctx tx b msg :
  Rules.IsLondon (ChainRules ctx) = true -> ctxBaseFee ctx = Some b ->
  AsMessage tx (Some b) = Ok msg -> uval b <= uval (GasFeeCap tx) ->
  exists t, effectiveTip ctx msg = Some t /\ uval t = Z.min (uval (GasTipCap tx)) (uval (GasFeeCap tx) - uval b).
Proof.
  intros HL Hb Hm Hle. unfold AsMessage in Hm. destruct (From tx); [|done]. injection Hm as <-.
  unfold effectiveTip. rewrite HL, Hb. cbn. unfold uGt, uLt.
  pose proof (uval_nonneg (GasTipCap tx)).
  destruct (Z.ltb_spec (uval b) (uval (GasFeeCap tx))).
  - eexists; split; [done|]. rewrite uSub_small by lia.
    case_match; zbool; [rewrite uSub_small by lia|]; lia.
  - eexists; split; [done|]. rewrite uval_zero. lia.
Qed.

End Facts.

(** The price per gas a message buys its gas at is the base fee plus the
    tip the block producer is paid, so that after London the fees taken from
    the sender split exactly into the burnt base fee and the tip: for every
    transaction whose fee cap covers the base fee. *)
Theorem AsMessage_splits_fee `{U : Uint256} ctx tx b msg :
  Rules.IsLondon (ChainRules ctx) = true -> ctxBaseFee ctx = Some b ->
  AsMessage tx (Some b) = Ok msg -> uval b <= uval (GasFeeCap tx) ->
  uval (GasTipCap tx) + uval b < two256 ->
  exists t, effectiveTip ctx msg = Some t /\ uval (StateTransition.GasPrice msg) = uval b + uval t.
Proof.
  intros HL Hb Hm Hle Hsum. destruct (effectiveTip_min ctx tx b msg) as (t & Ht & Htv); auto.
  exists t. split; [done|]. rewrite Htv. unfold AsMessage in Hm. destruct (From tx); [|done].
  injection Hm as <-. cbn [StateTransition.GasPrice]. unfold uGt.
  clear Ht. rewrite uAdd_small by lia.
  destruct (Z.ltb_spec (uval (GasFeeCap tx)) (uval (GasTipCap tx) + uval b)); [|rewrite uAdd_small by lia]; lia.
Qed.


Module TransactionDemo.

#[local] Instance U : Uint256 := bits_Uint256.

(** Fee cap 30, tip 2. *)
Definition tx : TxData := DynamicFee {|
  dChainID := uSetUint64 1; dNonce := 0; dGasTipCap := uSetUint64 2; dGasFeeCap := uSetUint64 30; dGas := 21000;
  dTo := Some 7; dFrom := Some 1; dValue := uSetUint64 0; dData := None; dAccessList := [];
  dSign := None; dV := None; dR := None; dS := None |}.

Definition base : u256 := uSetUint64 20.

Definition ctx : TxContext := {|
  ChainRules := ChainConfig.rules ChainConfig.genesisForks 40;
  Eip1559FeeCollector := None; NoBaseFee := false; ctxBaseFee := Some base; ctxCoinbase := 9;
  ActivePrecompiles := []; isParlia := false |}.

End TransactionDemo.

Lemma AsMessage_splits_fee_witness :
  exists msg t, AsMessage TransactionDemo.tx (Some TransactionDemo.base) = Ok msg /\
    effectiveTip TransactionDemo.ctx msg = Some t /\
    uval (StateTransition.GasPrice msg) = uval TransactionDemo.base + uval t.
Proof.
  eexists. edestruct (AsMessage_splits_fee TransactionDemo.ctx TransactionDemo.tx TransactionDemo.base)
    as (t & H1 & H2); [reflexivity|reflexivity|reflexivity|by vm_compute|by vm_compute|].
  exists t. split; [reflexivity|]. split; [exact H1|exact H2].
Defined.


End Transaction.
