(* ===== verification/Heap.v ===== *)
(** * Heap: Go's [container/heap]

    The transaction lists of the pool keep their nonces and prices in slices
    that [container/heap] arranges as binary heaps.  This file models the
    package: [up], [down], [Init], [Push], [Pop] and [Remove] on a list with a
    comparison [less], with the loops bounded by the index they start from or
    by the length, which are never reached before the loop leaves.  Swapping
    or reading outside the slice panics in Go; [Pop] and [Remove] return [None]
    there and the loops never leave the slice.  The comparison is any strict
    weak order ([StrictWeak]). *)

From S2P Require Import Prelude.

Section Heap.
Context {A : Type} (less : A -> A -> bool).

Definition Less (l : list A) (i j : nat) : bool :=
  match l !! i, l !! j with
  | Some x, Some y => less x y
  | _, _ => false
  end.

Definition Swap (l : list A) (i j : nat) : list A :=
  match l !! i, l !! j with
  | Some x, Some y => <[j := x]> (<[i := y]> l)
  | _, _ => l
  end.

Definition parent (j : nat) : nat := Nat.div2 (j - 1).

Fixpoint up (fuel : nat) (l : list A) (j : nat) : list A :=
  match fuel with
  | O => l
  | S fuel' =>
      let i := parent j in
      if (i =? j)%nat || negb (Less l j i) then l
      else up fuel' (Swap l i j) i
  end.

(** The smaller child of [i] within the first [n] elements. *)
Definition child (l : list A) (i n : nat) : nat :=
  let j1 := (2 * i + 1)%nat in
  let j2 := S j1 in
  if (j2 <? n)%nat && Less l j2 j1 then j2 else j1.

(** The slice and the index the element of [i] ends at. *)
Fixpoint down (fuel : nat) (l : list A) (i n : nat) : list A * nat :=
  match fuel with
  | O => (l, i)
  | S fuel' =>
      if (n <=? 2 * i + 1)%nat then (l, i)
      else
        let j := child l i n in
        if negb (Less l j i) then (l, i)
        else down fuel' (Swap l i j) j n
  end.

Definition Init (l : list A) : list A :=
  let n := length l in
  foldr (fun i l => (down n l i n).1) l (seq 0 (Nat.div2 n)).

Definition Push (l : list A) (x : A) : list A :=
  up (length l) (l ++ [x]) (length l).

Definition Pop (l : list A) : option (A * list A) :=
  match length l with
  | O => None
  | S n =>
      let l' := (down n (Swap l 0 n) 0 n).1 in
      x ← l' !! n; Some (x, take n l')
  end.

Definition Remove (l : list A) (i : nat) : option (A * list A) :=
  match length l with
  | O => None
  | S n =>
      if (n <? i)%nat then None
      else
        let l' :=
          if (n =? i)%nat then l
          else
            let '(l1, k) := down n (Swap l i n) i n in
            if (i <? k)%nat then l1 else up i l1 i in
        x ← l' !! n; Some (x, take n l')
  end.

End Heap.

(** Comparisons the package is used with: [less] is a strict weak order. *)
Class StrictWeak {A} (less : A -> A -> bool) := {
  less_asym : forall x y, less x y = true -> less y x = false;
  less_trans : forall x y z, less y x = false -> less z y = false -> less z x = false
}.

Section Order.
Context {A : Type} `{Inhabited A} (less : A -> A -> bool) `{!StrictWeak less}.
Implicit Types (l : list A) (i j k n lo : nat).

Abbreviation Swap := (Swap (A:=A)).
Abbreviation Less := (Less less).

Definition le (x y : A) : Prop := less y x = false.

(** [j]'s element is not before its parent's. *)
Definition ok l j : Prop := le (l !!! parent j) (l !!! j).

(** The first [n] elements are a heap from index [lo] on. *)
Definition ordered l n lo : Prop := forall j, (0 < j < n)%nat -> (lo <= parent j)%nat -> ok l j.

Definition heap l : Prop := ordered l (length l) 0.

(** All pairs that do not involve [i] are ordered, and so are the pairs of
    [i]'s parent and its children. *)
Record hole l n lo i : Prop := {
  hole_rest : forall j, (0 < j < n)%nat -> (lo <= parent j)%nat -> parent j <> i -> j <> i -> ok l j;
  hole_skip : forall c, (0 < c < n)%nat -> parent c = i -> (0 < i)%nat -> (lo <= parent i)%nat ->
    le (l !!! parent i) (l !!! c)
}.

Definition children_ok l n i : Prop := forall c, (0 < c < n)%nat -> parent c = i -> ok l c.

Lemma parent_lt j : (0 < j)%nat -> (parent j < j)%nat.
Proof. intros. unfold parent. rewrite Nat.div2_div. apply Nat.Div0.div_lt_upper_bound. lia. Qed.

Lemma parent_child i c : (0 < c)%nat -> parent c = i <-> (c = 2 * i + 1 \/ c = 2 * i + 2)%nat.
Proof.
  intros. unfold parent. rewrite Nat.div2_div.
  pose proof (Nat.div_mod_eq (c - 1) 2). pose proof (Nat.mod_upper_bound (c - 1) 2).
  split; lia.
Qed.

Lemma Swap_length l i j : length (Swap l i j) = length l.
Proof. unfold Heap.Swap. repeat case_match; by rewrite ?length_insert. Qed.

Lemma Swap_perm l i j : Swap l i j ≡ₚ l.
Proof.
  unfold Heap.Swap. destruct (l !! i) eqn:Ei; [|done]. destruct (l !! j) eqn:Ej; [|done].
  by apply Permutation_insert_swap.
Qed.

Lemma Swap_lookup l i j k : (i < length l)%nat -> (j < length l)%nat ->
  Swap l i j !!! k = if decide (k = j) then l !!! i else if decide (k = i) then l !!! j else l !!! k.
Proof.
  intros [x Hx]%lookup_lt_is_Some [y Hy]%lookup_lt_is_Some. unfold Heap.Swap. rewrite Hx, Hy.
  rewrite !list_lookup_total_insert, length_insert.
  apply lookup_lt_Some in Hx as Hi. apply lookup_lt_Some in Hy as Hj.
  rewrite (list_lookup_total_correct _ _ _ Hx), (list_lookup_total_correct _ _ _ Hy).
  repeat case_decide; naive_solver.
Qed.

Lemma Less_lookup l i j : (i < length l)%nat -> (j < length l)%nat ->
  Less l i j = less (l !!! i) (l !!! j).
Proof.
  intros [x Hx]%lookup_lt_is_Some [y Hy]%lookup_lt_is_Some. unfold Heap.Less. rewrite Hx, Hy.
  by rewrite (list_lookup_total_correct _ _ _ Hx), (list_lookup_total_correct _ _ _ Hy).
Qed.

Lemma le_refl x : le x x.
Proof. unfold le. destruct (less x x) eqn:E; [|done]. by rewrite (less_asym x x) in E. Qed.

Lemma le_trans x y z : le x y -> le y z -> le x z.
Proof. apply less_trans. Qed.

Lemma less_le x y : less x y = true -> le x y.
Proof. apply less_asym. Qed.

(** The root of a heap is minimal. *)
Lemma ordered_root l n j : ordered l n 0 -> (j < n)%nat -> le (l !!! 0%nat) (l !!! j).
Proof.
  intros Ho. induction j as [j IH] using lt_wf_ind. intros Hj.
  destruct (decide (j = 0%nat)) as [->|Hj0]; [apply le_refl|].
  pose proof (parent_lt j ltac:(lia)).
  apply le_trans with (l !!! parent j); [apply IH; lia|]. apply Ho; lia.
Qed.

(** ** [down] *)

Lemma child_spec l i n : (2 * i + 1 < n)%nat -> (n <= length l)%nat ->
  let j := child less l i n in
  parent j = i /\ (i < j < n)%nat /\ forall c, (0 < c < n)%nat -> parent c = i -> le (l !!! j) (l !!! c).
Proof.
  intros Hn Hl. cbv zeta. unfold child.
  assert (forall b c : nat, (0 < c < n)%nat -> parent c = i -> c = (2 * i + 1)%nat \/ c = S (2 * i + 1)) as Hc.
  { intros _ c Hc Hp. apply parent_child in Hp; lia. }
  destruct (Nat.ltb_spec (S (2 * i + 1)) n) as [Hlt|Hge]; cbn [andb].
  - rewrite Less_lookup by lia.
    destruct (less _ _) eqn:E; (split_and!; [apply parent_child; lia|lia|lia|]);
      intros c Hcn Hp; destruct (Hc 0%nat c Hcn Hp) as [->| ->]; try apply le_refl; [by apply less_le|done].
  - split_and!; [apply parent_child; lia|lia|lia|]. intros c Hcn Hp.
    destruct (Hc 0%nat c Hcn Hp) as [->| ->]; [apply le_refl|lia].
Qed.

Lemma down_step l i j n lo :
  (n <= length l)%nat -> (lo <= i)%nat -> hole l n lo i -> parent j = i -> (i < j < n)%nat ->
  (forall c, (0 < c < n)%nat -> parent c = i -> le (l !!! j) (l !!! c)) ->
  less (l !!! j) (l !!! i) = true ->
  hole (Swap l i j) n lo j /\ ok (Swap l i j) j.
Proof.
  intros Hl Hlo [Hrest Hskip] Hp Hij Hmin Hless.
  assert (forall k, Swap l i j !!! k =
    if decide (k = j) then l !!! i else if decide (k = i) then l !!! j else l !!! k) as HS.
  { intros k. apply Swap_lookup; lia. }
  split; [split|].
  - intros k Hk Hlk Hpk Hkj. unfold ok. rewrite !HS, !(decide_False (P := _ = j)) by done.
    pose proof (parent_lt k ltac:(lia)).
    destruct (decide (k = i)) as [->|Hki].
    + rewrite decide_False by lia. apply Hskip; lia.
    + case_decide as Hpi; [by apply Hmin|]. by apply Hrest.
  - intros c Hc Hpc Hj0 Hlj. pose proof (parent_lt c ltac:(lia)).
    rewrite !HS, Hp, (decide_False (P := i = j)), (decide_True (P := i = i)) by lia.
    rewrite !decide_False by lia. subst j. apply Hrest; lia.
  - unfold ok. rewrite !HS, Hp, (decide_False (P := i = j)), (decide_True (P := i = i)), (decide_True (P := j = j)) by lia.
    by apply less_le.
Qed.

Record down_spec l n lo i l' i' : Prop := {
  down_hole : hole l' n lo i';
  down_children : children_ok l' n i';
  down_moved : (i' = i /\ l' = l) \/ (i < i' < n)%nat /\ ok l' i';
  down_perm : l' ≡ₚ l;
  down_above : forall k, (n <= k)%nat -> l' !!! k = l !!! k
}.

Lemma down_correct fuel l i n lo :
  (n <= i + fuel)%nat -> (n <= length l)%nat -> (lo <= i)%nat -> hole l n lo i ->
  down_spec l n lo i (down less fuel l i n).1 (down less fuel l i n).2.
Proof.
  revert l i. induction fuel as [|fuel IH]; intros l i Hf Hl Hlo Hh; cbn [down].
  { split; auto. intros c Hc Hp. cbn in Hp. apply parent_child in Hp; lia. }
  destruct (Nat.leb_spec n (2 * i + 1)) as [Hn|Hn].
  { split; auto. intros c Hc Hp. cbn in Hp. apply parent_child in Hp; lia. }
  destruct (child_spec l i n) as (Hp & Hij & Hmin); [lia..|]. set (j := child less l i n) in *.
  rewrite Less_lookup by lia. destruct (less (l !!! j) (l !!! i)) eqn:E; cbn [negb].
  - destruct (down_step l i j n lo) as [Hh' Hok]; auto.
    destruct (IH (Swap l i j) j) as [H1 H2 H3 H4 H5]; [lia|by rewrite Swap_length|lia|done|].
    split; auto.
    + right. destruct H3 as [[-> ->]|[??]]; [done|]. split; [lia|done].
    + etrans; [exact H4|apply Swap_perm].
    + intros k Hk. rewrite H5, Swap_lookup by lia. by rewrite !decide_False by lia.
  - split; auto. intros c Hc Hpc. cbn in Hpc. unfold ok. rewrite Hpc.
    apply le_trans with (l !!! j); [exact E|auto].
Qed.

(** ** [up] *)

(** Only the pair of [j] and its parent may be out of order. *)
Definition rising l n j : Prop := hole l n 0 j /\ children_ok l n j.

Lemma rising_ordered l n j : rising l n j -> (j = 0%nat \/ ok l j) -> ordered l n 0.
Proof.
  intros [[Hrest _] Hch] Hj k Hk _.
  destruct (decide (k = j)) as [->|]; [destruct Hj; [lia|done]|].
  destruct (decide (parent k = j)); auto. apply Hrest; auto. lia.
Qed.

Lemma up_step l j n :
  (n <= length l)%nat -> (0 < j < n)%nat -> rising l n j -> less (l !!! j) (l !!! parent j) = true ->
  rising (Swap l (parent j) j) n (parent j).
Proof.
  intros Hl Hj [[Hrest Hskip] Hch] Hless. pose proof (parent_lt j ltac:(lia)) as Hpj.
  set (p := parent j) in *.
  assert (forall k, Swap l p j !!! k =
    if decide (k = j) then l !!! p else if decide (k = p) then l !!! j else l !!! k) as HS.
  { intros k. apply Swap_lookup; lia. }
  split; [split|].
  - intros k Hk _ Hpk Hkp. unfold ok. rewrite !HS, !(decide_False (P := _ = p)) by done.
    destruct (decide (k = j)) as [->|Hkj]; [done|].
    case_decide as Hpkj; [|apply Hrest; lia].
    apply Hskip; lia.
  - intros c Hc Hpc Hp0 _. pose proof (parent_lt p Hp0). pose proof (parent_lt c ltac:(lia)).
    rewrite !HS. rewrite (decide_False (P := parent p = j)), (decide_False (P := parent p = p)) by lia.
    assert (ok l p) as Hokp. { apply Hrest; lia. }
    case_decide; [exact Hokp|]. rewrite decide_False by lia.
    apply le_trans with (l !!! p); [exact Hokp|]. rewrite <- Hpc. apply Hrest; lia.
  - intros c Hc Hpc. pose proof (parent_lt c ltac:(lia)). unfold ok. rewrite !HS, Hpc.
    rewrite (decide_False (P := p = j)), (decide_True (P := p = p)) by lia.
    case_decide; [by apply less_le|]. rewrite decide_False by lia.
    apply le_trans with (l !!! p); [by apply less_le|]. rewrite <- Hpc. apply Hrest; lia.
Qed.

Lemma up_correct fuel l j n :
  (j <= fuel)%nat -> (n <= length l)%nat -> (j < n)%nat -> rising l n j ->
  ordered (up less fuel l j) n 0 /\ up less fuel l j ≡ₚ l /\
  forall k, (n <= k)%nat -> up less fuel l j !!! k = l !!! k.
Proof.
  revert l j. induction fuel as [|fuel IH]; intros l j Hf Hl Hj Hr; cbn [up].
  { split_and!; auto. eapply rising_ordered; [exact Hr|]. left; lia. }
  destruct (Nat.eqb_spec (parent j) j) as [Hp|Hp]; cbn [orb].
  { split_and!; auto. eapply rising_ordered; [exact Hr|]. left.
    destruct (decide (j = 0%nat)); [done|]. pose proof (parent_lt j). lia. }
  assert (0 < j)%nat as Hj0. { destruct j; [done|lia]. }
  pose proof (parent_lt j Hj0). rewrite Less_lookup by lia.
  destruct (less _ _) eqn:E; cbn [negb].
  - destruct (IH (Swap l (parent j) j) (parent j)) as (H1 & H2 & H3);
      [lia|by rewrite Swap_length|lia|apply up_step; auto; lia|].
    split_and!; auto.
    + etrans; [exact H2|apply Swap_perm].
    + intros k Hk. rewrite H3, Swap_lookup by lia. by rewrite !decide_False by lia.
  - split_and!; auto. eapply rising_ordered; [exact Hr|]. by right.
Qed.

(** ** The operations of the package *)

Lemma lookup_total_take l n k : (k < n)%nat -> take n l !!! k = l !!! k.
Proof. intros. rewrite !list_lookup_total_alt. by rewrite lookup_take_lt. Qed.

Lemma ordered_ext l l' n lo :
  (forall k, (k < n)%nat -> l' !!! k = l !!! k) -> ordered l n lo -> ordered l' n lo.
Proof.
  intros Heq Ho j Hj Hlo. pose proof (parent_lt j ltac:(lia)).
  unfold ok. rewrite !Heq by lia. by apply Ho.
Qed.

Lemma heap_nil : heap [].
Proof. intros j Hj. cbn in Hj. lia. Qed.

(** A slice whose last element is cut off. *)
Lemma cut_last l n x : length l = S n -> l !! n = Some x -> ordered l n 0 ->
  l ≡ₚ x :: take n l /\ heap (take n l).
Proof.
  intros Hl Hx Ho. split.
  - rewrite <- (take_drop_middle l n x Hx) at 1. rewrite drop_ge by lia. symmetry. apply Permutation_cons_append.
  - unfold heap. rewrite length_take, Nat.min_l by lia.
    eapply ordered_ext; [|exact Ho]. intros. by apply lookup_total_take.
Qed.

Lemma Push_heap l x : heap l -> heap (Push less l x) /\ Push less l x ≡ₚ x :: l.
Proof.
  intros Hh. unfold Push.
  assert (forall k, (k < length l)%nat -> (l ++ [x]) !!! k = l !!! k) as Hk.
  { intros. by apply lookup_total_app_l. }
  destruct (up_correct (length l) (l ++ [x]) (length l) (S (length l))) as (H1 & H2 & _);
    [lia|rewrite length_app; simpl; lia|lia| |].
  - split; [split|].
    + intros j Hj _ Hp Hjl. pose proof (parent_lt j ltac:(lia)). unfold ok. rewrite !Hk by lia.
      apply Hh; lia.
    + intros c Hc Hp. apply parent_child in Hp; lia.
    + intros c Hc Hp. apply parent_child in Hp; lia.
  - split; [|rewrite H2; symmetry; apply Permutation_cons_append].
    unfold heap. by rewrite (Permutation_length H2), length_app, Nat.add_comm.
Qed.

Lemma Pop_heap l : heap l -> l <> [] ->
  exists x l', Pop less l = Some (x, l') /\ head l = Some x /\ l ≡ₚ x :: l' /\ heap l' /\
  forall y, y ∈ l' -> le x y.
Proof.
  intros Hh Hne. destruct (length l) as [|n] eqn:Hl; [by destruct l|].
  unfold Pop. rewrite Hl.
  assert (forall k, Swap l 0 n !!! k =
    if decide (k = n) then l !!! 0%nat else if decide (k = 0%nat) then l !!! n else l !!! k) as HS.
  { intros k. apply Swap_lookup; lia. }
  destruct (down_correct n (Swap l 0 n) 0 n 0) as [H1 H2 H3 H4 H5]; [lia|rewrite Swap_length; lia|lia| |].
  { split; [|lia]. intros j Hj _ Hp Hj0. pose proof (parent_lt j ltac:(lia)).
    unfold ok. rewrite !HS, !decide_False by lia. apply Hh; lia. }
  set (r := down less n (Swap l 0 n) 0 n) in *.
  assert (length r.1 = S n) as Hlr. { rewrite (Permutation_length H4), Swap_length. done. }
  assert (ordered r.1 n 0) as Ho.
  { apply rising_ordered with r.2; [by split|]. destruct H3 as [[-> _]|[_ ?]]; auto. }
  destruct (lookup_lt_is_Some_2 r.1 n) as [x Hx]; [lia|]. rewrite Hx. cbn [mbind option_bind].
  assert (x = l !!! 0%nat) as Hx0.
  { apply list_lookup_total_correct in Hx as <-. rewrite H5, HS by lia. by rewrite decide_True. }
  destruct (cut_last r.1 n x Hlr Hx Ho) as [Hp Hhp].
  exists x, (take n r.1). split_and!; [done| | |done|].
  - destruct l; [done|]. by rewrite Hx0.
  - rewrite <- Hp, H4. symmetry. apply Swap_perm.
  - intros y Hy. assert (y ∈ l) as [k Hk]%list_elem_of_lookup.
    { rewrite <- (Swap_perm l 0 n), <- H4, Hp. by right. }
    rewrite Hx0. rewrite <- (list_lookup_total_correct _ _ _ Hk).
    eapply ordered_root; [exact Hh|]. by eapply lookup_lt_Some.
Qed.

Lemma Remove_heap l i x : heap l -> l !! i = Some x ->
  exists l', Remove less l i = Some (x, l') /\ l ≡ₚ x :: l' /\ heap l'.
Proof.
  intros Hh Hi. apply lookup_lt_Some in Hi as Hil.
  destruct (length l) as [|n] eqn:Hl; [lia|]. unfold Remove. rewrite Hl.
  destruct (Nat.ltb_spec n i); [lia|]. destruct (Nat.eqb_spec n i) as [->|Hni].
  { rewrite Hi. eexists. split; [done|]. apply cut_last; auto.
    intros j Hj _. apply Hh; lia. }
  assert (forall k, Swap l i n !!! k =
    if decide (k = n) then l !!! i else if decide (k = i) then l !!! n else l !!! k) as HS.
  { intros k. apply Swap_lookup; lia. }
  destruct (down_correct n (Swap l i n) i n 0) as [H1 H2 H3 H4 H5]; [lia|rewrite Swap_length; lia|lia| |].
  { split.
    - intros j Hj _ Hp Hj0. pose proof (parent_lt j ltac:(lia)).
      unfold ok. rewrite !HS, !decide_False by lia. apply Hh; lia.
    - intros c Hc Hp Hi0 _. pose proof (parent_lt i Hi0). pose proof (parent_lt c ltac:(lia)).
      rewrite !HS, !decide_False by lia. apply le_trans with (l !!! i); [apply Hh; lia|].
      rewrite <- Hp. apply Hh; lia. }
  destruct (down less n (Swap l i n) i n) as [l1 k]. cbn [fst snd] in *.
  set (l2 := if (i <? k)%nat then l1 else up less i l1 i).
  assert (length l1 = S n) as Hl1. { rewrite (Permutation_length H4), Swap_length. done. }
  assert (ordered l2 n 0 /\ l2 ≡ₚ l1 /\ l2 !!! n = l1 !!! n) as (Ho & Hperm & Hlast).
  { unfold l2. destruct (Nat.ltb_spec i k) as [Hik|Hik].
    - split_and!; [|done..]. apply rising_ordered with k; [by split|]. destruct H3 as [[??]|[_ ?]]; [lia|auto].
    - destruct H3 as [[-> _]|[??]]; [|lia].
      destruct (up_correct i l1 i n) as (H6 & H7 & H8); [lia..|by split|]. auto. }
  destruct (lookup_lt_is_Some_2 l2 n) as [y Hy]; [rewrite Hperm; lia|]. rewrite Hy. cbn [mbind option_bind].
  assert (y = x) as ->.
  { apply list_lookup_total_correct in Hy as <-. rewrite Hlast, H5, HS by lia.
    rewrite decide_True by done. by apply list_lookup_total_correct. }
  destruct (cut_last l2 n x) as [Hp Hhp]; auto. { by rewrite Hperm. }
  exists (take n l2). split_and!; auto. rewrite <- Hp, Hperm, H4. symmetry. apply Swap_perm.
Qed.

Lemma Init_heap l : heap (Init less l) /\ Init less l ≡ₚ l.
Proof.
  unfold Init. set (n := length l).
  enough (forall d m, (d + m = Nat.div2 n)%nat ->
    let r := foldr (fun i l => (down less n l i n).1) l (seq d m) in ordered r n d /\ r ≡ₚ l) as Hg.
  { destruct (Hg 0%nat (Nat.div2 n) eq_refl) as [H1 H2]. split; [|exact H2]. unfold heap. by rewrite (Permutation_length H2). }
  intros d m. revert d. induction m as [|m IH]; intros d Hd; cbv zeta; cbn [seq foldr].
  - split; [|done]. intros j Hj Hp. exfalso. rewrite Nat.div2_div in Hd.
    pose proof (parent_child (parent j) j ltac:(lia)) as [Hj2 _]. specialize (Hj2 eq_refl).
    pose proof (Nat.div_mod_eq n 2). pose proof (Nat.mod_upper_bound n 2). lia.
  - destruct (IH (S d) ltac:(lia)) as [Ho Hp].
    set (r := foldr (fun i l => (down less n l i n).1) l (seq (S d) m)) in *.
    destruct (down_correct n r d n d) as [H1 H2 H3 H4 _]; [lia|by rewrite Hp|lia| |].
    { split; [|intros; pose proof (parent_lt d); lia]. intros j Hj Hlo Hpd Hjd. apply Ho; lia. }
    split; [|by rewrite H4].
    intros j Hj Hlo. destruct (decide (j = (down less n r d n).2)) as [->|Hjk].
    + destruct H3 as [[E _]|[_ ?]]; [|done]. rewrite E in *. pose proof (parent_lt d). lia.
    + destruct (decide (parent j = (down less n r d n).2)); [by apply (H2 j)|].
      by apply (hole_rest _ _ _ _ H1).
Qed.
End Order.

(** ** What holds for any comparison: the elements stay the same *)

Section Elements.
Context {A : Type} (less : A -> A -> bool).
Implicit Types (l : list A) (i j k n : nat).

Lemma Swap_permutes l i j : Swap l i j ≡ₚ l.
Proof. unfold Swap. repeat case_match; [by apply Permutation_insert_swap|done..]. Qed.

Lemma up_permutes fuel l j : up less fuel l j ≡ₚ l.
Proof.
  revert l j. induction fuel as [|fuel IH]; intros l j; cbn [up]; [done|]. case_match; [done|]. by rewrite IH, Swap_permutes.
Qed.

Lemma down_permutes fuel l i n : (down less fuel l i n).1 ≡ₚ l.
Proof.
  revert l i. induction fuel as [|fuel IH]; intros l i; cbn [down]; [done|].
  case_match; [done|]. case_match; [done|]. by rewrite IH, Swap_permutes.
Qed.

Lemma Swap_keeps l i j k : k <> i -> k <> j -> Swap l i j !! k = l !! k.
Proof. intros Hi Hj. unfold Swap. repeat case_match; [|done..]. by rewrite !list_lookup_insert_ne by done. Qed.

Lemma child_bound l i n : (2 * i + 1 < n)%nat -> (child less l i n < n)%nat.
Proof. intros. unfold child. destruct (Nat.ltb_spec (S (2 * i + 1)) n); cbn [andb]; [case_match; lia|lia]. Qed.

Lemma down_keeps fuel l i n k : (n <= k)%nat -> (down less fuel l i n).1 !! k = l !! k.
Proof.
  revert l i. induction fuel as [|fuel IH]; intros l i Hk; cbn [down]; [done|].
  destruct (Nat.leb_spec n (2 * i + 1)); [done|]. case_match; [done|].
  pose proof (child_bound l i n). rewrite IH by done. apply Swap_keeps; lia.
Qed.

Lemma Push_permutes l x : Push less l x ≡ₚ x :: l.
Proof. unfold Push. rewrite up_permutes. symmetry. apply Permutation_cons_append. Qed.

Lemma Init_permutes l : Init less l ≡ₚ l.
Proof. unfold Init. induction (seq 0 _) as [|i s IH]; cbn [foldr]; [done|]. by rewrite down_permutes, IH. Qed.

(** The first element is what is popped. *)
Lemma Pop_permutes x l : exists l', Pop less (x :: l) = Some (x, l') /\ l' ≡ₚ l.
Proof.
  unfold Pop. cbn [length]. set (n := length l). set (s := Swap (x :: l) 0 n).
  assert (s !! n = Some x) as Hs.
  { unfold s, Swap. destruct (lookup_lt_is_Some_2 (x :: l) n) as [y Hy]; [cbn; lia|]. rewrite Hy. cbn [lookup list_lookup].
    apply list_lookup_insert_eq. rewrite length_insert. cbn. lia. }
  rewrite down_keeps, Hs by done. cbn [mbind option_bind]. eexists. split; [done|]. set (d := (down less n s 0 n).1).
  assert (d !! n = Some x) as Hd by (unfold d; by rewrite down_keeps).
  assert (d ≡ₚ x :: l) as Hp by (unfold d; by rewrite down_permutes; apply Swap_permutes).
  apply (Permutation_cons_inv (a := x)). rewrite <- Hp. rewrite <- (take_drop_middle d n x Hd) at 2.
  rewrite drop_ge by (rewrite Hp; done). apply Permutation_cons_append.
Qed.
End Elements.

(** ** Heaps of images *)

Section Images.
Context {A B : Type} (f : A -> B) (less : A -> A -> bool) (less' : B -> B -> bool) (Hless : forall x y, less' (f x) (f y) = less x y).
Implicit Types (l : list A) (i j n : nat).

Lemma Less_fmap l i j : Less less' (f <$> l) i j = Less less l i j.
Proof using Hless. unfold Less. rewrite !list_lookup_fmap. destruct (l !! i), (l !! j); cbn; auto. Qed.

Lemma Swap_fmap l i j : Swap (f <$> l) i j = f <$> Swap l i j.
Proof. unfold Swap. rewrite !list_lookup_fmap. destruct (l !! i), (l !! j); cbn; rewrite ?list_fmap_insert; done. Qed.

Lemma up_fmap fuel l j : up less' fuel (f <$> l) j = f <$> up less fuel l j.
Proof using Hless. revert l j. induction fuel as [|fuel IH]; intros l j; cbn [up]; [done|]. rewrite Less_fmap, Swap_fmap. case_match; auto. Qed.

Lemma down_fmap fuel l i n : down less' fuel (f <$> l) i n = prod_map (fmap f) id (down less fuel l i n).
Proof using Hless.
  revert l i. induction fuel as [|fuel IH]; intros l i; cbn [down]; [done|]. assert (child less' (f <$> l) i n = child less l i n) as -> by (unfold child; by rewrite Less_fmap).
  rewrite Less_fmap, Swap_fmap. repeat case_match; auto.
Qed.

Lemma Push_fmap l x : Push less' (f <$> l) (f x) = f <$> Push less l x.
Proof using Hless. unfold Push. rewrite length_fmap, <- up_fmap, fmap_app. done. Qed.

Lemma Pop_fmap l : Pop less' (f <$> l) = match Pop less l with Some (x, r) => Some (f x, f <$> r) | None => None end.
Proof using Hless.
  unfold Pop. rewrite length_fmap. destruct (length l) as [|n]; [done|]. rewrite Swap_fmap, down_fmap. destruct (down less n (Swap l 0 n) 0 n) as [l1 k]. cbn [prod_map fst].
  rewrite list_lookup_fmap, <- fmap_take. by destruct (l1 !! n).
Qed.
End Images.
