(* ===== verification/Prque.v ===== *)
(** * Prque: the priority queue of [common/prque]

    [Prque] is Go's [container/heap] over [sstack], a stack that keeps its items
    in blocks of 4096 cells so that growing it copies nothing.  An optional
    callback is told the index of every item that moves, so that a client can
    remove items other than the top one; with [wrapAround] priorities are
    compared by the sign of their difference, so that they can overflow.

    The slice [active] shares its cells with a block: it is the index of that
    block.  A callback is the list of the calls it got, the latest one first.
    [heapUp], [heapDown] and their callers are the functions of
    [container/heap] on the stack; the file shows that they do what the
    functions of [Heap] do on the list of the items, and that a client that
    keeps the last index it was told for a value always has the right one. *)

From S2P Require Import Prelude Heap.

Module Prque.

Section Model.
Context {V : Type}.

Record item := { value : V; priority : Z }.

(** Nil, or a callback with the values and indices it was called with. *)
Definition SetIndexCallback : Type := option (list (V * Z)).

Record sstack := {
  setIndex : SetIndexCallback;
  size : Z;
  capacity : Z;
  offset : Z;
  wrapAround : bool;
  blocks : list (list (option item));
  active : Z
}.

Definition blockSize : Z := 4096.
Definition newBlock : list (option item) := replicate (Z.to_nat blockSize) None.

Definition newSstack (callback : SetIndexCallback) (wrap : bool) : sstack :=
  {| setIndex := callback; size := 0; capacity := blockSize; offset := 0; wrapAround := wrap; blocks := [newBlock]; active := 0 |}.

(** [s.blocks[b][o]] *)
Definition cell (s : sstack) (b o : Z) : outcome (option item) :=
  if (b <? 0) || (o <? 0) then Panic else or_panic (blocks s !! Z.to_nat b ≫= fun blk => blk !! Z.to_nat o).

Definition setCell (b o : Z) (c : option item) (s : sstack) : outcome sstack :=
  _ ← cell s b o;
  Ok {| setIndex := setIndex s; size := size s; capacity := capacity s; offset := offset s; wrapAround := wrapAround s;
        blocks := alter (fun blk => <[Z.to_nat o := c]> blk) (Z.to_nat b) (blocks s); active := active s |}.

(** [s.setIndex(x.value, i)], if there is a callback. *)
Definition report (c : option item) (i : Z) (s : sstack) : outcome sstack :=
  match setIndex s with
  | None => Ok s
  | Some calls =>
    x ← or_panic c;
    Ok {| setIndex := Some ((value x, i) :: calls); size := size s; capacity := capacity s; offset := offset s;
          wrapAround := wrapAround s; blocks := blocks s; active := active s |}
  end.

(** The cursor of the stack. *)
Definition set_cursor (n cap off : Z) (blks : list (list (option item))) (act : Z) (s : sstack) : sstack :=
  {| setIndex := setIndex s; size := n; capacity := cap; offset := off; wrapAround := wrapAround s; blocks := blks; active := act |}.

Definition sPush (data : item) (s : sstack) : outcome sstack :=
  let s :=
    if size s =? capacity s then
      set_cursor (size s) (capacity s + blockSize) 0 (blocks s ++ [newBlock]) (Z.of_nat (length (blocks s))) s
    else if offset s =? blockSize then set_cursor (size s) (capacity s) 0 (blocks s) (Z.quot (size s) blockSize) s
    else s in
  s ← report (Some data) (size s) s;
  s ← setCell (active s) (offset s) (Some data) s;
  Ok (set_cursor (size s + 1) (capacity s) (offset s + 1) (blocks s) (active s) s).

Definition sPop (s : sstack) : outcome (sstack * option item) :=
  let s := set_cursor (size s - 1) (capacity s) (offset s - 1) (blocks s) (active s) s in
  let s := if offset s <? 0 then set_cursor (size s) (capacity s) (blockSize - 1) (blocks s) (Z.quot (size s) blockSize) s else s in
  res ← cell s (active s) (offset s);
  s ← setCell (active s) (offset s) None s;
  s ← report res (-1) s;
  Ok (s, res).

Definition Len (s : sstack) : Z := size s.

Definition cellAt (s : sstack) (i : Z) : outcome (option item) := cell s (Z.quot i blockSize) (Z.rem i blockSize).
Definition setCellAt (i : Z) (c : option item) (s : sstack) : outcome sstack := setCell (Z.quot i blockSize) (Z.rem i blockSize) c s.

(** The value of an [int64]. *)
Definition i64 (z : Z) : Z := (z + 2 ^ 63) mod 2 ^ 64 - 2 ^ 63.

Definition sLess (s : sstack) (i j : Z) : outcome bool :=
  ca ← cellAt s i; a ← or_panic ca;
  cb ← cellAt s j; b ← or_panic cb;
  Ok (if wrapAround s then 0 <? i64 (priority a - priority b) else priority b <? priority a).

Definition sSwap (i j : Z) (s : sstack) : outcome sstack :=
  a ← cellAt s j;
  b ← cellAt s i;
  s ← report a i s;
  s ← report b j s;
  s ← setCellAt i a s;
  setCellAt j b s.

Definition sReset (s : sstack) : sstack := newSstack (setIndex s) false.

(** ** [container/heap] on the stack *)

Definition noFuel {A} : outcome A := Err "out of fuel".

Fixpoint heapUp (fuel : nat) (j : Z) (s : sstack) : outcome sstack :=
  let i := Z.quot (j - 1) 2 in
  if i =? j then Ok s
  else
    b ← sLess s j i;
    if negb b then Ok s
    else
      match fuel with
      | O => noFuel
      | S fuel => s ← sSwap i j s; heapUp fuel i s
      end.

(** The stack and the index that the item of [i] ends at. *)
Fixpoint heapDown (fuel : nat) (i n : Z) (s : sstack) : outcome (sstack * Z) :=
  let j1 := 2 * i + 1 in
  if n <=? j1 then Ok (s, i)
  else
    right ← (if j1 + 1 <? n then sLess s (j1 + 1) j1 else Ok false);
    let j := if right : bool then j1 + 1 else j1 in
    b ← sLess s j i;
    if negb b then Ok (s, i)
    else
      match fuel with
      | O => noFuel
      | S fuel => s ← sSwap i j s; heapDown fuel j n s
      end.

Definition heapPush (x : item) (s : sstack) : outcome sstack :=
  s ← sPush x s;
  heapUp (Z.to_nat (Len s - 1)) (Len s - 1) s.

Definition heapPop (s : sstack) : outcome (sstack * option item) :=
  let n := Len s - 1 in
  s ← sSwap 0 n s;
  '(s, _) ← heapDown (Z.to_nat n) 0 n s;
  sPop s.

Definition heapRemove (i : Z) (s : sstack) : outcome (sstack * option item) :=
  let n := Len s - 1 in
  s ← (if n =? i then Ok s
       else
         s ← sSwap i n s;
         '(s, k) ← heapDown (Z.to_nat n) i n s;
         if i <? k then Ok s else heapUp (Z.to_nat i) i s);
  sPop s.

(** ** [Prque] *)

(** A struct with one field, [cont]. *)
Definition Prque : Type := sstack.

Definition New (callback : SetIndexCallback) : Prque := newSstack callback false.
Definition NewWrapAround (callback : SetIndexCallback) : Prque := newSstack callback true.
Definition Push (data : V) (prio : Z) (q : Prque) : outcome Prque := heapPush {| value := data; priority := prio |} q.
Definition Peek (q : Prque) : outcome (V * Z) := c ← cell q 0 0; x ← or_panic c; Ok (value x, priority x).
Definition Pop (q : Prque) : outcome (Prque * (V * Z)) := '(q, c) ← heapPop q; x ← or_panic c; Ok (q, (value x, priority x)).
Definition PopItem (q : Prque) : outcome (Prque * V) := '(q, c) ← heapPop q; x ← or_panic c; Ok (q, value x).
Definition Remove (i : Z) (q : Prque) : outcome (Prque * option item) := if i <? 0 then Ok (q, None) else heapRemove i q.
Definition Empty (q : Prque) : bool := Len q =? 0.
Definition Size (q : Prque) : Z := Len q.
Definition Reset (q : Prque) : Prque := New (setIndex q).
End Model.
Arguments item : clear implicits.
Arguments sstack : clear implicits.
Arguments Prque : clear implicits.

Section Proofs.
Context {V : Type} `{!EqDecision V} `{!Inhabited V} (wrap : bool) (base : Z) (callback : bool).
Implicit Types (s : sstack V) (x : item V) (l : list (item V)) (i j k n : nat) (v : V).

(** ** The cells *)

Definition bs : nat := Z.to_nat blockSize.

Lemma bs_pos : (0 < bs)%nat.
Proof. unfold bs, blockSize. lia. Qed.

Lemma bs_Z : blockSize = Z.of_nat bs.
Proof. unfold bs, blockSize. lia. Qed.

Lemma cellAt_negative s : cellAt s (-1) = Panic.
Proof. done. Qed.

#[local] Opaque blockSize bs.

Abbreviation cells := (list (list (option (item V)))).
Implicit Types (b : cells) (c : option (item V)).

Definition look b i : option (option (item V)) := b !! (i / bs)%nat ≫= fun blk => blk !! (i mod bs)%nat.
Definition store b i c : cells := alter (fun blk => <[(i mod bs)%nat := c]> blk) (i / bs)%nat b.
Definition full b : Prop := forall blk, blk ∈ b -> length blk = bs.

Lemma div_block i k : (i < bs * k <-> i / bs < k)%nat.
Proof. pose proof bs_pos. split; intros; [by apply Nat.Div0.div_lt_upper_bound|]. pose proof (Nat.div_mod_eq i bs). pose proof (Nat.mod_upper_bound i bs). nia. Qed.

Lemma look_is_Some b i : full b -> is_Some (look b i) <-> (i < bs * length b)%nat.
Proof.
  intros Hf. rewrite div_block, <- lookup_lt_is_Some. unfold look. split; [intros [c (blk & E & _)%bind_Some]; by eexists|].
  intros [blk E]. rewrite E. cbn. apply lookup_lt_is_Some. rewrite (Hf blk) by (by eapply list_elem_of_lookup_2). apply Nat.mod_upper_bound. pose proof bs_pos. lia.
Qed.

Lemma look_store b i j c : full b -> (i < bs * length b)%nat -> look (store b i c) j = if decide (j = i) then Some c else look b j.
Proof.
  intros Hf Hi. unfold look, store. destruct (decide (j = i)) as [->|Hne].
  - rewrite list_lookup_alter_eq. apply (look_is_Some b i Hf) in Hi as [c' (blk & E & Hc)%bind_Some]. rewrite E. cbn. apply list_lookup_insert_eq. by eapply lookup_lt_Some.
  - destruct (decide (j / bs = i / bs)%nat) as [E|E]; [|by rewrite list_lookup_alter_ne by done].
    rewrite E, list_lookup_alter_eq. destruct (b !! (i / bs)%nat) as [blk|]; [|done]. cbn. apply list_lookup_insert_ne. intros Em. apply Hne.
    rewrite (Nat.div_mod_eq j bs), (Nat.div_mod_eq i bs). congruence.
Qed.

Lemma store_full b i c : full b -> full (store b i c).
Proof.
  intros Hf blk [k Hk]%list_elem_of_lookup. unfold store in Hk. rewrite list_lookup_alter in Hk. case_decide; [|by eapply Hf, list_elem_of_lookup_2].
  apply fmap_Some in Hk as (blk' & Hk & ->). rewrite length_insert. by eapply Hf, list_elem_of_lookup_2.
Qed.

Lemma store_length b i c : length (store b i c) = length b.
Proof. apply length_alter. Qed.

Lemma cellAt_look s i : cellAt s (Z.of_nat i) = or_panic (look (blocks s) i).
Proof.
  unfold cellAt, cell, look. pose proof bs_pos. rewrite bs_Z, Z.quot_div_nonneg, Z.rem_mod_nonneg, <- Nat2Z.inj_div, <- Nat2Z.inj_mod by lia.
  rewrite !(proj2 (Z.ltb_ge _ _)) by lia. by rewrite !Nat2Z.id.
Qed.

Definition with_blocks b s : sstack V := set_cursor (size s) (capacity s) (offset s) b (active s) s.

Lemma setCell_store s i c : full (blocks s) -> (i < bs * length (blocks s))%nat ->
  setCell (Z.of_nat (i / bs)) (Z.of_nat (i mod bs)) c s = Ok (with_blocks (store (blocks s) i c) s).
Proof.
  intros Hf Hi. unfold setCell, cell. rewrite !(proj2 (Z.ltb_ge _ _)) by lia. rewrite !Nat2Z.id. apply (look_is_Some _ _ Hf) in Hi as [c' E]. unfold look in E. rewrite E. done.
Qed.

Lemma setCellAt_store s i c : full (blocks s) -> (i < bs * length (blocks s))%nat -> setCellAt (Z.of_nat i) c s = Ok (with_blocks (store (blocks s) i c) s).
Proof.
  intros Hf Hi. unfold setCellAt. pose proof bs_pos. rewrite bs_Z, Z.quot_div_nonneg, Z.rem_mod_nonneg, <- Nat2Z.inj_div, <- Nat2Z.inj_mod by lia. by apply setCell_store.
Qed.

(** ** The order *)

(** With [wrapAround] all priorities are within half the range above [base]. *)
Definition rank (p : Z) : Z := if wrap then (p - base) mod 2 ^ 64 else p.
Definition inWindow (p : Z) : Prop := wrap = true -> rank p < 2 ^ 63.
Definition above (x y : item V) : bool := rank (priority y) <? rank (priority x).

#[export] Instance above_weak : StrictWeak above.
Proof. split; unfold above; intros *; rewrite ?Z.ltb_lt, ?Z.ltb_ge; lia. Qed.
#[export] Instance item_inhabited : Inhabited (item V) := populate {| value := inhabitant; priority := 0 |}.

Lemma less_rank p p' : inWindow p -> inWindow p' -> (if wrap then 0 <? i64 (p - p') else p' <? p) = (rank p' <? rank p).
Proof.
  unfold inWindow, rank, i64. destruct wrap; [|done]. intros H1 H2. specialize (H1 eq_refl). specialize (H2 eq_refl).
  pose proof (Z.mod_pos_bound (p - base) (2 ^ 64) ltac:(lia)). pose proof (Z.mod_pos_bound (p' - base) (2 ^ 64) ltac:(lia)).
  replace (p - p' + 2 ^ 63) with ((p - base) - (p' - base) + 2 ^ 63) by lia. rewrite <- Zplus_mod_idemp_l, Zminus_mod, Zplus_mod_idemp_l.
  rewrite Z.mod_small by lia. destruct (Z.ltb_spec ((p' - base) mod 2 ^ 64) ((p - base) mod 2 ^ 64)); [apply Z.ltb_lt|apply Z.ltb_ge]; lia.
Qed.

(** ** The callback *)

(** The last index that was reported for [v]; a client starts with -1. *)
Fixpoint lastIndex (calls : list (V * Z)) v : Z :=
  match calls with
  | [] => -1
  | (w, i) :: calls => if decide (w = v) then i else lastIndex calls v
  end.

Record tracked (calls : list (V * Z)) l : Prop := {
  tr_nodup : NoDup (value <$> l);
  tr_at : forall i x, l !! i = Some x -> lastIndex calls (value x) = Z.of_nat i;
  tr_gone : forall v, v ∉ value <$> l -> lastIndex calls v = -1
}.

Lemma tracked_swap calls l i j x y : tracked calls l -> l !! i = Some x -> l !! j = Some y ->
  tracked ((value x, Z.of_nat j) :: (value y, Z.of_nat i) :: calls) (Heap.Swap l i j).
Proof.
  intros [Hnd Hat Hgone] Hx Hy. pose proof (Swap_permutes l i j) as Hp. split; [by rewrite Hp| |].
  - unfold Heap.Swap. rewrite Hx, Hy. intros k z Hz. cbn [lastIndex]. apply list_lookup_insert_Some in Hz as [(-> & -> & _)|[Hkj Hz]]; [by rewrite decide_True|].
    apply list_lookup_insert_Some in Hz as [(-> & -> & _)|[Hki Hz]].
    + rewrite decide_False, decide_True; [done|done|]. intros E. pose proof (Hat _ _ Hx). pose proof (Hat _ _ Hy). rewrite E in *. lia.
    + rewrite !decide_False; [by apply Hat| |]; intros E; pose proof (Hat _ _ Hz) as Hk; rewrite <- E in Hk; [rewrite (Hat _ _ Hy) in Hk|rewrite (Hat _ _ Hx) in Hk]; lia.
  - intros v Hv. rewrite Hp in Hv. cbn [lastIndex]. rewrite !decide_False; [by apply Hgone| |]; intros <-; apply Hv; apply list_elem_of_fmap_2; by eapply list_elem_of_lookup_2.
Qed.

Lemma tracked_push calls l x : tracked calls l -> value x ∉ value <$> l -> tracked ((value x, Z.of_nat (length l)) :: calls) (l ++ [x]).
Proof.
  intros [Hnd Hat Hgone] Hx. split; cbn [lastIndex].
  - rewrite fmap_app. apply NoDup_app. split_and!; [done|intros v Hv ->%list_elem_of_singleton; done|apply NoDup_singleton].
  - intros i y Hy. apply lookup_app_Some in Hy as [Hy|[Hle Hy]].
    + rewrite decide_False; [by apply Hat|]. intros E. apply Hx. rewrite E. apply list_elem_of_fmap_2. by eapply list_elem_of_lookup_2.
    + apply list_lookup_singleton_Some in Hy as [Hi <-]. rewrite decide_True by done. f_equal. lia.
  - intros v Hv. rewrite fmap_app, elem_of_app in Hv. rewrite decide_False; [apply Hgone; by intros ?; apply Hv; left|]. intros <-. apply Hv. right. by apply list_elem_of_singleton.
Qed.

Lemma tracked_pop calls l x : tracked calls (l ++ [x]) -> tracked ((value x, -1) :: calls) l.
Proof.
  intros [Hnd Hat Hgone]. rewrite fmap_app in Hnd, Hgone. apply NoDup_app in Hnd as (Hnd & Hd & _). split; cbn [lastIndex]; [done| |].
  - intros i y Hy. rewrite decide_False; [apply Hat; by apply lookup_app_l_Some|]. intros E. apply (Hd (value y)); [apply list_elem_of_fmap_2; by eapply list_elem_of_lookup_2|rewrite <- E; by apply list_elem_of_singleton].
  - intros v Hv. case_decide as E; [done|]. apply Hgone. intros [?|Hx%list_elem_of_singleton]%elem_of_app; congruence.
Qed.

(** ** The stack as a list *)

(** Where the next item goes: into the active block, or, when that is full, into
    the block after it. *)
Definition cursor n (off act : Z) (nb : nat) : Prop :=
  (off = Z.of_nat (n mod bs) /\ act = Z.of_nat (n / bs) /\ n < bs * nb)%nat \/
  (exists k, n = bs * S k /\ off = blockSize /\ act = Z.of_nat k /\ n <= bs * nb)%nat.

(** There is a callback. *)
Definition hasCallback s : bool := match setIndex s with Some _ => true | None => false end.

Record rep s l : Prop := {
  rp_callback : hasCallback s = callback;
  rp_wrap : wrapAround s = wrap;
  rp_size : size s = Z.of_nat (length l);
  rp_full : full (blocks s);
  rp_capacity : capacity s = blockSize * Z.of_nat (length (blocks s));
  rp_cells : forall i x, l !! i = Some x -> look (blocks s) i = Some (Some x);
  rp_nil : forall i x, look (blocks s) i = Some (Some x) -> (i < length l)%nat;
  rp_cursor : cursor (length l) (offset s) (active s) (length (blocks s));
  rp_window : forall x, x ∈ l -> inWindow (priority x);
  rp_tracked : forall calls, setIndex s = Some calls -> tracked calls l
}.

Lemma look_new i x : look [newBlock] i <> Some (Some x).
Proof. unfold look. intros (blk & Hb & Hx)%bind_Some. apply list_lookup_singleton_Some in Hb as [_ <-]. by apply lookup_replicate_1 in Hx as [? _]. Qed.

Lemma rep_new cb : hasCallback (newSstack cb wrap) = callback -> (forall calls, cb = Some calls -> forall v, lastIndex calls v = -1) -> rep (newSstack cb wrap) [].
Proof.
  intros Hhas Hcb. pose proof bs_pos. split; cbn; try done; [| |left| |].
  - intros blk ->%list_elem_of_singleton. apply length_replicate.
  - intros i x Hx. by apply look_new in Hx.
  - rewrite Nat.Div0.mod_0_l, Nat.Div0.div_0_l. lia.
  - by intros x ?%elem_of_nil.
  - intros calls ->. split; [apply NoDup_nil_2|done|intros v _; by apply Hcb].
Qed.

(** The stack after a call of the callback. *)
Definition told x (i : Z) s : sstack V :=
  match setIndex s with
  | None => s
  | Some calls => {| setIndex := Some ((value x, i) :: calls); size := size s; capacity := capacity s; offset := offset s;
                     wrapAround := wrapAround s; blocks := blocks s; active := active s |}
  end.

Lemma report_told x (i : Z) s : report (Some x) i s = Ok (told x i s).
Proof. unfold report, told. by case_match. Qed.

Lemma told_fields x (i : Z) s : size (told x i s) = size s /\ capacity (told x i s) = capacity s /\ offset (told x i s) = offset s /\
  wrapAround (told x i s) = wrapAround s /\ blocks (told x i s) = blocks s /\ active (told x i s) = active s /\
  setIndex (told x i s) = (fun calls => (value x, i) :: calls) <$> setIndex s.
Proof. unfold told. by destruct (setIndex s) eqn:E; cbn; rewrite ?E. Qed.

Lemma rep_look s l i x : rep s l -> l !! i = Some x -> cellAt s (Z.of_nat i) = Ok (Some x) /\ (i < bs * length (blocks s))%nat.
Proof.
  intros [] Hx. rewrite cellAt_look, (rp_cells0 i x Hx). split; [done|]. rewrite <- look_is_Some by done. by rewrite (rp_cells0 i x Hx).
Qed.

Lemma Less_rep s l i j : rep s l -> (i < length l)%nat -> (j < length l)%nat -> sLess s (Z.of_nat i) (Z.of_nat j) = Ok (Heap.Less above l i j).
Proof.
  intros Hr [x Hx]%lookup_lt_is_Some [y Hy]%lookup_lt_is_Some. unfold sLess, Heap.Less. destruct (rep_look s l i x Hr Hx) as [-> _], (rep_look s l j y Hr Hy) as [-> _].
  rewrite Hx, Hy. cbn. f_equal. rewrite (rp_wrap _ _ Hr). apply less_rank; apply (rp_window _ _ Hr); by eapply list_elem_of_lookup_2.
Qed.

Lemma Swap_rep s l i j : rep s l -> (i < length l)%nat -> (j < length l)%nat -> exists s', sSwap (Z.of_nat i) (Z.of_nat j) s = Ok s' /\ rep s' (Heap.Swap l i j).
Proof.
  intros Hr [x Hx]%lookup_lt_is_Some [y Hy]%lookup_lt_is_Some. unfold sSwap. destruct (rep_look s l i x Hr Hx) as [-> Hi], (rep_look s l j y Hr Hy) as [-> Hj]. pose proof Hr as [].
  cbn [mbind outcome_bind]. rewrite report_told. cbn [mbind outcome_bind]. rewrite report_told. cbn [mbind outcome_bind].
  set (s1 := told y (Z.of_nat i) s). set (s2 := told x (Z.of_nat j) s1).
  destruct (told_fields y (Z.of_nat i) s) as (A1 & A2 & A3 & A4 & A5 & A6 & A7). fold s1 in A1, A2, A3, A4, A5, A6, A7.
  destruct (told_fields x (Z.of_nat j) s1) as (B1 & B2 & B3 & B4 & B5 & B6 & B7). fold s2 in B1, B2, B3, B4, B5, B6, B7. rewrite A5 in B5.
  rewrite setCellAt_store by (by rewrite B5). cbn [mbind outcome_bind]. rewrite setCellAt_store by (cbn; rewrite ?B5, ?store_length; try apply store_full; done).
  eexists. split; [done|]. cbn. pose proof (Swap_permutes l i j) as Hp. split; [unfold hasCallback in *; cbn; rewrite B7, A7; by destruct (setIndex s)|..]; cbn; rewrite ?B5, ?store_length, ?Hp; try congruence.
  - by do 2 apply store_full.
  - intros k z. rewrite look_store by (rewrite ?store_length; try apply store_full; done). rewrite look_store by done. unfold Heap.Swap. rewrite Hx, Hy.
    rewrite list_lookup_insert_Some, list_lookup_insert_Some. intros [(-> & -> & _)|[Hkj [(-> & -> & _)|[Hki Hz]]]].
    + by rewrite decide_True.
    + by rewrite decide_False, decide_True.
    + rewrite !decide_False by done. by apply rp_cells0.
  - intros k z. rewrite look_store by (rewrite ?store_length; try apply store_full; done). rewrite look_store by done.
    rewrite Swap_length.
    apply lookup_lt_Some in Hx, Hy. repeat case_decide; subst; intros E; [lia..|by eapply rp_nil0].
  - intros z. rewrite Hp. apply rp_window0.
  - intros calls. rewrite B7, A7. destruct (setIndex s) as [calls'|]; [|done]. intros [= <-]. apply tracked_swap; [by apply rp_tracked0|done|done].
Qed.

(** The next position is in the same block or at the start of the next one. *)
Lemma next_position n :
  (S (n mod bs) = bs /\ S n mod bs = 0 /\ S n / bs = S (n / bs) \/ S (n mod bs) < bs /\ S n mod bs = S (n mod bs) /\ S n / bs = n / bs)%nat.
Proof.
  pose proof bs_pos. pose proof (Nat.div_mod_eq n bs) as Hd. pose proof (Nat.mod_upper_bound n bs ltac:(lia)) as Hm. destruct (decide (S (n mod bs) = bs)) as [E|E]; [left|right].
  - split; [done|]. rewrite <- (Nat.mod_unique (S n) bs (S (n / bs)) 0), <- (Nat.div_unique (S n) bs (S (n / bs)) 0) by lia. done.
  - split; [lia|]. rewrite <- (Nat.mod_unique (S n) bs (n / bs) (S (n mod bs))), <- (Nat.div_unique (S n) bs (n / bs) (S (n mod bs))) by lia. done.
Qed.

Lemma cursor_next n nb : (n < bs * nb)%nat -> cursor (S n) (Z.of_nat (n mod bs) + 1) (Z.of_nat (n / bs)) nb.
Proof.
  intros Hn. pose proof (Nat.div_mod_eq n bs) as Hd. destruct (next_position n) as [(E & H1 & H2)|(E & H1 & H2)].
  - right. exists (n / bs)%nat. rewrite bs_Z. split_and!; lia.
  - left. rewrite H1, H2. apply div_block in Hn. split_and!; [lia|done|]. apply div_block. lia.
Qed.

Lemma cursor_back n off act nb : cursor (S n) off act nb ->
  (n < bs * nb)%nat /\ (if off - 1 <? 0 then blockSize - 1 else off - 1) = Z.of_nat (n mod bs) /\ (if off - 1 <? 0 then Z.quot (Z.of_nat n) blockSize else act) = Z.of_nat (n / bs).
Proof.
  intros Hc. pose proof bs_pos. assert (Z.quot (Z.of_nat n) blockSize = Z.of_nat (n / bs)) as -> by (by rewrite bs_Z, Z.quot_div_nonneg, <- Nat2Z.inj_div by lia).
  destruct (next_position n) as [(E & H1 & H2)|(E & H1 & H2)], Hc as [(-> & -> & Hn)|(k & Ek & -> & -> & Hn)]; rewrite ?H1, ?H2, ?bs_Z; try (rewrite (proj2 (Z.ltb_ge _ _)) by lia).
  - rewrite (proj2 (Z.ltb_lt _ _)) by lia. split_and!; lia.
  - split_and!; [lia|lia|]. rewrite Ek, Nat.mul_comm, Nat.div_mul in H2 by lia. lia.
  - split_and!; lia.
  - rewrite Ek, Nat.mul_comm, Nat.Div0.mod_mul in H1. lia.
Qed.

Lemma look_app b blk i : (i < bs * length b)%nat -> look (b ++ [blk]) i = look b i.
Proof. intros Hi%div_block. unfold look. by rewrite lookup_app_l. Qed.

Lemma look_app_new b i x : look (b ++ [newBlock]) i = Some (Some x) -> look b i = Some (Some x).
Proof.
  intros (blk & Hb & Hx)%bind_Some. apply lookup_app_Some in Hb as [Hb|[_ Hb]]; [unfold look; by rewrite Hb|].
  apply list_lookup_singleton_Some in Hb as [_ <-]. by apply lookup_replicate_1 in Hx as [? _].
Qed.

Definition makeRoom s : sstack V :=
  if size s =? capacity s then set_cursor (size s) (capacity s + blockSize) 0 (blocks s ++ [newBlock]) (Z.of_nat (length (blocks s))) s
  else if offset s =? blockSize then set_cursor (size s) (capacity s) 0 (blocks s) (Z.quot (size s) blockSize) s else s.

(** The stack that [sPush] writes to. *)
Lemma makeRoom_rep s l : rep s l -> rep (makeRoom s) l /\ setIndex (makeRoom s) = setIndex s /\ (length l < bs * length (blocks (makeRoom s)))%nat /\
    offset (makeRoom s) = Z.of_nat (length l mod bs) /\ active (makeRoom s) = Z.of_nat (length l / bs).
Proof.
  intros Hr. pose proof Hr as []. pose proof bs_pos. unfold makeRoom. rewrite rp_size0, rp_capacity0, bs_Z. destruct (Z.eqb_spec (Z.of_nat (length l)) (Z.of_nat bs * Z.of_nat (length (blocks s)))) as [E|E].
  - assert (length l = bs * length (blocks s))%nat as El by lia. assert (length l mod bs = 0 /\ length l / bs = length (blocks s))%nat as [Em Ed].
    { rewrite El, Nat.mul_comm, Nat.Div0.mod_mul, Nat.div_mul by lia. done. }
    assert (length (blocks s ++ [newBlock]) = S (length (blocks s))) as Eb by (rewrite length_app; cbn; lia).
    cbn. rewrite Em, Ed, Eb. split_and!; [|done|lia|done|done]. split; cbn; try done; rewrite ?Eb.
    + intros blk [Hb|Hb%list_elem_of_singleton]%elem_of_app; [by apply rp_full0|]. subst. apply length_replicate.
    + rewrite bs_Z. lia.
    + intros i x Hx. rewrite look_app; [by apply rp_cells0|]. apply lookup_lt_Some in Hx. lia.
    + intros i x Hx%look_app_new. by eapply rp_nil0.
    + left. rewrite Em, Ed. lia.
  - destruct rp_cursor0 as [(Ho & Ha & Hn)|(k & Ek & Ho & Ha & Hn)]; rewrite Ho.
    + pose proof (Nat.mod_upper_bound (length l) bs ltac:(lia)). rewrite (proj2 (Z.eqb_neq _ _)) by lia. done.
    + assert (length l mod bs = 0 /\ length l / bs = S k)%nat as [Em Ed] by (rewrite Ek, Nat.mul_comm, Nat.Div0.mod_mul, Nat.div_mul by lia; done).
      rewrite (proj2 (Z.eqb_eq _ _)) by (by rewrite bs_Z). cbn. rewrite Z.quot_div_nonneg, <- Nat2Z.inj_div, Em, Ed by lia. split_and!; [|done|lia|done|done].
      split; cbn; try done; try (by rewrite bs_Z). left. rewrite Em, Ed. lia.
Qed.

Lemma Push_rep s l x : rep s l -> (callback = true -> value x ∉ value <$> l) -> inWindow (priority x) -> exists s', sPush x s = Ok s' /\ rep s' (l ++ [x]).
Proof.
  intros Hr Hv Hx. unfold sPush. fold (makeRoom s). destruct (makeRoom_rep s l Hr) as (Hr' & _ & Hn & Ho & Ha). revert Hr' Hn Ho Ha. clear Hr. generalize (makeRoom s). clear s.
  intros s Hr Hn Ho Ha. pose proof Hr as []. cbv zeta. rewrite report_told. cbn [mbind outcome_bind].
  destruct (told_fields x (size s) s) as (A1 & A2 & A3 & A4 & A5 & A6 & A7). rewrite A3, A6, Ho, Ha, setCell_store by (by rewrite A5). cbn [mbind outcome_bind].
  eexists. split; [done|]. cbn. split; cbn; rewrite ?A5, ?store_length, ?length_app, ?Nat.add_1_r; [unfold hasCallback in *; cbn; rewrite A7; by destruct (setIndex s)|congruence|lia|by apply store_full|congruence| | | | |].
  - intros i y Hy. rewrite look_store by done. apply lookup_app_Some in Hy as [Hy|[Hle Hy]].
    + apply lookup_lt_Some in Hy as Hl. rewrite decide_False by lia. by apply rp_cells0.
    + apply list_lookup_singleton_Some in Hy as [Hi <-]. by rewrite decide_True by lia.
  - intros i y. rewrite look_store by done. case_decide; [lia|]. intros Hy%rp_nil0. lia.
  - rewrite A3, A6, Ho, Ha. by apply cursor_next.
  - intros y [Hy| ->%list_elem_of_singleton]%elem_of_app; [by apply rp_window0|done].
  - unfold hasCallback in *. intros calls. rewrite A7. destruct (setIndex s) as [calls'|]; [|done]. intros [= <-]. rewrite rp_size0. apply tracked_push; [by apply rp_tracked0|]. by apply Hv.
Qed.

(** The cell that [sPop] takes from. *)
Definition stepBack s : sstack V :=
  let s := set_cursor (size s - 1) (capacity s) (offset s - 1) (blocks s) (active s) s in
  if offset s <? 0 then set_cursor (size s) (capacity s) (blockSize - 1) (blocks s) (Z.quot (size s) blockSize) s else s.

Lemma Pop_rep s l x : rep s (l ++ [x]) -> exists s', sPop s = Ok (s', Some x) /\ rep s' l.
Proof.
  intros Hr. pose proof Hr as []. rewrite length_app, Nat.add_1_r in rp_size0, rp_cursor0. destruct (cursor_back _ _ _ _ rp_cursor0) as (Hn & Ho & Ha).
  assert ((l ++ [x]) !! length l = Some x) as Hx by (by apply list_lookup_middle). pose proof (rp_cells0 _ _ Hx) as Hc.
  unfold sPop. fold (stepBack s). cbv zeta. assert (stepBack s = set_cursor (Z.of_nat (length l)) (capacity s) (Z.of_nat (length l mod bs)) (blocks s) (Z.of_nat (length l / bs)) s) as ->.
  { unfold stepBack. cbn. replace (size s - 1) with (Z.of_nat (length l)) by lia. rewrite <- Ho, <- Ha. by destruct (offset s - 1 <? 0). }
  cbn [active offset set_cursor]. assert (forall t, blocks t = blocks s -> cell t (Z.of_nat (length l / bs)) (Z.of_nat (length l mod bs)) = Ok (Some x)) as Hcell.
  { intros t Ht. unfold cell. rewrite !(proj2 (Z.ltb_ge _ _)) by lia. rewrite !Nat2Z.id, Ht. unfold look in Hc. by rewrite Hc. }
  rewrite Hcell by done. cbn [mbind outcome_bind]. rewrite setCell_store by done. cbn [mbind outcome_bind]. rewrite report_told. cbn [mbind outcome_bind]. eexists. split; [done|].
  match goal with |- rep (told _ _ ?t) _ => destruct (told_fields x (-1) t) as (A1 & A2 & A3 & A4 & A5 & A6 & A7) end. cbn in *.
  split; [unfold hasCallback in *; rewrite A7; by destruct (setIndex s)|..]; rewrite ?A1, ?A2, ?A3, ?A4, ?A5, ?A6, ?A7, ?store_length; cbn; try done.
  - by apply store_full.
  - intros i y Hy. apply lookup_lt_Some in Hy as Hl. rewrite look_store, decide_False by (done || lia). apply rp_cells0. by apply lookup_app_l_Some.
  - intros i y. rewrite look_store by done. case_decide; [done|]. intros Hy%rp_nil0. rewrite length_app in Hy. cbn in Hy. lia.
  - by left.
  - intros y Hy. apply rp_window0. apply elem_of_app. by left.
  - intros calls. destruct (setIndex s) as [calls'|]; [|done]. intros [= <-]. by apply tracked_pop, rp_tracked0.
Qed.

(** ** The functions of [container/heap] *)

Lemma parent_quot j : (0 < j)%nat -> Z.quot (Z.of_nat j - 1) 2 = Z.of_nat (parent j).
Proof. intros Hj. unfold parent. rewrite Nat.div2_div, Z.quot_div_nonneg, Nat2Z.inj_div, Nat2Z.inj_sub by lia. done. Qed.

Lemma Up_rep fuel s l j : rep s l -> (j < length l)%nat -> (j <= fuel)%nat -> exists s', heapUp fuel (Z.of_nat j) s = Ok s' /\ rep s' (up above fuel l j).
Proof.
  revert s l j. induction fuel as [|fuel IH]; intros s l j Hr Hj Hf.
  { assert (j = 0%nat) as -> by lia. by exists s. }
  destruct (decide (j = 0%nat)) as [->|Hj0]; [by exists s|]. cbn [heapUp up]. rewrite parent_quot by lia. pose proof (parent_lt j ltac:(lia)) as Hp.
  rewrite (proj2 (Z.eqb_neq _ _)), (proj2 (Nat.eqb_neq _ _)) by lia. cbn [orb]. rewrite (Less_rep s l) by (done || lia). cbn [mbind outcome_bind].
  destruct (Heap.Less above l j (parent j)); cbn [negb]; [|by exists s]. destruct (Swap_rep s l (parent j) j Hr) as (s1 & -> & Hr1); [lia|done|]. cbn [mbind outcome_bind].
  apply IH; [done|by rewrite Swap_length; lia|lia].
Qed.

Lemma Down_rep fuel s l i n : rep s l -> (n <= length l)%nat -> (n <= i + fuel)%nat ->
  exists s', heapDown fuel (Z.of_nat i) (Z.of_nat n) s = Ok (s', Z.of_nat (down above fuel l i n).2) /\ rep s' (down above fuel l i n).1.
Proof.
  revert s l i. induction fuel as [|fuel IH]; intros s l i Hr Hn Hf.
  { exists s. cbn [heapDown down]. by rewrite (proj2 (Z.leb_le _ _)) by lia. }
  cbn [heapDown down]. replace (2 * Z.of_nat i + 1) with (Z.of_nat (2 * i + 1)) by lia. replace (Z.of_nat (2 * i + 1) + 1) with (Z.of_nat (S (2 * i + 1))) by lia.
  destruct (Nat.leb_spec n (2 * i + 1)) as [Hle|Hlt]; [rewrite (proj2 (Z.leb_le _ _)) by lia; by exists s|]. rewrite (proj2 (Z.leb_gt _ _)) by lia.
  pose proof (child_bound above l i n Hlt) as Hcb. assert (i < child above l i n)%nat as Hci by (unfold child; case_match; lia).
  set (c := child above l i n) in *.
  assert (exists b : bool, (if Z.of_nat (S (2 * i + 1)) <? Z.of_nat n then sLess s (Z.of_nat (S (2 * i + 1))) (Z.of_nat (2 * i + 1)) else Ok false) = Ok b /\
    (if b then Z.of_nat (S (2 * i + 1)) else Z.of_nat (2 * i + 1)) = Z.of_nat c) as (b & -> & Hb).
  { unfold c, child. destruct (Nat.ltb_spec (S (2 * i + 1)) n).
    - rewrite (proj2 (Z.ltb_lt _ _)), (Less_rep s l) by (done || lia). eexists. split; [done|]. cbn [andb]. by case_match.
    - rewrite (proj2 (Z.ltb_ge _ _)) by lia. by exists false. }
  cbn [mbind outcome_bind]. rewrite Hb, (Less_rep s l) by (done || lia). cbn [mbind outcome_bind].
  destruct (Heap.Less above l c i); cbn [negb]; [|by exists s]. destruct (Swap_rep s l i c Hr) as (s1 & -> & Hr1); [lia|lia|]. cbn [mbind outcome_bind].
  apply IH; [done|by rewrite Swap_length|lia].
Qed.

Lemma heapPush_rep s l x : rep s l -> (callback = true -> value x ∉ value <$> l) -> inWindow (priority x) ->
  exists s', heapPush x s = Ok s' /\ rep s' (Heap.Push above l x).
Proof.
  intros Hr Hv Hx. unfold heapPush. destruct (Push_rep s l x Hr Hv Hx) as (s1 & -> & Hr1). cbn [mbind outcome_bind]. unfold Len. rewrite (rp_size _ _ Hr1), length_app. cbn [length].
  replace (Z.of_nat (length l + 1) - 1) with (Z.of_nat (length l)) by lia. rewrite Nat2Z.id. apply Up_rep; [done|rewrite length_app; cbn; lia|lia].
Qed.

(** The last item, once the one to remove is there. *)
Lemma last_rep s l n x : rep s l -> length l = S n -> l !! n = Some x -> exists s', sPop s = Ok (s', Some x) /\ rep s' (take n l).
Proof.
  intros Hr Hl Hx. apply Pop_rep. rewrite <- (take_S_r l n x Hx), <- Hl. by rewrite firstn_all.
Qed.

Lemma heapPop_rep s l x l' : rep s l -> Heap.Pop above l = Some (x, l') -> exists s', heapPop s = Ok (s', Some x) /\ rep s' l'.
Proof.
  intros Hr Hpop. unfold heapPop, Len, Heap.Pop in *. rewrite (rp_size _ _ Hr). destruct (length l) as [|n] eqn:El; [done|]. apply bind_Some in Hpop as (y & Hy & [= -> <-]).
  replace (Z.of_nat (S n) - 1) with (Z.of_nat n) by lia. destruct (Swap_rep s l 0 n Hr) as (s1 & E1 & Hr1); [lia|lia|]. change (Z.of_nat 0) with 0 in E1. rewrite E1. cbn [mbind outcome_bind]. rewrite Nat2Z.id.
  destruct (Down_rep n s1 _ 0 n Hr1) as (s2 & E2 & Hr2); [rewrite Swap_length; lia|lia|]. change (Z.of_nat 0) with 0 in E2. rewrite E2. cbn [mbind outcome_bind].
  apply last_rep; [done| |done]. by rewrite down_permutes, Swap_length.
Qed.

Lemma heapRemove_rep s l i x l' : rep s l -> Heap.Remove above l i = Some (x, l') -> exists s', heapRemove (Z.of_nat i) s = Ok (s', Some x) /\ rep s' l'.
Proof.
  intros Hr Hrem. unfold heapRemove, Len, Heap.Remove in *. rewrite (rp_size _ _ Hr). destruct (length l) as [|n] eqn:El; [done|]. replace (Z.of_nat (S n) - 1) with (Z.of_nat n) by lia.
  destruct (Nat.ltb_spec n i) as [|Hi]; [done|]. apply bind_Some in Hrem as (y & Hy & [= -> <-]). destruct (Nat.eqb_spec n i) as [->|Hne].
  { rewrite Z.eqb_refl. cbn [mbind outcome_bind]. by apply last_rep. }
  rewrite (proj2 (Z.eqb_neq _ _)) by lia. destruct (Swap_rep s l i n Hr) as (s1 & -> & Hr1); [lia|lia|]. cbn [mbind outcome_bind]. rewrite !Nat2Z.id.
  destruct (Down_rep n s1 _ i n Hr1) as (s2 & -> & Hr2); [rewrite Swap_length; lia|lia|]. cbn [mbind outcome_bind].
  pose proof (down_permutes above n (Heap.Swap l i n) i n) as Hp. destruct (down above n (Heap.Swap l i n) i n) as [l1 k]. cbn [fst snd] in *.
  assert (length l1 = S n) as Hl1 by (by rewrite Hp, Swap_length). destruct (Nat.ltb_spec i k) as [Hik|Hik].
  - rewrite (proj2 (Z.ltb_lt _ _)) by lia. cbn [mbind outcome_bind]. by apply last_rep.
  - rewrite (proj2 (Z.ltb_ge _ _)) by lia. destruct (Up_rep i s2 l1 i Hr2) as (s3 & -> & Hr3); [lia|lia|]. cbn [mbind outcome_bind].
    apply last_rep; [done|by rewrite up_permutes|done].
Qed.

(** ** Sequences of operations *)

Inductive op :=
  | push (v : V) (prio : Z)
  | pop
  | popItem
  | peek
  | remove (v : V)  (* at the last index reported for it *)
  | isEmpty
  | getSize.

Inductive result :=
  | nothing
  | entry (v : V) (prio : Z)
  | element (v : V)
  | removed (c : option (item V))
  | answer (b : bool)
  | number (z : Z).

Definition exec (o : op) (q : Prque V) : outcome (Prque V * result) :=
  match o with
  | push v prio => q ← Push v prio q; Ok (q, nothing)
  | pop => '(q, (v, prio)) ← Pop q; Ok (q, entry v prio)
  | popItem => '(q, v) ← PopItem q; Ok (q, element v)
  | peek => '(v, prio) ← Peek q; Ok (q, entry v prio)
  | remove v => '(q, c) ← Remove (match setIndex q with Some calls => lastIndex calls v | None => -1 end) q; Ok (q, removed c)
  | isEmpty => Ok (q, answer (Empty q))
  | getSize => Ok (q, number (Size q))
  end.

Fixpoint run (ops : list op) (q : Prque V) : outcome (Prque V * list result) :=
  match ops with
  | [] => Ok (q, [])
  | o :: ops => '(q, r) ← exec o q; '(q, rs) ← run ops q; Ok (q, r :: rs)
  end.

(** *** The specification: a bag of items *)

Definition highest x l : Prop := forall y, y ∈ l -> rank (priority y) <= rank (priority x).

Definition accepts l (o : op) (r : result) (l' : list (item V)) : Prop :=
  match o with
  | push v prio => r = nothing /\ l' ≡ₚ {| value := v; priority := prio |} :: l
  | pop => exists x, r = entry (value x) (priority x) /\ highest x l /\ l ≡ₚ x :: l'
  | popItem => exists x, r = element (value x) /\ highest x l /\ l ≡ₚ x :: l'
  | peek => exists x, r = entry (value x) (priority x) /\ x ∈ l /\ highest x l /\ l' ≡ₚ l
  | remove v => (exists x, value x = v /\ r = removed (Some x) /\ l ≡ₚ x :: l') \/ (v ∉ value <$> l /\ r = removed None /\ l' ≡ₚ l)
  | isEmpty => r = answer (bool_decide (l = [])) /\ l' ≡ₚ l
  | getSize => r = number (Z.of_nat (length l)) /\ l' ≡ₚ l
  end.

Fixpoint trace l (ops : list op) (rs : list result) (l' : list (item V)) : Prop :=
  match ops, rs with
  | [], [] => l' = l
  | o :: ops, r :: rs => exists l1, accepts l o r l1 /\ trace l1 ops rs l'
  | _, _ => False
  end.

(** Operations that look for an item. *)
Definition needsItem (o : op) : bool := match o with pop | popItem | peek => true | _ => false end.

(** What is pushed. *)
Definition pushed (ops : list op) : list (item V) := omap (fun o => match o with push v prio => Some {| value := v; priority := prio |} | _ => None end) ops.

(** *** The simulation *)

Record holds (q : Prque V) l : Prop := {
  ho_rep : rep q l;
  ho_heap : heap above l
}.

Lemma le_highest x l : (forall y, y ∈ l -> le above x y) -> highest x l.
Proof. intros Hl y Hy. specialize (Hl y Hy). by apply Z.ltb_ge in Hl. Qed.

Lemma heapPop_holds q l : holds q l -> l <> [] -> exists q' x l', heapPop q = Ok (q', Some x) /\ holds q' l' /\ highest x l /\ l ≡ₚ x :: l'.
Proof.
  intros [Hr Hh] Hl. destruct (Pop_heap above l Hh Hl) as (x & l' & Hp & _ & Hperm & Hh' & Hle). destruct (heapPop_rep q l x l' Hr Hp) as (q' & E & Hr').
  exists q', x, l'. split_and!; [done|by split| |done]. apply le_highest. intros y. rewrite Hperm. intros [->|Hy]%elem_of_cons; [apply le_refl; apply _|by apply Hle].
Qed.

Lemma heapPop_empty q : holds q [] -> heapPop q = Panic.
Proof. intros [Hr _]. unfold heapPop, Len. rewrite (rp_size _ _ Hr). change (Z.of_nat (length []) - 1) with (-1). unfold sSwap. by rewrite cellAt_negative. Qed.

(** The cell that [Peek] reads. *)
Lemma top_rep q l : rep q l -> cell q 0 0 = Ok (head l).
Proof.
  intros Hr. pose proof Hr as []. pose proof bs_pos. replace (cell q 0 0) with (cellAt q (Z.of_nat 0)) by (unfold cellAt; rewrite bs_Z, Z.quot_0_l, Z.rem_0_l by lia; done).
  rewrite cellAt_look. assert (is_Some (look (blocks q) 0)) as [c Hc] by (apply look_is_Some; [done|]; destruct rp_cursor0 as [?|(k & ? & ?)]; lia). rewrite Hc.
  destruct l as [|x l]; cbn.
  - destruct c as [x|]; [|done]. apply rp_nil0 in Hc. cbn in Hc. lia.
  - pose proof (rp_cells0 0%nat x eq_refl) as Hx. congruence.
Qed.

Lemma head_highest x l : heap above (x :: l) -> highest x (x :: l).
Proof. intros Hh. apply le_highest. intros y [i Hy]%list_elem_of_lookup. rewrite <- (list_lookup_total_correct _ _ _ Hy). apply (ordered_root above (x :: l) (length (x :: l)) i); [done|]. by eapply lookup_lt_Some. Qed.

Lemma Remove_holds q l v : callback = true -> holds q l ->
  exists q' r l', exec (remove v) q = Ok (q', r) /\ accepts l (remove v) r l' /\ holds q' l'.
Proof.
  intros Hcb [Hr Hh]. pose proof Hr as []. cbn [exec accepts]. unfold hasCallback in rp_callback0. destruct (setIndex q) as [calls|]; [|congruence]. destruct (rp_tracked0 calls eq_refl) as [Hnd Hat Hgone].
  destruct (decide (v ∈ value <$> l)) as [(x & -> & [i Hi]%list_elem_of_lookup)%list_elem_of_fmap|Hv].
  - rewrite (Hat i x Hi). unfold Remove. rewrite (proj2 (Z.ltb_ge _ _)) by lia. destruct (Remove_heap above l i x Hh Hi) as (l' & Hrem & Hp & Hh').
    destruct (heapRemove_rep q l i x l' Hr Hrem) as (q' & -> & Hr'). cbn. eexists _, _, l'. split; [done|]. split; [|by split]. left. by exists x.
  - rewrite Hgone by done. cbn. eexists _, _, l. split; [done|]. split; [by right|by split].
Qed.

Lemma exec_holds q l o : callback = true -> holds q l ->
  (forall v prio, o = push v prio -> v ∉ value <$> l /\ inWindow prio) -> (needsItem o = true -> l <> []) ->
  exists q' r l', exec o q = Ok (q', r) /\ accepts l o r l' /\ holds q' l'.
Proof.
  intros Hcb Hq Hpush Hne. pose proof Hq as [Hr Hh]. destruct o as [v prio| | | |v| |]; cbn [needsItem] in Hne; cbn [exec accepts].
  - destruct (Hpush v prio eq_refl) as [Hv Hw]. unfold Push. destruct (heapPush_rep q l {| value := v; priority := prio |} Hr) as (q' & -> & Hr'); [done|done|]. cbn.
    destruct (Push_heap above l {| value := v; priority := prio |} Hh) as [Hh' Hp]. eexists _, _, _. split; [done|]. split; [by split|by split].
  - unfold Pop. destruct (heapPop_holds q l Hq) as (q' & x & l' & -> & Hq' & Hx & Hp); [auto|]. cbn. eexists _, _, l'. split; [done|]. split; [by exists x|done].
  - unfold PopItem. destruct (heapPop_holds q l Hq) as (q' & x & l' & -> & Hq' & Hx & Hp); [auto|]. cbn. eexists _, _, l'. split; [done|]. split; [by exists x|done].
  - unfold Peek. rewrite (top_rep q l Hr). destruct l as [|x l]; [by destruct Hne|]. cbn. eexists _, _, (x :: l). split; [done|]. split; [|done].
    exists x. split_and!; [done|by left|by apply head_highest|done].
  - by apply Remove_holds.
  - eexists _, _, l. split; [done|]. split; [|done]. split; [|done]. f_equal. unfold Empty, Len. rewrite (rp_size _ _ Hr). by destruct l.
  - eexists _, _, l. split; [done|]. split; [|done]. split; [|done]. f_equal. apply (rp_size _ _ Hr).
Qed.

Lemma exec_empty q o : holds q [] -> needsItem o = true -> exec o q = Panic.
Proof.
  intros Hq. destruct o; try done; intros _; cbn [exec]; unfold Pop, PopItem, Peek; rewrite ?heapPop_empty by done; [done..|]. by rewrite (top_rep q [] (ho_rep _ _ Hq)).
Qed.

Lemma accepts_nodup l o r l' ops : accepts l o r l' -> NoDup ((value <$> l) ++ (value <$> pushed (o :: ops))) -> NoDup ((value <$> l') ++ (value <$> pushed ops)).
Proof.
  destruct o; cbn; intros Ha.
  - destruct Ha as [_ ->]. cbn. by rewrite <- Permutation_middle.
  - destruct Ha as (x & _ & _ & ->). cbn. by intros [_ ?]%NoDup_cons.
  - destruct Ha as (x & _ & _ & ->). cbn. by intros [_ ?]%NoDup_cons.
  - destruct Ha as (x & _ & _ & _ & ->). done.
  - destruct Ha as [(x & _ & _ & ->)|(_ & _ & ->)]; [|done]. cbn. by intros [_ ?]%NoDup_cons.
  - by destruct Ha as [_ ->].
  - by destruct Ha as [_ ->].
Qed.

Lemma run_holds ops q l : callback = true -> holds q l -> NoDup ((value <$> l) ++ (value <$> pushed ops)) -> (forall x, x ∈ pushed ops -> inWindow (priority x)) ->
  match run ops q with
  | Ok (q', rs) => exists l', trace l ops rs l' /\ holds q' l'
  | Panic => exists pre o post q' rs, ops = pre ++ o :: post /\ run pre q = Ok (q', rs) /\ needsItem o = true /\ Empty q' = true
  | Err _ => False
  end.
Proof.
  intros Hcb. revert q l. induction ops as [|o ops IH]; intros q l Hq Hnd Hw; cbn [run]; [by exists l|].
  destruct (decide (needsItem o = true /\ l = [])) as [[Ho ->]|Hne].
  { rewrite (exec_empty q o Hq Ho). cbn. exists [], o, ops, q, []. split_and!; [done|done|done|]. unfold Empty, Len. by rewrite (rp_size _ _ (ho_rep _ _ Hq)). }
  destruct (exec_holds q l o Hcb Hq) as (q1 & r & l1 & E & Ha & Hq1); [|intros Hno ->; by apply Hne|].
  { intros v prio ->. cbn in Hnd, Hw. split; [|apply (Hw {| value := v; priority := prio |}); by left]. apply NoDup_app in Hnd as (_ & Hd & _). intros Hv. apply (Hd v Hv). by left. }
  rewrite E. cbn. specialize (IH q1 l1 Hq1 (accepts_nodup l o r l1 ops Ha Hnd)). destruct (run ops q1) as [[q2 rs]| |]; cbn.
  - destruct IH as (l' & Ht & Hq2); [|exists l'; split; [by exists l1|done]]. intros x Hx. apply Hw. destruct o; cbn; try done. by right.
  - apply IH. intros x Hx. apply Hw. destruct o; cbn; try done. by right.
  - destruct IH as (pre & o' & post & q' & rs & -> & Er & Ho' & He); [intros x Hx; apply Hw; destruct o; cbn; try done; by right|].
    exists (o :: pre), o', post, q', (r :: rs). split_and!; [done| |done|done]. cbn [run]. rewrite E. cbn. by rewrite Er.
Qed.

End Proofs.

(** ** The queue of the transaction pool: no callback, no wrap-around *)

Section Pairs.
Context {V : Type} `{!EqDecision V} `{!Inhabited V}.

Definition pair_of (x : item V) : V * Z := (value x, priority x).
Definition higher_pair (a b : V * Z) : bool := b.2 <? a.2.

(** The cells of [q] are a heap of pairs. *)
Definition pairs (q : Prque V) (h : list (V * Z)) : Prop := exists l, rep false 0 false q l /\ h = pair_of <$> l.

Lemma pairs_New : pairs (New None) [].
Proof. exists []. split; [|done]. by apply rep_new. Qed.

Lemma pairs_Push q h a p : pairs q h -> exists q', Push a p q = Ok q' /\ pairs q' (Heap.Push higher_pair h (a, p)).
Proof.
  intros (l & Hr & ->). destruct (heapPush_rep false 0 false q l {| value := a; priority := p |} Hr) as (q' & E & Hr'); [done|done|].
  exists q'. split; [exact E|]. eexists. split; [exact Hr'|]. change (a, p) with (pair_of {| value := a; priority := p |}). by apply Push_fmap.
Qed.

Lemma pairs_Pop q h x h' : pairs q h -> Heap.Pop higher_pair h = Some (x, h') -> exists q', Pop q = Ok (q', x) /\ pairs q' h'.
Proof.
  intros (l & Hr & ->). rewrite (Pop_fmap pair_of (above false 0) higher_pair) by done. destruct (Heap.Pop (above false 0) l) as [[y l']|] eqn:Hp; [|done]. intros [= <- <-].
  destruct (heapPop_rep false 0 false q l y l' Hr Hp) as (q' & E & Hr'). exists q'. unfold Pop. rewrite E. split; [done|]. by exists l'.
Qed.

Lemma pairs_Empty q h : pairs q h -> Empty q = bool_decide (h = []).
Proof. intros (l & Hr & ->). unfold Empty, Len. rewrite (rp_size _ _ _ _ _ Hr). by destruct l. Qed.
End Pairs.

(** ** Examples *)

Module Demo.
Definition ops : list (@op Z) := [push 1 5; push 2 9; push 3 7; remove 3; push 4 (- 2 ^ 63); peek; pop; getSize; popItem; remove 2; isEmpty].
Definition results : list (@result Z) :=
  [nothing; nothing; nothing; removed (Some {| value := 3; priority := 7 |}); nothing; entry 2 9; entry 2 9; number 2; element 1; removed None; answer false].
End Demo.

Definition results_of {A B} (o : outcome (A * B)) : option B := match o with Ok (_, b) => Some b | _ => None end.

Example demo_runs : results_of (run Demo.ops (New (Some []))) = Some Demo.results.
Proof. vm_compute. reflexivity. Qed.


(** [Reset] does not tell the callback that the items are gone: a client that
    kept the index of 7 takes 8 out of the queue. *)
Example Reset_keeps_indices :
  (q ← Push 7 1 (New (Some []) : Prque Z); let q := Reset q in q ← Push 8 1 q; '(_, c) ← Remove (lastIndex (default [] (setIndex q)) 7) q; Ok c) =
  Ok (Some {| value := 8; priority := 1 |}).
Proof. vm_compute. reflexivity. Qed.

(** A queue with wrap-around has none after [Reset]. *)
Example Reset_loses_wrapAround : forall cb, wrapAround (Reset (NewWrapAround cb : Prque Z)) = false.
Proof. done. Qed.

End Prque.
