(* ===== verification/TxSortedMap.v ===== *)
(** * TxSortedMap: [txsSortedMap] of [internal/txspool/txs_list.go]

    The transactions of one account, indexed by nonce: a map, a heap of its
    nonces and a cached nonce-sorted slice.  Results that the source reads out
    of the map by a nonce of the heap are pointers, nil for a missing nonce.
    [sort.Sort] is modelled by [merge_sort]: the sorted slices have distinct
    nonces, so every sorting algorithm returns the same slice. *)

From S2P Require Import Prelude Uint256 ChainConfig StateModel StateTransition Transaction Heap.
Import Transaction.

Module SortedMap.

Section SortedMap.
Context `{U : Uint256} `{MR : MapRange}.

Record txsSortedMap := {
  items : gmap Z TxData;
  index : list Z;
  cache : option (list TxData)
}.

(** [nonceHeap.Less] *)
Definition nonceLess (x y : Z) : bool := x <? y.

(** [TxByNonce.Less], as the order it sorts by *)
Definition byNonce (x y : TxData) : Prop := Nonce x <= Nonce y.

#[export] Instance byNonce_dec x y : Decision (byNonce x y).
Proof. apply Z_le_dec. Defined.

Definition newTxSortedMap : txsSortedMap := {| items := ∅; index := []; cache := None |}.

Definition Get (m : txsSortedMap) (nonce : Z) : option TxData := items m !! nonce.

Definition Put (m : txsSortedMap) (tx : TxData) : txsSortedMap :=
  let nonce := Nonce tx in
  {| items := <[nonce := tx]> (items m);
     index := match items m !! nonce with
              | None => Push nonceLess (index m) nonce
              | Some _ => index m
              end;
     cache := None |}.

Fixpoint forward_loop (fuel : nat) (its : gmap Z TxData) (idx : list Z) (threshold : Z)
    (removed : list (option TxData)) : outcome (gmap Z TxData * list Z * list (option TxData)) :=
  match fuel, idx with
  | S fuel', top :: _ =>
      if top <? threshold then
        '(nonce, idx) ← or_panic (Pop nonceLess idx);
        forward_loop fuel' (delete nonce its) idx threshold (removed ++ [its !! nonce])
      else Ok (its, idx, removed)
  | _, _ => Ok (its, idx, removed)
  end.

(** [s[n:]] *)
Definition slice_from {A} (l : list A) (n : nat) : outcome (list A) :=
  if (n <=? length l)%nat then Ok (drop n l) else Panic.

Definition Forward (m : txsSortedMap) (threshold : Z) : outcome (txsSortedMap * list (option TxData)) :=
  '(its, idx, removed) ← forward_loop (length (index m)) (items m) (index m) threshold [];
  c ← match cache m with
      | None => Ok None
      | Some c => c' ← slice_from c (length removed); Ok (Some c')
      end;
  Ok ({| items := its; index := idx; cache := c |}, removed).

Definition filter_items (f : TxData -> bool) (m : txsSortedMap) : txsSortedMap * list TxData :=
  let '(its, removed) :=
    foldl (fun '(its, removed) (kv : Z * TxData) =>
             if f kv.2 then (delete kv.1 its, removed ++ [kv.2]) else (its, removed))
          (items m, []) (range (items m)) in
  ({| items := its; index := index m; cache := if decide (removed = []) then cache m else None |}, removed).

Definition reheap (m : txsSortedMap) : txsSortedMap :=
  {| items := items m; index := Init nonceLess (range (items m)).*1; cache := None |}.

Definition Filter (f : TxData -> bool) (m : txsSortedMap) : txsSortedMap * list TxData :=
  let '(m, removed) := filter_items f m in
  (if decide (removed = []) then m else reheap m, removed).

Fixpoint cap_loop (fuel : nat) (size threshold : Z) (idx : list Z) (its : gmap Z TxData)
    (drops : list (option TxData)) : outcome (gmap Z TxData * list (option TxData)) :=
  match fuel with
  | O => Panic
  | S fuel' =>
      if threshold <? size then
        nonce ← or_panic (if size - 1 <? 0 then None else idx !! Z.to_nat (size - 1));
        cap_loop fuel' (size - 1) threshold idx (delete nonce its) (drops ++ [its !! nonce])
      else Ok (its, drops)
  end.

(** The loop runs at most once per item before [size] reaches the threshold
    or the index -1, which panics. *)
Definition Cap (m : txsSortedMap) (threshold : Z) : outcome (txsSortedMap * list (option TxData)) :=
  if Z.of_nat (size (items m)) <=? threshold then Ok (m, [])
  else
    let idx := merge_sort Z.le (index m) in
    '(its, drops) ← cap_loop (S (size (items m))) (Z.of_nat (size (items m))) threshold idx (items m) [];
    if (threshold <? 0) || (Z.of_nat (length idx) <? threshold) then Panic
    else
      c ← match cache m with
          | None => Ok None
          | Some c => if (length c <? length drops)%nat then Panic
                      else Ok (Some (take (length c - length drops) c))
          end;
      Ok ({| items := its; index := Init nonceLess (take (Z.to_nat threshold) idx); cache := c |}, drops).

Definition Remove (m : txsSortedMap) (nonce : Z) : outcome (txsSortedMap * bool) :=
  match items m !! nonce with
  | None => Ok (m, false)
  | Some _ =>
      idx ← match list_find (fun n => n = nonce) (index m) with
            | Some (i, _) => r ← or_panic (Heap.Remove nonceLess (index m) i); Ok r.2
            | None => Ok (index m)
            end;
      Ok ({| items := delete nonce (items m); index := idx; cache := None |}, true)
  end.

Fixpoint ready_loop (fuel : nat) (next : Z) (its : gmap Z TxData) (idx : list Z) (ready : list (option TxData))
    : outcome (gmap Z TxData * list Z * list (option TxData)) :=
  match fuel, idx with
  | S fuel', top :: _ =>
      if top =? next then
        '(_, idx') ← or_panic (Pop nonceLess idx);
        ready_loop fuel' (next +u 1) (delete next its) idx' (ready ++ [its !! next])
      else Ok (its, idx, ready)
  | _, _ => Ok (its, idx, ready)
  end.

Definition Ready (m : txsSortedMap) (start : Z) : outcome (txsSortedMap * list (option TxData)) :=
  match index m with
  | [] => Ok (m, [])
  | top :: _ =>
      if start <? top then Ok (m, [])
      else
        '(its, idx, ready) ← ready_loop (length (index m)) top (items m) (index m) [];
        Ok ({| items := its; index := idx; cache := None |}, ready)
  end.

Definition Len (m : txsSortedMap) : Z := Z.of_nat (size (items m)).

Definition flatten (m : txsSortedMap) : txsSortedMap * list TxData :=
  match cache m with
  | Some c => (m, c)
  | None =>
      let c := merge_sort byNonce (range (items m)).*2 in
      ({| items := items m; index := index m; cache := Some c |}, c)
  end.

(** The result is a copy of the cache. *)
Definition Flatten (m : txsSortedMap) : txsSortedMap * list TxData := flatten m.

Definition LastElement (m : txsSortedMap) : outcome (txsSortedMap * TxData) :=
  let '(m, c) := flatten m in
  tx ← or_panic (last c); Ok (m, tx).

End SortedMap.

(** ** Facts on the sorted contents *)

Section Facts.
Context `{U : Uint256} `{MR : MapRange}.
Implicit Types (its : gmap Z TxData) (idx : list Z).

(** Transactions are stored under their nonce, a [uint64]. *)
Definition keyed its : Prop := forall k tx, its !! k = Some tx -> Nonce tx = k /\ in_u64 k.

(** The contents in ascending order of nonce. *)
Definition sorted its : list TxData := merge_sort byNonce (map_to_list its).*2.

(** The contents without the transactions of [l]. *)
Definition without (l : list TxData) its : gmap Z TxData := foldr (fun tx m => delete (Nonce tx) m) its l.

#[export] Instance byNonce_trans : Transitive byNonce.
Proof. intros x y z. unfold byNonce. lia. Qed.
#[export] Instance byNonce_total : Total byNonce.
Proof. intros x y. unfold byNonce. lia. Qed.
#[export] Instance nonceLess_weak : StrictWeak nonceLess.
Proof. split; unfold nonceLess; intros *; rewrite ?Z.ltb_lt, ?Z.ltb_ge; lia. Qed.

Lemma elem_of_values its tx : keyed its -> tx ∈ (map_to_list its).*2 <-> its !! Nonce tx = Some tx.
Proof.
  intros Hk. rewrite list_elem_of_fmap. split.
  - intros ([k tx'] & -> & Hin%elem_of_map_to_list). cbn [snd]. by destruct (Hk _ _ Hin) as [-> _].
  - intros Htx. exists (Nonce tx, tx). split; [done|]. by apply elem_of_map_to_list.
Qed.

Lemma NoDup_values its : keyed its -> NoDup (map_to_list its).*2.
Proof.
  intros Hk. apply (NoDup_fmap_1 Nonce). rewrite <- list_fmap_compose.
  replace ((Nonce ∘ snd) <$> map_to_list its) with (map_to_list its).*1; [apply NoDup_fst_map_to_list|].
  apply list_fmap_ext. intros i [k tx] Hi%list_elem_of_lookup_2%elem_of_map_to_list.
  by destruct (Hk _ _ Hi).
Qed.

Lemma sorted_perm its : sorted its ≡ₚ (map_to_list its).*2.
Proof. apply merge_sort_Permutation. Qed.

Lemma sorted_sorted its : StronglySorted byNonce (sorted its).
Proof. apply StronglySorted_merge_sort; apply _. Qed.

Lemma elem_of_sorted its tx : keyed its -> tx ∈ sorted its <-> its !! Nonce tx = Some tx.
Proof. intros. rewrite sorted_perm. by apply elem_of_values. Qed.

Lemma NoDup_sorted its : keyed its -> NoDup (sorted its).
Proof. intros. rewrite sorted_perm. by apply NoDup_values. Qed.

Lemma length_sorted its : length (sorted its) = size its.
Proof. by rewrite sorted_perm, length_fmap, length_map_to_list. Qed.

(** A sorted list of the contents is the sorted list of the contents. *)
Lemma sorted_unique its l : keyed its -> StronglySorted byNonce l -> NoDup l ->
  (forall tx, tx ∈ l <-> its !! Nonce tx = Some tx) -> l = sorted its.
Proof.
  intros Hk Hs Hnd Hl. apply (StronglySorted_unique_strong byNonce).
  - intros x y Hx%Hl Hy%(elem_of_sorted its y Hk) H1 H2. unfold byNonce in *.
    assert (Nonce x = Nonce y) as E by lia. rewrite E in Hx. congruence.
  - done.
  - apply sorted_sorted.
  - apply NoDup_Permutation; [done|by apply NoDup_sorted|]. intros tx. by rewrite Hl, elem_of_sorted.
Qed.

Lemma lookup_without l its k : without l its !! k = if decide (k ∈ Nonce <$> l) then None else its !! k.
Proof.
  induction l as [|tx l IH]; cbn [without foldr fmap list_fmap].
  - by rewrite decide_False by (apply not_elem_of_nil).
  - fold (without l its). rewrite lookup_delete. destruct (decide (Nonce tx = k)) as [<-|Hne].
    + by rewrite decide_True by (by left).
    + rewrite IH. repeat case_decide; try done; exfalso; set_solver.
Qed.

Lemma without_keyed l its : keyed its -> keyed (without l its).
Proof. intros Hk k tx. rewrite lookup_without. case_decide; [done|]. apply Hk. Qed.

Lemma without_app l l' its : without (l ++ l') its = without l (without l' its).
Proof. unfold without. by rewrite foldr_app. Qed.

Lemma without_perm l l' its : l ≡ₚ l' -> without l its = without l' its.
Proof.
  intros Hp. apply map_eq; intros k. rewrite !lookup_without.
  assert (k ∈ Nonce <$> l <-> k ∈ Nonce <$> l') as Hiff by (by rewrite Hp).
  repeat case_decide; tauto.
Qed.

Lemma nonce_inj its x y : keyed its -> x ∈ sorted its -> y ∈ sorted its -> Nonce x = Nonce y -> x = y.
Proof. intros Hk Hx%elem_of_sorted Hy%elem_of_sorted E; auto. congruence. Qed.

(** Removing part of the sorted contents leaves the other part. *)
Lemma sorted_split its a b : keyed its -> sorted its = a ++ b ->
  sorted (without a its) = b /\ sorted (without b its) = a.
Proof.
  intros Hk Hs. pose proof (NoDup_sorted its Hk) as Hnd. rewrite Hs in Hnd.
  apply NoDup_app in Hnd as (Ha & Hab & Hb).
  pose proof (sorted_sorted its) as Hss. rewrite Hs in Hss.
  apply StronglySorted_app in Hss as (_ & Hsa & Hsb).
  assert (forall c d : list TxData, (forall tx, tx ∈ c -> tx ∈ sorted its) -> (forall tx, tx ∈ d -> tx ∈ sorted its) ->
    (forall tx, tx ∈ sorted its <-> tx ∈ c \/ tx ∈ d) -> (forall tx, tx ∈ c -> tx ∉ d) ->
    forall tx, tx ∈ d <-> without c its !! Nonce tx = Some tx) as Hg.
  { intros c d Hc Hd Hcd Hx tx. rewrite lookup_without. split.
    - intros Htx. rewrite decide_False; [by apply elem_of_sorted; auto|].
      intros (tx' & E & Htx')%list_elem_of_fmap.
      apply (nonce_inj its) in E; auto. subst. by apply (Hx tx').
    - case_decide as Hin; [done|]. intros Htx%(elem_of_sorted its tx Hk)%Hcd.
      destruct Htx as [Htx|]; [|done]. destruct Hin. apply list_elem_of_fmap. by exists tx. }
  split; symmetry; apply sorted_unique; auto using without_keyed; apply Hg;
    rewrite ?Hs; set_solver.
Qed.

End Facts.

(** ** The invariant and the operations *)

Abbreviation below t := (fun tx => Nonce tx < t).

Abbreviation filterb f := (filter (fun tx => f tx = true)).

Section Operations.
Context `{U : Uint256} `{MR : MapRange}.
Implicit Types (its : gmap Z TxData) (idx : list Z) (m : txsSortedMap).

(** [idx] is a heap of the nonces of [its]. *)
Record indexed its idx : Prop := {
  ix_keyed : keyed its;
  ix_heap : heap nonceLess idx;
  ix_keys : idx ≡ₚ (map_to_list its).*1
}.

Record wf m : Prop := {
  wf_index : indexed (items m) (index m);
  wf_cache : forall c, cache m = Some c -> c = sorted (items m)
}.

Lemma indexed_elem its idx k : indexed its idx -> k ∈ idx <-> is_Some (its !! k).
Proof.
  intros [_ _ Hp]. rewrite Hp, list_elem_of_fmap. split.
  - intros ([k' tx] & -> & Hin%elem_of_map_to_list). by exists tx.
  - intros [tx Htx]. exists (k, tx). split; [done|]. by apply elem_of_map_to_list.
Qed.

Lemma indexed_NoDup its idx : indexed its idx -> NoDup idx.
Proof. intros [_ _ ->]. apply NoDup_fst_map_to_list. Qed.

Lemma indexed_length its idx : indexed its idx -> length idx = size its.
Proof. intros [_ _ ->]. by rewrite length_fmap, length_map_to_list. Qed.

(** An index is settled by being a heap of the right nonces. *)
Lemma indexed_intro its idx : keyed its -> heap nonceLess idx -> NoDup idx ->
  (forall k, k ∈ idx <-> is_Some (its !! k)) -> indexed its idx.
Proof.
  intros Hk Hh Hnd Hin. split; auto.
  apply NoDup_Permutation; [done|apply NoDup_fst_map_to_list|].
  intros k. rewrite Hin, list_elem_of_fmap. split.
  - intros [tx Htx]. exists (k, tx). split; [done|]. by apply elem_of_map_to_list.
  - intros ([k' tx] & -> & Hi%elem_of_map_to_list). by exists tx.
Qed.

Lemma indexed_delete its idx idx' k : indexed its idx -> idx ≡ₚ k :: idx' -> heap nonceLess idx' ->
  indexed (delete k its) idx'.
Proof.
  intros Hi Hp Hh. pose proof (indexed_NoDup _ _ Hi) as Hnd. rewrite Hp in Hnd.
  apply NoDup_cons in Hnd as [Hnin Hnd]. apply indexed_intro; auto.
  - intros k' tx [_ Htx]%lookup_delete_Some. by apply (ix_keyed _ _ Hi).
  - intros k'. pose proof (indexed_elem _ _ k' Hi) as He. rewrite Hp, elem_of_cons in He.
    destruct (decide (k = k')) as [<-|Hne].
    + rewrite lookup_delete_eq. split; [done|intros [??]; done].
    + rewrite lookup_delete_ne by done. rewrite <- He. naive_solver.
Qed.

(** What the top of the index is. *)
Lemma pop_view its idx : indexed its idx ->
  (idx = [] /\ its = ∅) \/
  exists tx idx', head idx = Some (Nonce tx) /\ its !! Nonce tx = Some tx /\ in_u64 (Nonce tx) /\
    Pop nonceLess idx = Some (Nonce tx, idx') /\ indexed (delete (Nonce tx) its) idx' /\
    sorted its = tx :: sorted (delete (Nonce tx) its).
Proof.
  intros Hi. destruct (decide (idx = [])) as [->|Hne].
  { left. split; [done|]. apply map_empty. intros k. apply eq_None_not_Some.
    rewrite <- (indexed_elem _ _ k Hi). apply not_elem_of_nil. }
  right. destruct (Pop_heap nonceLess idx (ix_heap _ _ Hi) Hne) as (k & idx' & Hpop & Hhd & Hp & Hh & Hmin).
  assert (is_Some (its !! k)) as [tx Htx]. { rewrite <- (indexed_elem _ _ k Hi), Hp. by left. }
  destruct (ix_keyed _ _ Hi _ _ Htx) as [<- Hu]. exists tx, idx'.
  split_and!; auto; [by eapply indexed_delete|].
  pose proof (indexed_delete _ _ _ _ Hi Hp Hh) as Hi'. pose proof (ix_keyed _ _ Hi') as Hk'.
  symmetry. apply sorted_unique; [apply Hi| | |].
  - apply SSorted_cons; [apply sorted_sorted|]. apply Forall_forall. intros y Hy.
    apply elem_of_sorted in Hy; [|done].
    assert (Nonce y ∈ idx') as Hin by (rewrite (indexed_elem _ _ _ Hi'); by exists y).
    apply Hmin in Hin. unfold le, nonceLess in Hin. zbool. done.
  - apply NoDup_cons. split; [|by apply NoDup_sorted].
    intros Hin%elem_of_sorted; [|done]. by rewrite lookup_delete_eq in Hin.
  - intros y. rewrite elem_of_cons, elem_of_sorted by done. rewrite lookup_delete_Some. split.
    + intros [->|[_ ?]]; done.
    + intros Hy. destruct (decide (Nonce tx = Nonce y)) as [E|]; [|auto]. left. congruence.
Qed.

Lemma newTxSortedMap_wf : wf newTxSortedMap.
Proof.
  split; [|done]. apply indexed_intro; [by intros ??|apply heap_nil|apply NoDup_nil_2|].
  intros k. cbn. rewrite lookup_empty. split; [by intros ?%elem_of_nil|by intros [??]].
Qed.

Lemma Put_wf m tx : wf m -> in_u64 (Nonce tx) -> wf (Put m tx).
Proof.
  intros [Hi _] Hu. split; [|done]. cbn [items index Put].
  assert (keyed (<[Nonce tx := tx]> (items m))) as Hk.
  { intros k tx' [[<- <-]|[_ ?]]%lookup_insert_Some; [done|]. by apply (ix_keyed _ _ Hi). }
  destruct (items m !! Nonce tx) as [old|] eqn:Hold.
  - apply indexed_intro; [done|apply Hi|by eapply indexed_NoDup|]. intros k.
    rewrite (indexed_elem _ _ k Hi), lookup_insert. case_decide; subst; [|done].
    rewrite Hold. split; by eexists.
  - destruct (Push_heap nonceLess (index m) (Nonce tx) (ix_heap _ _ Hi)) as [Hh Hp].
    apply indexed_intro; [done|done| |].
    + rewrite Hp. apply NoDup_cons. split; [|by eapply indexed_NoDup].
      rewrite (indexed_elem _ _ _ Hi), Hold. by intros [??].
    + intros k. rewrite Hp, elem_of_cons, (indexed_elem _ _ k Hi), lookup_insert.
      case_decide; subst; [split; [by eexists|by left]|]. naive_solver.
Qed.

Lemma sorted_empty : sorted ∅ = [].
Proof. by rewrite <- (sorted_unique ∅ []); [..|apply NoDup_nil_2|]; auto; [intros ??|constructor|set_solver]. Qed.

Lemma without_cons tx l its : without (tx :: l) its = without l (delete (Nonce tx) its).
Proof.
  change (delete (Nonce tx) its) with (without [tx] its). rewrite <- without_app.
  apply without_perm, Permutation_cons_append.
Qed.

Lemma below_none t tx l : t <= Nonce tx -> StronglySorted byNonce (tx :: l) -> filter (below t) (tx :: l) = [].
Proof.
  intros Ht [_ Hall]%StronglySorted_inv. rewrite Forall_forall in Hall. unfold byNonce in Hall.
  apply filter_none. intros x [->|Hx]%elem_of_cons; [lia|]. apply Hall in Hx. lia.
Qed.

Lemma forward_loop_spec fuel its idx t removed :
  (length idx <= fuel)%nat -> indexed its idx ->
  let r := filter (below t) (sorted its) in
  exists idx', forward_loop fuel its idx t removed = Ok (without r its, idx', removed ++ (Some <$> r)) /\
    indexed (without r its) idx'.
Proof.
  cbv zeta. revert its idx removed. induction fuel as [|fuel IH]; intros its idx removed Hf Hi;
    destruct (pop_view _ _ Hi) as [[-> ->]|(tx & idx' & Hhd & Htx & Hu & Hpop & Hi' & Hs)].
  - rewrite sorted_empty. cbn. exists []. by rewrite app_nil_r.
  - destruct idx; [done|cbn in Hf; lia].
  - rewrite sorted_empty. cbn. exists []. by rewrite app_nil_r.
  - destruct idx as [|top idx0]; [done|]. injection Hhd as ->. cbn [forward_loop].
    destruct (Z.ltb_spec (Nonce tx) t) as [Hlt|Hge].
    + rewrite Hpop. cbn [or_panic mbind outcome_bind].
      destruct (IH (delete (Nonce tx) its) idx' (removed ++ [its !! Nonce tx])) as (idx'' & Heq & Hi''); [|done|].
      { pose proof (indexed_length _ _ Hi) as Hl. pose proof (indexed_length _ _ Hi') as Hl'.
        rewrite map_size_delete_Some in Hl' by (by eexists). cbn in *. lia. }
      exists idx''. rewrite Heq, Hs, filter_cons_True by done. rewrite without_cons. split; [|done].
      rewrite Htx. cbn [fmap list_fmap]. by rewrite <- app_assoc.
    + pose proof (sorted_sorted its) as Hss. rewrite Hs in *. rewrite below_none by done.
      eexists. by rewrite app_nil_r.
Qed.

(** The smallest nonces come first. *)
Lemma below_prefix t l : StronglySorted byNonce l ->
  exists r, l = filter (below t) l ++ r.
Proof.
  induction l as [|tx l IH]; intros Hs; [by exists []|].
  destruct (decide (Nonce tx < t)) as [Hlt|Hge].
  - rewrite filter_cons_True by done. apply StronglySorted_inv in Hs as [Hs _].
    destruct (IH Hs) as [r Hr]. exists r. cbn. by f_equal.
  - rewrite below_none by (lia || done). by exists (tx :: l).
Qed.

Lemma Forward_spec m t : wf m ->
  let r := filter (below t) (sorted (items m)) in
  exists m', Forward m t = Ok (m', Some <$> r) /\ wf m' /\ items m' = without r (items m).
Proof.
  intros [Hi Hc]. cbv zeta. unfold Forward.
  destruct (forward_loop_spec (length (index m)) (items m) (index m) t [] (le_n _) Hi) as (idx & -> & Hi').
  cbn [mbind outcome_bind app]. set (r := filter _ _) in *.
  destruct (below_prefix t (sorted (items m)) (sorted_sorted _)) as [rest Hrest].
  destruct (cache m) as [c|] eqn:Ec.
  - rewrite (Hc c eq_refl). unfold slice_from.
    rewrite length_fmap. fold r in Hrest. rewrite Hrest. rewrite length_app, drop_app_length.
    destruct (Nat.leb_spec (length r) (length r + length rest)); [|lia]. cbn [mbind outcome_bind].
    eexists. split_and!; [done| |done]. split; [done|]. intros c' [= <-]. cbn [items].
    symmetry. exact (proj1 (sorted_split _ _ _ (ix_keyed _ _ Hi) Hrest)).
  - eexists. split_and!; [done| |done]. by split.
Qed.

(** The longest run of consecutive nonces a list starts with. *)
Fixpoint run_from (next : Z) (l : list TxData) : list TxData :=
  match l with
  | tx :: l' => if Nonce tx =? next then tx :: run_from (next +u 1) l' else []
  | [] => []
  end.

Definition ready_run (start : Z) (l : list TxData) : list TxData :=
  match l with
  | tx :: _ => if start <? Nonce tx then [] else run_from (Nonce tx) l
  | [] => []
  end.

Lemma ready_loop_spec fuel next its idx ready :
  (length idx <= fuel)%nat -> indexed its idx ->
  let r := run_from next (sorted its) in
  exists idx', ready_loop fuel next its idx ready = Ok (without r its, idx', ready ++ (Some <$> r)) /\
    indexed (without r its) idx'.
Proof.
  cbv zeta. revert next its idx ready. induction fuel as [|fuel IH]; intros next its idx ready Hf Hi;
    destruct (pop_view _ _ Hi) as [[-> ->]|(tx & idx' & Hhd & Htx & Hu & Hpop & Hi' & Hs)].
  - rewrite sorted_empty. cbn. exists []. by rewrite app_nil_r.
  - destruct idx; [done|cbn in Hf; lia].
  - rewrite sorted_empty. cbn. exists []. by rewrite app_nil_r.
  - destruct idx as [|top idx0]; [done|]. injection Hhd as ->. cbn [ready_loop].
    rewrite Hs. cbn [run_from]. destruct (Z.eqb_spec (Nonce tx) next) as [<-|Hne].
    + rewrite Hpop. cbn [or_panic mbind outcome_bind].
      destruct (IH (Nonce tx +u 1) (delete (Nonce tx) its) idx' (ready ++ [its !! Nonce tx]))
        as (idx'' & Heq & Hi''); [|done|].
      { pose proof (indexed_length _ _ Hi) as Hl. pose proof (indexed_length _ _ Hi') as Hl'.
        rewrite map_size_delete_Some in Hl' by (by eexists). cbn in *. lia. }
      exists idx''. rewrite Heq, without_cons. split; [|done].
      rewrite Htx. cbn [fmap list_fmap]. by rewrite <- app_assoc.
    + eexists. by rewrite app_nil_r.
Qed.

Lemma Ready_spec m start : wf m ->
  let r := ready_run start (sorted (items m)) in
  exists m', Ready m start = Ok (m', Some <$> r) /\ wf m' /\ items m' = without r (items m).
Proof.
  intros [Hi Hc]. cbv zeta. unfold Ready, ready_run.
  destruct (pop_view _ _ Hi) as [[-> He]|(tx & idx' & Hhd & Htx & Hu & Hpop & Hi' & Hs)].
  { rewrite He, sorted_empty. exists m. by rewrite He. }
  destruct (index m) as [|top idx0] eqn:Eidx; [done|]. injection Hhd as ->. rewrite Hs, <- Hs.
  destruct (Z.ltb_spec start (Nonce tx)).
  { exists m. split_and!; [done| |done]. split; [by rewrite Eidx|done]. }
  destruct (ready_loop_spec (length (Nonce tx :: idx0)) (Nonce tx) (items m) (Nonce tx :: idx0) [] (le_n _) Hi)
    as (idx & -> & Hi''). cbn [mbind outcome_bind app].
  eexists. split_and!; [done| |done]. by split.
Qed.

Lemma filter_fold (f : TxData -> bool) (l : list (Z * TxData)) its removed :
  (forall kv, kv ∈ l -> Nonce kv.2 = kv.1) ->
  foldl (fun '(its, removed) (kv : Z * TxData) =>
           if f kv.2 then (delete kv.1 its, removed ++ [kv.2]) else (its, removed)) (its, removed) l =
  (without (filterb f l.*2) its, removed ++ filterb f l.*2).
Proof.
  revert its removed. induction l as [|[k tx] l IH]; intros its removed Hl; cbn [foldl].
  { cbn. by rewrite app_nil_r. }
  assert (Nonce tx = k) as <- by exact (Hl (k, tx) ltac:(by left)).
  rewrite fmap_cons, filter_cons. cbn [fst snd]. destruct (f tx) eqn:Ef.
  - rewrite IH by (intros; apply Hl; by right). rewrite decide_True by done.
    rewrite without_cons. by rewrite <- app_assoc.
  - rewrite IH by (intros; apply Hl; by right). by rewrite decide_False by done.
Qed.

Lemma range_sorted its : (range its).*2 ≡ₚ sorted its.
Proof. by rewrite sorted_perm, range_perm. Qed.

Lemma filter_items_spec (f : TxData -> bool) m : keyed (items m) ->
  exists r, r ≡ₚ filterb f (sorted (items m)) /\
  filter_items f m = ({| items := without r (items m); index := index m;
                         cache := if decide (r = []) then cache m else None |}, r).
Proof.
  intros Hk. unfold filter_items. rewrite filter_fold.
  - eexists. split; [|done]. cbn. by rewrite range_sorted.
  - intros [k tx] Hin%elem_of_range. by destruct (Hk _ _ Hin).
Qed.

Lemma reheap_wf m : keyed (items m) -> wf (reheap m).
Proof.
  intros Hk. split; [|done]. cbn [items index reheap].
  destruct (Init_heap nonceLess (range (items m)).*1) as [Hh Hp].
  split; [done|done|]. by rewrite Hp, range_perm.
Qed.

Lemma Filter_spec (f : TxData -> bool) m : wf m ->
  exists m' r, Filter f m = (m', r) /\ wf m' /\ r ≡ₚ filterb f (sorted (items m)) /\
    items m' = without r (items m).
Proof.
  intros Hwf. pose proof (ix_keyed _ _ (wf_index _ Hwf)) as Hk. unfold Filter.
  destruct (filter_items_spec f m Hk) as (r & Hr & ->). eexists _, r. split; [done|].
  destruct (decide (r = [])) as [->|Hne].
  - cbn [without foldr]. split_and!; auto. by destruct m.
  - split_and!; auto. apply reheap_wf. by apply without_keyed.
Qed.

Lemma sorted_index its idx : indexed its idx -> merge_sort Z.le idx = Nonce <$> sorted its.
Proof.
  intros [Hk _ Hp]. apply (StronglySorted_unique Z.le).
  - apply StronglySorted_merge_sort; apply _.
  - pose proof (sorted_sorted its) as Hs. induction Hs as [|x l Hs IH Hall]; [constructor|].
    cbn. constructor; [done|]. apply Forall_fmap. exact Hall.
  - rewrite merge_sort_Permutation, Hp, sorted_perm, <- list_fmap_compose. apply reflexive_eq.
    apply list_fmap_ext. intros i [k tx] Hi%list_elem_of_lookup_2%elem_of_map_to_list.
    cbn. by destruct (Hk _ _ Hi).
Qed.

Lemma cap_loop_negative fuel size t idx its drops : t < 0 -> 0 <= size ->
  cap_loop fuel size t idx its drops = Panic.
Proof.
  intros Ht. revert size its drops. induction fuel as [|fuel IH]; intros size its drops Hs; [done|].
  cbn [cap_loop]. destruct (Z.ltb_spec t size); [|lia].
  destruct (Z.ltb_spec (size - 1) 0); [done|].
  destruct (idx !! Z.to_nat (size - 1)); [|done]. cbn. apply IH. lia.
Qed.

Lemma cap_loop_spec (t : nat) l fuel rest its drops :
  (length l < fuel)%nat -> keyed its -> sorted its = l ->
  cap_loop fuel (Z.of_nat (length l)) (Z.of_nat t) (Nonce <$> l ++ rest) its drops =
  Ok (without (drop t l) its, drops ++ (Some <$> reverse (drop t l))).
Proof.
  revert fuel rest its drops. induction l as [|x l IH] using rev_ind; intros fuel rest its drops Hf Hk Hs.
  { destruct fuel; [cbn in Hf; lia|]. cbn [cap_loop]. destruct (Z.ltb_spec (Z.of_nat t) (Z.of_nat (length (@nil TxData)))); [cbn in *; lia|].
    rewrite drop_nil. cbn. by rewrite app_nil_r. }
  rewrite length_app in *. cbn [length] in *. destruct fuel as [|fuel]; [lia|]. cbn [cap_loop].
  destruct (Z.ltb_spec (Z.of_nat t) (Z.of_nat (length l + 1))) as [Hlt|Hge].
  - destruct (Z.ltb_spec (Z.of_nat (length l + 1) - 1) 0); [lia|].
    replace (Z.to_nat (Z.of_nat (length l + 1) - 1)) with (length l) by lia.
    replace (Z.of_nat (length l + 1) - 1) with (Z.of_nat (length l)) by lia.
    rewrite <- app_assoc, list_lookup_fmap, lookup_app_r, Nat.sub_diag by lia. cbn [app lookup list_lookup fmap option_fmap option_map or_panic mbind outcome_bind].
    assert (its !! Nonce x = Some x) as ->.
    { apply elem_of_sorted; [done|]. rewrite Hs. set_solver. }
    rewrite (IH fuel (x :: rest)); [|lia|by apply (without_keyed [x])|].
    2: { exact (proj2 (sorted_split its l [x] Hk Hs)). }
    rewrite drop_app_le by lia. change (delete (Nonce x) its) with (without [x] its).
    rewrite <- without_app, reverse_snoc. cbn [fmap list_fmap]. by rewrite <- app_assoc.
  - rewrite drop_ge by (rewrite length_app; cbn; lia). cbn. by rewrite app_nil_r.
Qed.

Lemma Cap_spec m t : wf m ->
  if Z.of_nat (size (items m)) <=? t then Cap m t = Ok (m, [])
  else if t <? 0 then Cap m t = Panic
  else let r := drop (Z.to_nat t) (sorted (items m)) in
       exists m', Cap m t = Ok (m', Some <$> reverse r) /\ wf m' /\ items m' = without r (items m).
Proof.
  intros [Hi Hc]. unfold Cap. destruct (Z.leb_spec (Z.of_nat (size (items m))) t) as [|Ht]; [done|].
  destruct (Z.ltb_spec t 0) as [Hneg|Hpos]; [by rewrite cap_loop_negative by lia|].
  pose proof (ix_keyed _ _ Hi) as Hk. pose proof (length_sorted (items m)) as Hl.
  rewrite (sorted_index _ _ Hi). set (s := sorted (items m)) in *. set (n := Z.to_nat t).
  pose proof (cap_loop_spec n s (S (length s)) [] (items m) [] ltac:(lia) Hk eq_refl) as Hloop.
  rewrite app_nil_r, Hl in Hloop. unfold n in Hloop at 1. rewrite Z2Nat.id in Hloop by done.
  cbv zeta. rewrite Hloop. cbn [mbind outcome_bind orb app].
  assert (s = take n s ++ drop n s) as Hs by (by rewrite take_drop).
  destruct (sorted_split _ _ _ Hk Hs) as [_ Hkeep].
  rewrite length_fmap, Hl. destruct (Z.ltb_spec (Z.of_nat (size (items m))) t); [lia|].
  rewrite <- fmap_take. destruct (Init_heap nonceLess (Nonce <$> take n s)) as [Hh Hp].
  assert (indexed (without (drop n s) (items m)) (Init nonceLess (Nonce <$> take n s))) as Hix.
  { split; [by apply without_keyed|done|]. rewrite Hp, <- Hkeep.
    rewrite sorted_perm, <- list_fmap_compose. apply reflexive_eq, list_fmap_ext.
    intros i [k tx] Hx%list_elem_of_lookup_2%elem_of_map_to_list.
    by destruct (without_keyed (drop n s) _ Hk _ _ Hx). }
  destruct (cache m) as [c|] eqn:Ec.
  - rewrite (Hc c eq_refl). fold s. rewrite length_fmap, length_reverse, length_drop.
    destruct (Nat.ltb_spec (length s) (length s - n)); [lia|]. cbn [mbind outcome_bind].
    eexists. split_and!; [done| |done]. split; [done|]. intros c' [= <-]. cbn [items].
    rewrite Hkeep. f_equal. lia.
  - eexists. split_and!; [done| |done]. by split.
Qed.

Lemma Remove_spec m k : wf m ->
  exists m', Remove m k = Ok (m', bool_decide (is_Some (items m !! k))) /\ wf m' /\ items m' = delete k (items m).
Proof.
  intros Hwf. pose proof (wf_index _ Hwf) as Hi. unfold Remove. destruct (items m !! k) as [tx|] eqn:Hk.
  - assert (k ∈ index m) as Hin. { rewrite (indexed_elem _ _ _ Hi), Hk. by eexists. }
    destruct (list_find_elem_of (fun n => n = k) (index m) k Hin eq_refl) as [[i k'] Hf].
    rewrite Hf. apply list_find_Some in Hf as (Hik & -> & _).
    destruct (Remove_heap nonceLess (index m) i k (ix_heap _ _ Hi) Hik) as (idx & -> & Hp & Hh).
    cbn [or_panic mbind outcome_bind snd]. eexists. split_and!; [done| |done].
    split; [|done]. by eapply indexed_delete.
  - exists m. split_and!; [done|done|]. symmetry. by apply delete_id.
Qed.

Lemma flatten_spec m : wf m -> exists m', flatten m = (m', sorted (items m)) /\ wf m' /\ items m' = items m.
Proof.
  intros [Hi Hc]. unfold flatten. destruct (cache m) as [c|] eqn:Ec.
  { exists m. rewrite (Hc c eq_refl). split_and!; [done| |done]. split; [done|by rewrite Ec]. }
  assert (merge_sort byNonce (range (items m)).*2 = sorted (items m)) as ->.
  { pose proof (ix_keyed _ _ Hi) as Hk. apply sorted_unique; [done|apply StronglySorted_merge_sort; apply _| |].
    - rewrite merge_sort_Permutation, range_perm. by apply NoDup_values.
    - intros tx. rewrite merge_sort_Permutation, range_perm. by apply elem_of_values. }
  eexists. split_and!; [done| |done]. split; [done|]. by intros c [= <-].
Qed.

End Operations.

(** ** Refinement: a sorted map is a map of transactions by nonce *)

Section Refinement.
Context `{U : Uint256} `{MR : MapRange}.

Inductive op :=
| OPut (tx : TxData)
| OGet (nonce : Z)
| OForward (threshold : Z)
| OFilter (f : TxData -> bool)
| OCap (threshold : Z)
| ORemove (nonce : Z)
| OReady (start : Z)
| OLen
| OFlatten
| OLast.

Inductive result :=
| RNone
| RTx (tx : option TxData)
| RTxs (l : list (option TxData))
| RFiltered (l : list TxData)
| RBool (b : bool)
| RInt (n : Z).

Definition step (m : txsSortedMap) (o : op) : outcome (txsSortedMap * result) :=
  match o with
  | OPut tx => Ok (Put m tx, RNone)
  | OGet n => Ok (m, RTx (Get m n))
  | OForward t => '(m, l) ← Forward m t; Ok (m, RTxs l)
  | OFilter f => let '(m, l) := Filter f m in Ok (m, RFiltered l)
  | OCap t => '(m, l) ← Cap m t; Ok (m, RTxs l)
  | ORemove n => '(m, b) ← Remove m n; Ok (m, RBool b)
  | OReady n => '(m, l) ← Ready m n; Ok (m, RTxs l)
  | OLen => Ok (m, RInt (Len m))
  | OFlatten => let '(m, l) := Flatten m in Ok (m, RTxs (Some <$> l))
  | OLast => '(m, tx) ← LastElement m; Ok (m, RTx (Some tx))
  end.

(** The specification: every operation in terms of the map alone. *)
Definition spec_step (its : gmap Z TxData) (o : op) : outcome (gmap Z TxData * result) :=
  match o with
  | OPut tx => Ok (<[Nonce tx := tx]> its, RNone)
  | OGet n => Ok (its, RTx (its !! n))
  | OForward t => let r := filter (below t) (sorted its) in Ok (without r its, RTxs (Some <$> r))
  | OFilter f => let r := filterb f (sorted its) in Ok (without r its, RFiltered r)
  | OCap t =>
      if Z.of_nat (size its) <=? t then Ok (its, RTxs [])
      else if t <? 0 then Panic
      else let r := drop (Z.to_nat t) (sorted its) in Ok (without r its, RTxs (Some <$> reverse r))
  | ORemove n => Ok (delete n its, RBool (bool_decide (is_Some (its !! n))))
  | OReady n => let r := ready_run n (sorted its) in Ok (without r its, RTxs (Some <$> r))
  | OLen => Ok (its, RInt (Z.of_nat (size its)))
  | OFlatten => Ok (its, RTxs (Some <$> sorted its))
  | OLast => match last (sorted its) with Some tx => Ok (its, RTx (Some tx)) | None => Panic end
  end.

(** [Filter] returns what it removed in the order of the map iteration. *)
Definition same_result (r r' : result) : Prop :=
  match r, r' with
  | RFiltered l, RFiltered l' => l ≡ₚ l'
  | _, _ => r = r'
  end.

Fixpoint run_ops {S} (step : S -> op -> outcome (S * result)) (m : S) (l : list op) : outcome (S * list result) :=
  match l with
  | [] => Ok (m, [])
  | o :: l => '(m, r) ← step m o; '(m, rs) ← run_ops step m l; Ok (m, r :: rs)
  end.

Definition valid_op (o : op) : Prop := match o with OPut tx => in_u64 (Nonce tx) | _ => True end.

(** Both panic, or both return and the results agree. *)
Definition agree {A B} (R : A -> B -> Prop) (x : outcome A) (y : outcome B) : Prop :=
  match x, y with
  | Ok a, Ok b => R a b
  | Panic, Panic => True
  | _, _ => False
  end.

Lemma step_refines m o : wf m -> valid_op o ->
  agree (fun p q => wf p.1 /\ items p.1 = q.1 /\ same_result p.2 q.2) (step m o) (spec_step (items m) o).
Proof.
  intros Hwf Hv. destruct o as [tx|n|t|f|t|n|n| | |]; cbn [step spec_step].
  - cbn. split_and!; [by apply Put_wf|done..].
  - done.
  - destruct (Forward_spec m t Hwf) as (m' & -> & ? & ?). done.
  - destruct (Filter_spec f m Hwf) as (m' & r & -> & ? & Hr & Hi). cbn. split_and!; [done| |done].
    rewrite Hi. by apply without_perm.
  - pose proof (Cap_spec m t Hwf) as Hc. case_match; [by rewrite Hc|]. case_match; [by rewrite Hc|].
    destruct Hc as (m' & -> & ? & ?). done.
  - destruct (Remove_spec m n Hwf) as (m' & -> & ? & ?). done.
  - destruct (Ready_spec m n Hwf) as (m' & -> & ? & ?). done.
  - done.
  - unfold Flatten. destruct (flatten_spec m Hwf) as (m' & -> & ? & ?). done.
  - unfold LastElement. destruct (flatten_spec m Hwf) as (m' & -> & ? & ?).
    destruct (last (sorted (items m))); done.
Qed.

Lemma run_refines l m : wf m -> Forall valid_op l ->
  agree (fun p q => items p.1 = q.1 /\ Forall2 same_result p.2 q.2)
    (run_ops step m l) (run_ops spec_step (items m) l).
Proof.
  revert m. induction l as [|o l IH]; intros m Hwf Hv; [done|].
  apply Forall_cons in Hv as [Ho Hl]. cbn [run_ops].
  pose proof (step_refines m o Hwf Ho) as Hstep.
  destruct (step m o) as [[m' r]|e|], (spec_step (items m) o) as [[its' r']|e'|]; try done.
  destruct Hstep as (Hwf' & Heq & Hr). cbn [fst snd mbind outcome_bind] in *. subst its'.
  specialize (IH m' Hwf' Hl).
  destruct (run_ops step m' l) as [[??]|?|], (run_ops spec_step (items m') l) as [[??]|?|]; try done.
  destruct IH as [??]. split; [done|]. by constructor.
Qed.

End Refinement.

(** C15: the nonce-sorted transaction map behaves, for every sequence of calls
    and every order of map iteration, like a plain map from nonces to
    transactions: [Forward] drops and returns the nonces below a threshold in
    order, [Cap] the highest ones from the top, [Ready] the consecutive run at
    the bottom, [Flatten] everything in order, and a call panics only where the
    specification says so (a negative cap, the last element of an empty map).
    The heap, the map and the cache never get out of step. *)
Theorem sorted_map_refines `{U : Uint256} `{MR : MapRange} l :
  Forall valid_op l ->
  agree (fun p q => items p.1 = q.1 /\ Forall2 same_result p.2 q.2)
    (run_ops step newTxSortedMap l) (run_ops spec_step ∅ l).
Proof. apply (run_refines l newTxSortedMap), newTxSortedMap_wf. Qed.

Module SortedMapDemo.

#[local] Instance U : Uint256 := bits_Uint256.
#[local] Instance MR : MapRange := canonical_range.

Definition tx (nonce price : Z) : TxData := Legacy {|
  lNonce := nonce; lGasPrice := uSetUint64 price; lGas := 21000; lTo := Some 7; lFrom := Some 1;
  lValue := uSetUint64 0; lData := None; lV := None; lR := None; lS := None; lSign := None |}.

Definition ops : list op :=
  [OPut (tx 9 1); OPut (tx 3 1); OPut (tx 4 1); OPut (tx 6 1); OFlatten; OForward 4; OReady 5; OCap 1; OLast].

(** The nonces of the results of [ops]. *)
Definition nonces : option (list (list Z)) :=
  match run_ops step newTxSortedMap ops with
  | Ok (_, rs) =>
      Some ((fun r => match r with
                      | RTxs l => Nonce <$> omap id l
                      | RTx (Some t) => [Nonce t]
                      | _ => []
                      end) <$> rs)
  | _ => None
  end.

End SortedMapDemo.

#[local] Instance demo_range : MapRange := canonical_range.

Lemma sorted_map_refines_witness :
  agree (fun p q => items p.1 = q.1 /\ Forall2 same_result p.2 q.2)
    (run_ops step newTxSortedMap SortedMapDemo.ops) (run_ops spec_step ∅ SortedMapDemo.ops) /\
  SortedMapDemo.nonces = Some [[]; []; []; []; [3; 4; 6; 9]; [3]; [4]; [9]; [6]].
Proof.
  split; [|vm_compute; reflexivity]. apply sorted_map_refines.
  repeat constructor; vm_compute; intuition congruence.
Defined.

End SortedMap.
