(* ===== verification/TxList.v ===== *)
(** * TxList: [txsList] of [internal/txspool/txs_list.go]

    The pending or queued transactions of one account: a sorted map with upper
    bounds on the cost and the gas of its transactions.  A strict list holds
    executable transactions and drops what a removal leaves behind a gap. *)

From S2P Require Import Prelude Uint256 ChainConfig StateModel StateTransition Transaction Heap TxSortedMap.
Import Transaction.

Module TxsList.

Section TxsList.
Context `{U : Uint256} `{MR : MapRange}.

Record txsList := {
  strict : bool;
  txs : SortedMap.txsSortedMap;
  costcap : u256;
  gascap : Z
}.

Definition with_txs (m : SortedMap.txsSortedMap) (l : txsList) : txsList :=
  {| strict := strict l; txs := m; costcap := costcap l; gascap := gascap l |}.

Definition newTxsList (strict : bool) : txsList :=
  {| strict := strict; txs := SortedMap.newTxSortedMap; costcap := uSetUint64 0; gascap := 0 |}.

Definition Overlaps (l : txsList) (tx : TxData) : bool :=
  match SortedMap.Get (txs l) (Nonce tx) with Some _ => true | None => false end.

(** [old * (100 + priceBump) / 100], in wrapping arithmetic *)
Definition threshold (priceBump : Z) (old : u256) : u256 :=
  uDiv (uMul (uSetUint64 (100 +u priceBump)) old) (uSetUint64 100).

(** The conditions under which [tx] does not replace [old]. *)
Definition underpriced (old tx : TxData) (priceBump : Z) : bool :=
  (1 <=? GasFeeCapCmp old tx) || (1 <=? GasTipCapCmp old tx) ||
  (GasFeeCapIntCmp tx (threshold priceBump (GasFeeCap old)) <? 0) ||
  (GasTipCapIntCmp tx (threshold priceBump (GasTipCap old)) <? 0).

Definition Add (l : txsList) (tx : TxData) (priceBump : Z) : txsList * (bool * option TxData) :=
  let old := SortedMap.Get (txs l) (Nonce tx) in
  if match old with Some o => underpriced o tx priceBump | None => false end
  then (l, (false, None))
  else
    let m := SortedMap.Put (txs l) tx in
    let cost := uAdd (uMul (GasPrice tx) (uSetUint64 (Gas tx))) (Value tx) in
    ({| strict := strict l; txs := m;
        costcap := if uCmp (costcap l) cost <? 0 then cost else costcap l;
        gascap := if gascap l <? Gas tx then Gas tx else gascap l |}, (true, old)).

Definition Forward (l : txsList) (t : Z) : outcome (txsList * list (option TxData)) :=
  '(m, r) ← SortedMap.Forward (txs l) t; Ok (with_txs m l, r).

(** What [Filter] takes out of the list. *)
Definition overLimit (costLimit : u256) (gasLimit : Z) (tx : TxData) : bool :=
  let cost := uAdd (Value tx) (uMul (GasPrice tx) (uSetUint64 (Gas tx))) in
  (gasLimit <? Gas tx) || (0 <? uCmp cost costLimit).

Definition lowestNonce (removed : list TxData) : Z :=
  foldl (fun lowest tx => if Nonce tx <? lowest then Nonce tx else lowest) MaxUint64 removed.

Definition Filter (l : txsList) (costLimit : u256) (gasLimit : Z) : txsList * (list TxData * list TxData) :=
  if (uCmp (costcap l) costLimit <=? 0) && (gascap l <=? gasLimit) then (l, ([], []))
  else
    let l := {| strict := strict l; txs := txs l; costcap := costLimit; gascap := gasLimit |} in
    let '(m, removed) := SortedMap.Filter (overLimit costLimit gasLimit) (txs l) in
    let l := with_txs m l in
    match removed with
    | [] => (l, ([], []))
    | _ =>
        let '(m, invalids) :=
          if strict l then
            let lowest := lowestNonce removed in
            SortedMap.filter_items (fun tx => lowest <? Nonce tx) (txs l)
          else (txs l, []) in
        (with_txs (SortedMap.reheap m) l, (removed, invalids))
    end.

Definition Cap (l : txsList) (t : Z) : outcome (txsList * list (option TxData)) :=
  '(m, r) ← SortedMap.Cap (txs l) t; Ok (with_txs m l, r).

Definition Remove (l : txsList) (tx : TxData) : outcome (txsList * (bool * list TxData)) :=
  let nonce := Nonce tx in
  '(m, removed) ← SortedMap.Remove (txs l) nonce;
  let l := with_txs m l in
  if negb removed then Ok (l, (false, []))
  else if strict l then
    let '(m, invalids) := SortedMap.Filter (fun tx => nonce <? Nonce tx) (txs l) in
    Ok (with_txs m l, (true, invalids))
  else Ok (l, (true, [])).

Definition Ready (l : txsList) (start : Z) : outcome (txsList * list (option TxData)) :=
  '(m, r) ← SortedMap.Ready (txs l) start; Ok (with_txs m l, r).

Definition Len (l : txsList) : Z := SortedMap.Len (txs l).
Definition Empty (l : txsList) : bool := Len l =? 0.

Definition Flatten (l : txsList) : txsList * list TxData :=
  let '(m, r) := SortedMap.Flatten (txs l) in (with_txs m l, r).

Definition LastElement (l : txsList) : outcome (txsList * TxData) :=
  '(m, tx) ← SortedMap.LastElement (txs l); Ok (with_txs m l, tx).

End TxsList.

(** ** Invariant: the sorted map is well formed and the caps bound its contents *)

Section Facts.
Context `{U : Uint256} `{MR : MapRange}.
Implicit Types (l : txsList).

Definition contents l : gmap Z TxData := SortedMap.items (txs l).

Definition bounded (its : gmap Z TxData) (c : u256) (g : Z) : Prop :=
  forall k tx, its !! k = Some tx -> uval (Cost tx) <= uval c /\ Gas tx <= g.

Record wf l : Prop := {
  lw_map : SortedMap.wf (txs l);
  lw_caps : bounded (contents l) (costcap l) (gascap l)
}.

Lemma lw_keyed l : wf l -> SortedMap.keyed (contents l).
Proof. intros [Hm _]. apply Hm. Qed.

Lemma bounded_without its c g r : bounded its c g -> bounded (SortedMap.without r its) c g.
Proof. intros Hb k tx. rewrite SortedMap.lookup_without. case_decide; [done|]. apply Hb. Qed.

Lemma bounded_weaken its c g c' g' :
  bounded its c g -> uval c <= uval c' -> g <= g' -> bounded its c' g'.
Proof. intros Hb ?? k tx [??]%Hb. lia. Qed.

Lemma overLimit_false c g tx : overLimit c g tx = false <-> uval (Cost tx) <= uval c /\ Gas tx <= g.
Proof.
  unfold overLimit. rewrite <- Cost_eq, orb_false_iff, Z.ltb_ge, Z.ltb_ge.
  destruct (uCmp_spec (Cost tx) c) as (_ & _ & H3). lia.
Qed.

Lemma newTxsList_wf s : wf (newTxsList s).
Proof. split; [apply SortedMap.newTxSortedMap_wf|]. by intros k tx. Qed.

(** Replacing the map by part of its contents keeps the invariant. *)
Lemma with_txs_wf l m r : wf l -> SortedMap.wf m -> SortedMap.items m = SortedMap.without r (contents l) ->
  wf (with_txs m l).
Proof. intros [_ Hb] Hm Hi. split; [done|]. unfold contents. cbn. rewrite Hi. by apply bounded_without. Qed.

Lemma lowestNonce_lt removed n : in_u64 n ->
  lowestNonce removed < n <-> Exists (fun r => Nonce r < n) removed.
Proof.
  intros Hn. unfold lowestNonce.
  enough (forall acc, foldl (fun lowest tx => if Nonce tx <? lowest then Nonce tx else lowest) acc removed < n <->
    acc < n \/ Exists (fun r => Nonce r < n) removed) as Hg.
  { rewrite Hg. unfold in_u64, MaxUint64 in *. split; [intros [?|?]; [lia|done]|by right]. }
  induction removed as [|r removed IH]; intros acc; cbn [foldl].
  - rewrite Exists_nil. tauto.
  - rewrite IH, Exists_cons. destruct (Z.ltb_spec (Nonce r) acc).
    + assert (acc < n -> Nonce r < n) by lia. tauto.
    + assert (Nonce r < n -> acc < n) by lia. tauto.
Qed.

(** The transactions a strict list gives up with [removed]. *)
Abbreviation stranded removed := (fun tx => Exists (fun r => Nonce r < Nonce tx) removed).

Lemma elem_of_without its r tx : SortedMap.keyed its ->
  tx ∈ SortedMap.sorted (SortedMap.without r its) <-> tx ∈ SortedMap.sorted its /\ Nonce tx ∉ Nonce <$> r.
Proof.
  intros Hk. rewrite !SortedMap.elem_of_sorted by auto using SortedMap.without_keyed.
  rewrite SortedMap.lookup_without. case_decide; naive_solver.
Qed.

Lemma filter_without its (f : TxData -> bool) (P : TxData -> Prop) `{!forall x, Decision (P x)} r :
  SortedMap.keyed its -> r ≡ₚ SortedMap.filterb f (SortedMap.sorted its) ->
  filter P (SortedMap.sorted (SortedMap.without r its)) ≡ₚ
  filter (fun tx => f tx = false /\ P tx) (SortedMap.sorted its).
Proof.
  intros Hk Hr. pose proof (SortedMap.without_keyed r its Hk) as Hk'.
  apply NoDup_Permutation; [apply NoDup_filter, SortedMap.NoDup_sorted, Hk'
    |apply NoDup_filter, SortedMap.NoDup_sorted, Hk|].
  intros tx. rewrite !list_elem_of_filter, elem_of_without by done.
  enough (tx ∈ SortedMap.sorted its -> (Nonce tx ∉ Nonce <$> r) <-> f tx = false) by naive_solver.
  intros Htx. rewrite Hr, list_elem_of_fmap. split.
  - intros Hn. destruct (f tx) eqn:Ef; [|done]. destruct Hn. exists tx. split; [done|].
    by apply list_elem_of_filter.
  - intros Ef (tx' & E & [Hf' Htx']%list_elem_of_filter).
    apply (SortedMap.nonce_inj its) in E; auto. congruence.
Qed.

Record filtered l (c : u256) (g : Z) l' removed invalids : Prop := {
  fl_wf : wf l';
  fl_strict : strict l' = strict l;
  fl_removed : removed ≡ₚ SortedMap.filterb (overLimit c g) (SortedMap.sorted (contents l));
  fl_invalids : invalids ≡ₚ
    if strict l
    then filter (fun tx => overLimit c g tx = false /\ stranded removed tx) (SortedMap.sorted (contents l))
    else [];
  fl_contents : contents l' = SortedMap.without (removed ++ invalids) (contents l);
  fl_bounded : bounded (contents l') c g
}.

Lemma stranded_none c g its :
  filter (fun tx => overLimit c g tx = false /\ stranded [] tx) (SortedMap.sorted its) = [].
Proof. apply filter_none. intros tx _ [_ He]. by apply Exists_nil in He. Qed.

Lemma affordable_rest its c g r : SortedMap.keyed its ->
  r ≡ₚ SortedMap.filterb (overLimit c g) (SortedMap.sorted its) -> bounded (SortedMap.without r its) c g.
Proof.
  intros Hk Hr k tx Hx. apply overLimit_false. destruct (overLimit c g tx) eqn:Eo; [|done].
  rewrite SortedMap.lookup_without in Hx. case_decide as Hin; [done|]. destruct Hin.
  destruct (Hk _ _ Hx) as [<- _]. apply list_elem_of_fmap. exists tx. split; [done|].
  rewrite Hr. apply list_elem_of_filter. split; [done|]. by apply SortedMap.elem_of_sorted.
Qed.

Lemma filtered_intro l c g l' r i :
  strict l' = strict l -> costcap l' = c -> gascap l' = g -> wf l -> SortedMap.wf (txs l') -> contents l' = SortedMap.without (r ++ i) (contents l) ->
  r ≡ₚ SortedMap.filterb (overLimit c g) (SortedMap.sorted (contents l)) ->
  (i ≡ₚ if strict l
        then filter (fun tx => overLimit c g tx = false /\ stranded r tx) (SortedMap.sorted (contents l))
        else []) ->
  filtered l c g l' r i.
Proof.
  intros Hs <- <- Hwf Hm Hc Hr Hi.
  assert (bounded (SortedMap.without (r ++ i) (contents l)) (costcap l') (gascap l')) as Hb.
  { rewrite (SortedMap.without_perm _ (i ++ r)), SortedMap.without_app by apply Permutation_app_comm.
    apply bounded_without, affordable_rest; [by apply lw_keyed|done]. }
  rewrite <- Hc in Hb. split; auto. by split.
Qed.

(** Under the caps nothing exceeds the limits. *)
Lemma Filter_shortcut l c g : wf l -> uval (costcap l) <= uval c -> gascap l <= g -> filtered l c g l [] [].
Proof.
  intros Hwf ??. pose proof (bounded_weaken _ _ _ c g (lw_caps l Hwf)) as Hb. split; auto.
  - rewrite filter_none; [done|]. intros tx Htx%SortedMap.elem_of_sorted Ho; [|by apply lw_keyed].
    apply Hb in Htx; [|done..]. apply overLimit_false in Htx. congruence.
  - rewrite stranded_none. by destruct (strict l).
Qed.

(** [Filter] takes out what the limits exclude, and nothing else, also on its
    short cut through the caps. *)
Lemma Filter_filtered l c g : wf l ->
  filtered l c g (Filter l c g).1 (Filter l c g).2.1 (Filter l c g).2.2.
Proof.
  intros Hwf. pose proof (lw_keyed l Hwf) as Hk. unfold Filter.
  rewrite uCmp_leb. destruct ((uval (costcap l) <=? uval c) && (gascap l <=? g)) eqn:Ecut.
  { apply andb_true_iff in Ecut as [??]. zbool. by apply Filter_shortcut. }
  cbn [txs]. destruct (SortedMap.Filter_spec (overLimit c g) (txs l) (lw_map l Hwf)) as (m & r & -> & Hm & Hr & Hi).
  fold (contents l) in *. assert (SortedMap.keyed (SortedMap.items m)) as Hkm by apply Hm.
  destruct r as [|r0 rs] eqn:Er; rewrite <- Er in *; cbn [with_txs strict txs costcap gascap].
  { subst r. apply filtered_intro; auto. rewrite stranded_none. by destruct (strict l). }
  clear Er. destruct (strict l) eqn:Estrict.
  - destruct (SortedMap.filter_items_spec (fun tx => lowestNonce r <? Nonce tx) m Hkm) as (r2 & Hr2 & ->).
    cbn [fst snd]. apply filtered_intro; auto.
    + apply SortedMap.reheap_wf. by apply SortedMap.without_keyed.
    + cbn. rewrite Hi, <- SortedMap.without_app. apply SortedMap.without_perm, Permutation_app_comm.
    + rewrite Estrict, Hr2, Hi, (filter_without _ (overLimit c g)) by done.
      apply reflexive_eq, filter_ext_elem. intros tx Htx%SortedMap.elem_of_sorted; [|done].
      rewrite Z.ltb_lt, lowestNonce_lt; [done|]. by apply (Hk _ _ Htx).
  - cbn [fst snd]. apply filtered_intro; auto.
    + by apply SortedMap.reheap_wf.
    + by rewrite app_nil_r.
    + by rewrite Estrict.
Qed.

(** ** Lists without gaps *)

Definition nonces l : list Z := Nonce <$> SortedMap.sorted (contents l).

Definition consecutive (ns : list Z) : Prop := exists s, ns = seqZ s (Z.of_nat (length ns)).

Lemma consecutive_app a b : consecutive (a ++ b) -> consecutive a /\ consecutive b.
Proof.
  intros [s Hs]. rewrite length_app, Nat2Z.inj_add, seqZ_app in Hs by lia.
  apply app_inj_1 in Hs as [Ha Hb]; [|rewrite length_seqZ; lia].
  split; [by exists s|by exists (s + Z.of_nat (length a))].
Qed.

Lemma StronglySorted_filter {A} (R : relation A) (P : A -> Prop) `{!forall x, Decision (P x)} (s : list A) :
  StronglySorted R s -> StronglySorted R (filter P s).
Proof.
  induction 1 as [|x s Hs IH Hall]; [constructor|]. rewrite filter_cons. case_decide; [|done].
  constructor; [done|]. rewrite Forall_forall in *. intros y [_ Hy]%list_elem_of_filter. auto.
Qed.

Lemma sorted_without its r : SortedMap.keyed its ->
  SortedMap.sorted (SortedMap.without r its) =
  filter (fun tx => Nonce tx ∉ Nonce <$> r) (SortedMap.sorted its).
Proof.
  intros Hk. symmetry. apply SortedMap.sorted_unique; [by apply SortedMap.without_keyed| | |].
  - apply StronglySorted_filter, SortedMap.sorted_sorted.
  - by apply NoDup_filter, SortedMap.NoDup_sorted.
  - intros tx. rewrite list_elem_of_filter, SortedMap.elem_of_sorted, SortedMap.lookup_without by done.
    case_decide; naive_solver.
Qed.

Lemma upclosed_prefix (P : TxData -> Prop) `{!forall x, Decision (P x)} (s : list TxData) :
  StronglySorted SortedMap.byNonce s ->
  (forall x y, x ∈ s -> y ∈ s -> P x -> Nonce x <= Nonce y -> P y) ->
  exists b, s = filter (fun x => ~ P x) s ++ b.
Proof.
  induction s as [|x s IH]; intros Hs Hup; [by exists []|].
  apply StronglySorted_inv in Hs as [Hs Hall]. rewrite Forall_forall in Hall.
  destruct (decide (P x)) as [HP|HP].
  - exists (x :: s). rewrite filter_none; [done|]. intros y Hy Hn. apply Hn, (Hup x y); auto; [by left|].
    apply elem_of_cons in Hy as [->|Hy]; [lia|]. by apply Hall.
  - destruct (IH Hs) as [b Hb]. { intros y z ??. apply Hup; by right. }
    exists b. rewrite filter_cons_True by done. cbn. by f_equal.
Qed.

(** Giving up an upward closed set of nonces leaves no gap. *)
Lemma upclosed_consecutive its r : SortedMap.keyed its ->
  (forall x y, x ∈ SortedMap.sorted its -> y ∈ SortedMap.sorted its ->
     Nonce x ∈ Nonce <$> r -> Nonce x < Nonce y -> Nonce y ∈ Nonce <$> r) ->
  consecutive (Nonce <$> SortedMap.sorted its) ->
  consecutive (Nonce <$> SortedMap.sorted (SortedMap.without r its)).
Proof.
  intros Hk Hup Hc. rewrite sorted_without by done.
  destruct (upclosed_prefix (fun tx => Nonce tx ∈ Nonce <$> r) _ (SortedMap.sorted_sorted its)) as [b Hb].
  { intros x y Hx Hy Hin Hle. destruct (decide (Nonce x = Nonce y)) as [<-|]; [done|]. apply (Hup x y); auto. lia. }
  rewrite Hb, fmap_app in Hc. by apply consecutive_app in Hc as [? _].
Qed.

Lemma Filter_consecutive l c g : wf l -> strict l = true ->
  consecutive (nonces l) -> consecutive (nonces (Filter l c g).1).
Proof.
  intros Hwf Hs Hc. destruct (Filter_filtered l c g Hwf) as [_ _ Hr Hi Heq _].
  destruct (Filter l c g) as [l' [removed invalids]]. cbn [fst snd] in *. rewrite Hs in Hi.
  pose proof (lw_keyed l Hwf) as Hk. unfold nonces. rewrite Heq. apply upclosed_consecutive; [done| |done].
  intros x y Hx Hy Hin Hlt.
  assert (Exists (fun r => Nonce r < Nonce y) removed) as Hex.
  { apply list_elem_of_fmap in Hin as (x' & E & [Hx'|Hx']%elem_of_app).
    - apply Exists_exists. exists x'. split; [done|]. lia.
    - rewrite Hi in Hx'. apply list_elem_of_filter in Hx' as [[_ He] _]. rewrite <- E in He.
      eapply Exists_impl; [exact He|]. cbn. lia. }
  apply list_elem_of_fmap. exists y. split; [done|]. apply elem_of_app.
  destruct (overLimit c g y) eqn:Eo.
  - left. rewrite Hr. by apply list_elem_of_filter.
  - right. rewrite Hi. by apply list_elem_of_filter.
Qed.

(** What the other operations leave: [l] with the transactions of [r] gone. *)
Record shrunk l l' r : Prop := {
  sh_wf : wf l';
  sh_strict : strict l' = strict l;
  sh_contents : contents l' = SortedMap.without r (contents l)
}.

Lemma shrunk_intro l m r : wf l -> SortedMap.wf m -> SortedMap.items m = SortedMap.without r (contents l) ->
  shrunk l (with_txs m l) r.
Proof. intros. split; [by eapply with_txs_wf|done|done]. Qed.

Lemma Remove_shrunk l tx : wf l ->
  exists l' b invalids r, Remove l tx = Ok (l', (b, invalids)) /\ shrunk l l' r /\
    forall k, k ∈ Nonce <$> r <->
      b = true /\ is_Some (contents l !! k) /\ (k = Nonce tx \/ (strict l = true /\ Nonce tx < k)).
Proof.
  intros Hwf. pose proof (lw_keyed l Hwf) as Hk. unfold Remove.
  destruct (SortedMap.Remove_spec (txs l) (Nonce tx) (lw_map l Hwf)) as (m & -> & Hm & Hi).
  fold (contents l) in *. cbn [mbind outcome_bind].
  destruct (contents l !! Nonce tx) as [old|] eqn:Hold; cbn.
  2: { eexists _, _, _, []. split; [done|]. split.
       - apply shrunk_intro; [done|done|]. rewrite Hi. by apply delete_id.
       - intros k. split; [by intros ?%elem_of_nil|by intros [? _]]. }
  destruct (Hk _ _ Hold) as [Hn Hu].
  assert (SortedMap.items m = SortedMap.without [old] (contents l)) as Hi1 by (by rewrite Hi; cbn; rewrite Hn).
  destruct (strict l) eqn:Es.
  - destruct (SortedMap.Filter_spec (fun t => Nonce tx <? Nonce t) m Hm) as (m' & inv & -> & Hm' & Hinv & Hi').
    eexists _, _, _, (inv ++ [old]). split; [done|]. split.
    + refine (shrunk_intro l m' _ Hwf Hm' _). rewrite Hi', Hi1. by rewrite SortedMap.without_app.
    + intros k. rewrite fmap_app, elem_of_app, Hinv. cbn. rewrite list_elem_of_singleton, Hn, list_elem_of_fmap.
      split.
      * intros [(t & -> & [Hlt Ht]%list_elem_of_filter)| ->].
        -- apply Z.ltb_lt in Hlt. rewrite Hi1 in Ht. apply elem_of_without in Ht as [Ht _]; [|done].
           apply SortedMap.elem_of_sorted in Ht; [|done]. split_and!; [done|by eexists|by right].
        -- split_and!; [done|by eexists|by left].
      * intros (_ & [t Ht] & [->|[_ Hlt]]); [by right|]. left. destruct (Hk _ _ Ht) as [<- _].
        exists t. split; [done|]. apply list_elem_of_filter. split; [by apply Z.ltb_lt|].
        rewrite Hi1. apply elem_of_without; [done|]. split; [by apply SortedMap.elem_of_sorted|].
        cbn. rewrite list_elem_of_singleton. lia.
  - eexists _, _, _, [old]. split; [done|]. split; [by apply shrunk_intro|].
    intros k. cbn. rewrite list_elem_of_singleton, Hn. split.
    + intros ->. split_and!; [done|by eexists|by left].
    + by intros (_ & _ & [->|[? _]]).
Qed.

Lemma Remove_consecutive l tx : wf l -> strict l = true -> consecutive (nonces l) ->
  exists l' b invalids, Remove l tx = Ok (l', (b, invalids)) /\ wf l' /\ strict l' = true /\ consecutive (nonces l').
Proof.
  intros Hwf Hs Hc. destruct (Remove_shrunk l tx Hwf) as (l' & b & inv & r & Heq & [Hwf' Hs' Hct] & Hr).
  exists l', b, inv. split_and!; [done|done|congruence|]. unfold nonces. rewrite Hct.
  pose proof (lw_keyed l Hwf) as Hk. apply upclosed_consecutive; [done| |done].
  intros x y Hx Hy Hin Hlt. apply Hr in Hin as (Hb & _ & Hx'). apply Hr. split_and!; [done| |].
  - apply SortedMap.elem_of_sorted in Hy; [|done]. by eexists.
  - right. split; [done|]. destruct Hx' as [?|[_ ?]]; lia.
Qed.

(** A part of the sorted contents is a part of the nonces. *)
Lemma split_consecutive l l' a b r : wf l -> SortedMap.sorted (contents l) = a ++ b ->
  consecutive (nonces l) -> contents l' = SortedMap.without r (contents l) ->
  r ≡ₚ a \/ r ≡ₚ b -> consecutive (nonces l').
Proof.
  intros Hwf Hab Hc Hl' Hr. pose proof (lw_keyed l Hwf) as Hk.
  destruct (SortedMap.sorted_split _ _ _ Hk Hab) as [Ha Hb].
  unfold nonces in *. rewrite Hl'. rewrite Hab, fmap_app in Hc. apply consecutive_app in Hc as [??].
  destruct Hr as [Hr|Hr]; rewrite (SortedMap.without_perm _ _ _ Hr); [by rewrite Ha|by rewrite Hb].
Qed.

Lemma run_from_prefix s next : exists b, s = SortedMap.run_from next s ++ b.
Proof.
  revert next. induction s as [|x s IH]; intros next; [by exists []|]. cbn [SortedMap.run_from].
  destruct (Nonce x =? next); [|by exists (x :: s)].
  destruct (IH (next +u 1)) as [b Hb]. exists b. cbn. by f_equal.
Qed.

Lemma ready_run_prefix s start : exists b, s = SortedMap.ready_run start s ++ b.
Proof.
  destruct s as [|x s]; [by exists []|]. cbn [SortedMap.ready_run].
  destruct (start <? Nonce x); [by exists (x :: s)|]. apply run_from_prefix.
Qed.

Lemma Add_wf l tx bump : wf l -> in_u64 (Nonce tx) -> wf (Add l tx bump).1.
Proof.
  intros [Hm Hb] Hu. unfold Add. case_match; [by split|]. split; [by apply SortedMap.Put_wf|].
  change (uAdd (uMul (GasPrice tx) (uSetUint64 (Gas tx))) (Value tx)) with (Cost tx).
  destruct (uCmp_spec (costcap l) (Cost tx)) as (H1 & _ & H3). unfold contents.
  intros k tx'. cbn [fst txs SortedMap.Put SortedMap.items costcap gascap].
  intros [[<- <-]|[_ Hx]]%lookup_insert_Some; [|apply Hb in Hx];
    destruct (Z.ltb_spec (uCmp (costcap l) (Cost tx)) 0), (Z.ltb_spec (gascap l) (Gas tx)); lia.
Qed.

Lemma Add_replace_nonces l tx bump : wf l -> Overlaps l tx = true -> nonces (Add l tx bump).1 = nonces l.
Proof.
  intros Hwf Ho. unfold Overlaps, SortedMap.Get in Ho.
  destruct (SortedMap.items (txs l) !! Nonce tx) as [old|] eqn:Hold; [|done].
  pose proof (lw_keyed l Hwf _ _ Hold) as [_ Hu].
  pose proof (Add_wf l tx bump Hwf Hu) as Hwf'. revert Hwf'. unfold Add, SortedMap.Get. rewrite Hold.
  destruct (underpriced old tx bump); [done|]. intros Hwf'. unfold nonces.
  pose proof (SortedMap.wf_index _ (lw_map _ Hwf)) as H1. pose proof (SortedMap.wf_index _ (lw_map _ Hwf')) as H2.
  unfold contents. rewrite <- (SortedMap.sorted_index _ _ H1), <- (SortedMap.sorted_index _ _ H2).
  cbn. by rewrite Hold.
Qed.

(** ** Sequences of operations on a list of executable transactions *)

Inductive lop :=
| LReplace (tx : TxData) (priceBump : Z)
| LForward (t : Z)
| LFilter (costLimit : u256) (gasLimit : Z)
| LCap (t : Z)
| LRemove (tx : TxData)
| LReady (start : Z).

(** A transaction is added to an executable list only over one of its nonce;
    new nonces come in through the queue. *)
Definition lstep l (o : lop) : outcome txsList :=
  match o with
  | LReplace tx b => Ok (if Overlaps l tx then (Add l tx b).1 else l)
  | LForward t => '(l, _) ← Forward l t; Ok l
  | LFilter c g => Ok (Filter l c g).1
  | LCap t => '(l, _) ← Cap l t; Ok l
  | LRemove tx => '(l, _) ← Remove l tx; Ok l
  | LReady s => '(l, _) ← Ready l s; Ok l
  end.

Fixpoint lrun l (ops : list lop) : outcome txsList :=
  match ops with
  | [] => Ok l
  | o :: ops => l ← lstep l o; lrun l ops
  end.

Definition valid_lop (o : lop) : Prop := match o with LCap t => 0 <= t | _ => True end.

Definition gapless l : Prop := wf l /\ strict l = true /\ consecutive (nonces l).

Lemma gapless_part l m a b r : gapless l -> SortedMap.wf m ->
  SortedMap.sorted (contents l) = a ++ b -> SortedMap.items m = SortedMap.without r (contents l) ->
  r ≡ₚ a \/ r ≡ₚ b -> gapless (with_txs m l).
Proof.
  intros (Hwf & Hs & Hc) Hm Hab Hi Hr. split_and!; [by eapply with_txs_wf|done|].
  by eapply split_consecutive.
Qed.

Lemma lstep_gapless l o : gapless l -> valid_lop o -> exists l', lstep l o = Ok l' /\ gapless l'.
Proof.
  intros Hg Hv. pose proof Hg as (Hwf & Hs & Hc). pose proof (lw_map l Hwf) as Hm.
  destruct o as [tx b|t|c g|t|tx|s]; cbn [lstep].
  - eexists; split; [done|]. destruct (Overlaps l tx) eqn:Ho; [|done].
    pose proof Ho as Ho'. unfold Overlaps, SortedMap.Get in Ho'.
    destruct (SortedMap.items (txs l) !! Nonce tx) as [old|] eqn:Hold; [|done].
    split_and!; [apply Add_wf; [done|by apply (lw_keyed l Hwf _ _ Hold)]| |].
    + unfold Add. by case_match.
    + by rewrite Add_replace_nonces.
  - destruct (SortedMap.Forward_spec (txs l) t Hm) as (m & Heq & Hm' & Hi).
    unfold Forward. rewrite Heq. eexists; split; [done|]. cbn [fst].
    destruct (SortedMap.below_prefix t _ (SortedMap.sorted_sorted (contents l))) as [b Hb].
    eapply gapless_part; eauto.
  - eexists; split; [done|]. destruct (Filter_filtered l c g Hwf) as [Hwf' Hs' _ _ _ _].
    split_and!; [done|congruence|by apply Filter_consecutive].
  - pose proof (SortedMap.Cap_spec (txs l) t Hm) as Hcap. unfold Cap. cbn in Hv.
    destruct (Z.leb_spec (Z.of_nat (size (SortedMap.items (txs l)))) t).
    { rewrite Hcap. eexists; split; [done|]. by destruct l. }
    destruct (Z.ltb_spec t 0); [lia|]. destruct Hcap as (m & Heq & Hm' & Hi). rewrite Heq.
    eexists; split; [done|]. cbn [fst]. eapply gapless_part; eauto. by rewrite take_drop.
  - destruct (Remove_consecutive l tx Hwf Hs Hc) as (l' & b & inv & -> & ? & ? & ?).
    eexists; split; [done|]. done.
  - destruct (SortedMap.Ready_spec (txs l) s Hm) as (m & Heq & Hm' & Hi).
    unfold Ready. rewrite Heq. eexists; split; [done|]. cbn [fst].
    destruct (ready_run_prefix (SortedMap.sorted (contents l)) s) as [b Hb].
    eapply gapless_part; eauto.
Qed.

Lemma threshold_exact bump x : 0 <= bump -> 100 + bump < two64 -> (100 + bump) * uval x < two256 ->
  uval (threshold bump x) = (100 + bump) * uval x / 100.
Proof.
  intros ?? Hx. unfold threshold. rewrite uDiv_spec.
  rewrite (uSetUint64_spec 100) by (unfold in_u64; lia). cbn [Z.eqb].
  u64_norm. rewrite uMul_small; rewrite uSetUint64_spec by (unfold in_u64; lia); done.
Qed.

(** What it takes to replace [old]: both caps raised by [bump] percent. *)
Definition outbids (bump : Z) (old tx : TxData) : Prop :=
  (100 + bump) * uval (GasFeeCap old) / 100 <= uval (GasFeeCap tx) /\
  (100 + bump) * uval (GasTipCap old) / 100 <= uval (GasTipCap tx).

Lemma underpriced_spec old tx bump : 0 <= bump -> 100 + bump < two64 ->
  (100 + bump) * uval (GasFeeCap old) < two256 -> (100 + bump) * uval (GasTipCap old) < two256 ->
  underpriced old tx bump = false <-> outbids bump old tx.
Proof.
  intros Hb Hb' Hf Ht. unfold underpriced, outbids, GasFeeCapCmp, GasTipCapCmp, GasFeeCapIntCmp, GasTipCapIntCmp.
  rewrite !orb_false_iff, !Z.leb_gt, !Z.ltb_ge.
  rewrite <- (threshold_exact bump (GasFeeCap old)), <- (threshold_exact bump (GasTipCap old)) by done.
  destruct (uCmp_spec (GasFeeCap old) (GasFeeCap tx)) as (_ & _ & H1).
  destruct (uCmp_spec (GasTipCap old) (GasTipCap tx)) as (_ & _ & H2).
  destruct (uCmp_spec (GasFeeCap tx) (threshold bump (GasFeeCap old))) as (H3 & _ & _).
  destruct (uCmp_spec (GasTipCap tx) (threshold bump (GasTipCap old))) as (H4 & _ & _).
  assert (forall x, (100 + bump) * uval x < two256 -> uval x <= uval (threshold bump x)) as Hge.
  { intros x Hx. rewrite threshold_exact by done. pose proof (uval_nonneg x).
    apply Z.div_le_lower_bound; nia. }
  pose proof (Hge _ Hf). pose proof (Hge _ Ht). lia.
Qed.

End Facts.

(** C23: [Filter] on a list whose caps bound its transactions removes exactly
    the transactions that exceed the cost or the gas limit, also when the caps
    let it skip the work; a strict list also gives up exactly the affordable
    transactions above a removed nonce, any other list none; the rest is kept,
    is affordable, and the new caps bound it. *)
Theorem Filter_exact `{U : Uint256} `{MR : MapRange} l c g : wf l ->
  filtered l c g (Filter l c g).1 (Filter l c g).2.1 (Filter l c g).2.2.
Proof. apply Filter_filtered. Qed.



Module TxListDemo.

#[local] Instance U : Uint256 := bits_Uint256.
#[local] Instance MR : MapRange := canonical_range.

Definition tx (nonce price : Z) : TxData := SortedMap.SortedMapDemo.tx nonce price.

Definition pending : txsList :=
  foldl (fun l t => (Add l t 10).1) (newTxsList true) [tx 5 1; tx 3 2; tx 4 7].

Lemma pending_wf : wf pending.
Proof. unfold pending. cbn [foldl]. repeat (apply Add_wf; [|split; reflexivity || discriminate]). apply newTxsList_wf. Qed.

Lemma pending_gapless : gapless pending.
Proof. split; [apply pending_wf|]. split; [reflexivity|]. exists 3. vm_compute. reflexivity. Qed.

End TxListDemo.

#[local] Instance demo_range : MapRange := canonical_range.

Lemma Filter_exact_witness :
  filtered TxListDemo.pending (uSetUint64 100000) 30000
    (Filter TxListDemo.pending (uSetUint64 100000) 30000).1
    (Filter TxListDemo.pending (uSetUint64 100000) 30000).2.1
    (Filter TxListDemo.pending (uSetUint64 100000) 30000).2.2 /\
  Nonce <$> (Filter TxListDemo.pending (uSetUint64 100000) 30000).2.1 = [4] /\
  Nonce <$> (Filter TxListDemo.pending (uSetUint64 100000) 30000).2.2 = [5].
Proof.
  split; [|split; vm_compute; reflexivity]. apply Filter_exact, TxListDemo.pending_wf.
Defined.



End TxsList.
