(* ===== verification/TxLookup.v ===== *)
(** * TxLookup: what the pool knows its transactions by ([internal/txspool/txs_list.go])

    The set of local accounts ([accountSet]), the transactions by hash
    ([txLookup]) and the price-sorted heaps that say which transaction to drop
    first ([txPricedList]).  The lookup that a priced list points to is an
    argument of its methods.  Locks are left out; counters of Go's [int] and
    [int64] that count transactions stay far from their bounds and are plain
    numbers. *)

From S2P Require Import Prelude Uint256 ChainConfig StateModel StateTransition Transaction Heap.
Import Transaction.

Module TxLookup.

(** [*tx.From()] and [tx.Hash()] of a pointer that may be nil *)
Definition deref {A} (p : option A) : outcome A := or_panic p.

(** A loop over a slice whose body may panic. *)
Fixpoint each {A B} (f : B -> A -> outcome A) (l : list B) (a : A) : outcome A :=
  match l with
  | [] => Ok a
  | x :: l => a ← f x a; each f l a
  end.

(** ** Accounts *)

Section AccountSet.
Context `{U : Uint256} `{MR : MapRange}.

Record accountSet := { accounts : gmap Address unit; acache : option (list Address) }.

Definition contains (s : accountSet) (addr : Address) : bool := bool_decide (is_Some (accounts s !! addr)).
Definition empty (s : accountSet) : bool := bool_decide (accounts s = ∅).
Definition containsTx (s : accountSet) (tx : TxData) : outcome bool := from ← deref (From tx); Ok (contains s from).
Definition add (addr : Address) (s : accountSet) : accountSet := {| accounts := <[addr := tt]> (accounts s); acache := None |}.
Definition addTx (tx : TxData) (s : accountSet) : outcome accountSet := from ← deref (From tx); Ok (add from s).
Definition newAccountSet (addrs : list Address) : accountSet := foldl (fun s a => add a s) {| accounts := ∅; acache := None |} addrs.

(** The set remembers the slice it hands out. *)
Definition flatten (s : accountSet) : accountSet * list Address :=
  match acache s with
  | Some l => (s, l)
  | None => let l := (range (accounts s)).*1 in ({| accounts := accounts s; acache := Some l |}, l)
  end.

Definition merge (s other : accountSet) : accountSet :=
  {| accounts := foldl (fun m kv => <[kv.1 := tt]> m) (accounts s) (range (accounts other)); acache := None |}.
End AccountSet.

(** ** Transactions by hash *)

Section Lookup.
Context `{U : Uint256} `{MR : MapRange} `{H : !TxHasher}.

Record txLookup := { slots : Z; locals : gmap Hash TxData; remotes : gmap Hash TxData }.

Definition newTxLookup : txLookup := {| slots := 0; locals := ∅; remotes := ∅ |}.

Definition txSlotSize : Z := 32 * 1024.
Definition txMaxSize : Z := 4 * txSlotSize.

(** [unsafe.Sizeof(tx)] of a pointer *)
Definition sizeofPointer : Z := 8.
Definition numSlots (tx : TxData) : Z := (sizeofPointer + txSlotSize - 1) / txSlotSize.

(** The callback says whether to go on. *)
Fixpoint rangeWhile {A} (f : Hash -> TxData -> A -> A * bool) (l : list (Hash * TxData)) (a : A) : A * bool :=
  match l with
  | [] => (a, true)
  | (h, tx) :: l => let '(a, go) := f h tx a in if go : bool then rangeWhile f l a else (a, false)
  end.
Definition Range {A} (f : Hash -> TxData -> bool -> A -> A * bool) (local remote : bool) (t : txLookup) (a : A) : A :=
  let '(a, go) := if local then rangeWhile (fun h tx => f h tx true) (range (locals t)) a else (a, true) in
  if go : bool then if remote then (rangeWhile (fun h tx => f h tx false) (range (remotes t)) a).1 else a else a.

Definition Get (t : txLookup) (h : Hash) : option TxData :=
  match locals t !! h with Some tx => Some tx | None => remotes t !! h end.
Definition GetLocal (t : txLookup) (h : Hash) : option TxData := locals t !! h.
Definition GetRemote (t : txLookup) (h : Hash) : option TxData := remotes t !! h.
Definition Count (t : txLookup) : Z := Z.of_nat (size (locals t)) + Z.of_nat (size (remotes t)).
Definition LocalCount (t : txLookup) : Z := Z.of_nat (size (locals t)).
Definition RemoteCount (t : txLookup) : Z := Z.of_nat (size (remotes t)).

Definition Add (tx : TxData) (local : bool) (t : txLookup) : txLookup :=
  let h := TxHash tx in
  if local then {| slots := slots t + numSlots tx; locals := <[h := tx]> (locals t); remotes := remotes t |}
  else {| slots := slots t + numSlots tx; locals := locals t; remotes := <[h := tx]> (remotes t) |}.

Definition Remove (h : Hash) (t : txLookup) : txLookup :=
  match Get t h with
  | None => t
  | Some tx => {| slots := slots t - numSlots tx; locals := delete h (locals t); remotes := delete h (remotes t) |}
  end.

Definition RemoteToLocals (acc : accountSet) (t : txLookup) : outcome (txLookup * Z) :=
  each (fun kv '(t, migrated) =>
          local ← containsTx acc kv.2;
          Ok (if local : bool
              then ({| slots := slots t; locals := <[kv.1 := kv.2]> (locals t); remotes := delete kv.1 (remotes t) |}, migrated + 1)
              else (t, migrated)))
       (range (remotes t)) (t, 0).

Definition RemotesBelowTip (threshold : u256) (t : txLookup) : list TxData :=
  Range (fun _ tx _ found => (if uCmp (GasPrice tx) threshold <? 0 then found ++ [tx] else found, true)) false true t [].

(** ** Prices *)

Record priceHeap := { baseFee : option u256; plist : list TxData }.

Definition pcmp (base : option u256) (a b : TxData) : Z :=
  let c := match base with Some _ => EffectiveGasTipCmp a b base | None => 0 end in
  if negb (c =? 0) then c
  else
    let c := uCmp (GasPrice a) (GasPrice b) in
    if negb (c =? 0) then c else uCmp (GasPrice a) (GasPrice b).

Definition pless (base : option u256) (a b : TxData) : bool :=
  let c := pcmp base a b in
  if c =? -1 then true else if c =? 1 then false else Nonce b <? Nonce a.

Definition hPush (tx : TxData) (h : priceHeap) : priceHeap :=
  {| baseFee := baseFee h; plist := Push (pless (baseFee h)) (plist h) tx |}.
Definition hPop (h : priceHeap) : outcome (TxData * priceHeap) :=
  '(tx, l) ← or_panic (Pop (pless (baseFee h)) (plist h)); Ok (tx, {| baseFee := baseFee h; plist := l |}).
Definition hLen (h : priceHeap) : Z := Z.of_nat (length (plist h)).

Record txPricedList := { stales : Z; urgent : priceHeap; floating : priceHeap }.

Definition urgentRatio : Z := 4.
Definition floatingRatio : Z := 1.

Definition newTxPricedList : txPricedList :=
  {| stales := 0; urgent := {| baseFee := None; plist := [] |}; floating := {| baseFee := None; plist := [] |} |}.

Definition PPut (tx : TxData) (local : bool) (l : txPricedList) : txPricedList :=
  if local then l else {| stales := stales l; urgent := hPush tx (urgent l); floating := floating l |}.

(** [n] elements popped, in the order they come. *)
Fixpoint popN (n : nat) (h : priceHeap) : outcome (list TxData * priceHeap) :=
  match n with
  | O => Ok ([], h)
  | S n => '(tx, h) ← hPop h; '(l, h) ← popN n h; Ok (tx :: l, h)
  end.

Definition Reheap (all : txLookup) (l : txPricedList) : outcome txPricedList :=
  let remote := Range (fun _ tx _ found => (found ++ [tx], true)) false true all [] in
  let u := {| baseFee := baseFee (urgent l); plist := Init (pless (baseFee (urgent l))) remote |} in
  let floatingCount := hLen u * floatingRatio / (urgentRatio + floatingRatio) in
  '(f, u) ← popN (Z.to_nat floatingCount) u;
  Ok {| stales := 0; urgent := u; floating := {| baseFee := baseFee (floating l); plist := Init (pless (baseFee (floating l))) f |} |}.

Definition Removed (all : txLookup) (count : Z) (l : txPricedList) : outcome txPricedList :=
  let l := {| stales := stales l + count; urgent := urgent l; floating := floating l |} in
  if stales l <=? (hLen (urgent l) + hLen (floating l)) / 4 then Ok l else Reheap all l.

Definition SetBaseFee (all : txLookup) (fee : u256) (l : txPricedList) : outcome txPricedList :=
  Reheap all {| stales := stales l; urgent := {| baseFee := Some fee; plist := plist (urgent l) |}; floating := floating l |}.

(** Stale transactions go from the top of the heap; every round takes one. *)
Fixpoint dropStale (fuel : nat) (all : txLookup) (h : priceHeap) (stale : Z) : outcome (priceHeap * Z) :=
  match plist h, fuel with
  | [], _ => Ok (h, stale)
  | _ :: _, O => Err "out of fuel"
  | top :: _, S fuel =>
      match GetRemote all (TxHash top) with
      | None => '(_, h) ← hPop h; dropStale fuel all h (stale - 1)
      | Some _ => Ok (h, stale)
      end
  end.

Definition underpricedFor (all : txLookup) (h : priceHeap) (stale : Z) (tx : TxData) : outcome (priceHeap * Z * bool) :=
  '(h, stale) ← dropStale (length (plist h)) all h stale;
  Ok (h, stale, match plist h with [] => false | top :: _ => 0 <=? pcmp (baseFee h) top tx end).

(** [&&] and [||] look at the floating heap only when the urgent one does not
    decide. *)
Definition Underpriced (all : txLookup) (tx : TxData) (l : txPricedList) : outcome (txPricedList * bool) :=
  '(u, s, b) ← underpricedFor all (urgent l) (stales l) tx;
  let l := {| stales := s; urgent := u; floating := floating l |} in
  if negb (b || (hLen u =? 0)) then Ok (l, false)
  else
    '(f, s, b) ← underpricedFor all (floating l) (stales l) tx;
    let l := {| stales := s; urgent := u; floating := f |} in
    if negb (b || (hLen f =? 0)) then Ok (l, false)
    else Ok (l, negb (hLen u =? 0) || negb (hLen f =? 0)).

(** A round takes a transaction from the floating heap or moves one into it, so
    that twice the urgent and once the floating ones bound the rounds. *)
Fixpoint Discard_loop (fuel : nat) (all : txLookup) (n : Z) (drop : list TxData) (l : txPricedList)
    : outcome (txPricedList * Z * list TxData) :=
  if negb (0 <? n) then Ok (l, n, drop)
  else
    match fuel with
    | O => Err "out of fuel"
    | S fuel =>
        if (hLen (floating l) * urgentRatio <? hLen (urgent l) * floatingRatio) || (floatingRatio =? 0) then
          '(tx, u) ← hPop (urgent l);
          match GetRemote all (TxHash tx) with
          | None => Discard_loop fuel all n drop {| stales := stales l - 1; urgent := u; floating := floating l |}
          | Some _ => Discard_loop fuel all n drop {| stales := stales l; urgent := u; floating := hPush tx (floating l) |}
          end
        else if hLen (floating l) =? 0 then Ok (l, n, drop)
        else
          '(tx, f) ← hPop (floating l);
          match GetRemote all (TxHash tx) with
          | None => Discard_loop fuel all n drop {| stales := stales l - 1; urgent := urgent l; floating := f |}
          | Some _ => Discard_loop fuel all (n - numSlots tx) (drop ++ [tx]) {| stales := stales l; urgent := urgent l; floating := f |}
          end
    end.

(** [make] panics on a negative capacity. *)
Definition Discard (all : txLookup) (n : Z) (force : bool) (l : txPricedList) : outcome (txPricedList * list TxData * bool) :=
  if n <? 0 then Panic
  else
    '(l, n, drop) ← Discard_loop (S (2 * length (plist (urgent l)) + length (plist (floating l)))) all n [] l;
    if (0 <? n) && negb force
    then Ok ({| stales := stales l; urgent := foldl (fun h tx => hPush tx h) (urgent l) drop; floating := floating l |}, [], false)
    else Ok (l, drop, true).
End Lookup.
End TxLookup.
