(* ===== verification/TxPool.v ===== *)
(** * TxPool: the transaction pool ([internal/txspool/txs_pool.go], [tx_noncer.go])

    The pool keeps the transactions of every account in two lists: [pending],
    which can be executed, and [queue], which wait for an earlier nonce or for
    funds.  Every method that runs under the lock of the pool is a function of
    the pool in a state monad [M] whose calls return or panic; a Go error is a
    value of the result.

    The methods work on lists through pointers into the maps; a list is read
    from its map, changed and written back, and no method holds two pointers to
    one list.  The current state is a view of the database ([ReadState]), the
    chain ([IBlockChain]) and the deposit contract are the interfaces the pool
    was given.  [time.Now] reads a clock that may show anything: its readings are
    the sequence [clock], numbered by [tick].  Transactions that are announced
    by [queueTxEvent] are collected in [events].  Metrics and logging are left
    out. *)

From S2P Require Import Prelude Uint256 ChainConfig Header HeaderRules StateModel StateTransition Transaction Heap TxSortedMap TxList TxLookup.
Import Transaction.

Module TxPool.
Import TxLookup.

Abbreviation txsList := TxsList.txsList.
Abbreviation txsSortedMap := SortedMap.txsSortedMap.

Definition ErrAlreadyKnown : error := "already known".
Definition ErrInvalidSender : error := "invalid sender".
Definition ErrOversizedData : error := "oversized data".
Definition ErrNegativeValue : error := "negative value".
Definition ErrGasLimit : error := "exceeds block gas limit".
Definition ErrUnderpriced : error := "transaction underpriced".
Definition ErrTxPoolOverflow : error := "txpool is full".
Definition ErrReplaceUnderpriced : error := "replacement transaction underpriced".
Definition ErrFeeCapVeryHigh : error := "max fee per gas higher than 2^256-1".
Definition ErrTipAboveFeeCap : error := "max priority fee per gas higher than max fee per gas".
Definition ErrTxTypeNotSupported : error := "transaction type not supported".
Definition ErrTipVeryHigh : error := "max priority fee per gas higher than 2^256-1".
Definition ErrAlreadyDeposited : error := "already deposited".

(** The limits; the list of local accounts and the lifetime are not used. *)
Record TxsPoolConfig := {
  NoLocals : bool;
  PriceLimit : Z; PriceBump : Z;
  AccountSlots : Z; GlobalSlots : Z; AccountQueue : Z; GlobalQueue : Z
}.

Definition DefaultTxPoolConfig : TxsPoolConfig :=
  {| NoLocals := false; PriceLimit := 1; PriceBump := 10; AccountSlots := 16; GlobalSlots := 4096 + 1024; AccountQueue := 64; GlobalQueue := 1024 |}.

Section Pool.
Context `{U : Uint256} `{MR : MapRange} `{H : !TxHasher}.

Record ReadState := { GetNonce : Address -> Z; GetBalance : Address -> u256 }.

(** A block with the hash of its header. *)
Record Block := { bHash : Hash; bHeader : Header; bTxs : list TxData }.

(** [common.IBlockChain] and the deposit contract with its database *)
Class PoolEnv := {
  CurrentBlock : Block;
  GetBlockByHash : Hash -> option Block;
  hasDeposit : option (Address -> bool);
  IsDepositAction : TxData -> bool;
  clock : nat -> Z
}.

Record TxsPool := {
  config : TxsPoolConfig;
  chainconfig : ChainConfig.ChainConfig;
  currentState : ReadState;
  pendingNonces : gmap Address Z;
  currentMaxGas : Z;
  istanbul : bool;
  eip2718 : bool;
  eip1559 : bool;
  shanghai : bool;
  plocals : accountSet;
  pending : gmap Address txsList;
  queue : gmap Address txsList;
  beats : gmap Address Z;
  all : txLookup;
  priced : txPricedList;
  gasPrice : u256;
  changesSinceReorg : Z;
  tick : nat;
  events : list TxData
}.

Definition set_pendingNonces x p := {| config := config p; chainconfig := chainconfig p; currentState := currentState p; pendingNonces := x; currentMaxGas := currentMaxGas p; istanbul := istanbul p; eip2718 := eip2718 p; eip1559 := eip1559 p; shanghai := shanghai p; plocals := plocals p; pending := pending p; queue := queue p; beats := beats p; all := all p; priced := priced p; gasPrice := gasPrice p; changesSinceReorg := changesSinceReorg p; tick := tick p; events := events p |}.
Definition set_currentMaxGas x p := {| config := config p; chainconfig := chainconfig p; currentState := currentState p; pendingNonces := pendingNonces p; currentMaxGas := x; istanbul := istanbul p; eip2718 := eip2718 p; eip1559 := eip1559 p; shanghai := shanghai p; plocals := plocals p; pending := pending p; queue := queue p; beats := beats p; all := all p; priced := priced p; gasPrice := gasPrice p; changesSinceReorg := changesSinceReorg p; tick := tick p; events := events p |}.
Definition set_istanbul x p := {| config := config p; chainconfig := chainconfig p; currentState := currentState p; pendingNonces := pendingNonces p; currentMaxGas := currentMaxGas p; istanbul := x; eip2718 := eip2718 p; eip1559 := eip1559 p; shanghai := shanghai p; plocals := plocals p; pending := pending p; queue := queue p; beats := beats p; all := all p; priced := priced p; gasPrice := gasPrice p; changesSinceReorg := changesSinceReorg p; tick := tick p; events := events p |}.
Definition set_eip2718 x p := {| config := config p; chainconfig := chainconfig p; currentState := currentState p; pendingNonces := pendingNonces p; currentMaxGas := currentMaxGas p; istanbul := istanbul p; eip2718 := x; eip1559 := eip1559 p; shanghai := shanghai p; plocals := plocals p; pending := pending p; queue := queue p; beats := beats p; all := all p; priced := priced p; gasPrice := gasPrice p; changesSinceReorg := changesSinceReorg p; tick := tick p; events := events p |}.
Definition set_eip1559 x p := {| config := config p; chainconfig := chainconfig p; currentState := currentState p; pendingNonces := pendingNonces p; currentMaxGas := currentMaxGas p; istanbul := istanbul p; eip2718 := eip2718 p; eip1559 := x; shanghai := shanghai p; plocals := plocals p; pending := pending p; queue := queue p; beats := beats p; all := all p; priced := priced p; gasPrice := gasPrice p; changesSinceReorg := changesSinceReorg p; tick := tick p; events := events p |}.
Definition set_plocals x p := {| config := config p; chainconfig := chainconfig p; currentState := currentState p; pendingNonces := pendingNonces p; currentMaxGas := currentMaxGas p; istanbul := istanbul p; eip2718 := eip2718 p; eip1559 := eip1559 p; shanghai := shanghai p; plocals := x; pending := pending p; queue := queue p; beats := beats p; all := all p; priced := priced p; gasPrice := gasPrice p; changesSinceReorg := changesSinceReorg p; tick := tick p; events := events p |}.
Definition set_pending x p := {| config := config p; chainconfig := chainconfig p; currentState := currentState p; pendingNonces := pendingNonces p; currentMaxGas := currentMaxGas p; istanbul := istanbul p; eip2718 := eip2718 p; eip1559 := eip1559 p; shanghai := shanghai p; plocals := plocals p; pending := x; queue := queue p; beats := beats p; all := all p; priced := priced p; gasPrice := gasPrice p; changesSinceReorg := changesSinceReorg p; tick := tick p; events := events p |}.
Definition set_queue x p := {| config := config p; chainconfig := chainconfig p; currentState := currentState p; pendingNonces := pendingNonces p; currentMaxGas := currentMaxGas p; istanbul := istanbul p; eip2718 := eip2718 p; eip1559 := eip1559 p; shanghai := shanghai p; plocals := plocals p; pending := pending p; queue := x; beats := beats p; all := all p; priced := priced p; gasPrice := gasPrice p; changesSinceReorg := changesSinceReorg p; tick := tick p; events := events p |}.
Definition set_beats x p := {| config := config p; chainconfig := chainconfig p; currentState := currentState p; pendingNonces := pendingNonces p; currentMaxGas := currentMaxGas p; istanbul := istanbul p; eip2718 := eip2718 p; eip1559 := eip1559 p; shanghai := shanghai p; plocals := plocals p; pending := pending p; queue := queue p; beats := x; all := all p; priced := priced p; gasPrice := gasPrice p; changesSinceReorg := changesSinceReorg p; tick := tick p; events := events p |}.
Definition set_all x p := {| config := config p; chainconfig := chainconfig p; currentState := currentState p; pendingNonces := pendingNonces p; currentMaxGas := currentMaxGas p; istanbul := istanbul p; eip2718 := eip2718 p; eip1559 := eip1559 p; shanghai := shanghai p; plocals := plocals p; pending := pending p; queue := queue p; beats := beats p; all := x; priced := priced p; gasPrice := gasPrice p; changesSinceReorg := changesSinceReorg p; tick := tick p; events := events p |}.
Definition set_priced x p := {| config := config p; chainconfig := chainconfig p; currentState := currentState p; pendingNonces := pendingNonces p; currentMaxGas := currentMaxGas p; istanbul := istanbul p; eip2718 := eip2718 p; eip1559 := eip1559 p; shanghai := shanghai p; plocals := plocals p; pending := pending p; queue := queue p; beats := beats p; all := all p; priced := x; gasPrice := gasPrice p; changesSinceReorg := changesSinceReorg p; tick := tick p; events := events p |}.
Definition set_changesSinceReorg x p := {| config := config p; chainconfig := chainconfig p; currentState := currentState p; pendingNonces := pendingNonces p; currentMaxGas := currentMaxGas p; istanbul := istanbul p; eip2718 := eip2718 p; eip1559 := eip1559 p; shanghai := shanghai p; plocals := plocals p; pending := pending p; queue := queue p; beats := beats p; all := all p; priced := priced p; gasPrice := gasPrice p; changesSinceReorg := x; tick := tick p; events := events p |}.
Definition set_tick x p := {| config := config p; chainconfig := chainconfig p; currentState := currentState p; pendingNonces := pendingNonces p; currentMaxGas := currentMaxGas p; istanbul := istanbul p; eip2718 := eip2718 p; eip1559 := eip1559 p; shanghai := shanghai p; plocals := plocals p; pending := pending p; queue := queue p; beats := beats p; all := all p; priced := priced p; gasPrice := gasPrice p; changesSinceReorg := changesSinceReorg p; tick := x; events := events p |}.
Definition set_events x p := {| config := config p; chainconfig := chainconfig p; currentState := currentState p; pendingNonces := pendingNonces p; currentMaxGas := currentMaxGas p; istanbul := istanbul p; eip2718 := eip2718 p; eip1559 := eip1559 p; shanghai := shanghai p; plocals := plocals p; pending := pending p; queue := queue p; beats := beats p; all := all p; priced := priced p; gasPrice := gasPrice p; changesSinceReorg := changesSinceReorg p; tick := tick p; events := x |}.
Definition set_currentState x p := {| config := config p; chainconfig := chainconfig p; currentState := x; pendingNonces := pendingNonces p; currentMaxGas := currentMaxGas p; istanbul := istanbul p; eip2718 := eip2718 p; eip1559 := eip1559 p; shanghai := shanghai p; plocals := plocals p; pending := pending p; queue := queue p; beats := beats p; all := all p; priced := priced p; gasPrice := gasPrice p; changesSinceReorg := changesSinceReorg p; tick := tick p; events := events p |}.

(** ** Methods under the lock *)

Definition M (A : Type) : Type := TxsPool -> outcome (TxsPool * A).
#[export] Instance M_ret : MRet M := fun A a p => Ok (p, a).
#[export] Instance M_bind : MBind M := fun A B f m p => match m p with Ok (p, a) => f a p | Err e => Err e | Panic => Panic end.
Definition gets {A} (f : TxsPool -> A) : M A := fun p => Ok (p, f p).
Definition modify (f : TxsPool -> TxsPool) : M unit := fun p => Ok (f p, tt).
Definition lift {A} (o : outcome A) : M A := fun p => match o with Ok a => Ok (p, a) | Err e => Err e | Panic => Panic end.
Definition updates (f : TxsPool -> outcome TxsPool) : M unit := fun p => match f p with Ok p => Ok (p, tt) | Err e => Err e | Panic => Panic end.

Definition noFuel {A} : M A := fun _ => Err "out of fuel".

Fixpoint forEach {B} (f : B -> M unit) (l : list B) : M unit :=
  match l with [] => mret tt | x :: l => f x;; forEach f l end.

(** A slice of transactions without nil pointers. *)
Definition derefAll (l : list (option TxData)) : outcome (list TxData) := mapM deref l.

(** *** [txNoncer] *)

Definition nonceGet (addr : Address) : M Z := fun p =>
  match pendingNonces p !! addr with
  | Some n => Ok (p, n)
  | None => let n := GetNonce (currentState p) addr in Ok (set_pendingNonces (<[addr := n]> (pendingNonces p)) p, n)
  end.
Definition nonceSet (addr : Address) (n : Z) : M unit := modify (fun p => set_pendingNonces (<[addr := n]> (pendingNonces p)) p).
Definition setIfLower (addr : Address) (n : Z) : M unit :=
  cur ← nonceGet addr;
  if cur <=? n then mret tt else nonceSet addr n.
Definition setAll (m : gmap Address Z) : M unit := modify (set_pendingNonces m).

(** *** The parts of the pool *)

Definition allRemove (h : Hash) : M unit := modify (fun p => set_all (Remove h (all p)) p).
Definition allAdd (tx : TxData) (local : bool) : M unit := modify (fun p => set_all (Add tx local (all p)) p).
Definition pricedRemoved (count : Z) : M unit := updates (fun p => l ← Removed (all p) count (priced p); Ok (set_priced l p)).
Definition pricedPut (tx : TxData) (local : bool) : M unit := modify (fun p => set_priced (PPut tx local (priced p)) p).
Definition setPending (addr : Address) (l : txsList) : M unit := modify (fun p => set_pending (<[addr := l]> (pending p)) p).
Definition setQueue (addr : Address) (l : txsList) : M unit := modify (fun p => set_queue (<[addr := l]> (queue p)) p).
Definition delPending (addr : Address) : M unit := modify (fun p => set_pending (delete addr (pending p)) p).
Definition delQueue (addr : Address) : M unit := modify (fun p => set_beats (delete addr (beats p)) (set_queue (delete addr (queue p)) p)).
End Pool.

Section Methods.
Context `{U : Uint256} `{MR : MapRange} `{H : !TxHasher} `{Env : !PoolEnv}.

(** [pool.beats[addr] = time.Now()] *)
Definition beat (addr : Address) : M unit :=
  modify (fun p => set_beats (<[addr := clock (tick p)]> (beats p)) (set_tick (S (tick p)) p)).

Definition queueTxEvent (tx : TxData) : M unit := modify (fun p => set_events (events p ++ [tx]) p).

(** A transaction that was replaced leaves the lookup. *)
Definition discardOld (old : option TxData) : M unit :=
  match old with
  | Some o => allRemove (TxHash o);; pricedRemoved 1
  | None => mret tt
  end.

Definition promoteTx (addr : Address) (hash : Hash) (tx : TxData) : M bool :=
  p ← gets id;
  let list := default (TxsList.newTxsList true) (pending p !! addr) in
  let '(list, (inserted, old)) := TxsList.Add list tx (PriceBump (config p)) in
  setPending addr list;;
  if negb inserted then allRemove hash;; pricedRemoved 1;; mret false
  else discardOld old;; nonceSet addr (Nonce tx +u 1);; beat addr;; mret true.

Definition enqueueTx (hash : Hash) (tx : TxData) (local addAll : bool) : M (bool * option error) :=
  from ← lift (deref (From tx));
  p ← gets id;
  let list := default (TxsList.newTxsList false) (queue p !! from) in
  let '(list, (inserted, old)) := TxsList.Add list tx (PriceBump (config p)) in
  setQueue from list;;
  if negb inserted then mret (false, Some ErrReplaceUnderpriced)
  else
    discardOld old;;
    (if addAll then allAdd tx local;; pricedPut tx local else mret tt);;
    bs ← gets beats;
    (match bs !! from with Some _ => mret tt | None => beat from end);;
    mret (bool_decide (is_Some old), None).

(** The transaction is in the queue, if the queue has its account. *)
Definition removeQueued (addr : Address) (tx : TxData) : M unit :=
  q ← gets queue;
  match q !! addr with
  | None => mret tt
  | Some future =>
      '(future, _) ← lift (TxsList.Remove future tx);
      setQueue addr future;;
      if TxsList.Empty future then delQueue addr else mret tt
  end.

Definition removeTx (hash : Hash) (outofbound : bool) : M unit :=
  p ← gets id;
  match Get (all p) hash with
  | None => mret tt
  | Some tx =>
      addr ← lift (deref (From tx));
      allRemove hash;;
      (if outofbound then pricedRemoved 1 else mret tt);;
      match pending p !! addr with
      | None => removeQueued addr tx
      | Some list =>
          '(list, (removed, invalids)) ← lift (TxsList.Remove list tx);
          setPending addr list;;
          if negb removed then removeQueued addr tx
          else
            (if TxsList.Empty list then delPending addr else mret tt);;
            forEach (fun tx => enqueueTx (TxHash tx) tx false false;; mret tt) invalids;;
            setIfLower addr (Nonce tx)
      end
  end.

(** *** Validation *)

(** [tx.Type()] *)
Definition isLegacy (tx : TxData) : bool := match tx with Legacy _ => true | _ => false end.
Definition isDynamicFee (tx : TxData) : bool := match tx with DynamicFee _ => true | _ => false end.

(** [Sign] reads the top bit of a 256-bit integer as its sign. *)
Definition uNegative (x : u256) : bool := 2 ^ 255 <=? uval x.
Definition uBitLen (x : u256) : Z := if uval x =? 0 then 0 else Z.log2 (uval x) + 1.

Definition validateTx (tx : TxData) (local : bool) (p : TxsPool) : outcome (option error) :=
  if negb (eip2718 p) && negb (isLegacy tx) then Ok (Some ErrTxTypeNotSupported)
  else if negb (eip1559 p) && isDynamicFee tx then Ok (Some ErrTxTypeNotSupported)
  else
    addr ← deref (From tx);
    if txMaxSize <? sizeofPointer then Ok (Some ErrOversizedData)
    else if uNegative (Value tx) then Ok (Some ErrNegativeValue)
    else if currentMaxGas p <? Gas tx then Ok (Some ErrGasLimit)
    else if 256 <? uBitLen (Transaction.GasPrice tx) then Ok (Some ErrFeeCapVeryHigh)
    else if 256 <? uBitLen (GasTipCap tx) then Ok (Some ErrTipVeryHigh)
    else if GasFeeCapIntCmp tx (GasTipCap tx) <? 0 then Ok (Some ErrTipAboveFeeCap)
    else if negb local && (uCmp (Transaction.GasPrice tx) (gasPrice p) <? 0) then Ok (Some ErrUnderpriced)
    else if Nonce tx <? GetNonce (currentState p) addr then Ok (Some ErrNonceTooLow)
    else if uCmp (GetBalance (currentState p) addr) (Cost tx) <? 0 then Ok (Some ErrInsufficientFunds)
    else
      match IntrinsicGas (from_nil (Data tx)) (GetAccessList tx) (bool_decide (To tx = None)) true (istanbul p) (shanghai p) with
      | Err e => Ok (Some e)
      | Panic => Panic
      | Ok intrGas =>
          if Gas tx <? intrGas then Ok (Some ErrIntrinsicGas)
          else
            match hasDeposit with
            | Some info => Ok (if info addr && IsDepositAction tx then Some ErrAlreadyDeposited else None)
            | None => Ok None
            end
      end.

Definition validateSender (tx : TxData) : bool := true.

(** *** Adding *)

(** Room for [tx] when the pool is full; an error if there is none. *)
Definition makeRoom (tx : TxData) (isLocal : bool) : M (option error) :=
  p ← gets id;
  let limit := GlobalSlots (config p) +u GlobalQueue (config p) in
  if negb (limit <? u64 (slots (all p) + numSlots tx)) then mret None
  else
    under ← (if isLocal then mret false
             else fun p => '(l, b) ← Underpriced (all p) tx (priced p); Ok (set_priced l p, b));
    if under : bool then mret (Some ErrUnderpriced)
    else if GlobalSlots (config p) / 4 <? changesSinceReorg p then mret (Some ErrTxPoolOverflow)
    else
      '(drop, success) ← (fun p => '(l, drop, b) ← Discard (all p) (slots (all p) - limit + numSlots tx) isLocal (priced p); Ok (set_priced l p, (drop, b)));
      if negb isLocal && negb success then mret (Some ErrTxPoolOverflow)
      else
        modify (fun p => set_changesSinceReorg (changesSinceReorg p + Z.of_nat (length drop)) p);;
        forEach (fun tx => removeTx (TxHash tx) false) drop;;
        mret None.

(** [pool.locals.add(from)] with what follows from it. *)
Definition markLocal (from : Address) : M unit :=
  modify (fun p => set_plocals (TxLookup.add from (plocals p)) p);;
  migrated ← (fun p => '(t, n) ← RemoteToLocals (plocals p) (all p); Ok (set_all t p, n));
  pricedRemoved migrated.

(** A transaction that takes the place of a pending one, or goes to the queue. *)
Definition insertTx (hash : Hash) (tx : TxData) (local isLocal : bool) : M (bool * option error) :=
  from ← lift (deref (From tx));
  p ← gets id;
  match (match pending p !! from with Some l => if TxsList.Overlaps l tx then Some l else None | None => None end) with
  | Some list =>
      let '(list, (inserted, old)) := TxsList.Add list tx (PriceBump (config p)) in
      setPending from list;;
      if negb inserted then mret (false, Some ErrReplaceUnderpriced)
      else
        discardOld old;;
        allAdd tx isLocal;; pricedPut tx isLocal;; queueTxEvent tx;; beat from;;
        mret (bool_decide (is_Some old), None)
  | None =>
      '(replaced, err) ← enqueueTx hash tx isLocal true;
      match err with
      | Some e => mret (false, Some e)
      | None =>
          l ← gets plocals;
          (if local && negb (contains l from) then markLocal from else mret tt);;
          mret (replaced, None)
      end
  end.

Definition add (tx : TxData) (local : bool) : M (bool * option error) :=
  let hash := TxHash tx in
  p ← gets id;
  match Get (all p) hash with
  | Some _ => mret (false, Some ErrAlreadyKnown)
  | None =>
      isLocal ← (if local then mret true else lift (containsTx (plocals p) tx));
      err ← lift (validateTx tx isLocal p);
      match err with
      | Some e => mret (false, Some e)
      | None =>
          err ← makeRoom tx isLocal;
          match err with
          | Some e => mret (false, Some e)
          | None => insertTx hash tx local isLocal
          end
      end
  end.

Fixpoint addTxsLocked_loop (txs : list TxData) (local : bool) (dirty : accountSet) : M (list (option error) * accountSet) :=
  match txs with
  | [] => mret ([], dirty)
  | tx :: txs =>
      '(replaced, err) ← add tx local;
      dirty ← (match err with None => if replaced : bool then mret dirty else lift (addTx tx dirty) | Some _ => mret dirty end);
      '(errs, dirty) ← addTxsLocked_loop txs local dirty;
      mret (err :: errs, dirty)
  end.
Definition addTxsLocked (txs : list TxData) (local : bool) : M (list (option error) * accountSet) :=
  addTxsLocked_loop txs local (newAccountSet []).

(** The errors of the new transactions fill the slots that have none. *)
Fixpoint mergeErrs (errs news : list (option error)) : outcome (list (option error)) :=
  match news, errs with
  | [], _ => Ok errs
  | _ :: _, [] => Panic
  | _ :: _, Some k :: errs => r ← mergeErrs errs news; Ok (Some k :: r)
  | e :: news, None :: errs => r ← mergeErrs errs news; Ok (e :: r)
  end.

(** What is known or has no sender is sorted out before the lock is taken. *)
Definition presetErr (p : TxsPool) (tx : TxData) : option error :=
  match Get (all p) (TxHash tx) with
  | Some _ => Some ErrAlreadyKnown
  | None => if validateSender tx then None else Some ErrInvalidSender
  end.

(** The errors, and the accounts that [requestPromoteExecutables] is called with,
    if it is. *)
Definition addTxs (txs : list TxData) (local : bool) : M (list (option error) * option accountSet) :=
  p ← gets id;
  let errs := map (presetErr p) txs in
  let news := filter (fun tx => presetErr p tx = None) txs in
  match news with
  | [] => mret (errs, None)
  | _ =>
      '(newErrs, dirty) ← addTxsLocked news local;
      errs ← lift (mergeErrs errs newErrs);
      mret (errs, Some dirty)
  end.
Definition AddLocals (txs : list TxData) : M (list (option error) * option accountSet) := p ← gets id; addTxs txs (negb (NoLocals (config p))).
Definition AddLocal (tx : TxData) : M (option error * option accountSet) :=
  '(errs, dirty) ← AddLocals [tx];
  err ← lift (or_panic (head errs));
  mret (err, dirty).
Definition AddRemotes (txs : list TxData) : M (list (option error) * option accountSet) := addTxs txs false.

(** *** Promotion and demotion *)

Definition forget (txs : list TxData) : M unit := forEach (fun tx => allRemove (TxHash tx)) txs.

Fixpoint promoteReady (addr : Address) (readies : list TxData) : M (list TxData) :=
  match readies with
  | [] => mret []
  | tx :: readies =>
      ok ← promoteTx addr (TxHash tx) tx;
      l ← promoteReady addr readies;
      mret (if ok : bool then tx :: l else l)
  end.

Definition promoteAccount (addr : Address) : M (list TxData) :=
  q ← gets queue;
  match q !! addr with
  | None => mret []
  | Some list =>
      p ← gets id;
      '(list, forwards) ← lift (TxsList.Forward list (GetNonce (currentState p) addr));
      forwards ← lift (derefAll forwards);
      forget forwards;;
      let '(list, (drops, _)) := TxsList.Filter list (GetBalance (currentState p) addr) (currentMaxGas p) in
      forget drops;;
      start ← nonceGet addr;
      '(list, readies) ← lift (TxsList.Ready list start);
      readies ← lift (derefAll readies);
      setQueue addr list;;
      promoted ← promoteReady addr readies;
      '(list, caps) ← (if contains (plocals p) addr then mret (list, [])
                       else lift (TxsList.Cap list (AccountQueue (config p))));
      caps ← lift (derefAll caps);
      forget caps;;
      pricedRemoved (Z.of_nat (length caps));;
      setQueue addr list;;
      (if TxsList.Empty list then delQueue addr else mret tt);;
      mret promoted
  end.

Fixpoint promoteExecutables (accounts : list Address) : M (list TxData) :=
  match accounts with
  | [] => mret []
  | addr :: accounts => a ← promoteAccount addr; b ← promoteExecutables accounts; mret (a ++ b)
  end.

Definition enqueueAll (txs : list TxData) : M unit := forEach (fun tx => enqueueTx (TxHash tx) tx false false;; mret tt) txs.

Definition demoteAccount (addr : Address) : M unit :=
  ps ← gets pending;
  match ps !! addr with
  | None => mret tt
  | Some list =>
      p ← gets id;
      let nonce := GetNonce (currentState p) addr in
      '(list, olds) ← lift (TxsList.Forward list nonce);
      olds ← lift (derefAll olds);
      forget olds;;
      let '(list, (drops, invalids)) := TxsList.Filter list (GetBalance (currentState p) addr) (currentMaxGas p) in
      forget drops;;
      setPending addr list;;
      enqueueAll invalids;;
      list ← (if (0 <? TxsList.Len list) && bool_decide (SortedMap.Get (TxsList.txs list) nonce = None) then
                '(list, gapped) ← lift (TxsList.Cap list 0);
                gapped ← lift (derefAll gapped);
                setPending addr list;;
                enqueueAll gapped;;
                mret list
              else mret list);
      if TxsList.Empty list then delPending addr else mret tt
  end.

(** Accounts are deleted from the map while it is ranged over, none is added. *)
Definition demoteUnexecutables : M unit := p ← gets id; forEach demoteAccount (range (pending p)).*1.

(** *** The limits *)

Definition total (m : gmap Address txsList) : Z := foldl (fun n kv => n +u u64 (TxsList.Len kv.2)) 0 (range m).

(** [prque] without a callback: its cells are a heap of pairs with the largest
    priority on top ([pairs_Push] and [pairs_Pop] of [Prque]). *)
Definition higher (a b : Address * Z) : bool := b.2 <? a.2.

Definition lenOf (addr : Address) : M Z := p ← gets id; l ← lift (deref (pending p !! addr)); mret (TxsList.Len l).

(** Drop the last transaction of an offender. *)
Definition dropLast (addr : Address) : M unit :=
  p ← gets id;
  list ← lift (deref (pending p !! addr));
  '(list, caps) ← lift (TxsList.Cap list (TxsList.Len list - 1));
  caps ← lift (derefAll caps);
  setPending addr list;;
  forEach (fun tx => allRemove (TxHash tx);; setIfLower addr (Nonce tx)) caps;;
  pricedRemoved (Z.of_nat (length caps)).

(** Rounds over [victims] until the total is low enough or [last] is at
    [threshold]; each round takes a transaction from every victim. *)
Fixpoint equalize (fuel : nat) (victims : list Address) (last : Address) (threshold pend : Z) : M Z :=
  p ← gets id;
  if negb (GlobalSlots (config p) <? pend) then mret pend
  else
    n ← lenOf last;
    if negb (threshold <? n) then mret pend
    else
      match fuel with
      | O => noFuel
      | S fuel =>
          forEach dropLast victims;;
          equalize fuel victims last threshold (pend -u Z.of_nat (length victims))
      end.

(** The offenders, the last one first, and what is still pending. *)
Fixpoint spammers_loop (fuel : nat) (spammers : list (Address * Z)) (offenders : list Address) (pend : Z) : M (list Address * Z) :=
  p ← gets id;
  if negb (GlobalSlots (config p) <? pend) then mret (offenders, pend)
  else
    match spammers, fuel with
    | [], _ => mret (offenders, pend)
    | _ :: _, O => noFuel
    | _ :: _, S fuel =>
        '((offender, _), spammers) ← lift (or_panic (Pop higher spammers));
        match offenders with
        | [] => spammers_loop fuel spammers [offender] pend
        | last :: _ =>
            threshold ← lenOf offender;
            n ← lenOf last;
            pend ← equalize (Z.to_nat n) (rev offenders) last threshold pend;
            spammers_loop fuel spammers (offender :: offenders) pend
        end
    end.

Definition truncatePending : M unit :=
  p ← gets id;
  let pend := total (pending p) in
  if pend <=? GlobalSlots (config p) then mret tt
  else
    let spammers :=
      foldl (fun q kv => if negb (contains (plocals p) kv.1) && (AccountSlots (config p) <? u64 (TxsList.Len kv.2))
                         then Push higher q (kv.1, TxsList.Len kv.2) else q) [] (range (pending p)) in
    '(offenders, pend) ← spammers_loop (length spammers) spammers [] pend;
    match offenders with
    | [] => mret tt
    | last :: _ =>
        if GlobalSlots (config p) <? pend then
          n ← lenOf last;
          equalize (Z.to_nat n) (rev offenders) last (AccountSlots (config p)) pend;; mret tt
        else mret tt
    end.

(** [addressesByHeartbeat]; the zero time for an account without one. *)
Definition byHeartbeat (x y : Address * Z) : Prop := x.2 <= y.2.
#[export] Instance byHeartbeat_dec x y : Decision (byHeartbeat x y).
Proof. apply Z_le_dec. Defined.
Definition zeroTime : Z := 0.

(** The addresses from the end of the sorted slice. *)
Fixpoint truncateQueue_loop (addresses : list (Address * Z)) (drop : Z) : M unit :=
  match addresses with
  | [] => mret tt
  | (addr, _) :: addresses =>
      if negb (0 <? drop) then mret tt
      else
        p ← gets id;
        list ← lift (deref (queue p !! addr));
        let '(list, txs) := TxsList.Flatten list in
        setQueue addr list;;
        let size := u64 (TxsList.Len list) in
        if size <=? drop then
          forEach (fun tx => removeTx (TxHash tx) true) txs;;
          truncateQueue_loop addresses (drop -u size)
        else
          let victims := take (Z.to_nat drop) (rev txs) in
          forEach (fun tx => removeTx (TxHash tx) true) victims;;
          truncateQueue_loop addresses (drop -u Z.of_nat (length victims))
  end.

(** Accounts with the same heartbeat come in the order of the range, which is
    any. *)
Definition truncateQueue : M unit :=
  p ← gets id;
  let queued := total (queue p) in
  if queued <=? GlobalQueue (config p) then mret tt
  else
    let addresses := map (fun kv => (kv.1, default zeroTime (beats p !! kv.1)))
                         (filter (fun kv => contains (plocals p) kv.1 = false) (range (queue p))) in
    truncateQueue_loop (rev (merge_sort byHeartbeat addresses)) (queued -u GlobalQueue (config p)).

(** *** A new head *)

Definition txDifference (a b : list TxData) : list TxData :=
  let remove : gmap Hash unit := foldl (fun m tx => <[TxHash tx := tt]> m) ∅ b in
  filter (fun tx => remove !! TxHash tx = None) a.

Definition bNumber (b : Block) : Z := uval (Number (bHeader b)).
Definition bParent (b : Block) : Hash := ParentHash (bHeader b).

(** Down the chain of [b] while it is higher than [n], with the transactions on
    the way; [None] when a parent is missing. *)
Fixpoint descend (fuel : nat) (b : Block) (n : Z) (acc : list TxData) : outcome (option (Block * list TxData)) :=
  if negb (n <? bNumber b) then Ok (Some (b, acc))
  else
    match fuel with
    | O => Err "out of fuel"
    | S fuel =>
        match GetBlockByHash (bParent b) with
        | None => Ok None
        | Some parent => descend fuel parent n (acc ++ bTxs b)
        end
    end.

(** Down both chains to the block they share. *)
Fixpoint meet (fuel : nat) (rem addb : Block) (discarded included : list TxData) : outcome (option (list TxData * list TxData)) :=
  if decide (bHash rem = bHash addb) then Ok (Some (discarded, included))
  else
    match fuel with
    | O => Err "out of fuel"
    | S fuel =>
        match GetBlockByHash (bParent rem), GetBlockByHash (bParent addb) with
        | Some rem', Some add' => meet fuel rem' add' (discarded ++ bTxs rem) (included ++ bTxs addb)
        | _, _ => Ok None
        end
    end.

(** The transactions to put back; [None] when [reset] gives up.  The distance is
    computed in floating point, which is exact for the numbers of blocks below
    2^53. *)
Definition reorged (old new : Block) : outcome (option (list TxData)) :=
  if 64 <? Z.abs (u64 (bNumber old) - u64 (bNumber new)) then Ok (Some [])
  else
    r ← descend (Z.to_nat (bNumber old - bNumber new)) old (bNumber new) [];
    match r with
    | None => Ok None
    | Some (rem, discarded) =>
        r ← descend (Z.to_nat (bNumber new - bNumber rem)) new (bNumber rem) [];
        match r with
        | None => Ok None
        | Some (addb, included) =>
            r ← meet (S (Z.to_nat (bNumber rem))) rem addb discarded included;
            match r with
            | None => Ok None
            | Some (discarded, included) => Ok (Some (txDifference discarded included))
            end
        end
    end.

Definition reinjected (oldBlock newBlock : option Block) : outcome (option (list TxData)) :=
  match oldBlock with
  | None => Ok (Some [])
  | Some old =>
      new ← deref newBlock;
      if decide (bHash old = bParent new) then Ok (Some []) else reorged old new
  end.

Definition reset (oldBlock newBlock : option Block) : M unit :=
  reinject ← lift (reinjected oldBlock newBlock);
  match reinject with
  | None => mret tt
  | Some reinject =>
      let new := default CurrentBlock newBlock in
      modify (set_currentMaxGas (GasLimit (bHeader new)));;
      addTxsLocked reinject false;;
      let next := u64 (bNumber new + 1) in
      modify (fun p => set_istanbul (ChainConfig.IsIstanbul (chainconfig p) next) p);;
      modify (fun p => set_eip2718 (ChainConfig.IsBerlin (chainconfig p) next) p);;
      modify (fun p => set_eip1559 (ChainConfig.IsLondon (chainconfig p) next) p)
  end.

(** The nonces after the last pending transaction of every account. *)
Fixpoint highestNonces (addrs : list Address) (acc : gmap Address Z) : M (gmap Address Z) :=
  match addrs with
  | [] => mret acc
  | addr :: addrs =>
      p ← gets id;
      list ← lift (deref (pending p !! addr));
      '(list, tx) ← lift (TxsList.LastElement list);
      setPending addr list;;
      highestNonces addrs (<[addr := Nonce tx +u 1]> acc)
  end.

(** Announcements that a new head has made stale. *)
Definition staleEvents (evs : gmap Address txsSortedMap) : M (gmap Address txsSortedMap) :=
  let step (acc : M (gmap Address txsSortedMap)) (kv : Address * txsSortedMap) : M (gmap Address txsSortedMap) :=
    evs ← acc;
    n ← nonceGet kv.1;
    '(m, _) ← lift (SortedMap.Forward kv.2 n);
    mret (if SortedMap.Len m =? 0 then delete kv.1 evs else <[kv.1 := m]> evs) in
  foldl step (mret evs) (range evs).

Definition putEvent (tx : TxData) (evs : gmap Address txsSortedMap) : outcome (gmap Address txsSortedMap) :=
  addr ← deref (From tx);
  Ok (<[addr := SortedMap.Put (default SortedMap.newTxSortedMap (evs !! addr)) tx]> evs).

(** [reset] is the pair of heads of a reset request.  What is announced is
    returned. *)
Definition runReorg (request : option (option Block * option Block)) (dirtyAccounts : option accountSet)
    (evs : gmap Address txsSortedMap) : M (list TxData) :=
  '(evs, promoteAddrs) ←
    match request with
    | None => mret (evs, match dirtyAccounts with Some d => (flatten d).2 | None => [] end)
    | Some (old, new) =>
        reset old new;;
        evs ← staleEvents evs;
        p ← gets id;
        mret (evs, (range (queue p)).*1)
    end;
  promoted ← promoteExecutables promoteAddrs;
  match request with
  | None => mret tt
  | Some (_, new) =>
      demoteUnexecutables;;
      (match new with
       | None => mret tt
       | Some b => updates (fun p =>
           if ChainConfig.IsLondon (chainconfig p) (u64 (bNumber b) +u 1) then
             fee ← HeaderRules.CalcBaseFee (chainconfig p) (bHeader b);
             l ← SetBaseFee (all p) (uFromBig fee).1 (priced p);
             Ok (set_priced l p)
           else Ok p)
       end);;
      p ← gets id;
      nonces ← highestNonces (range (pending p)).*1 ∅;
      setAll nonces
  end;;
  truncatePending;;
  truncateQueue;;
  modify (set_changesSinceReorg 0);;
  evs ← lift (each putEvent promoted evs);
  mret (concat (map (fun kv => (SortedMap.Flatten kv.2).2) (range evs))).

(** *** Reading *)

(** [txs[:i]] at the first that does not reach the tip. *)
Fixpoint enoughTip (price : u256) (base : option u256) (txs : list TxData) : list TxData :=
  match txs with
  | [] => []
  | tx :: txs => if EffectiveGasTipIntCmp tx price base <? 0 then [] else tx :: enoughTip price base txs
  end.

(** Flattening fills the caches of the lists. *)
Definition flattenAll (m : gmap Address txsList) : gmap Address txsList := (fun l => (TxsList.Flatten l).1) <$> m.

Definition Pending (enforceTips : bool) : M (gmap Address (list TxData)) :=
  p ← gets id;
  modify (set_pending (flattenAll (pending p)));;
  mret (omap (fun l => match l with [] => None | _ => Some l end)
         (map_imap (fun addr list =>
            let txs := (TxsList.Flatten list).2 in
            Some (if enforceTips && negb (contains (plocals p) addr)
                  then enoughTip (gasPrice p) (baseFee (urgent (priced p))) txs else txs)) (pending p))).

Definition Content : M (gmap Address (list TxData) * gmap Address (list TxData)) :=
  p ← gets id;
  modify (fun p => set_queue (flattenAll (queue p)) (set_pending (flattenAll (pending p)) p));;
  mret ((fun l => (TxsList.Flatten l).2) <$> pending p, (fun l => (TxsList.Flatten l).2) <$> queue p).

Definition Has (p : TxsPool) (h : Hash) : bool := bool_decide (is_Some (Get (all p) h)).
Definition GetTx (p : TxsPool) (h : Hash) : option TxData := Get (all p) h.
Definition GetTransaction : M (list TxData) :=
  pending ← Pending false;
  mret (concat (range pending).*2).
(** [TxsPool.Nonce]. *)
Definition poolNonce (addr : Address) : M Z := nonceGet addr.
Definition Stats (p : TxsPool) : Z * Z * Z * Z :=
  (Z.of_nat (size (pending p)), foldl (fun n kv => n + TxsList.Len kv.2) 0 (range (pending p)),
   Z.of_nat (size (queue p)), foldl (fun n kv => n + TxsList.Len kv.2) 0 (range (queue p))).

(** *** Start *)

Definition emptyPool (cfg : ChainConfig.ChainConfig) (s : ReadState) : TxsPool := {|
  config := DefaultTxPoolConfig; chainconfig := cfg; currentState := s; pendingNonces := ∅; currentMaxGas := 0;
  istanbul := false; eip2718 := false; eip1559 := false; shanghai := false;
  plocals := newAccountSet []; pending := ∅; queue := ∅; beats := ∅; all := newTxLookup; priced := newTxPricedList;
  gasPrice := uSetUint64 (PriceLimit DefaultTxPoolConfig); changesSinceReorg := 0; tick := 0; events := [] |}.
Definition NewTxsPool (cfg : ChainConfig.ChainConfig) (s : ReadState) : outcome TxsPool :=
  '(p, _) ← reset None (Some CurrentBlock) (emptyPool cfg s); Ok p.
End Methods.
End TxPool.
