(* ===== verification/TxTakes.v ===== *)
(** * TxTakes: what the operations of a list take out of it

    The pool moves transactions between lists and its lookup.  [takes l l' r]
    says that [l'] is [l] without the transactions of [r]; every operation of a
    list of the pool but [Add] is described by it. *)

From S2P Require Import Prelude Uint256 ChainConfig StateModel StateTransition Transaction Heap TxSortedMap TxList TxLookup TxPool.
Import Transaction.
Import TxsList.

Module TxTakes.

Section Takes.
Context `{U : Uint256} `{MR : MapRange}.
Implicit Types (l : txsList) (r : list TxData).

Record takes l l' r : Prop := {
  tk_wf : wf l';
  tk_strict : strict l' = strict l;
  tk_contents : contents l' = SortedMap.without r (contents l);
  tk_nodup : NoDup r;
  tk_in : forall tx, tx ∈ r -> contents l !! Nonce tx = Some tx
}.

Lemma sorted_in l tx : wf l -> tx ∈ SortedMap.sorted (contents l) <-> contents l !! Nonce tx = Some tx.
Proof. intros Hwf. apply SortedMap.elem_of_sorted. by apply lw_keyed. Qed.

Lemma takes_intro l m r : wf l -> SortedMap.wf m -> SortedMap.items m = SortedMap.without r (contents l) ->
  NoDup r -> (forall tx, tx ∈ r -> tx ∈ SortedMap.sorted (contents l)) -> takes l (with_txs m l) r.
Proof.
  intros Hwf Hm Hi Hnd Hin. split; [by eapply with_txs_wf|done|done|done|]. intros tx Htx. by apply sorted_in, Hin.
Qed.

Lemma sorted_nodup l : wf l -> NoDup (SortedMap.sorted (contents l)).
Proof. intros Hwf. by apply SortedMap.NoDup_sorted, lw_keyed. Qed.

(** A part of the sorted contents. *)
Lemma takes_part l m r rest : wf l -> SortedMap.wf m -> SortedMap.items m = SortedMap.without r (contents l) ->
  SortedMap.sorted (contents l) ≡ₚ r ++ rest -> takes l (with_txs m l) r.
Proof.
  intros Hwf Hm Hi Hp. pose proof (sorted_nodup l Hwf) as Hnd. rewrite Hp in Hnd. apply takes_intro; [done..| |].
  - by apply NoDup_app in Hnd as [? _].
  - intros tx Htx. rewrite Hp. apply elem_of_app. by left.
Qed.

Lemma takes_none l m : wf l -> SortedMap.wf m -> SortedMap.items m = contents l -> takes l (with_txs m l) [].
Proof. intros Hwf Hm Hi. by apply (takes_part _ _ _ (SortedMap.sorted (contents l))). Qed.

Lemma takes_refl l : wf l -> takes l l [].
Proof. intros Hwf. split; [done|done|done|constructor|by intros tx ?%elem_of_nil]. Qed.

Lemma derefAll_some r : TxPool.derefAll (Some <$> r) = Ok r.
Proof.
  unfold TxPool.derefAll. induction r as [|x r IH]; [done|]. cbn. cbn in IH. by rewrite IH.
Qed.

Lemma Forward_takes l t : wf l -> exists l' r, Forward l t = Ok (l', Some <$> r) /\ takes l l' r.
Proof.
  intros Hwf. destruct (SortedMap.Forward_spec (txs l) t (lw_map l Hwf)) as (m & E & Hm & Hi). unfold Forward. rewrite E.
  destruct (SortedMap.below_prefix t _ (SortedMap.sorted_sorted (contents l))) as [b Hb].
  eexists _, _. split; [done|]. apply (takes_part _ _ _ b); [done..|]. by rewrite Hb at 1.
Qed.

Lemma Ready_takes l s : wf l -> exists l' r, Ready l s = Ok (l', Some <$> r) /\ takes l l' r.
Proof.
  intros Hwf. destruct (SortedMap.Ready_spec (txs l) s (lw_map l Hwf)) as (m & E & Hm & Hi). unfold Ready. rewrite E.
  destruct (ready_run_prefix (SortedMap.sorted (contents l)) s) as [b Hb].
  eexists _, _. split; [done|]. apply (takes_part _ _ _ b); [done..|]. by rewrite Hb at 1.
Qed.

(** What is above the threshold goes, the highest nonce first. *)
Lemma Cap_takes l t : wf l -> 0 <= t ->
  exists l' r, Cap l t = Ok (l', Some <$> r) /\ takes l l' r /\ r = reverse (drop (Z.to_nat t) (SortedMap.sorted (contents l))).
Proof.
  intros Hwf Ht. pose proof (SortedMap.Cap_spec (txs l) t (lw_map l Hwf)) as H. unfold Cap. fold (contents l) in *.
  pose proof (SortedMap.length_sorted (contents l)) as Hl. destruct (Z.leb_spec (Z.of_nat (size (contents l))) t).
  - rewrite H. exists (with_txs (txs l) l), []. split; [done|]. split; [apply takes_none; [done|apply Hwf|done]|].
    by rewrite drop_ge by lia.
  - rewrite (proj2 (Z.ltb_ge t 0)) in H by done. destruct H as (m & E & Hm & Hi). rewrite E. eexists _, _. split; [done|]. split; [|done].
    apply (takes_part _ _ _ (take (Z.to_nat t) (SortedMap.sorted (contents l)))); [done|done| |].
    + rewrite Hi. apply SortedMap.without_perm. by rewrite reverse_Permutation.
    + rewrite reverse_Permutation, Permutation_app_comm. by rewrite take_drop.
Qed.

Lemma Filter_takes l c g : wf l -> takes l (Filter l c g).1 ((Filter l c g).2.1 ++ (Filter l c g).2.2).
Proof.
  intros Hwf. pose proof (Filter_filtered l c g Hwf) as F. destruct (Filter l c g) as [l' [d i]]. cbn [fst snd] in *. destruct F as [Hwf' Hs Hd Hi Hc _].
  assert (forall tx, tx ∈ d ++ i -> tx ∈ SortedMap.sorted (contents l)) as Hin.
  { intros tx [H|H]%elem_of_app; [rewrite Hd in H|rewrite Hi in H; destruct (strict l); [|by apply elem_of_nil in H]]; by apply list_elem_of_filter in H as [_ ?]. }
  split; [done|done|done| |intros tx Htx; by apply sorted_in, Hin].
  pose proof (sorted_nodup l Hwf) as Hnd. apply NoDup_app. split; [rewrite Hd; by apply NoDup_filter|]. split.
  - intros tx H1 H2. rewrite Hd in H1. apply list_elem_of_filter in H1 as [H1 _]. rewrite Hi in H2. destruct (strict l); [|by apply elem_of_nil in H2].
    apply list_elem_of_filter in H2 as [[H2 _] _]. congruence.
  - rewrite Hi. destruct (strict l); [by apply NoDup_filter|constructor].
Qed.

(** A list that is not strict gives up nothing with what exceeds the limits. *)
Lemma Filter_lax l c g : wf l -> strict l = false -> (Filter l c g).2.2 = [].
Proof.
  intros Hwf Hs. pose proof (fl_invalids _ _ _ _ _ _ (Filter_filtered l c g Hwf)) as Hi. rewrite Hs in Hi. by apply Permutation_nil_r in Hi.
Qed.

Lemma Remove_absent l tx : wf l -> contents l !! Nonce tx = None -> exists l', Remove l tx = Ok (l', (false, [])) /\ takes l l' [].
Proof.
  intros Hwf Hn. unfold Remove. destruct (SortedMap.Remove_spec (txs l) (Nonce tx) (lw_map l Hwf)) as (m & -> & Hm & Hi).
  fold (contents l) in *. rewrite Hn. cbn. eexists. split; [done|]. apply takes_none; [done|done|]. rewrite Hi. by apply delete_id.
Qed.

Lemma Remove_takes l tx : wf l -> contents l !! Nonce tx = Some tx ->
  exists l' inv, Remove l tx = Ok (l', (true, inv)) /\ takes l l' (tx :: inv) /\ (strict l = false -> inv = []).
Proof.
  intros Hwf Hx. unfold Remove. destruct (SortedMap.Remove_spec (txs l) (Nonce tx) (lw_map l Hwf)) as (m & -> & Hm & Hi).
  fold (contents l) in *. rewrite Hx, bool_decide_true by (by eexists). cbn [mbind outcome_bind negb with_txs strict txs].
  assert (SortedMap.items m = SortedMap.without [tx] (contents l)) as Hi1 by done.
  assert (tx ∈ SortedMap.sorted (contents l)) as Htx by (by apply sorted_in).
  destruct (strict l) eqn:Es.
  - destruct (SortedMap.Filter_spec (fun t => Nonce tx <? Nonce t) m Hm) as (m' & inv & -> & Hm' & Hinv & Hi').
    eexists _, inv. split; [done|]. split; [|done]. pose proof (lw_keyed l Hwf) as Hk.
    assert (forall t, t ∈ inv -> Nonce tx < Nonce t /\ t ∈ SortedMap.sorted (contents l)) as Hin.
    { intros t Ht. rewrite Hinv in Ht. apply list_elem_of_filter in Ht as [Hlt Ht]. apply Z.ltb_lt in Hlt. split; [done|].
      rewrite Hi1 in Ht. by apply elem_of_without in Ht as [? _]. }
    apply (takes_intro l m'); [done|done| | |].
    + rewrite Hi', Hi1. rewrite <- SortedMap.without_app. apply SortedMap.without_perm. by rewrite Permutation_app_comm.
    + apply NoDup_cons. split; [intros Ht%Hin; lia|]. rewrite Hinv. apply NoDup_filter, SortedMap.NoDup_sorted. by rewrite Hi1; apply SortedMap.without_keyed.
    + intros t [->|Ht]%elem_of_cons; [done|]. by apply Hin.
  - eexists _, []. split; [done|]. split; [|done]. apply takes_intro; [done|done|done|apply NoDup_singleton|]. by intros t ->%list_elem_of_singleton.
Qed.

Lemma Flatten_takes l : wf l -> exists l', Flatten l = (l', SortedMap.sorted (contents l)) /\ takes l l' [].
Proof.
  intros Hwf. destruct (SortedMap.flatten_spec (txs l) (lw_map l Hwf)) as (m & E & Hm & Hi). unfold Flatten, SortedMap.Flatten. rewrite E.
  eexists. split; [done|]. by apply takes_none.
Qed.

Lemma LastElement_takes l : wf l -> contents l <> ∅ -> exists l' tx, LastElement l = Ok (l', tx) /\ takes l l' [] /\ last (SortedMap.sorted (contents l)) = Some tx.
Proof.
  intros Hwf Hne. destruct (SortedMap.flatten_spec (txs l) (lw_map l Hwf)) as (m & E & Hm & Hi). unfold LastElement, SortedMap.LastElement. rewrite E. fold (contents l).
  destruct (last (SortedMap.sorted (contents l))) as [tx|] eqn:El.
  - cbn. eexists _, _. split; [done|]. split; [by apply takes_none|done].
  - apply last_None in El. pose proof (SortedMap.length_sorted (contents l)) as Hl. rewrite El in Hl. cbn in Hl. symmetry in Hl. by apply map_size_empty_inv in Hl.
Qed.

Lemma Empty_spec l : Empty l = bool_decide (contents l = ∅).
Proof.
  unfold Empty, Len, SortedMap.Len. fold (contents l). case_bool_decide as Hc.
  - by rewrite Hc, map_size_empty.
  - apply Z.eqb_neq. intros Hs. apply Hc, map_size_empty_inv. lia.
Qed.

(** A transaction goes where there is none of its nonce. *)
Lemma Add_fresh l tx bump : wf l -> in_u64 (Nonce tx) -> contents l !! Nonce tx = None ->
  exists l', Add l tx bump = (l', (true, None)) /\ wf l' /\ strict l' = strict l /\ contents l' = <[Nonce tx := tx]> (contents l).
Proof.
  intros Hwf Hu Hn. pose proof (Add_wf l tx bump Hwf Hu) as Hw. unfold Add in *. unfold SortedMap.Get in *. fold (contents l) in *. rewrite Hn in *.
  eexists. split; [done|]. done.
Qed.

(** Over one of its nonce it replaces it or changes nothing. *)
Lemma Add_over l tx bump old : wf l -> contents l !! Nonce tx = Some old ->
  (Add l tx bump = (l, (false, None))) \/
  (exists l', Add l tx bump = (l', (true, Some old)) /\ wf l' /\ strict l' = strict l /\ contents l' = <[Nonce tx := tx]> (contents l)).
Proof.
  intros Hwf Ho. pose proof (lw_keyed l Hwf _ _ Ho) as [_ Hu]. pose proof (Add_wf l tx bump Hwf Hu) as Hw. unfold Add in *. unfold SortedMap.Get in *. fold (contents l) in *. rewrite Ho in *.
  destruct (underpriced old tx bump); [by left|]. right. eexists. split; [done|]. done.
Qed.
End Takes.
End TxTakes.
