(* ===== verification/TxPriced.v ===== *)
(** * TxPriced: the lookup and the priced list of the pool

    The lookup counts what it holds and keeps a transaction in one of its two
    maps ([lookup_ok]).  The two heaps of the priced list hold the hash of every
    remote transaction ([covered]); the operations of the priced list always
    return and keep it so. *)

From S2P Require Import Prelude Uint256 ChainConfig StateModel StateTransition Transaction Heap TxLookup.
Import Transaction.
Import TxLookup.

Module TxPriced.

Section Facts.
Context `{U : Uint256} `{MR : MapRange} `{H : !TxHasher}.
Implicit Types (A : txLookup) (L : txPricedList) (h : Hash) (tx : TxData) (D : list Hash).

(** ** The lookup *)

Record lookup_ok A : Prop := {
  lk_disjoint : forall h tx, locals A !! h = Some tx -> remotes A !! h = None;
  lk_hash : forall h tx, Get A h = Some tx -> TxHash tx = h;
  lk_slots : slots A = Count A
}.

Lemma numSlots_one tx : numSlots tx = 1.
Proof. reflexivity. Qed.

Lemma newTxLookup_ok : lookup_ok newTxLookup.
Proof. split; [done|done|reflexivity]. Qed.

Lemma Get_Remove A h h' : Get (Remove h A) h' = if decide (h' = h) then None else Get A h'.
Proof.
  unfold Remove. destruct (Get A h) as [tx|] eqn:E.
  - unfold Get. cbn [locals remotes]. case_decide as Hh; [subst; by rewrite !lookup_delete_eq|]. by rewrite !lookup_delete_ne by done.
  - case_decide; by subst.
Qed.

Lemma remotes_Remove A h h' : remotes (Remove h A) !! h' = if decide (h' = h) then None else remotes A !! h'.
Proof.
  unfold Remove. destruct (Get A h) as [tx|] eqn:E.
  - cbn [remotes]. case_decide as Hh; [subst; by rewrite lookup_delete_eq|]. by rewrite lookup_delete_ne by done.
  - case_decide as Hh; [subst|done]. unfold Get in E. by destruct (locals A !! h).
Qed.

Lemma Remove_lookup_ok A h : lookup_ok A -> lookup_ok (Remove h A).
Proof.
  intros [Hd Hh Hs]. split.
  - intros k tx. rewrite remotes_Remove. unfold Remove. destruct (Get A h) eqn:E; cbn [locals].
    + rewrite lookup_delete_Some. intros [Hne Hk]. rewrite decide_False by done. by eapply Hd.
    + intros Hk. case_decide; [done|]. by eapply Hd.
  - intros k tx. rewrite Get_Remove. case_decide; [done|]. apply Hh.
  - unfold Remove. destruct (Get A h) as [tx|] eqn:E; [|done]. cbn [slots]. unfold Count in *. cbn [locals remotes]. rewrite Hs, numSlots_one.
    unfold Get in E. destruct (locals A !! h) as [t|] eqn:El.
    + rewrite (delete_id (remotes A)) by (by eapply Hd). rewrite map_size_delete_Some by done.
      pose proof (map_size_ne_0_lookup_2 (locals A) h) as Hz. specialize (Hz ltac:(by rewrite El)). lia.
    + rewrite (delete_id (locals A)) by done. rewrite map_size_delete_Some by done.
      pose proof (map_size_ne_0_lookup_2 (remotes A) h) as Hz. specialize (Hz ltac:(by rewrite E)). lia.
Qed.

Lemma Get_None A h : Get A h = None <-> locals A !! h = None /\ remotes A !! h = None.
Proof. unfold Get. destruct (locals A !! h); naive_solver. Qed.

Lemma Get_Add A tx local h : Get A (TxHash tx) = None -> Get (Add tx local A) h = if decide (h = TxHash tx) then Some tx else Get A h.
Proof.
  intros [Hl Hr]%Get_None. unfold Add, Get. destruct local; cbn [locals remotes]; case_decide as Hh; subst.
  - by rewrite lookup_insert_eq.
  - by rewrite lookup_insert_ne by done.
  - by rewrite Hl, lookup_insert_eq.
  - by rewrite lookup_insert_ne by done.
Qed.

Lemma Add_lookup_ok A tx local : Get A (TxHash tx) = None -> lookup_ok A -> lookup_ok (Add tx local A).
Proof.
  intros Hn [Hd Hh Hs]. pose proof Hn as [Hl Hr]%Get_None. split.
  - intros h t. unfold Add. destruct local; cbn [locals remotes].
    + intros [[<- ->]|[Hne Hk]]%lookup_insert_Some; [done|]. by eapply Hd.
    + intros Hk. rewrite lookup_insert_ne by (intros <-; congruence). by eapply Hd.
  - intros h t. rewrite Get_Add by done. case_decide; [by intros [= ->]|apply Hh].
  - unfold Add, Count in *. destruct local; cbn [slots locals remotes]; rewrite map_size_insert_None, numSlots_one by done; lia.
Qed.

(** *** Remote transactions of local accounts *)

(** One transaction moves from the remote map to the local one. *)
Definition move h tx A : txLookup := {| slots := slots A; locals := <[h := tx]> (locals A); remotes := delete h (remotes A) |}.

Lemma move_Get A h tx k : lookup_ok A -> remotes A !! h = Some tx -> Get (move h tx A) k = Get A k.
Proof.
  intros [Hd _ _] Hr. unfold Get, move. cbn [locals remotes]. destruct (decide (k = h)) as [->|Hne].
  - rewrite lookup_insert_eq. destruct (locals A !! h) eqn:El; [by rewrite (Hd _ _ El) in Hr|done].
  - by rewrite lookup_insert_ne, lookup_delete_ne by done.
Qed.

Lemma move_ok A h tx : lookup_ok A -> remotes A !! h = Some tx -> lookup_ok (move h tx A).
Proof.
  intros Hok Hr. pose proof Hok as [Hd Hh Hs]. assert (locals A !! h = None) as Hl by (destruct (locals A !! h) eqn:El; [by rewrite (Hd _ _ El) in Hr|done]). split.
  - intros k t. cbn [locals remotes move]. intros [[<- ->]|[Hne Hk]]%lookup_insert_Some; [apply lookup_delete_eq|]. rewrite lookup_delete_ne by done. by eapply Hd.
  - intros k t. rewrite move_Get by done. apply Hh.
  - unfold move, Count in *. cbn [slots locals remotes]. rewrite map_size_insert_None, map_size_delete_Some by done.
    pose proof (map_size_ne_0_lookup_2 (remotes A) h ltac:(by rewrite Hr)). lia.
Qed.

Lemma RemoteToLocals_spec acc A : lookup_ok A -> (forall h tx, remotes A !! h = Some tx -> is_Some (From tx)) ->
  exists A' n, RemoteToLocals acc A = Ok (A', n) /\ 0 <= n /\ lookup_ok A' /\ (forall h, Get A' h = Get A h) /\
    forall h tx, remotes A' !! h = Some tx <-> remotes A !! h = Some tx /\ exists a, From tx = Some a /\ contains acc a = false.
Proof.
  intros Hok Hfrom. unfold RemoteToLocals.
  assert (forall l B n, lookup_ok B -> 0 <= n -> NoDup l.*1 -> (forall h tx, (h, tx) ∈ l -> remotes B !! h = Some tx /\ is_Some (From tx)) ->
    exists B' n', each (fun kv '(t, migrated) => local ← containsTx acc kv.2;
      Ok (if local : bool then ({| slots := slots t; locals := <[kv.1 := kv.2]> (locals t); remotes := delete kv.1 (remotes t) |}, migrated + 1)
          else (t, migrated))) l (B, n) = Ok (B', n') /\ 0 <= n' /\ lookup_ok B' /\ (forall h, Get B' h = Get B h) /\
    forall h tx, remotes B' !! h = Some tx <-> remotes B !! h = Some tx /\ ((h, tx) ∈ l -> exists a, From tx = Some a /\ contains acc a = false)) as Hg.
  { induction l as [|[h tx] l IH]; intros B n HB Hn Hnd Hl; cbn [each].
    { exists B, n. split_and!; [done|done|done|done|]. intros k t. split; [intros; split; [done|by intros ?%elem_of_nil]|tauto]. }
    apply NoDup_cons in Hnd as [Hni Hnd]. destruct (Hl h tx) as [Hr [a Ha]]; [by left|]. unfold containsTx. cbn [fst snd]. rewrite Ha.
    cbn [deref or_panic mbind outcome_bind]. destruct (contains acc a) eqn:Ec.
    - destruct (IH (move h tx B) (n + 1)) as (B' & n' & E & Hn' & HB' & HG & HR); [by apply move_ok|lia|done| |].
      { intros k t Hk. cbn [move remotes]. rewrite lookup_delete_ne; [by apply Hl; right|]. intros <-. apply Hni. by apply (list_elem_of_fmap_2 fst _ (h, t)). }
      exists B', n'. split_and!; [exact E|done|done|intros k; rewrite HG; by apply move_Get|]. intros k t. rewrite HR. cbn [move remotes].
      rewrite lookup_delete_Some, elem_of_cons. split.
      + intros [[Hne Hk] Hi]. split; [done|]. intros [[=]|Hi']; [congruence|by apply Hi].
      + intros [Hk Hi]. split; [|by intros; apply Hi; right]. split; [|done]. intros <-. rewrite Hr in Hk. injection Hk as <-.
        destruct Hi as (b & Hb & Hc); [by left|]. congruence.
    - destruct (IH B n) as (B' & n' & E & Hn' & HB' & HG & HR); [done|done|done|by intros; apply Hl; right|].
      exists B', n'. split_and!; [exact E|done|done|done|]. intros k t. rewrite HR, elem_of_cons. split.
      + intros [Hk Hi]. split; [done|]. intros [[= -> ->]|Hi']; [eauto|by apply Hi].
      + intros [Hk Hi]. split; [done|]. by intros; apply Hi; right. }
  destruct (Hg (range (remotes A)) A 0) as (B' & n' & E & Hn & HB & HG & HR); [done|done|apply NoDup_range_fst| |].
  { intros h tx Hin%elem_of_range. split; [done|by eapply Hfrom]. }
  exists B', n'. split_and!; [done..|]. intros h tx. rewrite HR. split; intros [Hk Hi]; (split; [done|]); [apply Hi; by apply elem_of_range|done].
Qed.

(** ** The priced list *)

Definition heaps L : list TxData := plist (urgent L) ++ plist (floating L).

(** Every remote transaction is in a heap, but those of [D]. *)
Definition covered D A L : Prop := forall h, is_Some (remotes A !! h) -> h ∈ D \/ h ∈ TxHash <$> heaps L.

Lemma Range_remotes A : Range (fun _ tx _ found => (found ++ [tx], true)) false true A [] = (range (remotes A)).*2.
Proof.
  unfold Range. enough (forall l acc, rangeWhile (fun h tx (found : list TxData) => (found ++ [tx], true)) l acc = (acc ++ l.*2, true)) as Hg by (by rewrite Hg).
  induction l as [|[h tx] l IH]; intros acc; cbn [rangeWhile]; [by rewrite app_nil_r|]. rewrite IH, <- app_assoc. done.
Qed.

Lemma hPush_perm tx (q : priceHeap) : plist (hPush tx q) ≡ₚ tx :: plist q.
Proof. apply Push_permutes. Qed.

Lemma hPop_spec (q : priceHeap) tx l : plist q = tx :: l -> exists q', hPop q = Ok (tx, q') /\ plist q' ≡ₚ l.
Proof. intros E. unfold hPop. rewrite E. destruct (Pop_permutes (pless (baseFee q)) tx l) as (l' & -> & Hp). by eexists. Qed.

Lemma popN_spec n (q : priceHeap) : (n <= length (plist q))%nat -> exists l q', popN n q = Ok (l, q') /\ plist q ≡ₚ l ++ plist q'.
Proof.
  revert q. induction n as [|n IH]; intros q Hn; cbn [popN]; [by exists [], q|].
  destruct (plist q) as [|tx l] eqn:E; cbn [length] in Hn; [lia|]. destruct (hPop_spec q tx l E) as (q' & -> & Hp). cbn [mbind outcome_bind].
  destruct (IH q') as (r & q'' & -> & Hp'); [rewrite Hp; lia|]. cbn [mbind outcome_bind].
  exists (tx :: r), q''. split; [done|]. rewrite <- Hp, Hp'. done.
Qed.

(** The heaps are rebuilt from the remote transactions. *)
Lemma Reheap_spec A L : exists L', Reheap A L = Ok L' /\ heaps L' ≡ₚ (range (remotes A)).*2.
Proof.
  unfold Reheap. rewrite Range_remotes. set (rs := (range (remotes A)).*2). set (u := {| baseFee := _; plist := Init _ rs |}).
  assert (plist u ≡ₚ rs) as Hu by apply Init_permutes. set (n := Z.to_nat _).
  assert (n <= length (plist u))%nat as Hn.
  { unfold n, hLen, floatingRatio, urgentRatio. pose proof (Z.div_le_upper_bound (Z.of_nat (length (plist u)) * 1) (4 + 1) (Z.of_nat (length (plist u))) ltac:(lia) ltac:(lia)). lia. }
  destruct (popN_spec n u Hn) as (f & u' & E & Hp). rewrite E. cbn [mbind outcome_bind]. eexists. split; [done|].
  unfold heaps. cbn [urgent floating plist]. rewrite Init_permutes, Permutation_app_comm, <- Hp. done.
Qed.

Lemma remotes_hash A h tx : lookup_ok A -> remotes A !! h = Some tx -> TxHash tx = h.
Proof. intros [Hd Hh _] Hr. apply Hh. unfold Get. destruct (locals A !! h) eqn:E; [by rewrite (Hd _ _ E) in Hr|done]. Qed.

Lemma Reheap_covered D A L : lookup_ok A -> exists L', Reheap A L = Ok L' /\ covered D A L'.
Proof.
  intros Hok. destruct (Reheap_spec A L) as (L' & E & Hp). exists L'. split; [done|]. intros h [tx Hh]. right. rewrite Hp.
  rewrite <- (remotes_hash A h tx Hok Hh). apply list_elem_of_fmap_2. by apply (list_elem_of_fmap_2 snd _ (h, tx)), elem_of_range.
Qed.

Lemma Removed_covered D A n L : lookup_ok A -> covered D A L -> exists L', Removed A n L = Ok L' /\ covered D A L'.
Proof. intros Hok Hc. unfold Removed. case_match; [by eexists|]. by apply Reheap_covered. Qed.

Lemma SetBaseFee_covered D A fee L : lookup_ok A -> exists L', SetBaseFee A fee L = Ok L' /\ covered D A L'.
Proof. apply Reheap_covered. Qed.

Lemma covered_perm D A L L' : heaps L ≡ₚ heaps L' -> covered D A L -> covered D A L'.
Proof. intros Hp Hc h Hh. rewrite <- Hp. by apply Hc. Qed.

(** What leaves the heaps is not remote any more, or goes to [D]. *)
Lemma covered_pop D A L L' tx : heaps L ≡ₚ tx :: heaps L' -> covered D A L ->
  remotes A !! TxHash tx = None \/ TxHash tx ∈ D -> covered D A L'.
Proof.
  intros Hp Hc Ht h Hh. destruct (Hc h Hh) as [?|Hin]; [by left|]. rewrite Hp in Hin. cbn in Hin. apply elem_of_cons in Hin as [->|?]; [|by right].
  destruct Ht as [Ht|?]; [|by left]. rewrite Ht in Hh. by destruct Hh.
Qed.

Lemma covered_weaken D D' A L : (forall h, h ∈ D -> is_Some (remotes A !! h) -> h ∈ D') -> covered D A L -> covered D' A L.
Proof. intros Hs Hc h Hh. destruct (Hc h Hh); auto. Qed.

Lemma covered_lookup D A A' L : (forall h, is_Some (remotes A' !! h) -> is_Some (remotes A !! h)) -> covered D A L -> covered D A' L.
Proof. intros Hs Hc h Hh. by apply Hc, Hs. Qed.

(** Putting a transaction that was added to the lookup. *)
Lemma PPut_covered D A tx local L : covered D A L -> covered D (Add tx local A) (PPut tx local L).
Proof.
  intros Hc. unfold Add, PPut. destruct local; cbn [remotes]; [exact Hc|]. intros h Hh. unfold heaps. cbn [urgent floating]. rewrite hPush_perm. cbn.
  destruct (decide (h = TxHash tx)) as [->|Hne]; [right; by left|]. cbn [remotes] in Hh. rewrite lookup_insert_ne in Hh by done.
  destruct (Hc h Hh); [by left|]. right. by right.
Qed.

(** *** Looking for what to drop *)

Lemma dropStale_spec fuel A (q : priceHeap) n : (length (plist q) <= fuel)%nat ->
  exists q' n' r, dropStale fuel A q n = Ok (q', n') /\ plist q ≡ₚ r ++ plist q' /\ forall tx, tx ∈ r -> remotes A !! TxHash tx = None.
Proof.
  revert q n. induction fuel as [|fuel IH]; intros q n Hf; cbn [dropStale]; destruct (plist q) as [|tx l] eqn:E; cbn [length] in Hf; try lia;
    try (exists q, n, []; split_and!; [done|by rewrite E|by intros ? ?%elem_of_nil]).
  unfold GetRemote. destruct (remotes A !! TxHash tx) eqn:Er.
  { exists q, n, []. split_and!; [done|by rewrite E|by intros ? ?%elem_of_nil]. }
  destruct (hPop_spec q tx l E) as (q' & -> & Hp). cbn [mbind outcome_bind]. destruct (IH q' (n - 1)) as (q'' & n' & r & -> & Hp' & Hr); [rewrite Hp; lia|].
  exists q'', n', (tx :: r). split_and!; [done|by rewrite <- Hp, Hp'|]. intros t [->|?]%elem_of_cons; auto.
Qed.

Lemma covered_drop D A L L' r : heaps L ≡ₚ r ++ heaps L' -> covered D A L -> (forall tx, tx ∈ r -> remotes A !! TxHash tx = None) -> covered D A L'.
Proof.
  intros Hp Hc Hr h Hh. destruct (Hc h Hh) as [?|Hin]; [by left|]. rewrite Hp, fmap_app, elem_of_app in Hin. destruct Hin as [Hin|?]; [|by right].
  apply list_elem_of_fmap in Hin as (tx & -> & Htx%Hr). rewrite Htx in Hh. by destruct Hh.
Qed.

Lemma Underpriced_covered D A tx L : covered D A L -> exists L' b, Underpriced A tx L = Ok (L', b) /\ covered D A L'.
Proof.
  intros Hc. unfold Underpriced, underpricedFor.
  destruct (dropStale_spec (length (plist (urgent L))) A (urgent L) (stales L)) as (u & s & r & -> & Hp & Hr); [lia|]. cbn [mbind outcome_bind floating stales].
  assert (forall s, covered D A {| stales := s; urgent := u; floating := floating L |}) as Hc1.
  { intros s'. apply (covered_drop D A L _ r); [|done|done]. unfold heaps. cbn [urgent floating]. by rewrite Hp, app_assoc. }
  case_match; [by eexists _, _|].
  destruct (dropStale_spec (length (plist (floating L))) A (floating L) s) as (f & s' & r' & -> & Hp' & Hr'); [lia|]. cbn [mbind outcome_bind].
  assert (covered D A {| stales := s'; urgent := u; floating := f |}) as Hc2.
  { eapply (covered_drop D A _ _ r'); [|exact (Hc1 s)|done]. unfold heaps. cbn [urgent floating]. rewrite Hp', !app_assoc. by rewrite (Permutation_app_comm (plist u) r'). }
  repeat case_match; by eexists _, _.
Qed.

(** [d] are the transactions of a run of the loop. *)
Record discarded A L L' (d : list TxData) : Prop := {
  dc_remote : forall tx, tx ∈ d -> is_Some (remotes A !! TxHash tx);
  dc_covered : forall D, covered D A L -> covered (D ++ (TxHash <$> d)) A L'
}.

Lemma discarded_step A L L1 L2 d : (forall D, covered D A L -> covered D A L1) -> discarded A L1 L2 d -> discarded A L L2 d.
Proof. intros Hc [Hr Hd]. split; [done|]. intros D HD. by apply Hd, Hc. Qed.

Lemma discarded_cons A L L1 L2 tx d : is_Some (remotes A !! TxHash tx) -> heaps L ≡ₚ tx :: heaps L1 -> discarded A L1 L2 d -> discarded A L L2 (tx :: d).
Proof.
  intros Ht Hp [Hr Hd]. split; [by intros t [->|?]%elem_of_cons; auto|]. intros D HD. cbn. rewrite cons_middle, app_assoc. apply Hd.
  apply (covered_pop _ A L _ tx); [done| |right; set_solver]. eapply covered_weaken; [|exact HD]. set_solver.
Qed.

Lemma Discard_loop_spec fuel A n drop L : (2 * length (plist (urgent L)) + length (plist (floating L)) < fuel)%nat ->
  exists L' n' d, Discard_loop fuel A n drop L = Ok (L', n', drop ++ d) /\ discarded A L L' d.
Proof.
  revert n drop L. induction fuel as [|fuel IH]; intros n drop L Hf; [lia|]. cbn [Discard_loop].
  assert (exists d, drop = drop ++ d /\ discarded A L L d) as (d0 & E0 & Hd0).
  { exists []. split; [by rewrite app_nil_r|]. split; [by intros ? ?%elem_of_nil|]. intros D HD. by rewrite app_nil_r. }
  case_match; [by exists L, n, d0; rewrite <- E0|]. unfold urgentRatio, floatingRatio, hLen, GetRemote. destruct (_ || _) eqn:Eu.
  - destruct (plist (urgent L)) as [|tx l] eqn:El; [cbn [length] in Eu; apply orb_true_iff in Eu as [Eu%Z.ltb_lt|Eu]; [lia|done]|]. cbn [length] in Hf.
    destruct (hPop_spec _ _ _ El) as (u & -> & Hp). cbn [mbind outcome_bind]. pose proof (Permutation_length Hp) as Hlu.
    destruct (remotes A !! TxHash tx) eqn:Er.
    + edestruct (IH n drop) as (L' & n' & d & -> & Hd); [|exists L', n', d; split; [done|]; eapply discarded_step; [|exact Hd]].
      * cbn [urgent floating]. rewrite (Permutation_length (hPush_perm tx (floating L))). cbn [length]. lia.
      * intros D. apply covered_perm. unfold heaps. cbn [urgent floating]. rewrite hPush_perm, El, Hp. apply Permutation_middle.
    + edestruct (IH n drop) as (L' & n' & d & -> & Hd); [|exists L', n', d; split; [done|]; eapply discarded_step; [|exact Hd]]; cbn [urgent floating]; [lia|].
      intros D HD. apply (covered_pop D A L _ tx); [|done|by left]. unfold heaps. cbn [urgent floating]. by rewrite El, Hp.
  - destruct (Z.eqb_spec (Z.of_nat (length (plist (floating L)))) 0); [by exists L, n, d0; rewrite <- E0|].
    destruct (plist (floating L)) as [|tx l] eqn:El; [done|]. cbn [length] in Hf. destruct (hPop_spec _ _ _ El) as (f & -> & Hp). cbn [mbind outcome_bind].
    pose proof (Permutation_length Hp) as Hlf.
    assert (forall s, heaps L ≡ₚ tx :: heaps {| stales := s; urgent := urgent L; floating := f |}) as Hh.
    { intros s. unfold heaps. cbn [urgent floating]. rewrite El, Hp. by rewrite <- Permutation_middle. }
    destruct (remotes A !! TxHash tx) eqn:Er.
    + edestruct (IH (n - numSlots tx) (drop ++ [tx])) as (L' & n' & d & -> & Hd); [|exists L', n', (tx :: d); split; [by rewrite <- app_assoc|]; eapply discarded_cons; [by rewrite Er| |exact Hd]]; cbn [urgent floating]; [lia|done].
    + edestruct (IH n drop) as (L' & n' & d & -> & Hd); [|exists L', n', d; split; [done|]; eapply discarded_step; [|exact Hd]]; cbn [urgent floating]; [lia|].
      intros D HD. by apply (covered_pop D A L _ tx); [|done|left].
Qed.

Lemma foldl_hPush d q : plist (foldl (fun q tx => hPush tx q) q d) ≡ₚ d ++ plist q.
Proof. revert q. induction d as [|tx d IH]; intros q; cbn [foldl]; [done|]. rewrite IH, hPush_perm. by rewrite <- Permutation_middle. Qed.

(** [Discard] returns; what it hands out was remote, and what is neither handed
    out nor gone is still in the heaps. *)
Lemma Discard_spec A n force L : 0 <= n -> exists L' d b, Discard A n force L = Ok (L', d, b) /\ discarded A L L' d.
Proof.
  intros Hn. unfold Discard. rewrite (proj2 (Z.ltb_ge n 0)) by done.
  destruct (Discard_loop_spec (S (2 * length (plist (urgent L)) + length (plist (floating L)))) A n [] L) as (L' & n' & d & E & Hr & Hd); [lia|].
  rewrite E. cbn [mbind outcome_bind app]. case_match; [|by exists L', d, true]. eexists _, [], false. split; [done|].
  split; [by intros ? ?%elem_of_nil|]. intros D HD. rewrite app_nil_r. intros h Hh. unfold heaps. cbn [urgent floating]. rewrite foldl_hPush.
  destruct (Hd D HD h Hh) as [Hin|Hin]; unfold heaps in *; rewrite ?fmap_app, ?elem_of_app in *; tauto.
Qed.
End Facts.
End TxPriced.
