(* ===== verification/TxPoolGrowth.v ===== *)
(** * TxPoolGrowth: what makes the pool larger

    Whatever a method does, the lookup has at most one more transaction for each
    that is added: [grows k m]. *)

From S2P Require Import Prelude Uint256 ChainConfig Header HeaderRules StateModel StateTransition Transaction Heap TxSortedMap TxList TxLookup TxPool TxPriced.
Import Transaction.

Module TxPoolGrowth.
Import TxPool TxPriced.

Create HintDb growth.

Section Growth.
Context `{U : Uint256} `{MR : MapRange} `{H : !TxHasher} `{Env : !PoolEnv}.

Definition grows {A} (k : nat) (m : M A) : Prop :=
  forall p p' a, m p = Ok (p', a) -> TxLookup.slots (all p') <= TxLookup.slots (all p) + Z.of_nat k.

Lemma grows_plus {A B} k j (m : M A) (f : A -> M B) : grows k m -> (forall a, grows j (f a)) -> grows (k + j) (m ≫= f).
Proof.
  intros Hm Hf p p' b E. unfold mbind, M_bind in E. destruct (m p) as [[p1 a]|e|] eqn:Em; [|done|done]. specialize (Hm _ _ _ Em). specialize (Hf a _ _ _ E). lia.
Qed.

(** [k] is used by the last call. *)
Lemma grows_bind {A B} k (m : M A) (f : A -> M B) : grows 0 m -> (forall a, grows k (f a)) -> grows k (m ≫= f).
Proof. apply (grows_plus 0 k). Qed.
Lemma grows_bind_l {A B} k (m : M A) (f : A -> M B) : grows k m -> (forall a, grows 0 (f a)) -> grows k (m ≫= f).
Proof. intros Hm Hf. replace k with (k + 0)%nat by lia. by apply grows_plus. Qed.

Lemma grows_same {A} k (m : M A) : (forall p p' a, m p = Ok (p', a) -> all p' = all p) -> grows k m.
Proof. intros Hm p p' a E. rewrite (Hm p p' a E). lia. Qed.

Lemma grows_ret {A} k (a : A) : grows k (mret a).
Proof. apply grows_same. by intros p p' b [= <- _]. Qed.
Lemma grows_gets {A} k (f : TxsPool -> A) : grows k (gets f).
Proof. apply grows_same. by intros p p' b [= <- _]. Qed.
Lemma grows_lift {A} k (o : outcome A) : grows k (lift o).
Proof. apply grows_same. intros p p' b E. unfold lift in E. by destruct o; simplify_eq. Qed.
Lemma grows_modify k f : (forall p, all (f p) = all p) -> grows k (modify f).
Proof. intros Hf. apply grows_same. by intros p p' b [= <- _]. Qed.
Lemma grows_updates k f : (forall p p', f p = Ok p' -> all p' = all p) -> grows k (updates f).
Proof. intros Hf. apply grows_same. intros p p' b E. unfold updates in E. destruct (f p) eqn:Ef; simplify_eq. by apply Hf. Qed.
Lemma grows_noFuel {A} k : grows k (noFuel : M A).
Proof. by intros p p' a. Qed.

Lemma Remove_slots h A : TxLookup.slots (TxLookup.Remove h A) <= TxLookup.slots A.
Proof. unfold TxLookup.Remove. case_match; [|lia]. cbn. rewrite numSlots_one. lia. Qed.

Lemma grows_allRemove k h : grows k (allRemove h).
Proof. intros p p' a [= <- _]. cbn. pose proof (Remove_slots h (all p)). lia. Qed.
Lemma grows_allAdd tx local : grows 1 (allAdd tx local).
Proof. intros p p' a [= <- _]. cbn. unfold TxLookup.Add. destruct local; cbn [TxLookup.slots]; rewrite numSlots_one; lia. Qed.
Lemma grows_pricedRemoved k n : grows k (pricedRemoved n).
Proof. apply grows_updates. intros p p' (L & _ & E)%bind_Ok. by injection E as <-. Qed.
Lemma grows_nonceGet k a : grows k (nonceGet a).
Proof. apply grows_same. intros p p' n E. unfold nonceGet in E. case_match; simplify_eq; done. Qed.

Lemma grows_forEach {B} (f : B -> M unit) (l : list B) : (forall x, grows 0 (f x)) -> grows 0 (forEach f l).
Proof. intros Hf. induction l as [|x l IH]; cbn [forEach]; [apply grows_ret|]. apply grows_bind; [apply Hf|]. done. Qed.
End Growth.

#[export] Hint Resolve grows_ret grows_gets grows_lift grows_noFuel grows_allRemove grows_allAdd grows_pricedRemoved grows_nonceGet : growth.

(** Through the binds and the cases of a method. *)
Ltac grow :=
  repeat first
    [ solve [eauto with growth]
    | match goal with
      | |- forall _, grows _ _ => intros ?
      | |- grows _ (modify _) => apply grows_modify; intros; reflexivity
      | |- grows _ (_ ≫= _) => apply grows_bind; [|intros]
      | |- grows 0 (forEach _ _) => apply grows_forEach; intros
      | |- grows _ (match ?x with _ => _ end) => destruct x
      | |- grows _ (let _ := _ in _) => cbv zeta
      end ].

Section Methods.
Context `{U : Uint256} `{MR : MapRange} `{H : !TxHasher} `{Env : !PoolEnv}.

Lemma grows_setIfLower a n : grows 0 (setIfLower a n).
Proof. unfold setIfLower, nonceSet. grow. Qed.
#[local] Hint Resolve grows_setIfLower : growth.
Lemma grows_discardOld old : grows 0 (discardOld old).
Proof. unfold discardOld. grow. Qed.
#[local] Hint Resolve grows_discardOld : growth.
Lemma grows_promoteTx a h tx : grows 0 (promoteTx a h tx).
Proof. unfold promoteTx, setPending, nonceSet, beat. grow. Qed.
#[local] Hint Resolve grows_promoteTx : growth.
Lemma grows_requeue h tx local : grows 0 (enqueueTx h tx local false).
Proof. unfold enqueueTx, setQueue, beat. grow. Qed.
#[local] Hint Resolve grows_requeue : growth.
Lemma grows_pricedPut k tx local : grows k (pricedPut tx local).
Proof. unfold pricedPut. grow. Qed.
#[local] Hint Resolve grows_pricedPut : growth.
Lemma grows_putNew tx local : grows 1 (allAdd tx local;; pricedPut tx local).
Proof. apply grows_bind_l; intros; grow. Qed.

Lemma grows_enqueueNew h tx local : grows 1 (enqueueTx h tx local true).
Proof.
  unfold enqueueTx, setQueue, beat. do 2 (apply grows_bind; [grow|intros]). case_match. case_match. apply grows_bind; [grow|intros]. case_match; [grow|].
  apply grows_bind; [grow|intros]. apply grows_bind_l; [apply grows_putNew|]. grow.
Qed.
#[local] Hint Resolve grows_enqueueNew : growth.

Lemma grows_removeQueued a tx : grows 0 (removeQueued a tx).
Proof. unfold removeQueued, setQueue, delQueue. grow. Qed.
#[local] Hint Resolve grows_removeQueued : growth.
Lemma grows_removeTx h b : grows 0 (removeTx h b).
Proof. unfold removeTx, setPending, delPending. grow. Qed.
#[local] Hint Resolve grows_removeTx : growth.

Lemma grows_priced {A} k (f : TxsPool -> outcome (TxLookup.txPricedList * A)) : grows k (fun p => '(l, b) ← f p; Ok (set_priced l p, b)).
Proof. apply grows_same. intros p p' b E. destruct (f p) as [[l c]|e|]; [|done|done]. cbn in E. by injection E as <- _. Qed.
Lemma grows_priced2 {A B} k (f : TxsPool -> outcome (TxLookup.txPricedList * A * B)) : grows k (fun p => '(l, d, b) ← f p; Ok (set_priced l p, (d, b))).
Proof. apply grows_same. intros p p' b E. destruct (f p) as [[[l c] d]|e|]; [|done|done]. cbn in E. by injection E as <- _. Qed.
#[local] Hint Resolve grows_priced grows_priced2 : growth.

Lemma grows_makeRoom tx isLocal : grows 0 (makeRoom tx isLocal).
Proof. unfold makeRoom. grow. Qed.
#[local] Hint Resolve grows_makeRoom : growth.

Lemma RemoteToLocals_slots acc A A' n : TxLookup.RemoteToLocals acc A = Ok (A', n) -> TxLookup.slots A' = TxLookup.slots A.
Proof.
  unfold TxLookup.RemoteToLocals. generalize 0 (range (TxLookup.remotes A)). intros z l. revert A z. induction l as [|kv l IH]; intros A z; cbn [TxLookup.each]; [by intros [= -> _]|].
  intros ([B k] & (loc & _ & E1)%bind_Ok & E)%bind_Ok. rewrite (IH _ _ E). injection E1 as E1. destruct loc; by injection E1 as <- _.
Qed.

Lemma grows_markLocal k a : grows k (markLocal a).
Proof.
  unfold markLocal. apply grows_bind; [grow|intros _]. apply grows_bind; [|grow].
  intros p p' n E. destruct (TxLookup.RemoteToLocals _ _) as [[A m]|e|] eqn:Er; [|done|done]. cbn in E. injection E as <- _. cbn. rewrite (RemoteToLocals_slots _ _ _ _ Er). lia.
Qed.
#[local] Hint Resolve grows_markLocal : growth.

Lemma grows_insertTx h tx local isLocal : grows 1 (insertTx h tx local isLocal).
Proof.
  unfold insertTx, setPending, queueTxEvent, beat. do 2 (apply grows_bind; [grow|intros]). repeat case_match.
  all: try (apply grows_bind_l; [grow|]; intros [??]; grow; fail).
  all: apply grows_bind; [grow|intros]; try (grow; fail).
  all: apply grows_bind; [grow|intros]; apply grows_bind_l; [grow|]; grow.
Qed.
#[local] Hint Resolve grows_insertTx : growth.

Lemma grows_add tx local : grows 1 (add tx local).
Proof. unfold add. grow. Qed.

Lemma grows_addTxsLocked txs local dirty : grows (length txs) (addTxsLocked_loop txs local dirty).
Proof.
  revert dirty. induction txs as [|tx txs IH]; intros dirty; cbn [addTxsLocked_loop length]; [grow|]. apply (grows_plus 1 (length txs)); [apply grows_add|].
  intros [rep err]. apply grows_bind; [grow|intros d]. apply grows_bind_l; [apply IH|]. grow.
Qed.

Lemma grows_promoteReady a r : grows 0 (promoteReady a r).
Proof. induction r as [|tx r IH]; cbn [promoteReady]; grow. Qed.
Lemma grows_promoteAccount a : grows 0 (promoteAccount a).
Proof. pose proof grows_promoteReady. unfold promoteAccount, forget, setQueue, delQueue. grow. Qed.
Lemma grows_promoteExecutables l : grows 0 (promoteExecutables l).
Proof. pose proof grows_promoteAccount. induction l as [|a l IH]; cbn [promoteExecutables]; grow. Qed.
Lemma grows_demoteUnexecutables : grows 0 demoteUnexecutables.
Proof. unfold demoteUnexecutables, demoteAccount, forget, setPending, delPending, enqueueAll. grow. Qed.
Lemma grows_highestNonces l m : grows 0 (highestNonces l m).
Proof. revert m. induction l as [|a l IH]; intros m; cbn [highestNonces]; unfold setPending; grow. Qed.
Lemma grows_reset old new r : reinjected old new = Ok r -> grows (length (default [] r)) (reset old new).
Proof.
  intros E. unfold reset. rewrite E. intros p p' a Er. unfold mbind at 1, M_bind at 1, lift in Er. revert p p' a Er. change (grows (length (default [] r)) (match r with
    | Some reinject => let new := default CurrentBlock new in modify (set_currentMaxGas (GasLimit (bHeader new)));; addTxsLocked reinject false;;
        let next := u64 (bNumber new + 1) in modify (fun p => set_istanbul (ChainConfig.IsIstanbul (chainconfig p) next) p);;
        modify (fun p => set_eip2718 (ChainConfig.IsBerlin (chainconfig p) next) p);; modify (fun p => set_eip1559 (ChainConfig.IsLondon (chainconfig p) next) p)
    | None => mret tt end)).
  destruct r as [r|]; [|grow]. apply grows_bind; [grow|intros]. apply grows_bind_l; [apply grows_addTxsLocked|]. grow.
Qed.
End Methods.
End TxPoolGrowth.
