(* ===== verification/TxPlaces.v ===== *)
(** * TxPlaces: every transaction of the pool is in one place

    The contents of the pending and of the queued lists, the transactions that
    a method has taken out of a list and not yet put elsewhere, and the lookup:
    [placed X P Q g] says that every account and nonce is taken at most once by
    [P], [Q] and [X], and that the lookup [g] knows exactly the transactions
    that are there, by their hashes. *)

From S2P Require Import Prelude Uint256 ChainConfig StateModel StateTransition Transaction TxSortedMap TxLookup.
Import Transaction.

Module TxPlaces.

Section Places.
Context `{U : Uint256} `{MR : MapRange} `{H : !TxHasher}.

Abbreviation places := (gmap Address (gmap Z TxData)).
Implicit Types (P Q : gmap Address (gmap Z TxData)) (X r : list TxData) (g : Hash -> option TxData) (a : Address) (n : Z) (tx : TxData).

Definition at_ P a n : option TxData := P !! a ≫= (fun m => m !! n).
Definition sits P tx : Prop := exists a, From tx = Some a /\ at_ P a (Nonce tx) = Some tx.
Definition slot tx : option Address * Z := (From tx, Nonce tx).

(** The transactions of a list are those of its account, by nonce. *)
Definition sound P : Prop := forall a n tx, at_ P a n = Some tx -> From tx = Some a /\ Nonce tx = n.

Record placed X P Q g : Prop := {
  pl_P : sound P;
  pl_Q : sound Q;
  pl_X : forall tx, tx ∈ X -> is_Some (From tx) /\ in_u64 (Nonce tx);
  pl_PQ : forall a n, at_ P a n = None \/ at_ Q a n = None;
  pl_XPQ : forall a tx, tx ∈ X -> From tx = Some a -> at_ P a (Nonce tx) = None /\ at_ Q a (Nonce tx) = None;
  pl_XX : NoDup (slot <$> X);
  pl_g : forall h tx, g h = Some tx <-> TxHash tx = h /\ (tx ∈ X \/ sits P tx \/ sits Q tx)
}.

Lemma placed_swap X P Q g : placed X P Q g -> placed X Q P g.
Proof. intros [H1 H2 H3 H4 H5 H6 H7]. split; [done|done|done| | |done|]. - intros a n. destruct (H4 a n); auto. - intros a tx Hx Ha. destruct (H5 a tx); auto. - intros h tx. rewrite H7. tauto. Qed.

Lemma placed_perm X X' P Q g : X ≡ₚ X' -> placed X P Q g -> placed X' P Q g.
Proof.
  intros Hp [H1 H2 H3 H4 H5 H6 H7]. split; [done|done| |done| |by rewrite <- Hp|].
  - intros tx. rewrite <- Hp. apply H3.
  - intros a tx. rewrite <- Hp. apply H5.
  - intros h tx. rewrite <- Hp. apply H7.
Qed.

Lemma placed_ext X P Q g g' : (forall h, g' h = g h) -> placed X P Q g -> placed X P Q g'.
Proof. intros He [H1 H2 H3 H4 H5 H6 H7]. split; try done. intros h tx. rewrite He. apply H7. Qed.

Lemma at_insert P a m a' n : at_ (<[a := m]> P) a' n = if decide (a = a') then m !! n else at_ P a' n.
Proof. unfold at_. rewrite lookup_insert. by case_decide. Qed.

Lemma at_default P a n : at_ P a n = default ∅ (P !! a) !! n.
Proof. unfold at_. by destruct (P !! a). Qed.

(** A list that is empty holds nothing. *)
Lemma at_delete P a a' n : P !! a = Some ∅ -> at_ (delete a P) a' n = at_ P a' n.
Proof. intros Ha. unfold at_. rewrite lookup_delete. case_decide; [subst|done]. by rewrite Ha. Qed.

Lemma placed_at X P P' Q g : (forall a n, at_ P' a n = at_ P a n) -> placed X P Q g -> placed X P' Q g.
Proof.
  intros He [H1 H2 H3 H4 H5 H6 H7]. split; [|done|done| | |done|].
  - intros a n tx. rewrite He. apply H1.
  - intros a n. rewrite He. apply H4.
  - intros a tx. rewrite He. apply H5.
  - intros h tx. rewrite H7. unfold sits. by setoid_rewrite He.
Qed.

(** Transactions leave a list and are in flight. *)
Lemma placed_take X P Q g a m r : placed X P Q g -> P !! a = Some m -> (forall tx, tx ∈ r -> m !! Nonce tx = Some tx /\ in_u64 (Nonce tx)) -> NoDup r ->
  placed (r ++ X) (<[a := SortedMap.without r m]> P) Q g.
Proof.
  intros [H1 H2 H3 H4 H5 H6 H7] Ha Hr Hnd.
  assert (forall a' n, at_ (<[a := SortedMap.without r m]> P) a' n = if decide (a = a' /\ n ∈ Nonce <$> r) then None else at_ P a' n) as Hat.
  { intros a' n. rewrite at_insert, SortedMap.lookup_without. unfold at_. repeat case_decide; try tauto. destruct (decide (a = a')); [subst|done]. by rewrite Ha. }
  assert (forall tx, tx ∈ r -> From tx = Some a /\ at_ P a (Nonce tx) = Some tx) as Hra.
  { intros tx [Hm _]%Hr. assert (at_ P a (Nonce tx) = Some tx) as E by (unfold at_; by rewrite Ha). split; [by eapply H1|done]. }
  split.
  - intros a' n tx. rewrite Hat. case_decide; [done|]. apply H1.
  - done.
  - intros tx [Htx|Htx]%elem_of_app; [|by apply H3]. split; [|by apply Hr]. destruct (Hra tx Htx) as [-> _]. done.
  - intros a' n. rewrite Hat. case_decide; [by left|]. apply H4.
  - intros a' tx [Htx|Htx]%elem_of_app Hf; rewrite Hat.
    + destruct (Hra tx Htx) as [Ha' Hin]. assert (a' = a) as -> by congruence. rewrite decide_True by (split; [done|by apply list_elem_of_fmap_2]).
      split; [done|]. destruct (H4 a (Nonce tx)); congruence.
    + case_decide; [split; [done|]|]; by apply H5.
  - rewrite fmap_app. apply NoDup_app. split_and!; [| |done].
    + apply NoDup_fmap_2_strong; [|done]. intros x y [_ Hx]%Hra [_ Hy]%Hra [= _ E]. rewrite E in Hx. congruence.
    + intros s (x & -> & Hx)%list_elem_of_fmap (y & E & Hy)%list_elem_of_fmap. destruct (Hra x Hx) as [Hf Hin]. injection E as Ef En.
      destruct (H5 a y Hy) as [Hn _]; [congruence|]. rewrite <- En in Hn. congruence.
  - intros h tx. rewrite H7, elem_of_app. unfold sits. apply and_iff_compat_l. split.
    + intros [?|[(b & Hb & E)|?]]; [tauto| |tauto]. destruct (decide (tx ∈ r)); [tauto|]. right; left. exists b. split; [done|]. rewrite Hat, decide_False; [done|].
      intros [<- (y & En & Hy)%list_elem_of_fmap]. destruct (Hra y Hy) as [_ Hin]. rewrite <- En in Hin. assert (y = tx) by congruence. by subst.
    + intros [[Hx|?]|[(b & Hb & E)|?]]; [|tauto| |tauto].
      * right; left. destruct (Hra tx Hx). eauto.
      * right; left. exists b. split; [done|]. rewrite Hat in E. by case_decide.
Qed.

(** A transaction in flight is put into a list. *)
Lemma placed_put X P Q g a tx : placed (tx :: X) P Q g -> From tx = Some a ->
  placed X (<[a := <[Nonce tx := tx]> (default ∅ (P !! a))]> P) Q g.
Proof.
  intros [H1 H2 H3 H4 H5 H6 H7] Ha.
  assert (forall a' n, at_ (<[a := <[Nonce tx := tx]> (default ∅ (P !! a))]> P) a' n = if decide (a = a' /\ Nonce tx = n) then Some tx else at_ P a' n) as Hat.
  { intros a' n. rewrite at_insert, lookup_insert, <- at_default. repeat case_decide; subst; naive_solver. }
  destruct (H5 a tx) as [HPn HQn]; [by left|done|]. cbn in H6. apply NoDup_cons in H6 as [Hx H6]. split.
  - intros a' n t. rewrite Hat. case_decide as Hd; [destruct Hd as [<- <-]; by intros [= <-]|]. apply H1.
  - done.
  - intros t Ht. apply H3. by right.
  - intros a' n. rewrite Hat. case_decide as Hd; [destruct Hd as [<- <-]; by right|]. apply H4.
  - intros a' t Ht Hf. rewrite Hat, decide_False; [by apply H5; [right|]|]. intros [<- En]. apply Hx. replace (slot tx) with (slot t); [by apply list_elem_of_fmap_2|].
    unfold slot. by rewrite Ha, Hf, En.
  - done.
  - intros h t. rewrite H7, elem_of_cons. unfold sits. apply and_iff_compat_l. split.
    + intros [[->|?]|[(b & Hb & E)|?]]; [|tauto| |tauto].
      * right; left. exists a. by rewrite Hat, decide_True.
      * right; left. exists b. split; [done|]. rewrite Hat. case_decide as Hd; [|done]. destruct Hd as [<- En]. rewrite <- En in E. congruence.
    + intros [?|[(b & Hb & E)|?]]; [tauto| |tauto]. rewrite Hat in E. case_decide; [injection E as ->; tauto|]. eauto.
Qed.

(** A transaction in flight is forgotten. *)
Lemma placed_forget X P Q g tx : placed (tx :: X) P Q g -> placed X P Q (fun h => if decide (h = TxHash tx) then None else g h).
Proof.
  intros [H1 H2 H3 H4 H5 H6 H7]. cbn in H6. apply NoDup_cons in H6 as [Hx H6]. split; [done|done| |done| |done|].
  - intros t Ht. apply H3. by right.
  - intros a t Ht. apply H5. by right.
  - intros h t. case_decide as Hd.
    + split; [done|]. intros [Eh Hp]. exfalso. assert (g h = Some tx) as E1 by (apply H7; split; [done|left; by left]).
      assert (t = tx) as ->; [|].
      { assert (g h = Some t) as E2 by (apply H7; split; [done|]; rewrite elem_of_cons; tauto). congruence. }
      destruct Hp as [Hp|[(a & Ha & E)|(a & Ha & E)]]; [by apply Hx, list_elem_of_fmap_2|..]; destruct (H5 a tx) as [??]; [by left|done|congruence|by left|done|congruence].
    + rewrite H7, elem_of_cons. split; [|tauto]. intros [Eh [[->|?]|?]]; [congruence|tauto|tauto].
Qed.

(** A new transaction is in flight when the lookup has it. *)
Lemma placed_enter X P Q g a tx : placed X P Q g -> g (TxHash tx) = None -> From tx = Some a -> in_u64 (Nonce tx) ->
  at_ P a (Nonce tx) = None -> at_ Q a (Nonce tx) = None -> slot tx ∉ slot <$> X ->
  placed (tx :: X) P Q (fun h => if decide (h = TxHash tx) then Some tx else g h).
Proof.
  intros [H1 H2 H3 H4 H5 H6 H7] Hg Ha Hu HP HQ Hx. split; [done|done| |done| | |].
  - intros t [->|Ht]%elem_of_cons; [by rewrite Ha|by apply H3].
  - intros b t [->|Ht]%elem_of_cons Hb; [|by apply H5]. assert (b = a) as -> by congruence. done.
  - cbn. by apply NoDup_cons.
  - intros h t. case_decide as Hd.
    + subst h. split; [intros [= <-]; split; [done|left; by left]|]. intros [Eh Hp]. f_equal. rewrite elem_of_cons in Hp. destruct Hp as [[->|Hp]|Hp]; [done|..];
        (assert (g (TxHash tx) = Some t) by (apply H7; tauto)); congruence.
    + rewrite H7, elem_of_cons. split; [tauto|]. intros [Eh [[->|?]|?]]; [congruence|tauto|tauto].
Qed.

(** A transaction takes the place of another one. *)
Lemma placed_replace P Q g a m tx old : placed [] P Q g -> P !! a = Some m -> m !! Nonce tx = Some old -> g (TxHash tx) = None -> From tx = Some a -> in_u64 (Nonce tx) ->
  placed [] (<[a := <[Nonce tx := tx]> m]> P) Q (fun h => if decide (h = TxHash tx) then Some tx else if decide (h = TxHash old) then None else g h).
Proof.
  intros Hp Ha Hm Hg Hf Hu. assert (at_ P a (Nonce tx) = Some old) as Hat by (unfold at_; by rewrite Ha). destruct (pl_P _ _ _ _ Hp _ _ _ Hat) as [_ Hn].
  assert (g (TxHash old) = Some old) as Hgo by (apply (pl_g _ _ _ _ Hp); split; [done|]; right; left; exists a; rewrite Hn; split; [by eapply (pl_P _ _ _ _ Hp)|done]).
  assert (placed [old] (<[a := delete (Nonce tx) m]> P) Q g) as H1.
  { rewrite <- Hn. apply (placed_take [] P Q g a m [old]); [done|done| |apply NoDup_singleton]. intros t ->%list_elem_of_singleton. by rewrite Hn. }
  apply placed_forget in H1. apply (placed_enter _ _ _ _ a tx) in H1; [|by rewrite decide_False by congruence|done|done| |by destruct (pl_PQ _ _ _ _ Hp a (Nonce tx)); congruence|by intros ?%elem_of_nil].
  - apply (placed_put _ _ _ _ a) in H1; [|done]. rewrite insert_insert_eq, lookup_insert_eq in H1. cbn [default from_option id] in H1. by rewrite insert_delete_eq in H1.
  - rewrite at_insert, decide_True by done. apply lookup_delete_eq.
Qed.

Lemma placed_empty : placed [] ∅ ∅ (fun _ => None).
Proof.
  assert (forall a n, at_ ∅ a n = None) as Hat by (intros; unfold at_; by rewrite lookup_empty). split.
  - intros a n tx. by rewrite Hat.
  - intros a n tx. by rewrite Hat.
  - by intros tx ?%elem_of_nil.
  - intros. by left.
  - by intros a tx ?%elem_of_nil.
  - constructor.
  - intros h tx. split; [done|]. intros [_ [?%elem_of_nil|[(a & _ & E)|(a & _ & E)]]]; [done|by rewrite Hat in E..].
Qed.
End Places.
End TxPlaces.
