(* ===== verification/TxPoolInv.v ===== *)
(** * TxPoolInv: the invariant of the pool

    [pool_ok D X EP EQ p] says that the lists of [p] are well formed and that
    every transaction is in one place ([placed]), that the lookup and the priced
    list agree with it, that no remote transaction is of a local account, and
    that no list is empty and every queued account has a heartbeat.  A method may be under way: [X] are the transactions it
    has taken out of the lists, [EP] and [EQ] the account whose pending or queued
    list is not settled, [D] the hashes that are to be dropped.  Between methods
    all four are empty ([PoolOK]). *)

From S2P Require Import Prelude Uint256 ChainConfig Header HeaderRules StateModel StateTransition Transaction Heap TxSortedMap TxList TxLookup TxPool TxTakes TxPriced TxPlaces.
Import Transaction.
Import TxsList.

Module TxPoolInv.
Import TxPool TxTakes TxPriced TxPlaces.

Section Runs.
Context `{U : Uint256} `{MR : MapRange} `{H : !TxHasher}.

(** [m] returns from [p], with a result that satisfies [Q]. *)
Definition runs {A} (m : M A) (p : TxsPool) (Q : TxsPool -> A -> Prop) : Prop := exists p' a, m p = Ok (p', a) /\ Q p' a.

Lemma runs_bind {A B} (m : M A) (f : A -> M B) p Q : runs m p (fun p' a => runs (f a) p' Q) -> runs (m ≫= f) p Q.
Proof. intros (p' & a & E & p'' & b & E' & HQ). exists p'', b. split; [|done]. unfold mbind, M_bind. by rewrite E. Qed.

Lemma runs_eq {A} (m : M A) p p' a (Q : TxsPool -> A -> Prop) : m p = Ok (p', a) -> Q p' a -> runs m p Q.
Proof. intros. by exists p', a. Qed.

Lemma runs_mono {A} (m : M A) p (Q Q' : TxsPool -> A -> Prop) : runs m p Q -> (forall p' a, Q p' a -> Q' p' a) -> runs m p Q'.
Proof. intros (p' & a & E & HQ) HH. exists p', a. auto. Qed.

Lemma runs_ret {A} (a : A) p (Q : TxsPool -> A -> Prop) : Q p a -> runs (mret a) p Q.
Proof. intros. by eapply runs_eq. Qed.

Lemma runs_gets {A} (f : TxsPool -> A) p (Q : TxsPool -> A -> Prop) : Q p (f p) -> runs (gets f) p Q.
Proof. intros. by eapply runs_eq. Qed.

Lemma runs_id p (Q : TxsPool -> TxsPool -> Prop) : Q p p -> runs (gets id) p Q.
Proof. intros. by eapply runs_eq. Qed.

Lemma runs_modify f p (Q : TxsPool -> unit -> Prop) : Q (f p) tt -> runs (modify f) p Q.
Proof. intros. by eapply runs_eq. Qed.

Lemma runs_lift {A} (o : outcome A) a p (Q : TxsPool -> A -> Prop) : o = Ok a -> Q p a -> runs (lift o) p Q.
Proof. intros -> ?. by eapply runs_eq. Qed.

Lemma runs_forEach {B} (f : B -> M unit) (l : list B) (I : list B -> TxsPool -> Prop) p :
  I l p -> (forall x l p, I (x :: l) p -> runs (f x) p (fun p' _ => I l p')) -> runs (forEach f l) p (fun p' _ => I [] p').
Proof.
  intros HI Hf. revert p HI. induction l as [|x l IH]; intros p HI; cbn [forEach]; [by apply runs_ret|].
  apply runs_bind. eapply runs_mono; [by apply Hf|]. intros p' [] HI'. by apply IH.
Qed.
End Runs.

(** One step of a method whose effect is known. *)
Ltac step :=
  lazymatch goal with
  | |- runs (_ ≫= _) _ _ => apply runs_bind
  | |- runs (mret _) _ _ => apply runs_ret
  | |- runs (gets id) _ _ => apply runs_id
  | |- runs (gets _) _ _ => apply runs_gets
  | |- runs (modify _) _ _ => apply runs_modify
  | |- runs (setPending _ _) _ _ => apply runs_modify
  | |- runs (setQueue _ _) _ _ => apply runs_modify
  end; cbv beta.
Ltac steps := repeat step.
Ltac fields := cbn [pending queue all beats priced plocals config currentState currentMaxGas chainconfig pendingNonces tick events changesSinceReorg gasPrice
  set_pending set_queue set_all set_beats set_priced set_plocals set_pendingNonces set_tick set_events set_changesSinceReorg set_currentMaxGas set_istanbul set_eip2718 set_eip1559 set_currentState] in *.

Section Inv.
Context `{U : Uint256} `{MR : MapRange} `{H : !TxHasher}.
Implicit Types (p : TxsPool) (X r : list TxData) (D : list Hash) (EP EQ : option Address) (a : Address) (tx : TxData) (l : txsList).

Definition cts (m : gmap Address txsList) : gmap Address (gmap Z TxData) := contents <$> m.
Definition lists_ok (s : bool) (m : gmap Address txsList) : Prop := forall a l, m !! a = Some l -> wf l /\ strict l = s.

Definition settled_pending EP p : Prop := forall a l, EP <> Some a -> pending p !! a = Some l -> contents l <> ∅.
Definition settled_queue EQ p : Prop := forall a l, EQ <> Some a -> queue p !! a = Some l -> contents l <> ∅ /\ is_Some (beats p !! a).

Record pool_ok D X EP EQ p : Prop := {
  ok_pending : lists_ok true (pending p);
  ok_queue : lists_ok false (queue p);
  ok_placed : placed X (cts (pending p)) (cts (queue p)) (TxLookup.Get (all p));
  ok_lookup : lookup_ok (all p);
  ok_priced : covered D (all p) (priced p);
  ok_locals : forall h tx a, TxLookup.remotes (all p) !! h = Some tx -> From tx = Some a -> TxLookup.contains (plocals p) a = false;
  ok_sp : settled_pending EP p;
  ok_sq : settled_queue EQ p
}.

(** What the methods under the lock do not change. *)
Definition env p := (config p, chainconfig p, currentState p, currentMaxGas p, plocals p).

(** ** Steps that do not concern the lists *)

Lemma ok_nonces D X EP EQ p m : pool_ok D X EP EQ p -> pool_ok D X EP EQ (set_pendingNonces m p).
Proof. intros []. by split. Qed.
Lemma ok_events D X EP EQ p m : pool_ok D X EP EQ p -> pool_ok D X EP EQ (set_events m p).
Proof. intros []. by split. Qed.
Lemma ok_changes D X EP EQ p m : pool_ok D X EP EQ p -> pool_ok D X EP EQ (set_changesSinceReorg m p).
Proof. intros []. by split. Qed.
Lemma ok_state D X EP EQ p m : pool_ok D X EP EQ p -> pool_ok D X EP EQ (set_currentState m p).
Proof. intros []. by split. Qed.

Lemma ok_beat D X EP EQ p a t n : pool_ok D X EP EQ p -> pool_ok D X EP EQ (set_beats (<[a := t]> (beats p)) (set_tick n p)).
Proof.
  intros []. split; try done. intros b l Hb Hl. destruct (ok_sq0 b l Hb Hl) as [? ?]. split; [done|]. fields. rewrite lookup_insert. by case_decide.
Qed.

Lemma ok_weaken_P D X EP EQ p a : pool_ok D X None EQ p -> EP = Some a -> pool_ok D X EP EQ p.
Proof. intros [] ->. split; try done. intros b l _. by apply ok_sp0. Qed.
Lemma ok_weaken_Q D X EP EQ p a : pool_ok D X EP None p -> EQ = Some a -> pool_ok D X EP EQ p.
Proof. intros [] ->. split; try done. intros b l _. by apply ok_sq0. Qed.

Lemma ok_settle_P D X EQ p a : pool_ok D X (Some a) EQ p -> (forall l, pending p !! a = Some l -> contents l <> ∅) -> pool_ok D X None EQ p.
Proof. intros [] Ha. split; try done. intros b l _ Hb. destruct (decide (b = a)) as [->|]; [by apply Ha|]. apply (ok_sp0 b l); [congruence|done]. Qed.
Lemma ok_settle_Q D X EP p a : pool_ok D X EP (Some a) p -> (forall l, queue p !! a = Some l -> contents l <> ∅ /\ is_Some (beats p !! a)) -> pool_ok D X EP None p.
Proof. intros [] Ha. split; try done. intros b l _ Hb. destruct (decide (b = a)) as [->|]; [by apply Ha|]. apply (ok_sq0 b l); [congruence|done]. Qed.

(** ** The priced list *)

Lemma ok_Removed D X EP EQ p n : pool_ok D X EP EQ p ->
  exists L, TxLookup.Removed (all p) n (priced p) = Ok L /\ pool_ok D X EP EQ (set_priced L p).
Proof.
  intros []. destruct (Removed_covered D (all p) n (priced p)) as (L & E & HL); [done..|]. exists L. split; [done|]. by split.
Qed.

Lemma pricedRemoved_eq p n L : TxLookup.Removed (all p) n (priced p) = Ok L -> pricedRemoved n p = Ok (set_priced L p, tt).
Proof. intros E. unfold pricedRemoved, updates. by rewrite E. Qed.

Lemma runs_pricedRemoved D X EP EQ p n (Q : TxsPool -> unit -> Prop) : pool_ok D X EP EQ p ->
  (forall L, pool_ok D X EP EQ (set_priced L p) -> Q (set_priced L p) tt) -> runs (pricedRemoved n) p Q.
Proof. intros Hok HQ. destruct (ok_Removed D X EP EQ p n Hok) as (L & E & HL). eapply runs_eq; [by apply pricedRemoved_eq|]. by apply HQ. Qed.

(** ** The lookup *)

Lemma ok_forget D X EP EQ p tx : pool_ok D (tx :: X) EP EQ p -> pool_ok D X EP EQ (set_all (TxLookup.Remove (TxHash tx) (all p)) p).
Proof.
  intros []. split; try done; fields.
  - eapply placed_ext; [|by apply placed_forget]. intros h. cbv beta. apply Get_Remove.
  - by apply Remove_lookup_ok.
  - eapply covered_lookup; [|done]. intros h. rewrite remotes_Remove. by case_decide; [intros []|].
  - intros h t b. rewrite remotes_Remove. case_decide; [done|]. apply ok_locals0.
Qed.

Definition forgetAll r (A : TxLookup.txLookup) : TxLookup.txLookup := foldl (fun A tx => TxLookup.Remove (TxHash tx) A) A r.

Lemma forget_eq r p : forget r p = Ok (set_all (forgetAll r (all p)) p, tt).
Proof.
  unfold forget. revert p. induction r as [|tx r IH]; intros p; cbn [forEach forgetAll foldl]; [by destruct p|].
  unfold mbind, M_bind, allRemove at 1, modify. rewrite IH. done.
Qed.

Lemma ok_forgetAll D X EP EQ p r : pool_ok D (r ++ X) EP EQ p -> pool_ok D X EP EQ (set_all (forgetAll r (all p)) p).
Proof.
  revert p. induction r as [|tx r IH]; intros p Hok; cbn [forgetAll foldl]; [by destruct p|].
  apply (IH (set_all (TxLookup.Remove (TxHash tx) (all p)) p)). by apply ok_forget.
Qed.

(** ** The lists *)

Lemma cts_insert m a l : cts (<[a := l]> m) = <[a := contents l]> (cts m).
Proof. apply fmap_insert. Qed.
Lemma cts_lookup m a : cts m !! a = contents <$> m !! a.
Proof. apply lookup_fmap. Qed.
Lemma cts_default m a s : default ∅ (cts m !! a) = contents (default (newTxsList s) (m !! a)).
Proof. rewrite cts_lookup. by destruct (m !! a). Qed.

Lemma lists_insert s m a l : lists_ok s m -> wf l -> strict l = s -> lists_ok s (<[a := l]> m).
Proof. intros Hm Hw Hs b l' [[-> <-]|[_ ?]]%lookup_insert_Some; [done|by eapply Hm]. Qed.
Lemma lists_default s m a : lists_ok s m -> wf (default (newTxsList s) (m !! a)) /\ strict (default (newTxsList s) (m !! a)) = s.
Proof. intros Hm. destruct (m !! a) eqn:E; [by eapply Hm|]. split; [apply newTxsList_wf|done]. Qed.

(** A list is replaced by another one. *)
Lemma ok_setPending D X X' EQ p a l : pool_ok D X (Some a) EQ p -> wf l -> strict l = true ->
  placed X' (<[a := contents l]> (cts (pending p))) (cts (queue p)) (TxLookup.Get (all p)) ->
  pool_ok D X' (Some a) EQ (set_pending (<[a := l]> (pending p)) p).
Proof.
  intros [] Hw Hs Hp. split; try done; fields; [by apply lists_insert|by rewrite cts_insert|].
  intros b l' Hb. fields. rewrite lookup_insert_ne by congruence. by apply ok_sp0.
Qed.
Lemma ok_setQueue D X X' EP p a l : pool_ok D X EP (Some a) p -> wf l -> strict l = false ->
  placed X' (cts (pending p)) (<[a := contents l]> (cts (queue p))) (TxLookup.Get (all p)) ->
  pool_ok D X' EP (Some a) (set_queue (<[a := l]> (queue p)) p).
Proof.
  intros [] Hw Hs Hp. split; try done; fields; [by apply lists_insert|by rewrite cts_insert|].
  intros b l' Hb. fields. rewrite lookup_insert_ne by congruence. by apply ok_sq0.
Qed.

Lemma takes_in s m a l l' r : lists_ok s m -> m !! a = Some l -> takes l l' r -> forall tx, tx ∈ r -> contents l !! Nonce tx = Some tx /\ in_u64 (Nonce tx).
Proof. intros Hm Ha Ht tx Htx. pose proof (tk_in _ _ _ Ht tx Htx) as Hin. split; [done|]. destruct (Hm a l Ha) as [Hw _]. by destruct (lw_keyed l Hw _ _ Hin). Qed.

Lemma ok_take_P D X EQ p a l l' r : pool_ok D X (Some a) EQ p -> pending p !! a = Some l -> takes l l' r ->
  pool_ok D (r ++ X) (Some a) EQ (set_pending (<[a := l']> (pending p)) p).
Proof.
  intros Hok Ha Ht. pose proof Hok as []. destruct (ok_pending0 a l Ha) as [Hw Hs]. apply (ok_setPending D X); [done|apply Ht|by rewrite (tk_strict _ _ _ Ht)|].
  rewrite (tk_contents _ _ _ Ht). eapply placed_take; [done|by rewrite cts_lookup, Ha|by apply (takes_in true (pending p) a l l')|apply Ht].
Qed.
Lemma ok_take_Q D X EP p a l l' r : pool_ok D X EP (Some a) p -> queue p !! a = Some l -> takes l l' r ->
  pool_ok D (r ++ X) EP (Some a) (set_queue (<[a := l']> (queue p)) p).
Proof.
  intros Hok Ha Ht. pose proof Hok as []. destruct (ok_queue0 a l Ha) as [Hw Hs]. apply (ok_setQueue D X); [done|apply Ht|by rewrite (tk_strict _ _ _ Ht)|].
  rewrite (tk_contents _ _ _ Ht). apply placed_swap. eapply placed_take; [by apply placed_swap|by rewrite cts_lookup, Ha|by apply (takes_in false (queue p) a l l')|apply Ht].
Qed.

Lemma ok_put_P D X EQ p a tx l : pool_ok D (tx :: X) (Some a) EQ p -> From tx = Some a -> wf l -> strict l = true ->
  contents l = <[Nonce tx := tx]> (contents (default (newTxsList true) (pending p !! a))) ->
  pool_ok D X (Some a) EQ (set_pending (<[a := l]> (pending p)) p).
Proof. intros Hok Ha Hw Hs Hc. apply (ok_setPending D (tx :: X)); [done..|]. rewrite Hc, <- cts_default. apply placed_put; [apply Hok|done]. Qed.
Lemma ok_put_Q D X EP p a tx l : pool_ok D (tx :: X) EP (Some a) p -> From tx = Some a -> wf l -> strict l = false ->
  contents l = <[Nonce tx := tx]> (contents (default (newTxsList false) (queue p !! a))) ->
  pool_ok D X EP (Some a) (set_queue (<[a := l]> (queue p)) p).
Proof. intros Hok Ha Hw Hs Hc. apply (ok_setQueue D (tx :: X)); [done..|]. rewrite Hc, <- cts_default. apply placed_swap, placed_put; [apply placed_swap, Hok|done]. Qed.

Lemma ok_del_P D X EQ p a l : pool_ok D X (Some a) EQ p -> pending p !! a = Some l -> contents l = ∅ -> pool_ok D X None EQ (set_pending (delete a (pending p)) p).
Proof.
  intros [] Ha Hc. split; try done; fields.
  - intros b l' [_ ?]%lookup_delete_Some. by eapply ok_pending0.
  - unfold cts. rewrite fmap_delete. eapply placed_at; [|done]. intros b n. apply at_delete. change (cts (pending p) !! a = Some ∅). by rewrite cts_lookup, Ha, <- Hc.
  - intros b l' _. fields. intros [Hne ?]%lookup_delete_Some. apply (ok_sp0 b l'); [congruence|done].
Qed.
Lemma ok_del_Q D X EP p a l : pool_ok D X EP (Some a) p -> queue p !! a = Some l -> contents l = ∅ ->
  pool_ok D X EP None (set_beats (delete a (beats p)) (set_queue (delete a (queue p)) p)).
Proof.
  intros [] Ha Hc. split; try done; fields.
  - intros b l' [_ ?]%lookup_delete_Some. by eapply ok_queue0.
  - unfold cts. rewrite (fmap_delete _ (queue p)). apply placed_swap. eapply placed_at; [|by apply placed_swap]. intros b n. apply at_delete. change (cts (queue p) !! a = Some ∅). by rewrite cts_lookup, Ha, <- Hc.
  - intros b l' _. fields. intros [Hne Hl]%lookup_delete_Some. rewrite lookup_delete_ne by done. apply (ok_sq0 b l'); [congruence|done].
Qed.
End Inv.

(** No method is under way. *)
Abbreviation PoolOK := (pool_ok [] [] None None).
End TxPoolInv.
