(* ===== verification/TxPoolMoves.v ===== *)
(** * TxPoolMoves: the methods that move transactions keep the invariant

    One lemma per method of the pool: it returns, it does not panic, and what is
    left is [pool_ok] again. *)

From S2P Require Import Prelude Uint256 ChainConfig Header HeaderRules StateModel StateTransition Transaction Heap TxSortedMap TxList TxLookup TxPool TxTakes TxPriced TxPlaces TxPoolInv.
Import Transaction.
Import TxsList.

Module TxPoolMoves.
Import TxPool TxTakes TxPriced TxPlaces TxPoolInv.

Section Moves.
Context `{U : Uint256} `{MR : MapRange} `{H : !TxHasher} `{Env : !PoolEnv}.
Implicit Types (p : TxsPool) (X r : list TxData) (D : list Hash) (EP EQ : option Address) (a : Address) (tx : TxData) (l : txsList).

(** ** Between the lists *)

Lemma flight_free_P D X EP EQ p a tx : pool_ok D (tx :: X) EP EQ p -> From tx = Some a ->
  contents (default (newTxsList true) (pending p !! a)) !! Nonce tx = None /\ in_u64 (Nonce tx).
Proof.
  intros [] Ha. rewrite <- cts_default, <- at_default. split; [|by apply (pl_X _ _ _ _ ok_placed0 tx); left].
  by apply (pl_XPQ _ _ _ _ ok_placed0 a tx); [left|].
Qed.
Lemma flight_free_Q D X EP EQ p a tx : pool_ok D (tx :: X) EP EQ p -> From tx = Some a ->
  contents (default (newTxsList false) (queue p !! a)) !! Nonce tx = None /\ in_u64 (Nonce tx).
Proof.
  intros [] Ha. rewrite <- cts_default, <- at_default. split; [|by apply (pl_X _ _ _ _ ok_placed0 tx); left].
  by apply (pl_XPQ _ _ _ _ ok_placed0 a tx); [left|].
Qed.

Lemma insert_nonempty (m : gmap Z TxData) k tx : <[k := tx]> m <> ∅.
Proof. apply insert_non_empty. Qed.

Lemma runs_promoteTx D X EQ p a tx : pool_ok D (tx :: X) None EQ p -> From tx = Some a ->
  runs (promoteTx a (TxHash tx) tx) p (fun p' b => b = true /\ pool_ok D X None EQ p' /\ queue p' = queue p /\ env p' = env p /\
    forall b, is_Some (beats p !! b) -> is_Some (beats p' !! b)).
Proof.
  intros Hok Ha. destruct (flight_free_P _ _ _ _ _ _ _ Hok Ha) as [Hfree Hu]. destruct (lists_default true (pending p) a) as [Hw Hs]; [apply Hok|].
  destruct (Add_fresh _ tx (PriceBump (config p)) Hw Hu Hfree) as (l & E & Hw' & Hs' & Hc). unfold promoteTx. step. step. rewrite E. cbn [discardOld negb]. steps.
  unfold nonceSet, beat. steps. split_and!; [done| |done|done|].
  - apply ok_beat, ok_nonces. eapply ok_settle_P; [eapply (ok_put_P _ _ _ _ _ tx); [by eapply ok_weaken_P|done|done|by rewrite Hs'|done]|].
    intros l'. fields. rewrite lookup_insert_eq. intros [= <-]. rewrite Hc. apply insert_nonempty.
  - intros b Hb. fields. rewrite lookup_insert. by case_decide.
Qed.

(** Back to the queue. *)
Lemma runs_requeue D X EP p a tx local : pool_ok D (tx :: X) EP None p -> From tx = Some a ->
  runs (enqueueTx (TxHash tx) tx local false) p (fun p' b => pool_ok D X EP None p' /\ pending p' = pending p /\ all p' = all p /\ env p' = env p).
Proof.
  intros Hok Ha. destruct (flight_free_Q _ _ _ _ _ _ _ Hok Ha) as [Hfree Hu]. destruct (lists_default false (queue p) a) as [Hw Hs]; [apply Hok|].
  destruct (Add_fresh _ tx (PriceBump (config p)) Hw Hu Hfree) as (l & E & Hw' & Hs' & Hc). unfold enqueueTx. step. eapply runs_lift; [by rewrite Ha|]. step. step. rewrite E.
  cbn [discardOld negb]. steps. fields.
  assert (pool_ok D X EP (Some a) (set_queue (<[a := l]> (queue p)) p)) as Hok'.
  { eapply (ok_put_Q _ _ _ _ _ tx); [by eapply ok_weaken_Q|done|done|by rewrite Hs'|done]. }
  destruct (beats p !! a) as [t|] eqn:Eb; unfold beat; steps; fields; (split_and!; [|done..]).
  - eapply ok_settle_Q; [exact Hok'|]. intros l'. fields. rewrite lookup_insert_eq. intros [= <-]. rewrite Hc, Eb. split; [apply insert_nonempty|done].
  - eapply ok_settle_Q; [apply (ok_beat _ _ _ _ _ a (clock (tick p)) (S (tick p)) Hok')|]. intros l'. fields. rewrite !lookup_insert_eq. intros [= <-]. rewrite Hc. split; [apply insert_nonempty|done].
Qed.

Lemma runs_enqueueAll D X EP p a r : pool_ok D (r ++ X) EP None p -> (forall tx, tx ∈ r -> From tx = Some a) ->
  runs (enqueueAll r) p (fun p' _ => pool_ok D X EP None p' /\ pending p' = pending p /\ all p' = all p /\ env p' = env p).
Proof.
  intros Hok Hr. unfold enqueueAll.
  eapply runs_mono; [eapply (runs_forEach _ _ (fun r p' => (pool_ok D (r ++ X) EP None p' /\ pending p' = pending p /\ all p' = all p /\ env p' = env p) /\ forall tx, tx ∈ r -> From tx = Some a))|].
  - done.
  - intros tx r' p' [(Hok' & Hp & HA & He) Hr']. step. eapply runs_mono; [eapply runs_requeue; [exact Hok'|by apply Hr'; left]|].
    intros p'' b (Hok'' & Hp' & HA' & He'). step. split; [split_and!; [done|congruence..]|]. intros t Ht. apply Hr'. by right.
  - by intros p' b [? _].
Qed.

Lemma runs_promoteReady D X EQ p a r : pool_ok D (r ++ X) None EQ p -> (forall tx, tx ∈ r -> From tx = Some a) ->
  runs (promoteReady a r) p (fun p' b => b = r /\ pool_ok D X None EQ p' /\ queue p' = queue p /\ env p' = env p /\
    forall b, is_Some (beats p !! b) -> is_Some (beats p' !! b)).
Proof.
  revert p. induction r as [|tx r IH]; intros p Hok Hr; cbn [promoteReady]; [by step|].
  step. eapply runs_mono; [eapply runs_promoteTx; [exact Hok|by apply Hr; left]|]. intros p' b (-> & Hok' & Hq & He & Hb). step.
  eapply runs_mono; [apply IH; [exact Hok'|by intros; apply Hr; right]|]. intros p'' b (-> & Hok'' & Hq' & He' & Hb'). step. split_and!; [done|done|congruence|congruence|auto].
Qed.

Lemma runs_nonceGet a p (Q : TxsPool -> Z -> Prop) : (forall m n, Q (set_pendingNonces m p) n) -> runs (nonceGet a) p Q.
Proof. intros HQ. unfold runs, nonceGet. destruct (pendingNonces p !! a) as [n|]; [exists p, n|eexists _, _]; (split; [done|]); [|by apply HQ]. specialize (HQ (pendingNonces p) n). by destruct p. Qed.

Lemma runs_setIfLower a n p (Q : TxsPool -> unit -> Prop) : (forall m, Q (set_pendingNonces m p) tt) -> runs (setIfLower a n) p Q.
Proof. intros HQ. unfold setIfLower. step. apply runs_nonceGet. intros m k. case_match; [step; apply HQ|]. unfold nonceSet. step. apply HQ. Qed.

(** ** Promotion *)

Lemma takes_trans l l1 l2 r1 r2 : takes l l1 r1 -> takes l1 l2 r2 -> takes l l2 (r1 ++ r2).
Proof.
  intros H1 H2. assert (forall tx, tx ∈ r2 -> contents l !! Nonce tx = Some tx /\ Nonce tx ∉ Nonce <$> r1) as Hr2.
  { intros tx Htx%(tk_in _ _ _ H2). rewrite (tk_contents _ _ _ H1), SortedMap.lookup_without in Htx. by case_decide. }
  split.
  - apply H2.
  - by rewrite (tk_strict _ _ _ H2), (tk_strict _ _ _ H1).
  - rewrite (tk_contents _ _ _ H2), (tk_contents _ _ _ H1), <- SortedMap.without_app. apply SortedMap.without_perm, Permutation_app_comm.
  - apply NoDup_app. split_and!; [apply H1| |apply H2]. intros tx Htx [_ Hni]%Hr2. by apply Hni, list_elem_of_fmap_2.
  - intros tx [Htx|Htx]%elem_of_app; [by apply (tk_in _ _ _ H1)|by apply Hr2].
Qed.

(** What leaves the list of an account is of that account. *)
Lemma taken_from D X EP EQ p a l l' r : pool_ok D X EP EQ p -> (pending p !! a = Some l \/ queue p !! a = Some l) -> takes l l' r -> forall tx, tx ∈ r -> From tx = Some a.
Proof.
  intros [] Hl Ht tx Htx. pose proof (tk_in _ _ _ Ht tx Htx) as Hin. destruct Hl as [Hl|Hl].
  - apply (pl_P _ _ _ _ ok_placed0 a (Nonce tx) tx). unfold at_. by rewrite cts_lookup, Hl.
  - apply (pl_Q _ _ _ _ ok_placed0 a (Nonce tx) tx). unfold at_. by rewrite cts_lookup, Hl.
Qed.

(** The end of a method: a queued list that was emptied goes. *)
Lemma runs_dropEmptyQueue D X EP p a l : pool_ok D X EP (Some a) p -> queue p !! a = Some l -> is_Some (beats p !! a) ->
  runs (if Empty l then delQueue a else mret tt) p (fun p' _ => pool_ok D X EP None p' /\ env p' = env p /\ pending p' = pending p).
Proof.
  intros Hok Hl Hb. rewrite Empty_spec. case_bool_decide as He.
  - unfold delQueue. step. split; [by eapply ok_del_Q|done].
  - step. split; [|done]. eapply ok_settle_Q; [exact Hok|]. intros l'. rewrite Hl. by intros [= <-].
Qed.
Lemma runs_dropEmptyPending D X EQ p a l : pool_ok D X (Some a) EQ p -> pending p !! a = Some l ->
  runs (if Empty l then delPending a else mret tt) p (fun p' _ => pool_ok D X None EQ p' /\ env p' = env p /\ all p' = all p).
Proof.
  intros Hok Hl. rewrite Empty_spec. case_bool_decide as He.
  - unfold delPending. step. split; [by eapply ok_del_P|done].
  - step. split; [|done]. eapply ok_settle_P; [exact Hok|]. intros l'. rewrite Hl. by intros [= <-].
Qed.

(** [lift] of an operation that returns, with the pair it returns. *)
Ltac liftE E := step; eapply runs_lift; [first [exact E | apply derefAll_some]|]; cbv beta iota.
Ltac forgetE := step; eapply runs_eq; [apply forget_eq|]; cbv beta iota.

Lemma Filter_parts l c g : wf l -> exists l' d i, Filter l c g = (l', (d, i)) /\ takes l l' (d ++ i) /\ (strict l = false -> i = []).
Proof.
  intros Hw. pose proof (Filter_takes l c g Hw) as Ht. pose proof (Filter_lax l c g Hw) as Hi. destruct (Filter l c g) as [l' [d i]]. by exists l', d, i.
Qed.

Lemma Cap_local l (b : bool) t p (Q : TxsPool -> txsList * list (option TxData) -> Prop) : wf l -> 0 <= t ->
  (forall l' r, takes l l' r -> Q p (l', Some <$> r)) -> runs (if b then mret (l, []) else lift (Cap l t)) p Q.
Proof.
  intros Hw Ht HQ. destruct b; [apply runs_ret, (HQ l []); by apply takes_refl|].
  destruct (Cap_takes l t Hw Ht) as (l' & r & E & Htk & _). eapply runs_lift; [exact E|]. by apply HQ.
Qed.

Lemma runs_promoteAccount D X p a : pool_ok D X None None p -> 0 <= AccountQueue (config p) ->
  runs (promoteAccount a) p (fun p' txs => pool_ok D X None None p' /\ env p' = env p /\ forall tx, tx ∈ txs -> From tx = Some a).
Proof.
  intros Hok Hq. unfold promoteAccount. step. step. destruct (queue p !! a) as [l|] eqn:El; [|step; split_and!; [done|done|by intros ? ?%elem_of_nil]]. step. step.
  destruct (ok_queue _ _ _ _ _ Hok a l El) as [Hw Hs]. destruct (Forward_takes l (GetNonce (currentState p) a) Hw) as (l1 & r1 & E1 & T1). liftE E1. liftE E1. forgetE.
  destruct (Filter_parts l1 (GetBalance (currentState p) a) (currentMaxGas p) (tk_wf _ _ _ T1)) as (l2 & d & i & E2 & T2 & Hi). rewrite E2.
  rewrite Hi in T2 by (by rewrite (tk_strict _ _ _ T1)). rewrite app_nil_r in T2. forgetE. step. apply runs_nonceGet. intros m n.
  destruct (Ready_takes l2 n (tk_wf _ _ _ T2)) as (l3 & r3 & E3 & T3). liftE E3. liftE E3. step. step.
  pose proof (takes_trans _ _ _ _ _ (takes_trans _ _ _ _ _ T1 T2) T3) as T. destruct (ok_sq _ _ _ _ _ Hok a l) as [_ Hb]; [done|done|].
  assert (pool_ok D (r3 ++ X) None (Some a) (set_queue (<[a := l3]> (queue p)) (set_pendingNonces m (set_all (forgetAll d (forgetAll r1 (all p))) p)))) as Hok1.
  { change (pool_ok D (r3 ++ X) None (Some a) (set_pendingNonces m (set_all (forgetAll d (forgetAll r1 (all p))) (set_queue (<[a := l3]> (queue p)) p)))). apply (ok_nonces D (r3 ++ X) None (Some a) (set_all (forgetAll d (forgetAll r1 (all p))) (set_queue (<[a := l3]> (queue p)) p)) m).
    apply (ok_forgetAll D (r3 ++ X) None (Some a) (set_all (forgetAll r1 (all p)) (set_queue (<[a := l3]> (queue p)) p)) d), (ok_forgetAll D (d ++ r3 ++ X) None (Some a) (set_queue (<[a := l3]> (queue p)) p) r1).
    rewrite !app_assoc. eapply ok_take_Q; [by eapply ok_weaken_Q|exact El|exact T]. }
  assert (forall tx, tx ∈ r3 -> From tx = Some a) as Hr3.
  { intros tx Htx. eapply (taken_from _ _ _ _ _ _ _ _ _ Hok); [right; exact El|exact T|]. apply elem_of_app. by right. }
  step. eapply runs_mono; [eapply runs_promoteReady; [exact Hok1|exact Hr3]|]. intros p2 pr (-> & Hok2 & Hq2 & He2 & Hb2). fields.
  step. apply Cap_local; [apply T|done|]. intros l4 r4 T4. cbv beta iota. liftE El. forgetE.
  assert (queue p2 !! a = Some l3) as El3 by (rewrite Hq2; apply lookup_insert_eq).
  assert (pool_ok D X None (Some a) (set_all (forgetAll r4 (all p2)) (set_queue (<[a := l4]> (queue p2)) p2))) as Hok3.
  { apply (ok_forgetAll D X None (Some a) (set_queue (<[a := l4]> (queue p2)) p2) r4). eapply ok_take_Q; [exact Hok2|exact El3|exact T4]. }
  destruct (ok_Removed _ _ _ _ _ (Z.of_nat (length r4)) Hok3) as (L & EL & Hok4). step. eapply runs_eq; [apply pricedRemoved_eq; exact EL|]. cbv beta iota. step. step.
  step. eapply runs_mono; [eapply runs_dropEmptyQueue; [exact Hok4|apply lookup_insert_eq|by apply Hb2]|]. intros p3 [] (Hok5 & He3 & _). step. split_and!; [done| |done].
  rewrite He3. exact He2.
Qed.

(** ** Demotion *)

Lemma runs_demoteAccount D X p a : pool_ok D X None None p -> runs (demoteAccount a) p (fun p' _ => pool_ok D X None None p' /\ env p' = env p).
Proof.
  intros Hok. unfold demoteAccount. step. step. destruct (pending p !! a) as [l|] eqn:El; [|by step]. step. step.
  destruct (ok_pending _ _ _ _ _ Hok a l El) as [Hw Hs]. destruct (Forward_takes l (GetNonce (currentState p) a) Hw) as (l1 & r1 & E1 & T1). liftE E1. liftE E1. forgetE.
  destruct (Filter_parts l1 (GetBalance (currentState p) a) (currentMaxGas p) (tk_wf _ _ _ T1)) as (l2 & d & i & E2 & T2 & _). rewrite E2. forgetE. step. step.
  pose proof (takes_trans _ _ _ _ _ T1 T2) as T.
  assert (pool_ok D (i ++ X) (Some a) None (set_all (forgetAll d (forgetAll r1 (all p))) (set_pending (<[a := l2]> (pending p)) p))) as Hok1.
  { apply (ok_forgetAll D (i ++ X) (Some a) None (set_all (forgetAll r1 (all p)) (set_pending (<[a := l2]> (pending p)) p)) d), (ok_forgetAll D (d ++ i ++ X) (Some a) None (set_pending (<[a := l2]> (pending p)) p) r1).
    rewrite !app_assoc, <- (app_assoc r1). eapply ok_take_P; [by eapply ok_weaken_P|exact El|exact T]. }
  assert (forall tx, tx ∈ i -> From tx = Some a) as Hi.
  { intros tx Htx. eapply (taken_from _ _ _ _ _ _ _ _ _ Hok); [left; exact El|exact T|]. rewrite !elem_of_app. by right; right. }
  step. eapply runs_mono; [eapply runs_enqueueAll; [exact Hok1|exact Hi]|]. intros p2 _ (Hok2 & Hp2 & _ & He2). fields.
  assert (pending p2 !! a = Some l2) as El2 by (rewrite Hp2; apply lookup_insert_eq). step.
  enough (runs (if (0 <? Len l2) && bool_decide (SortedMap.Get (txs l2) (GetNonce (currentState p) a) = None) then
                '(list, gapped) ← lift (Cap l2 0); gapped ← lift (derefAll gapped); setPending a list;; enqueueAll gapped;; mret list
              else mret l2) p2 (fun p' l' => pool_ok D X (Some a) None p' /\ pending p' !! a = Some l' /\ env p' = env p)) as Hg.
  { eapply runs_mono; [exact Hg|]. intros p3 l3 (Hok3 & El3 & He3). eapply runs_mono; [by eapply runs_dropEmptyPending|]. intros p4 [] (? & He4 & _). split; [done|congruence]. }
  destruct (_ && _); [|step; by split_and!].
  destruct (Cap_takes l2 0 (tk_wf _ _ _ T2)) as (l3 & r3 & E3 & T3 & _); [lia|]. liftE E3. liftE E3. step. step. step.
  eapply runs_mono; [eapply runs_enqueueAll; [eapply ok_take_P; [exact Hok2|exact El2|exact T3]|by eapply taken_from; [exact Hok2|left; exact El2|exact T3]]|].
  intros p3 _ (Hok3 & Hp3 & _ & He3). step. split_and!; [done| |by rewrite He3; exact He2]. rewrite Hp3. apply lookup_insert_eq.
Qed.
End Moves.
End TxPoolMoves.
