(* ===== verification/TxPoolAdds.v ===== *)
(** * TxPoolAdds: removing and adding transactions keeps the invariant

    [removeTx] and what is built on it: making room for a transaction, inserting
    it, and [AddLocals] and [AddRemotes]. *)

From S2P Require Import Prelude Uint256 ChainConfig Header HeaderRules StateModel StateTransition Transaction Heap TxSortedMap TxList TxLookup TxPool TxTakes TxPriced TxPlaces TxPoolInv TxPoolMoves.
Import Transaction.
Import TxsList.

Module TxPoolAdds.
Import TxPool TxTakes TxPriced TxPlaces TxPoolInv TxPoolMoves.

Section Adds.
Context `{U : Uint256} `{MR : MapRange} `{H : !TxHasher} `{Env : !PoolEnv}.
Implicit Types (p : TxsPool) (X r : list TxData) (D : list Hash) (EP EQ : option Address) (a : Address) (tx : TxData) (l : txsList).

(** ** Removing *)

(** One transaction less, and no list if it was the last. *)
Definition drop1 a (n : Z) (M : gmap Address (gmap Z TxData)) : gmap Address (gmap Z TxData) :=
  match M !! a with
  | Some m => if decide (delete n m = ∅) then delete a M else <[a := delete n m]> M
  | None => M
  end.

Lemma takes_one l l' tx : takes l l' [tx] -> contents l' = delete (Nonce tx) (contents l).
Proof. intros Ht. apply (tk_contents _ _ _ Ht). Qed.

Lemma removeQueued_eq D X EP p a tx l : pool_ok D X EP None p -> queue p !! a = Some l -> contents l !! Nonce tx = Some tx ->
  exists Q' B', (forall p2, queue p2 = queue p -> beats p2 = beats p -> removeQueued a tx p2 = Ok (set_beats B' (set_queue Q' p2), tt)) /\
    pool_ok D (tx :: X) EP None (set_beats B' (set_queue Q' p)) /\ cts Q' = drop1 a (Nonce tx) (cts (queue p)).
Proof.
  intros Hok Hl Htx. destruct (ok_queue _ _ _ _ _ Hok a l Hl) as [Hw Hs]. destruct (ok_sq _ _ _ _ _ Hok a l) as [_ Hb]; [done..|].
  destruct (Remove_takes l tx Hw Htx) as (l' & inv & E & T & Hi). rewrite Hi in * by done. clear Hi inv.
  assert (pool_ok D (tx :: X) EP (Some a) (set_queue (<[a := l']> (queue p)) p)) as Hok'.
  { apply (ok_take_Q _ _ _ _ _ l l' [tx]); [by eapply ok_weaken_Q|done|done]. }
  assert (drop1 a (Nonce tx) (cts (queue p)) = if decide (contents l' = ∅) then delete a (cts (queue p)) else <[a := contents l']> (cts (queue p))) as Hd.
  { unfold drop1. rewrite cts_lookup, Hl. cbn [fmap option_fmap option_map]. by rewrite <- (takes_one _ _ _ T). }
  destruct (decide (contents l' = ∅)) as [He|He].
  - exists (delete a (<[a := l']> (queue p))), (delete a (beats p)). split_and!.
    + intros p2 EQ EB. unfold removeQueued, mbind, M_bind, gets, lift. rewrite EQ, Hl, E. cbn [setQueue modify]. rewrite Empty_spec, bool_decide_true by done.
      unfold delQueue, modify. fields. by rewrite EQ, EB.
    + apply (ok_del_Q _ _ _ _ a l') in Hok'; [done|apply lookup_insert_eq|done].
    + rewrite Hd, delete_insert_eq. unfold cts. apply fmap_delete.
  - exists (<[a := l']> (queue p)), (beats p). split_and!.
    + intros p2 EQ EB. unfold removeQueued, mbind, M_bind, gets, lift. rewrite EQ, Hl, E. cbn [setQueue modify]. rewrite Empty_spec, bool_decide_false by done.
      unfold setQueue, modify, mret, M_ret. rewrite <- EB, <- EQ. by destruct p2.
    + eapply ok_settle_Q in Hok'; [|intros l''; fields; rewrite lookup_insert_eq; intros [= <-]; split; [done|exact Hb]]. by destruct p.
    + rewrite Hd. apply cts_insert.
Qed.

(** The lookup and the priced list when [removeTx] has started. *)
Lemma unlist D X EP EQ p tx (b : bool) : pool_ok D (tx :: X) EP EQ p ->
  let A := TxLookup.Remove (TxHash tx) (all p) in
  exists L, (forall p2, priced p2 = priced p -> all p2 = A -> (if b then pricedRemoved 1 else mret tt) p2 = Ok (set_priced L p2, tt)) /\
    pool_ok D X EP EQ (set_priced L (set_all A p)).
Proof.
  intros Hok A. pose proof (ok_forget _ _ _ _ _ _ Hok) as Hf. fold A in Hf. destruct b.
  - destruct (ok_Removed _ _ _ _ _ 1 Hf) as (L & E & HL). exists L. split; [|done]. intros p2 EP2 EA. apply pricedRemoved_eq. by rewrite EP2, EA.
  - exists (priced p). split; [|by destruct p]. intros p2 <- _. by destruct p2.
Qed.

(** A transaction is in one of the lists of its account. *)
Lemma known_where D p h tx : pool_ok D [] None None p -> TxLookup.Get (all p) h = Some tx ->
  TxHash tx = h /\ exists a, From tx = Some a /\
    ((exists l, pending p !! a = Some l /\ contents l !! Nonce tx = Some tx) \/
     (exists l, queue p !! a = Some l /\ contents l !! Nonce tx = Some tx /\ forall l', pending p !! a = Some l' -> contents l' !! Nonce tx = None)).
Proof.
  intros [] Hg. apply (pl_g _ _ _ _ ok_placed0) in Hg as [Hh [Hx|[(a & Ha & E)|(a & Ha & E)]]]; [by apply elem_of_nil in Hx|..]; (split; [done|]); exists a; (split; [done|]).
  - left. unfold at_ in E. rewrite cts_lookup in E. destruct (pending p !! a) as [l|]; [|done]. by exists l.
  - right. assert (at_ (cts (pending p)) a (Nonce tx) = None) as Hn by (destruct (pl_PQ _ _ _ _ ok_placed0 a (Nonce tx)); congruence).
    unfold at_ in *. rewrite cts_lookup in *. destruct (queue p !! a) as [l|]; [|done]. exists l. split_and!; [done|done|].
    intros l' El'. by rewrite El' in Hn.
Qed.

Definition unknown (h : Hash) p p' : Prop := forall k, TxLookup.Get (all p') k = if decide (k = h) then None else TxLookup.Get (all p) k.

Lemma runs_remove_pending D p a tx l (b : bool) : pool_ok D [] None None p -> From tx = Some a -> pending p !! a = Some l -> contents l !! Nonce tx = Some tx ->
  TxLookup.Get (all p) (TxHash tx) = Some tx ->
  runs (removeTx (TxHash tx) b) p (fun p' _ => pool_ok D [] None None p' /\ env p' = env p /\ unknown (TxHash tx) p p').
Proof.
  intros Hok Ha Hl Htx Hg. destruct (ok_pending _ _ _ _ _ Hok a l Hl) as [Hw Hs]. destruct (Remove_takes l tx Hw Htx) as (l' & inv & E & T & _).
  assert (pool_ok D (tx :: inv ++ []) (Some a) None (set_pending (<[a := l']> (pending p)) p)) as Hok1.
  { apply (ok_take_P D [] None p a l l' (tx :: inv)); [by eapply ok_weaken_P|done|done]. }
  destruct (unlist _ _ _ _ _ _ b Hok1) as (L & EL & Hok2). fields.
  unfold removeTx. step. step. rewrite Hg. step. eapply runs_lift; [by rewrite Ha|]. step. apply runs_modify. step. eapply runs_eq; [by apply EL|]. rewrite Hl.
  step. eapply runs_lift; [exact E|]. cbv beta iota. step. step. cbn [negb].
  step. eapply runs_mono; [eapply (runs_dropEmptyPending D (inv ++ []) None _ a l'); [exact Hok2|apply lookup_insert_eq]|]. intros p3 [] (Hok3 & He3 & HA3).
  step. eapply runs_mono; [eapply (runs_enqueueAll D [] None p3 a inv); [done|]|].
  { intros t Ht. eapply (taken_from _ _ _ _ _ _ _ _ _ Hok); [left; exact Hl|exact T|by right]. }
  intros p4 _ (Hok4 & _ & HA4 & He4). apply runs_setIfLower. intros m. split_and!; [by apply ok_nonces|change (env p4 = env p); by rewrite He4, He3|].
  intros k. change (all (set_pendingNonces m p4)) with (all p4). rewrite HA4, HA3. apply Get_Remove.
Qed.

(** A queued transaction leaves its list and nothing else moves. *)
Lemma runs_remove_queued D p a tx l (b : bool) : pool_ok D [] None None p -> From tx = Some a -> queue p !! a = Some l -> contents l !! Nonce tx = Some tx ->
  (forall l', pending p !! a = Some l' -> contents l' !! Nonce tx = None) -> TxLookup.Get (all p) (TxHash tx) = Some tx ->
  runs (removeTx (TxHash tx) b) p (fun p' _ => pool_ok D [] None None p' /\ env p' = env p /\ unknown (TxHash tx) p p' /\
    cts (pending p') = cts (pending p) /\ cts (queue p') = drop1 a (Nonce tx) (cts (queue p))).
Proof.
  intros Hok Ha Hl Htx Hp Hg. destruct (removeQueued_eq D [] None p a tx l Hok Hl Htx) as (Q' & B' & Er & Hok1 & Hd).
  destruct (unlist _ _ _ _ _ _ b Hok1) as (L & EL & Hok2). fields.
  unfold removeTx. step. step. rewrite Hg. step. eapply runs_lift; [by rewrite Ha|]. step. apply runs_modify. step. eapply runs_eq; [by apply EL|].
  destruct (pending p !! a) as [l0|] eqn:El0.
  - destruct (ok_pending _ _ _ _ _ Hok a l0 El0) as [Hw0 _]. destruct (Remove_absent l0 tx Hw0) as (l1 & E1 & T1); [by apply Hp|].
    step. eapply runs_lift; [exact E1|]. cbv beta iota. step. step. cbn [negb]. eapply runs_eq; [by apply Er|].
    assert (contents l1 = contents l0) as Hc by apply (tk_contents _ _ _ T1). split_and!.
    + assert (pool_ok D [] None None (set_pending (<[a := l1]> (pending p)) (set_priced L (set_all (TxLookup.Remove (TxHash tx) (all p)) (set_beats B' (set_queue Q' p)))))) as Hok3; [|exact Hok3].
      eapply (ok_settle_P _ _ _ _ a); [match type of Hok2 with pool_ok _ _ _ _ ?g => apply (ok_take_P D [] None g a l0 l1 []) end; [by eapply ok_weaken_P|exact El0|exact T1]|].
      intros l2. fields. rewrite lookup_insert_eq. intros [= <-]. rewrite Hc. by apply (ok_sp _ _ _ _ _ Hok a l0).
    + done.
    + intros k. apply Get_Remove.
    + fields. rewrite cts_insert, Hc. apply insert_id. by rewrite cts_lookup, El0.
    + exact Hd.
  - eapply runs_eq; [by apply Er|]. split_and!; [exact Hok2|done|intros k; apply Get_Remove|done|exact Hd].
Qed.

Lemma runs_removeTx D p h (b : bool) : pool_ok D [] None None p ->
  runs (removeTx h b) p (fun p' _ => pool_ok D [] None None p' /\ env p' = env p /\ unknown h p p').
Proof.
  intros Hok. destruct (TxLookup.Get (all p) h) as [tx|] eqn:Hg.
  - destruct (known_where D p h tx Hok Hg) as (<- & a & Ha & [(l & Hl & Htx)|(l & Hl & Htx & Hp)]); [by eapply runs_remove_pending|].
    eapply runs_mono; [by eapply runs_remove_queued|]. by intros p' [] (? & ? & ? & _).
  - unfold removeTx. step. step. rewrite Hg. step. split_and!; [done|done|]. intros k. case_decide; congruence.
Qed.

(** Dropping what [Discard] handed out. *)
Lemma ok_dropped D h p : pool_ok (h :: D) [] None None p -> TxLookup.Get (all p) h = None -> pool_ok D [] None None p.
Proof.
  intros [] Hh%Get_None. split; try done. eapply covered_weaken; [|done]. intros k [->|?]%elem_of_cons [t Ht]; [by destruct Hh; congruence|done].
Qed.

Lemma runs_removeAll p r (b : bool) : pool_ok (TxHash <$> r) [] None None p ->
  runs (forEach (fun tx => removeTx (TxHash tx) b) r) p (fun p' _ => pool_ok [] [] None None p' /\ env p' = env p /\
    forall k, TxLookup.Get (all p) k = None -> TxLookup.Get (all p') k = None).
Proof.
  intros Hok. eapply runs_mono; [eapply (runs_forEach _ _ (fun r p' => pool_ok (TxHash <$> r) [] None None p' /\ env p' = env p /\
    forall k, TxLookup.Get (all p) k = None -> TxLookup.Get (all p') k = None))|]; [done| |done].
  intros tx r' p' (Hok' & He & Hk). eapply runs_mono; [by apply runs_removeTx|]. intros p'' _ (Hok'' & He' & Hu). split_and!; [|congruence|].
  - eapply ok_dropped; [exact Hok''|]. rewrite Hu. by rewrite decide_True.
  - intros k Hn. rewrite Hu. case_decide; [done|]. by apply Hk.
Qed.

(** ** Adding *)

Lemma ok_add_priced D p tx (local : bool) a (A : TxLookup.txLookup) L : pool_ok D [] None None p -> lookup_ok A -> covered D A L ->
  TxLookup.Get A (TxHash tx) = None -> From tx = Some a -> (local = false -> TxLookup.contains (plocals p) a = false) ->
  (forall h t, TxLookup.remotes A !! h = Some t -> TxLookup.remotes (all p) !! h = Some t) ->
  lookup_ok (TxLookup.Add tx local A) /\ covered D (TxLookup.Add tx local A) (TxLookup.PPut tx local L) /\
  forall h t b, TxLookup.remotes (TxLookup.Add tx local A) !! h = Some t -> From t = Some b -> TxLookup.contains (plocals p) b = false.
Proof.
  intros [] Hok Hc Hn Ha Hl Hsub. split_and!; [by apply Add_lookup_ok|by apply PPut_covered|]. intros h t b. unfold TxLookup.Add. destruct local; cbn [TxLookup.remotes].
  - intros Ht. by eapply ok_locals0, Hsub.
  - intros [[_ <-]|[_ Ht]]%lookup_insert_Some Hb; [rewrite Ha in Hb; injection Hb as <-; auto|]. by eapply ok_locals0; [apply Hsub|].
Qed.

Lemma ok_enter D p a tx local : pool_ok D [] None None p -> TxLookup.Get (all p) (TxHash tx) = None -> From tx = Some a -> in_u64 (Nonce tx) ->
  at_ (cts (pending p)) a (Nonce tx) = None -> at_ (cts (queue p)) a (Nonce tx) = None -> (local = false -> TxLookup.contains (plocals p) a = false) ->
  pool_ok D [tx] None None (set_priced (TxLookup.PPut tx local (priced p)) (set_all (TxLookup.Add tx local (all p)) p)).
Proof.
  intros Hok Hg Ha Hu HP HQ Hl. destruct (ok_add_priced D p tx local a (all p) (priced p)) as (H1 & H2 & H3); [done|apply Hok|apply Hok|done..|]. destruct Hok. split; try done.
  fields. eapply placed_ext; [|eapply placed_enter; [done|exact Hg|exact Ha|done|done|done|by intros ?%elem_of_nil]]. intros h. cbv beta. by apply Get_Add.
Qed.

(** The state after [old] was replaced by [tx]. *)
Definition replaced tx (local : bool) L (old : TxData) p : TxsPool :=
  set_priced (TxLookup.PPut tx local L) (set_all (TxLookup.Add tx local (TxLookup.Remove (TxHash old) (all p))) p).

Lemma Get_replace (A : TxLookup.txLookup) tx old (local : bool) h : TxLookup.Get A (TxHash tx) = None ->
  TxLookup.Get (TxLookup.Add tx local (TxLookup.Remove (TxHash old) A)) h = if decide (h = TxHash tx) then Some tx else if decide (h = TxHash old) then None else TxLookup.Get A h.
Proof. intros Hn. rewrite Get_Add; [by rewrite Get_Remove|]. rewrite Get_Remove. by case_decide. Qed.

Lemma replace_priced p tx local old a : pool_ok [] [] None None p -> TxLookup.Get (all p) (TxHash tx) = None -> From tx = Some a -> (local = false -> TxLookup.contains (plocals p) a = false) ->
  exists L, TxLookup.Removed (TxLookup.Remove (TxHash old) (all p)) 1 (priced p) = Ok L /\
    let A := TxLookup.Add tx local (TxLookup.Remove (TxHash old) (all p)) in
    lookup_ok A /\ covered [] A (TxLookup.PPut tx local L) /\ forall h t b, TxLookup.remotes A !! h = Some t -> From t = Some b -> TxLookup.contains (plocals p) b = false.
Proof.
  intros Hok Hg Ha Hl. destruct (Removed_covered [] (TxLookup.Remove (TxHash old) (all p)) 1 (priced p)) as (L & E & HL).
  - apply Remove_lookup_ok, Hok.
  - eapply covered_lookup; [|apply Hok]. intros h. rewrite remotes_Remove. by case_decide; [intros []|].
  - exists L. split; [done|]. apply (ok_add_priced [] p tx local a); [done|apply Remove_lookup_ok, Hok|done| |done|done|].
    + rewrite Get_Remove. by case_decide.
    + intros h t. rewrite remotes_Remove. by case_decide.
Qed.

Lemma ok_replace_P p a tx old l l' local : pool_ok [] [] None None p -> pending p !! a = Some l -> contents l !! Nonce tx = Some old ->
  wf l' -> strict l' = true -> contents l' = <[Nonce tx := tx]> (contents l) ->
  TxLookup.Get (all p) (TxHash tx) = None -> From tx = Some a -> (local = false -> TxLookup.contains (plocals p) a = false) ->
  exists L, TxLookup.Removed (TxLookup.Remove (TxHash old) (all p)) 1 (priced p) = Ok L /\
    pool_ok [] [] None None (replaced tx local L old (set_pending (<[a := l']> (pending p)) p)).
Proof.
  intros Hok Hl Ho Hw' Hs' Hc Hg Ha Hloc. destruct (replace_priced p tx local old a) as (L & E & H1 & H2 & H3); [done..|]. exists L. split; [done|].
  destruct (ok_pending _ _ _ _ _ Hok a l Hl) as [Hw Hs]. destruct (lw_keyed l Hw _ _ Ho) as [_ Hu]. destruct Hok. split; try done; unfold replaced; fields.
  - by apply lists_insert.
  - rewrite cts_insert, Hc. eapply placed_ext; [|eapply placed_replace; [done|by rewrite cts_lookup, Hl|exact Ho|exact Hg|done|done]]. intros h. by apply Get_replace.
  - intros b k _. fields. intros [[-> <-]|[_ ?]]%lookup_insert_Some; [rewrite Hc; apply insert_nonempty|by eapply ok_sp0].
Qed.
Lemma ok_replace_Q p a tx old l l' local : pool_ok [] [] None None p -> queue p !! a = Some l -> contents l !! Nonce tx = Some old ->
  wf l' -> strict l' = false -> contents l' = <[Nonce tx := tx]> (contents l) ->
  TxLookup.Get (all p) (TxHash tx) = None -> From tx = Some a -> (local = false -> TxLookup.contains (plocals p) a = false) ->
  exists L, TxLookup.Removed (TxLookup.Remove (TxHash old) (all p)) 1 (priced p) = Ok L /\
    pool_ok [] [] None None (replaced tx local L old (set_queue (<[a := l']> (queue p)) p)).
Proof.
  intros Hok Hl Ho Hw' Hs' Hc Hg Ha Hloc. destruct (replace_priced p tx local old a) as (L & E & H1 & H2 & H3); [done..|]. exists L. split; [done|].
  destruct (ok_queue _ _ _ _ _ Hok a l Hl) as [Hw Hs]. destruct (lw_keyed l Hw _ _ Ho) as [_ Hu]. destruct Hok. split; try done; unfold replaced; fields.
  - by apply lists_insert.
  - rewrite cts_insert, Hc. apply placed_swap. eapply placed_ext; [|eapply placed_replace; [by apply placed_swap|by rewrite cts_lookup, Hl|exact Ho|exact Hg|done|done]]. intros h. by apply Get_replace.
  - intros b k _. fields. intros [[-> <-]|[_ ?]]%lookup_insert_Some; [|by eapply ok_sq0]. rewrite Hc. split; [apply insert_nonempty|]. by eapply ok_sq0.
Qed.

(** What an insertion leaves: the transaction is known, or nothing has changed
    in the lookup and the lists. *)
Definition added tx p p' (err : option error) : Prop :=
  match err with
  | None => TxLookup.Get (all p') (TxHash tx) = Some tx
  | Some e => e = ErrReplaceUnderpriced /\ all p' = all p /\ pending p' = pending p /\ queue p' = queue p
  end.

(** A transaction the pool does not know, with the sender and nonce it needs. *)
Record newcomer p a tx (local : bool) : Prop := {
  nc_unknown : TxLookup.Get (all p) (TxHash tx) = None;
  nc_from : From tx = Some a;
  nc_nonce : in_u64 (Nonce tx);
  nc_remote : local = false -> TxLookup.contains (plocals p) a = false
}.

Lemma runs_discardOld p old L : TxLookup.Removed (TxLookup.Remove (TxHash old) (all p)) 1 (priced p) = Ok L ->
  discardOld (Some old) p = Ok (set_priced L (set_all (TxLookup.Remove (TxHash old) (all p)) p), tt).
Proof. intros E. unfold discardOld, mbind, M_bind, allRemove, modify. by apply pricedRemoved_eq. Qed.

Lemma runs_enqueueNew p a tx local : pool_ok [] [] None None p -> newcomer p a tx local -> at_ (cts (pending p)) a (Nonce tx) = None ->
  runs (enqueueTx (TxHash tx) tx local true) p (fun p' '(_, err) => pool_ok [] [] None None p' /\ env p' = env p /\ added tx p p' err).
Proof.
  intros Hok [Hg Ha Hu Hl] HP. unfold enqueueTx. step. eapply runs_lift; [by rewrite Ha|]. step. step.
  destruct (lists_default false (queue p) a) as [Hw Hs]; [apply Hok|].
  destruct (contents (default (newTxsList false) (queue p !! a)) !! Nonce tx) as [old|] eqn:Eo.
  - destruct (queue p !! a) as [l|] eqn:El; [|done]. cbn [default from_option id] in *.
    destruct (Add_over l tx (PriceBump (config p)) old Hw Eo) as [E|(l' & E & Hw' & Hs' & Hc)]; rewrite E; cbn [negb]; step; step.
    + step. rewrite insert_id by done. split_and!; [by destruct p|done|by split].
    + destruct (ok_replace_Q p a tx old l l' local) as (L & EL & Hok'); [done|done|done|done|by rewrite Hs'|done..|]. step. eapply runs_eq; [by apply runs_discardOld|]. cbv beta.
      step. step. apply runs_modify. apply runs_modify. step. step. fields. destruct (ok_sq _ _ _ _ _ Hok a l) as [_ [t Ht]]; [done|done|]. rewrite Ht. steps.
      split_and!; [exact Hok'|done|]. unfold added. fields. rewrite Get_replace by done. by rewrite decide_True.
  - destruct (Add_fresh _ tx (PriceBump (config p)) Hw Hu Eo) as (l & E & Hw' & Hs' & Hc). rewrite E. cbn [negb discardOld]. do 4 step. step. step. apply runs_modify. apply runs_modify. step. step. fields.
    pose proof Eo as HQ. rewrite <- cts_default, <- at_default in HQ. pose proof (ok_enter [] p a tx local Hok Hg Ha Hu HP HQ Hl) as Hok1.
    match type of Hok1 with pool_ok _ _ _ _ ?g => set (g0 := g) in * end.
    assert (pool_ok [] [] None (Some a) (set_queue (<[a := l]> (queue g0)) g0)) as Hok2.
    { eapply (ok_put_Q _ _ _ g0 _ tx); [by eapply ok_weaken_Q|done|done|by rewrite Hs'|exact Hc]. }
    destruct (beats p !! a) as [t|] eqn:Eb; unfold beat; steps; (split_and!; [|done|unfold added; fields; rewrite Get_Add by done; by rewrite decide_True]).
    + eapply (ok_settle_Q _ _ _ _ a); [exact Hok2|]. intros l'. fields. rewrite lookup_insert_eq. intros [= <-]. rewrite Hc, Eb. split; [apply insert_nonempty|done].
    + eapply (ok_settle_Q _ _ _ _ a); [apply (ok_beat _ _ _ _ _ a (clock (tick p)) (S (tick p)) Hok2)|]. intros l'. fields. unfold g0. fields. rewrite !lookup_insert_eq. intros [= <-]. rewrite Hc. split; [apply insert_nonempty|done].
Qed.

Lemma runs_markLocal p a : pool_ok [] [] None None p ->
  runs (markLocal a) p (fun p' _ => pool_ok [] [] None None p' /\ config p' = config p /\ chainconfig p' = chainconfig p /\ forall h, TxLookup.Get (all p') h = TxLookup.Get (all p) h).
Proof.
  intros Hok. unfold markLocal. step. apply runs_modify. destruct (RemoteToLocals_spec (TxLookup.add a (plocals p)) (all p)) as (A & n & E & _ & HA & HG & HR); [apply Hok| |].
  { intros h tx Hr. assert (TxLookup.Get (all p) h = Some tx) as Hg.
    { unfold TxLookup.Get. destruct (TxLookup.locals (all p) !! h) eqn:El; [by rewrite (lk_disjoint _ (ok_lookup _ _ _ _ _ Hok) _ _ El) in Hr|done]. }
    destruct (known_where _ _ _ _ Hok Hg) as (_ & b & -> & _). done. }
  step. eapply runs_eq; [fields; by rewrite E|]. cbv beta.
  assert (pool_ok [] [] None None (set_all A (set_plocals (TxLookup.add a (plocals p)) p))) as Hok1.
  { destruct Hok. split; try done; fields.
    - by eapply placed_ext.
    - eapply covered_lookup; [|done]. intros h [tx Ht]. apply HR in Ht as [Ht _]. by eexists.
    - intros h tx b [_ (c & Hc & Hn)]%HR Hb. congruence. }
  eapply runs_pricedRemoved; [exact Hok1|]. intros L HL. by split_and!.
Qed.

Definition config2 p := (config p, chainconfig p).

Lemma runs_insertTx p a tx local isLocal : pool_ok [] [] None None p -> newcomer p a tx isLocal ->
  runs (insertTx (TxHash tx) tx local isLocal) p (fun p' '(_, err) => pool_ok [] [] None None p' /\ config2 p' = config2 p /\ added tx p p' err).
Proof.
  intros Hok Hn. pose proof Hn as [Hg Ha Hu Hl]. unfold insertTx. step. eapply runs_lift; [by rewrite Ha|]. step. step.
  match goal with |- context [match ?o with Some _ => _ | None => _ end] => destruct o as [l|] eqn:El end.
  - destruct (pending p !! a) as [l0|] eqn:El0; [|done]. destruct (Overlaps l0 tx) eqn:Eov; [|done]. injection El as ->.
    destruct (ok_pending _ _ _ _ _ Hok a l El0) as [Hw Hs]. assert (exists old, contents l !! Nonce tx = Some old) as [old Eo] by (unfold Overlaps, SortedMap.Get in Eov; unfold contents; case_match; [by eexists|done]).
    destruct (Add_over l tx (PriceBump (config p)) old Hw Eo) as [E|(l' & E & Hw' & Hs' & Hc)]; rewrite E; cbn [negb]; step; step.
    + step. rewrite insert_id by done. split_and!; [by destruct p|done|by split].
    + destruct (ok_replace_P p a tx old l l' isLocal) as (L & EL & Hok'); [done|done|done|done|by rewrite Hs'|done..|]. step. eapply runs_eq; [by apply runs_discardOld|]. cbv beta.
      step. apply runs_modify. step. apply runs_modify. step. apply runs_modify. step. apply runs_modify. step.
      split_and!; [exact (ok_beat _ _ _ _ _ a _ _ (ok_events _ _ _ _ _ _ Hok'))|done|]. unfold added. fields. rewrite Get_replace by done. by rewrite decide_True.
  - step. eapply runs_mono; [apply (runs_enqueueNew p a tx isLocal); [done|done|]|].
    + unfold at_. rewrite cts_lookup. destruct (pending p !! a) as [l0|]; [|done]. cbn [fmap option_fmap option_map mbind option_bind].
      destruct (Overlaps l0 tx) eqn:Eov; [done|]. unfold Overlaps, SortedMap.Get in Eov. unfold contents. by case_match.
    + intros p1 [rep err] (Hok1 & He1 & Had). destruct err as [e|]; [step; split_and!; [done|unfold config2; by injection He1 as -> -> _ _ _|exact Had]|].
      step. step. assert (config2 p1 = config2 p) as Hc1 by (unfold config2; by injection He1 as -> -> _ _ _). destruct (local && _).
      * step. eapply runs_mono; [by apply runs_markLocal|]. intros p2 [] (Hok2 & Hc & Hcc & HG). step. split_and!; [done|unfold config2 in *; congruence|]. cbn in *. by rewrite HG.
      * step. step. step. by split_and!.
Qed.

(** The lookup and the lists are the same. *)
Definition same_txs p p' : Prop := all p' = all p /\ pending p' = pending p /\ queue p' = queue p.

Lemma runs_Underpriced p tx (isLocal : bool) : pool_ok [] [] None None p ->
  runs (if isLocal then mret false else fun p => '(l, b) ← TxLookup.Underpriced (all p) tx (priced p); Ok (set_priced l p, b)) p
    (fun p' _ => exists L, p' = set_priced L p /\ pool_ok [] [] None None p').
Proof.
  intros Hok. destruct isLocal; [step; exists (priced p); by destruct p|].
  destruct (Underpriced_covered [] (all p) tx (priced p)) as (L & b & E & HL); [apply Hok|]. eapply runs_eq; [by rewrite E|]. exists L. split; [done|]. destruct Hok. by split.
Qed.

Lemma runs_makeRoom p tx isLocal : pool_ok [] [] None None p ->
  runs (makeRoom tx isLocal) p (fun p' err => pool_ok [] [] None None p' /\ env p' = env p /\
    (forall h, TxLookup.Get (all p) h = None -> TxLookup.Get (all p') h = None) /\
    match err with None => True | Some e => (e = ErrUnderpriced \/ e = ErrTxPoolOverflow) /\ same_txs p p' end).
Proof.
  intros Hok. unfold makeRoom. step. step. set (limit := GlobalSlots (config p) +u GlobalQueue (config p)).
  destruct (negb _) eqn:Efull; [step; by split_and!|]. apply negb_false_iff, Z.ltb_lt in Efull.
  step. eapply runs_mono; [by apply runs_Underpriced|]. intros p1 under (L1 & -> & Hok1).
  destruct under; [step; split_and!; [done|done|done|by left|done]|].
  case_match; [step; split_and!; [done|done|done|by right|done]|].
  destruct (Discard_spec (all p) (TxLookup.slots (all p) - limit + TxLookup.numSlots tx) isLocal L1) as (L2 & d & b & E & Hr & Hd).
  { rewrite numSlots_one in *. assert (u64 (TxLookup.slots (all p) + 1) <= TxLookup.slots (all p) + 1); [|lia]. apply Z.mod_le; [|done].
    rewrite (lk_slots _ (ok_lookup _ _ _ _ _ Hok)). unfold TxLookup.Count. lia. }
  step. eapply runs_eq; [fields; rewrite E; done|]. cbv beta iota.
  assert (pool_ok (TxHash <$> d) [] None None (set_priced L2 (set_priced L1 p))) as Hok2.
  { destruct Hok1. split; try done. fields. by apply (Hd []). }
  destruct (negb isLocal && negb b) eqn:Ef.
  - step. apply andb_true_iff in Ef as [Ef1 Ef2]. apply negb_true_iff in Ef1 as ->, Ef2 as ->.
    split_and!; [|done|done|by right|done]. enough (d = []) as -> by exact Hok2.
    unfold TxLookup.Discard in E. case_match; [done|]. apply bind_Ok in E as ([[L3 n3] d3] & _ & E). case_match; by injection E.
  - step. apply runs_modify. step. eapply runs_mono; [apply (runs_removeAll _ d false); by apply ok_changes|]. intros p3 [] (Hok3 & He3 & Hk3). step. by split_and!.
Qed.

(** What the code takes for granted of a transaction: it has a sender, and its
    nonce is a [uint64]. *)
Definition goTx tx : Prop := is_Some (From tx) /\ in_u64 (Nonce tx).

Lemma IntrinsicGas_returns data al b1 b2 b3 b4 : IntrinsicGas data al b1 b2 b3 b4 <> Panic.
Proof. unfold IntrinsicGas, fail_if, mbind, outcome_bind. repeat case_match; simplify_eq/=; done. Qed.

Lemma validateTx_returns tx local p : goTx tx -> exists err, validateTx tx local p = Ok err.
Proof.
  intros [[a Ha] _]. unfold validateTx. rewrite Ha. cbn [TxLookup.deref or_panic mbind outcome_bind].
  repeat (match goal with |- context [if ?b then _ else _] => destruct b; [by eexists|] end).
  pose proof (IntrinsicGas_returns (from_nil (Data tx)) (GetAccessList tx) (bool_decide (To tx = None)) true (istanbul p) (shanghai p)) as Hi.
  destruct (IntrinsicGas _ _ _ _ _ _); [|by eexists|done]. case_match; [by eexists|]. case_match; by eexists.
Qed.

(** The outcome of [add]. *)
Definition add_result tx (local : bool) p p' (err : option error) : Prop :=
  match TxLookup.Get (all p) (TxHash tx) with
  | Some _ => err = Some ErrAlreadyKnown /\ p' = p
  | None =>
      let isLocal := local || match From tx with Some a => TxLookup.contains (plocals p) a | None => false end in
      match validateTx tx isLocal p with
      | Ok (Some e) => err = Some e /\ p' = p
      | Ok None =>
          match err with
          | None => TxLookup.Get (all p') (TxHash tx) = Some tx
          | Some e => ((e = ErrUnderpriced \/ e = ErrTxPoolOverflow) /\ same_txs p p') \/
                      (e = ErrReplaceUnderpriced /\ TxLookup.Get (all p') (TxHash tx) = None)
          end
      | _ => False
      end
  end.

Lemma runs_add p tx local : pool_ok [] [] None None p -> goTx tx ->
  runs (add tx local) p (fun p' '(_, err) => pool_ok [] [] None None p' /\ config2 p' = config2 p /\ add_result tx local p p' err).
Proof.
  intros Hok Htx. pose proof Htx as [[a Ha] Hu]. unfold add, add_result. step. step. destruct (TxLookup.Get (all p) (TxHash tx)) eqn:Hg; [by step|]. rewrite Ha.
  set (isLocal := local || TxLookup.contains (plocals p) a). step.
  apply (runs_eq _ _ p isLocal).
  { unfold isLocal. destruct local; [done|]. unfold lift, TxLookup.containsTx. by rewrite Ha. }
  destruct (validateTx_returns tx isLocal p Htx) as [err Ev]. rewrite Ev. step. eapply runs_lift; [reflexivity|]. destruct err as [e|]; [by step|].
  step. eapply runs_mono; [by apply (runs_makeRoom p tx isLocal)|]. intros p1 err (Hok1 & He1 & Hk1 & Herr).
  assert (config2 p1 = config2 p) as Hc1 by (unfold config2; by injection He1 as -> -> _ _ _).
  destruct err as [e|]; [step; split_and!; [done|done|by left]|].
  eapply runs_mono; [apply (runs_insertTx p1 a tx local isLocal); [done|split; [by apply Hk1|done|done|]]|].
  - unfold isLocal. injection He1 as _ _ _ _ ->. by intros [_ ?]%orb_false_iff.
  - intros p2 [rep err] (Hok2 & Hc2 & Had). split_and!; [done|congruence|]. destruct err as [e|]; [|exact Had]. right. destruct Had as (-> & HA & _).
    split; [done|]. rewrite HA. by apply Hk1.
Qed.

Lemma runs_addTxsLocked p txs local dirty : pool_ok [] [] None None p -> (forall tx, tx ∈ txs -> goTx tx) ->
  runs (addTxsLocked_loop txs local dirty) p (fun p' '(errs, _) => pool_ok [] [] None None p' /\ config2 p' = config2 p /\ length errs = length txs).
Proof.
  revert p dirty. induction txs as [|tx txs IH]; intros p dirty Hok Htxs; cbn [addTxsLocked_loop]; [by step|].
  assert (goTx tx) as Htx by (apply Htxs; by left). step. eapply runs_mono; [by apply runs_add|]. intros p1 [rep err] (Hok1 & Hc1 & _). cbv beta iota. step.
  assert (exists d, (match err with None => if rep : bool then mret dirty else lift (TxLookup.addTx tx dirty) | Some _ => mret dirty end : M TxLookup.accountSet) p1 = Ok (p1, d)) as [d Ed].
  { destruct err; [by eexists|]. destruct rep; [by eexists|]. unfold lift, TxLookup.addTx. destruct Htx as [[a ->] _]. by eexists. }
  eapply runs_eq; [exact Ed|]. step. eapply runs_mono; [apply IH; [done|by intros; apply Htxs; right]|]. intros p2 [errs d2] (Hok2 & Hc2 & Hlen). step.
  split_and!; [done|congruence|]. cbn. by rewrite Hlen.
Qed.

(** The slots without an error take the errors of the new transactions. *)
Lemma mergeErrs_returns (errs news : list (option error)) : length news = length (filter (fun e => e = None) errs) -> exists es, mergeErrs errs news = Ok es /\ length es = length errs.
Proof.
  revert news. induction errs as [|[k|] errs IH]; intros news Hl; cbn [filter list_filter] in Hl.
  - destruct news; [by exists []|done].
  - rewrite decide_False in Hl by done. destruct news as [|e news]; [by eexists|]. cbn [mergeErrs]. destruct (IH (e :: news) Hl) as (r & -> & Hr). eexists. split; [done|]. cbn. by rewrite Hr.
  - rewrite decide_True in Hl by done. destruct news as [|e news]; [done|]. cbn [mergeErrs]. destruct (IH news) as (r & -> & Hr); [by injection Hl|]. eexists. split; [done|]. cbn. by rewrite Hr.
Qed.

Lemma length_filter_map {A} (f : A -> option error) (l : list A) : length (filter (fun e => e = None) (map f l)) = length (filter (fun x => f x = None) l).
Proof. induction l as [|x l IH]; [done|]. cbn [map]. rewrite !filter_cons. case_decide; cbn [length]; by rewrite IH. Qed.

Lemma runs_addTxs p txs local : pool_ok [] [] None None p -> (forall tx, tx ∈ txs -> goTx tx) ->
  runs (addTxs txs local) p (fun p' '(errs, _) => pool_ok [] [] None None p' /\ config2 p' = config2 p /\ length errs = length txs).
Proof.
  intros Hok Htxs. unfold addTxs. step. step. destruct (filter _ txs) as [|n news] eqn:En; [step; split_and!; [done|done|by rewrite length_map]|].
  step. unfold addTxsLocked. eapply runs_mono; [apply runs_addTxsLocked; [done|]|].
  { intros tx Htx. apply Htxs. rewrite <- En in Htx. by apply list_elem_of_filter in Htx as [_ ?]. }
  intros p1 [errs d] (Hok1 & Hc1 & Hlen). cbv beta iota. destruct (mergeErrs_returns (map (presetErr p) txs) errs) as (r & E & Hr).
  - rewrite Hlen, <- En. symmetry. apply length_filter_map.
  - step. eapply runs_lift; [exact E|]. step. split_and!; [done|done|]. by rewrite Hr, length_map.
Qed.
End Adds.
End TxPoolAdds.
