(* ===== verification/TxPoolCount.v ===== *)
(** * TxPoolCount: how many transactions the pool holds

    [count] adds up the lists of a map; it is what [total] computes, as long as
    it fits a [uint64], and the lookup counts the lists of both maps. *)

From S2P Require Import Prelude Uint256 ChainConfig Header HeaderRules StateModel StateTransition Transaction Heap TxSortedMap TxList TxLookup TxPool TxTakes TxPriced TxPlaces TxPoolInv TxPoolMoves TxPoolAdds.
Import Transaction.
Import TxsList.

Module TxPoolCount.
Import TxPool TxTakes TxPriced TxPlaces TxPoolInv TxPoolMoves TxPoolAdds.

Section Count.
Context `{U : Uint256} `{MR : MapRange} `{H : !TxHasher} `{Env : !PoolEnv}.
Implicit Types (P Q M : gmap Address (gmap Z TxData)) (p : TxsPool) (a : Address) (tx : TxData) (l : txsList) (m : gmap Z TxData).

Definition vals M : list TxData := map_to_list M ≫= (fun kv => (map_to_list kv.2).*2).
Definition count M : nat := length (vals M).

Lemma vals_insert M a m : M !! a = None -> vals (<[a := m]> M) ≡ₚ (map_to_list m).*2 ++ vals M.
Proof. intros Ha. unfold vals. by rewrite map_to_list_insert. Qed.

Lemma vals_empty : vals ∅ = [].
Proof. unfold vals. by rewrite map_to_list_empty. Qed.

Lemma count_new M a m : M !! a = None -> count (<[a := m]> M) = (size m + count M)%nat.
Proof. intros Ha. unfold count. by rewrite vals_insert, length_app, length_fmap, length_map_to_list. Qed.

Lemma count_split M a m : M !! a = Some m -> count M = (size m + count (delete a M))%nat.
Proof. intros Ha. rewrite <- count_new with (a := a) by apply lookup_delete_eq. by rewrite insert_delete_id. Qed.

Lemma count_insert M a m m' : M !! a = Some m -> (count (<[a := m']> M) + size m = count M + size m')%nat.
Proof.
  intros Ha. rewrite (count_split M a m Ha), (count_split (<[a := m']> M) a m') by apply lookup_insert_eq. rewrite delete_insert_eq. lia.
Qed.

Lemma count_drop1 M a n tx : at_ M a n = Some tx -> S (count (drop1 a n M)) = count M.
Proof.
  unfold at_, drop1. destruct (M !! a) as [m|] eqn:Ha; [|done]. cbn [mbind option_bind]. intros Hn.
  assert (size (delete n m) = pred (size m)) as Hs by (apply map_size_delete_Some; by rewrite Hn). pose proof (map_size_ne_0_lookup_2 m n ltac:(by rewrite Hn)) as Hz.
  case_decide as Hd.
  - rewrite Hd, map_size_empty in Hs. rewrite (count_split M a m Ha). lia.
  - pose proof (count_insert M a m (delete n m) Ha). lia.
Qed.

Lemma at_drop1 M a n a' n' : at_ (drop1 a n M) a' n' = if decide (a' = a /\ n' = n) then None else at_ M a' n'.
Proof.
  unfold at_, drop1. destruct (M !! a) as [m|] eqn:Ha.
  - destruct (decide (a' = a)) as [->|Hne].
    + case_decide as Hd.
      * rewrite lookup_delete_eq, Ha. cbn [mbind option_bind]. case_decide as Hn; [done|]. symmetry. rewrite <- (lookup_delete_ne m n n') by naive_solver. by rewrite Hd.
      * rewrite lookup_insert_eq, Ha. cbn [mbind option_bind]. rewrite lookup_delete. repeat case_decide; naive_solver.
    + rewrite (decide_False (P := a' = a /\ n' = n)) by naive_solver. case_decide; [by rewrite lookup_delete_ne|by rewrite lookup_insert_ne].
  - case_decide as Hd; [|done]. destruct Hd as [-> _]. by rewrite Ha.
Qed.

Lemma drop1_other M a n a' : a' <> a -> drop1 a n M !! a' = M !! a'.
Proof. intros Hne. unfold drop1. destruct (M !! a); [|done]. case_decide; [by rewrite lookup_delete_ne|by rewrite lookup_insert_ne]. Qed.

(** [total] *)
Lemma total_count (m : gmap Address txsList) : Z.of_nat (count (cts m)) < two64 -> total m = Z.of_nat (count (cts m)).
Proof.
  intros Hb. assert (count (cts m) = sum_list (map (fun kv : Address * txsList => size (contents kv.2)) (range m))) as Hc.
  { unfold count, vals, cts. rewrite (range_perm m), map_to_list_fmap. induction (map_to_list m) as [|[k v] s IH]; [done|].
    cbn [fmap list_fmap mbind list_bind map sum_list_with sum_list]. rewrite length_app, length_fmap, length_map_to_list. cbn. f_equal. exact IH. }
  rewrite Hc in *. clear Hc. unfold total.
  enough (forall s acc, 0 <= acc -> acc + Z.of_nat (sum_list (map (fun kv : Address * txsList => size (contents kv.2)) s)) < two64 ->
    foldl (fun n kv => n +u u64 (Len kv.2)) acc s = acc + Z.of_nat (sum_list (map (fun kv : Address * txsList => size (contents kv.2)) s))) as Hg by (apply Hg; lia).
  clear. induction s as [|[k l] s IH]; intros acc Ha Hs; cbn [foldl map]; cbn [map sum_list sum_list_with] in Hs |- *; [lia|]. cbn [id] in *.
  unfold Len, SortedMap.Len. cbn [snd] in *. fold (contents l). rewrite u64_small by (unfold in_u64; lia). rewrite add64_small by (unfold in_u64; lia). rewrite IH; lia.
Qed.

(** ** The lookup counts the lists *)

Definition keyed2 M : Prop := forall a m, M !! a = Some m -> SortedMap.keyed m.

Lemma elem_of_vals M tx : tx ∈ vals M <-> exists a n, at_ M a n = Some tx.
Proof.
  unfold vals, at_. rewrite list_elem_of_bind. split.
  - intros ([a m] & ([n t] & -> & Hn%elem_of_map_to_list)%list_elem_of_fmap & Ha%elem_of_map_to_list). exists a, n. by rewrite Ha.
  - intros (a & n & E). destruct (M !! a) as [m|] eqn:Ha; [|done]. exists (a, m). split; [|by apply elem_of_map_to_list].
    apply (list_elem_of_fmap_2 snd _ (n, tx)). by apply elem_of_map_to_list.
Qed.

Lemma NoDup_vals M : sound M -> keyed2 M -> NoDup (vals M).
Proof.
  induction M as [|a m M Ha IH] using map_ind; intros Hs Hk; [rewrite vals_empty; constructor|]. rewrite vals_insert by done. apply NoDup_app. split_and!.
  - apply SortedMap.NoDup_values. apply (Hk a). apply lookup_insert_eq.
  - intros tx ([n t] & -> & Hn%elem_of_map_to_list)%list_elem_of_fmap (b & k & E)%elem_of_vals. cbn [snd] in *.
    assert (b <> a) as Hne by (intros ->; unfold at_ in E; by rewrite Ha in E).
    assert (From t = Some a) by (apply (Hs a n t); unfold at_; by rewrite lookup_insert_eq).
    assert (From t = Some b) by (apply (Hs b k t); unfold at_ in *; by rewrite lookup_insert_ne). congruence.
  - apply IH.
    + intros b k t E. apply (Hs b k t). unfold at_ in *. rewrite lookup_insert_ne; [done|]. intros ->. by rewrite Ha in E.
    + intros b m' Hb. apply (Hk b m'). rewrite lookup_insert_ne; [done|]. congruence.
Qed.

Lemma lists_keyed s (m : gmap Address txsList) : lists_ok s m -> keyed2 (cts m).
Proof. intros Hm a its. rewrite cts_lookup. destruct (m !! a) as [l|] eqn:E; [|done]. intros [= <-]. apply lw_keyed. by apply (Hm a l). Qed.

Lemma sits_vals M tx : sound M -> sits M tx <-> tx ∈ vals M.
Proof.
  intros Hs. rewrite elem_of_vals. split; [intros (a & _ & E); eauto|]. intros (a & n & E). destruct (Hs a n tx E) as [Hf <-]. by exists a.
Qed.

Definition known (A : TxLookup.txLookup) : list TxData := (map_to_list (TxLookup.locals A)).*2 ++ (map_to_list (TxLookup.remotes A)).*2.

Lemma length_known A : Z.of_nat (length (known A)) = TxLookup.Count A.
Proof. unfold known, TxLookup.Count. rewrite length_app, !length_fmap, !length_map_to_list. lia. Qed.

Lemma elem_of_known A tx : lookup_ok A -> tx ∈ known A <-> exists h, TxLookup.Get A h = Some tx.
Proof.
  intros [Hd _ _]. unfold known, TxLookup.Get. rewrite elem_of_app, !list_elem_of_fmap. split.
  - intros [([h t] & -> & Ht%elem_of_map_to_list)|([h t] & -> & Ht%elem_of_map_to_list)]; exists h; cbn [snd]; [by rewrite Ht|].
    destruct (TxLookup.locals A !! h) eqn:E; [by rewrite (Hd _ _ E) in Ht|done].
  - intros [h E]. destruct (TxLookup.locals A !! h) eqn:El; [left|right]; exists (h, tx); (split; [done|]); apply elem_of_map_to_list; congruence.
Qed.

Lemma NoDup_hashed (m : gmap Hash TxData) : (forall h tx, m !! h = Some tx -> TxHash tx = h) -> NoDup (map_to_list m).*2.
Proof.
  intros Hm. apply (NoDup_fmap_1 TxHash). rewrite <- list_fmap_compose.
  replace ((TxHash ∘ snd) <$> map_to_list m) with (map_to_list m).*1; [apply NoDup_fst_map_to_list|].
  apply list_fmap_ext. intros i [k tx] Hi%list_elem_of_lookup_2%elem_of_map_to_list. by rewrite <- (Hm _ _ Hi).
Qed.

Lemma NoDup_known A : lookup_ok A -> NoDup (known A).
Proof.
  intros Hok. pose proof Hok as [Hd Hh _]. assert (forall h tx, TxLookup.locals A !! h = Some tx -> TxHash tx = h) as Hl by (intros h tx E; apply Hh; unfold TxLookup.Get; by rewrite E).
  apply NoDup_app. split_and!; [by apply NoDup_hashed| |by apply NoDup_hashed; intros; eapply remotes_hash].
  intros tx ([h t] & -> & E1%elem_of_map_to_list)%list_elem_of_fmap ([k t'] & E & E2%elem_of_map_to_list)%list_elem_of_fmap. cbn [snd] in *. subst t'.
  assert (h = k) as -> by (rewrite <- (Hl _ _ E1); by apply (remotes_hash A)). by rewrite (Hd _ _ E1) in E2.
Qed.

Lemma pool_known D EP EQ p : pool_ok D [] EP EQ p -> known (all p) ≡ₚ vals (cts (pending p)) ++ vals (cts (queue p)).
Proof.
  intros []. pose proof ok_placed0 as [H1 H2 _ H4 _ _ H7]. apply NoDup_Permutation; [by apply NoDup_known| |].
  - apply NoDup_app. split_and!; [by apply NoDup_vals; [|by eapply lists_keyed]| |by apply NoDup_vals; [|by eapply lists_keyed]].
    intros tx (a & n & E1)%elem_of_vals (b & k & E2)%elem_of_vals. destruct (H1 _ _ _ E1) as [F1 <-], (H2 _ _ _ E2) as [F2 <-].
    assert (a = b) as -> by congruence. destruct (H4 b (Nonce tx)); congruence.
  - intros tx. rewrite elem_of_known by done. rewrite elem_of_app, <- !sits_vals by done. setoid_rewrite H7. setoid_rewrite elem_of_nil. split; [naive_solver|]. intros Hs. exists (TxHash tx). tauto.
Qed.

Lemma pool_count D EP EQ p : pool_ok D [] EP EQ p -> TxLookup.slots (all p) = Z.of_nat (count (cts (pending p)) + count (cts (queue p))).
Proof.
  intros Hok. rewrite (lk_slots _ (ok_lookup _ _ _ _ _ Hok)), <- length_known, (pool_known _ _ _ _ Hok), length_app. done.
Qed.
End Count.
End TxPoolCount.
