(* ===== verification/TxPoolLimits.v ===== *)
(** * TxPoolLimits: truncating the pool

    [truncatePending] and [truncateQueue] return, keep the invariant and bring the
    pool within its limits, as far as the accounts that may be cut allow it. *)

From S2P Require Import Prelude Uint256 ChainConfig Header HeaderRules StateModel StateTransition Transaction Heap TxSortedMap TxList TxLookup TxPool TxTakes TxPriced TxPlaces TxPoolInv TxPoolMoves TxPoolAdds TxPoolCount.
Import Transaction.
Import TxsList.

Module TxPoolLimits.
Import TxPool TxTakes TxPriced TxPlaces TxPoolInv TxPoolMoves TxPoolAdds TxPoolCount.

Section Limits.
Context `{U : Uint256} `{MR : MapRange} `{H : !TxHasher} `{Env : !PoolEnv}.
Implicit Types (p : TxsPool) (a v : Address) (tx : TxData) (l : txsList) (r : list TxData) (n k : nat).

Lemma takes_size l l' r : wf l -> takes l l' r -> size (contents l) = (size (contents l') + length r)%nat.
Proof.
  intros Hw [_ _ Hc Hnd Hin]. rewrite Hc. clear Hc. induction r as [|tx r IH]; cbn [length]; [by rewrite Nat.add_0_r|].
  apply NoDup_cons in Hnd as [Hni Hnd]. assert (SortedMap.without r (contents l) !! Nonce tx = Some tx) as Htx.
  { rewrite SortedMap.lookup_without, decide_False; [apply Hin; by left|]. intros (t & E & Ht)%list_elem_of_fmap. assert (t = tx) as ->; [|done].
    pose proof (Hin t ltac:(by right)) as H1. pose proof (Hin tx ltac:(by left)) as H2. rewrite E in H2. congruence. }
  change (SortedMap.without (tx :: r) (contents l)) with (delete (Nonce tx) (SortedMap.without r (contents l))).
  rewrite map_size_delete_Some by (by rewrite Htx). rewrite IH by (try done; intros; apply Hin; by right).
  pose proof (map_size_ne_0_lookup_2 _ _ ltac:(by rewrite Htx) : size (SortedMap.without r (contents l)) <> 0%nat). lia.
Qed.

(** ** Pending transactions *)

Definition haslen p a n : Prop := exists l, pending p !! a = Some l /\ size (contents l) = n.

Lemma haslen_other p p' a n : pending p' !! a = pending p !! a -> haslen p a n -> haslen p' a n.
Proof. intros E (l & Hl & Hn). exists l. by rewrite E. Qed.

Lemma haslen_det p a n k : haslen p a n -> haslen p a k -> n = k.
Proof. intros (l & Hl & <-) (l' & Hl' & <-). congruence. Qed.

Lemma runs_lenOf p a n (Q : TxsPool -> Z -> Prop) : haslen p a n -> Q p (Z.of_nat n) -> runs (lenOf a) p Q.
Proof. intros (l & Hl & <-) HQ. unfold lenOf. step. step. step. eapply runs_lift; [by rewrite Hl|]. by step. Qed.

(** [l'] has the first transactions of [l]. *)
Definition lower l' l : Prop := SortedMap.sorted (contents l') `prefix_of` SortedMap.sorted (contents l).

#[local] Instance lower_preorder : PreOrder lower.
Proof. unfold lower. split; [intros l; reflexivity|]. intros l1 l2 l3. apply (transitivity (R := prefix)). Qed.

Lemma drop_lower l l' (k : nat) : wf l -> takes l l' (reverse (drop k (SortedMap.sorted (contents l)))) -> lower l' l.
Proof.
  intros Hw T. unfold lower. set (s := SortedMap.sorted (contents l)) in *. pose proof (sorted_in l) as Hin. fold s in Hin.
  assert (NoDup s) as Hnd by (by apply SortedMap.NoDup_sorted, lw_keyed). rewrite <- (take_drop k s) in Hnd. apply NoDup_app in Hnd as (Hnd & Hd & _).
  enough (take k s = SortedMap.sorted (contents l')) as <- by apply prefix_take.
  apply SortedMap.sorted_unique; [apply lw_keyed, T| |done|].
  { eapply (StronglySorted_app_1_l _ _ (drop k s)). rewrite take_drop. apply SortedMap.sorted_sorted. }
  intros tx. rewrite (tk_contents _ _ _ T), SortedMap.lookup_without. split.
  - intros Htx. assert (tx ∈ s) as Hs by (rewrite <- (take_drop k s); apply elem_of_app; by left). rewrite decide_False; [by apply Hin|]. rewrite fmap_reverse, elem_of_reverse.
    intros (t & En & Ht)%list_elem_of_fmap. apply (Hd tx Htx). assert (t ∈ s) as Hts by (rewrite <- (take_drop k s); apply elem_of_app; by right).
    apply Hin in Hs, Hts; [|done..]. rewrite En in Hs. by assert (t = tx) as <- by congruence.
  - case_decide as Hn; [done|]. rewrite fmap_reverse, elem_of_reverse in Hn. intros Htx. apply Hin in Htx; [|done]. rewrite <- (take_drop k s), elem_of_app in Htx. destruct Htx as [?|Htx]; [done|].
    destruct Hn. by apply list_elem_of_fmap_2.
Qed.

(** [n] transactions less at [a] and nothing else. *)
Record cutto p p' a n : Prop := {
  ct_ok : PoolOK p';
  ct_env : env p' = env p;
  ct_queue : queue p' = queue p;
  ct_len : haslen p' a n;
  ct_lower : forall l, pending p !! a = Some l -> exists l', pending p' !! a = Some l' /\ lower l' l;
  ct_other : forall b, b <> a -> pending p' !! b = pending p !! b
}.

Lemma runs_dropLast p a n : PoolOK p -> haslen p a (S n) -> (0 < n)%nat ->
  runs (dropLast a) p (fun p' _ => cutto p p' a n /\ S (count (cts (pending p'))) = count (cts (pending p))).
Proof.
  intros Hok (l & Hl & Hn) Hpos. destruct (ok_pending _ _ _ _ _ Hok a l Hl) as [Hw Hs]. unfold dropLast. step. step. step. eapply runs_lift; [by rewrite Hl|].
  assert (Len l = Z.of_nat (S n)) as HL by (by rewrite <- Hn). destruct (Cap_takes l (Len l - 1) Hw) as (l' & r & E & T & Hr); [lia|].
  step. eapply runs_lift; [exact E|]. cbv beta iota. step. eapply runs_lift; [apply derefAll_some|]. step. step.
  assert (length r = 1%nat) as Hlr by (rewrite Hr, length_reverse, length_drop, SortedMap.length_sorted, HL, Hn; lia).
  pose proof (takes_size _ _ _ Hw T) as Hsz. rewrite Hlr, Hn in Hsz.
  set (p1 := set_pending (<[a := l']> (pending p)) p).
  assert (pool_ok [] (r ++ []) None None p1) as Hok1.
  { eapply (ok_settle_P _ _ _ _ a); [eapply ok_take_P; [by eapply ok_weaken_P|exact Hl|exact T]|]. intros l2. unfold p1. fields. rewrite lookup_insert_eq. intros [= <-] He.
    rewrite He, map_size_empty in Hsz. lia. }
  step. eapply runs_mono; [eapply (runs_forEach _ _ (fun r p' => pool_ok [] (r ++ []) None None p' /\ env p' = env p /\ queue p' = queue p /\ pending p' = pending p1)); [by split_and!|]|].
  - intros tx r' p' (Hok' & He' & Hq' & Hp'). step. apply runs_modify. apply runs_setIfLower. intros m. split_and!; [|done..]. apply ok_nonces. by apply ok_forget.
  - intros p2 [] (Hok2 & He2 & Hq2 & Hp2). eapply runs_pricedRemoved; [exact Hok2|]. intros L HL2. split; [split; [done|done|done| | |]|].
    + exists l'. fields. rewrite Hp2. unfold p1. fields. rewrite lookup_insert_eq. split; [done|lia].
    + intros l0 Hl0. assert (l0 = l) as -> by congruence. exists l'. fields. rewrite Hp2. unfold p1. fields. rewrite lookup_insert_eq. split; [done|]. subst r. by eapply drop_lower.
    + intros b Hb. fields. rewrite Hp2. unfold p1. fields. by apply lookup_insert_ne.
    + fields. rewrite Hp2. unfold p1. fields. rewrite cts_insert.
      pose proof (count_insert (cts (pending p)) a (contents l) (contents l')) as Hc. rewrite cts_lookup, Hl in Hc. specialize (Hc eq_refl). lia.
Qed.

(** A round over the victims. *)
Record cut p p' (vs : list Address) : Prop := {
  cu_ok : PoolOK p';
  cu_env : env p' = env p;
  cu_queue : queue p' = queue p;
  cu_lower : forall a l, pending p !! a = Some l -> exists l', pending p' !! a = Some l' /\ lower l' l;
  cu_other : forall b, b ∉ vs -> pending p' !! b = pending p !! b
}.

Lemma cut_refl p vs : PoolOK p -> cut p p vs.
Proof. split; try done. intros a l Hl. exists l. split; [done|reflexivity]. Qed.

Lemma cut_trans p p1 p2 vs : cut p p1 vs -> cut p1 p2 vs -> cut p p2 vs.
Proof.
  intros [] []. split; [done|congruence|congruence| |intros b Hb; rewrite cu_other1 by done; by apply cu_other0].
  intros a l (l1 & Hl1 & H1)%cu_lower0. destruct (cu_lower1 a l1 Hl1) as (l2 & Hl2 & H2). exists l2. split; [done|]. by transitivity l1.
Qed.

Lemma cutto_cut p p' a n vs : cutto p p' a n -> a ∈ vs -> cut p p' vs.
Proof.
  intros [] Ha. split; [done|done|done| |intros b Hb; apply ct_other0; by intros ->]. intros b l Hl. destruct (decide (b = a)) as [->|Hb]; [by apply ct_lower0|].
  exists l. split; [by rewrite ct_other0|reflexivity].
Qed.

Lemma cut_weaken p p' vs ws : (forall a, a ∈ vs -> a ∈ ws) -> cut p p' vs -> cut p p' ws.
Proof. intros Hs []. split; try done. intros b Hb. apply cu_other0. auto. Qed.

Lemma runs_round p vs n : PoolOK p -> NoDup vs -> (forall v, v ∈ vs -> haslen p v (S n)) -> (0 < n)%nat ->
  runs (forEach dropLast vs) p (fun p' _ => cut p p' vs /\ (forall v, v ∈ vs -> haslen p' v n) /\
    (count (cts (pending p')) + length vs = count (cts (pending p)))%nat).
Proof.
  revert p. induction vs as [|v vs IH]; intros p Hok Hnd Hv Hn; cbn [forEach].
  { step. split_and!; [by apply cut_refl|by intros ? ?%elem_of_nil|cbn; lia]. }
  apply NoDup_cons in Hnd as [Hni Hnd]. step. eapply runs_mono; [apply (runs_dropLast p v n); [done|by apply Hv; left|done]|]. intros p1 [] [Hto Hc1]. pose proof Hto as [H1 H2 H3 H4 _ H5].
  eapply runs_mono; [apply (IH p1); [done|done| |done]|].
  { intros w Hw. eapply haslen_other; [|apply Hv; by right]. apply H5. by intros ->. }
  intros p2 [] (Hcut & Hlen & Hc2). split_and!.
  - apply (cut_trans _ p1); [eapply cutto_cut; [done|by left]|]. eapply cut_weaken; [|exact Hcut]. by right.
  - intros w [->|Hw]%elem_of_cons; [|by apply Hlen]. eapply haslen_other; [|exact H4]. by apply (cu_other _ _ _ Hcut).
  - cbn [length]. lia.
Qed.

Lemma count_le p (vs : list Address) n : NoDup vs -> (forall v, v ∈ vs -> haslen p v (S n)) -> (length vs <= count (cts (pending p)))%nat.
Proof.
  intros Hnd Hv. enough (forall M, (forall v, v ∈ vs -> exists m, M !! v = Some m /\ (0 < size m)%nat) -> (length vs <= count M)%nat) as Hg.
  { apply Hg. intros v (l & Hl & Hs)%Hv. exists (contents l). rewrite cts_lookup, Hl. split; [done|lia]. }
  clear Hv. induction vs as [|v vs IH]; intros M Hv; cbn [length]; [lia|]. apply NoDup_cons in Hnd as [Hni Hnd]. destruct (Hv v) as (m & Hm & Hpos); [by left|].
  rewrite (count_split M v m Hm). assert (length vs <= count (delete v M))%nat; [|lia]. apply (IH Hnd). intros w Hw. rewrite lookup_delete_ne by (by intros ->). apply Hv. by right.
Qed.

(** What an equalization leaves: the victims are as long as each other, at least
    [t] long, and at [t] if there are still too many transactions. *)
Lemma runs_equalize fuel p vs last n (t : nat) : PoolOK p -> NoDup vs -> last ∈ vs -> (forall v, v ∈ vs -> haslen p v n) -> (0 < t)%nat -> (t <= n)%nat -> (n <= fuel + t)%nat ->
  Z.of_nat (count (cts (pending p))) < two64 ->
  runs (equalize fuel vs last (Z.of_nat t) (Z.of_nat (count (cts (pending p))))) p (fun p' pend => cut p p' vs /\ pend = Z.of_nat (count (cts (pending p'))) /\
    (count (cts (pending p')) <= count (cts (pending p)))%nat /\
    exists n', (forall v, v ∈ vs -> haslen p' v n') /\ (t <= n')%nat /\ (pend <= GlobalSlots (config p) \/ n' = t)).
Proof.
  revert p n. induction fuel as [|fuel IH]; intros p n Hok Hnd Hlast Hv Ht Htn Hf Hb; cbn [equalize]; step; step;
    (destruct (negb _) eqn:Eg; [step; apply negb_true_iff, Z.ltb_ge in Eg; split_and!; [by apply cut_refl|done|done|]; exists n; split_and!; [done|done|by left]|]);
    step; (eapply runs_lenOf; [by apply Hv|]);
    (destruct (negb (Z.of_nat t <? Z.of_nat n)) eqn:El; [step; apply negb_true_iff, Z.ltb_ge in El; split_and!; [by apply cut_refl|done|done|]; exists n; split_and!; [done|done|right; lia]|]);
    apply negb_false_iff, Z.ltb_lt in El; [lia|].
  destruct n as [|n]; [lia|]. step. eapply runs_mono; [apply (runs_round p vs n); [done|done|done|lia]|]. intros p1 [] (Hcut & Hv1 & Hc1).
  pose proof (count_le p vs n Hnd Hv) as Hle. rewrite sub64_small by (unfold in_u64; lia).
  replace (Z.of_nat (count (cts (pending p))) - Z.of_nat (length vs)) with (Z.of_nat (count (cts (pending p1)))) by lia.
  eapply runs_mono; [apply (IH p1 n); [apply Hcut|done|done|done|done|lia|lia|lia]|]. intros p2 pend (Hcut2 & Hpend & Hc2 & n' & Hn').
  assert (config p1 = config p) as Hcfg by (pose proof (cu_env _ _ _ Hcut) as He; by injection He). rewrite Hcfg in Hn'.
  split_and!; [by eapply cut_trans|done|lia|by exists n'].
Qed.

Lemma rev_reverse {A} (l : list A) : rev l = reverse l.
Proof. apply rev_alt. Qed.

#[export] Instance higher_weak : StrictWeak higher.
Proof. split; unfold higher; intros *; rewrite ?Z.ltb_lt, ?Z.ltb_ge; lia. Qed.

(** [os] are the offenders, [h] the heap of those to come; all of them are
    longer than [s]. *)
Record spam (s : nat) p (os : list Address) (h : list (Address * Z)) : Prop := {
  sp_ok : PoolOK p;
  sp_nodup : NoDup (os ++ h.*1);
  sp_heap : heap higher h;
  sp_len : forall a z, (a, z) ∈ h -> exists n, z = Z.of_nat n /\ haslen p a n /\ (s < n)%nat;
  sp_os : forall v, v ∈ os -> exists n, haslen p v n /\ (s < n)%nat
}.

(** The offenders are as long as each other, and no shorter than those to come. *)
Definition level p (os : list Address) (h : list (Address * Z)) : Prop :=
  exists n, (forall v, v ∈ os -> haslen p v n) /\ forall a z, (a, z) ∈ h -> os <> [] -> z <= Z.of_nat n.

(** What the loop leaves. *)
Record equalized (s : nat) p p' (vs os : list Address) (pend : Z) : Prop := {
  eq_cut : cut p p' vs;
  eq_nodup : NoDup os;
  eq_pend : pend = Z.of_nat (count (cts (pending p')));
  eq_count : (count (cts (pending p')) <= count (cts (pending p)))%nat;
  eq_long : forall v, v ∈ vs -> exists n, haslen p' v n /\ (s < n)%nat;
  eq_done : pend <= GlobalSlots (config p) \/ (forall v, v ∈ vs <-> v ∈ os) /\ exists n, forall v, v ∈ os -> haslen p' v n
}.

Lemma equalized_pre s p p1 p' vs os pend : cut p p1 vs -> (count (cts (pending p1)) <= count (cts (pending p)))%nat -> equalized s p1 p' vs os pend -> equalized s p p' vs os pend.
Proof.
  intros Hcut Hc []. assert (config p1 = config p) as Hcfg by (pose proof (cu_env _ _ _ Hcut) as He; by injection He).
  split; [by eapply cut_trans|done|done|lia|done|by rewrite <- Hcfg].
Qed.

Lemma equalized_perm s p p' vs ws os pend : vs ≡ₚ ws -> equalized s p p' vs os pend -> equalized s p p' ws os pend.
Proof.
  intros Hp []. split; [|done|done|done|by setoid_rewrite <- Hp|].
  - eapply cut_weaken; [|done]. intros a. by rewrite Hp.
  - destruct eq_done0 as [?|[He Hn]]; [by left|right]. split; [|done]. intros v. by rewrite <- Hp.
Qed.

(** The next spammer joins the offenders. *)
Lemma spam_pop s p os h o z h' : spam s p os h -> h ≡ₚ (o, z) :: h' -> heap higher h' -> spam s p (o :: os) h' /\ os ++ h.*1 ≡ₚ (o :: os) ++ h'.*1.
Proof.
  intros [H1 H2 H3 H4 H5] Hp Hh. assert (os ++ h.*1 ≡ₚ (o :: os) ++ h'.*1) as Hperm by (rewrite Hp; cbn; by rewrite <- Permutation_middle).
  split; [|done]. split; [done|by rewrite <- Hperm|done| |].
  - intros a y Hy. apply H4. rewrite Hp. by right.
  - intros v [->|Hv]%elem_of_cons; [|by apply H5]. destruct (H4 o z) as (n & _ & ?); [rewrite Hp; by left|]. by exists n.
Qed.

Lemma spam_cut s p p' os h t : spam s p os h -> cut p p' os -> (forall v, v ∈ os -> haslen p' v t) -> (s < t)%nat -> spam s p' os h.
Proof.
  intros [H1 H2 H3 H4 H5] Hcut Ht Hs. split; [apply Hcut|done|done| |by intros v Hv; exists t; auto].
  intros a z Hz. destruct (H4 a z Hz) as (n & -> & Hn & ?). exists n. split_and!; [done| |done]. eapply haslen_other; [|exact Hn]. apply (cu_other _ _ _ Hcut).
  apply NoDup_app in H2 as (_ & Hd & _). intros Ha. apply (Hd a Ha). by apply (list_elem_of_fmap_2 fst _ (a, Z.of_nat n)).
Qed.

Lemma runs_spammers fuel (s : nat) p os h : (0 < s)%nat -> (length h <= fuel)%nat -> spam s p os h ->
  Z.of_nat (count (cts (pending p))) <= GlobalSlots (config p) \/ level p os h -> Z.of_nat (count (cts (pending p))) < two64 ->
  runs (spammers_loop fuel h os (Z.of_nat (count (cts (pending p))))) p (fun p' '(os', pend) => equalized s p p' (os ++ h.*1) os' pend).
Proof.
  intros Hs. revert p os h. induction fuel as [|fuel IH]; intros p os h Hf Hsp Hlv Hb; cbn [spammers_loop]; step; step;
    (assert (forall v, v ∈ os ++ h.*1 -> exists n, haslen p v n /\ (s < n)%nat) as Hlong;
      [intros v [Hv|([a z] & -> & Hz)%list_elem_of_fmap]%elem_of_app; [by apply (sp_os _ _ _ _ Hsp)|destruct (sp_len _ _ _ _ Hsp a z Hz) as (n & _ & ?); by exists n]|]);
    (assert (NoDup os) as Hnd by (by destruct (proj1 (NoDup_app _ _) (sp_nodup _ _ _ _ Hsp))));
    (destruct (negb _) eqn:Eg; [step; apply negb_true_iff, Z.ltb_ge in Eg; split; [apply cut_refl, Hsp|done|done|done|done|by left]|]);
    apply negb_false_iff, Z.ltb_lt in Eg; (destruct Hlv as [?|[n [Hn Hh]]]; [lia|]).
  { destruct h; [|cbn in Hf; lia]. rewrite app_nil_r in *. step. split; [apply cut_refl, Hsp|done|done|done|done|right; split; [done|by exists n]]. }
  destruct h as [|x h0] eqn:Eh; [rewrite app_nil_r in *; step; split; [apply cut_refl, Hsp|done|done|done|done|right; split; [done|by exists n]]|]. rewrite <- Eh in *.
  destruct (Pop_heap higher h) as ([o z] & h' & Epop & _ & Hperm & Hheap & Hmin); [apply Hsp|by rewrite Eh|].
  destruct (spam_pop _ _ _ _ _ _ _ Hsp Hperm Hheap) as [Hsp' Hvs].
  assert (length h' <= fuel)%nat as Hf' by (apply Permutation_length in Hperm; cbn in Hperm; lia).
  destruct (sp_len _ _ _ _ Hsp o z) as (nz & -> & Hnz & Hsz); [rewrite Hperm; by left|].
  step. eapply runs_lift; [by rewrite Epop|]. cbv beta iota.
  assert (forall q, haslen q o nz -> (forall v, v ∈ os -> haslen q v nz) -> level q (o :: os) h') as Hlevel.
  { intros q Ho Hos. exists nz. split; [by intros v [->|Hv]%elem_of_cons; [|apply Hos]|]. intros a y Hy _. specialize (Hmin (a, y) Hy). unfold le, higher in Hmin. cbn in Hmin. apply Z.ltb_ge in Hmin. lia. }
  destruct os as [|last os'] eqn:Eos.
  { eapply runs_mono; [apply (IH p [o] h'); [done|done|right; apply Hlevel; [done|by intros ? ?%elem_of_nil]|done]|].
    intros p' [os' pend] Hq. eapply equalized_perm; [|exact Hq]. by rewrite Hvs. }
  rewrite <- Eos in *. assert (nz <= n)%nat as Hnzn.
  { specialize (Hh o (Z.of_nat nz)). rewrite Hperm in Hh. specialize (Hh ltac:(by left) ltac:(by rewrite Eos)). lia. }
  step. eapply runs_lenOf; [exact Hnz|]. step. eapply runs_lenOf; [apply Hn; rewrite Eos; by left|]. rewrite Nat2Z.id. step.
  eapply runs_mono; [apply (runs_equalize n p (rev os) last n nz); [apply Hsp| | | |lia|done|lia|done]|].
  { by rewrite rev_reverse, reverse_Permutation. }
  { rewrite rev_reverse, elem_of_reverse, Eos. by left. }
  { intros v Hv. rewrite rev_reverse, elem_of_reverse in Hv. by apply Hn. }
  intros p1 pend (Hcut & -> & Hc1 & n' & Hn' & Htn' & Hdone).
  assert (forall v, v ∈ os -> haslen p1 v n') as Hn1 by (intros v Hv; apply Hn'; by rewrite rev_reverse, elem_of_reverse).
  assert (cut p p1 os) as Hcut' by (eapply cut_weaken; [|exact Hcut]; intros v; by rewrite rev_reverse, elem_of_reverse).
  assert (config p1 = config p) as Hcfg by (pose proof (cu_env _ _ _ Hcut) as He; by injection He).
  pose proof (spam_cut _ _ _ _ _ n' Hsp Hcut' Hn1 ltac:(lia)) as Hsp1. destruct (spam_pop _ _ _ _ _ _ _ Hsp1 Hperm Hheap) as [Hsp2 _].
  eapply runs_mono; [apply (IH p1 (o :: os) h'); [done|done| |lia]|].
  - destruct Hdone as [?| ->]; [left; by rewrite Hcfg|right]. apply Hlevel; [|done]. destruct (sp_len _ _ _ _ Hsp1 o (Z.of_nat nz)) as (k & Ek & Hk & _); [rewrite Hperm; by left|].
    by apply Nat2Z.inj in Ek as ->.
  - intros p' [os2 pend] Hq. eapply equalized_pre; [|exact Hc1|eapply equalized_perm; [symmetry; exact Hvs|exact Hq]]. eapply cut_weaken; [|exact Hcut']. intros v Hv. apply elem_of_app. by left.
Qed.

Lemma push_all {A} (c : A -> bool) (f : A -> Address * Z) (xs : list A) q : heap higher q ->
  let r := foldl (fun q x => if c x then Push higher q (f x) else q) q xs in heap higher r /\ r ≡ₚ (f <$> filter (fun x => c x = true) xs) ++ q.
Proof.
  revert q. induction xs as [|x xs IH]; intros q Hq; cbn [foldl]; [done|]. rewrite filter_cons. case_decide as Hc.
  - rewrite Hc. destruct (Push_heap higher q (f x) Hq) as [Hh Hp]. destruct (IH _ Hh) as [H1 H2]. split; [done|]. rewrite H2, Hp. cbn. by rewrite <- Permutation_middle.
  - apply not_true_is_false in Hc. rewrite Hc. by apply IH.
Qed.

(** An account that may be cut: it is not local and has more transactions than
    its slots. *)
Definition spammer p a l : bool := negb (TxLookup.contains (plocals p) a) && (AccountSlots (config p) <? Z.of_nat (size (contents l))).

(** What [truncatePending] leaves. *)
Record pending_cut p p' : Prop := {
  pc_ok : PoolOK p';
  pc_env : env p' = env p;
  pc_queue : queue p' = queue p;
  pc_count : (count (cts (pending p')) <= count (cts (pending p)))%nat;
  pc_limit : Z.of_nat (count (cts (pending p'))) <= GlobalSlots (config p) \/
    forall a l, pending p' !! a = Some l -> TxLookup.contains (plocals p) a = false -> Z.of_nat (size (contents l)) <= AccountSlots (config p);
  pc_spared : forall a l, pending p !! a = Some l -> spammer p a l = false -> pending p' !! a = Some l;
  pc_floor : forall a l, pending p !! a = Some l -> spammer p a l = true -> exists l', pending p' !! a = Some l' /\ AccountSlots (config p) <= Z.of_nat (size (contents l')) /\ lower l' l
}.

Lemma pending_cut_refl p : PoolOK p -> Z.of_nat (count (cts (pending p))) <= GlobalSlots (config p) -> pending_cut p p.
Proof. intros Hok Hc. split; try done; [by left|]. intros a l Hl [_ Hs%Z.ltb_lt]%andb_true_iff. exists l. split_and!; [done|lia|reflexivity]. Qed.

(** From the spammers to all accounts. *)
Lemma pending_cut_intro p p' vs (k : nat) : cut p p' vs -> (count (cts (pending p')) <= count (cts (pending p)))%nat ->
  (forall a l, pending p !! a = Some l -> spammer p a l = true <-> a ∈ vs) -> (forall v, v ∈ vs -> is_Some (pending p !! v)) -> AccountSlots (config p) = Z.of_nat k ->
  (forall v, v ∈ vs -> exists n, haslen p' v n /\ (k <= n)%nat) ->
  Z.of_nat (count (cts (pending p'))) <= GlobalSlots (config p) \/ (forall v, v ∈ vs -> haslen p' v k) -> pending_cut p p'.
Proof.
  intros [] Hc Hvs Hin Hk Hlong Hlim. assert (forall a, a ∉ vs -> pending p' !! a = pending p !! a) as Ho by done. split; try done.
  - destruct Hlim as [?|Hlim]; [by left|right]. intros a l Hl Hloc. destruct (decide (a ∈ vs)) as [Ha|Ha].
    + destruct (Hlim a Ha) as (l' & Hl' & Hs). assert (l' = l) as -> by congruence. lia.
    + rewrite Ho in Hl by done. destruct (spammer p a l) eqn:Es; [by apply Hvs in Es|]. unfold spammer in Es. rewrite Hloc in Es. cbn in Es. by apply Z.ltb_ge in Es.
  - intros a l Hl Hs. rewrite Ho; [done|]. intros Ha. apply (Hvs a l Hl) in Ha. congruence.
  - intros a l Hl Hs. apply (Hvs a l Hl) in Hs. destruct (Hlong a Hs) as (n & (l' & Hl' & <-) & Hn). exists l'. split_and!; [done|lia|].
    destruct (cu_lower0 a l Hl) as (l2 & Hl2 & ?). by assert (l2 = l') as <- by congruence.
Qed.

Lemma size_le_count p a l : pending p !! a = Some l -> (size (contents l) <= count (cts (pending p)))%nat.
Proof. intros Hl. rewrite (count_split (cts (pending p)) a (contents l)); [lia|]. by rewrite cts_lookup, Hl. Qed.

(** The heap of the accounts that may be cut. *)
Definition spammers p : list (Address * Z) :=
  foldl (fun q kv => if negb (TxLookup.contains (plocals p) kv.1) && (AccountSlots (config p) <? u64 (Len kv.2)) then Push higher q (kv.1, Len kv.2) else q) [] (range (pending p)).

Lemma spammers_spec p : Z.of_nat (count (cts (pending p))) < two64 ->
  (forall a z, (a, z) ∈ spammers p <-> exists l, pending p !! a = Some l /\ spammer p a l = true /\ z = Z.of_nat (size (contents l))) /\
  NoDup (spammers p).*1 /\ heap higher (spammers p).
Proof.
  intros Hb. destruct (push_all (fun kv : Address * txsList => negb (TxLookup.contains (plocals p) kv.1) && (AccountSlots (config p) <? u64 (Len kv.2))) (fun kv => (kv.1, Len kv.2)) (range (pending p)) []) as [Hh Hp]; [apply heap_nil|].
  fold (spammers p) in Hh, Hp. rewrite app_nil_r in Hp. split_and!; [|by rewrite Hp, <- list_fmap_compose; apply NoDup_fmap_filter, NoDup_range_fst|done].
  assert (forall a l, pending p !! a = Some l -> u64 (Len l) = Z.of_nat (size (contents l))) as Hlen.
  { intros a l Hl. pose proof (size_le_count p a l Hl). unfold Len, SortedMap.Len. fold (contents l). apply u64_small. unfold in_u64. lia. }
  intros a z. rewrite Hp, list_elem_of_fmap. unfold spammer. split.
  - intros ([a' l] & [= -> ->] & [Hc Hl%elem_of_range]%list_elem_of_filter). cbn [fst snd] in *. exists l. by rewrite (Hlen a' l Hl) in Hc.
  - intros (l & Hl & Hc & ->). exists (a, l). split; [done|]. apply list_elem_of_filter. split; [|by apply elem_of_range]. cbn [fst snd]. by rewrite (Hlen a l Hl).
Qed.

Lemma runs_truncatePending p : PoolOK p -> 0 < AccountSlots (config p) -> TxLookup.slots (all p) < two64 -> runs truncatePending p (fun p' _ => pending_cut p p').
Proof.
  intros Hok Hslots Hb. rewrite (pool_count _ _ _ _ Hok) in Hb. unfold truncatePending. step. step. rewrite total_count by lia.
  destruct (Z.leb_spec (Z.of_nat (count (cts (pending p)))) (GlobalSlots (config p))) as [Hle|Hgt]; [step; by apply pending_cut_refl|].
  set (k := Z.to_nat (AccountSlots (config p))). assert (AccountSlots (config p) = Z.of_nat k) as Hk by (unfold k; lia).
  change (foldl _ [] (range (pending p))) with (spammers p). set (q := spammers p). destruct (spammers_spec p ltac:(lia)) as (Hq & Hnd & Hh). fold q in Hq, Hnd, Hh.
  assert (spam k p [] q) as Hsp.
  { split; [done|done|done| |by intros ? ?%elem_of_nil]. intros a z (l & Hl & [_ Hc%Z.ltb_lt]%andb_true_iff & ->)%Hq. exists (size (contents l)). split_and!; [done|by exists l|lia]. }
  assert (forall a l, pending p !! a = Some l -> spammer p a l = true <-> a ∈ q.*1) as Hvs.
  { intros a l Hl. rewrite list_elem_of_fmap. split.
    - intros Hs. eexists (a, _). split; [done|]. apply Hq. by exists l.
    - intros ([a' z] & -> & (l' & Hl' & Hs & _)%Hq). cbn [fst] in *. congruence. }
  assert (forall v, v ∈ q.*1 -> is_Some (pending p !! v)) as Hin by (intros v ([a z] & -> & (l & Hl & _)%Hq)%list_elem_of_fmap; by eexists).
  step. eapply runs_mono; [apply (runs_spammers (length q) k p [] q); [lia|done|done|right; exists 0%nat; split; [by intros ? ?%elem_of_nil|done]|lia]|].
  intros p1 [os pend] [H1 H2 H3 H4 H5 H6]. cbn [app] in *. cbv beta iota. subst pend.
  assert (config p1 = config p) as Hcfg by (pose proof (cu_env _ _ _ H1) as He; by injection He).
  destruct os as [|last os'] eqn:Eos.
  { step. eapply (pending_cut_intro p p1 q.*1 k); [done..| |].
    - intros v Hv. destruct (H5 v Hv) as (n & ? & ?). exists n. split; [done|lia].
    - destruct H6 as [?|[He _]]; [by left|right]. intros v Hv%He. by apply elem_of_nil in Hv. }
  rewrite <- Eos in *. destruct (Z.ltb_spec (GlobalSlots (config p)) (Z.of_nat (count (cts (pending p1))))) as [Hgt1|Hle1].
  - destruct H6 as [?|[He [n Hn]]]; [lia|]. assert (last ∈ os) as Hlast by (rewrite Eos; by left).
    destruct (H5 last) as (n' & Hl' & Hkn); [by apply He|]. assert (n' = n) as -> by (eapply haslen_det; [exact Hl'|by apply Hn]).
    step. eapply runs_lenOf; [by apply Hn|]. rewrite Nat2Z.id, Hk. step.
    eapply runs_mono; [apply (runs_equalize n p1 (rev os) last n k); [apply H1|by rewrite rev_reverse, reverse_Permutation|by rewrite rev_reverse, elem_of_reverse|intros v Hv; rewrite rev_reverse, elem_of_reverse in Hv; by apply Hn|lia|lia|lia|lia]|].
    intros p2 pend (Hcut & -> & Hc2 & n2 & Hn2 & Hk2 & Hdone). step. rewrite Hcfg in Hdone.
    assert (forall v, v ∈ q.*1 -> haslen p2 v n2) as Hn3 by (intros v Hv; apply Hn2; rewrite rev_reverse, elem_of_reverse; by apply He).
    eapply (pending_cut_intro p p2 q.*1 k); [eapply cut_trans; [exact H1|]|lia|done|done|done| |].
    + eapply cut_weaken; [|exact Hcut]. intros v Hv. rewrite rev_reverse, elem_of_reverse in Hv. by apply He.
    + intros v Hv. exists n2. split; [by apply Hn3|done].
    + destruct Hdone as [?| ->]; [by left|by right].
  - step. eapply (pending_cut_intro p p1 q.*1 k); [done..| |by left]. intros v Hv. destruct (H5 v Hv) as (n & ? & ?). exists n. split; [done|lia].
Qed.

(** ** Queued transactions *)

Definition dropAll a r (M : gmap Address (gmap Z TxData)) : gmap Address (gmap Z TxData) := foldl (fun M tx => drop1 a (Nonce tx) M) M r.

(** What removing queued transactions leaves. *)
Record queue_cut p p' (M : gmap Address (gmap Z TxData)) : Prop := {
  qc_ok : PoolOK p';
  qc_env : env p' = env p;
  qc_pending : cts (pending p') = cts (pending p);
  qc_queue : cts (queue p') = M
}.

Lemma queue_cut_trans p p1 p2 M1 M2 : queue_cut p p1 M1 -> queue_cut p1 p2 M2 -> queue_cut p p2 M2.
Proof. intros [] []. split; congruence. Qed.

Lemma runs_dropQueued p a tx : PoolOK p -> at_ (cts (queue p)) a (Nonce tx) = Some tx ->
  runs (removeTx (TxHash tx) true) p (fun p' _ => queue_cut p p' (drop1 a (Nonce tx) (cts (queue p)))).
Proof.
  intros Hok Hat. pose proof (ok_placed _ _ _ _ _ Hok) as Hpl. destruct (pl_Q _ _ _ _ Hpl _ _ _ Hat) as [Ha _].
  pose proof Hat as Hat'. unfold at_ in Hat'. rewrite cts_lookup in Hat'. destruct (queue p !! a) as [l|] eqn:El; [|done].
  eapply runs_mono; [apply (runs_remove_queued [] p a tx l true); [done|done|done|done| |]|].
  - intros l' Hl'. destruct (pl_PQ _ _ _ _ Hpl a (Nonce tx)) as [Hn|Hn]; [|congruence]. unfold at_ in Hn. by rewrite cts_lookup, Hl' in Hn.
  - apply (pl_g _ _ _ _ Hpl). split; [done|]. right; right. by exists a.
  - by intros p' [] (? & ? & _ & ? & ?).
Qed.

Lemma runs_dropQueuedAll p a r : PoolOK p -> NoDup (Nonce <$> r) -> (forall tx, tx ∈ r -> at_ (cts (queue p)) a (Nonce tx) = Some tx) ->
  runs (forEach (fun tx => removeTx (TxHash tx) true) r) p (fun p' _ => queue_cut p p' (dropAll a r (cts (queue p)))).
Proof.
  revert p. induction r as [|tx r IH]; intros p Hok Hnd Hr; cbn [forEach dropAll foldl]; [by step|]. cbn in Hnd. apply NoDup_cons in Hnd as [Hni Hnd].
  step. eapply runs_mono; [apply (runs_dropQueued p a tx); [done|by apply Hr; left]|]. intros p1 [] Hc1. rewrite <- (qc_queue _ _ _ Hc1).
  eapply runs_mono; [apply (IH p1); [apply Hc1|done|]|].
  - intros t Ht. rewrite (qc_queue _ _ _ Hc1), at_drop1, decide_False; [apply Hr; by right|]. intros [_ E]. apply Hni. rewrite <- E. by apply list_elem_of_fmap_2.
  - intros p2 [] Hc2. by eapply queue_cut_trans.
Qed.

Lemma at_dropAll a r M a' (n : Z) : at_ (dropAll a r M) a' n = if decide (a' = a /\ n ∈ Nonce <$> r) then None else at_ M a' n.
Proof.
  revert M. induction r as [|tx r IH]; intros M; cbn [dropAll foldl].
  - rewrite decide_False; [done|]. by intros [_ ?%elem_of_nil].
  - fold (dropAll a r (drop1 a (Nonce tx) M)). rewrite IH, at_drop1. cbn. repeat case_decide; try done; rewrite elem_of_cons in *; naive_solver.
Qed.

Lemma count_dropAll a r M : NoDup (Nonce <$> r) -> (forall tx, tx ∈ r -> at_ M a (Nonce tx) = Some tx) -> (count (dropAll a r M) + length r = count M)%nat.
Proof.
  revert M. induction r as [|tx r IH]; intros M Hnd Hr; cbn [dropAll foldl length]; [lia|]. cbn in Hnd. apply NoDup_cons in Hnd as [Hni Hnd].
  fold (dropAll a r (drop1 a (Nonce tx) M)). pose proof (count_drop1 M a (Nonce tx) tx ltac:(apply Hr; by left)) as Hc.
  specialize (IH (drop1 a (Nonce tx) M) Hnd). rewrite <- Hc, <- IH; [lia|]. intros t Ht. rewrite at_drop1, decide_False; [apply Hr; by right|].
  intros [_ E]. apply Hni. rewrite <- E. by apply list_elem_of_fmap_2.
Qed.

Lemma dropAll_other a r M a' : a' <> a -> dropAll a r M !! a' = M !! a'.
Proof. intros Hne. revert M. induction r as [|tx r IH]; intros M; cbn [dropAll foldl]; [done|]. fold (dropAll a r (drop1 a (Nonce tx) M)). rewrite IH. by apply drop1_other. Qed.

(** The queued transactions of an account, by nonce. *)
Lemma sorted_queued p a l : PoolOK p -> queue p !! a = Some l -> let r := SortedMap.sorted (contents l) in
  NoDup (Nonce <$> r) /\ (forall tx, tx ∈ r <-> at_ (cts (queue p)) a (Nonce tx) = Some tx) /\ length r = size (contents l).
Proof.
  intros Hok Hl r. destruct (ok_queue _ _ _ _ _ Hok a l Hl) as [Hw _]. pose proof (lw_keyed l Hw) as Hk. split_and!; [|intros tx; unfold r|apply SortedMap.length_sorted].
  - apply NoDup_fmap_2_strong; [|by apply sorted_nodup]. intros x y Hx Hy. by apply (SortedMap.nonce_inj (contents l)).
  - rewrite sorted_in by done. unfold at_. by rewrite cts_lookup, Hl.
Qed.

(** The list whose cache [Flatten] has filled. *)
Lemma flattened p a l l' : PoolOK p -> queue p !! a = Some l -> takes l l' [] -> queue_cut p (set_queue (<[a := l']> (queue p)) p) (cts (queue p)).
Proof.
  intros Hok Hl T. assert (contents l' = contents l) as Hc by apply (tk_contents _ _ _ T). destruct (ok_sq _ _ _ _ _ Hok a l) as [Hne Hb]; [done..|]. split; [|done|done|].
  - eapply (ok_settle_Q _ _ _ _ a); [apply (ok_take_Q [] [] None p a l l' []); [by eapply ok_weaken_Q|done|done]|]. intros l2. fields. rewrite lookup_insert_eq. intros [= <-]. by rewrite Hc.
  - fields. rewrite cts_insert, Hc. apply insert_id. by rewrite cts_lookup, Hl.
Qed.

(** What [truncateQueue] leaves. *)
Record queue_limit p p' : Prop := {
  ql_ok : PoolOK p';
  ql_env : env p' = env p;
  ql_pending : cts (pending p') = cts (pending p);
  ql_limit : Z.of_nat (count (cts (queue p'))) <= GlobalQueue (config p) \/ forall a, is_Some (queue p' !! a) -> TxLookup.contains (plocals p) a = true;
  ql_spared : forall a, TxLookup.contains (plocals p) a = true -> cts (queue p') !! a = cts (queue p) !! a
}.

Lemma queue_limit_pre p p1 p2 M : queue_cut p p1 M -> (forall a, TxLookup.contains (plocals p) a = true -> M !! a = cts (queue p) !! a) -> queue_limit p1 p2 -> queue_limit p p2.
Proof.
  intros Hc Hs []. pose proof (qc_env _ _ _ Hc) as He. injection He as Hcfg _ _ _ Hpl. rewrite Hcfg, Hpl in *.
  split; [done|by rewrite ql_env0; apply Hc|by rewrite ql_pending0; apply Hc|done|]. intros a Ha. rewrite ql_spared0 by done. rewrite (qc_queue _ _ _ Hc). by apply Hs.
Qed.

Lemma cts_is_Some (m : gmap Address txsList) a : is_Some (cts m !! a) <-> is_Some (m !! a).
Proof. rewrite cts_lookup. apply fmap_is_Some. Qed.

Lemma queue_cut_locals p p' M : queue_cut p p' M -> config p' = config p /\ plocals p' = plocals p.
Proof. intros [_ He _ _]. by injection He. Qed.

(** An account all of whose transactions are dropped is not queued. *)
Lemma dropAll_gone p p' a r M : queue_cut p p' (dropAll a r M) -> (forall tx (n : Z), at_ M a n = Some tx -> n ∈ Nonce <$> r) -> queue p' !! a = None.
Proof.
  intros [Hok _ _ HM] Hr. destruct (queue p' !! a) as [l|] eqn:El; [|done]. exfalso. destruct (ok_sq _ _ _ _ _ Hok a l) as [Hne _]; [done..|].
  apply Hne, map_empty. intros n. pose proof (at_dropAll a r M a n) as Hat. rewrite <- HM in Hat. unfold at_ in Hat at 1. rewrite cts_lookup, El in Hat. cbn in Hat. rewrite Hat.
  case_decide as Hd; [done|]. destruct (at_ M a n) as [tx|] eqn:E; [|done]. exfalso. apply Hd. eauto.
Qed.

(** The accounts that may be cut are those of [addrs]. *)
Record cuttable p (addrs : list Address) : Prop := {
  cb_in : forall a, a ∈ addrs -> TxLookup.contains (plocals p) a = false /\ is_Some (queue p !! a);
  cb_all : forall a, is_Some (queue p !! a) -> TxLookup.contains (plocals p) a = true \/ a ∈ addrs
}.

Lemma cuttable_next p p' a addrs r : cuttable p (a :: addrs) -> a ∉ addrs -> queue_cut p p' (dropAll a r (cts (queue p))) -> queue p' !! a = None -> cuttable p' addrs.
Proof.
  intros [H1 H2] Hni Hc Hn. destruct (queue_cut_locals _ _ _ Hc) as [_ Hpl].
  assert (forall b, b <> a -> is_Some (queue p' !! b) <-> is_Some (queue p !! b)) as Hq.
  { intros b Hb. by rewrite <- !cts_is_Some, (qc_queue _ _ _ Hc), dropAll_other. }
  split; rewrite Hpl; intros b Hb.
  - assert (b <> a) as Hne by (by intros ->). rewrite Hq by done. apply H1. by right.
  - assert (b <> a) as Hne by (intros ->; rewrite Hn in Hb; by destruct Hb). apply Hq in Hb; [|done]. destruct (H2 b Hb) as [?|[->|?]%elem_of_cons]; auto.
Qed.

Lemma truncateQueue_done addrs p : truncateQueue_loop addrs 0 p = Ok (p, tt).
Proof. by destruct addrs as [|[a t] addrs]. Qed.

(** Some of the queued transactions of an account are removed. *)
Lemma runs_dropPart p p1 a l r r' : PoolOK p -> queue p !! a = Some l -> queue_cut p p1 (cts (queue p)) -> SortedMap.sorted (contents l) ≡ₚ r ++ r' ->
  runs (forEach (fun tx => removeTx (TxHash tx) true) r) p1 (fun p2 _ =>
    queue_cut p p2 (dropAll a r (cts (queue p))) /\ (count (cts (queue p2)) + length r = count (cts (queue p)))%nat).
Proof.
  intros Hok Hl Hc1 Hr. destruct (sorted_queued p a l Hok Hl) as (Hsn & Hsin & _). assert (NoDup (Nonce <$> r)) as Hnd by (rewrite Hr, fmap_app in Hsn; by apply NoDup_app in Hsn as [? _]).
  assert (forall tx, tx ∈ r -> at_ (cts (queue p)) a (Nonce tx) = Some tx) as Hin by (intros tx Htx; apply Hsin; rewrite Hr; apply elem_of_app; by left).
  eapply runs_mono; [apply (runs_dropQueuedAll p1 a r); [apply Hc1|done|by rewrite (qc_queue _ _ _ Hc1)]|]. intros p2 [] Hc2. rewrite (qc_queue _ _ _ Hc1) in Hc2.
  split; [by eapply queue_cut_trans|]. rewrite (qc_queue _ _ _ Hc2). by apply count_dropAll.
Qed.

Lemma queue_limit_next p p2 p3 a r : TxLookup.contains (plocals p) a = false -> queue_cut p p2 (dropAll a r (cts (queue p))) -> queue_limit p2 p3 -> queue_limit p p3.
Proof. intros Hloc Hc Hq. eapply queue_limit_pre; [exact Hc| |exact Hq]. intros b Hbl. apply dropAll_other. intros ->. congruence. Qed.

Lemma runs_truncateQueue_loop p (addrs : list (Address * Z)) (G : Z) : PoolOK p -> NoDup addrs.*1 -> GlobalQueue (config p) = G -> 0 <= G -> G <= Z.of_nat (count (cts (queue p))) < two64 ->
  cuttable p addrs.*1 -> runs (truncateQueue_loop addrs (Z.of_nat (count (cts (queue p))) - G)) p (fun p' _ => queue_limit p p').
Proof.
  intros Hok Hnd HG HG0 Hb Hcb. revert p Hok HG Hb Hcb. induction addrs as [|[a t] addrs IH]; intros p Hok HG Hb Hcb; cbn [truncateQueue_loop].
  { step. split; try done. right. intros a [?|?%elem_of_nil]%(cb_all _ _ Hcb); done. }
  cbn in Hnd, Hcb. apply NoDup_cons in Hnd as [Hni Hnd]. destruct (Z.ltb_spec 0 (Z.of_nat (count (cts (queue p))) - G)) as [Hpos|Hpos]; cbn [negb]; [|step; split; try done; left; lia].
  destruct (cb_in _ _ Hcb a) as [Hloc [l Hl]]; [by left|]. step. step. step. eapply runs_lift; [by rewrite Hl|].
  destruct (ok_queue _ _ _ _ _ Hok a l Hl) as [Hw _]. destruct (Flatten_takes l Hw) as (l' & -> & T). step. step. cbv zeta.
  pose proof (flattened p a l l' Hok Hl T) as Hc1. destruct (sorted_queued p a l Hok Hl) as (_ & Hsin & Hslen). set (r := SortedMap.sorted (contents l)) in *.
  assert (u64 (Len l') = Z.of_nat (length r)) as ->.
  { unfold Len, SortedMap.Len. fold (contents l'). rewrite (tk_contents _ _ _ T : contents l' = contents l), <- Hslen. apply u64_small.
    pose proof (count_split (cts (queue p)) a (contents l)) as Hs. rewrite cts_lookup, Hl in Hs. specialize (Hs eq_refl). unfold in_u64. lia. }
  destruct (Z.leb_spec (Z.of_nat (length r)) (Z.of_nat (count (cts (queue p))) - G)) as [Hle|Hgt].
  - step. eapply runs_mono; [apply (runs_dropPart p _ a l r []); [done|done|done|by rewrite app_nil_r]|]. intros p2 [] [Hc2 Hcount]. rewrite sub64_small by (unfold in_u64; lia).
    replace (Z.of_nat (count (cts (queue p))) - G - Z.of_nat (length r)) with (Z.of_nat (count (cts (queue p2))) - G) by lia. destruct (queue_cut_locals _ _ _ Hc2) as [Hcfg _].
    eapply runs_mono; [apply (IH Hnd p2); [apply Hc2|by rewrite Hcfg|lia|]|intros p3 [] Hq; by eapply queue_limit_next].
    eapply cuttable_next; [exact Hcb|done|exact Hc2|]. eapply dropAll_gone; [exact Hc2|]. intros tx n Hat. destruct (pl_Q _ _ _ _ (ok_placed _ _ _ _ _ Hok) _ _ _ Hat) as [_ <-].
    apply list_elem_of_fmap_2. by apply Hsin.
  - set (k := Z.to_nat _). assert (length (take k (rev r)) = k) as Hvs by (rewrite length_take, length_rev; lia).
    step. eapply runs_mono; [apply (runs_dropPart p _ a l (take k (rev r)) (drop k (rev r))); [done|done|done|rewrite take_drop; apply Permutation_rev]|].
    intros p2 [] [Hc2 Hcount]. rewrite Hvs in Hcount |- *. unfold k in *. rewrite Z2Nat.id, sub64_small, Z.sub_diag by (unfold in_u64; lia). eapply runs_eq; [apply truncateQueue_done|].
    destruct (queue_cut_locals _ _ _ Hc2) as [Hcfg _]. eapply queue_limit_next; [exact Hloc|exact Hc2|]. split; try done; [apply Hc2|]. left. rewrite Hcfg. lia.
Qed.

Lemma runs_truncateQueue p : PoolOK p -> 0 <= GlobalQueue (config p) -> TxLookup.slots (all p) < two64 -> runs truncateQueue p (fun p' _ => queue_limit p p').
Proof.
  intros Hok HG Hb. rewrite (pool_count _ _ _ _ Hok) in Hb. unfold truncateQueue. step. step. rewrite total_count by lia.
  destruct (Z.leb_spec (Z.of_nat (count (cts (queue p)))) (GlobalQueue (config p))) as [Hle|Hgt]; [step; split; try done; by left|].
  match goal with |- context [merge_sort byHeartbeat ?l] => set (addrs := l) end.
  assert (rev (merge_sort byHeartbeat addrs) ≡ₚ addrs) as Hp by (rewrite <- Permutation_rev; apply merge_sort_Permutation).
  assert (addrs.*1 = (filter (fun kv : Address * txsList => TxLookup.contains (plocals p) kv.1 = false) (range (queue p))).*1) as Ha by (unfold addrs; change @map with (fun A B => @fmap list _ A B); by rewrite <- list_fmap_compose).
  rewrite sub64_small by (unfold in_u64; lia). apply runs_truncateQueue_loop; [done| |done|done|lia|split].
  - rewrite Hp, Ha. apply NoDup_fmap_filter. apply NoDup_range_fst.
  - intros a. rewrite Hp, Ha, list_elem_of_fmap. intros ([a' l] & -> & [Hc Hl%elem_of_range]%list_elem_of_filter). cbn [fst] in *. split; [done|by eexists].
  - intros a [l Hl]. rewrite Hp, Ha. destruct (TxLookup.contains (plocals p) a) eqn:Ec; [by left|right]. apply (list_elem_of_fmap_2 fst _ (a, l)), list_elem_of_filter.
    split; [done|by apply elem_of_range].
Qed.
End Limits.
End TxPoolLimits.
