(* ===== verification/TxPoolReorg.v ===== *)
(** * TxPoolReorg: a new head of the chain

    [reset] finds the transactions to put back, [runReorg] promotes, demotes and
    truncates.  Both return and keep the invariant. *)

From S2P Require Import Prelude Uint256 ChainConfig Header HeaderRules StateModel StateTransition Transaction Heap TxSortedMap TxList TxLookup TxPool TxTakes TxPriced TxPoolGrowth TxPlaces TxPoolInv TxPoolMoves TxPoolAdds TxPoolCount TxPoolLimits.
Import Transaction.
Import TxsList.

Module TxPoolReorg.
Import TxPool TxTakes TxPriced TxPoolGrowth TxPlaces TxPoolInv TxPoolMoves TxPoolAdds TxPoolCount TxPoolLimits.

Section Reorg.
Context `{U : Uint256} `{MR : MapRange} `{H : !TxHasher} `{Env : !PoolEnv}.
Implicit Types (p : TxsPool) (a : Address) (tx : TxData) (l : txsList) (b : Block).

Definition goTxs (txs : list TxData) : Prop := forall tx, tx ∈ txs -> goTx tx.

Lemma goTxs_app x y : goTxs x -> goTxs y -> goTxs (x ++ y).
Proof. intros Hx Hy tx [?|?]%elem_of_app; auto. Qed.

(** What the pool relies on of a block: its transactions are transactions, and
    its parent is one lower. *)
Definition linked b : Prop := goTxs (bTxs b) /\ forall b', GetBlockByHash (bParent b) = Some b' -> bNumber b' = bNumber b - 1.
Definition ChainOK : Prop := forall h b, GetBlockByHash h = Some b -> linked b.

Lemma bNumber_nonneg b : 0 <= bNumber b.
Proof. unfold bNumber. apply uval_range. Qed.

(** ** The transactions to put back *)

Lemma descend_spec fuel b (n : Z) acc : ChainOK -> linked b -> goTxs acc -> bNumber b - n <= Z.of_nat fuel ->
  exists r, descend fuel b n acc = Ok r /\ forall b' acc', r = Some (b', acc') -> linked b' /\ goTxs acc'.
Proof.
  intros Hch. revert b acc. induction fuel as [|fuel IH]; intros b acc Hb Hacc Hf; cbn [descend]; destruct (Z.ltb_spec n (bNumber b)); cbn [negb]; try (eexists; split; [done|]; by intros ?? [= <- <-]).
  - lia.
  - destruct (GetBlockByHash (bParent b)) as [b'|] eqn:E; [|by eexists]. apply IH; [by eapply Hch|by apply goTxs_app; [|apply Hb]|]. rewrite (proj2 Hb _ E). lia.
Qed.

Lemma meet_spec fuel b b' x y : ChainOK -> linked b -> goTxs x -> bNumber b < Z.of_nat fuel ->
  exists r, meet fuel b b' x y = Ok r /\ forall x' y', r = Some (x', y') -> goTxs x'.
Proof.
  intros Hch. revert b b' x y. induction fuel as [|fuel IH]; intros b b' x y Hb Hx Hf; cbn [meet]; (case_decide; [eexists; split; [done|]; by intros ?? [= <- _]|]).
  - pose proof (bNumber_nonneg b). lia.
  - destruct (GetBlockByHash (bParent b)) as [c|] eqn:E; [|by eexists]. destruct (GetBlockByHash (bParent b')) as [c'|] eqn:E'; [|by eexists].
    apply IH; [by eapply Hch|by apply goTxs_app; [|apply Hb]|]. rewrite (proj2 Hb _ E). lia.
Qed.

(** A reset request; the first head may be missing, the second only with it. *)
Record request_ok (old new : option Block) : Prop := {
  rq_new : is_Some old -> is_Some new;
  rq_linked : forall b, old = Some b \/ new = Some b -> linked b
}.

Lemma reinjected_spec old new : ChainOK -> request_ok old new -> exists r, reinjected old new = Ok r /\ forall txs, r = Some txs -> goTxs txs.
Proof.
  intros Hch [Hnew Hl]. unfold reinjected. assert (goTxs []) as Hnil by (by intros ? ?%elem_of_nil).
  destruct old as [o|]; [|eexists; split; [done|]; by intros ? [= <-]]. destruct Hnew as [n ->]; [done|]. cbn [TxLookup.deref or_panic mbind outcome_bind].
  case_decide; [eexists; split; [done|]; by intros ? [= <-]|]. unfold reorged. case_match; [eexists; split; [done|]; by intros ? [= <-]|].
  destruct (descend_spec (Z.to_nat (bNumber o - bNumber n)) o (bNumber n) []) as (r1 & -> & Hd1); [done|by apply Hl; left|done|lia|]. cbn [mbind outcome_bind]. destruct r1 as [[rem disc]|]; [|by eexists].
  destruct (Hd1 _ _ eq_refl) as [Hrem Hdisc]. destruct (descend_spec (Z.to_nat (bNumber n - bNumber rem)) n (bNumber rem) []) as (r2 & -> & Hd2); [done|by apply Hl; right|done|lia|]. cbn [mbind outcome_bind].
  destruct r2 as [[addb incl]|]; [|by eexists]. destruct (meet_spec (S (Z.to_nat (bNumber rem))) rem addb disc incl) as (r3 & -> & Hm3); [done|done|done|pose proof (bNumber_nonneg rem); lia|].
  cbn [mbind outcome_bind]. destruct r3 as [[d i]|]; [|by eexists]. eexists. split; [done|]. intros txs [= <-] tx. unfold txDifference. intros [_ Htx]%list_elem_of_filter. by apply (Hm3 d i).
Qed.

Lemma runs_reset p old new r : PoolOK p -> reinjected old new = Ok r -> (forall txs, r = Some txs -> goTxs txs) ->
  runs (reset old new) p (fun p' _ => PoolOK p' /\ config2 p' = config2 p).
Proof.
  intros Hok E Hr. unfold reset. step. eapply runs_lift; [exact E|]. destruct r as [txs|]; [|by step]. step. apply runs_modify.
  step. unfold addTxsLocked. eapply runs_mono; [apply (runs_addTxsLocked (set_currentMaxGas (GasLimit (bHeader (default CurrentBlock new))) p)); [by destruct Hok|by apply Hr]|].
  intros p1 [errs d] (Hok1 & Hc1 & _). steps. split; [by destruct Hok1|exact Hc1].
Qed.

(** ** Announcements *)

Definition events_ok (evs : gmap Address txsSortedMap) : Prop := forall a m, evs !! a = Some m -> SortedMap.wf m.

Lemma runs_staleEvents p evs : events_ok evs -> runs (staleEvents evs) p (fun p' evs' => (exists m, p' = set_pendingNonces m p) /\ events_ok evs').
Proof.
  intros Hev. unfold staleEvents. cbv zeta.
  assert (forall kv, kv ∈ range evs -> SortedMap.wf kv.2) as Hall by (intros [a m] Hin%elem_of_range; by eapply Hev).
  assert (runs (mret evs : M (gmap Address txsSortedMap)) p (fun p' evs' => (exists m, p' = set_pendingNonces m p) /\ events_ok evs')) as Hacc.
  { step. split; [|done]. exists (pendingNonces p). by destruct p. }
  revert Hacc. generalize (mret evs : M (gmap Address txsSortedMap)). induction (range evs) as [|[a m] l IH]; intros acc Hacc; cbn [foldl]; [exact Hacc|].
  apply IH; [by intros kv Hkv; apply Hall; right|]. step. eapply runs_mono; [exact Hacc|]. intros p1 evs1 [[m1 ->] Hev1]. step. apply runs_nonceGet. intros m2 n.
  destruct (SortedMap.Forward_spec m n (Hall (a, m) ltac:(by left))) as (m' & E & Hm' & _). step. eapply runs_lift; [exact E|]. cbv beta iota. step. split; [by eexists|].
  case_match; intros b mb; [intros [_ ?]%lookup_delete_Some|intros [[_ <-]|[_ ?]]%lookup_insert_Some]; [by eapply Hev1|done|by eapply Hev1].
Qed.

Lemma putEvents_returns txs evs : (forall tx, tx ∈ txs -> is_Some (From tx)) -> exists evs', TxLookup.each putEvent txs evs = Ok evs'.
Proof.
  revert evs. induction txs as [|tx txs IH]; intros evs Htxs; cbn [TxLookup.each]; [by eexists|]. destruct (Htxs tx) as [a Ha]; [by left|].
  assert (exists e, putEvent tx evs = Ok e) as [e ->] by (unfold putEvent; rewrite Ha; by eexists). apply IH. intros t Ht. apply Htxs. by right.
Qed.

(** ** All accounts *)

Lemma env_config p p' : env p' = env p -> config2 p' = config2 p.
Proof. intros He. unfold config2. by injection He as -> -> _ _ _. Qed.

Definition config_ok (c : TxsPoolConfig) : Prop := 0 < AccountSlots c /\ 0 <= AccountQueue c /\ 0 <= GlobalQueue c.

Lemma runs_promoteExecutables p (accounts : list Address) : PoolOK p -> config_ok (config p) ->
  runs (promoteExecutables accounts) p (fun p' txs => PoolOK p' /\ env p' = env p /\ forall tx, tx ∈ txs -> is_Some (From tx)).
Proof.
  revert p. induction accounts as [|a accounts IH]; intros p Hok Hc; cbn [promoteExecutables]; [step; split_and!; [done|done|by intros ? ?%elem_of_nil]|].
  step. eapply runs_mono; [apply runs_promoteAccount; [done|apply Hc]|]. intros p1 txs (Hok1 & He1 & Ht1). step.
  assert (config p1 = config p) as Hc1 by (by injection He1). eapply runs_mono; [apply IH; [done|by rewrite Hc1]|]. intros p2 txs2 (Hok2 & He2 & Ht2). step. split_and!; [done|congruence|].
  intros tx [Htx|Htx]%elem_of_app; [by rewrite (Ht1 tx Htx)|by apply Ht2].
Qed.

Lemma runs_demoteUnexecutables p : PoolOK p -> runs demoteUnexecutables p (fun p' _ => PoolOK p' /\ env p' = env p).
Proof.
  intros Hok. unfold demoteUnexecutables. step. step. eapply runs_mono; [eapply (runs_forEach _ _ (fun _ p' => PoolOK p' /\ env p' = env p)); [done|]|done].
  intros a l p' [Hok' He']. eapply runs_mono; [by apply runs_demoteAccount|]. intros p2 [] [??]. split; [done|congruence].
Qed.

Lemma runs_highestNonces p (addrs : list Address) acc : PoolOK p -> (forall a, a ∈ addrs -> is_Some (pending p !! a)) ->
  runs (highestNonces addrs acc) p (fun p' _ => PoolOK p' /\ env p' = env p).
Proof.
  revert p acc. induction addrs as [|a addrs IH]; intros p acc Hok Hin; cbn [highestNonces]; [by step|]. destruct (Hin a) as [l Hl]; [by left|].
  destruct (ok_pending _ _ _ _ _ Hok a l Hl) as [Hw _]. pose proof (ok_sp _ _ _ _ _ Hok a l ltac:(done) Hl) as Hne. destruct (LastElement_takes l Hw Hne) as (l' & tx & E & T & _).
  step. step. step. eapply runs_lift; [by rewrite Hl|]. step. eapply runs_lift; [exact E|]. cbv beta iota. step. step.
  eapply runs_mono; [apply IH|intros p2 m [Hok2 He2]; split; [done|by rewrite He2]].
  - eapply (ok_settle_P _ _ _ _ a); [apply (ok_take_P [] [] None p a l l' []); [by eapply ok_weaken_P|done|done]|]. intros l2. fields. rewrite lookup_insert_eq. intros [= <-].
    by rewrite (tk_contents _ _ _ T : contents l' = contents l).
  - intros b Hb. fields. rewrite lookup_insert. case_decide; [by eexists|]. apply Hin. by right.
Qed.

(** The base fee of the block after the new head can be computed. *)
Definition fee_ok p (new : option Block) : Prop :=
  forall b, new = Some b -> ChainConfig.IsLondon (chainconfig p) (u64 (bNumber b) +u 1) = true -> exists fee, HeaderRules.CalcBaseFee (chainconfig p) (bHeader b) = Ok fee.

Lemma runs_setFee p new : PoolOK p -> fee_ok p new ->
  runs (match new with
        | None => mret tt
        | Some b => updates (fun p =>
            if ChainConfig.IsLondon (chainconfig p) (u64 (bNumber b) +u 1) then
              fee ← HeaderRules.CalcBaseFee (chainconfig p) (bHeader b);
              l ← TxLookup.SetBaseFee (all p) (uFromBig fee).1 (priced p);
              Ok (set_priced l p)
            else Ok p)
        end) p (fun p' _ => PoolOK p' /\ env p' = env p /\ all p' = all p).
Proof.
  intros Hok Hfee. destruct new as [b|]; [|by step]. destruct (ChainConfig.IsLondon (chainconfig p) (u64 (bNumber b) +u 1)) eqn:El.
  - destruct (Hfee b eq_refl El) as [fee Ef]. destruct (SetBaseFee_covered [] (all p) (uFromBig fee).1 (priced p)) as (L & EL & HL); [apply Hok|].
    eapply runs_eq; [unfold updates; rewrite El, Ef; cbn [mbind outcome_bind]; by rewrite EL|]. split_and!; [|done|done]. destruct Hok. by split.
  - eapply runs_eq; [unfold updates; by rewrite El|]. done.
Qed.

(** ** [runReorg] *)

Lemma runs_grows {A} k (m : M A) p (Q : TxsPool -> A -> Prop) : grows k m -> runs m p Q ->
  runs m p (fun p' x => Q p' x /\ TxLookup.slots (all p') <= TxLookup.slots (all p) + Z.of_nat k).
Proof. intros Hg (p' & x & E & HQ). exists p', x. split_and!; [done|done|]. by eapply Hg. Qed.

(** The pool before it is promoted: [k] transactions were put back. *)
Definition stage (k : nat) p p' : Prop := PoolOK p' /\ config2 p' = config2 p /\ TxLookup.slots (all p') <= TxLookup.slots (all p) + Z.of_nat k.

Lemma stage_trans k p p1 p2 : stage k p p1 -> stage 0 p1 p2 -> stage k p p2.
Proof. intros (H1 & H2 & H3) (H4 & H5 & H6). split_and!; [done|congruence|lia]. Qed.

(** The arguments of [runReorg]. *)
Record reorg_ok p (request : option (option Block * option Block)) (evs : gmap Address txsSortedMap) : Prop := {
  ro_chain : ChainOK;
  ro_request : forall old new, request = Some (old, new) -> request_ok old new /\ fee_ok p new;
  ro_events : events_ok evs;
  ro_bound : forall k, match request with None => k = 0%nat | Some (old, new) => exists r, reinjected old new = Ok r /\ k = length (default [] r) end ->
    TxLookup.slots (all p) + Z.of_nat k < two64
}.

Definition firstPart (request : option (option Block * option Block)) (dirtyAccounts : option TxLookup.accountSet) (evs : gmap Address txsSortedMap) : M (gmap Address txsSortedMap * list Address) :=
  match request with
  | None => mret (evs, match dirtyAccounts with Some d => (TxLookup.flatten d).2 | None => [] end)
  | Some (old, new) => reset old new;; evs ← staleEvents evs; p ← gets id; mret (evs, (range (queue p)).*1)
  end.

Definition headPart (request : option (option Block * option Block)) : M unit :=
  match request with
  | None => mret tt
  | Some (_, new) =>
      demoteUnexecutables;;
      (match new with
       | None => mret tt
       | Some b => updates (fun p =>
           if ChainConfig.IsLondon (chainconfig p) (u64 (bNumber b) +u 1) then
             fee ← HeaderRules.CalcBaseFee (chainconfig p) (bHeader b);
             l ← TxLookup.SetBaseFee (all p) (uFromBig fee).1 (priced p);
             Ok (set_priced l p)
           else Ok p)
       end);;
      p ← gets id;
      nonces ← highestNonces (range (pending p)).*1 ∅;
      setAll nonces
  end.

Lemma runReorg_parts request dirty evs : runReorg request dirty evs =
  ('(evs, promoteAddrs) ← firstPart request dirty evs;
   promoted ← promoteExecutables promoteAddrs;
   headPart request;;
   truncatePending;;
   truncateQueue;;
   modify (set_changesSinceReorg 0);;
   evs ← lift (TxLookup.each putEvent promoted evs);
   mret (concat (map (fun kv => (SortedMap.Flatten kv.2).2) (range evs)))).
Proof. reflexivity. Qed.

Lemma runs_firstPart p request dirty evs : PoolOK p -> reorg_ok p request evs ->
  runs (firstPart request dirty evs) p (fun p' _ => exists k, stage k p p' /\ TxLookup.slots (all p) + Z.of_nat k < two64).
Proof.
  intros Hok [Hch Hrq Hev Hb]. unfold firstPart. destruct request as [[old new]|]; [|step; exists 0%nat; split; [split_and!; [done|done|lia]|by apply Hb]].
  destruct (Hrq _ _ eq_refl) as [Hro _]. destruct (reinjected_spec old new Hch Hro) as (r & Er & Hr).
  step. eapply runs_mono; [eapply runs_grows; [exact (grows_reset old new r Er)|by apply (runs_reset p old new r)]|]. intros p1 [] [[Hok1 Hc1] Hs1].
  step. eapply runs_mono; [by apply runs_staleEvents|]. intros p2 evs' [[m ->] _]. steps. exists (length (default [] r)). split; [|apply Hb; by exists r].
  split_and!; [by apply ok_nonces|exact Hc1|exact Hs1].
Qed.

Lemma runs_headPart p request : PoolOK p -> (forall old new, request = Some (old, new) -> fee_ok p new) -> runs (headPart request) p (fun p' _ => stage 0 p p').
Proof.
  intros Hok Hfee. unfold headPart. destruct request as [[old new]|]; [|step; split_and!; [done|done|lia]]. specialize (Hfee _ _ eq_refl).
  step. eapply runs_mono; [eapply runs_grows; [exact grows_demoteUnexecutables|by apply runs_demoteUnexecutables]|]. intros p1 [] [[Hok1 He1] Hs1].
  assert (fee_ok p1 new) as Hfee1 by (unfold fee_ok; injection He1 as _ -> _ _ _; exact Hfee).
  step. eapply runs_mono; [by apply runs_setFee|]. intros p2 [] (Hok2 & He2 & HA2). step. step.
  step. eapply runs_mono; [eapply runs_grows; [apply grows_highestNonces|apply runs_highestNonces; [done|]]|].
  - intros a ([b l] & -> & Hl%elem_of_range)%list_elem_of_fmap. by eexists.
  - intros p3 nonces [[Hok3 He3] Hs3]. unfold setAll. step. split_and!; [by apply ok_nonces| |fields; rewrite HA2 in Hs3; lia]. change (config2 p3 = config2 p). apply env_config. congruence.
Qed.

(** The limits, as far as the accounts that may be cut allow it. *)
Definition within_limits p : Prop :=
  (Z.of_nat (count (cts (pending p))) <= GlobalSlots (config p) \/
   forall a l, pending p !! a = Some l -> TxLookup.contains (plocals p) a = false -> Len l <= AccountSlots (config p)) /\
  (Z.of_nat (count (cts (queue p))) <= GlobalQueue (config p) \/ forall a, is_Some (queue p !! a) -> TxLookup.contains (plocals p) a = true).

Lemma truncated_within p p1 p2 : pending_cut p p1 -> queue_limit p1 p2 -> within_limits p2.
Proof.
  intros Hpc [_ He2 Hp2 Hq2 _]. pose proof (pc_env _ _ Hpc) as He1. injection He1 as Hc1 _ _ _ Hl1. injection He2 as Hc2 _ _ _ Hl2.
  split; [|by rewrite Hc2, Hl2]. rewrite Hp2, Hc2, Hl2, Hc1, Hl1. destruct (pc_limit _ _ Hpc) as [?|Hlim]; [by left|right]. intros a l Hl Hloc.
  assert (cts (pending p1) !! a = Some (contents l)) as Hc by (by rewrite <- Hp2, cts_lookup, Hl). rewrite cts_lookup in Hc. apply fmap_Some in Hc as (l1 & Hl1' & E).
  pose proof (Hlim a l1 Hl1' Hloc) as Hs. rewrite <- E in Hs. exact Hs.
Qed.

Lemma runs_runReorg p request dirty evs : PoolOK p -> config_ok (config p) -> reorg_ok p request evs ->
  runs (runReorg request dirty evs) p (fun p' _ => PoolOK p' /\ config2 p' = config2 p /\ within_limits p').
Proof.
  intros Hok Hcfg Hro. rewrite runReorg_parts. step. eapply runs_mono; [by apply runs_firstPart|]. intros p1 [evs1 addrs] (k & Hst1 & Hk). cbv beta iota.
  assert (forall q j, stage j p q -> config_ok (config q)) as Hcfgs by (intros q j (_ & Hc & _); unfold config2 in Hc; by injection Hc as -> _).
  step. eapply runs_mono; [eapply runs_grows; [apply (grows_promoteExecutables addrs)|apply runs_promoteExecutables; [apply Hst1|by eapply Hcfgs]]|]. intros p2 promoted [(Hok2 & He2 & Hfrom) Hs2].
  assert (stage k p p2) as Hst2 by (eapply stage_trans; [exact Hst1|split_and!; [done|by apply env_config|lia]]).
  step. eapply runs_mono; [apply (runs_headPart p2 request Hok2)|].
  { intros old new E. destruct (ro_request _ _ _ Hro _ _ E) as [_ Hf]. unfold fee_ok. destruct Hst2 as (_ & Hc & _). unfold config2 in Hc. injection Hc as _ ->. exact Hf. }
  intros p3 [] Hst3. pose proof (stage_trans _ _ _ _ Hst2 Hst3) as Hst. destruct (Hcfgs _ _ Hst) as (Hc1 & Hc2 & Hc3). destruct Hst as (Hok3 & Hcc3 & Hs3).
  step. eapply runs_mono; [apply runs_truncatePending; [done|done|lia]|]. intros p4 [] Hpc. pose proof (pc_env _ _ Hpc) as He4. injection He4 as Hcf4 _ _ _ _.
  step. eapply runs_mono; [apply runs_truncateQueue; [apply Hpc|by rewrite Hcf4|]|].
  { rewrite (pool_count _ _ _ _ Hok3) in Hs3. rewrite (pool_count _ _ _ _ (pc_ok _ _ Hpc)), (pc_queue _ _ Hpc). pose proof (pc_count _ _ Hpc). lia. }
  intros p5 [] Hql. step. step. destruct (putEvents_returns promoted evs1 Hfrom) as [evs2 Ev]. step. eapply runs_lift; [exact Ev|]. step. split_and!; [apply ok_changes, Hql| |exact (truncated_within _ _ _ Hpc Hql)].
  change (config2 p5 = config2 p). rewrite (env_config _ _ (ql_env _ _ Hql)), (env_config _ _ (pc_env _ _ Hpc)). exact Hcc3.
Qed.
End Reorg.
End TxPoolReorg.
