(* ===== verification/TxPoolTheorems.v ===== *)
(** * TxPoolTheorems: what the transaction pool promises

    The pool is driven by calls of its methods, in any order, and by changes of
    the database its state is read from.  Every pool that is reached keeps the
    invariant of [TxPoolInv] and no call panics; what it shows of itself is
    complete; truncating brings it within its limits. *)

From S2P Require Import Prelude Uint256 ChainConfig Header HeaderRules StateModel StateTransition Transaction Heap TxSortedMap TxList TxLookup TxPool TxTakes TxPriced TxPoolGrowth TxPlaces TxPoolInv TxPoolMoves TxPoolAdds TxPoolCount TxPoolLimits TxPoolReorg.
Import Transaction.
Import TxsList.

Module TxPoolTheorems.
Import TxPool TxTakes TxPriced TxPlaces TxPoolInv TxPoolMoves TxPoolAdds TxPoolCount TxPoolLimits TxPoolReorg.

Section Theorems.
Context `{U : Uint256} `{MR : MapRange} `{H : !TxHasher} `{Env : !PoolEnv}.
Implicit Types (p : TxsPool) (a : Address) (tx : TxData) (l : txsList).

(** ** Reading *)

Lemma Flatten_contents l : wf l -> wf (Flatten l).1 /\ strict (Flatten l).1 = strict l /\ contents (Flatten l).1 = contents l /\ (Flatten l).2 = SortedMap.sorted (contents l).
Proof. intros Hw. destruct (Flatten_takes l Hw) as (l' & -> & T). split_and!; [apply T|apply T|apply (tk_contents _ _ _ T)|done]. Qed.

Lemma flattenAll_ok s m : lists_ok s m -> lists_ok s (flattenAll m) /\ cts (flattenAll m) = cts m.
Proof.
  intros Hm. unfold flattenAll. split.
  - intros a l. rewrite lookup_fmap. destruct (m !! a) as [l0|] eqn:E; [|done]. intros [= <-]. destruct (Hm a l0 E) as [Hw <-]. by destruct (Flatten_contents l0 Hw) as (? & ? & _).
  - apply map_eq. intros a. rewrite !cts_lookup, lookup_fmap. destruct (m !! a) as [l0|] eqn:E; [|done]. cbn. f_equal. destruct (Hm a l0 E) as [Hw _]. by apply Flatten_contents.
Qed.

Lemma cts_settled m m' a l : cts m' = cts m -> m' !! a = Some l -> exists l0, m !! a = Some l0 /\ contents l0 = contents l.
Proof. intros E Hl. assert (cts m !! a = Some (contents l)) as Hc by (by rewrite <- E, cts_lookup, Hl). rewrite cts_lookup in Hc. by apply fmap_Some in Hc as (l0 & ? & ->); eexists. Qed.

Lemma ok_flatten_P p : PoolOK p -> PoolOK (set_pending (flattenAll (pending p)) p).
Proof.
  intros []. destruct (flattenAll_ok true (pending p)) as [H1 H2]; [done|]. split; try done; fields; [by rewrite H2|].
  intros a l Ha. fields. intros (l0 & Hl0 & <-)%(cts_settled _ _ _ _ H2). by eapply ok_sp0.
Qed.
Lemma ok_flatten_Q p : PoolOK p -> PoolOK (set_queue (flattenAll (queue p)) p).
Proof.
  intros []. destruct (flattenAll_ok false (queue p)) as [H1 H2]; [done|]. split; try done; fields; [by rewrite H2|].
  intros a l Ha. fields. intros (l0 & Hl0 & <-)%(cts_settled _ _ _ _ H2). by eapply ok_sq0.
Qed.

(** ** Calls of the pool *)

Inductive op :=
  | addLocals (txs : list TxData)
  | addLocal (tx : TxData)
  | addRemotes (txs : list TxData)
  | reorg (request : option (option Block * option Block)) (dirty : option TxLookup.accountSet) (evs : gmap Address txsSortedMap)
  | getPending (enforceTips : bool)
  | getTransaction
  | getContent
  | getNonce (addr : Address)
  | newState (s : ReadState).

Definition exec (o : op) : M unit :=
  match o with
  | addLocals txs => AddLocals txs;; mret tt
  | addLocal tx => AddLocal tx;; mret tt
  | addRemotes txs => AddRemotes txs;; mret tt
  | reorg request dirty evs => runReorg request dirty evs;; mret tt
  | getPending tips => Pending tips;; mret tt
  | getTransaction => GetTransaction;; mret tt
  | getContent => Content;; mret tt
  | getNonce addr => poolNonce addr;; mret tt
  | newState s => modify (set_currentState s)
  end.

(** What a call may be given. *)
Definition op_ok p (o : op) : Prop :=
  match o with
  | addLocals txs | addRemotes txs => goTxs txs
  | addLocal tx => goTx tx
  | reorg request _ evs => reorg_ok p request evs
  | _ => True
  end.

Inductive reachable (cfg : ChainConfig.ChainConfig) : TxsPool -> Prop :=
  | reach_new s p : NewTxsPool cfg s = Ok p -> reachable cfg p
  | reach_step p o p' : reachable cfg p -> op_ok p o -> exec o p = Ok (p', tt) -> reachable cfg p'.

Lemma runs_exec p o : PoolOK p -> config_ok (config p) -> op_ok p o -> runs (exec o) p (fun p' _ => PoolOK p' /\ config2 p' = config2 p).
Proof.
  intros Hok Hc Ho. destruct o; cbn [exec op_ok] in *.
  - step. unfold AddLocals. step. step. eapply runs_mono; [by apply runs_addTxs|]. intros p1 [errs d] (? & ? & _). by step.
  - step. unfold AddLocal, AddLocals. step. step. step. eapply runs_mono; [apply runs_addTxs; [done|]|].
    { intros tx' ->%list_elem_of_singleton. exact Ho. }
    intros p1 [errs d] (? & ? & Hl). destruct errs as [|err errs]; [done|]. step. eapply runs_lift; [done|]. by do 2 step.
  - step. unfold AddRemotes. eapply runs_mono; [by apply runs_addTxs|]. intros p1 [errs d] (? & ? & _). by step.
  - step. eapply runs_mono; [by apply runs_runReorg|]. intros p1 evs' (? & ? & _). by step.
  - unfold Pending. steps. split; [by apply ok_flatten_P|done].
  - unfold GetTransaction, Pending. steps. split; [by apply ok_flatten_P|done].
  - unfold Content. steps. split; [by apply (ok_flatten_Q (set_pending (flattenAll (pending p)) p)), ok_flatten_P|done].
  - step. unfold poolNonce. apply runs_nonceGet. intros m n. step. split; [by apply ok_nonces|done].
  - step. split; [by apply ok_state|done].
Qed.

Lemma emptyPool_ok cfg s : PoolOK (emptyPool cfg s).
Proof.
  split; [done|done| |apply newTxLookup_ok| |done|done|done].
  - apply (placed_ext _ _ _ (fun _ => None)); [done|]. unfold cts. cbn. rewrite !fmap_empty. apply placed_empty.
  - intros h [tx Ht]. done.
Qed.

Lemma NewTxsPool_ok cfg s : exists p, NewTxsPool cfg s = Ok p /\ PoolOK p /\ config2 p = (DefaultTxPoolConfig, cfg).
Proof.
  destruct (runs_reset (emptyPool cfg s) None (Some CurrentBlock) (Some [])) as (p & [] & E & Hok & Hc); [apply emptyPool_ok|done|by intros ? [= <-] ? ?%elem_of_nil|].
  exists p. unfold NewTxsPool. by rewrite E.
Qed.

Lemma reachable_ok cfg p : reachable cfg p -> PoolOK p /\ config2 p = (DefaultTxPoolConfig, cfg).
Proof.
  induction 1 as [s p E|p o p' _ [Hok Hc] Ho E]; [destruct (NewTxsPool_ok cfg s) as (p' & E' & Hok); rewrite E in E'; by injection E' as <-|].
  destruct (runs_exec p o Hok) as (p2 & [] & E2 & Hok2 & Hc2); [injection Hc as -> _; by vm_compute|done|]. rewrite E in E2. injection E2 as <-. split; [done|congruence].
Qed.

(** The pool after a call. *)
Definition next p (o : op) : TxsPool := match exec o p with Ok (p', _) => p' | _ => p end.

Lemma reach_next cfg p o : reachable cfg p -> op_ok p o -> reachable cfg (next p o).
Proof.
  intros Hr Ho. destruct (reachable_ok cfg p Hr) as [Hok Hc]. destruct (runs_exec p o Hok) as (p' & [] & E & _); [injection Hc as -> _; by vm_compute|done|].
  unfold next. rewrite E. by eapply reach_step.
Qed.

(** C3: A new pool always starts, and from then on no sequence of calls leads it
    astray: whatever transactions are added, whatever heads the chain gets and
    however the database changes under it, every transaction the lookup knows is
    in exactly one list of its sender, pending or queued, and nothing else is,
    the price heaps cover every remote transaction, no list is empty, and the
    next call returns without a panic or an endless loop. *)
Theorem pool_consistent (cfg : ChainConfig.ChainConfig) :
  (forall s, exists p, NewTxsPool cfg s = Ok p) /\
  (forall p, reachable cfg p -> PoolOK p /\ forall o, op_ok p o -> exists p', exec o p = Ok (p', tt)).
Proof.
  split; [intros s; destruct (NewTxsPool_ok cfg s) as (p & ? & _); by exists p|]. intros p Hr. destruct (reachable_ok cfg p Hr) as [Hok Hc]. split; [done|]. intros o Ho.
  destruct (runs_exec p o Hok) as (p' & [] & E & _); [injection Hc as -> _; by vm_compute|done|]. by exists p'.
Qed.

(** ** What the pool shows *)

Lemma Stats_count (m : gmap Address txsList) : foldl (fun n kv => n + Len kv.2) 0 (range m) = Z.of_nat (count (cts m)).
Proof.
  unfold count, vals, cts. rewrite map_to_list_fmap, <- (range_perm m).
  enough (forall s acc, foldl (fun n kv => n + Len kv.2) acc s = acc + Z.of_nat (length ((prod_map id contents <$> s : list (Address * gmap Z TxData)) ≫= (fun kv => (map_to_list kv.2).*2)))) as Hg by apply Hg.
  induction s as [|[a l] s IH]; intros acc; cbn [foldl fmap list_fmap mbind list_bind]; [cbn; lia|]. rewrite IH, length_app, length_fmap, length_map_to_list. unfold Len, SortedMap.Len, contents. cbn. lia.
Qed.

(** The transactions of an account as [Content] lists them. *)
Lemma listed s m a tx : lists_ok s m -> at_ (cts m) a (Nonce tx) = Some tx <-> exists txs, ((fun l => (Flatten l).2) <$> m) !! a = Some txs /\ tx ∈ txs.
Proof.
  intros Hm. unfold at_. rewrite cts_lookup, lookup_fmap. destruct (m !! a) as [l|] eqn:El; [|split; [done|by intros (? & ? & _)]].
  cbn [fmap option_fmap option_map mbind option_bind]. destruct (Hm a l El) as [Hw _]. destruct (Flatten_contents l Hw) as (_ & _ & _ & ->). rewrite <- sorted_in by done.
  split; [by eexists|]. by intros (? & [= <-] & ?).
Qed.

(** C11: [Content] lists exactly the transactions that the pool knows by hash, every
    one once, under its sender: a nonce of an account is never both pending and
    queued, no account is listed without a transaction, and the numbers that
    [Stats] reports add up to the size of the lookup. *)
Theorem content_complete (cfg : ChainConfig.ChainConfig) p : reachable cfg p ->
  exists p' pend que, Content p = Ok (p', (pend, que)) /\
    (forall h tx, GetTx p h = Some tx <-> TxHash tx = h /\ exists a, From tx = Some a /\
      ((exists txs, pend !! a = Some txs /\ tx ∈ txs) \/ (exists txs, que !! a = Some txs /\ tx ∈ txs))) /\
    (forall a txs txs' tx tx', pend !! a = Some txs -> que !! a = Some txs' -> tx ∈ txs -> tx' ∈ txs' -> Nonce tx <> Nonce tx') /\
    (forall a txs, pend !! a = Some txs \/ que !! a = Some txs -> txs <> [] /\ NoDup (Nonce <$> txs)) /\
    (Stats p).1.1.2 + (Stats p).2 = TxLookup.Count (all p).
Proof.
  intros Hr. destruct (reachable_ok cfg p Hr) as [Hok _]. pose proof Hok as []. pose proof ok_placed0 as [H1 H2 H3 H4 H5 H6 H7]. eexists _, _, _. split; [reflexivity|]. split_and!.
  - intros h tx. unfold GetTx. rewrite H7. unfold sits. rewrite elem_of_nil. setoid_rewrite (listed true (pending p) _ _ ok_pending0). setoid_rewrite (listed false (queue p) _ _ ok_queue0). naive_solver.
  - intros a txs txs' tx tx' E1 E2 Hx Hx' En. assert (at_ (cts (pending p)) a (Nonce tx) = Some tx) as A1 by (apply (listed true); eauto).
    assert (at_ (cts (queue p)) a (Nonce tx') = Some tx') as A2 by (apply (listed false); eauto). rewrite <- En in A2. destruct (H4 a (Nonce tx)); congruence.
  - intros a txs. rewrite !lookup_fmap. assert (forall s m l, lists_ok s m -> m !! a = Some l -> contents l <> ∅ -> (Flatten l).2 <> [] /\ NoDup (Nonce <$> (Flatten l).2)) as Hg.
    { intros s m l Hm Hl Hne. destruct (Hm a l Hl) as [Hw _]. destruct (Flatten_contents l Hw) as (_ & _ & _ & ->). split.
      - intros E. apply Hne, map_size_empty_inv. by rewrite <- SortedMap.length_sorted, E.
      - apply NoDup_fmap_2_strong; [|by apply sorted_nodup]. intros x y Hx Hy. apply (SortedMap.nonce_inj (contents l)); [by apply lw_keyed|done|done]. }
    intros [(l & Hl & ->)%fmap_Some|(l & Hl & ->)%fmap_Some]; [eapply (Hg true (pending p)); [done|done|by eapply ok_sp0]|eapply (Hg false (queue p)); [done|done|by eapply ok_sq0]].
  - cbn [Stats fst snd]. rewrite !Stats_count. rewrite <- (lk_slots _ ok_lookup0), (pool_count _ _ _ _ Hok). lia.
Qed.


(** C20: [truncatePending] is fair: it always returns, accounts that are local or
    within their [AccountSlots] keep every pending transaction, and the others
    lose only transactions at the end of their list, and keep [AccountSlots] of
    them. *)
Theorem truncate_fair p : PoolOK p -> 0 < AccountSlots (config p) -> TxLookup.slots (all p) < two64 ->
  exists p', truncatePending p = Ok (p', tt) /\ PoolOK p' /\
    forall a l, pending p !! a = Some l ->
      if TxLookup.contains (plocals p) a || (Len l <=? AccountSlots (config p)) then pending p' !! a = Some l
      else exists l', pending p' !! a = Some l' /\ AccountSlots (config p) <= Len l' /\ (Flatten l').2 `prefix_of` (Flatten l).2.
Proof.
  intros Hok Hs Hb. destruct (runs_truncatePending p Hok Hs Hb) as (p' & [] & E & Hpc). exists p'. split_and!; [done|apply Hpc|]. intros a l Hl.
  destruct (spammer p a l) eqn:Es.
  - destruct (pc_floor _ _ Hpc a l Hl Es) as (l' & Hl' & Hn & Hlow). unfold spammer in Es. apply andb_true_iff in Es as [Ec%negb_true_iff El]. unfold Len, SortedMap.Len. fold (contents l).
    rewrite Ec. cbn [orb]. apply Z.ltb_lt in El. rewrite (proj2 (Z.leb_gt _ _)) by lia. exists l'. split_and!; [done|done|].
    destruct (ok_pending _ _ _ _ _ Hok a l Hl) as [Hw _], (ok_pending _ _ _ _ _ (pc_ok _ _ Hpc) a l' Hl') as [Hw' _].
    destruct (Flatten_contents l Hw) as (_ & _ & _ & ->), (Flatten_contents l' Hw') as (_ & _ & _ & ->). exact Hlow.
  - pose proof (pc_spared _ _ Hpc a l Hl Es) as Hk. unfold spammer in Es. apply andb_false_iff in Es as [Ec%negb_false_iff|El%Z.ltb_ge]; [by rewrite Ec|].
    unfold Len, SortedMap.Len. fold (contents l). rewrite (proj2 (Z.leb_le _ _)) by lia. by rewrite orb_true_r.
Qed.

(** C21: What happens to a transaction that is added.  One that is known is
    refused, one that is not valid gets the error of the validation, and both
    leave the pool as it is.  Any other one is known afterwards, or the pool is
    full and its lists have not changed, or it does not pay enough to replace
    another one of its nonce and is not known. *)
Theorem add_outcome (cfg : ChainConfig.ChainConfig) p tx local : reachable cfg p -> goTx tx ->
  exists p' replaced err, add tx local p = Ok (p', (replaced, err)) /\ PoolOK p' /\
    match GetTx p (TxHash tx) with
    | Some _ => err = Some ErrAlreadyKnown /\ p' = p
    | None =>
        match validateTx tx (local || match From tx with Some a => TxLookup.contains (plocals p) a | None => false end) p with
        | Ok (Some e) => err = Some e /\ p' = p
        | Ok None =>
            match err with
            | None => GetTx p' (TxHash tx) = Some tx
            | Some e => (e = ErrUnderpriced \/ e = ErrTxPoolOverflow) /\ all p' = all p /\ pending p' = pending p /\ queue p' = queue p \/
                        e = ErrReplaceUnderpriced /\ GetTx p' (TxHash tx) = None
            end
        | _ => False
        end
    end.
Proof.
  intros Hr Htx. destruct (reachable_ok cfg p Hr) as [Hok _]. destruct (runs_add p tx local Hok Htx) as (p' & [rep err] & E & Hok' & _ & Hres). by exists p', rep, err.
Qed.
End Theorems.

(** ** A small pool *)

Module PoolDemo.
#[local] Instance U : Uint256 := bits_Uint256.
#[local] Instance MR : MapRange := canonical_range.

Definition tx (from nonce : Z) (price : u256) : TxData := Legacy {|
  lNonce := nonce; lGasPrice := price; lGas := 21000; lTo := Some 7; lFrom := Some from; lValue := uSetUint64 0;
  lData := None; lV := None; lR := None; lS := None; lSign := None |}.

#[local] Instance hasher : TxHasher := {| TxHash := fun t => (default 0 (From t) * 1000 + Nonce t) * 1000 + uval (Transaction.GasPrice t) |}.

(** A chain of two heads at number 40, with [n] as the hash of a block. *)
Definition block (h parent n : Z) (txs : list TxData) : Block := {|
  bHash := h; bTxs := txs;
  bHeader := {| ParentHash := parent; Coinbase := 0; HRoot := 0; Header.TxHash := 0; ReceiptHash := 0; Difficulty := uSetUint64 2;
     Number := uSetUint64 n; GasLimit := 30000000; GasUsed := 20000000; Time := 100; MixDigest := 0; HNonce := 0;
     Extra := []; BaseFee := Some (uSetUint64 1000) |} |}.
Definition trunk : Block := block 39 38 39 [].
#[local] Instance env : PoolEnv := {|
  CurrentBlock := block 40 39 40 []; GetBlockByHash := fun h => if h =? 39 then Some trunk else None;
  hasDeposit := None; IsDepositAction := fun _ => false; clock := Z.of_nat |}.

Definition at_nonce (n : Z) : ReadState := {| GetNonce := fun _ => n; GetBalance := fun _ => uSetUint64 1000000000 |}.
Definition poor : ReadState := {| GetNonce := fun _ => 0; GetBalance := fun _ => uSetUint64 0 |}.

Definition start (s : ReadState) : TxsPool := match NewTxsPool ChainConfig.genesisForks s with Ok p => p | _ => emptyPool ChainConfig.genesisForks s end.
Definition play (s : ReadState) (ops : list op) : TxsPool := foldl next (start s) ops.

Definition price (z : Z) : u256 := uSetUint64 z.
Definition promote (a : Address) : op := reorg None (Some (TxLookup.newAccountSet [a])) ∅.
Definition newHead (old new : Block) : op := reorg (Some (Some old, Some new)) None ∅.
Definition nonces (m : gmap Address txsList) (a : Address) : list Z := match m !! a with Some l => Nonce <$> (Flatten l).2 | None => [] end.

Definition filled : TxsPool := play (at_nonce 0) [addRemotes [tx 1 0 (price 5); tx 1 1 (price 5); tx 1 3 (price 6)]; addLocals [tx 2 0 (price 9)]].
End PoolDemo.

#[local] Existing Instance PoolDemo.U.
#[local] Existing Instance PoolDemo.MR.
#[local] Existing Instance PoolDemo.hasher.
#[local] Existing Instance PoolDemo.env.
Import PoolDemo.

Lemma start_reachable s : reachable ChainConfig.genesisForks (start s).
Proof. unfold start. destruct (NewTxsPool_ok ChainConfig.genesisForks s) as (p & E & _). rewrite E. by eapply reach_new. Qed.

Lemma demo_txs (txs : list TxData) : forallb (fun t => bool_decide (is_Some (From t)) && (0 <=? Nonce t) && (Nonce t <? two64)) txs = true -> goTxs txs.
Proof.
  intros Hb t Ht. apply list_elem_of_In in Ht. pose proof (proj1 (forallb_forall _ _) Hb t Ht) as E. cbv beta in E. apply andb_true_iff in E as [[E1%bool_decide_eq_true E2]%andb_true_iff E3]. zbool. split; [done|]. unfold in_u64. lia.
Qed.

Lemma filled_reachable : reachable ChainConfig.genesisForks filled.
Proof. unfold filled, play. cbn [foldl]. repeat (apply reach_next; [|cbn [op_ok]; by apply demo_txs; vm_compute]). apply start_reachable. Qed.

Lemma demo_chain : ChainOK.
Proof.
  intros h b. cbn [GetBlockByHash env]. case_match; [|done]. intros [= <-]. split; [by intros ? ?%elem_of_nil|]. intros b'. by change (GetBlockByHash (bParent trunk)) with (None : option Block).
Qed.

Lemma promote_ok a p : TxLookup.slots (all p) < two64 -> op_ok p (promote a).
Proof. intros Hs. split; [apply demo_chain|done|by intros ? ?|]. intros k ->. lia. Qed.

Definition promoted : TxsPool := next filled (promote 1).

Lemma promoted_reachable : reachable ChainConfig.genesisForks promoted.
Proof. apply reach_next; [apply filled_reachable|]. apply promote_ok. by vm_compute. Qed.

Lemma pool_consistent_witness : reachable ChainConfig.genesisForks promoted /\ Stats promoted = (1, 2, 2, 2) /\ PoolOK promoted /\ exists p', exec (promote 2) promoted = Ok (p', tt).
Proof.
  split; [apply promoted_reachable|]. split; [vm_compute; reflexivity|]. destruct (proj2 (pool_consistent ChainConfig.genesisForks) promoted promoted_reachable) as [Hok Hnext].
  split; [exact Hok|]. apply Hnext, promote_ok. by vm_compute.
Defined.

Lemma content_complete_witness : exists p' pend que, Content promoted = Ok (p', (pend, que)) /\ (Stats promoted).1.1.2 + (Stats promoted).2 = TxLookup.Count (all promoted).
Proof. destruct (content_complete ChainConfig.genesisForks promoted promoted_reachable) as (p' & pend & que & E & _ & _ & _ & Hs). exists p', pend, que. split; [exact E|exact Hs]. Defined.


Lemma truncate_fair_witness : exists p', truncatePending promoted = Ok (p', tt) /\ PoolOK p'.
Proof.
  destruct (truncate_fair promoted) as (p' & E & Hok & _); [apply (reachable_ok ChainConfig.genesisForks), promoted_reachable|by vm_compute|by vm_compute|].
  exists p'. split; [exact E|exact Hok].
Defined.

Lemma add_outcome_witness : exists p' replaced err, add (tx 1 1 (price 5)) false promoted = Ok (p', (replaced, err)) /\ err = Some ErrAlreadyKnown.
Proof.
  destruct (add_outcome ChainConfig.genesisForks promoted (tx 1 1 (price 5)) false promoted_reachable) as (p' & rep & err & E & _ & Hm); [split; [by eexists|by vm_compute]|].
  exists p', rep, err. split; [exact E|]. assert (Has promoted (TxHash (tx 1 1 (price 5))) = true) as Hh by (vm_compute; reflexivity).
  apply bool_decide_eq_true in Hh as [t Et]. change (TxLookup.Get (all promoted) (TxHash (tx 1 1 (price 5)))) with (GetTx promoted (TxHash (tx 1 1 (price 5)))) in Et. rewrite Et in Hm. exact (proj1 Hm).
Defined.

(** ** What the examples show *)

(** The cost of a transaction is computed in wrapping arithmetic: an even gas
    limit at a price of 2^255 costs nothing, and an account without funds has
    its transaction pending. *)
Definition huge : u256 := (uFromBig (2 ^ 255)).1.
Example cost_wraps_unfunded :
  uval (GetBalance poor 1) = 0 /\ (let p := play poor [addRemotes [tx 1 0 huge]; promote 1] in nonces (pending p) 1 = [0]).
Proof. split; vm_compute; reflexivity. Qed.

(** The nonces of the pool are not renewed by [reset]: a transaction that a new
    head makes executable stays queued until the head after it. *)
Definition waiting : TxsPool := play (at_nonce 0) [addRemotes [tx 1 1 (price 5)]; promote 1].
Definition head41 : Block := block 41 40 41 [].
Definition head42 : Block := block 42 41 42 [].
Example reset_promotes_late :
  let p := next (next waiting (newState (at_nonce 1))) (newHead (block 40 39 40 []) head41) in
  nonces (pending p) 1 = [] /\ nonces (queue p) 1 = [1] /\
  nonces (pending (next p (newHead head41 head42))) 1 = [1].
Proof. vm_compute. repeat split. Qed.

(** A transaction that a reorganisation puts back in front of pending ones may
    leave a gap behind it, which only a look at the front does not find. *)
Definition gapped : TxsPool :=
  next (next (play (at_nonce 5) [addRemotes [tx 1 5 (price 5); tx 1 6 (price 5)]; promote 1]) (newState (at_nonce 3)))
       (newHead (block 40 39 40 [tx 1 3 (price 5)]) (block 140 39 40 [])).
Example reorg_leaves_gap : nonces (pending gapped) 1 = [3; 5; 6].
Proof. vm_compute. reflexivity. Qed.
End TxPoolTheorems.
