(* ===== verification/TxSchedule.v ===== *)
(** * TxSchedule: the loop that starts the reorgs of the pool

    [scheduleLoop] of [internal/txspool/txs_pool.go] receives requests from other
    goroutines and runs [runReorg] in the background, one run at a time.  What
    arrives while a run is active is gathered for the next one.

    The state of the loop is [sched]; one turn is [launch], which starts a run if
    it can, and [select], which takes one of the messages that are ready.  The
    channels that announce the end of a run are numbered in the order they are
    made.  The specification is a machine that only keeps batches of messages
    ([batches]); the loop implements it: every run is given what its batch amounts
    to ([gathered]). *)

From S2P Require Import Prelude Uint256 ChainConfig StateModel StateTransition Transaction TxSortedMap TxLookup TxPool.
Import Transaction.

Module TxSchedule.
Import TxLookup TxPool.

Section Loop.
Context `{U : Uint256} `{MR : MapRange}.

Abbreviation resetRequest := (option Block * option Block)%type.

Record sched := {
  curDone : option nat;
  nextDone : nat;
  launchNextRun : bool;
  sreset : option resetRequest;
  dirtyAccounts : option accountSet;
  queuedEvents : gmap Address txsSortedMap
}.

(** The arguments of a run. *)
Record reorgRun := { rdone : nat; rreset : option resetRequest; rdirty : option accountSet; revents : gmap Address txsSortedMap }.

Definition initial : sched :=
  {| curDone := None; nextDone := 0; launchNextRun := false; sreset := None; dirtyAccounts := None; queuedEvents := ∅ |}.

(** What the loop receives: the cases of its [select]. *)
Inductive message :=
  | reqReset (old new : option Block)
  | reqPromote (set : accountSet)
  | queueTx (tx : TxData)
  | runDone.

Definition launch (s : sched) : sched * option reorgRun :=
  if bool_decide (curDone s = None) && launchNextRun s then
    ({| curDone := Some (nextDone s); nextDone := S (nextDone s); launchNextRun := false; sreset := None; dirtyAccounts := None; queuedEvents := ∅ |},
     Some {| rdone := nextDone s; rreset := sreset s; rdirty := dirtyAccounts s; revents := queuedEvents s |})
  else (s, None).

(** The new state and the channel that is handed out.  Receiving from a nil
    channel blocks: [runDone] is ready only while a run is active. *)
Definition select (s : sched) (m : message) : option (outcome (sched * option nat)) :=
  match m with
  | reqReset old new =>
      let r := match sreset s with None => (old, new) | Some (o, _) => (o, new) end in
      Some (Ok ({| curDone := curDone s; nextDone := nextDone s; launchNextRun := true; sreset := Some r; dirtyAccounts := dirtyAccounts s; queuedEvents := queuedEvents s |}, Some (nextDone s)))
  | reqPromote set =>
      let d := match dirtyAccounts s with None => set | Some d => merge d set end in
      Some (Ok ({| curDone := curDone s; nextDone := nextDone s; launchNextRun := true; sreset := sreset s; dirtyAccounts := Some d; queuedEvents := queuedEvents s |}, Some (nextDone s)))
  | queueTx tx =>
      Some (addr ← deref (From tx);
            let evs := queuedEvents s in
            Ok ({| curDone := curDone s; nextDone := nextDone s; launchNextRun := launchNextRun s; sreset := sreset s; dirtyAccounts := dirtyAccounts s;
                   queuedEvents := <[addr := SortedMap.Put (default SortedMap.newTxSortedMap (evs !! addr)) tx]> evs |}, None))
  | runDone =>
      match curDone s with
      | None => None
      | Some _ => Some (Ok ({| curDone := None; nextDone := nextDone s; launchNextRun := launchNextRun s; sreset := sreset s; dirtyAccounts := dirtyAccounts s; queuedEvents := queuedEvents s |}, None))
      end
  end.

(** Turns of the loop over the messages in the order they are taken, with the
    runs that were launched and the channels that were handed out; [None] if a
    message is not ready. *)
Fixpoint scheduleLoop (s : sched) (ms : list message) : option (outcome (sched * list reorgRun * list (option nat))) :=
  let '(s, r) := launch s in
  match ms with
  | [] => Some (Ok (s, option_list r, []))
  | m :: ms =>
      match select s m with
      | None => None
      | Some (Ok (s, c)) =>
          match scheduleLoop s ms with
          | Some (Ok (s, rs, cs)) => Some (Ok (s, option_list r ++ rs, c :: cs))
          | x => x
          end
      | Some (Err e) => Some (Err e)
      | Some Panic => Some Panic
      end
  end.

(** ** The specification: batches of messages *)

Record batches := { running : bool; launched : list (list message); current : list message }.

Definition isRequest (m : message) : bool := match m with reqReset _ _ | reqPromote _ => true | _ => false end.
Definition isDone (m : message) : bool := match m with runDone => true | _ => false end.

Definition blaunch (b : batches) : batches :=
  if negb (running b) && existsb isRequest (current b) then {| running := true; launched := launched b ++ [current b]; current := [] |} else b.
Definition breceive (b : batches) (m : message) : batches :=
  if isDone m then {| running := false; launched := launched b; current := current b |}
  else {| running := running b; launched := launched b; current := current b ++ [m] |}.
Definition brun (b : batches) (ms : list message) : batches := foldl (fun b m => blaunch (breceive b m)) (blaunch b) ms.

(** What a batch amounts to: the first old and the last new head, all accounts,
    and all transactions by sender and nonce. *)
Definition resets (ms : list message) : list resetRequest := omap (fun m => match m with reqReset o n => Some (o, n) | _ => None end) ms.
Definition promotes (ms : list message) : list accountSet := omap (fun m => match m with reqPromote d => Some d | _ => None end) ms.
Definition announced (ms : list message) : list TxData := omap (fun m => match m with queueTx tx => Some tx | _ => None end) ms.

Record gathered (ms : list message) (rs : option resetRequest) (ds : option accountSet) (es : gmap Address txsSortedMap) : Prop := {
  ga_reset : rs = match resets ms with [] => None | (o, n) :: l => Some (o, (default (o, n) (last l)).2) end;
  ga_none : ds = None <-> promotes ms = [];
  ga_dirty : forall d a, ds = Some d -> contains d a = true <-> exists s, s ∈ promotes ms /\ contains s a = true;
  ga_events : forall a n tx, (es !! a ≫= fun m => SortedMap.items m !! n) = Some tx <->
    last (filter (fun t => From t = Some a /\ Nonce t = n) (announced ms)) = Some tx;
  ga_wf : (forall tx, tx ∈ announced ms -> in_u64 (Nonce tx)) -> forall a m, es !! a = Some m -> SortedMap.wf m
}.

(** ** The loop implements the batches *)

Lemma gathered_nil : gathered [] None None ∅.
Proof. split; [done|done|done| |done]. intros a n tx. by rewrite lookup_empty. Qed.

Lemma gathered_reset ms rs ds es old new : gathered ms rs ds es ->
  gathered (ms ++ [reqReset old new]) (Some (match rs with None => (old, new) | Some (o, _) => (o, new) end)) ds es.
Proof.
  intros [-> H2 H3 H4 H5]. assert (promotes (ms ++ [reqReset old new]) = promotes ms) as Hp by (unfold promotes; by rewrite omap_app, app_nil_r).
  assert (announced (ms ++ [reqReset old new]) = announced ms) as Ha by (unfold announced; by rewrite omap_app, app_nil_r).
  split; rewrite ?Hp, ?Ha; [|done..]. unfold resets. rewrite omap_app. change (omap _ [reqReset old new]) with [(old, new)]. fold (resets ms).
  destruct (resets ms) as [|[o n] l]; [done|]. cbn [app]. by rewrite last_snoc.
Qed.

Lemma contains_merge d s a : contains (merge d s) a = contains d a || contains s a.
Proof.
  unfold contains, merge. cbn [accounts]. assert (forall l (m : gmap Address unit), is_Some (foldl (fun m kv => <[kv.1 := tt]> m) m l !! a) <-> is_Some (m !! a) \/ exists u : unit, (a, u) ∈ l) as Hg.
  { induction l as [|[b []] l IH]; intros m; cbn [foldl]; [split; [by left|intros [?|(u & ?%elem_of_nil)]; done]|]. rewrite IH. cbn [fst]. setoid_rewrite elem_of_cons. rewrite lookup_insert. case_decide as Hb.
    - subst b. split; [intros _; right; exists tt; by left|by left].
    - split; [intros [?|[u ?]]; [by left|right; exists u; by right]|]. intros [?|(u & [[=]|?])]; [by left|done|right; by exists u]. }
  rewrite <- bool_decide_or. apply bool_decide_ext. rewrite Hg. apply or_iff_compat_l. unfold is_Some. by setoid_rewrite elem_of_range.
Qed.

Lemma gathered_promote ms rs ds es set : gathered ms rs ds es ->
  gathered (ms ++ [reqPromote set]) rs (Some (match ds with None => set | Some d => merge d set end)) es.
Proof.
  intros [H1 H2 H3 H4 H5]. assert (resets (ms ++ [reqPromote set]) = resets ms) as Hr by (unfold resets; by rewrite omap_app, app_nil_r).
  assert (announced (ms ++ [reqPromote set]) = announced ms) as Ha by (unfold announced; by rewrite omap_app, app_nil_r).
  assert (promotes (ms ++ [reqPromote set]) = promotes ms ++ [set]) as Hp by (unfold promotes; by rewrite omap_app).
  split; rewrite ?Hr, ?Ha, ?Hp; [done| | |done|done].
  - split; [done|]. intros ?%app_nil. naive_solver.
  - intros d a [= <-]. setoid_rewrite elem_of_app. setoid_rewrite list_elem_of_singleton. destruct ds as [d|].
    + rewrite contains_merge, orb_true_iff, (H3 d a eq_refl). naive_solver.
    + rewrite (proj1 H2 eq_refl). setoid_rewrite elem_of_nil. naive_solver.
Qed.

Lemma gathered_queue ms rs ds es tx a : gathered ms rs ds es -> From tx = Some a ->
  gathered (ms ++ [queueTx tx]) rs ds (<[a := SortedMap.Put (default SortedMap.newTxSortedMap (es !! a)) tx]> es).
Proof.
  intros [H1 H2 H3 H4 H5] Ha. assert (resets (ms ++ [queueTx tx]) = resets ms) as Hr by (unfold resets; by rewrite omap_app, app_nil_r).
  assert (promotes (ms ++ [queueTx tx]) = promotes ms) as Hp by (unfold promotes; by rewrite omap_app, app_nil_r).
  assert (announced (ms ++ [queueTx tx]) = announced ms ++ [tx]) as Han by (unfold announced; by rewrite omap_app).
  split; rewrite ?Hr, ?Hp, ?Han; [done|done|done| |].
  - intros b n t. rewrite filter_app, filter_cons, filter_nil, lookup_insert. destruct (decide (From tx = Some b /\ Nonce tx = n)) as [[Hb Hn]|Hne].
    + assert (b = a) as -> by congruence. rewrite decide_True by done. cbn [mbind option_bind SortedMap.Put SortedMap.items]. rewrite Hn, lookup_insert_eq, last_snoc. done.
    + rewrite app_nil_r, <- H4. case_decide as Hab; [subst b|done]. cbn [mbind option_bind SortedMap.Put SortedMap.items]. rewrite lookup_insert_ne by (intros <-; by apply Hne).
      by destruct (es !! a).
  - intros Hu b m. setoid_rewrite elem_of_app in Hu. intros [[_ <-]|[_ Hm]]%lookup_insert_Some; [|by eapply H5; [by intros; apply Hu; left|]].
    apply SortedMap.Put_wf; [|apply Hu; right; by apply list_elem_of_singleton]. destruct (es !! a) as [m0|] eqn:E; [by eapply H5; [by intros; apply Hu; left|]|apply SortedMap.newTxSortedMap_wf].
Qed.

Record represents (s : sched) (b : batches) : Prop := {
  re_running : curDone s = None <-> running b = false;
  re_next : nextDone s = length (launched b);
  re_launch : launchNextRun s = existsb isRequest (current b);
  re_gathered : gathered (current b) (sreset s) (dirtyAccounts s) (queuedEvents s)
}.

(** The runs from the [k]-th on are given their batches. *)
Fixpoint runs_of (k : nat) (rs : list reorgRun) (bs : list (list message)) : Prop :=
  match rs, bs with
  | [], [] => True
  | r :: rs, b :: bs => rdone r = k /\ gathered b (rreset r) (rdirty r) (revents r) /\ runs_of (S k) rs bs
  | _, _ => False
  end.

Lemma runs_of_lookup k rs bs i r : runs_of k rs bs -> rs !! i = Some r -> exists b, bs !! i = Some b /\ rdone r = (k + i)%nat /\ gathered b (rreset r) (rdirty r) (revents r).
Proof.
  revert k bs i. induction rs as [|r0 rs IH]; intros k [|b bs] i; try done. cbn [runs_of]. intros (H1 & H2 & H3). destruct i as [|i]; cbn.
  - intros [= <-]. exists b. by rewrite Nat.add_0_r.
  - intros Hi. destruct (IH _ _ _ H3 Hi) as (b' & Hb & Hd & Hg). exists b'. split_and!; [done|lia|done].
Qed.

Lemma runs_of_length k rs bs : runs_of k rs bs -> length rs = length bs.
Proof. revert k bs. induction rs as [|r rs IH]; intros k [|b bs]; try done. cbn. intros (_ & _ & Hr). f_equal. by eapply IH. Qed.

Lemma launch_represents s b : represents s b -> exists new, represents (launch s).1 (blaunch b) /\
  launched (blaunch b) = launched b ++ new /\ runs_of (length (launched b)) (option_list (launch s).2) new.
Proof.
  intros [H1 H2 H3 H4]. unfold launch, blaunch. rewrite <- H3. destruct (running b) eqn:Er.
  - rewrite bool_decide_false by (intros E%H1; done). cbn. exists []. rewrite app_nil_r. split; [|done]. split; [by rewrite Er|done..].
  - rewrite bool_decide_true by (by apply H1). cbn [negb andb]. destruct (launchNextRun s) eqn:El.
    + exists [current b]. cbn. split; [|done]. split; [done|cbn; rewrite length_app; cbn; lia|done|apply gathered_nil].
    + exists []. rewrite app_nil_r. split; [|done]. split; [by rewrite Er|done|cbn; congruence|done].
Qed.

(** Every transaction that is announced has a sender. *)
Definition sendersOf (ms : list message) : Prop := forall tx, tx ∈ announced ms -> is_Some (From tx).

Lemma existsb_snoc (ms : list message) m : existsb isRequest (ms ++ [m]) = existsb isRequest ms || isRequest m.
Proof. rewrite existsb_app. cbn. by rewrite orb_false_r. Qed.

(** A message that is ready, from a state of the loop: it is taken, and a request
    is answered with the channel of the batch it joins. *)
Lemma select_represents s b m : represents s b -> sendersOf [m] ->
  match select s m with
  | None => m = runDone /\ running b = false
  | Some (Ok (s', c)) => represents s' (breceive b m) /\ c = (if isRequest m then Some (length (launched b)) else None)
  | _ => False
  end.
Proof.
  intros [H1 H2 H3 H4] Hs. destruct m as [old new|set|tx|]; cbn [select].
  - split; [|by rewrite H2]. split; cbn; [done|done|by rewrite existsb_snoc, orb_true_r|by apply gathered_reset].
  - split; [|by rewrite H2]. split; cbn; [done|done|by rewrite existsb_snoc, orb_true_r|by apply gathered_promote].
  - destruct (Hs tx) as [a Ha]; [by left|]. rewrite Ha. cbn [deref or_panic mbind outcome_bind]. split; [|done].
    split; cbn; [done|done|by rewrite existsb_snoc, orb_false_r|by apply gathered_queue].
  - destruct (curDone s) eqn:Ec; [|split; [done|by apply H1]]. split; [|done]. by split.
Qed.

(** [m] is in batch [d], launched or not. *)
Definition inBatch (b : batches) (d : nat) (m : message) : Prop := exists ms, (launched b ++ [current b]) !! d = Some ms /\ m ∈ ms.

Lemma inBatch_launch b d m : inBatch b d m -> inBatch (blaunch b) d m.
Proof. intros (ms & E & Hm). unfold blaunch. case_match; [|by exists ms]. exists ms. cbn. split; [|done]. by apply lookup_app_l_Some. Qed.

Lemma inBatch_receive b d m m' : inBatch b d m -> inBatch (breceive b m') d m.
Proof.
  intros (ms & E & Hm). unfold breceive. case_match; [by exists ms|]. unfold inBatch. cbn. apply lookup_app_Some in E as [E|[Hl E]].
  - exists ms. split; [by apply lookup_app_l_Some|done].
  - apply list_lookup_singleton_Some in E as [E <-]. exists (current b ++ [m']). split; [|apply elem_of_app; by left].
    apply lookup_app_Some. right. split; [done|]. by rewrite E.
Qed.

Lemma brun_cons b m ms : brun b (m :: ms) = brun (breceive (blaunch b) m) ms.
Proof. reflexivity. Qed.

Lemma inBatch_run b ms d m : inBatch b d m -> inBatch (brun b ms) d m.
Proof. revert b. induction ms as [|m' ms IH]; intros b Hb; [by apply inBatch_launch|]. rewrite brun_cons. by apply IH, inBatch_receive, inBatch_launch. Qed.

Lemma runs_of_app k rs bs rs' bs' : runs_of k rs bs -> runs_of (k + length bs) rs' bs' -> runs_of k (rs ++ rs') (bs ++ bs').
Proof.
  revert k bs. induction rs as [|r rs IH]; intros k [|b bs]; try done; cbn [runs_of app length].
  - by rewrite Nat.add_0_r.
  - intros (H1 & H2 & H3) H4. split_and!; [done|done|]. apply IH; [done|]. by rewrite Nat.add_succ_r in H4.
Qed.

Lemma loop_refines ms s b : represents s b -> sendersOf ms ->
  match scheduleLoop s ms with
  | None => True
  | Some (Ok (s', rs, cs)) => represents s' (brun b ms) /\ (exists new, launched (brun b ms) = launched b ++ new /\ runs_of (length (launched b)) rs new) /\
      length cs = length ms /\
      forall i m, ms !! i = Some m -> isRequest m = true -> exists d, cs !! i = Some (Some d) /\ inBatch (brun b ms) d m
  | _ => False
  end.
Proof.
  revert s b. induction ms as [|m ms IH]; intros s b Hre Hs; cbn [scheduleLoop]; destruct (launch_represents s b Hre) as (new & Hre1 & Hnew & Hruns); destruct (launch s) as [s1 r]; cbn [fst snd] in *.
  { split_and!; [done|by exists new|done|done]. }
  assert (sendersOf [m] /\ sendersOf ms) as [Hsm Hsms].
  { unfold sendersOf in *. change (m :: ms) with ([m] ++ ms) in Hs. unfold announced in *. rewrite omap_app in Hs. setoid_rewrite elem_of_app in Hs. split; intros tx Htx; apply Hs; auto. }
  pose proof (select_represents s1 (blaunch b) m Hre1 Hsm) as Hsel. destruct (select s1 m) as [[[s2 c]|e|]|]; [|done|done|done]. destruct Hsel as [Hre2 ->].
  specialize (IH s2 _ Hre2 Hsms). destruct (scheduleLoop s2 ms) as [[[[s3 rs] cs]|e|]|]; [|done|done|done]. destruct IH as (Hre3 & (new' & Hnew' & Hruns') & Hlen & Hserved).
  rewrite brun_cons. assert (launched (breceive (blaunch b) m) = launched (blaunch b)) as Hl by (unfold breceive; by case_match). rewrite Hl in *. split_and!; [done| | |].
  - exists (new ++ new'). split; [rewrite Hnew', Hnew; by rewrite app_assoc|]. apply runs_of_app; [done|]. by rewrite Hnew, length_app in Hruns'.
  - cbn. by rewrite Hlen.
  - intros [|i] m' Hm' Hreq; cbn in Hm' |- *; [|by apply Hserved]. injection Hm' as ->. rewrite Hreq. eexists. split; [done|]. apply inBatch_run.
    exists (current (blaunch b) ++ [m']). unfold breceive. destruct m'; try done; cbn [isDone launched current]; (split; [by apply list_lookup_middle|apply elem_of_app; right; by apply list_elem_of_singleton]).
Qed.

(** Only the end of a run that is not active is not ready. *)
Lemma loop_blocked ms s : scheduleLoop s ms = None ->
  exists pre post s' rs cs, ms = pre ++ runDone :: post /\ scheduleLoop s pre = Some (Ok (s', rs, cs)) /\ curDone s' = None.
Proof.
  revert s. induction ms as [|m ms IH]; intros s; cbn [scheduleLoop]; destruct (launch s) as [s1 r] eqn:El; [done|]. destruct (select s1 m) as [[[s2 c]|e|]|] eqn:Es; [|done|done|].
  - destruct (scheduleLoop s2 ms) as [[[[s3 rs] cs]|e|]|] eqn:E; [done|done|done|]. intros _. destruct (IH _ E) as (pre & post & s' & rs & cs & -> & E' & Hc).
    exists (m :: pre), post, s', (option_list r ++ rs), (c :: cs). split_and!; [done| |done]. cbn [scheduleLoop]. by rewrite El, Es, E'.
  - intros _. destruct m; cbn [select] in Es; try done. destruct (curDone s1) eqn:Ec; [done|]. exists [], ms, s1, (option_list r), []. split_and!; [done| |done]. cbn [scheduleLoop]. by rewrite El.
Qed.

(** The batches hold the messages in the order they came. *)
Lemma brun_messages b ms : concat (launched (brun b ms)) ++ current (brun b ms) = (concat (launched b) ++ current b) ++ filter (fun m => isDone m = false) ms.
Proof.
  assert (forall b, concat (launched (blaunch b)) ++ current (blaunch b) = concat (launched b) ++ current b) as Hl.
  { intros b'. unfold blaunch. case_match; [|done]. cbn. rewrite concat_app. cbn. by rewrite !app_nil_r. }
  revert b. induction ms as [|m ms IH]; intros b; [cbn; rewrite app_nil_r; apply Hl|]. rewrite brun_cons, IH, <- (Hl b), filter_cons. unfold breceive. destruct (isDone m) eqn:Ed; cbn [launched current].
  - by rewrite decide_False by congruence.
  - rewrite decide_True by done. by rewrite <- !app_assoc.
Qed.

(** A request waits only while a run is active. *)
Lemma brun_idle b ms : running (brun b ms) = false -> existsb isRequest (current (brun b ms)) = false.
Proof.
  assert (forall b, running (blaunch b) = false -> existsb isRequest (current (blaunch b)) = false) as Hl.
  { intros b'. unfold blaunch. destruct (running b') eqn:Er; cbn [negb andb]; [congruence|]. by destruct (existsb isRequest (current b')) eqn:Ee. }
  revert b. induction ms as [|m ms IH]; intros b; [apply Hl|]. rewrite brun_cons. apply IH.
Qed.

Definition start : batches := {| running := false; launched := []; current := [] |}.

End Loop.

Module ScheduleDemo.
#[local] Instance U : Uint256 := bits_Uint256.
#[local] Instance MR : MapRange := canonical_range.

(** Two promotions and a reset; the second run starts when the first is over. *)
Definition messages : list message :=
  [reqPromote (newAccountSet [1]); reqPromote (newAccountSet [2]); reqReset None None; reqPromote (newAccountSet [3]); runDone; runDone].

Definition report : option (list (nat * bool * list Address)) :=
  match scheduleLoop initial messages with
  | Some (Ok (_, rs, _)) => Some (map (fun r => (rdone r, bool_decide (is_Some (rreset r)), match rdirty r with Some d => (map_to_list (accounts d)).*1 | None => [] end)) rs)
  | _ => None
  end.
End ScheduleDemo.

#[local] Existing Instance ScheduleDemo.U.
#[local] Existing Instance ScheduleDemo.MR.

Example schedule_coalesces : ScheduleDemo.report = Some [(0%nat, false, [1]); (1%nat, true, [3; 2])].
Proof. vm_compute. reflexivity. Qed.

End TxSchedule.
