(* ===== verification/Analysis.v ===== *)
(** * Analysis: jump destinations ([internal/vm/analysis.go], [contract.go])

    [codeBitmap] marks the bytes of a code that are data of a PUSH, one bit per
    byte in words of 64 bits; [validJumpdest] consults it through the caches of
    a contract.  The theorems show that the bitmap is the plain left-to-right
    reading of the code and that the caches do not change the answer. *)

From S2P Require Import Prelude Uint256.

Module Analysis.

Definition JUMPDEST : Z := 0x5b.
Definition PUSH1 : Z := 0x60.
Definition PUSH32 : Z := 0x7f.

(** [bits[i] |= x] *)
Definition orAt (bits : list Z) (i : Z) (x : Z) : outcome (list Z) :=
  b ← or_panic (bits !! Z.to_nat i); Ok (<[Z.to_nat i := Z.lor b x]> bits).

Fixpoint bitmap_loop (fuel : nat) (code : list Z) (pc : Z) (bits : list Z) : outcome (list Z) :=
  match fuel with
  | O => Ok bits
  | S fuel' =>
      if pc <? Z.of_nat (length code) then
        op ← or_panic (code !! Z.to_nat pc);
        let pc := pc + 1 in
        if (PUSH1 <=? op) && (op <=? PUSH32) then
          let numbits := op - PUSH1 + 1 in
          let x := Z.shiftl 1 (op - PUSH1) in
          let x := Z.lor x (x - 1) in
          let idx := pc / 64 in
          let shift := Z.land pc 63 in
          bits ← orAt bits idx (u64 (Z.shiftl x shift));
          bits ← (if 64 <? shift + shift then orAt bits (idx + 1) (Z.shiftr x (64 - shift)) else Ok bits);
          bitmap_loop fuel' code (pc + numbits) bits
        else bitmap_loop fuel' code pc bits
      else Ok bits
  end.

(** Every round moves [pc] forward, so the length of the code bounds the rounds. *)
Definition codeBitmap (code : list Z) : outcome (list Z) :=
  let bits := replicate (Z.to_nat ((Z.of_nat (length code) + 32 + 63) / 64)) 0 in
  bitmap_loop (length code) code 0 bits.

Definition isCodeFromAnalysis (analysis : list Z) (udest : Z) : outcome bool :=
  w ← or_panic (analysis !! Z.to_nat (udest / 64));
  Ok (Z.land w (Z.shiftl 1 (Z.land udest 63)) =? 0).

(** The parts of a [Contract] that jump analysis uses; [jumpdests] is the map
    shared by all frames of a call. *)
Record Contract := {
  Code : list Z;
  CodeHash : Hash;
  jumpdests : gmap Hash (list Z);
  analysis : option (list Z);
  skipAnalysis : bool
}.

Definition with_caches (j : gmap Hash (list Z)) (a : option (list Z)) (c : Contract) : Contract :=
  {| Code := Code c; CodeHash := CodeHash c; jumpdests := j; analysis := a; skipAnalysis := skipAnalysis c |}.

Definition isCode (c : Contract) (udest : Z) : outcome (bool * Contract) :=
  if negb (CodeHash c =? 0) then
    '(a, j) ← match jumpdests c !! CodeHash c with
              | Some a => Ok (a, jumpdests c)
              | None => a ← codeBitmap (Code c); Ok (a, <[CodeHash c := a]> (jumpdests c))
              end;
    r ← isCodeFromAnalysis a udest;
    Ok (r, with_caches j (Some a) c)
  else
    a ← match analysis c with Some a => Ok a | None => codeBitmap (Code c) end;
    r ← isCodeFromAnalysis a udest;
    Ok (r, with_caches (jumpdests c) (Some a) c).

(** The second result tells whether the bitmap was used. *)
Definition validJumpdest `{U : Uint256} (c : Contract) (dest : u256) : outcome (bool * bool * Contract) :=
  let '(udest, overflow) := uUint64WithOverflow dest in
  if overflow || (Z.of_nat (length (Code c)) <=? udest) then Ok (false, false, c)
  else
    op ← or_panic (Code c !! Z.to_nat udest);
    if negb (op =? JUMPDEST) then Ok (false, false, c)
    else if skipAnalysis c then Ok (true, false, c)
    else '(r, c) ← isCode c udest; Ok (r, true, c).

(** ** The reading of a code *)

(** Number of data bytes after an opcode. *)
Definition pushed (op : Z) : nat :=
  if (PUSH1 <=? op) && (op <=? PUSH32) then Z.to_nat (op - PUSH1 + 1) else 0.

(** Which bytes are data, [skip] data bytes being still to come. *)
Fixpoint dataMask (skip : nat) (code : list Z) : list bool :=
  match code, skip with
  | [], _ => []
  | _ :: code, S skip => true :: dataMask skip code
  | op :: code, O => false :: dataMask (pushed op) code
  end.

Definition word (bits : list Z) (k : Z) : Z := default 0 (bits !! Z.to_nat k).
Definition bit (bits : list Z) (i : Z) : bool := Z.testbit (word bits (i / 64)) (i mod 64).

Lemma land63 i : Z.land i 63 = i mod 64.
Proof. change 63 with (Z.ones 6). by rewrite Z.land_ones. Qed.

Lemma dataMask_skip n code : dataMask n code = replicate (n `min` length code) true ++ dataMask 0 (drop n code).
Proof.
  revert n. induction code as [|op code IH]; intros [|n]; [done..|done|].
  cbn [dataMask length Nat.min replicate app drop]. by rewrite IH.
Qed.

(** ** Setting a run of bits *)

Lemma smear k : 0 <= k -> Z.lor (Z.shiftl 1 k) (Z.shiftl 1 k - 1) = Z.ones (k + 1).
Proof.
  intros Hk. apply Z.bits_inj'. intros n Hn. rewrite Z.lor_spec, Z.shiftl_1_l.
  replace (2 ^ k - 1) with (Z.ones k) by (rewrite Z.ones_equiv; lia).
  rewrite Z.pow2_bits_eqb, !Z.testbit_ones by lia.
  destruct (Z.eqb_spec k n), (Z.leb_spec 0 n), (Z.ltb_spec n k), (Z.ltb_spec n (k + 1)); cbn; lia || done.
Qed.

Lemma orAt_spec bits i x : 0 <= i < Z.of_nat (length bits) ->
  exists bits', orAt bits i x = Ok bits' /\ length bits' = length bits /\
  forall k, 0 <= k -> word bits' k = if k =? i then Z.lor (word bits i) x else word bits k.
Proof.
  intros Hi. unfold orAt. destruct (lookup_lt_is_Some_2 bits (Z.to_nat i)) as [b Hb]; [lia|].
  rewrite Hb. cbn. eexists. split; [done|]. rewrite length_insert. split; [done|].
  intros k Hk. unfold word. rewrite Hb. cbn.
  destruct (Z.eqb_spec k i) as [->|Hne].
  - by rewrite list_lookup_insert_eq by lia.
  - by rewrite list_lookup_insert_ne by lia.
Qed.

Lemma u64_testbit z r : 0 <= r < 64 -> Z.testbit (u64 z) r = Z.testbit z r.
Proof. intros. unfold u64. change two64 with (2 ^ 64). apply Z.mod_pow2_bits_low. lia. Qed.

Lemma shifted_ones n s r : 0 < n -> 0 <= s -> 0 <= r ->
  Z.testbit (Z.shiftl (Z.ones n) s) r = (s <=? r) && (r <? s + n).
Proof.
  intros. rewrite Z.shiftl_spec by done.
  destruct (Z.leb_spec s r).
  - rewrite Z.testbit_ones by lia. destruct (Z.leb_spec 0 (r - s)), (Z.ltb_spec (r - s) n), (Z.ltb_spec r (s + n)); lia || done.
  - rewrite Z.testbit_neg_r by lia. done.
Qed.

Lemma shifted_down_ones n s r : 0 < n -> 0 <= s -> 0 <= r ->
  Z.testbit (Z.shiftr (Z.ones n) s) r = (r + s <? n).
Proof.
  intros. rewrite Z.shiftr_spec by done. rewrite Z.testbit_ones by lia.
  destruct (Z.leb_spec 0 (r + s)); [done|lia].
Qed.

(** The two updates of the loop mark [n] bytes from [pc] on. *)
Lemma mark_spec bits pc n : 0 <= pc -> 0 < n <= 32 -> pc + 95 < 64 * Z.of_nat (length bits) + 64 ->
  exists bits1 bits2,
    orAt bits (pc / 64) (u64 (Z.shiftl (Z.ones n) (Z.land pc 63))) = Ok bits1 /\
    (if 64 <? Z.land pc 63 + Z.land pc 63
     then orAt bits1 (pc / 64 + 1) (Z.shiftr (Z.ones n) (64 - Z.land pc 63)) else Ok bits1) = Ok bits2 /\
    length bits2 = length bits /\
    forall i, 0 <= i -> bit bits2 i = bit bits i || ((pc <=? i) && (i <? pc + n)).
Proof.
  intros Hpc Hn Hlen. rewrite land63. set (q := pc / 64). set (s := pc mod 64).
  assert (pc = 64 * q + s /\ 0 <= s < 64) as [Epc Hs].
  { subst q s. split; [apply Z.div_mod; lia|apply Z.mod_pos_bound; lia]. }
  assert (0 <= q) by lia.
  destruct (orAt_spec bits q (u64 (Z.shiftl (Z.ones n) s))) as (b1 & H1 & Hl1 & Hb1); [lia|].
  assert (exists b2, (if 64 <? s + s then orAt b1 (q + 1) (Z.shiftr (Z.ones n) (64 - s)) else Ok b1) = Ok b2 /\
    length b2 = length b1 /\ forall k, 0 <= k -> word b2 k =
      if (64 <? s + s) && (k =? q + 1) then Z.lor (word b1 k) (Z.shiftr (Z.ones n) (64 - s))
      else word b1 k) as (b2 & H2 & Hl2 & Hb2).
  { destruct (Z.ltb_spec 64 (s + s)); cbn [andb]; [|by exists b1].
    destruct (orAt_spec b1 (q + 1) (Z.shiftr (Z.ones n) (64 - s))) as (b2 & H2 & Hl2 & Hb2); [lia|].
    exists b2. split_and!; [done|done|]. intros k Hk. rewrite Hb2 by done. by destruct (Z.eqb_spec k (q + 1)) as [->|]. }
  exists b1, b2. split_and!; [done|done|congruence|]. intros i Hi. unfold bit.
  assert (0 <= i / 64) as Hq by (apply Z.div_pos; lia).
  pose proof (Z.mod_pos_bound i 64 ltac:(lia)) as Hr. pose proof (Z.div_mod i 64 ltac:(lia)) as Ei.
  set (iq := i / 64) in *. set (r := i mod 64) in *. rewrite Hb2, Hb1 by done.
  destruct (Z.eqb_spec iq q) as [Eq|Nq].
  - rewrite (proj2 (Z.eqb_neq iq (q + 1))), andb_false_r, Eq by lia.
    rewrite Z.lor_spec, u64_testbit, shifted_ones by lia.
    f_equal. destruct (Z.leb_spec s r), (Z.leb_spec pc i), (Z.ltb_spec r (s + n)), (Z.ltb_spec i (pc + n)); lia || done.
  - destruct (Z.eqb_spec iq (q + 1)) as [Eq1|Nq1].
    + destruct (Z.ltb_spec 64 (s + s)); cbn [andb].
      * rewrite Z.lor_spec, shifted_down_ones by lia. f_equal.
        destruct (Z.leb_spec pc i), (Z.ltb_spec (r + (64 - s)) n), (Z.ltb_spec i (pc + n)); lia || done.
      * destruct (Z.leb_spec pc i), (Z.ltb_spec i (pc + n)); try lia; by rewrite orb_false_r.
    + rewrite andb_false_r. destruct (Z.leb_spec pc i), (Z.ltb_spec i (pc + n)); try lia; by rewrite orb_false_r.
Qed.

Lemma dataMask_at n code (j : nat) : (j < length code)%nat ->
  dataMask n code !!! j = if (j <? n)%nat then true else dataMask 0 (drop n code) !!! (j - n)%nat.
Proof.
  intros Hj. rewrite dataMask_skip. destruct (Nat.ltb_spec j n).
  - rewrite lookup_total_app_l by (rewrite length_replicate; lia).
    apply lookup_total_replicate_2. lia.
  - rewrite lookup_total_app_r by (rewrite length_replicate; lia). rewrite length_replicate. f_equal. lia.
Qed.

Lemma bitmap_loop_spec fuel code pc bits :
  0 <= pc -> Z.of_nat (length code) <= pc + Z.of_nat fuel ->
  Z.of_nat (length code) + 95 < 64 * Z.of_nat (length bits) + 64 ->
  (forall i, pc <= i -> bit bits i = false) ->
  exists bits', bitmap_loop fuel code pc bits = Ok bits' /\ length bits' = length bits /\
    (forall i, 0 <= i < pc -> bit bits' i = bit bits i) /\
    forall i, pc <= i < Z.of_nat (length code) ->
      bit bits' i = dataMask 0 (drop (Z.to_nat pc) code) !!! Z.to_nat (i - pc).
Proof.
  revert pc bits. induction fuel as [|fuel IH]; intros pc bits Hpc Hf Hl Hclear; cbn [bitmap_loop].
  { exists bits. split_and!; [done|done|done|lia]. }
  destruct (Z.ltb_spec pc (Z.of_nat (length code))) as [Hlt|Hge].
  2: { exists bits. split_and!; [done|done|done|lia]. }
  destruct (lookup_lt_is_Some_2 code (Z.to_nat pc)) as [op Hop]; [lia|].
  rewrite Hop. cbn [or_panic mbind outcome_bind]. rewrite (drop_S _ _ _ Hop).
  replace (S (Z.to_nat pc)) with (Z.to_nat (pc + 1)) by lia.
  assert (exists n bits2, n = pushed op /\ length bits2 = length bits /\
    (forall i, 0 <= i -> bit bits2 i = bit bits i || ((pc + 1 <=? i) && (i <? pc + 1 + Z.of_nat n))) /\
    (if (PUSH1 <=? op) && (op <=? PUSH32) then
       bits ← orAt bits ((pc + 1) / 64) (u64 (Z.shiftl (Z.lor (Z.shiftl 1 (op - PUSH1)) (Z.shiftl 1 (op - PUSH1) - 1))
                (Z.land (pc + 1) 63)));
       bits ← (if 64 <? Z.land (pc + 1) 63 + Z.land (pc + 1) 63
               then orAt bits ((pc + 1) / 64 + 1) (Z.shiftr (Z.lor (Z.shiftl 1 (op - PUSH1)) (Z.shiftl 1 (op - PUSH1) - 1))
                 (64 - Z.land (pc + 1) 63)) else Ok bits);
       bitmap_loop fuel code (pc + 1 + (op - PUSH1 + 1)) bits
     else bitmap_loop fuel code (pc + 1) bits) = bitmap_loop fuel code (pc + 1 + Z.of_nat n) bits2)
    as (n & bits2 & Hn & Hl2 & Hb2 & ->).
  { unfold pushed, PUSH1, PUSH32 in *. destruct ((0x60 <=? op) && (op <=? 0x7f)) eqn:Ep.
    - apply andb_true_iff in Ep as [??]. zbool. rewrite smear by lia.
      destruct (mark_spec bits (pc + 1) (op - 0x60 + 1)) as (b1 & b2 & -> & E2 & ? & Hb2); [lia..|].
      eexists _, b2. split_and!; [done|done| |].
      + intros i Hi. rewrite Hb2 by done. by rewrite Z2Nat.id by lia.
      + cbn [mbind outcome_bind]. rewrite E2. cbn [mbind outcome_bind]. by rewrite Z2Nat.id by lia.
    - exists 0%nat, bits. split_and!; [done|done| |by rewrite Z.add_0_r].
      intros i Hi. destruct (Z.leb_spec (pc + 1) i), (Z.ltb_spec i (pc + 1 + Z.of_nat 0)); cbn; rewrite ?orb_false_r; lia || done. }
  destruct (IH (pc + 1 + Z.of_nat n) bits2) as (bits' & -> & Hl' & Hlow & Hhigh); [lia|lia|lia| |].
  { intros i Hi. rewrite Hb2, Hclear by lia. destruct (Z.ltb_spec i (pc + 1 + Z.of_nat n)); [lia|]. by rewrite andb_false_r. }
  exists bits'. split_and!; [done|congruence| |].
  - intros i Hi. rewrite Hlow, Hb2 by lia. destruct (Z.leb_spec (pc + 1) i); [lia|]. by rewrite orb_false_r.
  - intros i Hi. destruct (decide (i = pc)) as [->|Hne].
    + rewrite Z.sub_diag. rewrite Hlow, Hb2, Hclear by lia. destruct (Z.leb_spec (pc + 1) pc); [lia|done].
    + replace (Z.to_nat (i - pc)) with (S (Z.to_nat (i - pc - 1))) by lia. cbn [dataMask lookup_total list_lookup_total].
      change (list_lookup_total (Z.to_nat (i - pc - 1)) (dataMask (pushed op) (drop (Z.to_nat (pc + 1)) code)))
        with (dataMask (pushed op) (drop (Z.to_nat (pc + 1)) code) !!! Z.to_nat (i - pc - 1)).
      rewrite dataMask_at, <- Hn by (rewrite length_drop; lia). rewrite drop_drop.
      destruct (Nat.ltb_spec (Z.to_nat (i - pc - 1)) n).
      * rewrite Hlow, Hb2, Hclear by lia.
        destruct (Z.leb_spec (pc + 1) i), (Z.ltb_spec i (pc + 1 + Z.of_nat n)); lia || done.
      * rewrite Hhigh by lia.
        replace (Z.to_nat (pc + 1) + n)%nat with (Z.to_nat (pc + 1 + Z.of_nat n)) by lia. f_equal. lia.
Qed.

Lemma bit_replicate n i : bit (replicate n 0) i = false.
Proof.
  unfold bit, word. destruct (replicate n 0 !! _) as [w|] eqn:Hw; cbn; [|apply Z.bits_0].
  apply lookup_replicate in Hw as [-> _]. apply Z.bits_0.
Qed.

Lemma land_bit w r : 0 <= r -> (Z.land w (Z.shiftl 1 r) =? 0) = negb (Z.testbit w r).
Proof.
  intros Hr. rewrite Z.shiftl_1_l. destruct (Z.testbit w r) eqn:Et; cbn.
  - apply Z.eqb_neq. intros H0. apply (f_equal (fun z => Z.testbit z r)) in H0.
    rewrite Z.land_spec, Z.pow2_bits_true, Et, Z.bits_0 in H0 by done. done.
  - apply Z.eqb_eq, Z.bits_inj'. intros n Hn. rewrite Z.land_spec, Z.bits_0, Z.pow2_bits_eqb by done.
    destruct (Z.eqb_spec r n) as [<-|]; [by rewrite Et|by rewrite andb_false_r].
Qed.

(** What is code according to the left-to-right reading. *)
Definition is_code (code : list Z) (p : Z) : bool := negb (dataMask 0 code !!! Z.to_nat p).

Definition analyses (code : list Z) (bits : list Z) : Prop :=
  forall p, 0 <= p < Z.of_nat (length code) -> isCodeFromAnalysis bits p = Ok (is_code code p).

Lemma codeBitmap_analyses code : exists bits, codeBitmap code = Ok bits /\ analyses code bits.
Proof.
  unfold codeBitmap. set (n := (Z.of_nat (length code) + 32 + 63) / 64).
  pose proof (Z.div_mod (Z.of_nat (length code) + 32 + 63) 64 ltac:(lia)) as Hd.
  pose proof (Z.mod_pos_bound (Z.of_nat (length code) + 32 + 63) 64 ltac:(lia)). fold n in Hd.
  assert (0 <= n) by (apply Z.div_pos; lia).
  destruct (bitmap_loop_spec (length code) code 0 (replicate (Z.to_nat n) 0)) as (bits & H1 & H2 & _ & H4);
    [lia|lia|rewrite length_replicate; lia|intros; apply bit_replicate|].
  exists bits. split; [done|]. intros p Hp. rewrite length_replicate in H2. unfold isCodeFromAnalysis.
  assert (p / 64 < n) by (apply Z.div_lt_upper_bound; lia). pose proof (Z.div_pos p 64).
  destruct (lookup_lt_is_Some_2 bits (Z.to_nat (p / 64))) as [w Hw]; [lia|].
  rewrite Hw. cbn [or_panic mbind outcome_bind]. f_equal.
  rewrite land63, land_bit by (apply Z.mod_pos_bound; lia).
  specialize (H4 p Hp). unfold bit, word in H4. rewrite Hw in H4. change (default 0 (Some w)) with w in H4. rewrite H4.
  unfold is_code. by rewrite Z.sub_0_r.
Qed.

(** ** The caches *)

(** The cached analyses are right: for the code of this contract, and for every
    code a cached hash may stand for. *)
Record caches_ok (codeOf : Hash -> list Z) (c : Contract) : Prop := {
  co_hash : CodeHash c <> 0 -> codeOf (CodeHash c) = Code c;
  co_jumpdests : forall h a, jumpdests c !! h = Some a -> analyses (codeOf h) a;
  co_analysis : forall a, analysis c = Some a -> analyses (Code c) a
}.

Lemma isCode_spec codeOf c p : caches_ok codeOf c -> 0 <= p < Z.of_nat (length (Code c)) ->
  exists c', isCode c p = Ok (is_code (Code c) p, c') /\ caches_ok codeOf c' /\
    Code c' = Code c /\ CodeHash c' = CodeHash c /\ skipAnalysis c' = skipAnalysis c.
Proof.
  intros [Hh Hj Ha] Hp. unfold isCode. destruct (codeBitmap_analyses (Code c)) as (bits & Hb & Hbits).
  destruct (Z.eqb_spec (CodeHash c) 0) as [E0|N0]; cbn [negb].
  - assert (exists a, match analysis c with Some a => Ok a | None => codeBitmap (Code c) end = Ok a /\
      analyses (Code c) a) as (a & -> & Hok).
    { destruct (analysis c) as [a|] eqn:Ea; [exists a|exists bits]; auto. }
    cbn [mbind outcome_bind]. rewrite (Hok p Hp). eexists. split; [done|]. split_and!; try done.
    split; [done|done|]. cbn. by intros ? [= <-].
  - rewrite <- (Hh N0) in Hbits.
    assert (exists a j, match jumpdests c !! CodeHash c with
      | Some a => Ok (a, jumpdests c)
      | None => a ← codeBitmap (Code c); Ok (a, <[CodeHash c := a]> (jumpdests c)) end = Ok (a, j) /\
      analyses (codeOf (CodeHash c)) a /\ forall h b, j !! h = Some b -> analyses (codeOf h) b)
      as (a & j & -> & Hok & Hjs).
    { destruct (jumpdests c !! CodeHash c) as [a|] eqn:Ej; [exists a, (jumpdests c); auto|].
      rewrite Hb. eexists bits, _. split_and!; [done|done|].
      intros h b [[<- <-]|[_ ?]]%lookup_insert_Some; [done|auto]. }
    cbn [mbind outcome_bind]. rewrite (Hh N0) in Hok. rewrite (Hok p Hp). eexists. split; [done|].
    split_and!; try done. split; [done|done|]. cbn. by intros ? [= <-].
Qed.

(** The bitmap of the jump analysis is built without leaving its words and
    marks exactly the data bytes of the code: a byte is code in the bitmap if
    and only if it is an opcode of the plain left-to-right reading. *)
Theorem codeBitmap_marks_data code :
  exists bits, codeBitmap code = Ok bits /\ analyses code bits.
Proof. apply codeBitmap_analyses. Qed.

(** C32: a jump is allowed exactly to a JUMPDEST byte inside the code that is
    an opcode of the left-to-right reading, whatever the caches of the
    contract hold, as long as they hold analyses of the code their hash stands
    for; the check keeps them so, and never panics. *)
Theorem validJumpdest_exact `{U : Uint256} codeOf c dest :
  caches_ok codeOf c -> skipAnalysis c = false -> Z.of_nat (length (Code c)) < two64 ->
  exists used c',
    validJumpdest c dest =
      Ok (bool_decide (uval dest < Z.of_nat (length (Code c))) &&
          (Code c !!! Z.to_nat (uval dest) =? JUMPDEST) && is_code (Code c) (uval dest), used, c') /\
    caches_ok codeOf c' /\ Code c' = Code c.
Proof.
  intros Hok Hs Hlen. unfold validJumpdest, uUint64WithOverflow, uUint64, uIsUint64. pose proof (uval_nonneg dest).
  destruct (Z.ltb_spec (uval dest) two64) as [H64|H64]; cbn [negb orb].
  2: { eexists _, c. split; [|done]. by rewrite bool_decide_eq_false_2 by lia. }
  rewrite u64_small by (unfold in_u64; lia).
  destruct (Z.leb_spec (Z.of_nat (length (Code c))) (uval dest)) as [Hge|Hlt].
  { eexists _, c. split; [|done]. by rewrite bool_decide_eq_false_2 by lia. }
  destruct (lookup_lt_is_Some_2 (Code c) (Z.to_nat (uval dest))) as [op Hop]; [lia|].
  rewrite Hop, (list_lookup_total_correct _ _ _ Hop), bool_decide_eq_true_2 by lia. cbn [or_panic mbind outcome_bind andb].
  destruct (op =? JUMPDEST); cbn [negb andb]; [|by eexists _, c]. rewrite Hs.
  destruct (isCode_spec codeOf c (uval dest) Hok) as (c' & -> & Hok' & Hc' & _); [lia|].
  cbn [mbind outcome_bind]. eexists _, c'. done.
Qed.

Module AnalysisDemo.

#[local] Instance U : Uint256 := bits_Uint256.

(** PUSH2 JUMPDEST JUMPDEST, then JUMPDEST. *)
Definition code : list Z := [0x61; 0x5b; 0x5b; 0x5b].
Definition c : Contract :=
  {| Code := code; CodeHash := 7; jumpdests := ∅; analysis := None; skipAnalysis := false |}.
Definition codeOf (h : Hash) : list Z := code.

Lemma c_ok : caches_ok codeOf c.
Proof. by split. Qed.

(** Which of the first four bytes are jump destinations. *)
Definition dests : list (outcome bool) :=
  (fun p => r ← validJumpdest c (uSetUint64 p); Ok r.1.1) <$> [0; 1; 2; 3; 4].

End AnalysisDemo.

Lemma validJumpdest_exact_witness :
  (exists used c', validJumpdest AnalysisDemo.c (@uSetUint64 bits_Uint256 3) = Ok (true, used, c')) /\
  AnalysisDemo.dests = [Ok false; Ok false; Ok false; Ok true; Ok false].
Proof.
  split; [|vm_compute; reflexivity].
  destruct (validJumpdest_exact AnalysisDemo.codeOf AnalysisDemo.c (@uSetUint64 bits_Uint256 3)
    AnalysisDemo.c_ok eq_refl ltac:(reflexivity)) as (used & c' & H1 & _).
  exists used, c'. rewrite H1. vm_compute. reflexivity.
Defined.

End Analysis.
