(* ===== verification/EvmMemory.v ===== *)
(** * EvmMemory: stack, memory and gas of the virtual machine

    [internal/vm/stack/stack.go], [memory.go], [common.go], [gas.go],
    [memory_table.go] and [memoryGasCost] of [gas_table.go].  The stack is
    listed from its top, the last element of the Go slice.  Reading or writing
    outside a slice panics; [GetPtr] is only modelled within the length of the
    memory (Go would also slice into the spare capacity). *)

From S2P Require Import Prelude Uint256.

(** [common/math]: sums and products with their overflow *)
Definition SafeAdd (x y : Z) : Z * bool := (x +u y, two64 <=? x + y).
Definition SafeMul (x y : Z) : Z * bool := (x *u y, two64 <=? x * y).

Definition ErrGasUintOverflow : error := "gas uint64 overflow".

Module Stack.
Section Stack.
Context {A : Type}.
Implicit Types st : list A.

Definition Push st (d : A) : list A := d :: st.
Definition Pop st : outcome (A * list A) := match st with x :: st => Ok (x, st) | [] => Panic end.
Definition Back st (n : nat) : outcome A := or_panic (st !! n).
Definition Peek st : outcome A := Back st 0.
(** Replaces the element [Peek] points to. *)
Definition SetTop st (x : A) : outcome (list A) := match st with _ :: st => Ok (x :: st) | [] => Panic end.
Definition Dup st (n : nat) : outcome (list A) :=
  match n with O => Panic | S n => x ← Back st n; Ok (Push st x) end.
Definition Swap st (n : nat) : outcome (list A) :=
  match n with
  | O => Panic
  | S n => x ← Back st n; y ← Back st 0; Ok (<[0%nat := x]> (<[n := y]> st))
  end.
Definition Len st : Z := Z.of_nat (length st).
End Stack.
End Stack.

Module Memory.

Record Memory := { store : list Z; lastGasCost : Z }.

Definition NewMemory : Memory := {| store := []; lastGasCost := 0 |}.
Definition Len (m : Memory) : Z := Z.of_nat (length (store m)).
Definition with_store (s : list Z) (m : Memory) : Memory := {| store := s; lastGasCost := lastGasCost m |}.

(** [copy(s[off:], v)] for a [v] that fits *)
Definition overwrite (s : list Z) (off : nat) (v : list Z) : list Z :=
  take off s ++ v ++ drop (off + length v) s.

Definition Set_ (m : Memory) (offset size : Z) (value : list Z) : outcome Memory :=
  if 0 <? size then
    if Len m <? offset +u size then Panic
    else if offset +u size <? offset then Panic
    else Ok (with_store (overwrite (store m) (Z.to_nat offset) (take (Z.to_nat size) value)) m)
  else Ok m.

Definition Resize (m : Memory) (size : Z) : Memory :=
  let l := int64 size - Len m in
  if l <=? 0 then m else with_store (store m ++ replicate (Z.to_nat l) 0) m.

Definition Reset (m : Memory) : Memory := {| store := []; lastGasCost := 0 |}.

(** [None] is a nil slice. *)
Definition GetCopy (m : Memory) (offset size : Z) : outcome (option (list Z)) :=
  if size =? 0 then Ok None
  else if offset <? Len m then
    if (size <? 0) || (offset <? 0) then Panic
    else
      let tail := take (Z.to_nat size) (drop (Z.to_nat offset) (store m)) in
      Ok (Some (tail ++ replicate (Z.to_nat size - length tail) 0))
  else Ok None.

Definition GetPtr (m : Memory) (offset size : Z) : outcome (option (list Z)) :=
  if size =? 0 then Ok None
  else if offset <? Len m then
    if (offset <? 0) || (size <? 0) || (Len m <? offset + size) then Panic
    else Ok (Some (take (Z.to_nat size) (drop (Z.to_nat offset) (store m))))
  else Ok None.

Section Words.
Context `{U : Uint256}.

Definition uBytes32 (x : u256) : list Z := be_bytes 32 (uval x).

Definition Set32 (m : Memory) (offset : Z) (val : u256) : outcome Memory :=
  if Len m <? offset +u 32 then Panic
  else if offset +u 32 <? offset then Panic
  else Ok (with_store (overwrite (store m) (Z.to_nat offset) (uBytes32 val)) m).

(** [m.store[off] = b] *)
Definition SetByte (m : Memory) (off b : Z) : outcome Memory :=
  if (off <? 0) || (Len m <=? off) then Panic
  else Ok (with_store (<[Z.to_nat off := b]> (store m)) m).

End Words.
End Memory.

(** ** [common.go] *)

Section Common.
Context `{U : Uint256}.

Definition calcMemSize64WithUint (off : u256) (length64 : Z) : Z * bool :=
  if length64 =? 0 then (0, false)
  else
    let '(offset64, overflow) := uUint64WithOverflow off in
    if overflow then (0, true)
    else let val := offset64 +u length64 in (val, val <? offset64).

Definition calcMemSize64 (off l : u256) : Z * bool :=
  if negb (uIsUint64 l) then (0, true) else calcMemSize64WithUint off (uUint64 l).

(** [types.RightPadBytes] *)
Definition RightPadBytes (slice : list Z) (l : Z) : list Z :=
  if l <=? Z.of_nat (length slice) then slice
  else slice ++ replicate (Z.to_nat l - length slice) 0.

Definition getData (data : list Z) (start size : Z) : outcome (list Z) :=
  let len := Z.of_nat (length data) in
  let start := if len <? start then len else start in
  let end_ := start +u size in
  let end_ := if len <? end_ then len else end_ in
  if end_ <? start then Panic
  else Ok (RightPadBytes (take (Z.to_nat (end_ - start)) (drop (Z.to_nat start) data)) (int64 size)).

Definition getDataBig (data : list Z) (start : u256) (size : Z) : outcome (list Z) :=
  let '(start64, overflow) := uUint64WithOverflow start in
  getData data (if overflow then MaxUint64 else start64) size.

Definition ToWordSize (size : Z) : Z :=
  if MaxUint64 - 31 <? size then MaxUint64 / 32 + 1 else (size +u 31) / 32.

Definition allZero (b : list Z) : bool := forallb (fun x => x =? 0) b.

(** [gas.go] *)
Definition callGas (isEip150 : bool) (availableGas base : Z) (callCost : u256) : Z * option error :=
  let plain :=
    if negb (uIsUint64 callCost) then (0, Some ErrGasUintOverflow) else (uUint64 callCost, None) in
  if isEip150 then
    let availableGas := availableGas -u base in
    let gas := availableGas -u availableGas / 64 in
    if negb (uIsUint64 callCost) || (gas <? uUint64 callCost) then (gas, None) else plain
  else plain.

(** ** [memory_table.go]: the memory an operation touches *)

Definition memArgs (stack : list u256) (off len : nat) : outcome (Z * bool) :=
  o ← Stack.Back stack off; l ← Stack.Back stack len; Ok (calcMemSize64 o l).

Definition memoryKeccak256 (stack : list u256) := memArgs stack 0 1.
Definition memoryCallDataCopy (stack : list u256) := memArgs stack 0 2.
Definition memoryReturnDataCopy (stack : list u256) := memArgs stack 0 2.
Definition memoryCodeCopy (stack : list u256) := memArgs stack 0 2.
Definition memoryExtCodeCopy (stack : list u256) := memArgs stack 1 3.
Definition memoryMLoad (stack : list u256) : outcome (Z * bool) :=
  o ← Stack.Back stack 0; Ok (calcMemSize64WithUint o 32).
Definition memoryMStore8 (stack : list u256) : outcome (Z * bool) :=
  o ← Stack.Back stack 0; Ok (calcMemSize64WithUint o 1).
Definition memoryMStore (stack : list u256) : outcome (Z * bool) :=
  o ← Stack.Back stack 0; Ok (calcMemSize64WithUint o 32).
Definition memoryCreate (stack : list u256) := memArgs stack 1 2.
Definition memoryCreate2 (stack : list u256) := memArgs stack 1 2.

(** The larger of the output and the input area. *)
Definition memAreas (stack : list u256) (ro rl io il : nat) : outcome (Z * bool) :=
  '(x, overflow) ← memArgs stack ro rl;
  if overflow : bool then Ok (0, true)
  else
    '(y, overflow) ← memArgs stack io il;
    if overflow : bool then Ok (0, true) else Ok (if y <? x then x else y, false).

Definition memoryCall (stack : list u256) := memAreas stack 5 6 3 4.
Definition memoryDelegateCall (stack : list u256) := memAreas stack 4 5 2 3.
Definition memoryStaticCall (stack : list u256) := memAreas stack 4 5 2 3.
Definition memoryReturn (stack : list u256) := memArgs stack 0 1.
Definition memoryRevert (stack : list u256) := memArgs stack 0 1.
Definition memoryLog (stack : list u256) := memArgs stack 0 1.

End Common.

(** ** [memoryGasCost] *)

Definition MemoryGas : Z := 3.
Definition QuadCoeffDiv : Z := 512.

Definition memoryGasCost (m : Memory.Memory) (newMemSize : Z) : Memory.Memory * (Z + error) :=
  if newMemSize =? 0 then (m, inl 0)
  else if 0x1FFFFFFFE0 <? newMemSize then (m, inr ErrGasUintOverflow)
  else
    let newMemSizeWords := ToWordSize newMemSize in
    let newMemSize := newMemSizeWords *u 32 in
    if Memory.Len m <? newMemSize then
      let square := newMemSizeWords *u newMemSizeWords in
      let linCoef := newMemSizeWords *u MemoryGas in
      let quadCoef := square / QuadCoeffDiv in
      let newTotalFee := linCoef +u quadCoef in
      let fee := newTotalFee -u Memory.lastGasCost m in
      ({| Memory.store := Memory.store m; Memory.lastGasCost := newTotalFee |}, inl fee)
    else (m, inl 0).

(** ** Memory expansion *)

(** The total fee for [w] words of memory. *)
Definition memFee (w : Z) : Z := 3 * w + w * w / 512.

Lemma memFee_mono v w : 0 <= v <= w -> memFee v <= memFee w.
Proof. intros. unfold memFee. pose proof (Z.div_le_mono (v * v) (w * w) 512). nia. Qed.

Lemma memFee_bound w : 0 <= w <= 0xFFFFFFFF -> 0 <= memFee w < two64.
Proof.
  intros Hw. unfold memFee. pose proof (Z.div_pos (w * w) 512 ltac:(nia) ltac:(lia)).
  pose proof (Z.mul_div_le (w * w) 512 ltac:(lia)). nia.
Qed.

Lemma ToWordSize_spec n : 0 <= n -> n < two64 -> ToWordSize n = (n + 31) / 32.
Proof.
  intros. unfold ToWordSize, MaxUint64. destruct (Z.ltb_spec (18446744073709551615 - 31) n).
  - change (18446744073709551615 / 32 + 1) with 576460752303423488.
    apply (Z.div_unique (n + 31) 32 576460752303423488 (n - 18446744073709551585)); lia.
  - by u64_norm.
Qed.

Definition words (n : Z) : Z := (n + 31) / 32.

Lemma words_bounds n : 0 <= n -> n <= 32 * words n < n + 32.
Proof. intros. unfold words. pose proof (Z.div_mod (n + 31) 32). pose proof (Z.mod_pos_bound (n + 31) 32). lia. Qed.

Lemma words_whole w : words (32 * w) = w.
Proof. unfold words. rewrite Z.mul_comm, Z.div_add_l by lia. rewrite Z.div_small; lia. Qed.

(** A memory of [w] whole words that has been paid for. *)
Record memOk (m : Memory.Memory) (w : Z) : Prop := {
  mo_words : 0 <= w <= 0xFFFFFFFF;
  mo_len : Memory.Len m = 32 * w;
  mo_fee : Memory.lastGasCost m = memFee w
}.

(** What the interpreter does for an operation that touches [size] bytes: the
    charge and the resized memory. *)
Definition expand (m : Memory.Memory) (size : Z) : Memory.Memory * (Z + error) :=
  let memorySize := ToWordSize size *u 32 in
  match memoryGasCost m memorySize with
  | (m, inl fee) => (if 0 <? memorySize then Memory.Resize m memorySize else m, inl fee)
  | (m, inr e) => (m, inr e)
  end.

Lemma Resize_len m n : 0 <= n < 9223372036854775808 -> Memory.Len (Memory.Resize m n) = Z.max (Memory.Len m) n.
Proof.
  intros. unfold Memory.Resize, int64. rewrite u64_small by (unfold in_u64; lia).
  destruct (Z.ltb_spec n 9223372036854775808); [|lia]. unfold Memory.Len in *.
  destruct (Z.leb_spec (n - Z.of_nat (length (Memory.store m))) 0); [lia|].
  cbn. rewrite length_app, length_replicate. lia.
Qed.

Lemma Resize_fee m n : Memory.lastGasCost (Memory.Resize m n) = Memory.lastGasCost m.
Proof. unfold Memory.Resize. by case_match. Qed.

Lemma expand_spec m w size : memOk m w -> 0 <= size <= 0x1FFFFFFFE0 ->
  exists m', expand m size = (m', inl (memFee (Z.max w (words size)) - memFee w)) /\
    memOk m' (Z.max w (words size)).
Proof.
  intros [Hw Hl Hf] Hs. pose proof (words_bounds size ltac:(lia)) as Hb. unfold expand.
  rewrite ToWordSize_spec by lia. fold (words size). set (n := words size) in *.
  assert (0 <= n <= 0xFFFFFFFF) as Hn by lia.
  replace (n *u 32) with (32 * n) by (rewrite mul64_small; unfold in_u64; lia).
  unfold memoryGasCost. destruct (Z.eqb_spec (32 * n) 0) as [E0|N0].
  { rewrite E0. cbn. rewrite Z.max_l, Z.sub_diag by lia. exists m. by split. }
  destruct (Z.ltb_spec 0x1FFFFFFFE0 (32 * n)); [lia|].
  rewrite ToWordSize_spec by lia. fold (words (32 * n)). rewrite words_whole.
  replace (n *u 32) with (32 * n) by (rewrite mul64_small; unfold in_u64; lia).
  rewrite Hl. destruct (Z.ltb_spec (32 * w) (32 * n)) as [Hlt|Hge].
  - pose proof (memFee_bound n Hn) as Hfn. pose proof (memFee_mono w n ltac:(lia)).
    pose proof (memFee_bound w Hw).
    assert (n *u MemoryGas +u n *u n / QuadCoeffDiv = memFee n) as ->.
    { unfold MemoryGas, QuadCoeffDiv. rewrite !mul64_small by (unfold in_u64; nia).
      unfold memFee in *. rewrite add64_small by (unfold in_u64; lia). lia. }
    rewrite Hf, sub64_small by (unfold in_u64; lia). rewrite Z.max_r by lia.
    destruct (Z.ltb_spec 0 (32 * n)); [|lia]. eexists. split; [done|]. split; [done| |].
    + rewrite Resize_len by lia. unfold Memory.Len in *. cbn. lia.
    + by rewrite Resize_fee.
  - rewrite Z.max_l, Z.sub_diag by lia. destruct (Z.ltb_spec 0 (32 * n)); [|lia]. eexists. split; [done|].
    split; [done| |by rewrite Resize_fee]. rewrite Resize_len by lia. lia.
Qed.

Fixpoint expandAll (m : Memory.Memory) (sizes : list Z) : Memory.Memory * (Z + error) :=
  match sizes with
  | [] => (m, inl 0)
  | size :: sizes =>
      match expand m size with
      | (m, inl fee) =>
          match expandAll m sizes with
          | (m, inl fees) => (m, inl (fee + fees))
          | (m, inr e) => (m, inr e)
          end
      | (m, inr e) => (m, inr e)
      end
  end.

Lemma foldr_max l a b : foldr Z.max (a `max` b) l = b `max` foldr Z.max a l.
Proof. induction l as [|x l IH]; cbn; [|rewrite IH]; lia. Qed.

Lemma expandAll_spec sizes m w : memOk m w -> Forall (fun s => 0 <= s <= 0x1FFFFFFFE0) sizes ->
  let top := foldr Z.max w (words <$> sizes) in
  exists m', expandAll m sizes = (m', inl (memFee top - memFee w)) /\ memOk m' top.
Proof.
  cbv zeta. revert m w. induction sizes as [|s sizes IH]; intros m w Hm Hs.
  { exists m. cbn. by rewrite Z.sub_diag. }
  apply Forall_cons in Hs as [H1 H2]. cbn [expandAll].
  destruct (expand_spec m w s Hm H1) as (m1 & -> & Hm1).
  destruct (IH m1 _ Hm1 H2) as (m2 & -> & Hm2).
  assert (foldr Z.max (w `max` words s) (words <$> sizes) = foldr Z.max w (words <$> s :: sizes)) as Heq.
  { cbn [fmap list_fmap foldr]. apply foldr_max. }
  rewrite Heq in *. exists m2. split; [|done]. do 2 f_equal. lia.
Qed.

(** ** Reading and writing *)

Lemma overwrite_length s off v : (off + length v <= length s)%nat -> length (Memory.overwrite s off v) = length s.
Proof. intros. unfold Memory.overwrite. rewrite !length_app, length_take, length_drop. lia. Qed.

Lemma overwrite_same s off v : (off + length v <= length s)%nat ->
  take (length v) (drop off (Memory.overwrite s off v)) = v.
Proof.
  intros. unfold Memory.overwrite. rewrite drop_app_length' by (rewrite length_take; lia). by rewrite take_app_length.
Qed.

Lemma overwrite_other s off v (k : nat) : (off + length v <= length s)%nat -> (k < off \/ off + length v <= k)%nat ->
  Memory.overwrite s off v !! k = s !! k.
Proof.
  intros Hl Hk. unfold Memory.overwrite. destruct Hk as [Hk|Hk].
  - rewrite lookup_app_l by (rewrite length_take; lia). by apply lookup_take_lt.
  - rewrite lookup_app_r, lookup_app_r by (rewrite length_take; lia). rewrite length_take, lookup_drop. f_equal. lia.
Qed.

Section Access.
Context `{U : Uint256}.

Lemma calcMemSize64_spec off l sz : calcMemSize64 off l = (sz, false) -> 0 < uval l ->
  uval off < two64 /\ uval l < two64 /\ sz = uval off + uval l /\ sz < two64.
Proof.
  unfold calcMemSize64, calcMemSize64WithUint, uUint64WithOverflow, uIsUint64, uUint64. intros Hc Hl.
  pose proof (uval_nonneg off). destruct (Z.ltb_spec (uval l) two64); [|done]. cbn in Hc.
  rewrite (u64_small (uval l)) in Hc by (unfold in_u64; lia).
  destruct (Z.eqb_spec (uval l) 0); [lia|]. destruct (Z.ltb_spec (uval off) two64); [|done]. cbn in Hc.
  rewrite (u64_small (uval off)) in Hc by (unfold in_u64; lia). injection Hc as <- Ho. apply Z.ltb_ge in Ho.
  unfold add64, u64 in *. destruct (Z_lt_le_dec (uval off + uval l) two64).
  - rewrite Z.mod_small in * by lia. lia.
  - assert ((uval off + uval l) mod two64 = uval off + uval l - two64) as E.
    { symmetry. apply (Z.mod_unique_pos _ _ 1); lia. }
    lia.
Qed.

Lemma int64_id z : 0 <= z < 9223372036854775808 -> int64 z = z.
Proof.
  intros. unfold int64. rewrite u64_small by (unfold in_u64; lia).
  destruct (Z.ltb_spec z 9223372036854775808); lia.
Qed.

(** A slice of memory that covers [off, off + l). *)
Lemma covered_access m off l (value : list Z) :
  0 <= off -> 0 < l -> off + l <= Memory.Len m -> Memory.Len m < 9223372036854775808 ->
  Memory.GetPtr m (int64 off) (int64 l) = Ok (Some (take (Z.to_nat l) (drop (Z.to_nat off) (Memory.store m)))) /\
  Memory.GetCopy m (int64 off) (int64 l) = Ok (Some (take (Z.to_nat l) (drop (Z.to_nat off) (Memory.store m)))) /\
  Memory.Set_ m off l value =
    Ok (Memory.with_store (Memory.overwrite (Memory.store m) (Z.to_nat off) (take (Z.to_nat l) value)) m).
Proof.
  intros Ho Hl Hc Hm. rewrite !int64_id by lia. unfold Memory.GetPtr, Memory.GetCopy, Memory.Set_.
  destruct (Z.eqb_spec l 0); [lia|]. destruct (Z.ltb_spec off (Memory.Len m)); [|lia].
  destruct (Z.ltb_spec off 0); [lia|]. destruct (Z.ltb_spec l 0); [lia|].
  destruct (Z.ltb_spec (Memory.Len m) (off + l)); [lia|]. cbn [orb].
  rewrite add64_small by (unfold in_u64; lia). destruct (Z.ltb_spec 0 l); [|lia].
  destruct (Z.ltb_spec (Memory.Len m) (off + l)); [lia|]. destruct (Z.ltb_spec (off + l) off); [lia|].
  split_and!; [done| |done]. unfold Memory.Len in *.
  rewrite length_take, length_drop.
  replace (Z.to_nat l - (Z.to_nat l `min` (length (Memory.store m) - Z.to_nat off)))%nat with 0%nat by lia.
  by rewrite app_nil_r.
Qed.

Lemma be_bytes_inj_val (v : u256) : uSetBytes (Memory.uBytes32 v) = v.
Proof.
  apply uval_inj. pose proof (uval_range v) as [??]. unfold Memory.uBytes32. rewrite uSetBytes_spec.
  - rewrite be_val_bytes by lia. change (256 ^ Z.of_nat 32) with two256. rewrite Z.mod_mod by (vm_compute; congruence).
    by apply Z.mod_small.
  - generalize 32%nat, (uval v). induction n as [|n IH]; intros z; [constructor|]. cbn [be_bytes].
    apply Forall_app. split; [apply IH|]. constructor; [apply Z.mod_pos_bound; lia|constructor].
Qed.

End Access.

(** Memory is charged for once: whatever sequence of sizes a frame touches,
    the charges add up to the quadratic fee of the largest one, nothing wraps,
    and the memory ends up with exactly the words that were paid for. *)
Theorem memory_paid_once sizes :
  Forall (fun s => 0 <= s <= 0x1FFFFFFFE0) sizes ->
  let top := foldr Z.max 0 (words <$> sizes) in
  exists m, expandAll Memory.NewMemory sizes = (m, inl (memFee top)) /\
    Memory.Len m = 32 * top /\ Memory.lastGasCost m = memFee top.
Proof.
  intros Hs. cbv zeta. destruct (expandAll_spec sizes Memory.NewMemory 0) as (m & -> & Hm); [by split|done|].
  exists m. split; [by rewrite Z.sub_0_r|]. split; [exact (mo_len _ _ Hm)|exact (mo_fee _ _ Hm)].
Qed.

Lemma memory_paid_once_witness :
  exists m, expandAll Memory.NewMemory [100; 33; 1000; 64] = (m, inl (memFee 32)) /\
    Memory.Len m = 32 * 32 /\ Memory.lastGasCost m = memFee 32.
Proof. apply (memory_paid_once [100; 33; 1000; 64]). repeat constructor; lia. Defined.

(** An operation whose memory area passes the size calculation and has been
    expanded accesses memory without panicking: reads return the bytes of the
    area, writes change it and nothing else, and a stored word is read back. *)
Theorem expanded_memory_safe `{U : Uint256} m w off l sz value :
  memOk m w -> calcMemSize64 off l = (sz, false) -> 0 < uval l -> sz <= 0x1FFFFFFFE0 ->
  exists m' fee area,
    expand m sz = (m', inl fee) /\ Z.of_nat (length area) = uval l /\
    Memory.GetPtr m' (int64 (uUint64 off)) (int64 (uUint64 l)) = Ok (Some area) /\
    Memory.GetCopy m' (int64 (uUint64 off)) (int64 (uUint64 l)) = Ok (Some area) /\
    (exists m2, Memory.Set_ m' (uUint64 off) (uUint64 l) value = Ok m2 /\
       memOk m2 (Z.max w (words sz)) /\
       forall k, 0 <= k < uval off \/ uval off + uval l <= k -> Memory.store m2 !! Z.to_nat k = Memory.store m' !! Z.to_nat k) /\
    forall v, uval l = 32 -> exists m2, Memory.Set32 m' (uUint64 off) v = Ok m2 /\
      match Memory.GetPtr m2 (int64 (uUint64 off)) 32 with Ok (Some bytes) => uSetBytes bytes = v | _ => False end.
Proof.
  intros Hm Hc Hl Hsz. destruct (calcMemSize64_spec _ _ _ Hc Hl) as (Ho64 & Hl64 & Hs & _).
  pose proof (uval_nonneg off) as Ho.
  destruct (expand_spec m w sz Hm) as (m' & Hexp & Hm'); [lia|].
  pose proof (words_bounds sz ltac:(lia)) as Hw. destruct Hm' as [Hw' Hlen Hfee].
  assert (uval off + uval l <= Memory.Len m') as Hcov by lia.
  assert (uUint64 off = uval off) as Eo by (apply u64_small; unfold in_u64; lia).
  assert (uUint64 l = uval l) as El by (apply u64_small; unfold in_u64; lia).
  rewrite Eo, El. destruct (covered_access m' (uval off) (uval l) value) as (Hp & Hcp & Hset); [lia..|].
  eexists m', _, _. split; [exact Hexp|]. split_and!; [|exact Hp|exact Hcp| |].
  - rewrite length_take, length_drop. unfold Memory.Len in *. lia.
  - eexists. split; [exact Hset|]. unfold Memory.Len in *.
    assert (Z.to_nat (uval off) + length (take (Z.to_nat (uval l)) value) <= length (Memory.store m'))%nat as Hfit.
    { rewrite length_take. lia. }
    split; [split; [done| |done]|].
    + unfold Memory.Len. cbn. by rewrite overwrite_length.
    + intros k Hk. cbn. apply overwrite_other; [done|]. rewrite length_take. lia.
  - intros v E32. unfold Memory.Set32. rewrite add64_small by (unfold in_u64; lia).
    destruct (Z.ltb_spec (Memory.Len m') (uval off + 32)); [lia|]. destruct (Z.ltb_spec (uval off + 32) (uval off)); [lia|].
    eexists. split; [done|]. set (m2 := Memory.with_store _ _).
    assert (length (Memory.uBytes32 v) = 32%nat) as H32 by apply be_bytes_length.
    assert (Z.to_nat (uval off) + length (Memory.uBytes32 v) <= length (Memory.store m'))%nat as Hfit.
    { rewrite H32. unfold Memory.Len in *. lia. }
    assert (Memory.Len m2 = Memory.Len m') as Hlen2.
    { unfold Memory.Len. cbn. by rewrite overwrite_length. }
    destruct (covered_access m2 (uval off) 32 []) as (Hp2 & _); [lia..|].
    change (int64 32) with 32 in Hp2. rewrite Hp2. unfold m2. cbn [Memory.store Memory.with_store].
    replace (Z.to_nat 32) with (length (Memory.uBytes32 v)) by (by rewrite H32).
    rewrite overwrite_same by done. apply be_bytes_inj_val.
Qed.

(** After EIP-150 a call gets what it asks for up to all but one 64th of
    the gas left after the base cost, and never more than is available. *)
Theorem callGas_63_64 `{U : Uint256} available base cost :
  in_u64 available -> 0 <= base <= available ->
  callGas true available base cost = (Z.min (uval cost) ((available - base) - (available - base) / 64), None).
Proof.
  intros Ha Hb. unfold in_u64 in Ha. unfold callGas, uIsUint64, uUint64. pose proof (uval_nonneg cost).
  rewrite (sub64_small available base) by (unfold in_u64; lia). set (n := available - base) in *.
  assert (0 <= n) as Hn by (unfold n; lia).
  assert (0 <= n / 64 <= n) as Hd.
  { split; [apply Z.div_pos; lia|]. apply Z.div_le_upper_bound; lia. }
  rewrite sub64_small by (unfold in_u64; lia).
  destruct (Z.ltb_spec (uval cost) two64) as [Hc|Hc]; cbn [negb orb].
  - rewrite u64_small by (unfold in_u64; lia). destruct (Z.ltb_spec (n - n / 64) (uval cost)); f_equal; lia.
  - f_equal. lia.
Qed.

(** ** Data of calls and codes *)

(** What [getData] is meant to return: [size] bytes from [start] on, zero
    beyond the end. *)
Definition padded (data : list Z) (start size : Z) : list Z :=
  (fun i => default 0 (data !! (Z.to_nat start + i)%nat)) <$> seq 0 (Z.to_nat size).

(** [getData] returns exactly [size] bytes, the data from [start] on and
    zeroes beyond its end, for every start, as long as the size is that of a
    slice. *)
Theorem getData_pads data start size :
  in_u64 start -> 0 <= size -> Z.of_nat (length data) + size < 9223372036854775808 ->
  getData data start size = Ok (padded data start size).
Proof.
  intros Hs Hz Hl. unfold getData, in_u64 in *. set (len := Z.of_nat (length data)) in *.
  set (s := if len <? start then len else start).
  assert (0 <= s <= len /\ (s = start \/ s = len /\ len < start)) as [Hr Hs'].
  { unfold s. destruct (Z.ltb_spec len start); lia. }
  rewrite add64_small by (unfold in_u64; lia). set (e := if len <? s + size then len else s + size).
  assert (s <= e <= len /\ e = Z.min len (s + size)) as [He Ee].
  { unfold e. destruct (Z.ltb_spec len (s + size)); lia. }
  destruct (Z.ltb_spec e s); [lia|]. f_equal. rewrite int64_id by lia.
  apply list_eq. intros i. unfold padded. rewrite list_lookup_fmap.
  set (body := take (Z.to_nat (e - s)) (drop (Z.to_nat s) data)).
  assert (length body = Z.to_nat (e - s)) as Hb by (unfold body; rewrite length_take, length_drop; lia).
  assert (RightPadBytes body size = body ++ replicate (Z.to_nat (size - (e - s))) 0) as ->.
  { unfold RightPadBytes. rewrite Hb. destruct (Z.leb_spec size (Z.of_nat (Z.to_nat (e - s)))).
    - replace (Z.to_nat (size - (e - s))) with 0%nat by lia. by rewrite app_nil_r.
    - do 2 f_equal. lia. }
  destruct (decide (i < Z.to_nat size)%nat) as [Hi|Hi].
  2: { rewrite lookup_ge_None_2 by (rewrite length_app, length_replicate; lia).
       rewrite (lookup_ge_None_2 (seq _ _)) by (rewrite length_seq; lia). done. }
  rewrite lookup_seq_lt by done. cbn. destruct (decide (i < Z.to_nat (e - s))%nat) as [Hin|Hout].
  - rewrite lookup_app_l by lia. unfold body. rewrite lookup_take_lt, lookup_drop by lia.
    destruct Hs' as [->|[-> ?]]; [|lia].
    destruct (lookup_lt_is_Some_2 data (Z.to_nat start + i)%nat) as [x Hx]; [lia|]. by rewrite Hx.
  - rewrite lookup_app_r, Hb, lookup_replicate_2 by lia.
    rewrite lookup_ge_None_2 by lia. done.
Qed.

(** A size close to [2^64] wraps around the end of the data and panics. *)
Example getData_wraps : getData [1; 2] 1 (two64 - 1) = Panic.
Proof. reflexivity. Qed.

Lemma getData_pads_witness : getData [1; 2; 3] 2 4 = Ok [3; 0; 0; 0].
Proof. exact (getData_pads [1; 2; 3] 2 4 ltac:(split; [discriminate|reflexivity]) ltac:(discriminate) ltac:(reflexivity)). Defined.

Module MemoryDemo.
#[local] Instance U : Uint256 := bits_Uint256.
Lemma new_ok : memOk Memory.NewMemory 0.
Proof. by split. Qed.
End MemoryDemo.

Lemma expanded_memory_safe_witness :
  exists m' fee area,
    expand Memory.NewMemory 96 = (m', inl fee) /\ Z.of_nat (length area) = 32 /\
    Memory.GetPtr m' 64 32 = Ok (Some area).
Proof.
  destruct (expanded_memory_safe (U := bits_Uint256) Memory.NewMemory 0 (@uSetUint64 bits_Uint256 64)
    (@uSetUint64 bits_Uint256 32) 96 [] MemoryDemo.new_ok ltac:(vm_compute; reflexivity) ltac:(vm_compute; reflexivity)
    ltac:(lia)) as (m' & fee & area & H1 & H2 & H3 & _).
  exists m', fee, area. split; [exact H1|]. split; [exact H2|exact H3].
Defined.

Lemma callGas_63_64_witness :
  callGas true 6400 0 (@uSetUint64 bits_Uint256 100000) = (6300, None).
Proof.
  rewrite (callGas_63_64 (U := bits_Uint256) 6400 0 (@uSetUint64 bits_Uint256 100000)
    ltac:(split; [discriminate|reflexivity]) ltac:(lia)). vm_compute. reflexivity.
Defined.
