(* ===== verification/Words.v ===== *)
(** * Words: the arithmetic the virtual machine uses

    The operations of [github.com/holiman/uint256] that only the instructions
    of the virtual machine call, as a second class over [Uint256] with the laws
    of their documentation: signed arithmetic is two's complement, division by
    zero gives zero, shifts take a [uint].  [derived_Ops] is an instance over
    any [Uint256], which the witnesses evaluate. *)

From S2P Require Import Prelude Uint256.

(** The sign extension of the low [8 * (k + 1)] bits of [z]. *)
Definition extendSign (k z : Z) : Z :=
  let w := 2 ^ (8 * (k + 1)) in
  if Z.testbit z (8 * k + 7) then z mod w - w else z mod w.

Class Uint256Ops `{U : Uint256} := {
  uSDiv : u256 -> u256 -> u256;
  uSDiv_spec : forall x y,
    uval (uSDiv x y) = if uval y =? 0 then 0 else Z.quot (sint (uval x)) (sint (uval y)) mod two256;
  uMod : u256 -> u256 -> u256;
  uMod_spec : forall x y, uval (uMod x y) = if uval y =? 0 then 0 else uval x mod uval y;
  uSMod : u256 -> u256 -> u256;
  uSMod_spec : forall x y,
    uval (uSMod x y) = if uval y =? 0 then 0 else Z.rem (sint (uval x)) (sint (uval y)) mod two256;
  uExp : u256 -> u256 -> u256;
  uExp_spec : forall x y, uval (uExp x y) = (uval x ^ uval y) mod two256;
  (** [ExtendSign(x, byteNum)] *)
  uExtendSign : u256 -> u256 -> u256;
  uExtendSign_spec : forall x k,
    uval (uExtendSign x k) = if 30 <? uval k then uval x else extendSign (uval k) (uval x) mod two256;
  uNot : u256 -> u256;
  uNot_spec : forall x, uval (uNot x) = two256 - 1 - uval x;
  uAnd : u256 -> u256 -> u256;
  uAnd_spec : forall x y, uval (uAnd x y) = Z.land (uval x) (uval y);
  uOr : u256 -> u256 -> u256;
  uOr_spec : forall x y, uval (uOr x y) = Z.lor (uval x) (uval y);
  uXor : u256 -> u256 -> u256;
  uXor_spec : forall x y, uval (uXor x y) = Z.lxor (uval x) (uval y);
  (** [val.Byte(n)]: the n-th byte, the most significant first *)
  uByte : u256 -> u256 -> u256;
  uByte_spec : forall x n,
    uval (uByte x n) = if uval n <? 32 then uval x / 256 ^ (31 - uval n) mod 256 else 0;
  uAddMod : u256 -> u256 -> u256 -> u256;
  uAddMod_spec : forall x y m,
    uval (uAddMod x y m) = if uval m =? 0 then 0 else (uval x + uval y) mod uval m;
  uMulMod : u256 -> u256 -> u256 -> u256;
  uMulMod_spec : forall x y m,
    uval (uMulMod x y m) = if uval m =? 0 then 0 else (uval x * uval y) mod uval m;
  uLsh : u256 -> Z -> u256;
  uLsh_spec : forall x n, 0 <= n -> uval (uLsh x n) = (uval x * 2 ^ n) mod two256;
  uRsh : u256 -> Z -> u256;
  uRsh_spec : forall x n, 0 <= n -> uval (uRsh x n) = uval x / 2 ^ n;
  (** [SRsh]: the shift copies the sign *)
  uSRsh : u256 -> Z -> u256;
  uSRsh_spec : forall x n, 0 <= n -> uval (uSRsh x n) = (sint (uval x) / 2 ^ n) mod two256
}.

Section Derived.
Context `{U : Uint256}.

(** [Slt], [Sgt], [Sign], [SetOne], [SetAllOne] *)
Definition uSlt (x y : u256) : bool := sint (uval x) <? sint (uval y).
Definition uSgt (x y : u256) : bool := sint (uval y) <? sint (uval x).
Definition uSign (x : u256) : Z := Z.sgn (sint (uval x)).
Definition uone : u256 := uSetUint64 1.
Definition uallOne : u256 := (uFromBig (two256 - 1)).1.

(** The number with the value [z] modulo 2^256. *)
Definition ofZ (z : Z) : u256 := (uFromBig (z mod two256)).1.

Lemma ofZ_spec z : uval (ofZ z) = z mod two256.
Proof.
  unfold ofZ. pose proof (Z.mod_pos_bound z two256 ltac:(done)) as Hb.
  destruct (uFromBig_spec (z mod two256) ltac:(lia)) as [-> _]. apply Z.mod_mod. done.
Qed.

Lemma ofZ_small z : in_u256 z -> uval (ofZ z) = z.
Proof. intros H. rewrite ofZ_spec. by apply Z.mod_small. Qed.

Lemma in_u256_nonneg z : in_u256 z <-> 0 <= z /\ Z.log2 z < 256.
Proof.
  unfold in_u256, two256. split; intros [H1 H2].
  - destruct (Z.eq_dec z 0) as [->|]; [done|]. split; [done|]. apply Z.log2_lt_pow2; lia.
  - destruct (Z.eq_dec z 0) as [->|]; [done|]. split; [done|]. apply Z.log2_lt_pow2; lia.
Qed.

Definition derived_Ops : Uint256Ops.
Proof.
  refine {|
    uSDiv := fun x y => ofZ (if uval y =? 0 then 0 else Z.quot (sint (uval x)) (sint (uval y)));
    uMod := fun x y => ofZ (if uval y =? 0 then 0 else uval x mod uval y);
    uSMod := fun x y => ofZ (if uval y =? 0 then 0 else Z.rem (sint (uval x)) (sint (uval y)));
    uExp := fun x y => ofZ (uval x ^ uval y);
    uExtendSign := fun x k => ofZ (if 30 <? uval k then uval x else extendSign (uval k) (uval x));
    uNot := fun x => ofZ (two256 - 1 - uval x);
    uAnd := fun x y => ofZ (Z.land (uval x) (uval y));
    uOr := fun x y => ofZ (Z.lor (uval x) (uval y));
    uXor := fun x y => ofZ (Z.lxor (uval x) (uval y));
    uByte := fun x n => ofZ (if uval n <? 32 then uval x / 256 ^ (31 - uval n) mod 256 else 0);
    uAddMod := fun x y m => ofZ (if uval m =? 0 then 0 else (uval x + uval y) mod uval m);
    uMulMod := fun x y m => ofZ (if uval m =? 0 then 0 else (uval x * uval y) mod uval m);
    uLsh := fun x n => ofZ (uval x * 2 ^ n);
    uRsh := fun x n => ofZ (uval x / 2 ^ n);
    uSRsh := fun x n => ofZ (sint (uval x) / 2 ^ n)
  |}.
  - intros. rewrite ofZ_spec. by case_match.
  - intros. destruct (Z.eqb_spec (uval y) 0); [by rewrite ofZ_spec|]. apply ofZ_small.
    pose proof (uval_range x) as [??]. pose proof (uval_range y) as [??].
    pose proof (Z.mod_pos_bound (uval x) (uval y) ltac:(lia)). split; lia.
  - intros. rewrite ofZ_spec. by case_match.
  - intros. by rewrite ofZ_spec.
  - intros. rewrite ofZ_spec. case_match; [|done]. apply Z.mod_small, uval_range.
  - intros. apply ofZ_small. pose proof (uval_range x) as [??]. split; lia.
  - intros. apply ofZ_small. pose proof (uval_range x) as Hx. pose proof (uval_range y) as Hy.
    apply in_u256_nonneg in Hx as [Hx1 Hx2]. apply in_u256_nonneg in Hy as [Hy1 Hy2].
    apply in_u256_nonneg. split; [apply Z.land_nonneg; lia|]. pose proof (Z.log2_land (uval x) (uval y) Hx1 Hy1). lia.
  - intros. apply ofZ_small. pose proof (uval_range x) as Hx. pose proof (uval_range y) as Hy.
    apply in_u256_nonneg in Hx as [Hx1 Hx2]. apply in_u256_nonneg in Hy as [Hy1 Hy2].
    apply in_u256_nonneg. split; [apply Z.lor_nonneg; lia|]. rewrite Z.log2_lor; lia.
  - intros. apply ofZ_small. pose proof (uval_range x) as Hx. pose proof (uval_range y) as Hy.
    apply in_u256_nonneg in Hx as [Hx1 Hx2]. apply in_u256_nonneg in Hy as [Hy1 Hy2].
    apply in_u256_nonneg. split; [apply Z.lxor_nonneg; lia|]. pose proof (Z.log2_lxor (uval x) (uval y) Hx1 Hy1). lia.
  - intros. case_match; [|by rewrite ofZ_spec]. apply ofZ_small.
    pose proof (Z.mod_pos_bound (uval x / 256 ^ (31 - uval n)) 256 ltac:(lia)). split; [lia|].
    unfold two256. lia.
  - intros. destruct (Z.eqb_spec (uval m) 0); [by rewrite ofZ_spec|]. apply ofZ_small.
    pose proof (uval_range m) as [??]. pose proof (Z.mod_pos_bound (uval x + uval y) (uval m) ltac:(lia)). split; lia.
  - intros. destruct (Z.eqb_spec (uval m) 0); [by rewrite ofZ_spec|]. apply ofZ_small.
    pose proof (uval_range m) as [??]. pose proof (Z.mod_pos_bound (uval x * uval y) (uval m) ltac:(lia)). split; lia.
  - intros. by rewrite ofZ_spec.
  - intros. apply ofZ_small. pose proof (uval_range x) as [??]. split; [apply Z.div_pos; lia|].
    assert (uval x / 2 ^ n <= uval x) by (apply Z.div_le_upper_bound; nia). lia.
  - intros. by rewrite ofZ_spec.
Defined.

End Derived.
