(* ===== verification/EvmGas.v ===== *)
(** * EvmGas: dynamic gas ([internal/vm/gas_table.go], [operations_acl.go])

    The state of a frame ([vm]) and the monad [vmM] of the code that runs in it.  A
    gas function returns its cost or an error and may panic, in the monad
    [vmM].  What the SSTORE functions charge is proved in [EvmStorage.v]. *)

From S2P Require Import Prelude Uint256 ChainConfig AccessList StateModel Analysis EvmMemory.

(** [params/protocol_params.go] *)
Definition CopyGas : Z := 3.
Definition LogGas : Z := 375.
Definition LogTopicGas : Z := 375.
Definition LogDataGas : Z := 8.
Definition Keccak256WordGas : Z := 6.
Definition MaxInitCodeSize : Z := 2 * 24576.
Definition InitCodeWordGas : Z := 2.
Definition ExpGas : Z := 10.
Definition ExpByteFrontier : Z := 10.
Definition ExpByteEIP160 : Z := 50.
Definition CallNewAccountGas : Z := 25000.
Definition CallValueTransferGas : Z := 9000.
Definition SelfdestructGasEIP150 : Z := 5000.
Definition CreateBySelfdestructGas : Z := 25000.
Definition SelfdestructRefundGas : Z := 24000.
Definition SstoreSetGas : Z := 20000.
Definition SstoreClearGas : Z := 5000.
Definition SstoreResetGas : Z := 5000.
Definition SstoreRefundGas : Z := 15000.
Definition NetSstoreNoopGas : Z := 200.
Definition NetSstoreInitGas : Z := 20000.
Definition NetSstoreCleanGas : Z := 5000.
Definition NetSstoreDirtyGas : Z := 200.
Definition NetSstoreClearRefund : Z := 15000.
Definition NetSstoreResetRefund : Z := 4800.
Definition NetSstoreResetClearRefund : Z := 19800.
Definition SstoreSentryGasEIP2200 : Z := 2300.
Definition SstoreSetGasEIP2200 : Z := 20000.
Definition SstoreResetGasEIP2200 : Z := 5000.
Definition SstoreClearsScheduleRefundEIP2200 : Z := 15000.
Definition SstoreClearsScheduleRefundEIP3529 : Z := 4800.
Definition SloadGasEIP2200 : Z := 800.
Definition ColdAccountAccessCostEIP2929 : Z := 2600.
Definition ColdSloadCostEIP2929 : Z := 2100.
Definition WarmStorageReadCostEIP2929 : Z := 100.

Definition ErrOutOfGas : error := "out of gas".
Definition errSentry : error := "not enough gas for reentrancy sentry".

Section Vm.
Context `{U : Uint256} `{E : @StateEnv U}.

(** [common.Address(x.Bytes20())] and [common.Hash(x.Bytes32())] *)
Definition uBytes20 (x : u256) : Address := uval x mod 2 ^ 160.
Definition uHash (x : u256) : Hash := uval x.
Definition uBitLen (x : u256) : Z := if uval x =? 0 then 0 else Z.log2 (uval x) + 1.
Definition uEq (x y : u256) : bool := uval x =? uval y.

(** What changes while a frame runs: the fields of [EVM] and [EVMInterpreter]
    that all frames share (the first three), then the gas left, the memory, the
    stack (from its top), the program counter and the code with its jump
    analysis. *)
Record vm := mkVm {
  ibs : IntraBlockState;
  callGasTemp : Z;
  returnData : list Z;
  cgas : Z;
  mem : Memory.Memory;
  stack : list u256;
  pc : Z;
  contract : Analysis.Contract
}.

Definition set_ibs s v := mkVm s (callGasTemp v) (returnData v) (cgas v) (mem v) (stack v) (pc v) (contract v).
Definition set_callGasTemp g v := mkVm (ibs v) g (returnData v) (cgas v) (mem v) (stack v) (pc v) (contract v).
Definition set_returnData d v := mkVm (ibs v) (callGasTemp v) d (cgas v) (mem v) (stack v) (pc v) (contract v).
Definition set_cgas g v := mkVm (ibs v) (callGasTemp v) (returnData v) g (mem v) (stack v) (pc v) (contract v).
Definition set_mem m v := mkVm (ibs v) (callGasTemp v) (returnData v) (cgas v) m (stack v) (pc v) (contract v).
Definition set_stack st v := mkVm (ibs v) (callGasTemp v) (returnData v) (cgas v) (mem v) st (pc v) (contract v).
Definition set_pc n v := mkVm (ibs v) (callGasTemp v) (returnData v) (cgas v) (mem v) (stack v) n (contract v).
Definition set_contract c v := mkVm (ibs v) (callGasTemp v) (returnData v) (cgas v) (mem v) (stack v) (pc v) c.

(** State, errors and panics. *)
Definition vmM (A : Type) : Type := vm -> outcome (vm * (A + error)).

#[export] Instance vmM_ret : MRet vmM := fun A a v => Ok (v, inl a).
#[export] Instance vmM_bind : MBind vmM := fun A B f m v =>
  match m v with
  | Ok (v, inl a) => f a v
  | Ok (v, inr e) => Ok (v, inr e)
  | Err e => Err e
  | Panic => Panic
  end.

Definition throw {A} (e : error) : vmM A := fun v => Ok (v, inr e).
Definition lift {A} (o : outcome A) : vmM A := fun v =>
  match o with Ok a => Ok (v, inl a) | Err e => Ok (v, inr e) | Panic => Panic end.
Definition gets {A} (f : vm -> A) : vmM A := fun v => Ok (v, inl (f v)).
Definition modify (f : vm -> vm) : vmM unit := fun v => Ok (f v, inl tt).
Definition back (n : nat) : vmM u256 := fun v => lift (Stack.Back (stack v) n) v.
(** A read of the intra-block state, which may fill its caches. *)
Definition reading {A} (f : IntraBlockState -> IntraBlockState * A) : vmM A := fun v =>
  let '(s, a) := f (ibs v) in Ok (set_ibs s v, inl a).
Definition writes (f : IntraBlockState -> IntraBlockState) : vmM unit := modify (fun v => set_ibs (f (ibs v)) v).
Definition writes_opt (f : IntraBlockState -> option IntraBlockState) : vmM unit := fun v =>
  match f (ibs v) with Some s => Ok (set_ibs s v, inl tt) | None => Panic end.

(** [if gas, overflow = math.SafeAdd(..); overflow { return 0, ErrGasUintOverflow }] *)
Definition checked (r : Z * bool) : vmM Z := if r.2 then throw ErrGasUintOverflow else mret r.1.
Definition uint64Of (x : u256) : vmM Z := checked (uUint64WithOverflow x).

Definition memGas (size : Z) : vmM Z := fun v =>
  let '(m, r) := memoryGasCost (mem v) size in Ok (set_mem m v, r).

(** [Contract.UseGas] *)
Definition useGas (g : Z) : vmM bool := fun v =>
  if cgas v <? g then Ok (v, inl false) else Ok (set_cgas (cgas v -u g) v, inl true).

(** Running a computation one step at a time. *)
Lemma bind_inl {A B} (m : vmM A) (f : A -> vmM B) v w a : m v = Ok (w, inl a) -> (m ≫= f) v = f a w.
Proof. intros H. unfold mbind, vmM_bind. by rewrite H. Qed.

Lemma bind_inv {A B} (m : vmM A) (f : A -> vmM B) v w r :
  (m ≫= f) v = Ok (w, r) ->
  (exists u a, m v = Ok (u, inl a) /\ f a u = Ok (w, r)) \/ (exists e, m v = Ok (w, inr e) /\ r = inr e).
Proof.
  unfold mbind, vmM_bind. intros H. destruct (m v) as [[u [a|e]]| |]; simplify_eq; eauto 6.
Qed.

Lemma back_at v n x : stack v !! n = Some x -> back n v = Ok (v, inl x).
Proof. intros H. unfold back, Stack.Back. by rewrite H. Qed.

Lemma reading_at {A} (f : IntraBlockState -> IntraBlockState * A) v s a :
  f (ibs v) = (s, a) -> reading f v = Ok (set_ibs s v, inl a).
Proof. intros H. unfold reading. by rewrite H. Qed.

(** ** [gas_table.go] *)

Definition memoryCopierGas (stackpos : nat) (memorySize : Z) : vmM Z :=
  gas ← memGas memorySize;
  w ← back stackpos;
  n ← uint64Of w;
  words ← checked (SafeMul (ToWordSize n) CopyGas);
  checked (SafeAdd gas words).

Definition gasCallDataCopy := memoryCopierGas 2.
Definition gasCodeCopy := memoryCopierGas 2.
Definition gasExtCodeCopy := memoryCopierGas 3.
Definition gasReturnDataCopy := memoryCopierGas 2.

Definition makeGasLog (n : Z) (memorySize : Z) : vmM Z :=
  w ← back 1;
  requestedSize ← uint64Of w;
  gas ← memGas memorySize;
  gas ← checked (SafeAdd gas LogGas);
  gas ← checked (SafeAdd gas (n *u LogTopicGas));
  memorySizeGas ← checked (SafeMul requestedSize LogDataGas);
  checked (SafeAdd gas memorySizeGas).

Definition gasKeccak256 (memorySize : Z) : vmM Z :=
  gas ← memGas memorySize;
  w ← back 1;
  n ← uint64Of w;
  wordGas ← checked (SafeMul (ToWordSize n) Keccak256WordGas);
  checked (SafeAdd gas wordGas).

Definition pureMemoryGascost (memorySize : Z) : vmM Z := memGas memorySize.

Definition gasCreate2 (memorySize : Z) : vmM Z :=
  gas ← memGas memorySize;
  w ← back 2;
  len ← uint64Of w;
  wordGas ← checked (SafeMul (ToWordSize len) Keccak256WordGas);
  checked (SafeAdd gas wordGas).

Definition initCodeGas (perWord : Z) (memorySize : Z) : vmM Z :=
  gas ← memGas memorySize;
  w ← back 2;
  let '(len, overflow) := uUint64WithOverflow w in
  if overflow || (MaxInitCodeSize <? len) then throw ErrGasUintOverflow
  else checked (SafeAdd gas (perWord *u ToWordSize len)).

Definition gasCreateEip3860 := initCodeGas InitCodeWordGas.
Definition gasCreate2Eip3860 := initCodeGas (InitCodeWordGas + Keccak256WordGas).

Definition gasExp (byteGas : Z) (memorySize : Z) : vmM Z :=
  e ← back 1;
  let expByteLen := (uBitLen e + 7) / 8 in
  checked (SafeAdd (expByteLen *u byteGas) ExpGas).

Definition gasExpFrontier := gasExp ExpByteFrontier.
Definition gasExpEIP160 := gasExp ExpByteEIP160.

Section Rules.
Variable rules : Rules.Rules.
Variable self : Address.

(** The shared end of the gas functions of calls: the share of the gas that
    goes with the call, which is also part of the cost. *)
Definition finishCallGas (gas : Z) : vmM Z :=
  req ← back 0;
  avail ← gets cgas;
  let '(temp, err) := callGas (Rules.IsTangerineWhistle rules) avail gas req in
  _ ← modify (set_callGasTemp temp);
  match err with
  | Some e => throw e
  | None => checked (SafeAdd gas temp)
  end.

Definition gasCall (memorySize : Z) : vmM Z :=
  w ← back 2;
  let transfersValue := negb (uIsZero w) in
  a ← back 1;
  let address := uBytes20 a in
  gas ← (if Rules.IsSpuriousDragon rules then
           if transfersValue then
             e ← reading (fun s => Empty s address);
             mret (if e : bool then CallNewAccountGas else 0)
           else mret 0
         else
           x ← reading (fun s => Exist s address);
           mret (if x : bool then 0 else CallNewAccountGas));
  let gas := if transfersValue then gas +u CallValueTransferGas else gas in
  memoryGas ← memGas memorySize;
  gas ← checked (SafeAdd gas memoryGas);
  finishCallGas gas.

Definition gasCallCode (memorySize : Z) : vmM Z :=
  memoryGas ← memGas memorySize;
  w ← back 2;
  let gas := if uIsZero w then 0 else CallValueTransferGas in
  gas ← checked (SafeAdd gas memoryGas);
  finishCallGas gas.

Definition gasDelegateCall (memorySize : Z) : vmM Z := gas ← memGas memorySize; finishCallGas gas.
Definition gasStaticCall (memorySize : Z) : vmM Z := gas ← memGas memorySize; finishCallGas gas.

Definition gasSelfdestruct (memorySize : Z) : vmM Z :=
  gas ← (if Rules.IsTangerineWhistle rules then
           a ← back 0;
           let address := uBytes20 a in
           if Rules.IsSpuriousDragon rules then
             e ← reading (fun s => Empty s address);
             if e : bool then
               b ← reading (fun s => GetBalance s self);
               mret (SelfdestructGasEIP150 + if uIsZero b then 0 else CreateBySelfdestructGas)
             else mret SelfdestructGasEIP150
           else
             x ← reading (fun s => Exist s address);
             mret (SelfdestructGasEIP150 + if x : bool then 0 else CreateBySelfdestructGas)
         else mret 0);
  d ← reading (fun s => HasSuicided s self);
  _ ← (if d : bool then mret tt else writes (fun s => AddRefund s SelfdestructRefundGas));
  mret gas.

(** ** SSTORE *)

Definition addRefund (g : Z) : vmM unit := writes (fun s => AddRefund s g).
Definition subRefund (g : Z) : vmM unit := writes (fun s => SubRefund s g).
Definition when (b : bool) (m : vmM unit) : vmM unit := if b then m else mret tt.

Definition gasSStore (memorySize : Z) : vmM Z :=
  value ← back 1;
  x ← back 0;
  let key := uHash x in
  current ← reading (fun s => GetState s self key);
  if Rules.IsPetersburg rules || negb (Rules.IsConstantinople rules) then
    if uIsZero current && negb (uIsZero value) then mret SstoreSetGas
    else if negb (uIsZero current) && uIsZero value then
      _ ← addRefund SstoreRefundGas; mret SstoreClearGas
    else mret SstoreResetGas
  else if uEq current value then mret NetSstoreNoopGas
  else
    original ← reading (fun s => GetCommittedState s self key);
    if uEq original current then
      if uIsZero original then mret NetSstoreInitGas
      else _ ← when (uIsZero value) (addRefund NetSstoreClearRefund); mret NetSstoreCleanGas
    else
      _ ← when (negb (uIsZero original))
            (if uIsZero current then subRefund NetSstoreClearRefund
             else when (uIsZero value) (addRefund NetSstoreClearRefund));
      _ ← when (uEq original value)
            (if uIsZero original then addRefund NetSstoreResetClearRefund else addRefund NetSstoreResetRefund);
      mret NetSstoreDirtyGas.

Definition gasSStoreEIP2200 (memorySize : Z) : vmM Z :=
  g ← gets cgas;
  if g <=? SstoreSentryGasEIP2200 then throw errSentry
  else
    value ← back 1;
    x ← back 0;
    let key := uHash x in
    current ← reading (fun s => GetState s self key);
    if uEq current value then mret SloadGasEIP2200
    else
      original ← reading (fun s => GetCommittedState s self key);
      if uEq original current then
        if uIsZero original then mret SstoreSetGasEIP2200
        else _ ← when (uIsZero value) (addRefund SstoreClearsScheduleRefundEIP2200); mret SstoreResetGasEIP2200
      else
        _ ← when (negb (uIsZero original))
              (if uIsZero current then subRefund SstoreClearsScheduleRefundEIP2200
               else when (uIsZero value) (addRefund SstoreClearsScheduleRefundEIP2200));
        _ ← when (uEq original value)
              (if uIsZero original then addRefund (SstoreSetGasEIP2200 - SloadGasEIP2200)
               else addRefund (SstoreResetGasEIP2200 - SloadGasEIP2200));
        mret SloadGasEIP2200.

(** ** [operations_acl.go] *)

Definition makeGasSStoreFunc (clearingRefund : Z) (memorySize : Z) : vmM Z :=
  g ← gets cgas;
  if g <=? SstoreSentryGasEIP2200 then throw errSentry
  else
    y ← back 1;
    x ← back 0;
    let slot := uHash x in
    current ← reading (fun s => GetState s self slot);
    '(addrPresent, slotPresent) ← (fun v => lift (or_panic (SlotInAccessList (ibs v) self slot)) v);
    cost ← (if slotPresent : bool then mret 0
            else
              _ ← writes_opt (fun s => AddSlotToAccessList s self slot);
              if addrPresent : bool then mret ColdSloadCostEIP2929 else lift Panic);
    let value := y in
    if uEq current value then mret (cost + WarmStorageReadCostEIP2929)
    else
      original ← reading (fun s => GetCommittedState s self slot);
      if uEq original current then
        if uIsZero original then mret (cost + SstoreSetGasEIP2200)
        else
          _ ← when (uIsZero value) (addRefund clearingRefund);
          mret (cost + (SstoreResetGasEIP2200 - ColdSloadCostEIP2929))
      else
        _ ← when (negb (uIsZero original))
              (if uIsZero current then subRefund clearingRefund
               else when (uIsZero value) (addRefund clearingRefund));
        _ ← when (uEq original value)
              (if uIsZero original then addRefund (SstoreSetGasEIP2200 - WarmStorageReadCostEIP2929)
               else addRefund ((SstoreResetGasEIP2200 - ColdSloadCostEIP2929) - WarmStorageReadCostEIP2929));
        mret (cost + WarmStorageReadCostEIP2929).

Definition gasSStoreEIP2929 := makeGasSStoreFunc SstoreClearsScheduleRefundEIP2200.
Definition gasSStoreEIP3529 := makeGasSStoreFunc SstoreClearsScheduleRefundEIP3529.

Definition gasSLoadEIP2929 (memorySize : Z) : vmM Z :=
  loc ← back 0;
  let slot := uHash loc in
  '(_, slotPresent) ← (fun v => lift (or_panic (SlotInAccessList (ibs v) self slot)) v);
  if slotPresent : bool then mret WarmStorageReadCostEIP2929
  else _ ← writes_opt (fun s => AddSlotToAccessList s self slot); mret ColdSloadCostEIP2929.

Definition gasExtCodeCopyEIP2929 (memorySize : Z) : vmM Z :=
  gas ← gasExtCodeCopy memorySize;
  a ← back 0;
  let addr := uBytes20 a in
  warm ← gets (fun v => AddressInAccessList (ibs v) addr);
  if warm : bool then mret gas
  else
    _ ← writes (fun s => AddAddressToAccessList s addr);
    checked (SafeAdd gas (ColdAccountAccessCostEIP2929 - WarmStorageReadCostEIP2929)).

Definition gasEip2929AccountCheck (memorySize : Z) : vmM Z :=
  a ← back 0;
  let addr := uBytes20 a in
  warm ← gets (fun v => AddressInAccessList (ibs v) addr);
  if warm : bool then mret 0
  else
    _ ← writes (fun s => AddAddressToAccessList s addr);
    mret (ColdAccountAccessCostEIP2929 - WarmStorageReadCostEIP2929).

Definition makeCallVariantGasCallEIP2929 (oldCalculator : Z -> vmM Z) (memorySize : Z) : vmM Z :=
  a ← back 1;
  let addr := uBytes20 a in
  warmAccess ← gets (fun v => AddressInAccessList (ibs v) addr);
  let coldCost := ColdAccountAccessCostEIP2929 - WarmStorageReadCostEIP2929 in
  if warmAccess : bool then oldCalculator memorySize
  else
    _ ← writes (fun s => AddAddressToAccessList s addr);
    ok ← useGas coldCost;
    if negb ok then throw ErrOutOfGas
    else
      gas ← oldCalculator memorySize;
      _ ← modify (fun v => set_cgas (cgas v +u coldCost) v);
      mret (gas +u coldCost).

Definition gasCallEIP2929 := makeCallVariantGasCallEIP2929 gasCall.
Definition gasDelegateCallEIP2929 := makeCallVariantGasCallEIP2929 gasDelegateCall.
Definition gasStaticCallEIP2929 := makeCallVariantGasCallEIP2929 gasStaticCall.
Definition gasCallCodeEIP2929 := makeCallVariantGasCallEIP2929 gasCallCode.

Definition makeSelfdestructGasFn (refundsEnabled : bool) (memorySize : Z) : vmM Z :=
  a ← back 0;
  let address := uBytes20 a in
  warm ← gets (fun v => AddressInAccessList (ibs v) address);
  gas ← (if warm : bool then mret 0
         else _ ← writes (fun s => AddAddressToAccessList s address); mret ColdAccountAccessCostEIP2929);
  e ← reading (fun s => Empty s address);
  gas ← (if e : bool then
           b ← reading (fun s => GetBalance s self);
           mret (if uIsZero b then gas else gas +u CreateBySelfdestructGas)
         else mret gas);
  _ ← (if refundsEnabled then
         d ← reading (fun s => HasSuicided s self);
         if d : bool then mret tt else addRefund SelfdestructRefundGas
       else mret tt);
  mret gas.

Definition gasSelfdestructEIP2929 := makeSelfdestructGasFn true.
Definition gasSelfdestructEIP3529 := makeSelfdestructGasFn false.

End Rules.
End Vm.
