(* ===== verification/Instructions.v ===== *)
(** * Instructions: what the opcodes do ([internal/vm/instructions.go], [eips.go])

    One definition per function of the two files.  An instruction returns its
    result and an error, which may both be present (RETURN, REVERT); [throw]
    is [return nil, err].  The calls an instruction makes into the virtual
    machine ([Call], [Create], ...) are the record [Calls], which the
    interpreter ties to its own loop.  Tracer calls and the log lines of
    invalid jumps are left out. *)

From S2P Require Import Prelude Uint256 ChainConfig AccessList StateModel Analysis EvmMemory Words EvmGas.

Definition ErrCodeStoreOutOfGas : error := "contract creation code storage out of gas".
Definition ErrDepth : error := "max call depth exceeded".
Definition ErrInsufficientBalance : error := "insufficient balance for transfer".
Definition ErrContractAddressCollision : error := "contract address collision".
Definition ErrExecutionReverted : error := "execution reverted".
Definition ErrMaxCodeSizeExceeded : error := "max code size exceeded".
Definition ErrInvalidJump : error := "invalid jump destination".
Definition ErrWriteProtection : error := "write protection".
Definition ErrReturnDataOutOfBounds : error := "return data out of bounds".
Definition ErrInvalidCode : error := "invalid code".
Definition ErrNonceUintOverflow : error := "nonce uint64 overflow".
Definition errStopToken : error := "stop token".
Definition ErrInvalidOpCode : error := "invalid opcode".
Definition errDifficulty : error := "interpreter.evm.Context.Difficulty higher than 2^256-1".

Definition CallStipend : Z := 2300.

Section Environment.
Context `{U : Uint256}.

(** [evmtypes.BlockContext] and [TxContext] *)
Record BlockContext := {
  GetHash : Z -> Hash;
  Coinbase : Address;
  GasLimit : Z;
  MaxGasLimit : bool;
  BlockNumber : Z;
  Time : Z;
  Difficulty : Z;
  BaseFee : u256;
  PrevRanDao : option Hash
}.

Record TxContext := { Origin : Address; TxGasPrice : u256 }.

(** [vm.Config] without tracing and the fields other packages read *)
Record Config := {
  NoRecursion : bool;
  SkipAnalysis : bool;
  RestoreState : bool;
  ExtraEips : list Z
}.

(** [PrecompiledContract] *)
Record PrecompiledContract := {
  RequiredGas : list Z -> Z;
  RunPrecompile : list Z -> list Z * option error
}.

(** The part of [EVM] that does not change during a transaction.  [precompile]
    is the table of the fork; [Cancelled] answers whether another thread has
    cancelled the execution, given depth, step number and gas of a frame. *)
Record EVM := {
  context : BlockContext;
  txContext : TxContext;
  chainRules : Rules.Rules;
  config : Config;
  precompile : Address -> option PrecompiledContract;
  Cancelled : Z -> Z -> Z -> bool
}.

(** What stays the same in a frame: the fields of [Contract] but code, analysis
    and gas, the [readOnly] flag and the depth of the interpreter. *)
Record Frame := {
  CallerAddress : Address;
  self : Address;
  Input : list Z;
  value : u256;
  readOnly : bool;
  depth : Z
}.

End Environment.

Section Instructions.
Context `{U : Uint256} `{W : @Uint256Ops U} `{E : @StateEnv U}.

(** The calls of an instruction into [EVM], from a frame: data, gas left, error. *)
Record Calls := {
  Call : Address -> list Z -> Z -> u256 -> vmM (list Z * Z * option error);
  CallCode : Address -> list Z -> Z -> u256 -> vmM (list Z * Z * option error);
  DelegateCall : Address -> list Z -> Z -> vmM (list Z * Z * option error);
  StaticCall : Address -> list Z -> Z -> vmM (list Z * Z * option error);
  Create : list Z -> Z -> u256 -> vmM (list Z * Address * Z * option error);
  Create2 : list Z -> Z -> u256 -> u256 -> vmM (list Z * Address * Z * option error)
}.

Variable evm : EVM.
Variable fr : Frame.
Variable calls : Calls.

(** [([]byte, error)] *)
Definition exec : Type := vmM (list Z * option error).

Definition done : exec := mret ([], None).
Definition halt (ret : list Z) (e : error) : exec := mret (ret, Some e).

Definition pop : vmM u256 := fun v =>
  match Stack.Pop (stack v) with
  | Ok (x, st) => Ok (set_stack st v, inl x)
  | Err e => Ok (v, inr e)
  | Panic => Panic
  end.
Definition peek : vmM u256 := fun v => lift (Stack.Peek (stack v)) v.
Definition push (x : u256) : vmM unit := modify (fun v => set_stack (Stack.Push (stack v) x) v).
(** Writing through the pointer of [Peek]. *)
Definition setTop (x : u256) : vmM unit := fun v =>
  match Stack.SetTop (stack v) x with
  | Ok st => Ok (set_stack st v, inl tt)
  | Err e => Ok (v, inr e)
  | Panic => Panic
  end.

Definition uOfHash (h : Hash) : u256 := uSetBytes (be_bytes 32 h).
Definition uOfAddress (a : Address) : u256 := uSetBytes (be_bytes 20 a).
Definition uOfBool (b : bool) : u256 := if b then uone else uzero.

(** ** Arithmetic *)

Definition opAdd : exec := x ← pop; y ← peek; _ ← setTop (uAdd x y); done.
Definition opSub : exec := x ← pop; y ← peek; _ ← setTop (uSub x y); done.
Definition opMul : exec := x ← pop; y ← peek; _ ← setTop (uMul x y); done.
Definition opDiv : exec := x ← pop; y ← peek; _ ← setTop (uDiv x y); done.
Definition opSdiv : exec := x ← pop; y ← peek; _ ← setTop (uSDiv x y); done.
Definition opMod : exec := x ← pop; y ← peek; _ ← setTop (uMod x y); done.
Definition opSmod : exec := x ← pop; y ← peek; _ ← setTop (uSMod x y); done.

Definition opExp : exec :=
  base ← pop;
  exponent ← peek;
  _ ← setTop
    (if uIsZero exponent then uone
     else if uIsZero base then uzero
     else if uval exponent <? 2 then base
     else if uval base <? 2 then uone
     else if uval base <? 3 then
       if uval exponent <? 256 then uLsh uone (uUint64 exponent) else uzero
     else uExp base exponent);
  done.

Definition opSignExtend : exec := back ← pop; num ← peek; _ ← setTop (uExtendSign num back); done.
Definition opNot : exec := x ← peek; _ ← setTop (uNot x); done.
Definition opLt : exec := x ← pop; y ← peek; _ ← setTop (uOfBool (uLt x y)); done.
Definition opGt : exec := x ← pop; y ← peek; _ ← setTop (uOfBool (uGt x y)); done.
Definition opSlt : exec := x ← pop; y ← peek; _ ← setTop (uOfBool (uSlt x y)); done.
Definition opSgt : exec := x ← pop; y ← peek; _ ← setTop (uOfBool (uSgt x y)); done.
Definition opEq : exec := x ← pop; y ← peek; _ ← setTop (uOfBool (uEq x y)); done.
Definition opIszero : exec := x ← peek; _ ← setTop (uOfBool (uIsZero x)); done.
Definition opAnd : exec := x ← pop; y ← peek; _ ← setTop (uAnd x y); done.
Definition opOr : exec := x ← pop; y ← peek; _ ← setTop (uOr x y); done.
Definition opXor : exec := x ← pop; y ← peek; _ ← setTop (uXor x y); done.
Definition opByte : exec := th ← pop; val ← peek; _ ← setTop (uByte val th); done.

Definition opAddmod : exec :=
  x ← pop; y ← pop; z ← peek; _ ← setTop (if uIsZero z then uzero else uAddMod x y z); done.
Definition opMulmod : exec :=
  x ← pop; y ← pop; z ← peek; _ ← setTop (if uIsZero z then uzero else uMulMod x y z); done.

Definition opSHL : exec :=
  shift ← pop; value ← peek;
  _ ← setTop (if uval shift <? 256 then uLsh value (uUint64 shift) else uzero); done.
Definition opSHR : exec :=
  shift ← pop; value ← peek;
  _ ← setTop (if uval shift <? 256 then uRsh value (uUint64 shift) else uzero); done.
Definition opSAR : exec :=
  shift ← pop; value ← peek;
  if 255 <? uval shift then
    _ ← setTop (if 0 <=? uSign value then uzero else uallOne); done
  else _ ← setTop (uSRsh value (uUint64 shift)); done.

(** ** Memory and hashing *)

(** [scope.Memory.GetPtr(int64(offset.Uint64()), int64(size.Uint64()))] *)
Definition getPtr (offset size : u256) : vmM (list Z) := fun v =>
  lift (d ← Memory.GetPtr (mem v) (int64 (uUint64 offset)) (int64 (uUint64 size)); Ok (default [] d)) v.
Definition getCopy (offset size : u256) : vmM (list Z) := fun v =>
  lift (d ← Memory.GetCopy (mem v) (int64 (uUint64 offset)) (int64 (uUint64 size)); Ok (default [] d)) v.
Definition writeMem (f : Memory.Memory -> outcome Memory.Memory) : vmM unit := fun v =>
  match f (mem v) with Ok m => Ok (set_mem m v, inl tt) | Err e => Ok (v, inr e) | Panic => Panic end.

Definition opKeccak256 : exec :=
  offset ← pop; size ← peek;
  data ← getPtr offset size;
  _ ← setTop (uOfHash (Keccak256Hash data)); done.

Definition opPop : exec := _ ← pop; done.

Definition opMload : exec :=
  v ← peek;
  data ← (fun w => lift (d ← Memory.GetPtr (mem w) (int64 (uUint64 v)) 32; Ok (default [] d)) w);
  _ ← setTop (uSetBytes data); done.

Definition opMstore : exec :=
  mStart ← pop; val ← pop;
  _ ← writeMem (fun m => Memory.Set32 m (uUint64 mStart) val); done.

Definition opMstore8 : exec :=
  off ← pop; val ← pop;
  _ ← writeMem (fun m => Memory.SetByte m (uUint64 off) (uUint64 val mod 256)); done.

Definition opMsize : exec := n ← gets (fun v => Memory.Len (mem v)); _ ← push (uSetUint64 n); done.

(** ** The environment *)

Definition opAddress : exec := _ ← push (uOfAddress (self fr)); done.
Definition opBalance : exec :=
  slot ← peek;
  b ← reading (fun s => GetBalance s (uBytes20 slot));
  _ ← setTop b; done.
Definition opOrigin : exec := _ ← push (uOfAddress (Origin (txContext evm))); done.
Definition opCaller : exec := _ ← push (uOfAddress (CallerAddress fr)); done.
Definition opCallValue : exec := _ ← push (value fr); done.

Definition opCallDataLoad : exec :=
  x ← peek;
  let '(offset, overflow) := uUint64WithOverflow x in
  if overflow then _ ← setTop uzero; done
  else data ← lift (getData (Input fr) offset 32); _ ← setTop (uSetBytes data); done.

Definition opCallDataSize : exec := _ ← push (uSetUint64 (Z.of_nat (length (Input fr)))); done.

Definition opCallDataCopy : exec :=
  memOffset ← pop; dataOffset ← pop; length_ ← pop;
  let '(dataOffset64, overflow) := uUint64WithOverflow dataOffset in
  let dataOffset64 := if overflow then MaxUint64 else dataOffset64 in
  let memOffset64 := uUint64 memOffset in
  let length64 := uUint64 length_ in
  data ← lift (getData (Input fr) dataOffset64 length64);
  _ ← writeMem (fun m => Memory.Set_ m memOffset64 length64 data); done.

Definition opReturnDataSize : exec :=
  n ← gets (fun v => Z.of_nat (length (returnData v))); _ ← push (uSetUint64 n); done.

Definition opReturnDataCopy : exec :=
  memOffset ← pop; dataOffset ← pop; length_ ← pop;
  let '(offset64, overflow) := uUint64WithOverflow dataOffset in
  if overflow then throw ErrReturnDataOutOfBounds
  else
    let '(end_, overflow) := uAddOverflow dataOffset length_ in
    if overflow then throw ErrReturnDataOutOfBounds
    else
      let '(end64, overflow) := uUint64WithOverflow end_ in
      d ← gets returnData;
      if overflow || (Z.of_nat (length d) <? end64) then throw ErrReturnDataOutOfBounds
      else if end64 <? offset64 then lift Panic
      else
        let data := take (Z.to_nat (end64 - offset64)) (drop (Z.to_nat offset64) d) in
        _ ← writeMem (fun m => Memory.Set_ m (uUint64 memOffset) (uUint64 length_) data); done.

Definition opExtCodeSize : exec :=
  slot ← peek;
  n ← reading (fun s => GetCodeSize s (uBytes20 slot));
  _ ← setTop (uSetUint64 n); done.

Definition opCodeSize : exec :=
  n ← gets (fun v => Z.of_nat (length (Analysis.Code (contract v)))); _ ← push (uSetUint64 n); done.

Definition opCodeCopy : exec :=
  memOffset ← pop; codeOffset ← pop; length_ ← pop;
  let '(uint64CodeOffset, overflow) := uUint64WithOverflow codeOffset in
  let uint64CodeOffset := if overflow then MaxUint64 else uint64CodeOffset in
  code ← gets (fun v => Analysis.Code (contract v));
  codeCopy ← lift (getData code uint64CodeOffset (uUint64 length_));
  _ ← writeMem (fun m => Memory.Set_ m (uUint64 memOffset) (uUint64 length_) codeCopy); done.

Definition opExtCodeCopy : exec :=
  a ← pop; memOffset ← pop; codeOffset ← pop; length_ ← pop;
  let len64 := uUint64 length_ in
  code ← reading (fun s => GetCode s (uBytes20 a));
  codeCopy ← lift (getDataBig (from_nil code) codeOffset len64);
  _ ← writeMem (fun m => Memory.Set_ m (uUint64 memOffset) len64 codeCopy); done.

Definition opExtCodeHash : exec :=
  slot ← peek;
  let address := uBytes20 slot in
  e ← reading (fun s => Empty s address);
  if e : bool then _ ← setTop uzero; done
  else h ← reading (fun s => GetCodeHash s address); _ ← setTop (uOfHash h); done.

Definition opGasprice : exec := _ ← push (TxGasPrice (txContext evm)); done.

Definition opBlockhash : exec :=
  num ← peek;
  let '(num64, overflow) := uUint64WithOverflow num in
  if overflow then _ ← setTop uzero; done
  else
    let upper := BlockNumber (context evm) in
    let lower := if upper <? 257 then 0 else upper - 256 in
    if (lower <=? num64) && (num64 <? upper)
    then _ ← setTop (uOfHash (GetHash (context evm) num64)); done
    else _ ← setTop uzero; done.

Definition opCoinbase : exec := _ ← push (uOfAddress (Coinbase (context evm))); done.
Definition opTimestamp : exec := _ ← push (uSetUint64 (Time (context evm))); done.
Definition opNumber : exec := _ ← push (uSetUint64 (BlockNumber (context evm))); done.

Definition opDifficulty : exec :=
  match PrevRanDao (context evm) with
  | Some h => _ ← push (uOfHash h); done
  | None =>
      let '(v, overflow) := uFromBig (Difficulty (context evm)) in
      if overflow then throw errDifficulty else _ ← push v; done
  end.

Definition opGasLimit : exec :=
  if MaxGasLimit (context evm) then _ ← push uallOne; done
  else _ ← push (uSetUint64 (GasLimit (context evm))); done.

Definition opSelfBalance : exec := b ← reading (fun s => GetBalance s (self fr)); _ ← push b; done.
Definition opChainID : exec := _ ← push (uFromBig (Rules.ChainID (chainRules evm))).1; done.
Definition opBaseFee : exec := _ ← push (BaseFee (context evm)); done.
Definition opPush0 : exec := _ ← push uzero; done.

(** ** Storage and control *)

Definition opSload : exec :=
  loc ← peek;
  x ← reading (fun s => GetState s (self fr) (uHash loc));
  _ ← setTop x; done.

Definition opSstore : exec :=
  if readOnly fr then throw ErrWriteProtection
  else
    loc ← pop; val ← pop;
    _ ← writes (fun s => SetState s (self fr) (uHash loc) val); done.

(** [scope.Contract.validJumpdest(&pos)] and the move of the program counter *)
Definition jumpTo (pos : u256) : exec :=
  valid ← (fun v => match Analysis.validJumpdest (contract v) pos with
                    | Ok (r, _, c) => Ok (set_contract c v, inl r)
                    | Err e => Ok (v, inr e)
                    | Panic => Panic
                    end);
  if negb valid then throw ErrInvalidJump
  else _ ← modify (set_pc (uUint64 pos -u 1)); done.

Definition opJump : exec := pos ← pop; jumpTo pos.
Definition opJumpi : exec := pos ← pop; cond ← pop; if negb (uIsZero cond) then jumpTo pos else done.
Definition opJumpdest : exec := done.
Definition opPc : exec := n ← gets pc; _ ← push (uSetUint64 n); done.
Definition opGas : exec := g ← gets cgas; _ ← push (uSetUint64 g); done.

Definition opReturn : exec :=
  offset ← pop; size ← pop;
  ret ← getPtr offset size;
  halt ret errStopToken.

Definition opRevert : exec :=
  offset ← pop; size ← pop;
  ret ← getPtr offset size;
  _ ← modify (set_returnData ret);
  halt ret ErrExecutionReverted.

(** [Code[*pc]] is the byte that selected the instruction. *)
Definition opUndefined : exec :=
  v ← gets (fun v => (Analysis.Code (contract v), pc v));
  _ ← lift (or_panic (v.1 !! Z.to_nat v.2));
  throw ErrInvalidOpCode.

Definition opStop : exec := halt [] errStopToken.

Definition opSelfdestruct : exec :=
  if readOnly fr then throw ErrWriteProtection
  else
    beneficiary ← pop;
    balance ← reading (fun s => GetBalance s (self fr));
    _ ← writes (fun s => AddBalance s (uBytes20 beneficiary) balance);
    _ ← reading (fun s => Suicide s (self fr));
    halt [] errStopToken.

(** ** Calls *)

(** [scope.Contract.Gas += returnGas] *)
Definition returnGas (g : Z) : vmM unit := modify (fun v => set_cgas (cgas v +u g) v).

Definition errIs (err : option error) (e : error) : bool := bool_decide (err = Some e).

Definition opCreate : exec :=
  if readOnly fr then throw ErrWriteProtection
  else
    value ← pop; offset ← pop; size ← peek;
    input ← getCopy offset size;
    gas ← gets cgas;
    let gas := if Rules.IsTangerineWhistle (chainRules evm) then gas -u gas / 64 else gas in
    _ ← useGas gas;
    '(res, addr, retGas, suberr) ← Create calls input gas value;
    _ ← setTop
      (if Rules.IsHomestead (chainRules evm) && errIs suberr ErrCodeStoreOutOfGas then uzero
       else if negb (bool_decide (suberr = None)) && negb (errIs suberr ErrCodeStoreOutOfGas) then uzero
       else uOfAddress addr);
    _ ← returnGas retGas;
    if errIs suberr ErrExecutionReverted then _ ← modify (set_returnData res); mret (res, None)
    else _ ← modify (set_returnData []); done.

Definition opCreate2 : exec :=
  if readOnly fr then throw ErrWriteProtection
  else
    endowment ← pop; offset ← pop; size ← pop; salt ← pop;
    input ← getCopy offset size;
    gas ← gets cgas;
    let gas := gas -u gas / 64 in
    _ ← useGas gas;
    '(res, addr, retGas, suberr) ← Create2 calls input gas endowment salt;
    _ ← push (if bool_decide (suberr = None) then uOfAddress addr else uzero);
    _ ← returnGas retGas;
    if errIs suberr ErrExecutionReverted then _ ← modify (set_returnData res); mret (res, None)
    else _ ← modify (set_returnData []); done.

(** The shared end of the four calls. *)
Definition finishCall (retOffset retSize : u256) (r : list Z * Z * option error) : exec :=
  let '(ret, retGas, err) := r in
  _ ← push (uOfBool (bool_decide (err = None)));
  _ ← (if bool_decide (err = None) || errIs err ErrExecutionReverted
       then writeMem (fun m => Memory.Set_ m (uUint64 retOffset) (uUint64 retSize) ret) else mret tt);
  _ ← returnGas retGas;
  _ ← modify (set_returnData ret);
  mret (ret, None).

Definition opCall : exec :=
  _ ← pop;
  gas ← gets callGasTemp;
  addr ← pop; value ← pop; inOffset ← pop; inSize ← pop; retOffset ← pop; retSize ← pop;
  args ← getPtr inOffset inSize;
  if negb (uIsZero value) && readOnly fr then throw ErrWriteProtection
  else
    let gas := if uIsZero value then gas else gas +u CallStipend in
    r ← Call calls (uBytes20 addr) args gas value;
    finishCall retOffset retSize r.

Definition opCallCode : exec :=
  _ ← pop;
  gas ← gets callGasTemp;
  addr ← pop; value ← pop; inOffset ← pop; inSize ← pop; retOffset ← pop; retSize ← pop;
  args ← getPtr inOffset inSize;
  let gas := if uIsZero value then gas else gas +u CallStipend in
  r ← CallCode calls (uBytes20 addr) args gas value;
  finishCall retOffset retSize r.

Definition opDelegateCall : exec :=
  _ ← pop;
  gas ← gets callGasTemp;
  addr ← pop; inOffset ← pop; inSize ← pop; retOffset ← pop; retSize ← pop;
  args ← getPtr inOffset inSize;
  r ← DelegateCall calls (uBytes20 addr) args gas;
  finishCall retOffset retSize r.

Definition opStaticCall : exec :=
  _ ← pop;
  gas ← gets callGasTemp;
  addr ← pop; inOffset ← pop; inSize ← pop; retOffset ← pop; retSize ← pop;
  args ← getPtr inOffset inSize;
  r ← StaticCall calls (uBytes20 addr) args gas;
  finishCall retOffset retSize r.

(** ** The families *)

Fixpoint popTopics (size : nat) : vmM (list Hash) :=
  match size with
  | O => mret []
  | S n => x ← pop; topics ← popTopics n; mret (uHash x :: topics)
  end.

Definition makeLog (size : nat) : exec :=
  if readOnly fr then throw ErrWriteProtection
  else
    mStart ← pop; mSize ← pop;
    topics ← popTopics size;
    d ← getCopy mStart mSize;
    _ ← writes (fun s => AddLog s {| LogAddress := self fr; Topics := topics; LogData := d;
                                     LogTxHash := 0; LogBlockHash := 0; LogTxIndex := 0; LogIndex := 0 |});
    done.

Definition opPush1 : exec :=
  code ← gets (fun v => Analysis.Code (contract v));
  _ ← modify (fun v => set_pc (pc v +u 1) v);
  n ← gets pc;
  if n <? Z.of_nat (length code)
  then b ← lift (or_panic (code !! Z.to_nat n)); _ ← push (uSetUint64 b); done
  else _ ← push uzero; done.

Definition makePush (size pushByteSize : Z) : exec :=
  code ← gets (fun v => Analysis.Code (contract v));
  n ← gets pc;
  let codeLen := Z.of_nat (length code) in
  let startMin := int64 (n +u 1) in
  let startMin := if codeLen <=? startMin then codeLen else startMin in
  let endMin := if codeLen <=? startMin + pushByteSize then codeLen else startMin + pushByteSize in
  if (startMin <? 0) || (endMin <? startMin) then lift Panic
  else
    let data := take (Z.to_nat (endMin - startMin)) (drop (Z.to_nat startMin) code) in
    _ ← push (uSetBytes (RightPadBytes data pushByteSize));
    _ ← modify (fun v => set_pc (pc v +u size) v);
    done.

Definition makeDup (size : nat) : exec := fun v =>
  match Stack.Dup (stack v) size with
  | Ok st => Ok (set_stack st v, inl ([], None))
  | Err e => Ok (v, inr e)
  | Panic => Panic
  end.

Definition makeSwap (size : nat) : exec := fun v =>
  match Stack.Swap (stack v) (S size) with
  | Ok st => Ok (set_stack st v, inl ([], None))
  | Err e => Ok (v, inr e)
  | Panic => Panic
  end.

End Instructions.
