(* ===== verification/JumpTable.v ===== *)
(** * JumpTable: the instruction sets ([internal/vm/jump_table.go], [eips.go])

    A jump table gives the operation of each of the 256 opcodes: what it
    executes, what it costs, how much it takes from and leaves on the stack.
    Each fork's table is built from the one before, as in the source; the
    tables are functions, so that assigning to an entry is [upd].  The fields
    the interpreter does not read ([isPush], [isSwap], [isDup], [opNum]) are left
    out. *)

From S2P Require Import Prelude Uint256 ChainConfig AccessList StateModel Analysis EvmMemory Words EvmGas Instructions.

(** ** [opcodes.go] *)

Definition STOP : Z := 0x00.
Definition ADD : Z := 0x01.
Definition MUL : Z := 0x02.
Definition SUB : Z := 0x03.
Definition DIV : Z := 0x04.
Definition SDIV : Z := 0x05.
Definition MOD : Z := 0x06.
Definition SMOD : Z := 0x07.
Definition ADDMOD : Z := 0x08.
Definition MULMOD : Z := 0x09.
Definition EXP : Z := 0x0a.
Definition SIGNEXTEND : Z := 0x0b.
Definition LT : Z := 0x10.
Definition GT : Z := 0x11.
Definition SLT : Z := 0x12.
Definition SGT : Z := 0x13.
Definition EQ : Z := 0x14.
Definition ISZERO : Z := 0x15.
Definition AND : Z := 0x16.
Definition OR : Z := 0x17.
Definition XOR : Z := 0x18.
Definition NOT : Z := 0x19.
Definition BYTE : Z := 0x1a.
Definition SHL : Z := 0x1b.
Definition SHR : Z := 0x1c.
Definition SAR : Z := 0x1d.
Definition KECCAK256 : Z := 0x20.
Definition ADDRESS : Z := 0x30.
Definition BALANCE : Z := 0x31.
Definition ORIGIN : Z := 0x32.
Definition CALLER : Z := 0x33.
Definition CALLVALUE : Z := 0x34.
Definition CALLDATALOAD : Z := 0x35.
Definition CALLDATASIZE : Z := 0x36.
Definition CALLDATACOPY : Z := 0x37.
Definition CODESIZE : Z := 0x38.
Definition CODECOPY : Z := 0x39.
Definition GASPRICE : Z := 0x3a.
Definition EXTCODESIZE : Z := 0x3b.
Definition EXTCODECOPY : Z := 0x3c.
Definition RETURNDATASIZE : Z := 0x3d.
Definition RETURNDATACOPY : Z := 0x3e.
Definition EXTCODEHASH : Z := 0x3f.
Definition BLOCKHASH : Z := 0x40.
Definition COINBASE : Z := 0x41.
Definition TIMESTAMP : Z := 0x42.
Definition NUMBER : Z := 0x43.
Definition DIFFICULTY : Z := 0x44.
Definition GASLIMIT : Z := 0x45.
Definition CHAINID : Z := 0x46.
Definition SELFBALANCE : Z := 0x47.
Definition BASEFEE : Z := 0x48.
Definition POP : Z := 0x50.
Definition MLOAD : Z := 0x51.
Definition MSTORE : Z := 0x52.
Definition MSTORE8 : Z := 0x53.
Definition SLOAD : Z := 0x54.
Definition SSTORE : Z := 0x55.
Definition JUMP : Z := 0x56.
Definition JUMPI : Z := 0x57.
Definition PC : Z := 0x58.
Definition MSIZE : Z := 0x59.
Definition GAS : Z := 0x5a.
Definition JUMPDEST : Z := 0x5b.
Definition PUSH0 : Z := 0x5f.
Definition PUSH1 : Z := 0x60.
Definition DUP1 : Z := 0x80.
Definition SWAP1 : Z := 0x90.
Definition LOG0 : Z := 0xa0.
Definition LOG1 : Z := 0xa1.
Definition LOG2 : Z := 0xa2.
Definition LOG3 : Z := 0xa3.
Definition LOG4 : Z := 0xa4.
Definition CREATE : Z := 0xf0.
Definition CALL : Z := 0xf1.
Definition CALLCODE : Z := 0xf2.
Definition RETURN : Z := 0xf3.
Definition DELEGATECALL : Z := 0xf4.
Definition CREATE2 : Z := 0xf5.
Definition STATICCALL : Z := 0xfa.
Definition REVERT : Z := 0xfd.
Definition SELFDESTRUCT : Z := 0xff.

(** ** Constant costs ([gas.go], [params/protocol_params.go]) *)

Definition GasQuickStep : Z := 2.
Definition GasFastestStep : Z := 3.
Definition GasFastStep : Z := 5.
Definition GasMidStep : Z := 8.
Definition GasSlowStep : Z := 10.
Definition GasExtStep : Z := 20.
Definition Keccak256Gas : Z := 30.
Definition JumpdestGas : Z := 1.
Definition CreateGas : Z := 32000.
Definition Create2Gas : Z := 32000.
Definition CallGasFrontier : Z := 40.
Definition CallGasEIP150 : Z := 700.
Definition BalanceGasFrontier : Z := 20.
Definition BalanceGasEIP150 : Z := 400.
Definition BalanceGasEIP1884 : Z := 700.
Definition ExtcodeSizeGasFrontier : Z := 20.
Definition ExtcodeSizeGasEIP150 : Z := 700.
Definition SloadGasFrontier : Z := 50.
Definition SloadGasEIP150 : Z := 200.
Definition SloadGasEIP1884 : Z := 800.
Definition ExtcodeHashGasConstantinople : Z := 400.
Definition ExtcodeHashGasEIP1884 : Z := 700.
Definition ExtcodeCopyBaseFrontier : Z := 20.
Definition ExtcodeCopyBaseEIP150 : Z := 700.
Definition StackLimit : Z := 1024.

Section JumpTable.
Context `{U : Uint256} `{W : @Uint256Ops U} `{E : @StateEnv U}.
Variable evm : EVM.
Variable fr : Frame.
Variable calls : Calls.

Let rules := chainRules evm.

Record operation := mkOperation {
  execute : exec;
  constantGas : Z;
  dynamicGas : option (Z -> vmM Z);
  maxStack : Z;
  numPop : nat;
  numPush : nat;
  memorySize : option (list u256 -> outcome (Z * bool))
}.

Definition op (e : exec) (g : Z) (pops pushes : nat) : operation := mkOperation e g None 0 pops pushes None.
Definition withConst (g : Z) (o : operation) : operation :=
  mkOperation (execute o) g (dynamicGas o) (maxStack o) (numPop o) (numPush o) (memorySize o).
Definition withGas (g : Z -> vmM Z) (o : operation) : operation :=
  mkOperation (execute o) (constantGas o) (Some g) (maxStack o) (numPop o) (numPush o) (memorySize o).
Definition withMax (n : Z) (o : operation) : operation :=
  mkOperation (execute o) (constantGas o) (dynamicGas o) n (numPop o) (numPush o) (memorySize o).
Definition withMemory (f : list u256 -> outcome (Z * bool)) (o : operation) : operation :=
  mkOperation (execute o) (constantGas o) (dynamicGas o) (maxStack o) (numPop o) (numPush o) (Some f).

Definition JumpTable : Type := Z -> operation.

Definition upd (i : Z) (f : operation -> operation) (jt : JumpTable) : JumpTable :=
  fun j => if j =? i then f (jt i) else jt j.
(** [jt[i] = &operation{...}] *)
Definition put (i : Z) (o : operation) : JumpTable -> JumpTable := upd i (fun _ => o).

(** [stack_table.go] *)
Definition maxStackOf (pops pushes : nat) : Z := StackLimit + Z.of_nat pops - Z.of_nat pushes.

(** The panic of [validateAndFillMaxStack]: dynamic memory without dynamic gas. *)
Definition validEntry (o : operation) : bool :=
  match memorySize o, dynamicGas o with Some _, None => false | _, _ => true end.

Definition validateAndFillMaxStack (jt : JumpTable) : JumpTable :=
  fun i => let o := jt i in withMax (maxStackOf (numPop o) (numPush o)) o.

Definition gasReturn := pureMemoryGascost.
Definition gasRevert := pureMemoryGascost.
Definition gasMLoad := pureMemoryGascost.
Definition gasMStore8 := pureMemoryGascost.
Definition gasMStore := pureMemoryGascost.
Definition gasCreate := pureMemoryGascost.

(** ** The frontier table *)

Definition frontierEntries : list (Z * operation) :=
  [(STOP, op opStop 0 0 0);
   (ADD, op opAdd GasFastestStep 2 1);
   (MUL, op opMul GasFastStep 2 1);
   (SUB, op opSub GasFastestStep 2 1);
   (DIV, op opDiv GasFastStep 2 1);
   (SDIV, op opSdiv GasFastStep 2 1);
   (MOD, op opMod GasFastStep 2 1);
   (SMOD, op opSmod GasFastStep 2 1);
   (ADDMOD, op opAddmod GasMidStep 3 1);
   (MULMOD, op opMulmod GasMidStep 3 1);
   (EXP, withGas gasExpFrontier (op opExp 0 2 1));
   (SIGNEXTEND, op opSignExtend GasFastStep 2 1);
   (LT, op opLt GasFastestStep 2 1);
   (GT, op opGt GasFastestStep 2 1);
   (SLT, op opSlt GasFastestStep 2 1);
   (SGT, op opSgt GasFastestStep 2 1);
   (EQ, op opEq GasFastestStep 2 1);
   (ISZERO, op opIszero GasFastestStep 1 1);
   (AND, op opAnd GasFastestStep 2 1);
   (XOR, op opXor GasFastestStep 2 1);
   (OR, op opOr GasFastestStep 2 1);
   (NOT, op opNot GasFastestStep 1 1);
   (BYTE, op opByte GasFastestStep 2 1);
   (KECCAK256, withMemory memoryKeccak256 (withGas gasKeccak256 (op opKeccak256 Keccak256Gas 2 1)));
   (ADDRESS, op (opAddress fr) GasQuickStep 0 1);
   (BALANCE, op opBalance BalanceGasFrontier 1 1);
   (ORIGIN, op (opOrigin evm) GasQuickStep 0 1);
   (CALLER, op (opCaller fr) GasQuickStep 0 1);
   (CALLVALUE, op (opCallValue fr) GasQuickStep 0 1);
   (CALLDATALOAD, op (opCallDataLoad fr) GasFastestStep 1 1);
   (CALLDATASIZE, op (opCallDataSize fr) GasQuickStep 0 1);
   (CALLDATACOPY, withMemory memoryCallDataCopy (withGas gasCallDataCopy (op (opCallDataCopy fr) GasFastestStep 3 0)));
   (CODESIZE, op opCodeSize GasQuickStep 0 1);
   (CODECOPY, withMemory memoryCodeCopy (withGas gasCodeCopy (op opCodeCopy GasFastestStep 3 0)));
   (GASPRICE, op (opGasprice evm) GasQuickStep 0 1);
   (EXTCODESIZE, op opExtCodeSize ExtcodeSizeGasFrontier 1 1);
   (EXTCODECOPY, withMemory memoryExtCodeCopy (withGas gasExtCodeCopy (op opExtCodeCopy ExtcodeCopyBaseFrontier 4 0)));
   (BLOCKHASH, op (opBlockhash evm) GasExtStep 1 1);
   (COINBASE, op (opCoinbase evm) GasQuickStep 0 1);
   (TIMESTAMP, op (opTimestamp evm) GasQuickStep 0 1);
   (NUMBER, op (opNumber evm) GasQuickStep 0 1);
   (DIFFICULTY, op (opDifficulty evm) GasQuickStep 0 1);
   (GASLIMIT, op (opGasLimit evm) GasQuickStep 0 1);
   (POP, op opPop GasQuickStep 1 0);
   (MLOAD, withMemory memoryMLoad (withGas gasMLoad (op opMload GasFastestStep 1 1)));
   (MSTORE, withMemory memoryMStore (withGas gasMStore (op opMstore GasFastestStep 2 0)));
   (MSTORE8, withMemory memoryMStore8 (withGas gasMStore8 (op opMstore8 GasFastestStep 2 0)));
   (SLOAD, op (opSload fr) SloadGasFrontier 1 1);
   (SSTORE, withGas (gasSStore rules (self fr)) (op (opSstore fr) 0 2 0));
   (JUMP, op opJump GasMidStep 1 0);
   (JUMPI, op opJumpi GasSlowStep 2 0);
   (PC, op opPc GasQuickStep 0 1);
   (MSIZE, op opMsize GasQuickStep 0 1);
   (GAS, op opGas GasQuickStep 0 1);
   (JUMPDEST, op opJumpdest JumpdestGas 0 0);
   (PUSH1, op opPush1 GasFastestStep 0 1);
   (LOG0, withMemory memoryLog (withGas (makeGasLog 0) (op (makeLog fr 0) 0 2 0)));
   (LOG1, withMemory memoryLog (withGas (makeGasLog 1) (op (makeLog fr 1) 0 3 0)));
   (LOG2, withMemory memoryLog (withGas (makeGasLog 2) (op (makeLog fr 2) 0 4 0)));
   (LOG3, withMemory memoryLog (withGas (makeGasLog 3) (op (makeLog fr 3) 0 5 0)));
   (LOG4, withMemory memoryLog (withGas (makeGasLog 4) (op (makeLog fr 4) 0 6 0)));
   (CREATE, withMemory memoryCreate (withGas gasCreate (op (opCreate evm fr calls) CreateGas 3 1)));
   (CALL, withMemory memoryCall (withGas (gasCall rules) (op (opCall fr calls) CallGasFrontier 7 1)));
   (CALLCODE, withMemory memoryCall (withGas (gasCallCode rules) (op (opCallCode calls) CallGasFrontier 7 1)));
   (RETURN, withMemory memoryReturn (withGas gasReturn (op opReturn 0 2 0)));
   (SELFDESTRUCT, withGas (gasSelfdestruct rules (self fr)) (op (opSelfdestruct fr) 0 1 0))].

(** PUSH2 to PUSH32, DUP1 to DUP16, SWAP1 to SWAP16 *)
Definition pushEntry (n : nat) : Z * operation :=
  (PUSH1 + Z.of_nat n - 1, op (makePush (Z.of_nat n) (Z.of_nat n)) GasFastestStep 0 1).
Definition dupEntry (n : nat) : Z * operation := (DUP1 + Z.of_nat n - 1, op (makeDup n) GasFastestStep n (S n)).
Definition swapEntry (n : nat) : Z * operation :=
  (SWAP1 + Z.of_nat n - 1, op (makeSwap n) GasFastestStep (S n) (S n)).

Definition frontierTable : list (Z * operation) :=
  frontierEntries ++ map pushEntry (seq 2 31) ++ map dupEntry (seq 1 16) ++ map swapEntry (seq 1 16).

Fixpoint entry (i : Z) (l : list (Z * operation)) : option operation :=
  match l with
  | [] => None
  | (j, o) :: l => if j =? i then Some o else entry i l
  end.

Definition newFrontierInstructionSet : JumpTable :=
  validateAndFillMaxStack (fun i => default (op opUndefined 0 0 0) (entry i frontierTable)).

(** ** The forks *)

Definition newHomesteadInstructionSet : JumpTable :=
  validateAndFillMaxStack
    (put DELEGATECALL
       (withMemory memoryDelegateCall (withGas (gasDelegateCall rules) (op (opDelegateCall calls) CallGasFrontier 6 1)))
       newFrontierInstructionSet).

Definition newTangerineWhistleInstructionSet : JumpTable :=
  validateAndFillMaxStack
    (upd DELEGATECALL (withConst CallGasEIP150)
    (upd CALLCODE (withConst CallGasEIP150)
    (upd CALL (withConst CallGasEIP150)
    (upd EXTCODECOPY (withConst ExtcodeCopyBaseEIP150)
    (upd SLOAD (withConst SloadGasEIP150)
    (upd EXTCODESIZE (withConst ExtcodeSizeGasEIP150)
    (upd BALANCE (withConst BalanceGasEIP150) newHomesteadInstructionSet))))))).

Definition newSpuriousDragonInstructionSet : JumpTable :=
  validateAndFillMaxStack (upd EXP (withGas gasExpEIP160) newTangerineWhistleInstructionSet).

Definition newByzantiumInstructionSet : JumpTable :=
  validateAndFillMaxStack
    (put REVERT (withMemory memoryRevert (withGas gasRevert (op opRevert 0 2 0)))
    (put RETURNDATACOPY
       (withMemory memoryReturnDataCopy (withGas gasReturnDataCopy (op opReturnDataCopy GasFastestStep 3 0)))
    (put RETURNDATASIZE (op opReturnDataSize GasQuickStep 0 1)
    (put STATICCALL
       (withMemory memoryStaticCall (withGas (gasStaticCall rules) (op (opStaticCall calls) CallGasEIP150 6 1)))
       newSpuriousDragonInstructionSet)))).

Definition newConstantinopleInstructionSet : JumpTable :=
  validateAndFillMaxStack
    (put CREATE2 (withMemory memoryCreate2 (withGas gasCreate2 (op (opCreate2 fr calls) Create2Gas 4 1)))
    (put EXTCODEHASH (op opExtCodeHash ExtcodeHashGasConstantinople 1 1)
    (put SAR (op opSAR GasFastestStep 2 1)
    (put SHR (op opSHR GasFastestStep 2 1)
    (put SHL (op opSHL GasFastestStep 2 1) newByzantiumInstructionSet))))).

(** ** [eips.go] *)

Definition enable1884 (jt : JumpTable) : JumpTable :=
  put SELFBALANCE (op (opSelfBalance fr) GasFastStep 0 1)
  (upd EXTCODEHASH (withConst ExtcodeHashGasEIP1884)
  (upd BALANCE (withConst BalanceGasEIP1884)
  (upd SLOAD (withConst SloadGasEIP1884) jt))).

Definition enable1344 (jt : JumpTable) : JumpTable := put CHAINID (op (opChainID evm) GasQuickStep 0 1) jt.

Definition enable2200 (jt : JumpTable) : JumpTable :=
  upd SSTORE (withGas (gasSStoreEIP2200 (self fr))) (upd SLOAD (withConst SloadGasEIP2200) jt).

Definition enable2929 (jt : JumpTable) : JumpTable :=
  upd SELFDESTRUCT (fun o => withGas (gasSelfdestructEIP2929 (self fr)) (withConst SelfdestructGasEIP150 o))
  (upd DELEGATECALL (fun o => withGas (gasDelegateCallEIP2929 rules) (withConst WarmStorageReadCostEIP2929 o))
  (upd STATICCALL (fun o => withGas (gasStaticCallEIP2929 rules) (withConst WarmStorageReadCostEIP2929 o))
  (upd CALLCODE (fun o => withGas (gasCallCodeEIP2929 rules) (withConst WarmStorageReadCostEIP2929 o))
  (upd CALL (fun o => withGas (gasCallEIP2929 rules) (withConst WarmStorageReadCostEIP2929 o))
  (upd BALANCE (fun o => withGas gasEip2929AccountCheck (withConst WarmStorageReadCostEIP2929 o))
  (upd EXTCODEHASH (fun o => withGas gasEip2929AccountCheck (withConst WarmStorageReadCostEIP2929 o))
  (upd EXTCODESIZE (fun o => withGas gasEip2929AccountCheck (withConst WarmStorageReadCostEIP2929 o))
  (upd EXTCODECOPY (fun o => withGas gasExtCodeCopyEIP2929 (withConst WarmStorageReadCostEIP2929 o))
  (upd SLOAD (fun o => withGas (gasSLoadEIP2929 (self fr)) (withConst 0 o))
  (upd SSTORE (withGas (gasSStoreEIP2929 (self fr))) jt)))))))))).

Definition enable3529 (jt : JumpTable) : JumpTable :=
  upd SELFDESTRUCT (withGas (gasSelfdestructEIP3529 (self fr))) (upd SSTORE (withGas (gasSStoreEIP3529 (self fr))) jt).

Definition enable3198 (jt : JumpTable) : JumpTable := put BASEFEE (op (opBaseFee evm) GasQuickStep 0 1) jt.
Definition enable3855 (jt : JumpTable) : JumpTable := put PUSH0 (op opPush0 GasQuickStep 0 1) jt.
Definition enable3860 (jt : JumpTable) : JumpTable :=
  upd CREATE2 (withGas gasCreate2Eip3860) (upd CREATE (withGas gasCreateEip3860) jt).

Definition activators (eip : Z) : option (JumpTable -> JumpTable) :=
  if eip =? 3855 then Some enable3855
  else if eip =? 3860 then Some enable3860
  else if eip =? 3529 then Some enable3529
  else if eip =? 3198 then Some enable3198
  else if eip =? 2929 then Some enable2929
  else if eip =? 2200 then Some enable2200
  else if eip =? 1884 then Some enable1884
  else if eip =? 1344 then Some enable1344
  else None.

(** [None] is the error of an undefined EIP. *)
Definition EnableEIP (eip : Z) (jt : JumpTable) : option JumpTable :=
  enablerFn ← activators eip; Some (validateAndFillMaxStack (enablerFn jt)).

Definition newIstanbulInstructionSet : JumpTable :=
  validateAndFillMaxStack (enable2200 (enable1884 (enable1344 newConstantinopleInstructionSet))).
Definition newBerlinInstructionSet : JumpTable := validateAndFillMaxStack (enable2929 newIstanbulInstructionSet).
Definition newLondonInstructionSet : JumpTable :=
  validateAndFillMaxStack (enable3198 (enable3529 newBerlinInstructionSet)).
Definition newShanghaiInstructionSet : JumpTable :=
  validateAndFillMaxStack (enable3860 (enable3855 newLondonInstructionSet)).
Definition newCancunInstructionSet : JumpTable := validateAndFillMaxStack newShanghaiInstructionSet.
Definition newPragueInstructionSet : JumpTable := validateAndFillMaxStack newCancunInstructionSet.

(** ** [NewEVMInterpreter] *)

Definition forkTable : JumpTable :=
  if Rules.IsPrague rules then newPragueInstructionSet
  else if Rules.IsCancun rules then newCancunInstructionSet
  else if Rules.IsShanghai rules then newShanghaiInstructionSet
  else if Rules.IsLondon rules then newLondonInstructionSet
  else if Rules.IsBerlin rules then newBerlinInstructionSet
  else if Rules.IsIstanbul rules then newIstanbulInstructionSet
  else if Rules.IsConstantinople rules then newConstantinopleInstructionSet
  else if Rules.IsByzantium rules then newByzantiumInstructionSet
  else if Rules.IsSpuriousDragon rules then newSpuriousDragonInstructionSet
  else if Rules.IsTangerineWhistle rules then newTangerineWhistleInstructionSet
  else if Rules.IsHomestead rules then newHomesteadInstructionSet
  else newFrontierInstructionSet.

(** The loop over [cfg.ExtraEips]: [range] reads the backing array [arr] at [i],
    and the [append] of a failed EIP shifts the [n] live elements down in that
    array; [cfg.ExtraEips[i+1:]] panics once it is shorter than [i+1]. *)
Fixpoint extraEips (todo : nat) (i : nat) (arr : list Z) (n : nat) (jt : JumpTable) : outcome JumpTable :=
  match todo with
  | O => Ok jt
  | S todo =>
      eip ← or_panic (arr !! i);
      match EnableEIP eip jt with
      | Some jt => extraEips todo (S i) arr n jt
      | None =>
          if Nat.ltb n (S i) then Panic
          else extraEips todo (S i) (take i arr ++ drop (S i) (take n arr) ++ drop (n - 1) arr) (n - 1) jt
      end
  end.

Definition NewEVMInterpreter : outcome JumpTable :=
  let l := ExtraEips (config evm) in
  extraEips (length l) 0 l (length l) forkTable.

End JumpTable.
