(* ===== verification/Interpreter.v ===== *)
(** * Interpreter: running code, calls and creations

    [internal/vm/interpreter.go] ([Run]) and [internal/vm/evm.go] ([call],
    [create] and their variants), with [Transfer] of [internal/evm.go],
    [RunPrecompiledContract] of [contracts.go] and the address functions of
    [common/crypto/crypto.go].  A call builds a frame and runs it in the state
    of its caller; what all frames share ([IntraBlockState], [callGasTemp],
    [returnData], the map of jump analyses) flows back.  [readOnly] and the depth
    are fields of the frame, which is what the deferred functions of [Run]
    restore.  Two measures bound the run: [run] counts nested frames and [loop]
    the instructions of a frame; running out is [Err outOfFuel], which
    [InterpreterEnds] shows never happens.  Tracing is left out. *)

From S2P Require Import Prelude Uint256 RlpTypes RlpCodec ChainConfig AccessList StateModel StateTransition Analysis EvmMemory Words EvmGas Instructions JumpTable.

Definition outOfFuel : error := "out of fuel".
Definition ErrStackUnderflow : error := "stack underflow".
Definition ErrStackOverflow : error := "stack limit reached".
Definition CallCreateDepth : Z := 1024.
Definition MaxCodeSize : Z := 24576.
Definition CreateDataGas : Z := 200.

Section Interpreter.
Context `{U : Uint256} `{W : @Uint256Ops U} `{E : @StateEnv U}.
Variable evm : EVM.

Let rules := chainRules evm.

(** ** The loop *)

(** [Contract.GetOp] *)
Definition GetOp (c : Analysis.Contract) (n : Z) : Z :=
  if n <? Z.of_nat (length (Analysis.Code c)) then default STOP (Analysis.Code c !! Z.to_nat n) else STOP.

(** The size memory must have, in whole words. *)
Definition memoryNeeded (o : operation) : vmM Z :=
  match memorySize o with
  | None => mret 0
  | Some f =>
      '(memSize, overflow) ← (fun v => lift (f (stack v)) v);
      if overflow : bool then throw ErrGasUintOverflow
      else checked (SafeMul (ToWordSize memSize) 32)
  end.

(** Any error of the gas function is out of gas. *)
Definition orOutOfGas {A} (m : vmM A) : vmM A := fun v =>
  match m v with
  | Ok (v, inr _) => Ok (v, inr ErrOutOfGas)
  | r => r
  end.

Definition pay (cost : Z) : vmM unit := ok ← useGas cost; if negb ok then throw ErrOutOfGas else mret tt.

(** The dynamic part of the cost, and the memory it pays for. *)
Definition payDynamic (o : operation) : vmM unit :=
  match dynamicGas o with
  | None => mret tt
  | Some gas =>
      memorySize ← memoryNeeded o;
      dynamicCost ← orOutOfGas (gas memorySize);
      _ ← pay dynamicCost;
      if 0 <? memorySize then modify (fun v => set_mem (Memory.Resize (mem v) memorySize) v) else mret tt
  end.

(** One round: check the stack, pay, execute. *)
Definition round (jt : JumpTable) : exec :=
  o ← gets (fun v => jt (GetOp (contract v) (pc v)));
  sLen ← gets (fun v => Stack.Len (stack v));
  if sLen <? Z.of_nat (numPop o) then throw ErrStackUnderflow
  else if maxStack o <? sLen then throw ErrStackOverflow
  else
    _ ← pay (constantGas o);
    _ ← payDynamic o;
    execute o.

(** The rounds until one ends with an error, [errStopToken] being the regular
    end; [res] is what the last round returned. *)
Fixpoint loop (fuel : nat) (jt : JumpTable) (depth steps : Z) (res : list Z) : vmM (list Z * option error) := fun v =>
  match fuel with
  | O => Err outOfFuel
  | S fuel =>
      let steps := steps + 1 in
      if (steps mod 1000 =? 0) && Cancelled evm depth steps (cgas v) then Ok (v, inl (res, None))
      else
        match round jt v with
        | Ok (v, inl (res, None)) => loop fuel jt depth steps res (set_pc (pc v +u 1) v)
        | Ok (v, inl (res, Some e)) => Ok (v, inl (res, if bool_decide (e = errStopToken) then None else Some e))
        | Ok (v, inr e) => Ok (v, inl ([], Some e))
        | Err e => Err e
        | Panic => Panic
        end
  end.

(** ** Frames *)

Definition newContract (code : list Z) (hash : Hash) (jumpdests : gmap Hash (list Z)) : Analysis.Contract :=
  {| Analysis.Code := code; Analysis.CodeHash := hash; Analysis.jumpdests := jumpdests;
     Analysis.analysis := None; Analysis.skipAnalysis := SkipAnalysis (config evm) |}.

(** The state a frame starts in, and its caller's when it ends. *)
Definition enter (code : list Z) (hash : Hash) (gas : Z) (v : vm) : vm :=
  {| ibs := ibs v; callGasTemp := callGasTemp v; returnData := []; cgas := gas; mem := Memory.NewMemory;
     stack := []; pc := 0; contract := newContract code hash (Analysis.jumpdests (contract v)) |}.

Definition leave (v w : vm) : vm :=
  set_contract (Analysis.with_caches (Analysis.jumpdests (contract w)) (Analysis.analysis (contract v)) (contract v))
    (set_returnData (returnData w) (set_callGasTemp (callGasTemp w) (set_ibs (ibs w) v))).

(** Running [code] in a frame with [gas]: data, gas left, error. *)
Definition runner : Type := Frame -> list Z -> Hash -> Z -> vmM (list Z * Z * option error).

(** ** [evm.go] *)

(** Who calls: [AccountRef] or, inside a frame, the [Contract] of the frame. *)
Record Caller := {
  callerAddress : Address;
  parent : option Frame;
  callDepth : Z;
  callReadOnly : bool
}.

Definition fromAccount (a : Address) : Caller :=
  {| callerAddress := a; parent := None; callDepth := 0; callReadOnly := false |}.
Definition fromFrame (fr : Frame) : Caller :=
  {| callerAddress := self fr; parent := Some fr; callDepth := depth fr; callReadOnly := readOnly fr |}.

Definition Transfer (sender recipient : Address) (amount : u256) (bailout : bool) (s : IntraBlockState) : IntraBlockState :=
  let s := if bailout then s else SubBalance s sender amount in
  AddBalance s recipient amount.

Definition RunPrecompiledContract (p : PrecompiledContract) (input : list Z) (suppliedGas : Z)
  : list Z * Z * option error :=
  let gasCost := RequiredGas p input in
  if suppliedGas <? gasCost then ([], 0, Some ErrOutOfGas)
  else let '(output, err) := RunPrecompile p input in (output, suppliedGas -u gasCost, err).

Inductive callType := TCALL | TCALLCODE | TDELEGATECALL | TSTATICCALL.

(** The frame of a call: [NewContract], [AsDelegate] and the read-only flag. *)
Definition callFrame (typ : callType) (caller : Caller) (addr : Address) (input : list Z) (value : u256) : outcome Frame :=
  let frame from to v :=
    {| CallerAddress := from; self := to; Input := input; Instructions.value := v;
       readOnly := callReadOnly caller || match typ with TSTATICCALL => true | _ => false end;
       depth := callDepth caller + 1 |} in
  match typ with
  | TCALL | TSTATICCALL => Ok (frame (callerAddress caller) addr value)
  | TCALLCODE => Ok (frame (callerAddress caller) (callerAddress caller) value)
  | TDELEGATECALL =>
      match parent caller with
      | Some p => Ok (frame (CallerAddress p) (callerAddress caller) (Instructions.value p))
      | None => Panic
      end
  end.

(** What happens to the callee's account before it runs; [false] when the call
    ends here. *)
Definition prepareCallee (typ : callType) (caller : Caller) (addr : Address) (value : u256) (isPrecompile bailout : bool)
  : vmM bool :=
  match typ with
  | TCALL =>
      exist ← reading (fun s => Exist s addr);
      if negb exist && negb isPrecompile && Rules.IsSpuriousDragon rules && uIsZero value then mret false
      else
        _ ← (if exist : bool then mret tt else writes (fun s => CreateAccount s addr false));
        _ ← writes (Transfer (callerAddress caller) addr value bailout);
        mret true
  | TSTATICCALL => _ ← writes (fun s => AddBalance s addr uzero); mret true
  | _ => mret true
  end.

(** [return ret, gas, err] after the state has been put back if need be. *)
Definition settleCall (snapshot : Z) (r : list Z * Z * option error) : vmM (list Z * Z * option error) :=
  let '(ret, gas, err) := r in
  if negb (bool_decide (err = None)) || RestoreState (config evm) then
    _ ← writes_opt (fun s => RevertToSnapshot s snapshot);
    mret (ret, if errIs err ErrExecutionReverted then gas else 0, err)
  else mret (ret, gas, err).

Definition call (run : runner) (typ : callType) (caller : Caller) (addr : Address) (input : list Z) (gas : Z)
  (value : u256) (bailout : bool) : vmM (list Z * Z * option error) :=
  if NoRecursion (config evm) && (0 <? callDepth caller) then mret ([], gas, None)
  else if CallCreateDepth <? callDepth caller then mret ([], gas, Some ErrDepth)
  else
    poor ← (match typ with
            | TCALL | TCALLCODE =>
                if uIsZero value then mret false
                else can ← reading (fun s => CanTransfer s (callerAddress caller) value); mret (negb can && negb bailout)
            | _ => mret false
            end);
    if poor : bool then mret ([], gas, Some ErrInsufficientBalance)
    else
      let p := precompile evm addr in
      let isPrecompile := bool_decide (is_Some p) in
      code ← (if isPrecompile then mret None else reading (fun s => GetCode s addr));
      snapshot ← reading TakeSnapshot;
      proceed ← prepareCallee typ caller addr value isPrecompile bailout;
      if negb proceed then mret ([], gas, None)
      else
        r ← match p with
            | Some p => mret (RunPrecompiledContract p input gas)
            | None =>
                if bool_decide (from_nil code = []) then mret ([], gas, None)
                else
                  codeHash ← reading (fun s => GetCodeHash s addr);
                  fr ← lift (callFrame typ caller addr input value);
                  run fr (from_nil code) codeHash gas
            end;
        settleCall snapshot r.

(** [config.HasEip3860(rules)] *)
Definition HasEip3860 : bool := existsb (fun eip => eip =? 3860) (ExtraEips (config evm)) || Rules.IsShanghai rules.

(** [evm.create] up to the run: [Some] the result when it ends early, else the
    snapshot. *)
Definition prepareCreate (caller : Caller) (gas : Z) (value : u256) (address : Address) (incrementNonce : bool)
  : vmM ((list Z * Address * Z * option error) + Z) :=
  if CallCreateDepth <? callDepth caller then mret (inl ([], 0, gas, Some ErrDepth))
  else
    can ← reading (fun s => CanTransfer s (callerAddress caller) value);
    if negb can then mret (inl ([], 0, gas, Some ErrInsufficientBalance))
    else
      overflow ← (if incrementNonce then
                    nonce ← reading (fun s => GetNonce s (callerAddress caller));
                    if nonce +u 1 <? nonce then mret true
                    else _ ← writes (fun s => SetNonce s (callerAddress caller) (nonce +u 1)); mret false
                  else mret false);
      if overflow : bool then mret (inl ([], 0, gas, Some ErrNonceUintOverflow))
      else
        _ ← (if Rules.IsBerlin rules then writes (fun s => AddAddressToAccessList s address) else mret tt);
        contractHash ← reading (fun s => GetCodeHash s address);
        nonce ← reading (fun s => GetNonce s address);
        if negb (nonce =? 0) || (negb (contractHash =? 0) && negb (contractHash =? emptyCodeHash))
        then mret (inl ([], 0, 0, Some ErrContractAddressCollision))
        else
          snapshot ← reading TakeSnapshot;
          _ ← writes (fun s => CreateAccount s address true);
          _ ← (if Rules.IsSpuriousDragon rules then writes (fun s => SetNonce s address 1) else mret tt);
          _ ← writes (Transfer (callerAddress caller) address value false);
          mret (inr snapshot).

(** The checks on the code that came out, [err] being the error of the run. *)
Definition codeError (ret : list Z) (err : option error) : option error :=
  let err :=
    if bool_decide (err = None) && Rules.IsSpuriousDragon rules && (MaxCodeSize <? Z.of_nat (length ret)) &&
       (negb (Rules.IsAura rules) || HasEip3860)
    then Some ErrMaxCodeSizeExceeded else err in
  if bool_decide (err = None) && Rules.IsLondon rules && bool_decide (head ret = Some 0xEF)
  then Some ErrInvalidCode else err.

(** Storing the code, and reverting a failed creation. *)
Definition settleCreate (snapshot : Z) (address : Address) (ret : list Z) (gas : Z) (err : option error)
  : vmM (list Z * Address * Z * option error) :=
  let err := codeError ret err in
  '(gas, err) ←
    (if bool_decide (err = None) then
       let createDataGas := Z.of_nat (length ret) *u CreateDataGas in
       if gas <? createDataGas then mret (gas, if Rules.IsHomestead rules then Some ErrCodeStoreOutOfGas else None)
       else _ ← writes (fun s => SetCode s address (match ret with [] => None | _ => Some ret end)); mret (gas -u createDataGas, None)
     else mret (gas, err));
  if negb (bool_decide (err = None)) && (Rules.IsHomestead rules || negb (errIs err ErrCodeStoreOutOfGas)) then
    _ ← writes_opt (fun s => RevertToSnapshot s snapshot);
    mret (ret, address, if errIs err ErrExecutionReverted then gas else 0, err)
  else mret (ret, address, gas, err).

Definition create (run : runner) (caller : Caller) (code : list Z) (codeHash : Hash) (gas : Z) (value : u256)
  (address : Address) (incrementNonce : bool) : vmM (list Z * Address * Z * option error) :=
  r ← prepareCreate caller gas value address incrementNonce;
  match r with
  | inl r => mret r
  | inr snapshot =>
      if NoRecursion (config evm) && (0 <? callDepth caller) then mret ([], address, gas, None)
      else
        let fr := {| CallerAddress := callerAddress caller; self := address; Input := []; Instructions.value := value;
                     readOnly := callReadOnly caller; depth := callDepth caller + 1 |} in
        '(ret, gas, err) ← run fr code codeHash gas;
        settleCreate snapshot address ret gas err
  end.

(** ** Contract addresses *)

(** [rlp.EncodeToBytes([]interface{}{b, nonce})]; its error is dropped. *)
Definition createData (b : Address) (nonce : Z) : list Z :=
  match EncodeToBytes ifsliceType
          (RlpT.GSlice [RlpT.GIface (RlpT.TArray 20 (RlpT.TUint 8)) (RlpT.GBytes (be_bytes 20 b)); RlpT.GIface (RlpT.TUint 64) (RlpT.GNum nonce)]) with
  | Ok data => data
  | _ => []
  end.

Definition CreateAddress (b : Address) (nonce : Z) : Address := Keccak256Hash (createData b nonce) mod 2 ^ 160.

Definition CreateAddress2 (b : Address) (salt : u256) (inithash : Hash) : Address :=
  Keccak256Hash (0xff :: be_bytes 20 b ++ Memory.uBytes32 salt ++ be_bytes 32 inithash) mod 2 ^ 160.

Definition evmCreate (run : runner) (caller : Caller) (code : list Z) (gas : Z) (endowment : u256)
  : vmM (list Z * Address * Z * option error) :=
  nonce ← reading (fun s => GetNonce s (callerAddress caller));
  create run caller code 0 gas endowment (CreateAddress (callerAddress caller) nonce) true.

(** [codeAndHash.Hash()] fills the hash, which [SetCodeOptionalHash] uses. *)
Definition evmCreate2 (run : runner) (caller : Caller) (code : list Z) (gas : Z) (endowment salt : u256)
  : vmM (list Z * Address * Z * option error) :=
  let hash := Keccak256Hash code in
  create run caller code hash gas endowment (CreateAddress2 (callerAddress caller) salt hash) true.

(** ** [Run] *)

Definition frameCalls (run : runner) (fr : Frame) : Calls := {|
  Instructions.Call := fun addr input gas value => call run TCALL (fromFrame fr) addr input gas value false;
  CallCode := fun addr input gas value => call run TCALLCODE (fromFrame fr) addr input gas value false;
  DelegateCall := fun addr input gas => call run TDELEGATECALL (fromFrame fr) addr input gas uzero false;
  StaticCall := fun addr input gas => call run TSTATICCALL (fromFrame fr) addr input gas uzero false;
  Instructions.Create := fun input gas value => evmCreate run (fromFrame fr) input gas value;
  Create2 := fun input gas value salt => evmCreate2 run (fromFrame fr) input gas value salt
|}.

(** At most [n] nested frames; each round of a frame costs gas, so the gas of
    the frame bounds its rounds. *)
Fixpoint Run (n : nat) : runner := fun fr code hash gas v =>
  match n with
  | O => Err outOfFuel
  | S n =>
      if bool_decide (code = []) then Ok (v, inl ([], gas, None))
      else
        match NewEVMInterpreter evm fr (frameCalls (Run n) fr) with
        | Ok jt =>
            match loop (S (Z.to_nat gas)) jt (depth fr) 0 [] (enter code hash gas v) with
            | Ok (w, inl (ret, err)) => Ok (leave v w, inl (ret, cgas w, err))
            | Ok (w, inr e) => Ok (leave v w, inl ([], cgas w, Some e))
            | Err e => Err e
            | Panic => Panic
            end
        | Err e => Err e
        | Panic => Panic
        end
  end.

(** The interpreter stops at depth 1025, so this many frames nest at most. *)
Definition maxFrames : nat := Z.to_nat (CallCreateDepth + 1).

(** ** The entry points of the state transition *)

(** The state in which the machine is called from outside. *)
Definition outside (s : IntraBlockState) : vm :=
  {| ibs := s; callGasTemp := 0; returnData := []; cgas := 0; mem := Memory.NewMemory; stack := []; pc := 0;
     contract := newContract [] 0 ∅ |}.

Definition Call (s : IntraBlockState) (caller addr : Address) (input : list Z) (gas : Z) (value : u256) (bailout : bool)
  : outcome (vm * ((list Z * Z * option error) + error)) :=
  call (Run maxFrames) TCALL (fromAccount caller) addr input gas value bailout (outside s).

Definition Create (s : IntraBlockState) (caller : Address) (code : list Z) (gas : Z) (endowment : u256)
  : outcome (vm * ((list Z * Address * Z * option error) + error)) :=
  evmCreate (Run maxFrames) (fromAccount caller) code gas endowment (outside s).

End Interpreter.
