(* ===== verification/CreateAddresses.v ===== *)
(** * CreateAddresses: what the address of a new contract is hashed from

    [CreateAddress] of [common/crypto/crypto.go] hashes the RLP encoding of the
    creator's address and nonce.  The encoding never fails and keeps both apart. *)

From S2P Require Import Prelude Uint256 RlpEncode RlpTypes RlpStream RlpReading RlpRaw RlpCodec RlpDecoding RlpRepr RlpWriting RlpTheorems StateModel Instructions Interpreter.

Import Rlp RlpT.

Section CreateAddresses.
Context `{U : Uint256} `{W : @Uint256Ops U} `{E : @StateEnv U}.

Lemma small_pair_bound b n : length b = 20%nat -> in_u64 n -> Z.of_nat (length (encodings [IStr b; IStr (minimal n)])) <= 44.
Proof.
  intros Hb [H1 H2]. unfold encodings. cbn [map concat encoding]. rewrite app_nil_r, length_app. pose proof (minimal_length_bits n 8 ltac:(lia) ltac:(cbn; lia)).
  assert (forall s, Z.of_nat (length s) <= 20 -> Z.of_nat (length (encString s)) <= 22) as Hs.
  { intros s Hs. destruct s as [|x [|y s]]; [done|cbn [encString]; by case_match|]. unfold encString. rewrite length_app, Nat2Z.inj_add, puthead_length by lia.
    unfold headsize. rewrite (proj2 (Z.ltb_lt _ _)) by lia. lia. }
  pose proof (Hs b ltac:(lia)). pose proof (Hs (minimal n) ltac:(lia)). lia.
Qed.
Lemma small_pair b n : length b = 20%nat -> in_u64 n -> small [IStr b; IStr (minimal n)].
Proof. intros Hb Hn. pose proof (small_pair_bound b n Hb Hn). unfold small. lia. Qed.

(** The two interfaces are written as a list of two strings. *)
Lemma createData_eq (b : Address) n : in_u64 n -> createData b n = encList (encString (be_bytes 20 b) ++ encString (minimal n)).
Proof.
  intros Hn. pose proof (be_bytes_length 20 b) as Hb. pose proof (small_pair _ n Hb Hn) as Hs. pose proof (small_cons _ _ Hs) as [Hs1 _].
  unfold createData, EncodeToBytes. set (v := GSlice _). set (its := [IStr (be_bytes 20 b); IStr (minimal n)]).
  assert (adds (encode ifsliceType v) [IList its]) as Ha.
  { apply (adds_inList (writeElems (writeInterface (dynamicOf 1)) [_; _])); [done|]. apply writeElems_adds. constructor; [|constructor; [|constructor]].
    - by apply adds_writeByteArray.
    - by apply adds_encodeUint. }
  rewrite Ha. cbn [mbind outcome_bind]. rewrite addedL_one, (toBytes_holds _ _ (added_holds (IList its))). unfold its. cbn [encoding map concat]. by rewrite app_nil_r.
Qed.

(** Encodings that are the same and fit a slice start with the same value. *)
Lemma encString_inj a b r s : isBytes a -> isBytes b -> Z.of_nat (length (encString a ++ r)) < 2 ^ 63 -> encString a ++ r = encString b ++ s -> a = b /\ r = s.
Proof.
  intros Ha Hb Hl He. destruct (string_frame a Ha) as (k & _ & Hk & Ea), (string_frame b Hb) as (k' & _ & Hk' & Eb). rewrite Ea, Eb in *.
  pose proof (Split_frame k a r Ha Hk Hl) as H1. rewrite He in H1, Hl. rewrite (Split_frame k' b s Hb Hk' Hl) in H1. by injection H1 as -> -> ->.
Qed.
Lemma encList_inj a b : isBytes a -> isBytes b -> Z.of_nat (length (encList a)) < 2 ^ 63 -> encList a = encList b -> a = b.
Proof.
  intros Ha Hb Hl He. pose proof (Split_frame KList a [] Ha I) as H1. pose proof (Split_frame KList b [] Hb I) as H2. cbn [frame] in *. rewrite app_nil_r in *.
  rewrite He in *. specialize (H1 Hl). rewrite (H2 Hl) in H1. by injection H1 as ->.
Qed.

(** C40: two creations hash the same bytes only when they have the same creator and
    the same nonce: addresses of contracts created by [CREATE] collide only
    where the hash function does. *)
Theorem createData_injective (b b' : Address) n n' : 0 <= b < 2 ^ 160 -> 0 <= b' < 2 ^ 160 -> in_u64 n -> in_u64 n' ->
  createData b n = createData b' n' <-> b = b' /\ n = n'.
Proof.
  intros Hb Hb' Hn Hn'. split; [|by intros [-> ->]]. intros He. rewrite !createData_eq in He by done. pose proof (small_pair_bound _ n (be_bytes_length 20 b) Hn) as Hs.
  unfold encodings in Hs. cbn [map concat encoding] in Hs. rewrite app_nil_r in Hs.
  assert (forall c m, isBytes (encString (be_bytes 20 c) ++ encString (minimal m))) as Hi.
  { intros c m. apply Forall_app. split; apply encString_isBytes, be_bytes_isBytes. }
  apply encList_inj in He; [|done|done|].
  2: { unfold encList. rewrite length_app, Nat2Z.inj_add, puthead_length by lia. unfold headsize. rewrite (proj2 (Z.ltb_lt _ 56)) by lia. lia. }
  apply encString_inj in He as [E1 E2]; [|apply be_bytes_isBytes..|lia].
  rewrite <- (app_nil_r (encString (minimal n))), <- (app_nil_r (encString (minimal n'))) in E2.
  apply encString_inj in E2 as [E2 _]; [|apply be_bytes_isBytes..|rewrite app_nil_r; rewrite length_app in Hs; lia].
  split; [|by rewrite <- (be_val_minimal n), E2, be_val_minimal by (apply Hn || apply Hn')].
  rewrite <- (Z.mod_small b (256 ^ Z.of_nat 20)), <- (Z.mod_small b' (256 ^ Z.of_nat 20)) by (cbn; lia).
  by rewrite <- !be_val_bytes, E1 by lia.
Qed.
End CreateAddresses.

Lemma createData_injective_witness : @createData bits_Uint256 7 1024 <> @createData bits_Uint256 7 1025.
Proof.
  intros H. apply (createData_injective 7 7 1024 1025) in H as [_ H]; [discriminate H|lia|lia|split; reflexivity || discriminate|split; reflexivity || discriminate].
Defined.
