(* ===== verification/InterpreterGas.v ===== *)
(** * InterpreterGas: execution ends and gives back at most its gas

    Every round of the interpreter that does not end the frame costs gas, calls
    included: a callee gets what its caller paid for, and the stipend of a
    transfer is below the price of the transfer.  So the gas of a frame bounds
    its rounds, the depth limit bounds the frames, and the fuel of [Run] is never
    exhausted.  Panics are not the subject here. *)

From S2P Require Import Prelude Uint256 ChainConfig AccessList StateModel StateTransition Analysis EvmMemory Words EvmGas Instructions JumpTable Interpreter.

Section Logic.
Context `{U : Uint256} `{E : @StateEnv U}.

(** ** A logic for [vmM]: what holds if the computation does not panic, and that
    it does not run out of fuel. *)

Definition wp {A} (m : vmM A) (Q : vm -> A + error -> Prop) (v : vm) : Prop :=
  match m v with Ok (w, r) => Q w r | Err _ => False | Panic => True end.

Lemma wp_bind {A B} (m : vmM A) (f : A -> vmM B) Q v :
  wp m (fun w r => match r with inl a => wp (f a) Q w | inr e => Q w (inr e) end) v -> wp (m ≫= f) Q v.
Proof. unfold wp, mbind, vmM_bind. destruct (m v) as [[w [a|e]]| |]; done. Qed.

Lemma wp_mono {A} (m : vmM A) (Q R : vm -> A + error -> Prop) v :
  wp m Q v -> (forall w r, Q w r -> R w r) -> wp m R v.
Proof. unfold wp. destruct (m v) as [[w r]| |]; auto. Qed.

Lemma wp_ret {A} (a : A) (Q : vm -> A + error -> Prop) v : Q v (inl a) -> wp (mret a) Q v.
Proof. done. Qed.

(** Computations that leave the gas of the frame and the size of its memory
    alone. *)
Definition sameSize (v w : vm) : Prop :=
  cgas w = cgas v /\ Memory.Len (mem w) = Memory.Len (mem v) /\ Memory.lastGasCost (mem w) = Memory.lastGasCost (mem v).
Definition quietly {A} (m : vmM A) : Prop := forall v, wp m (fun w _ => sameSize v w) v.

Lemma sameSize_refl v : sameSize v v.
Proof. done. Qed.
Lemma sameSize_trans u v w : sameSize u v -> sameSize v w -> sameSize u w.
Proof. unfold sameSize. intuition congruence. Qed.

Lemma quietly_bind {A B} (m : vmM A) (f : A -> vmM B) : quietly m -> (forall a, quietly (f a)) -> quietly (m ≫= f).
Proof.
  intros Hm Hf v. apply wp_bind. eapply wp_mono; [apply Hm|]. intros w [a|e] Hw; [|done].
  eapply wp_mono; [apply Hf|]. cbn. intros. by eapply sameSize_trans.
Qed.

Lemma quietly_ret {A} (a : A) : quietly (mret a).
Proof. done. Qed.
Lemma quietly_throw {A} (e : error) : quietly (throw (A := A) e).
Proof. done. Qed.
Lemma quietly_gets {A} (f : vm -> A) : quietly (gets f).
Proof. done. Qed.
Lemma quietly_lift {A} (o : outcome A) : quietly (lift o).
Proof. intros v. unfold wp, lift. by destruct o. Qed.
Lemma quietly_liftv {A} (o : vm -> outcome A) : quietly (fun v => lift (o v) v).
Proof. intros v. unfold wp, lift. by destruct (o v). Qed.
Lemma quietly_modify f : (forall v, sameSize v (f v)) -> quietly (modify f).
Proof. intros H v. unfold wp, modify. apply H. Qed.
Lemma quietly_reading {A} (f : IntraBlockState -> IntraBlockState * A) : quietly (reading f).
Proof. intros v. unfold wp, reading. by destruct (f (ibs v)). Qed.
Lemma quietly_writes f : quietly (writes f).
Proof. done. Qed.
Lemma quietly_writes_opt f : quietly (writes_opt f).
Proof. intros v. unfold wp, writes_opt. by destruct (f (ibs v)). Qed.
Lemma quietly_checked r : quietly (checked r).
Proof. unfold checked. by destruct r.2. Qed.
Lemma quietly_pop : quietly pop.
Proof. intros v. unfold wp, pop. by destruct (stack v). Qed.
Lemma quietly_peek : quietly peek.
Proof. apply quietly_liftv. Qed.
Lemma quietly_back n : quietly (back n).
Proof. apply quietly_liftv. Qed.
Lemma quietly_setTop x : quietly (setTop x).
Proof. intros v. unfold wp, setTop. by destruct (stack v). Qed.
Lemma quietly_push x : quietly (push x).
Proof. done. Qed.
(** What fits into memory does not change its size. *)
Definition keepsSize (f : Memory.Memory -> outcome Memory.Memory) : Prop := forall m m', f m = Ok m' ->
  Memory.Len m' = Memory.Len m /\ Memory.lastGasCost m' = Memory.lastGasCost m.

Lemma quietly_writeMem f : keepsSize f -> quietly (writeMem f).
Proof. intros H v. unfold wp, writeMem. destruct (f (mem v)) eqn:Ef; try done. split; [done|]. by apply H. Qed.

(** A sum that did not wrap. *)
Lemma add64_no_wrap x y : in_u64 x -> in_u64 y -> x <= x +u y -> x +u y = x + y.
Proof.
  intros [? ?] [? ?]. unfold add64, u64. destruct (Z_lt_le_dec (x + y) two64); [by rewrite Z.mod_small by lia|].
  assert ((x + y) mod two64 = x + y - two64) as Hm by (symmetry; apply (Z.mod_unique_pos _ _ 1); lia). lia.
Qed.

Lemma Set_keepsSize offset size value : in_u64 offset -> in_u64 size -> keepsSize (fun m => Memory.Set_ m offset size value).
Proof.
  intros Ho Hs m m'. unfold Memory.Set_. destruct (Z.ltb_spec 0 size); [|by intros [= <-]].
  destruct (Z.ltb_spec (Memory.Len m) (offset +u size)); [done|].
  destruct (Z.ltb_spec (offset +u size) offset); [done|]. intros [= <-]. split; [|done].
  pose proof (add64_no_wrap offset size Ho Hs ltac:(done)) as Hw. rewrite Hw in *. unfold Memory.Len, in_u64 in *. cbn.
  rewrite overwrite_length; [done|]. rewrite length_take. lia.
Qed.

Lemma Set32_keepsSize offset x : in_u64 offset -> keepsSize (fun m => Memory.Set32 m offset x).
Proof.
  intros Ho m m'. unfold Memory.Set32. destruct (Z.ltb_spec (Memory.Len m) (offset +u 32)); [done|].
  destruct (Z.ltb_spec (offset +u 32) offset); [done|]. intros [= <-]. split; [|done].
  pose proof (add64_no_wrap offset 32 Ho ltac:(done) ltac:(done)) as Hw. rewrite Hw in *.
  unfold Memory.Len, in_u64 in *. cbn [Memory.store Memory.with_store].
  rewrite overwrite_length; [done|]. unfold Memory.uBytes32. rewrite be_bytes_length. lia.
Qed.

Lemma SetByte_keepsSize offset b : keepsSize (fun m => Memory.SetByte m offset b).
Proof.
  intros m m'. unfold Memory.SetByte. case_match; [done|]. intros [= <-]. split; [|done].
  unfold Memory.Len. cbn. by rewrite length_insert.
Qed.

Lemma uUint64_range x : in_u64 (uUint64 x).
Proof. apply u64_range. Qed.

Lemma quietly_popTopics n : quietly (popTopics n).
Proof.
  induction n as [|n IH]; [done|]. apply quietly_bind; [apply quietly_pop|]. intros x.
  apply quietly_bind; [done|]. done.
Qed.

End Logic.

Create HintDb evm.
#[export] Hint Resolve quietly_ret quietly_throw quietly_gets quietly_lift quietly_liftv quietly_reading
  quietly_writes quietly_writes_opt quietly_checked quietly_pop quietly_peek quietly_back
  quietly_setTop quietly_push quietly_popTopics
  Set_keepsSize Set32_keepsSize SetByte_keepsSize uUint64_range sameSize_refl : evm.

(** Take a computation apart. *)
Ltac quiet_step :=
  first
    [ solve [eauto with evm]
    | apply quietly_modify; intros; split; [|split]; reflexivity
    | apply quietly_writeMem; solve [eauto with evm]
    | apply quietly_bind; [|intros ?]
    | case_match ].
Ltac quiet := repeat quiet_step.

(** ** Costs *)

Section Costs.
Context `{U : Uint256} `{W : @Uint256Ops U} `{E : @StateEnv U}.

Lemma wp_checked_add x y (Q : vm -> Z + error -> Prop) v :
  0 <= x -> 0 <= y -> (x + y < two64 -> Q v (inl (x + y))) -> Q v (inr ErrGasUintOverflow) ->
  wp (checked (SafeAdd x y)) Q v.
Proof.
  intros Hx Hy H1 H2. unfold checked, SafeAdd; cbn. destruct (Z.leb_spec two64 (x + y)); [done|].
  rewrite add64_small by (unfold in_u64; lia). apply wp_ret. auto.
Qed.

Lemma wp_checked_mul x y (Q : vm -> Z + error -> Prop) v :
  0 <= x -> 0 <= y -> (x * y < two64 -> Q v (inl (x * y))) -> Q v (inr ErrGasUintOverflow) ->
  wp (checked (SafeMul x y)) Q v.
Proof.
  intros Hx Hy H1 H2. unfold checked, SafeMul; cbn. destruct (Z.leb_spec two64 (x * y)); [done|].
  rewrite mul64_small by (unfold in_u64; nia). apply wp_ret. auto.
Qed.

Lemma wp_uint64Of x (Q : vm -> Z + error -> Prop) v :
  (in_u64 (uval x) -> Q v (inl (uval x))) -> Q v (inr ErrGasUintOverflow) -> wp (uint64Of x) Q v.
Proof.
  intros H1 H2. unfold uint64Of, checked, uUint64WithOverflow, uIsUint64, uUint64; cbn.
  destruct (Z.ltb_spec (uval x) two64); cbn; [|done].
  pose proof (uval_nonneg x). rewrite u64_small by (unfold in_u64; lia). apply H1. unfold in_u64; lia.
Qed.

(** The fee for more memory is small. *)
Lemma wp_memGas k n (Q : vm -> Z + error -> Prop) v :
  memOk (mem v) k -> 0 <= n ->
  (forall m c, memoryGasCost (mem v) n = (m, inl c) -> 0 <= c < 2 ^ 56 -> Q (set_mem m v) (inl c)) ->
  (forall e, Q v (inr e)) -> wp (memGas n) Q v.
Proof.
  intros [Hk Hl Hf] Hn H1 H2. unfold wp, memGas. destruct (memoryGasCost (mem v) n) as [m r] eqn:Em.
  unfold memoryGasCost in Em. destruct (Z.eqb_spec n 0); [simplify_eq; by apply H1|].
  destruct (Z.ltb_spec 0x1FFFFFFFE0 n).
  { simplify_eq. replace (set_mem (mem v) v) with v by by destruct v. apply H2. }
  rewrite ToWordSize_spec in Em by lia. fold (words n) in Em. pose proof (words_bounds n ltac:(lia)).
  rewrite (mul64_small (words n) 32) in Em by (unfold in_u64; lia). rewrite Hl in Em.
  destruct (Z.ltb_spec (32 * k) (words n * 32)); [|simplify_eq; by apply H1].
  assert (words n *u MemoryGas +u words n *u words n / QuadCoeffDiv = memFee (words n)) as Hfee.
  { unfold MemoryGas, QuadCoeffDiv. rewrite !mul64_small by (unfold in_u64; nia).
    pose proof (memFee_bound (words n) ltac:(lia)). unfold memFee in *.
    rewrite add64_small by (unfold in_u64; lia). lia. }
  rewrite Hfee, Hf in Em. pose proof (memFee_mono k (words n) ltac:(lia)). pose proof (memFee_bound k ltac:(lia)).
  assert (memFee (words n) < 2 ^ 56).
  { unfold memFee. pose proof (Z.div_le_upper_bound (words n * words n) 512 (2 ^ 55) ltac:(lia) ltac:(nia)). lia. }
  rewrite sub64_small in Em by (unfold in_u64; lia). simplify_eq. apply H1; [done|lia].
Qed.

Lemma wp_back n (Q : vm -> u256 + error -> Prop) v : (forall x, stack v !! n = Some x -> Q v (inl x)) -> wp (back n) Q v.
Proof. intros H. unfold wp, back, lift, Stack.Back. destruct (stack v !! n); cbn; auto. Qed.

Lemma wp_reading {A} (f : IntraBlockState -> IntraBlockState * A) (Q : vm -> A + error -> Prop) v :
  (forall s a, f (ibs v) = (s, a) -> Q (set_ibs s v) (inl a)) -> wp (reading f) Q v.
Proof. intros H. unfold wp, reading. destruct (f (ibs v)); auto. Qed.

Lemma wp_writes f (Q : vm -> unit + error -> Prop) v : Q (set_ibs (f (ibs v)) v) (inl tt) -> wp (writes f) Q v.
Proof. done. Qed.

Lemma wp_writes_opt f (Q : vm -> unit + error -> Prop) v :
  (forall s, f (ibs v) = Some s -> Q (set_ibs s v) (inl tt)) -> wp (writes_opt f) Q v.
Proof. intros H. unfold wp, writes_opt. destruct (f (ibs v)); auto. Qed.

Lemma wp_gets {A} (f : vm -> A) (Q : vm -> A + error -> Prop) v : Q v (inl (f v)) -> wp (gets f) Q v.
Proof. done. Qed.

Lemma wp_modify f (Q : vm -> unit + error -> Prop) v : Q (f v) (inl tt) -> wp (modify f) Q v.
Proof. done. Qed.

Lemma wp_throw {A} e (Q : vm -> A + error -> Prop) v : Q v (inr e) -> wp (throw e) Q v.
Proof. done. Qed.

Lemma wp_liftv {A} (o : vm -> outcome A) (Q : vm -> A + error -> Prop) v :
  (forall a, o v = Ok a -> Q v (inl a)) -> (forall e, Q v (inr e)) -> wp (fun v => lift (o v) v) Q v.
Proof. intros H1 H2. unfold wp, lift. destruct (o v); auto. Qed.

Lemma wp_lift {A} (o : outcome A) (Q : vm -> A + error -> Prop) v :
  (forall a, o = Ok a -> Q v (inl a)) -> (forall e, Q v (inr e)) -> wp (lift o) Q v.
Proof. apply (wp_liftv (fun _ => o)). Qed.

Lemma wp_useGas g (Q : vm -> bool + error -> Prop) v :
  0 <= g -> in_u64 (cgas v) -> (cgas v < g -> Q v (inl false)) ->
  (g <= cgas v -> Q (set_cgas (cgas v - g) v) (inl true)) -> wp (useGas g) Q v.
Proof.
  intros Hg Hc H1 H2. unfold wp, useGas. destruct (Z.ltb_spec (cgas v) g); [auto|].
  rewrite sub64_small by (unfold in_u64 in *; lia). auto.
Qed.

(** A gas function that expands memory to [n] leaves the gas alone when it
    returns a cost, at least [lo]. *)
Definition costs (lo n : Z) (m : vmM Z) : Prop := forall v k, in_u64 (cgas v) -> memOk (mem v) k ->
  wp m (fun w r => match r with
                   | inl c => cgas w = cgas v /\ lo <= c /\ exists fee, memoryGasCost (mem v) n = (mem w, inl fee)
                   | inr _ => 0 <= cgas w <= cgas v
                   end) v.

End Costs.

#[export] Hint Unfold CopyGas LogGas LogTopicGas LogDataGas Keccak256WordGas MaxInitCodeSize InitCodeWordGas ExpGas ExpByteFrontier ExpByteEIP160 CallNewAccountGas CallValueTransferGas SelfdestructGasEIP150 CreateBySelfdestructGas SelfdestructRefundGas SstoreSetGas SstoreClearGas SstoreResetGas SstoreRefundGas NetSstoreNoopGas NetSstoreInitGas NetSstoreCleanGas NetSstoreDirtyGas NetSstoreClearRefund NetSstoreResetRefund NetSstoreResetClearRefund SstoreSentryGasEIP2200 SstoreSetGasEIP2200 SstoreResetGasEIP2200 SstoreClearsScheduleRefundEIP2200 SstoreClearsScheduleRefundEIP3529 SloadGasEIP2200 ColdAccountAccessCostEIP2929 ColdSloadCostEIP2929 WarmStorageReadCostEIP2929 : evm.

Lemma ToWordSize_nonneg n : 0 <= n -> 0 <= ToWordSize n.
Proof.
  intros. unfold ToWordSize. case_match; [done|]. apply Z.div_pos; [|lia].
  pose proof (add64_range n 31). unfold in_u64 in *. lia.
Qed.

(** Arithmetic side conditions of gas. *)
Ltac gas_side :=
  cbn [cgas mem stack set_ibs set_callGasTemp set_cgas set_mem set_stack] in *;
  autounfold with evm in *; unfold in_u64 in *; repeat split;
  repeat match goal with
  | |- context [ToWordSize ?n] =>
      lazymatch goal with
      | _ : 0 <= ToWordSize n |- _ => fail
      | _ => assert (0 <= ToWordSize n) by (apply ToWordSize_nonneg; lia)
      end
  end; try discriminate; try lia; try (eexists; first [eassumption | reflexivity]).

Ltac wp_step :=
  first
    [ apply wp_bind | apply wp_back; intros | apply wp_reading; intros | apply wp_writes
    | apply wp_writes_opt; intros | apply wp_gets | apply wp_modify | apply wp_throw
    | eapply wp_memGas; [eassumption|lia|intros..] | apply wp_uint64Of; intros | apply wp_ret
    | apply wp_checked_add; [solve [gas_side]..|intros|] | apply wp_checked_mul; [solve [gas_side]..|intros|]
    | apply wp_lift; intros | apply wp_liftv; intros | case_match ]; cbn [set_mem set_ibs cgas mem fst snd] in *.
Ltac wp_go := repeat wp_step.

Section GasFunctions.
Context `{U : Uint256} `{W : @Uint256Ops U} `{E : @StateEnv U}.

Lemma memoryCopierGas_costs k n : 0 <= n -> costs 0 n (memoryCopierGas k n).
Proof. intros Hn v m Hv Hm. unfold memoryCopierGas. wp_go; gas_side. Qed.

Lemma makeGasLog_costs k n : 0 <= n -> 0 <= k <= 4 -> costs 375 n (makeGasLog k n).
Proof.
  intros Hn Hk v m Hv Hm. unfold makeGasLog. rewrite mul64_small by gas_side. wp_go; gas_side.
Qed.

Lemma gasKeccak256_costs n : 0 <= n -> costs 0 n (gasKeccak256 n).
Proof. intros Hn v m Hv Hm. unfold gasKeccak256. wp_go; gas_side. Qed.

Lemma pureMemoryGascost_costs n : 0 <= n -> costs 0 n (pureMemoryGascost n).
Proof. intros Hn v m Hv Hm. unfold pureMemoryGascost. wp_go; gas_side. Qed.

Lemma gasCreate2_costs n : 0 <= n -> costs 0 n (gasCreate2 n).
Proof. intros Hn v m Hv Hm. unfold gasCreate2. wp_go; gas_side. Qed.

Lemma initCodeGas_costs k n : 0 <= n -> costs 0 n (initCodeGas k n).
Proof.
  intros Hn v m Hv Hm. unfold initCodeGas. apply wp_bind. eapply wp_memGas; [done|done|intros m' c Hc Hcr|intros; cbn; gas_side].
  apply wp_bind, wp_back; intros. cbn. case_match; [cbn; gas_side|].
  pose proof (mul64_range k (ToWordSize (uUint64 x))). wp_go; gas_side.
Qed.

Lemma gasExp_costs k n : costs 10 0 (gasExp k n).
Proof.
  intros v m Hv Hm. unfold gasExp. apply wp_bind, wp_back. intros x Hx.
  pose proof (mul64_range ((uBitLen x + 7) / 8) k). wp_go; gas_side.
Qed.

Lemma gasSStore_costs rules self n : costs 200 0 (gasSStore rules self n).
Proof.
  intros v m Hv Hm. unfold gasSStore, addRefund, subRefund, when. wp_go; gas_side.
Qed.

Lemma gasSStoreEIP2200_costs self n : costs 800 0 (gasSStoreEIP2200 self n).
Proof. intros v m Hv Hm. unfold gasSStoreEIP2200, addRefund, subRefund, when. wp_go; gas_side. Qed.

Lemma makeGasSStoreFunc_costs self k n : costs 100 0 (makeGasSStoreFunc self k n).
Proof. intros v m Hv Hm. unfold makeGasSStoreFunc, addRefund, subRefund, when. wp_go; gas_side. Qed.

Lemma gasSLoadEIP2929_costs self n : costs 100 0 (gasSLoadEIP2929 self n).
Proof. intros v m Hv Hm. unfold gasSLoadEIP2929. wp_go; gas_side. Qed.

Lemma gasExtCodeCopyEIP2929_costs n : 0 <= n -> costs 0 n (gasExtCodeCopyEIP2929 n).
Proof. intros Hn v m Hv Hm. unfold gasExtCodeCopyEIP2929, gasExtCodeCopy, memoryCopierGas. wp_go; gas_side. Qed.

Lemma gasEip2929AccountCheck_costs n : costs 0 0 (gasEip2929AccountCheck n).
Proof. intros v m Hv Hm. unfold gasEip2929AccountCheck. wp_go; gas_side. Qed.

Lemma gasSelfdestruct_costs rules self n : costs 0 0 (gasSelfdestruct rules self n).
Proof. intros v m Hv Hm. unfold gasSelfdestruct. wp_go; gas_side. Qed.

Lemma makeSelfdestructGasFn_costs self b n : costs 0 0 (makeSelfdestructGasFn self b n).
Proof. intros v m Hv Hm. unfold makeSelfdestructGasFn, addRefund. wp_go; gas_side. Qed.

(** ** Calls *)

(** The cost of a call covers the gas that goes with it and [extra], and
    satisfies [P]. *)
Definition callCosts (P : vm -> Z -> Prop) (extra : vm -> Z) (n : Z) (m : vmM Z) : Prop := forall v k, in_u64 (cgas v) -> memOk (mem v) k ->
  wp m (fun w r => match r with
                   | inl c => cgas w = cgas v /\ stack w = stack v /\ 0 <= callGasTemp w /\
                              extra v + callGasTemp w <= c /\ P v c /\
                              exists fee, memoryGasCost (mem v) n = (mem w, inl fee)
                   | inr _ => 0 <= cgas w <= cgas v
                   end) v.

(** What a transfer adds to the gas of the callee. *)
Definition stipend (v : vm) : Z :=
  match stack v !! 2%nat with Some x => if uIsZero x then 0 else CallStipend | None => 0 end.

(** After EIP-150 the cost is at most the gas there is, or so large that it
    cannot be paid but does not come near [2^64]. *)
Definition payable (v : vm) (c : Z) : Prop := c <= cgas v \/ c < 2 ^ 64 - 2 ^ 57.

Lemma callGas_range eip150 avail base cost :
  0 <= (callGas eip150 avail base cost).1 /\
  (eip150 = true -> in_u64 avail -> 0 <= base < 2 ^ 57 -> (callGas eip150 avail base cost).2 = None ->
   let c := base + (callGas eip150 avail base cost).1 in c <= avail \/ c < 2 ^ 64 - 2 ^ 57).
Proof.
  unfold callGas. set (x := avail -u base). pose proof (sub64_range avail base : in_u64 x) as [Hx1 Hx2].
  assert (0 <= x / 64 <= x) as Hd by (split; [apply Z.div_pos|apply Z.div_le_upper_bound]; lia).
  pose proof (Z.div_mod x 64 ltac:(lia)) as Hdm. pose proof (Z.mod_pos_bound x 64 ltac:(lia)).
  rewrite (sub64_small x) by (unfold in_u64; lia). pose proof (uUint64_range cost) as [Hc1 Hc2].
  split.
  { destruct eip150; [destruct (_ || _); [cbn; lia|]|]; destruct (negb (uIsUint64 cost)); cbn; lia. }
  intros -> [Ha1 Ha2] Hb.
  assert (forall g, g <= x - x / 64 -> base + g <= avail \/ base + g < 2 ^ 64 - 2 ^ 57) as Hg.
  { intros g Hg. destruct (Z_le_gt_dec base avail).
    - left. subst x. rewrite sub64_small in * by (unfold in_u64; lia). lia.
    - right. lia. }
  destruct (negb (uIsUint64 cost)); cbn [orb]; [intros _; apply Hg; cbn; lia|].
  destruct (Z.ltb_spec (x - x / 64) (uUint64 cost)); intros _; apply Hg; cbn; lia.
Qed.

Lemma wp_finishCallGas rules base (Q : vm -> Z + error -> Prop) v :
  0 <= base -> in_u64 (cgas v) ->
  (forall temp, 0 <= temp ->
    (Rules.IsTangerineWhistle rules = true -> base < 2 ^ 57 -> payable v (base + temp)) ->
    Q (set_callGasTemp temp v) (inl (base + temp))) ->
  (forall temp e, Q (set_callGasTemp temp v) (inr e)) -> wp (finishCallGas rules base) Q v.
Proof.
  intros Hb Hv H1 H2. unfold finishCallGas. apply wp_bind, wp_back. intros req Hreq. cbn.
  apply wp_bind, wp_gets. cbn.
  pose proof (callGas_range (Rules.IsTangerineWhistle rules) (cgas v) base req) as [Hr1 Hr2].
  destruct (callGas _ _ _ _) as [temp err] eqn:Ec. cbn in Hr1, Hr2. apply wp_bind, wp_modify. cbn.
  destruct err as [e|]; [by apply wp_throw|]. apply wp_checked_add; [done|done| |apply H2].
  intros Hsum. apply H1; [done|]. intros Ht Hbb. by apply Hr2.
Qed.

(** A calculation before EIP-2929, [extra] being the stipend or nothing. *)
Definition oldCosts (rules : Rules.Rules) (extra : vm -> Z) (old : Z -> vmM Z) : Prop := forall n, 0 <= n ->
  callCosts (fun v c => Rules.IsTangerineWhistle rules = true -> payable v c) extra n (old n).

Ltac call_cases :=
  unfold stipend in *; cbn [negb set_mem set_ibs set_callGasTemp cgas mem stack callGasTemp fst snd] in *;
  repeat match goal with
  | H : stack ?v !! ?i = Some ?x |- context [stack ?v !! ?i] => rewrite H
  | H : uIsZero ?x = _ |- context [uIsZero ?x] => rewrite H
  end; unfold CallStipend, payable in *; gas_side.

Lemma gasCallCode_costs rules : oldCosts rules stipend (gasCallCode rules).
Proof.
  intros n Hn v k Hv Hk. unfold gasCallCode. apply wp_bind.
  eapply wp_memGas; [done|done|intros m c Hm Hc|intros; cbn; gas_side].
  apply wp_bind, wp_back; intros x Hx. cbn. apply wp_bind.
  apply wp_checked_add; [destruct (uIsZero x); gas_side|lia|intros|cbn; gas_side].
  apply wp_finishCallGas; [destruct (uIsZero x); gas_side|done|intros temp Ht Hp|intros; cbn; gas_side].
  destruct (uIsZero x) eqn:Ez; split_and!; try (intros T; apply Hp; [done|]); call_cases.
Qed.

Lemma gasCall_costs rules : oldCosts rules stipend (gasCall rules).
Proof.
  intros n Hn v k Hv Hk. unfold gasCall. apply wp_bind, wp_back; intros x Hx.
  apply wp_bind, wp_back; intros a Ha. apply wp_bind.
  apply (wp_mono _ (fun w r => (cgas w = cgas v /\ mem w = mem v /\ stack w = stack v) /\
    exists c, r = inl c /\ 0 <= c <= CallNewAccountGas)).
  { wp_go; (split; [done|]); (eexists; split; [reflexivity|]); gas_side. }
  intros w r ((Hw1 & Hw2 & Hw3) & c0 & -> & Hc0). rewrite <- Hw1, <- Hw2, <- Hw3 in *.
  apply wp_bind. eapply wp_memGas; [done|done|intros m c Hm Hc|intros; cbn; gas_side]. apply wp_bind.
  rewrite add64_small by gas_side.
  apply wp_checked_add; [destruct (negb (uIsZero x)); gas_side|lia|intros|cbn; gas_side].
  apply wp_finishCallGas; [destruct (negb (uIsZero x)); gas_side|done|intros temp Ht Hp|intros; cbn; gas_side].
  unfold payable in *. rewrite <- Hw1. unfold stipend. rewrite <- Hw3, Hx.
  destruct (uIsZero x) eqn:Ez; split_and!; try (intros T; apply Hp; [done|]); call_cases.
Qed.

Lemma gasDelegateCall_costs rules : oldCosts rules (fun _ => 0) (gasDelegateCall rules).
Proof.
  intros n Hn v k Hv Hk. unfold gasDelegateCall. apply wp_bind.
  eapply wp_memGas; [done|done|intros m c Hm Hc|intros; cbn; gas_side].
  apply wp_finishCallGas; [gas_side|done|intros temp Ht Hp|intros; cbn; gas_side].
  split_and!; try (intros T; apply Hp; [done|]); call_cases.
Qed.

Lemma gasStaticCall_costs rules : oldCosts rules (fun _ => 0) (gasStaticCall rules).
Proof. exact (gasDelegateCall_costs rules). Qed.

Lemma eip2929_costs rules extra old :
  Rules.IsTangerineWhistle rules = true -> (forall u v, stack u = stack v -> extra u = extra v) ->
  (forall v, 0 <= extra v) -> oldCosts rules extra old -> forall n, 0 <= n ->
  callCosts (fun _ _ => True) extra n (makeCallVariantGasCallEIP2929 old n).
Proof.
  intros T He He0 Hold n Hn v k Hv Hk. unfold makeCallVariantGasCallEIP2929. apply wp_bind, wp_back; intros a Ha.
  apply wp_bind, wp_gets. cbn. destruct (AddressInAccessList _ _).
  { eapply wp_mono; [by eapply Hold|]. intros w [c|e]; [|done]. intuition. }
  apply wp_bind, wp_writes. cbn. apply wp_bind. apply wp_useGas; [gas_side|done|cbn; gas_side|intros Hg; cbn].
  set (u := set_cgas _ _). assert (extra u = extra v) as Hx by (by apply He). apply wp_bind.
  eapply wp_mono; [eapply (Hold n Hn u); [subst u; gas_side|exact Hk]|].
  intros w [c|e]; [|subst u; gas_side]. rewrite Hx. subst u. cbn. intros (H1 & H2 & H3 & H4 & H5 & H6).
  apply wp_bind, wp_modify. apply wp_ret. cbn. rewrite H1. specialize (H5 T). unfold payable in H5. cbn in H5.
  pose proof (He0 v). rewrite !add64_small by gas_side. split_and!; try done; gas_side.
Qed.

End GasFunctions.

(** ** Paying for an operation *)

Section Paying.
Context `{U : Uint256} `{W : @Uint256Ops U} `{E : @StateEnv U}.

Lemma resize_memOk m k n m1 fee :
  memOk m k -> 0 <= n -> (32 | n) -> memoryGasCost m n = (m1, inl fee) ->
  exists k', memOk (if 0 <? n then Memory.Resize m1 n else m1) k'.
Proof.
  intros Hm Hn [j ->] Hc.
  assert (j * 32 <= 0x1FFFFFFFE0) as Hle.
  { unfold memoryGasCost in Hc. destruct (Z.eqb_spec (j * 32) 0); [lia|].
    destruct (Z.ltb_spec 0x1FFFFFFFE0 (j * 32)); [done|lia]. }
  destruct (expand_spec m k (j * 32) Hm) as (m2 & He & Hm2); [lia|]. unfold expand in He.
  rewrite ToWordSize_spec in He by lia.
  assert ((j * 32 + 31) / 32 *u 32 = j * 32) as Hw.
  { rewrite Z.div_add_l by lia. rewrite (Z.div_small 31 32), Z.add_0_r by lia. apply mul64_small. unfold in_u64. lia. }
  rewrite Hw, Hc in He. simplify_eq. eauto.
Qed.

Lemma memOk_sameSize v w k : memOk (mem v) k -> sameSize v w -> memOk (mem w) k.
Proof. intros [] (H1 & H2 & H3). split; [done|congruence|congruence]. Qed.

Lemma wp_pay c (Q : vm -> unit + error -> Prop) v :
  0 <= c -> in_u64 (cgas v) -> Q v (inr ErrOutOfGas) -> (c <= cgas v -> Q (set_cgas (cgas v - c) v) (inl tt)) ->
  wp (pay c) Q v.
Proof. intros Hc Hv H1 H2. unfold pay. apply wp_bind, wp_useGas; [done|done|done|]. intros Hle. by apply H2. Qed.

(** The size functions return 64-bit sizes. *)
Definition sizeFunction (f : list u256 -> outcome (Z * bool)) : Prop :=
  forall st sz overflow, f st = Ok (sz, overflow) -> 0 <= sz.

Lemma calcMemSize64WithUint_nonneg off l : 0 <= (calcMemSize64WithUint off l).1.
Proof.
  unfold calcMemSize64WithUint. case_match; [done|]. cbn. case_match; [done|]. cbn.
  pose proof (add64_range (uUint64 off) l). unfold in_u64 in *. lia.
Qed.

Lemma memArgs_nonneg st i j sz overflow : memArgs st i j = Ok (sz, overflow) -> 0 <= sz.
Proof.
  unfold memArgs. intros H. destruct (Stack.Back st i) as [o| |]; try done. destruct (Stack.Back st j) as [l| |]; try done.
  cbn in H. injection H as H. unfold calcMemSize64 in H. destruct (negb (uIsUint64 l)); [simplify_eq; lia|].
  pose proof (calcMemSize64WithUint_nonneg o (uUint64 l)) as Hn. by rewrite H in Hn.
Qed.

Lemma memArgs_size i j : sizeFunction (fun st => memArgs st i j).
Proof. intros st sz o. apply memArgs_nonneg. Qed.

Lemma memWord_size n : sizeFunction (fun st => o ← Stack.Back st 0; Ok (calcMemSize64WithUint o n)).
Proof.
  intros st sz o H. destruct (Stack.Back st 0) as [x| |]; try done. cbn in H. injection H as H.
  pose proof (calcMemSize64WithUint_nonneg x n) as Hn. by rewrite H in Hn.
Qed.

Lemma memAreas_size a b c d : sizeFunction (fun st => memAreas st a b c d).
Proof.
  intros st sz o H. unfold memAreas in H. destruct (memArgs st a b) as [[x ov]| |] eqn:E1; try done. cbn in H.
  destruct ov; [simplify_eq; lia|]. destruct (memArgs st c d) as [[y ov]| |] eqn:E2; try done. cbn in H.
  destruct ov; simplify_eq; [lia|]. apply memArgs_nonneg in E1, E2. case_match; lia.
Qed.

(** Dynamic gas of at least [lo], and memory to go with it. *)
Definition dynamic (lo : Z) (o : operation) : Prop :=
  match dynamicGas o, memorySize o with
  | None, _ => lo = 0
  | Some g, None => costs lo 0 (g 0)
  | Some g, Some f => sizeFunction f /\ forall n, 0 <= n -> costs lo n (g n)
  end.

Lemma wp_memoryNeeded o (Q : vm -> Z + error -> Prop) v :
  (forall f, memorySize o = Some f -> sizeFunction f) ->
  (forall n, 0 <= n -> (32 | n) -> (memorySize o = None -> n = 0) -> Q v (inl n)) -> (forall e, Q v (inr e)) ->
  wp (memoryNeeded o) Q v.
Proof.
  intros Hf H1 H2. unfold memoryNeeded. destruct (memorySize o) as [f|]; [|apply wp_ret, H1; done || by exists 0].
  apply wp_bind, wp_liftv; [|intros e; apply H2]. intros [sz overflow] Hsz. specialize (Hf f eq_refl _ _ _ Hsz).
  destruct overflow; [apply wp_throw, H2|]. pose proof (ToWordSize_nonneg sz Hf).
  apply wp_checked_mul; [done|done| |apply H2]. intros _. apply H1; [lia|by exists (ToWordSize sz)|done].
Qed.

Lemma wp_payDynamic lo o (Q : vm -> unit + error -> Prop) v k :
  dynamic lo o -> 0 <= lo -> in_u64 (cgas v) -> memOk (mem v) k ->
  (forall w k', 0 <= cgas w <= cgas v - lo -> memOk (mem w) k' -> Q w (inl tt)) ->
  (forall w e, 0 <= cgas w <= cgas v -> Q w (inr e)) -> wp (payDynamic o) Q v.
Proof.
  intros Hd Hlo Hv Hk H1 H2. unfold payDynamic, dynamic in *. destruct (dynamicGas o) as [g|].
  2: { subst lo. apply wp_ret. apply (H1 v k); [unfold in_u64 in *; lia|done]. }
  apply wp_bind, wp_memoryNeeded.
  - intros f Hf. rewrite Hf in Hd. apply Hd.
  - intros n Hn H32 Hnone.
    assert (costs lo n (g n)) as Hc.
    { destruct (memorySize o); [by apply Hd|]. by rewrite Hnone. }
    apply wp_bind. specialize (Hc v k Hv Hk). unfold wp, orOutOfGas in *.
    destruct (g n v) as [[w [c|e]]| |]; [|by apply H2|done|done].
    destruct Hc as (Hg & Hc & fee & Hm). apply wp_bind, wp_pay; [lia|by rewrite Hg|apply H2; unfold in_u64 in *; lia|].
    intros Hle. destruct (resize_memOk _ _ _ _ _ Hk Hn H32 Hm) as [k' Hk'].
    destruct (0 <? n); [apply wp_modify|apply wp_ret]; apply (H1 _ k'); cbn; unfold in_u64 in *; try lia; exact Hk'.
  - intros e. apply H2. unfold in_u64 in *. lia.
Qed.

(** ** Operations that cost gas or end the frame *)

Definition halts (e : exec) : Prop := forall v w res, e v <> Ok (w, inl (res, None)).

(** Running the operation after the stack check. *)
Definition paid (o : operation) : exec := _ ← pay (constantGas o); _ ← payDynamic o; execute o.

Definition goodOp (o : operation) : Prop := forall v k, in_u64 (cgas v) -> memOk (mem v) k ->
  wp (paid o) (fun w r => 0 <= cgas w <= cgas v /\
    forall res, r = inl (res, None) -> cgas w < cgas v /\ exists k', memOk (mem w) k') v.

Lemma plain_good lo o :
  0 <= constantGas o -> 0 <= lo -> dynamic lo o -> quietly (execute o) ->
  halts (execute o) \/ 1 <= constantGas o + lo -> goodOp o.
Proof.
  intros Hc Hlo Hd Hq Hp v k Hv Hk. unfold paid. apply wp_bind, wp_pay; [done|done|unfold in_u64 in *; split; [lia|done]|].
  intros Hle. apply wp_bind. eapply (wp_payDynamic lo); [done|done|cbn; unfold in_u64 in *; lia|exact Hk|..]; cbn.
  2: { intros w e Hw. split; [unfold in_u64 in *; lia|done]. }
  intros w k' Hw Hk'. destruct Hp as [Hh|Hp].
  - pose proof (Hq w) as Hqw. unfold wp in *. specialize (Hh w). destruct (execute o w) as [[u r]| |]; [|done|done].
    destruct Hqw as (Hg & _). split; [lia|]. intros res ->. by destruct (Hh u res).
  - eapply wp_mono; [apply Hq|]. intros u r Hs. destruct Hs as (Hg & Hs). split; [lia|]. intros res _. split; [lia|].
    exists k'. eapply memOk_sameSize; [exact Hk'|]. by split.
Qed.

End Paying.

(** ** Calls and creations *)

Section Calls.
Context `{U : Uint256} `{W : @Uint256Ops U} `{E : @StateEnv U}.

(** The frame of the caller is as it was. *)
Definition sameFrame (v w : vm) : Prop := cgas w = cgas v /\ mem w = mem v /\ stack w = stack v.

Lemma sameFrame_trans u v w : sameFrame u v -> sameFrame v w -> sameFrame u w.
Proof. unfold sameFrame. intuition congruence. Qed.

(** A call gives back at most the gas it is given. *)
Definition callGives (g : Z) (m : vmM (list Z * Z * option error)) : Prop := forall v,
  wp m (fun w r => sameFrame v w /\ exists ret left err, r = inl (ret, left, err) /\ 0 <= left <= g) v.
Definition createGives (g : Z) (m : vmM (list Z * Address * Z * option error)) : Prop := forall v,
  wp m (fun w r => sameFrame v w /\ exists ret a left err, r = inl (ret, a, left, err) /\ 0 <= left <= g) v.

Record callsGive (calls : Calls) : Prop := {
  cg_Call : forall a d g x, in_u64 g -> callGives g (Instructions.Call calls a d g x);
  cg_CallCode : forall a d g x, in_u64 g -> callGives g (CallCode calls a d g x);
  cg_DelegateCall : forall a d g, in_u64 g -> callGives g (DelegateCall calls a d g);
  cg_StaticCall : forall a d g, in_u64 g -> callGives g (StaticCall calls a d g);
  cg_Create : forall d g x, in_u64 g -> createGives g (Instructions.Create calls d g x);
  cg_Create2 : forall d g x y, in_u64 g -> createGives g (Create2 calls d g x y)
}.

(** Executing a call: the gas grows by at most what went with it. *)
Definition callExec (extra : vm -> Z) (e : exec) : Prop := forall v k,
  0 <= cgas v -> 0 <= callGasTemp v -> cgas v + extra v + callGasTemp v < two64 -> memOk (mem v) k ->
  wp e (fun w r => 0 <= cgas w <= cgas v + extra v + callGasTemp v /\ memOk (mem w) k) v.

Lemma call_good extra P o g f :
  (forall u v, stack u = stack v -> extra u = extra v) -> (forall v, 0 <= extra v) ->
  1 <= constantGas o -> dynamicGas o = Some g -> memorySize o = Some f -> sizeFunction f ->
  (forall n, 0 <= n -> callCosts P extra n (g n)) -> callExec extra (execute o) -> goodOp o.
Proof.
  intros Hst He0 Hc Hg Hf Hsz Hcost Hex v k Hv Hk. unfold paid. apply wp_bind, wp_pay; [lia|done| |].
  { unfold in_u64 in *. split; [lia|done]. }
  intros Hle. apply wp_bind. unfold payDynamic. rewrite Hg. cbn. set (v1 := set_cgas _ v).
  assert (in_u64 (cgas v1)) as Hv1 by (subst v1; unfold in_u64 in *; cbn; lia).
  assert (forall w (e : error), 0 <= cgas w <= cgas v1 ->
    0 <= cgas w <= cgas v /\ forall res, inr e = inl (A := list Z * option error) (res, None) ->
      cgas w < cgas v /\ exists k', memOk (mem w) k') as Herr.
  { intros w e Hw. subst v1. cbn in *. split; [lia|done]. }
  apply wp_bind, wp_memoryNeeded.
  - intros f' Hf'. rewrite Hf in Hf'. by simplify_eq.
  - intros n Hn H32 _. apply wp_bind. specialize (Hcost n Hn v1 k Hv1 Hk). unfold wp, orOutOfGas in *.
    destruct (g n v1) as [[w [c|e]]| |]; [|by apply Herr|done|done].
    destruct Hcost as (H1 & H2 & H3 & H4 & _ & fee & Hm). pose proof (He0 v1).
    apply wp_bind, wp_pay; [lia|by rewrite H1|apply Herr; unfold in_u64 in *; lia|]. intros Hle2.
    destruct (resize_memOk _ _ _ _ _ Hk Hn H32 Hm) as [k' Hk'].
    set (w1 := set_cgas (cgas w - c) w). set (w2 := set_mem (if 0 <? n then Memory.Resize (mem w) n else mem w) w1).
    assert ((if 0 <? n then modify (fun v => set_mem (Memory.Resize (mem v) n) v) else mret tt) w1 = Ok (w2, inl tt)) as Hrun.
    { subst w2. destruct (0 <? n); [done|]. by destruct w. }
    unfold wp. rewrite Hrun. fold (wp (execute o) (fun w r => 0 <= cgas w <= cgas v /\
      forall res, r = inl (res, None) -> cgas w < cgas v /\ exists k', memOk (mem w) k') w2).
    assert (extra w2 = extra v1) as Hx by (apply Hst; exact H2).
    assert (cgas w2 = cgas w - c) as Hgw by done. assert (callGasTemp w2 = callGasTemp w) as Htw by done.
    eapply wp_mono; [apply (Hex w2 k'); subst v1; cbn in *; unfold in_u64 in *; first [exact Hk'|lia]|].
    intros u r [Hu Hmu]. rewrite Hx, Hgw, Htw in Hu. subst v1. cbn in *.
    split; [lia|]. intros res _. split; [lia|eauto].
  - intros e. apply Herr. unfold in_u64 in *. lia.
Qed.

Lemma create_good o :
  1 <= constantGas o -> dynamic 0 o ->
  (forall v k, in_u64 (cgas v) -> memOk (mem v) k ->
     wp (execute o) (fun w r => 0 <= cgas w <= cgas v /\ memOk (mem w) k) v) -> goodOp o.
Proof.
  intros Hc Hd Hex v k Hv Hk. unfold paid. apply wp_bind, wp_pay; [lia|done|unfold in_u64 in *; split; [lia|done]|].
  intros Hle. apply wp_bind. eapply (wp_payDynamic 0); [done|done|cbn; unfold in_u64 in *; lia|exact Hk|..]; cbn.
  2: { intros w e Hw. split; [unfold in_u64 in *; lia|done]. }
  intros w k' Hw Hk'. eapply wp_mono; [apply (Hex w k'); [unfold in_u64 in *; lia|done]|].
  intros u r [Hu Hmu]. split; [lia|]. intros res _. split; [lia|eauto].
Qed.

Lemma memOk_same m m' k :
  Memory.Len m' = Memory.Len m -> Memory.lastGasCost m' = Memory.lastGasCost m -> memOk m k -> memOk m' k.
Proof. intros H1 H2 []. split; [done|congruence|congruence]. Qed.

Lemma wp_quietly {A} (m : vmM A) (Q : vm -> A + error -> Prop) v :
  quietly m -> (forall w r, sameSize v w -> Q w r) -> wp m Q v.
Proof. intros Hm H. eapply wp_mono; [apply Hm|]. auto. Qed.

Lemma wp_finishCall ro rs r v k g :
  0 <= r.1.2 <= g -> 0 <= cgas v -> cgas v + g < two64 -> memOk (mem v) k ->
  wp (finishCall ro rs r) (fun w _ => 0 <= cgas w <= cgas v + g /\ memOk (mem w) k) v.
Proof.
  destruct r as [[ret left] err]. cbn. intros Hl Hv Hsum Hk. unfold finishCall.
  apply wp_bind. apply wp_quietly; [apply quietly_push|]. intros v1 [] (Hg1 & Hl1 & Hf1); [|split; [lia|by eapply memOk_same]].
  apply wp_bind. apply wp_quietly; [quiet|].
  intros v2 [] (Hg2 & Hl2 & Hf2); [|split; [lia|eapply memOk_same; [..|done]; congruence]].
  apply wp_bind, wp_modify. apply wp_bind, wp_modify. apply wp_ret. cbn.
  rewrite add64_small by (unfold in_u64; lia). split; [lia|]. eapply memOk_same; [..|done]; congruence.
Qed.

(** Popping a word whose value the stipend may depend on. *)
Lemma wp_pop (Q : vm -> u256 + error -> Prop) v :
  (forall x st, stack v = x :: st -> Q (set_stack st v) (inl x)) -> wp pop Q v.
Proof. intros H. unfold wp, pop. destruct (stack v) eqn:Es; cbn; auto. Qed.

Variable calls : Calls.
Hypothesis Hcalls : callsGive calls.

Ltac pop_word := apply wp_bind, wp_pop; intros ? ? ?; cbn [set_stack stack] in *.

Lemma wp_getPtr o l (Q : vm -> list Z + error -> Prop) v : (forall r, Q v r) -> wp (getPtr o l) Q v.
Proof. intros H. unfold getPtr. apply wp_liftv; intros; apply H. Qed.

(** The end of a call instruction that hands [g] to the callee. *)
Lemma wp_called ro rs m g v k :
  callGives g m -> 0 <= cgas v -> cgas v + g < two64 -> memOk (mem v) k ->
  wp (r ← m; finishCall ro rs r) (fun w _ => 0 <= cgas w <= cgas v + g /\ memOk (mem w) k) v.
Proof.
  intros Hm Hv Hsum Hk. apply wp_bind. eapply wp_mono; [apply Hm|].
  intros w r ((F1 & F2 & F3) & ret & left & err & -> & Hleft).
  rewrite <- F1 in *. eapply wp_mono; [apply (wp_finishCall _ _ _ w k g); [done|lia|lia|by rewrite F2]|]. done.
Qed.

(** The gas of a call with a value: what was set aside and the stipend. *)
Lemma stipend_gas v temp (x : u256) :
  0 <= temp -> stack v !! 2%nat = Some x -> stipend v + temp < two64 ->
  (if uIsZero x then temp else temp +u CallStipend) = stipend v + temp /\ in_u64 (stipend v + temp).
Proof.
  intros Ht Hx Hs. unfold stipend in *. rewrite Hx in *. unfold CallStipend, in_u64 in *.
  destruct (uIsZero x); [lia|]. rewrite add64_small by (unfold in_u64; lia). lia.
Qed.

Lemma stipend_nonneg v : 0 <= stipend v.
Proof. unfold stipend, CallStipend. repeat case_match; lia. Qed.

Lemma opCall_exec fr : callExec stipend (opCall fr calls).
Proof.
  intros v k Hv Ht Hsum Hk. pose proof (stipend_nonneg v). unfold opCall. pop_word. apply wp_bind, wp_gets.
  do 6 pop_word. cbn. apply wp_bind, wp_getPtr. intros [args|e]; [|split; [cbn; lia|done]].
  destruct (negb (uIsZero x1) && readOnly fr); [split; [cbn; lia|done]|].
  destruct (stipend_gas v (callGasTemp v) x1) as [-> Hg]; [done|subst; match goal with H : stack v = _ |- _ => by rewrite H end|lia|].
  eapply wp_mono; [apply (wp_called _ _ _ (stipend v + callGasTemp v) _ k); [by apply Hcalls|done|cbn; lia|done]|].
  intros w r [Hw Hm]. cbn in Hw. split; [lia|done].
Qed.

Lemma opCallCode_exec : callExec stipend (opCallCode calls).
Proof.
  intros v k Hv Ht Hsum Hk. pose proof (stipend_nonneg v). unfold opCallCode. pop_word. apply wp_bind, wp_gets.
  do 6 pop_word. cbn. apply wp_bind, wp_getPtr. intros [args|e]; [|split; [cbn; lia|done]].
  destruct (stipend_gas v (callGasTemp v) x1) as [-> Hg]; [done|subst; match goal with H : stack v = _ |- _ => by rewrite H end|lia|].
  eapply wp_mono; [apply (wp_called _ _ _ (stipend v + callGasTemp v) _ k); [by apply Hcalls|done|cbn; lia|done]|].
  intros w r [Hw Hm]. cbn in Hw. split; [lia|done].
Qed.

Lemma opDelegateCall_exec : callExec (fun _ => 0) (opDelegateCall calls).
Proof.
  intros v k Hv Ht Hsum Hk. unfold opDelegateCall. pop_word. apply wp_bind, wp_gets.
  do 5 pop_word. cbn. apply wp_bind, wp_getPtr. intros [args|e]; [|split; [cbn; lia|done]].
  eapply wp_mono; [apply (wp_called _ _ _ (callGasTemp v) _ k);
    [apply Hcalls; unfold in_u64; lia|done|cbn; lia|done]|].
  intros w r [Hw Hm]. cbn in Hw. split; [lia|done].
Qed.

Lemma opStaticCall_exec : callExec (fun _ => 0) (opStaticCall calls).
Proof.
  intros v k Hv Ht Hsum Hk. unfold opStaticCall. pop_word. apply wp_bind, wp_gets.
  do 5 pop_word. cbn. apply wp_bind, wp_getPtr. intros [args|e]; [|split; [cbn; lia|done]].
  eapply wp_mono; [apply (wp_called _ _ _ (callGasTemp v) _ k);
    [apply Hcalls; unfold in_u64; lia|done|cbn; lia|done]|].
  intros w r [Hw Hm]. cbn in Hw. split; [lia|done].
Qed.

(** A creation hands over part of the gas of its frame. *)
Lemma wp_creation m g (f : list Z * Address * Z * option error -> exec) v k :
  createGives g m -> 0 <= g <= cgas v -> in_u64 (cgas v) -> memOk (mem v) k ->
  (forall ret a left err u, 0 <= left <= g -> cgas u = cgas v - g -> memOk (mem u) k ->
     wp (f (ret, a, left, err)) (fun w _ => 0 <= cgas w <= cgas v /\ memOk (mem w) k) u) ->
  wp (_ ← useGas g; r ← m; f r) (fun w _ => 0 <= cgas w <= cgas v /\ memOk (mem w) k) v.
Proof.
  intros Hm Hg Hv Hk Hf. apply wp_bind, wp_useGas; [lia|done|lia|]. intros _. apply wp_bind.
  eapply wp_mono; [apply Hm|]. intros w r ((F1 & F2 & F3) & ret & a & left & err & -> & Hleft).
  cbn in F1, F2. apply Hf; [done|done|by rewrite F2].
Qed.

Lemma share_64 g : in_u64 g -> 0 <= g -u g / 64 <= g.
Proof.
  intros [H1 H2]. assert (0 <= g / 64 <= g) by (split; [apply Z.div_pos|apply Z.div_le_upper_bound]; lia).
  rewrite sub64_small by (unfold in_u64; lia). lia.
Qed.

Lemma wp_getCopy o l (Q : vm -> list Z + error -> Prop) v : (forall r, Q v r) -> wp (getCopy o l) Q v.
Proof. intros H. unfold getCopy. apply wp_liftv; intros; apply H. Qed.

(** After a creation: the result word, the gas that came back, the data. *)
Lemma wp_created (put : vmM unit) left (rest : exec) u k g gas :
  quietly put -> quietly rest -> 0 <= left <= g -> g <= gas -> in_u64 gas -> cgas u = gas - g -> memOk (mem u) k ->
  wp (_ ← put; _ ← returnGas left; rest) (fun w _ => 0 <= cgas w <= gas /\ memOk (mem w) k) u.
Proof.
  intros Hp Hr Hl Hg Hgas Hu Hk. unfold in_u64 in *. apply wp_bind. apply wp_quietly; [done|].
  intros u1 [] (G1 & G2 & G3); [|split; [lia|by eapply memOk_same]].
  apply wp_bind, wp_modify. apply wp_quietly; [done|]. intros u2 r (K1 & K2 & K3). cbn in *.
  rewrite add64_small in K1 by (unfold in_u64; lia). split; [lia|]. eapply memOk_same; [..|exact Hk]; congruence.
Qed.

Lemma opCreate_exec evm fr v k : in_u64 (cgas v) -> memOk (mem v) k ->
  wp (opCreate evm fr calls) (fun w r => 0 <= cgas w <= cgas v /\ memOk (mem w) k) v.
Proof.
  intros Hv Hk. pose proof Hv as [? ?]. unfold opCreate. destruct (readOnly fr); [split; [lia|done]|].
  pop_word. pop_word. apply wp_bind. apply wp_quietly; [apply quietly_peek|].
  intros u1 [size|e] (G1 & G2 & G3); cbn in G1, G2, G3; [|split; [lia|by eapply memOk_same]].
  apply wp_bind, wp_getCopy. intros [input|e]; [|split; [lia|by eapply memOk_same]]. apply wp_bind, wp_gets.
  rewrite <- G1 in *. pose proof (share_64 _ Hv).
  apply wp_creation; [apply Hcalls; unfold in_u64 in *; case_match; lia|case_match; lia|done|by eapply memOk_same|].
  intros ret a left err u Hl Hu Hku. eapply wp_created; [quiet|quiet|exact Hl| |done|exact Hu|done]. case_match; lia.
Qed.

Lemma opCreate2_exec fr v k : in_u64 (cgas v) -> memOk (mem v) k ->
  wp (opCreate2 fr calls) (fun w r => 0 <= cgas w <= cgas v /\ memOk (mem w) k) v.
Proof.
  intros Hv Hk. pose proof Hv as [? ?]. unfold opCreate2. destruct (readOnly fr); [split; [lia|done]|].
  do 4 pop_word. apply wp_bind, wp_getCopy. intros [input|e]; [|split; [cbn; lia|done]]. apply wp_bind, wp_gets. cbn.
  pose proof (share_64 _ Hv).
  apply (wp_creation _ _ _ (set_stack st2 v) k); [apply Hcalls; unfold in_u64 in *; lia|done|done|done|].
  intros ret a left err u Hl Hu Hku. cbn in Hu.
  apply (wp_created _ _ _ u k (cgas v -u cgas v / 64)); quiet; try done; cbn; lia.
Qed.

End Calls.
