(* ===== verification/InstructionSets.v ===== *)
(** * InstructionSets: the gas of every instruction set

    [InterpreterGas] says what it is for an operation to pay its way.  Here every
    entry of every instruction set [NewEVMInterpreter] can choose is shown to
    be of that kind. *)

From S2P Require Import Prelude Uint256 ChainConfig AccessList StateModel StateTransition Analysis EvmMemory Words EvmGas Instructions JumpTable Interpreter InterpreterGas.

Create HintDb instr.
#[export] Hint Unfold done halt opAdd opSub opMul opDiv opSdiv opMod opSmod opExp opSignExtend opNot opLt opGt opSlt
  opSgt opEq opIszero opAnd opOr opXor opByte opAddmod opMulmod opSHL opSHR opSAR getPtr getCopy opKeccak256 opPop
  opMload opMstore opMstore8 opMsize opAddress opBalance opOrigin opCaller opCallValue opCallDataLoad opCallDataSize
  opCallDataCopy opReturnDataSize opReturnDataCopy opExtCodeSize opCodeSize opCodeCopy opExtCodeCopy opExtCodeHash
  opGasprice opBlockhash opCoinbase opTimestamp opNumber opDifficulty opGasLimit opSelfBalance opChainID opBaseFee
  opPush0 opSload opSstore opJump opJumpi opJumpdest opPc opGas opReturn opRevert opUndefined opStop opSelfdestruct
  opCreate opCreate2 opCall opCallCode opDelegateCall opStaticCall makeLog opPush1 makePush : instr.
#[export] Hint Unfold GasQuickStep GasFastestStep GasFastStep GasMidStep GasSlowStep GasExtStep Keccak256Gas
  JumpdestGas CreateGas Create2Gas CallGasFrontier CallGasEIP150 BalanceGasFrontier BalanceGasEIP150
  BalanceGasEIP1884 ExtcodeSizeGasFrontier ExtcodeSizeGasEIP150 SloadGasFrontier SloadGasEIP150 SloadGasEIP1884
  ExtcodeHashGasConstantinople ExtcodeHashGasEIP1884 ExtcodeCopyBaseFrontier ExtcodeCopyBaseEIP150 : evm.

(** What a gas function costs. *)
Ltac cost_op := first
  [ apply memoryCopierGas_costs | apply gasKeccak256_costs | apply pureMemoryGascost_costs | apply gasCreate2_costs
  | apply initCodeGas_costs | apply gasExp_costs | apply gasSStore_costs | apply gasSStoreEIP2200_costs
  | apply makeGasSStoreFunc_costs | apply gasSLoadEIP2929_costs | apply gasExtCodeCopyEIP2929_costs
  | apply gasEip2929AccountCheck_costs | apply gasSelfdestruct_costs | apply makeSelfdestructGasFn_costs
  | apply makeGasLog_costs ]; try lia.

(** The entry as the record it is. *)
Ltac norm_entry o :=
  let e := eval lazy beta iota zeta delta [op withConst withGas withMax withMemory execute constantGas dynamicGas maxStack
    numPop numPush memorySize snd
    pushEntry dupEntry swapEntry upd put validateAndFillMaxStack newFrontierInstructionSet newHomesteadInstructionSet
    newTangerineWhistleInstructionSet newSpuriousDragonInstructionSet newByzantiumInstructionSet
    newConstantinopleInstructionSet newIstanbulInstructionSet newBerlinInstructionSet newLondonInstructionSet
    newShanghaiInstructionSet enable1344 enable1884 enable2200 enable2929 enable3198 enable3529 enable3855 enable3860
    id default from_option entry frontierTable frontierEntries app map seq Z.eqb Pos.eqb
    STOP ADD MUL SUB DIV SDIV MOD SMOD ADDMOD MULMOD EXP SIGNEXTEND LT GT SLT SGT EQ ISZERO AND OR XOR NOT BYTE
    SHL SHR SAR KECCAK256 ADDRESS BALANCE ORIGIN CALLER CALLVALUE CALLDATALOAD CALLDATASIZE CALLDATACOPY
    CODESIZE CODECOPY GASPRICE EXTCODESIZE EXTCODECOPY RETURNDATASIZE RETURNDATACOPY EXTCODEHASH BLOCKHASH
    COINBASE TIMESTAMP NUMBER DIFFICULTY GASLIMIT CHAINID SELFBALANCE BASEFEE POP MLOAD MSTORE MSTORE8 SLOAD
    SSTORE JUMP JUMPI PC MSIZE GAS JUMPDEST PUSH0 PUSH1 DUP1 SWAP1 LOG0 LOG1 LOG2 LOG3 LOG4 CREATE CALL CALLCODE
    RETURN DELEGATECALL CREATE2 STATICCALL REVERT SELFDESTRUCT] in o in
  constr:(e).

Section Tables.
Context `{U : Uint256} `{W : @Uint256Ops U} `{E : @StateEnv U}.
Variable evm : EVM.
Variable fr : Frame.
Variable calls : Calls.
Hypothesis Hcalls : callsGive calls.

Let rules := chainRules evm.

Definition tableGood (jt : JumpTable) : Prop := forall i, goodOp (jt i).

Lemma tableGood_fill jt : tableGood jt -> tableGood (validateAndFillMaxStack jt).
Proof. intros H i. exact (H i). Qed.

Lemma tableGood_upd i f jt : tableGood jt -> goodOp (f (jt i)) -> tableGood (upd i f jt).
Proof. intros H Hf j. unfold upd. by case_match. Qed.

Lemma tableGood_put i o jt : tableGood jt -> goodOp o -> tableGood (put i o jt).
Proof. intros H Ho. by apply tableGood_upd. Qed.

(** ** Kinds of entries *)

(** Without dynamic gas: a constant cost, or the end of the frame. *)
Lemma const_good e g mx p q : quietly e -> 0 <= g -> halts e \/ 1 <= g -> goodOp (mkOperation e g None mx p q None).
Proof. intros. apply (plain_good 0); cbn; auto; [done|]. destruct H1; [by left|right; lia]. Qed.

(** With dynamic gas. *)
Lemma gas_good lo e g d mx p q :
  quietly e -> 0 <= g -> 0 <= lo -> costs lo 0 (d 0) -> halts e \/ 1 <= g + lo -> goodOp (mkOperation e g (Some d) mx p q None).
Proof. intros. by apply (plain_good lo). Qed.

Lemma memory_good lo e g d f mx p q :
  quietly e -> 0 <= g -> 0 <= lo -> sizeFunction f -> (forall n, 0 <= n -> costs lo n (d n)) -> halts e \/ 1 <= g + lo ->
  goodOp (mkOperation e g (Some d) mx p q (Some f)).
Proof. intros. by apply (plain_good lo). Qed.

Lemma halts_bind {A} (m : vmM A) (f : A -> exec) : (forall a, halts (f a)) -> halts (m ≫= f).
Proof.
  intros Hf v w res He. unfold mbind, vmM_bind in He. destruct (m v) as [[u [a|e]]| |]; try done. by eapply Hf.
Qed.

Lemma halts_halt ret e : halts (halt ret e).
Proof. intros v w res. done. Qed.

Lemma halts_throw e : halts (throw e).
Proof. intros v w res. done. Qed.

Lemma undefined_good : goodOp (op opUndefined 0 0 0).
Proof.
  apply const_good; [|done|left].
  - unfold opUndefined. quiet.
  - apply halts_bind. intros x. apply halts_bind. intros y. apply halts_throw.
Qed.

(** Calls, with the gas functions before and from Berlin on. *)
Lemma stipend_stack u v : stack u = stack v -> stipend u = stipend v.
Proof. unfold stipend. by intros ->. Qed.

Lemma opCall_good P c g mx p q :
  1 <= c -> (forall n, 0 <= n -> callCosts P stipend n (g n)) ->
  goodOp (mkOperation (opCall fr calls) c (Some g) mx p q (Some memoryCall)).
Proof.
  intros. apply (call_good stipend P _ g memoryCall); try done; [apply stipend_stack|apply stipend_nonneg|apply memAreas_size|by apply opCall_exec].
Qed.

Lemma opCallCode_good P c g mx p q :
  1 <= c -> (forall n, 0 <= n -> callCosts P stipend n (g n)) ->
  goodOp (mkOperation (opCallCode calls) c (Some g) mx p q (Some memoryCall)).
Proof.
  intros. apply (call_good stipend P _ g memoryCall); try done; [apply stipend_stack|apply stipend_nonneg|apply memAreas_size|by apply opCallCode_exec].
Qed.

Lemma opDelegateCall_good P c g mx p q :
  1 <= c -> (forall n, 0 <= n -> callCosts P (fun _ => 0) n (g n)) ->
  goodOp (mkOperation (opDelegateCall calls) c (Some g) mx p q (Some memoryDelegateCall)).
Proof.
  intros. apply (call_good (fun _ => 0) P _ g memoryDelegateCall); try done; [apply memAreas_size|by apply opDelegateCall_exec].
Qed.

Lemma opStaticCall_good P c g mx p q :
  1 <= c -> (forall n, 0 <= n -> callCosts P (fun _ => 0) n (g n)) ->
  goodOp (mkOperation (opStaticCall calls) c (Some g) mx p q (Some memoryStaticCall)).
Proof.
  intros. apply (call_good (fun _ => 0) P _ g memoryStaticCall); try done; [apply memAreas_size|by apply opStaticCall_exec].
Qed.

Lemma opCreate_good c g mx p q :
  1 <= c -> (forall n, 0 <= n -> costs 0 n (g n)) ->
  goodOp (mkOperation (opCreate evm fr calls) c (Some g) mx p q (Some memoryCreate)).
Proof. intros. apply create_good; [done|split; [apply memArgs_size|done]|]. intros. by apply opCreate_exec. Qed.

Lemma opCreate2_good c g mx p q :
  1 <= c -> (forall n, 0 <= n -> costs 0 n (g n)) ->
  goodOp (mkOperation (opCreate2 fr calls) c (Some g) mx p q (Some memoryCreate2)).
Proof. intros. apply create_good; [done|split; [apply memArgs_size|done]|]. intros. by apply opCreate2_exec. Qed.

Lemma quietly_jumpTo pos : quietly (jumpTo pos).
Proof.
  apply quietly_bind; [|intros valid; quiet].
  intros v. unfold wp. destruct (Analysis.validJumpdest (contract v) pos) as [[[r b] c]| |]; done.
Qed.

Lemma quietly_makeDup n : quietly (makeDup n).
Proof. intros v. unfold wp, makeDup. by destruct (Stack.Dup _ _). Qed.
Lemma quietly_makeSwap n : quietly (makeSwap n).
Proof. intros v. unfold wp, makeSwap. by destruct (Stack.Swap _ _). Qed.

#[local] Hint Resolve quietly_jumpTo quietly_makeDup quietly_makeSwap : evm.
(** [quiet] on the body of an instruction. *)
Ltac quiet_op := autounfold with instr; quiet.
Ltac halts_op := autounfold with instr; repeat first [apply halts_halt | apply halts_throw | apply halts_bind; intros ? | case_match].
Ltac size_op := first [apply memArgs_size | apply memWord_size | apply memAreas_size].
Ltac halts_or_pays := first [right; done | left; solve [halts_op]].
Ltac plain_op :=
  lazymatch goal with
  | |- goodOp (mkOperation _ _ None _ _ _ _) => apply const_good; [solve [quiet_op]|done|halts_or_pays]
  | |- goodOp (mkOperation _ _ _ _ _ _ None) => eapply gas_good; [solve [quiet_op]|done| |cost_op|]; [done|halts_or_pays]
  | |- _ => eapply memory_good; [solve [quiet_op]|done| |size_op|intros; cost_op|]; [done|halts_or_pays]
  end.
Ltac call_op := first
  [ eapply opCall_good; [done|apply gasCall_costs]
  | eapply opCallCode_good; [done|apply gasCallCode_costs]
  | eapply opDelegateCall_good; [done|apply gasDelegateCall_costs]
  | eapply opStaticCall_good; [done|apply gasStaticCall_costs]
  | apply opCreate_good; [done|intros; cost_op]
  | apply opCreate2_good; [done|intros; cost_op] ].
Ltac norm_op := match goal with |- goodOp ?o => let e := norm_entry o in change (goodOp e) end.
Ltac good_op := norm_op;
  lazymatch goal with
  | |- goodOp (mkOperation (opCall _ _) _ _ _ _ _ _) => call_op
  | |- goodOp (mkOperation (opCallCode _) _ _ _ _ _ _) => call_op
  | |- goodOp (mkOperation (opDelegateCall _) _ _ _ _ _ _) => call_op
  | |- goodOp (mkOperation (opStaticCall _) _ _ _ _ _ _) => call_op
  | |- goodOp (mkOperation (opCreate _ _ _) _ _ _ _ _ _) => call_op
  | |- goodOp (mkOperation (opCreate2 _ _) _ _ _ _ _ _) => call_op
  | |- _ => plain_op
  end.

Lemma frontierEntries_good : Forall (fun e => goodOp e.2) (frontierEntries evm fr calls).
Proof.
  unfold frontierEntries. repeat (apply Forall_cons; split; [good_op|]). by apply Forall_nil.
Qed.

Lemma newFrontier_good : tableGood (newFrontierInstructionSet evm fr calls).
Proof.
  apply tableGood_fill. intros i.
  assert (Forall (fun e => goodOp e.2) (frontierTable evm fr calls)) as H.
  { unfold frontierTable. rewrite !Forall_app, !Forall_map. split_and!; [apply frontierEntries_good|..];
      apply Forall_true; intros n; good_op. }
  induction H as [|[j o] l Ho Hl IH]; [apply undefined_good|]. cbn. by destruct (j =? i).
Qed.

(** ** The forks *)

Ltac good_upd := apply tableGood_fill; repeat first [assumption | apply tableGood_put; [|good_op] | apply tableGood_upd; [|good_op]].

Lemma newHomestead_good : tableGood (newHomesteadInstructionSet evm fr calls).
Proof. pose proof newFrontier_good. good_upd. Qed.

Lemma newTangerineWhistle_good : tableGood (newTangerineWhistleInstructionSet evm fr calls).
Proof. pose proof newHomestead_good. good_upd. Qed.

Lemma newSpuriousDragon_good : tableGood (newSpuriousDragonInstructionSet evm fr calls).
Proof. pose proof newTangerineWhistle_good. good_upd. Qed.

Lemma newByzantium_good : tableGood (newByzantiumInstructionSet evm fr calls).
Proof. pose proof newSpuriousDragon_good. good_upd. Qed.

Lemma newConstantinople_good : tableGood (newConstantinopleInstructionSet evm fr calls).
Proof. pose proof newByzantium_good. good_upd. Qed.

Lemma newIstanbul_good : tableGood (newIstanbulInstructionSet evm fr calls).
Proof. pose proof newConstantinople_good. unfold newIstanbulInstructionSet, enable1344, enable1884, enable2200. good_upd. Qed.

(** From Berlin on a call may cost more by the price of a cold account. *)
Section Berlin.
Hypothesis T : Rules.IsTangerineWhistle rules = true.

Definition coldCosts (extra : vm -> Z) (g : Z -> vmM Z) : Prop := forall n, 0 <= n -> callCosts (fun _ _ => True) extra n (g n).

Lemma gasCallEIP2929_costs : coldCosts stipend (gasCallEIP2929 rules).
Proof. intros n Hn. apply (eip2929_costs rules stipend (gasCall rules) T); [apply stipend_stack|apply stipend_nonneg|apply gasCall_costs|done]. Qed.
Lemma gasCallCodeEIP2929_costs : coldCosts stipend (gasCallCodeEIP2929 rules).
Proof. intros n Hn. apply (eip2929_costs rules stipend (gasCallCode rules) T); [apply stipend_stack|apply stipend_nonneg|apply gasCallCode_costs|done]. Qed.
Lemma gasDelegateCallEIP2929_costs : coldCosts (fun _ => 0) (gasDelegateCallEIP2929 rules).
Proof. intros n Hn. apply (eip2929_costs rules (fun _ => 0) (gasDelegateCall rules) T); [done|done|apply gasDelegateCall_costs|done]. Qed.
Lemma gasStaticCallEIP2929_costs : coldCosts (fun _ => 0) (gasStaticCallEIP2929 rules).
Proof. intros n Hn. apply (eip2929_costs rules (fun _ => 0) (gasStaticCall rules) T); [done|done|apply gasStaticCall_costs|done]. Qed.

Ltac call_op ::= first
  [ eapply opCall_good; [done|exact gasCallEIP2929_costs]
  | eapply opCallCode_good; [done|exact gasCallCodeEIP2929_costs]
  | eapply opDelegateCall_good; [done|exact gasDelegateCallEIP2929_costs]
  | eapply opStaticCall_good; [done|exact gasStaticCallEIP2929_costs]
  | apply opCreate_good; [done|intros; cost_op]
  | apply opCreate2_good; [done|intros; cost_op] ].

Lemma newBerlin_good : tableGood (newBerlinInstructionSet evm fr calls).
Proof. pose proof newIstanbul_good. unfold newBerlinInstructionSet, enable2929. good_upd. Qed.

Lemma newLondon_good : tableGood (newLondonInstructionSet evm fr calls).
Proof. pose proof newBerlin_good. unfold newLondonInstructionSet, enable3198, enable3529. good_upd. Qed.

Lemma newShanghai_good : tableGood (newShanghaiInstructionSet evm fr calls).
Proof. pose proof newLondon_good. unfold newShanghaiInstructionSet, enable3855, enable3860. good_upd. Qed.

Lemma newPrague_good : tableGood (newPragueInstructionSet evm fr calls).
Proof. do 2 apply tableGood_fill. apply newShanghai_good. Qed.
End Berlin.

(** ** [NewEVMInterpreter] *)

(** Rules in which the later forks come after Tangerine Whistle. *)
Definition ordered (r : Rules.Rules) : bool :=
  negb (Rules.IsPrague r || Rules.IsCancun r || Rules.IsShanghai r || Rules.IsLondon r || Rules.IsBerlin r) ||
  Rules.IsTangerineWhistle r.

Lemma newCancun_good : Rules.IsTangerineWhistle rules = true -> tableGood (newCancunInstructionSet evm fr calls).
Proof. intros T. apply tableGood_fill. by apply newShanghai_good. Qed.

Lemma forkTable_good : ordered rules = true -> tableGood (forkTable evm fr calls).
Proof.
  unfold ordered, forkTable. fold rules. intros Ho. destruct (Rules.IsTangerineWhistle rules) eqn:T.
  2: { rewrite orb_false_r, negb_true_iff, !orb_false_iff in Ho. destruct Ho as [[[[-> ->] ->] ->] ->].
       repeat case_match; auto using newIstanbul_good, newConstantinople_good, newByzantium_good, newSpuriousDragon_good,
         newHomestead_good, newFrontier_good. }
  repeat case_match; auto using newPrague_good, newCancun_good, newShanghai_good, newLondon_good, newBerlin_good,
    newIstanbul_good, newConstantinople_good, newByzantium_good, newSpuriousDragon_good, newTangerineWhistle_good.
Qed.

End Tables.
