(* ===== verification/InterpreterEnds.v ===== *)
(** * InterpreterEnds: the machine ends, and gives back at most its gas

    The loop, the nested calls and the entry points of the interpreter: a round
    that goes on costs gas and frames nest to a fixed depth, so the fuel of
    [Interpreter] is never used up. *)

From S2P Require Import Prelude Uint256 ChainConfig AccessList StateModel StateSnapshot StateTransition Analysis EvmMemory Words EvmGas Instructions JumpTable Interpreter InterpreterGas InstructionSets.

Section Loop.
Context `{U : Uint256} `{W : @Uint256Ops U} `{E : @StateEnv U}.
Variable evm : EVM.

Lemma wp_round jt v k : tableGood jt -> in_u64 (cgas v) -> memOk (mem v) k ->
  wp (round jt) (fun w r => 0 <= cgas w <= cgas v /\
    forall res, r = inl (res, None) -> cgas w < cgas v /\ exists k', memOk (mem w) k') v.
Proof.
  intros Hjt Hv Hk. unfold round. apply wp_bind, wp_gets, wp_bind, wp_gets. unfold in_u64 in Hv.
  case_match; [apply wp_throw; split; [lia|done]|]. case_match; [apply wp_throw; split; [lia|done]|].
  by eapply Hjt.
Qed.

Lemma loop_ends jt depth fuel : tableGood jt -> forall v k steps res,
  in_u64 (cgas v) -> memOk (mem v) k -> cgas v < Z.of_nat fuel ->
  wp (loop evm fuel jt depth steps res) (fun w r => 0 <= cgas w <= cgas v /\ exists ret err, r = inl (ret, err)) v.
Proof.
  intros Hjt. induction fuel as [|fuel IH]; intros v k steps res Hv Hk Hfuel; unfold in_u64 in Hv; [lia|].
  unfold wp. cbn [loop]. destruct (_ && _); [split; [lia|eauto]|].
  pose proof (wp_round jt v k Hjt Hv Hk) as Hr. unfold wp in Hr.
  destruct (round jt v) as [[w [[ret [e|]]|e]]| |]; try done; destruct Hr as [Hw Hr]; [split; [lia|eauto]| |split; [lia|eauto]].
  destruct (Hr ret eq_refl) as [Hlt [k' Hk']].
  eapply (wp_mono (loop evm fuel jt depth _ ret)); [apply (IH (set_pc (pc w +u 1) w) k')|]; cbn; unfold in_u64; auto; try lia.
  intros x r [Hx Hr']. split; [lia|done].
Qed.

(** ** Calls *)

(** A computation that leaves the frame alone and returns a value in [P]. *)
Definition yields {A} (P : A -> Prop) (m : vmM A) : Prop := forall v,
  wp m (fun w r => sameFrame v w /\ exists a, r = inl a /\ P a) v.

Lemma yields_ret {A} (P : A -> Prop) a : P a -> yields P (mret a).
Proof. intros H v. apply wp_ret. split; [done|eauto]. Qed.
Lemma yields_bind {A B} (P : A -> Prop) (Q : B -> Prop) (m : vmM A) (f : A -> vmM B) :
  yields P m -> (forall a, P a -> yields Q (f a)) -> yields Q (m ≫= f).
Proof.
  intros Hm Hf v. apply wp_bind. eapply wp_mono; [apply Hm|]. intros w r (Hw & a & -> & Ha).
  eapply wp_mono; [by apply Hf|]. intros u r [Hu ?]. split; [by eapply sameFrame_trans|done].
Qed.
Lemma yields_mono {A} (P Q : A -> Prop) m : (forall a, P a -> Q a) -> yields P m -> yields Q m.
Proof. intros H Hm v. eapply wp_mono; [apply Hm|]. intros w r (Hw & a & -> & Ha). eauto. Qed.

Abbreviation aside := (yields (fun _ => True)).

Lemma aside_reading {A} (f : IntraBlockState -> IntraBlockState * A) : aside (reading f).
Proof. intros v. apply wp_reading. intros. split; [done|eauto]. Qed.
Lemma aside_writes f : aside (writes f).
Proof. intros v. apply wp_writes. split; [done|eauto]. Qed.
Lemma aside_writes_opt f : aside (writes_opt f).
Proof. intros v. apply wp_writes_opt. intros. split; [done|eauto]. Qed.

(** The gas in the result is at most [g]. *)
Abbreviation atMost g := (fun x => 0 <= x.1.2 <= g).

Lemma callGives_yields g m : callGives g m <-> yields (atMost g) m.
Proof.
  split; intros H v; (eapply wp_mono; [apply H|]).
  - intros w r (Hw & ret & left & err & -> & Hl). eauto.
  - intros w r (Hw & [[ret left] err] & -> & Hl). eauto 8.
Qed.
Lemma createGives_yields g m : createGives g m <-> yields (atMost g) m.
Proof.
  split; intros H v; (eapply wp_mono; [apply H|]).
  - intros w r (Hw & ret & a & left & err & -> & Hl). eauto.
  - intros w r (Hw & [[[ret a] left] err] & -> & Hl). eauto 8.
Qed.

Definition runnerGives (d : Z) (run : runner) : Prop := forall fr code hash g,
  depth fr = d -> in_u64 g -> callGives g (run fr code hash g).

Ltac aside_step := first
  [ apply aside_reading | apply aside_writes | apply aside_writes_opt
  | apply yields_ret; done | eapply (yields_bind (fun _ => True)); [|intros ? _] | case_match ].

Lemma prepareCallee_aside typ caller addr value b c : aside (prepareCallee evm typ caller addr value b c).
Proof. unfold prepareCallee. repeat aside_step. Qed.

Lemma settleCall_gives snapshot r g : atMost g r -> yields (atMost g) (settleCall evm snapshot r).
Proof.
  destruct r as [[ret gas] err]. cbn. intros H. unfold settleCall. case_match; [|by apply yields_ret].
  eapply yields_bind; [apply aside_writes_opt|]. intros _ _. apply yields_ret. cbn. case_match; lia.
Qed.

Lemma callFrame_depth typ caller addr input value fr :
  callFrame typ caller addr input value = Ok fr -> depth fr = callDepth caller + 1.
Proof. unfold callFrame. repeat case_match; intros [= <-]; done. Qed.

(** Precompiled contracts ask for a 64-bit amount of gas. *)
Hypothesis Hprecompile : forall a p input, precompile evm a = Some p -> in_u64 (RequiredGas p input).

Lemma RunPrecompiledContract_gives p input g :
  in_u64 g -> in_u64 (RequiredGas p input) -> atMost g (RunPrecompiledContract p input g).
Proof.
  intros Hg Hr. unfold RunPrecompiledContract, in_u64 in *. case_match; cbn; [lia|].
  destruct (RunPrecompile p input) as [out err]. cbn. apply Z.ltb_ge in H. rewrite sub64_small; unfold in_u64; lia.
Qed.

Lemma call_gives run typ caller addr input g value bailout :
  (callDepth caller <= CallCreateDepth -> runnerGives (callDepth caller + 1) run) -> in_u64 g ->
  callGives g (call evm run typ caller addr input g value bailout).
Proof.
  intros Hrun Hg. apply callGives_yields. unfold call. assert (0 <= g <= g) as Hgg by (unfold in_u64 in Hg; lia).
  case_match; [by apply yields_ret|]. case_match; [by apply yields_ret|].
  eapply (yields_bind (fun _ => True)); [|intros poor _]. { repeat aside_step. }
  case_match; [by apply yields_ret|].
  eapply (yields_bind (fun _ => True)); [|intros code _]. { repeat aside_step. }
  eapply yields_bind; [apply aside_reading|intros snapshot _].
  eapply yields_bind; [apply prepareCallee_aside|intros proceed _].
  case_match; [by apply yields_ret|].
  eapply (yields_bind (atMost g)); [|intros r; apply settleCall_gives].
  destruct (precompile evm addr) as [p|] eqn:Hp; [apply yields_ret, RunPrecompiledContract_gives; eauto|].
  case_match; [by apply yields_ret|].
  eapply yields_bind; [apply aside_reading|intros codeHash _].
  destruct (callFrame typ caller addr input value) as [fr|e|] eqn:Hf; [|by unfold callFrame in Hf; repeat case_match|].
  - eapply (yields_bind (fun x => x = fr)); [intros v; split; [done|eauto]|intros ? ->].
    apply callGives_yields, Hrun; [lia|by eapply callFrame_depth|done].
  - intros v. done.
Qed.

(** ** Creations *)

Lemma prepareCreate_gives caller g value address b : 0 <= g ->
  yields (fun r => match r with inl x => atMost g x | inr _ => callDepth caller <= CallCreateDepth end)
    (prepareCreate evm caller g value address b).
Proof.
  intros Hg. unfold prepareCreate. case_match; [apply yields_ret; cbn; lia|].
  eapply yields_bind; [apply aside_reading|intros can _]. case_match; [apply yields_ret; cbn; lia|].
  eapply (yields_bind (fun _ => True)); [|intros overflow _]. { repeat aside_step. }
  case_match; [apply yields_ret; cbn; lia|].
  do 3 (eapply (yields_bind (fun _ => True)); [repeat aside_step|intros ? _]).
  case_match; [apply yields_ret; cbn; lia|].
  do 4 (eapply (yields_bind (fun _ => True)); [repeat aside_step|intros ? _]).
  apply yields_ret. lia.
Qed.

Lemma settleCreate_gives snapshot address ret g err : in_u64 g -> yields (atMost g) (settleCreate evm snapshot address ret g err).
Proof.
  intros Hg. unfold settleCreate. eapply (yields_bind (fun x => 0 <= x.1 <= g)).
  - unfold in_u64 in Hg. case_match; [|apply yields_ret; cbn; lia]. case_match; [apply yields_ret; cbn; lia|].
    eapply yields_bind; [apply aside_writes|]. intros _ _. apply yields_ret. cbn.
    pose proof (mul64_range (Z.of_nat (length ret)) CreateDataGas) as Hm. unfold in_u64 in Hm. rewrite sub64_small; unfold in_u64; lia.
  - intros [gas err'] Hgas. cbn in Hgas. case_match; [|by apply yields_ret].
    eapply yields_bind; [apply aside_writes_opt|]. intros _ _. apply yields_ret. cbn. case_match; lia.
Qed.

Lemma create_gives run caller code hash g value address b :
  (callDepth caller <= CallCreateDepth -> runnerGives (callDepth caller + 1) run) -> in_u64 g ->
  createGives g (create evm run caller code hash g value address b).
Proof.
  intros Hrun Hg. apply createGives_yields. unfold create. assert (0 <= g <= g) as Hgg by (unfold in_u64 in Hg; lia).
  eapply yields_bind; [apply prepareCreate_gives, Hgg|]. intros [r|snapshot] Hr; [by apply yields_ret|].
  case_match; [by apply yields_ret|].
  eapply (yields_bind (atMost g)); [by apply callGives_yields, Hrun|].
  intros [[ret left] err] Hl. cbn in Hl. eapply yields_mono; [|apply settleCreate_gives; unfold in_u64 in *; lia].
  intros x Hx. cbn in Hx. lia.
Qed.

Lemma evmCreate_gives run caller code g value :
  (callDepth caller <= CallCreateDepth -> runnerGives (callDepth caller + 1) run) -> in_u64 g ->
  createGives g (evmCreate evm run caller code g value).
Proof.
  intros Hrun Hg. apply createGives_yields. unfold evmCreate. eapply yields_bind; [apply aside_reading|]. intros nonce _.
  apply createGives_yields. by apply create_gives.
Qed.

Lemma frameCalls_give run fr :
  (depth fr <= CallCreateDepth -> runnerGives (depth fr + 1) run) -> callsGive (frameCalls evm run fr).
Proof.
  intros Hrun. split; cbn; intros; by (apply call_gives || apply evmCreate_gives || apply create_gives).
Qed.

(** ** [Run] *)

Hypothesis Heips : ExtraEips (config evm) = [].
Hypothesis Hrules : ordered (chainRules evm) = true.

Lemma NewEVMInterpreter_good fr calls : callsGive calls ->
  exists jt, NewEVMInterpreter evm fr calls = Ok jt /\ tableGood jt.
Proof. intros H. unfold NewEVMInterpreter. rewrite Heips. cbn. eauto using forkTable_good. Qed.

Lemma Run_gives n d : d <= 1025 -> 1026 <= d + Z.of_nat n -> runnerGives d (Run evm n).
Proof.
  revert d. induction n as [|n IH]; intros d Hd Hn fr code hash g <- Hg v; unfold wp; cbn [Run]; [lia|].
  destruct (bool_decide (code = [])); [split; [done|]; do 3 eexists; split; [done|unfold in_u64 in Hg; lia]|].
  destruct (NewEVMInterpreter_good fr (frameCalls evm (Run evm n) fr)) as (jt & -> & Hjt).
  { apply frameCalls_give. unfold CallCreateDepth. intros H'. apply IH; lia. }
  assert (wp (loop evm (S (Z.to_nat g)) jt (depth fr) 0 []) (fun w r => 0 <= cgas w <= g /\ exists ret err, r = inl (ret, err))
    (enter evm code hash g v)) as Hloop.
  { apply (loop_ends jt (depth fr) _ Hjt (enter evm code hash g v) 0); [done|by split; cbn; first [done|lia]|cbn; unfold in_u64 in Hg; lia]. }
  unfold wp in Hloop. destruct (loop evm _ jt (depth fr) 0 [] _) as [[w r]| |]; [|done|done].
  destruct Hloop as (Hw & ret & err & ->). split; [done|]. do 3 eexists. split; [done|lia].
Qed.

End Loop.

(** ** The entry points *)

(** No extra EIPs, forks in order, and gas costs of precompiled contracts that
    are 64-bit numbers. *)
Record evmOk `{U : Uint256} (evm : EVM) : Prop := {
  ok_eips : ExtraEips (config evm) = [];
  ok_rules : ordered (chainRules evm) = true;
  ok_precompile : forall a p input, precompile evm a = Some p -> in_u64 (RequiredGas p input)
}.

(** An execution that ends, unless by a panic, with gas left that is at most [g]. *)
Definition endsWithin `{U : Uint256} {A B} (g : Z) (r : outcome (vm * (A * Z * B + error))) : Prop :=
  match r with
  | Ok (_, inl (_, leftOver, _)) => 0 <= leftOver <= g
  | Ok (_, inr _) => False
  | Err _ => False
  | Panic => True
  end.

Section Ends.
Context `{U : Uint256} `{W : @Uint256Ops U} `{E : @StateEnv U}.
Variable evm : EVM.
Hypothesis Hok : evmOk evm.

Lemma maxFrames_gives : runnerGives 1 (Run evm maxFrames).
Proof. apply Run_gives; try apply Hok; unfold maxFrames, CallCreateDepth; lia. Qed.

Lemma Call_ends s caller addr input gas value bailout : in_u64 gas ->
  endsWithin gas (Call evm s caller addr input gas value bailout).
Proof.
  intros Hg. pose proof (call_gives evm (ok_precompile _ Hok) (Run evm maxFrames) TCALL (fromAccount caller) addr input gas value bailout
    (fun _ => maxFrames_gives) Hg (outside evm s)) as H. unfold endsWithin, Call, wp in *.
  destruct (call evm _ _ _ _ _ _ _ _ _) as [[w r]| |]; [|done|done]. by destruct H as (_ & ret & left & err & -> & H).
Qed.

Lemma Create_ends s caller code gas value : in_u64 gas -> endsWithin gas (Create evm s caller code gas value).
Proof.
  intros Hg. assert (createGives gas (evmCreate evm (Run evm maxFrames) (fromAccount caller) code gas value)) as H.
  { apply evmCreate_gives; [|done]. intros _. apply maxFrames_gives. }
  specialize (H (outside evm s)). unfold endsWithin, Create, wp in *.
  destruct (evmCreate evm _ _ _ _ _ _) as [[w r]| |]; [|done|done]. by destruct H as (_ & ret & a & left & err & -> & H).
Qed.

End Ends.

(** C34: the machine ends: for every code, input and gas neither the bound on
    nested frames nor the bound on the rounds of a frame is reached, because
    every round that goes on costs gas and a call gives back at most what it
    was given; the gas left is at most the gas supplied. *)
Theorem evm_ends `{U : Uint256} `{W : @Uint256Ops U} `{E : @StateEnv U} evm s caller addr input code gas value bailout :
  evmOk evm -> in_u64 gas ->
  endsWithin gas (Call evm s caller addr input gas value bailout) /\
  endsWithin gas (Create evm s caller code gas value).
Proof. intros Hok Hg. split; [by apply Call_ends|by apply Create_ends]. Qed.

(** ** Example: a contract that calls itself *)

Module MachineDemo.

#[local] Existing Instance Demo.demo_u256.
#[local] Existing Instance Demo.demo_env.
#[local] Instance demo_ops : Uint256Ops := derived_Ops.

Definition evm : EVM := {|
  context := {| GetHash := fun n => n; Coinbase := 9; GasLimit := 30000000; MaxGasLimit := false; BlockNumber := 40;
                Time := 1000; Difficulty := 2; BaseFee := uSetUint64 10; PrevRanDao := None |};
  txContext := {| Origin := 7; TxGasPrice := uSetUint64 12 |};
  chainRules := ChainConfig.rules ChainConfig.genesisForks 40;
  config := {| NoRecursion := false; SkipAnalysis := false; RestoreState := false; ExtraEips := [] |};
  precompile := fun a => if a =? 4 then Some {| RequiredGas := fun input => 15 + 3 * ((Z.of_nat (length input) mod 2 ^ 32 + 31) / 32);
                                             RunPrecompile := fun input => (input, None) |} else None;
  Cancelled := fun _ _ _ => false
|}.

Lemma evm_ok : evmOk evm.
Proof.
  split; [reflexivity|reflexivity|]. intros a p input. cbn. destruct (a =? 4); [|done]. intros [= <-]. cbn.
  pose proof (Z.mod_pos_bound (Z.of_nat (length input)) (2 ^ 32) ltac:(lia)) as Hm. set (n := _ mod _) in *.
  assert (0 <= (n + 31) / 32 <= n + 31).
  { split; [apply Z.div_pos; lia|apply Z.div_le_upper_bound; lia]. }
  unfold in_u64. lia.
Qed.

(** SSTORE(0, 5), then CALL to the own address with all the gas, then RETURN of a word. *)
Definition code : list Z :=
  [0x60; 5; 0x60; 0; 0x55; 0x60; 0; 0x60; 0; 0x60; 0; 0x60; 0; 0x60; 0; 0x30; 0x5a; 0xf1; 0x60; 32; 0x60; 0; 0xf3].

End MachineDemo.

#[local] Existing Instance Demo.demo_u256.
#[local] Existing Instance Demo.demo_env.
#[local] Existing Instance MachineDemo.demo_ops.

Lemma evm_ends_witness :
  endsWithin 100000 (Create MachineDemo.evm Demo.s0 7 MachineDemo.code 100000 uzero) /\
  match Create MachineDemo.evm Demo.s0 7 MachineDemo.code 100000 uzero with
  | Ok (_, inl (ret, _, leftOver, None)) => length ret = 32%nat /\ leftOver = 71366
  | _ => False
  end.
Proof.
  split; [|vm_compute; split; reflexivity].
  destruct (evm_ends MachineDemo.evm Demo.s0 7 0 [] MachineDemo.code 100000 uzero false) as [_ H].
  - exact MachineDemo.evm_ok.
  - unfold in_u64. lia.
  - exact H.
Defined.
