(* ===== verification/EvmSafe.v ===== *)
(** * EvmSafe: instructions do not panic

    What every computation of the machine leaves in order ([evolves]: the state
    moves by state operations only, the code stays, the jump caches stay
    right), what gas functions leave alone ([measures]), and that in a frame in
    order an operation that has passed the stack check and has been paid for
    does not panic. *)

From S2P Require Import Prelude Uint256 ChainConfig AccessList StateModel StateSnapshot StateSound StateTransition Analysis EvmMemory Words EvmGas Instructions JumpTable Interpreter InterpreterGas.

(** ** Relations along computations *)

Section Along.
Context `{U : Uint256}.
Context (R : vm -> vm -> Prop) `{!PreOrder R}.

Definition along {A} (m : vmM A) : Prop := forall v w r, m v = Ok (w, r) -> R v w.

Lemma along_bind {A B} (m : vmM A) (f : A -> vmM B) : along m -> (forall a, along (f a)) -> along (m ≫= f).
Proof.
  intros Hm Hf v w r H. destruct (bind_inv _ _ _ _ _ H) as [(u & a & H1 & H2)|(e & H1 & ->)]; [|by eapply Hm].
  etrans; [by eapply Hm|by eapply Hf].
Qed.
Lemma along_same {A} (m : vmM A) : (forall v w r, m v = Ok (w, r) -> w = v) -> along m.
Proof. intros H v w r Hm. by rewrite (H v w r Hm). Qed.
Lemma along_ret {A} (a : A) : along (mret a).
Proof. apply along_same. by intros v w r [= <- _]. Qed.
Lemma along_throw {A} e : along (throw (A := A) e).
Proof. apply along_same. by intros v w r [= <- _]. Qed.
Lemma along_gets {A} (f : vm -> A) : along (gets f).
Proof. apply along_same. by intros v w r [= <- _]. Qed.
Lemma along_liftv {A} (o : vm -> outcome A) : along (fun v => lift (o v) v).
Proof. apply along_same. intros v w r. unfold lift. destruct (o v); by intros [= <- _]. Qed.
Lemma along_lift {A} (o : outcome A) : along (lift o).
Proof. apply (along_liftv (fun _ => o)). Qed.
Lemma along_back n : along (back n).
Proof. apply along_liftv. Qed.
Lemma along_checked r : along (checked r).
Proof. unfold checked. case_match; [apply along_throw|apply along_ret]. Qed.
Lemma along_uint64Of x : along (uint64Of x).
Proof. apply along_checked. Qed.
Lemma along_modify f : (forall v, R v (f v)) -> along (modify f).
Proof. intros H v w r [= <- _]. apply H. Qed.
Lemma along_reading {A} (f : IntraBlockState -> IntraBlockState * A) :
  (forall v, R v (set_ibs (f (ibs v)).1 v)) -> along (reading f).
Proof.
  intros H v w r Hr. unfold reading in Hr. specialize (H v). destruct (f (ibs v)) as [s a]. by simplify_eq.
Qed.
Lemma along_writes f : (forall v, R v (set_ibs (f (ibs v)) v)) -> along (writes f).
Proof. intros H. by apply along_modify. Qed.
Lemma along_writes_opt f : (forall v s, f (ibs v) = Some s -> R v (set_ibs s v)) -> along (writes_opt f).
Proof. intros H v w r Hr. unfold writes_opt in Hr. destruct (f (ibs v)) eqn:E; simplify_eq. by apply H. Qed.
Lemma along_useGas g : (forall v g, R v (set_cgas g v)) -> along (useGas g).
Proof. intros H v w r Hr. unfold useGas in Hr. case_match; simplify_eq; [reflexivity|apply H]. Qed.
Lemma along_stack {A} (m : vmM A) :
  (forall v st, R v (set_stack st v)) -> (forall v w r, m v = Ok (w, r) -> exists st, w = set_stack st v) -> along m.
Proof. intros H Hm v w r Hr. destruct (Hm v w r Hr) as [st ->]. apply H. Qed.
End Along.

Lemma pop_stack `{U : Uint256} v w r : pop v = Ok (w, r) -> exists st, w = set_stack st v.
Proof. unfold pop. destruct (stack v) eqn:E; cbn; [done|]. intros [= <- _]. eauto. Qed.

Lemma set_stack_same `{U : Uint256} v : set_stack (stack v) v = v.
Proof. by destruct v. Qed.

Create HintDb along.
Create HintDb gasfn.
#[export] Hint Resolve along_ret along_throw along_gets along_liftv along_lift along_back along_checked along_uint64Of : along.

(** ** What computations leave in order *)

Section Evolves.
Context `{U : Uint256} `{W : @Uint256Ops U} `{E : @StateEnv U}.
Variable codeOf : Hash -> list Z.

Record evolves (v w : vm) : Prop := {
  ev_state : goes (ibs v) (ibs w);
  ev_code : sound (ibs v) -> Analysis.Code (contract w) = Analysis.Code (contract v);
  ev_caches : sound (ibs v) -> Analysis.caches_ok codeOf (contract v) -> Analysis.caches_ok codeOf (contract w);
  ev_pc : sound (ibs v) -> in_u64 (pc v) -> in_u64 (pc w)
}.

#[global] Instance evolves_preorder : PreOrder evolves.
Proof.
  split; [intros v; split; auto; reflexivity|].
  intros u v w [H1 C1 K1 P1] [H2 C2 K2 P2]. assert (sound (ibs u) -> sound (ibs v)) as Hs.
  { intros S. exact (wi_sound _ _ _ (goes_within _ _ S H1)). }
  split; [by etrans|intros S; rewrite C2 by auto; auto|auto|auto].
Qed.

(** The fields it does not mention. *)
Lemma evolves_fields v w : ibs w = ibs v -> contract w = contract v -> pc w = pc v -> evolves v w.
Proof. intros H1 H2 H3. split; rewrite ?H1, ?H2, ?H3; auto. reflexivity. Qed.

Lemma evolves_ibs v s : goes (ibs v) s -> evolves v (set_ibs s v).
Proof. intros H. by split. Qed.

Lemma evolves_pc v n : in_u64 n -> evolves v (set_pc n v).
Proof. intros H. split; auto. reflexivity. Qed.

(** ** What gas functions leave alone *)

Record measures (v w : vm) : Prop := {
  ms_stack : stack w = stack v;
  ms_pc : pc w = pc v;
  ms_contract : contract w = contract v;
  ms_store : Memory.store (mem w) = Memory.store (mem v)
}.

#[global] Instance measures_preorder : PreOrder measures.
Proof. split; [by intros v; split|]. intros u v w [] []. split; congruence. Qed.

Lemma memGas_measures n : along measures (memGas n).
Proof.
  intros v w r. unfold memGas, memoryGasCost. repeat case_match; intros; simplify_eq; by split.
Qed.

Lemma memGas_evolves n : along evolves (memGas n).
Proof. intros v w r. unfold memGas. destruct (memoryGasCost (mem v) n). intros [= <- _]. by apply evolves_fields. Qed.

End Evolves.

(** ** State operations *)

Section Goes.
Context `{U : Uint256} `{E : @StateEnv U}.
Implicit Types (s : IntraBlockState) (a : Address) (k : Hash).

Lemma goes_Exist s a : goes s (Exist s a).1.
Proof. by apply (goes_op s (OExist a)). Qed.
Lemma goes_Empty s a : goes s (Empty s a).1.
Proof. by apply (goes_op s (OEmpty a)). Qed.
Lemma goes_GetBalance s a : goes s (GetBalance s a).1.
Proof. by apply (goes_op s (OGetBalance a)). Qed.
Lemma goes_GetNonce s a : goes s (GetNonce s a).1.
Proof. by apply (goes_op s (OGetNonce a)). Qed.
Lemma goes_GetCode s a : goes s (GetCode s a).1.
Proof. by apply (goes_op s (OGetCode a)). Qed.
Lemma goes_GetCodeSize s a : goes s (GetCodeSize s a).1.
Proof. by apply (goes_op s (OGetCodeSize a)). Qed.
Lemma goes_GetCodeHash s a : goes s (GetCodeHash s a).1.
Proof. by apply (goes_op s (OGetCodeHash a)). Qed.
Lemma goes_GetState s a k : goes s (GetState s a k).1.
Proof. by apply (goes_op s (OGetState a k)). Qed.
Lemma goes_GetCommittedState s a k : goes s (GetCommittedState s a k).1.
Proof. by apply (goes_op s (OGetCommittedState a k)). Qed.
Lemma goes_HasSuicided s a : goes s (HasSuicided s a).1.
Proof. by apply (goes_op s (OHasSuicided a)). Qed.
Lemma goes_AddBalance s a v : goes s (AddBalance s a v).
Proof. by apply (goes_op s (OAddBalance a v)). Qed.
Lemma goes_SubBalance s a v : goes s (SubBalance s a v).
Proof. by apply (goes_op s (OSubBalance a v)). Qed.
Lemma goes_SetNonce s a n : goes s (SetNonce s a n).
Proof. by apply (goes_op s (OSetNonce a n)). Qed.
Lemma goes_SetState s a k v : goes s (SetState s a k v).
Proof. by apply (goes_op s (OSetState a k v)). Qed.
Lemma goes_Suicide s a : goes s (Suicide s a).1.
Proof. by apply (goes_op s (OSuicide a)). Qed.
Lemma goes_CreateAccount s a b : goes s (CreateAccount s a b).
Proof. by apply (goes_op s (OCreateAccount a b)). Qed.
Lemma goes_AddLog s l : goes s (AddLog s l).
Proof. by apply (goes_op s (OAddLog l)). Qed.
Lemma goes_AddRefund s g : goes s (AddRefund s g).
Proof. by apply (goes_op s (OAddRefund g)). Qed.
Lemma goes_SubRefund s g : goes s (SubRefund s g).
Proof. by apply (goes_op s (OSubRefund g)). Qed.
Lemma goes_AddAddressToAccessList s a : goes s (AddAddressToAccessList s a).
Proof. by apply (goes_op s (OAddAddressToAccessList a)). Qed.
Lemma goes_AddSlotToAccessList s a k t : AddSlotToAccessList s a k = Some t -> goes s t.
Proof. by apply (goes_op s (OAddSlotToAccessList a k)). Qed.
Lemma goes_TakeSnapshot s : goes s (TakeSnapshot s).1.
Proof. intros _. apply rtc_once, free_snapshot. Qed.
Lemma goes_CanTransfer s a v : goes s (CanTransfer s a v).1.
Proof. unfold CanTransfer. pose proof (goes_GetBalance s a). by destruct (GetBalance s a). Qed.
Lemma goes_Transfer s a b v bailout : goes s (Transfer a b v bailout s).
Proof. unfold Transfer. destruct bailout; [apply goes_AddBalance|]. etrans; [apply goes_SubBalance|apply goes_AddBalance]. Qed.

End Goes.

#[export] Hint Resolve goes_Exist goes_Empty goes_GetBalance goes_GetNonce goes_GetCode goes_GetCodeSize goes_GetCodeHash goes_GetState goes_GetCommittedState goes_HasSuicided goes_AddBalance goes_SubBalance goes_SetNonce goes_SetState goes_Suicide goes_CreateAccount goes_AddLog goes_AddRefund goes_SubRefund goes_AddAddressToAccessList
  goes_AddSlotToAccessList goes_TakeSnapshot goes_CanTransfer goes_Transfer : along.

(** Take a computation apart. *)
Ltac along_step := first
  [ solve [eauto with along typeclass_instances]
  | apply along_modify; intros; first [apply evolves_fields; reflexivity | apply evolves_pc; auto using add64_range | split; reflexivity]
  | apply along_reading; intros; first [apply evolves_ibs; solve [eauto with along] | split; reflexivity]
  | apply along_writes; intros; first [apply evolves_ibs; solve [eauto with along] | split; reflexivity]
  | apply along_writes_opt; intros; first [apply evolves_ibs; solve [eauto with along] | split; reflexivity]
  | apply along_useGas; [apply _|]; intros; first [apply evolves_fields; reflexivity | split; reflexivity]
  | apply along_bind; [apply _| |intros ?]
  | case_match ].
Ltac along_go := repeat along_step.

#[export] Hint Resolve memGas_measures memGas_evolves : along.
#[export] Hint Unfold memoryCopierGas gasCallDataCopy gasCodeCopy gasExtCodeCopy gasReturnDataCopy makeGasLog gasKeccak256
  pureMemoryGascost gasCreate2 initCodeGas gasCreateEip3860 gasCreate2Eip3860 gasExp gasExpFrontier gasExpEIP160
  finishCallGas gasCall gasCallCode gasDelegateCall gasStaticCall gasSelfdestruct addRefund subRefund when gasSStore
  gasSStoreEIP2200 makeGasSStoreFunc gasSStoreEIP2929 gasSStoreEIP3529 gasSLoadEIP2929 gasExtCodeCopyEIP2929
  gasEip2929AccountCheck makeSelfdestructGasFn gasSelfdestructEIP2929 gasSelfdestructEIP3529
  gasReturn gasRevert gasMLoad gasMStore8 gasMStore gasCreate : gasfn.


Section Instructions.
Context `{U : Uint256} `{W : @Uint256Ops U} `{E : @StateEnv U}.
Variable codeOf : Hash -> list Z.

Lemma evolves_stack v st : evolves codeOf v (set_stack st v).
Proof. by apply evolves_fields. Qed.

Lemma pop_evolves : along (evolves codeOf) pop.
Proof. apply along_stack; [apply evolves_stack|apply pop_stack]. Qed.
Lemma peek_evolves : along (evolves codeOf) peek.
Proof. apply along_liftv, _. Qed.
Lemma setTop_evolves x : along (evolves codeOf) (setTop x).
Proof.
  apply along_stack; [apply evolves_stack|]. intros v w r. unfold setTop.
  destruct (Stack.SetTop (stack v) x); intros [= <- _]; [eauto|]. exists (stack v). by rewrite set_stack_same.
Qed.
Lemma push_evolves x : along (evolves codeOf) (push x).
Proof. apply along_modify. intros v. apply evolves_stack. Qed.
Lemma writeMem_evolves f : along (evolves codeOf) (writeMem f).
Proof.
  intros v w r. unfold writeMem. destruct (f (mem v)); intros [= <- _]; [by apply evolves_fields|reflexivity].
Qed.
Lemma popTopics_evolves n : along (evolves codeOf) (popTopics n).
Proof.
  induction n as [|n IH]; cbn; [apply along_ret, _|]. apply along_bind; [apply _|apply pop_evolves|]. intros x.
  apply along_bind; [apply _|done|]. intros l. apply along_ret, _.
Qed.
Lemma makeDup_evolves n : along (evolves codeOf) (makeDup n).
Proof.
  apply along_stack; [apply evolves_stack|]. intros v w r. unfold makeDup.
  destruct (Stack.Dup (stack v) n); intros [= <- _]; [eauto|]. exists (stack v). by rewrite set_stack_same.
Qed.
Lemma makeSwap_evolves n : along (evolves codeOf) (makeSwap n).
Proof.
  apply along_stack; [apply evolves_stack|]. intros v w r. unfold makeSwap.
  destruct (Stack.Swap (stack v) (S n)); intros [= <- _]; [eauto|]. exists (stack v). by rewrite set_stack_same.
Qed.

(** The check of a jump keeps the caches right and does not panic. *)
Lemma validJumpdest_caches c pos : Analysis.caches_ok codeOf c ->
  exists r used c', Analysis.validJumpdest c pos = Ok (r, used, c') /\ Analysis.caches_ok codeOf c' /\ Analysis.Code c' = Analysis.Code c.
Proof.
  intros Hc. unfold Analysis.validJumpdest, uUint64WithOverflow. pose proof (uUint64_range pos) as Hr. unfold in_u64 in Hr.
  destruct (Z.leb_spec (Z.of_nat (length (Analysis.Code c))) (uUint64 pos)) as [|Hlt]; rewrite ?orb_true_r; [by eexists _, _, c|].
  destruct (negb (uIsUint64 pos)); cbn [orb]; [by eexists _, _, c|].
  destruct (lookup_lt_is_Some_2 (Analysis.Code c) (Z.to_nat (uUint64 pos))) as [op Hop]; [lia|]. rewrite Hop.
  cbn [or_panic mbind outcome_bind]. destruct (negb _); [by eexists _, _, c|]. destruct (Analysis.skipAnalysis c); [by eexists _, _, c|].
  destruct (Analysis.isCode_spec codeOf c (uUint64 pos) Hc) as (c' & -> & Hc' & Hcode & _); [lia|].
  cbn. by eexists _, _, c'.
Qed.

Lemma isCode_code c p r c' : Analysis.isCode c p = Ok (r, c') -> Analysis.Code c' = Analysis.Code c.
Proof.
  unfold Analysis.isCode.
  assert (forall a j, (r ← Analysis.isCodeFromAnalysis a p; Ok (r, Analysis.with_caches j (Some a) c)) = Ok (r, c') ->
    Analysis.Code c' = Analysis.Code c) as H.
  { intros a j. destruct (Analysis.isCodeFromAnalysis a p); cbn; intros; by simplify_eq. }
  destruct (negb _).
  - destruct (Analysis.jumpdests c !! _) as [x|]; [apply H|].
    destruct (Analysis.codeBitmap _) as [x| |]; [apply H|done|done].
  - destruct (Analysis.analysis c) as [x|]; [apply H|].
    destruct (Analysis.codeBitmap _) as [x| |]; [apply H|done|done].
Qed.

Lemma jumpTo_evolves pos : along (evolves codeOf) (jumpTo pos).
Proof.
  apply along_bind; [apply _| |intros valid; case_match; [apply along_throw, _|]].
  - intros v w r Hv. destruct (Analysis.validJumpdest (contract v) pos) as [[[x used] c]| |] eqn:Ej; simplify_eq; [|reflexivity].
    split; [reflexivity| | |done].
    + intros _. cbn. unfold Analysis.validJumpdest, uUint64WithOverflow in Ej.
      destruct (_ || _); [by simplify_eq|]. destruct (or_panic _); [|done|done]. cbn in Ej. destruct (negb _); [by simplify_eq|].
      destruct (Analysis.skipAnalysis _); [by simplify_eq|].
      destruct (Analysis.isCode _ _) as [[x' c']| |] eqn:Ei; cbn in Ej; simplify_eq. by eapply isCode_code.
    + intros _ Hc. cbn. destruct (validJumpdest_caches (contract v) pos Hc) as (r' & u' & c' & Hj & Hc' & _). rewrite Ej in Hj.
      by simplify_eq.
  - apply along_bind; [apply _| |intros ?; apply along_ret, _]. apply along_modify. intros v. apply evolves_pc, sub64_range.
Qed.

End Instructions.

#[export] Hint Resolve pop_evolves peek_evolves setTop_evolves push_evolves writeMem_evolves popTopics_evolves makeDup_evolves
  makeSwap_evolves jumpTo_evolves : along.

(** ** No panic *)

Section Safe.
Context `{U : Uint256} `{W : @Uint256Ops U} `{E : @StateEnv U}.

Definition safe {A} (m : vmM A) (v : vm) : Prop := m v <> Panic.

Lemma safe_bind {A B} (m : vmM A) (f : A -> vmM B) v :
  safe m v -> (forall w a, m v = Ok (w, inl a) -> safe (f a) w) -> safe (m ≫= f) v.
Proof. unfold safe, mbind, vmM_bind. intros Hm Hf. destruct (m v) as [[w [a|e]]| |]; try done. by apply Hf. Qed.

Lemma safe_ok {A} (m : vmM A) v r : m v = Ok r -> safe m v.
Proof. unfold safe. congruence. Qed.

Lemma safe_step {A B} (m : vmM A) (f : A -> vmM B) v w a : m v = Ok (w, inl a) -> safe (f a) w -> safe (m ≫= f) v.
Proof. intros H. unfold safe. by rewrite (bind_inl _ _ _ _ _ H). Qed.

Lemma safe_ret {A} (a : A) v : safe (mret a) v.
Proof. done. Qed.
Lemma safe_throw {A} e v : safe (throw (A := A) e) v.
Proof. done. Qed.
Lemma safe_bind_ret {A B} (a : A) (f : A -> vmM B) v : safe (f a) v -> safe (mret a ≫= f) v.
Proof. done. Qed.
Lemma safe_bind_throw {A B} e (f : A -> vmM B) v : safe (throw e ≫= f) v.
Proof. done. Qed.
Lemma safe_assoc {A B C} (m : vmM A) (f : A -> vmM B) (g : B -> vmM C) v :
  safe (m ≫= fun a => f a ≫= g) v -> safe ((m ≫= f) ≫= g) v.
Proof. unfold safe, mbind, vmM_bind. by destruct (m v) as [[w [a|e]]| |]. Qed.
Lemma safe_gets {A B} (g : vm -> A) (f : A -> vmM B) v : safe (f (g v)) v -> safe (gets g ≫= f) v.
Proof. done. Qed.
Lemma safe_modify {B} g (f : unit -> vmM B) v : safe (f tt) (g v) -> safe (modify g ≫= f) v.
Proof. done. Qed.
Lemma safe_pop {B} (f : u256 -> vmM B) v x st : stack v = x :: st -> safe (f x) (set_stack st v) -> safe (pop ≫= f) v.
Proof. intros H. apply safe_step. unfold pop. by rewrite H. Qed.
Lemma safe_peek {B} (f : u256 -> vmM B) v x st : stack v = x :: st -> safe (f x) v -> safe (peek ≫= f) v.
Proof. intros H. apply safe_step. unfold peek. by rewrite H. Qed.
Lemma safe_setTop {B} (f : unit -> vmM B) v x y st :
  stack v = y :: st -> safe (f tt) (set_stack (x :: st) v) -> safe (setTop x ≫= f) v.
Proof. intros H. apply safe_step. unfold setTop. by rewrite H. Qed.
Lemma safe_push {B} (f : unit -> vmM B) v x : safe (f tt) (set_stack (x :: stack v) v) -> safe (push x ≫= f) v.
Proof. done. Qed.
Lemma safe_back {B} n (f : u256 -> vmM B) v x : stack v !! n = Some x -> safe (f x) v -> safe (back n ≫= f) v.
Proof. intros H. apply safe_step. by apply back_at. Qed.
Lemma safe_lift {A B} (o : outcome A) (f : A -> vmM B) v : o <> Panic -> (forall a, o = Ok a -> safe (f a) v) -> safe (lift o ≫= f) v.
Proof. intros Ho Hf. unfold safe, mbind, vmM_bind, lift. destruct o; [by apply Hf|done|done]. Qed.
Lemma safe_liftv {A B} (o : vm -> outcome A) (f : A -> vmM B) v :
  o v <> Panic -> (forall a, o v = Ok a -> safe (f a) v) -> safe ((fun v => lift (o v) v) ≫= f) v.
Proof. intros Ho Hf. unfold safe, mbind, vmM_bind, lift. destruct (o v); [by apply Hf|done|done]. Qed.
Lemma safe_checked {B} r (f : Z -> vmM B) v : (forall z, safe (f z) v) -> safe (checked r ≫= f) v.
Proof. intros H. unfold checked. destruct r.2; [done|apply H]. Qed.
Lemma safe_checked_end r v : safe (checked r) v.
Proof. unfold checked. by destruct r.2. Qed.
Lemma safe_memGas {B} n (f : Z -> vmM B) v : (forall m fee, safe (f fee) (set_mem m v)) -> safe (memGas n ≫= f) v.
Proof.
  intros H. unfold safe, mbind, vmM_bind, memGas. destruct (memoryGasCost (mem v) n) as [m [fee|e]]; [apply H|done].
Qed.
Lemma safe_memGas_end n v : safe (memGas n) v.
Proof. unfold safe, memGas. by destruct (memoryGasCost (mem v) n). Qed.
Lemma safe_useGas {B} g (f : bool -> vmM B) v :
  safe (f false) v -> (forall g, safe (f true) (set_cgas g v)) -> safe (useGas g ≫= f) v.
Proof. intros H1 H2. unfold safe, mbind, vmM_bind, useGas. destruct (cgas v <? g); [apply H1|apply H2]. Qed.
Lemma safe_writeMem {B} g m (f : unit -> vmM B) v : g (mem v) = Ok m -> safe (f tt) (set_mem m v) -> safe (writeMem g ≫= f) v.
Proof. intros H. apply safe_step. unfold writeMem. by rewrite H. Qed.

(** Reads and writes of the state keep it sound, and its access list. *)
Definition later (s t : IntraBlockState) : Prop := sound t /\ forall a, listed s a -> listed t a.

Lemma goes_later s t : sound s -> goes s t -> later s t.
Proof.
  intros S H. destruct (goes_within _ _ S H) as [S' _ _ _ _ (es & _ & Hl)]. split; [done|]. intros a Ha. by apply Hl.
Qed.

Lemma safe_reading {A B} (g : IntraBlockState -> IntraBlockState * A) (f : A -> vmM B) v :
  sound (ibs v) -> (forall s, goes s (g s).1) ->
  (forall s a, g (ibs v) = (s, a) -> later (ibs v) s -> safe (f a) (set_ibs s v)) -> safe (reading g ≫= f) v.
Proof.
  intros S Hg Hf. specialize (Hg (ibs v)). destruct (g (ibs v)) as [s a] eqn:Eg. eapply safe_step; [by apply reading_at|].
  apply Hf; [done|]. by apply goes_later.
Qed.
Lemma safe_writes {B} g (f : unit -> vmM B) v :
  sound (ibs v) -> (forall s, goes s (g s)) -> (forall s, later (ibs v) s -> safe (f tt) (set_ibs s v)) -> safe (writes g ≫= f) v.
Proof. intros S Hg Hf. apply safe_modify, Hf. by apply goes_later. Qed.

Lemma safe_slot {B} a k (f : bool * bool -> vmM B) v : sound (ibs v) ->
  (forall x, (x.1 = false -> ~ listed (ibs v) a) -> safe (f x) v) ->
  safe ((fun v => lift (or_panic (SlotInAccessList (ibs v) a k)) v) ≫= f) v.
Proof.
  intros S Hf. pose proof (gd_accList _ (sound_Good _ S)) as Wal. unfold SlotInAccessList, AccessList.Contains, listed in *.
  destruct (AccessList.addresses (accList (ibs v)) !! a) as [i|] eqn:Ei.
  - assert (exists y, (if i =? -1 then Some (true, false) else
      s ← AccessList.index (AccessList.slots (accList (ibs v))) i; Some (true, bool_decide (k ∈ s))) = Some (true, y)) as [y Hy].
    { destruct (Z.eqb_spec i (-1)); [eauto|]. destruct (AccessList.wf_range _ Wal _ _ Ei) as [|Hr]; [done|].
      destruct (AccessList.index_Some _ _ Hr) as [sl ->]. cbn. eauto. }
    eapply safe_step; [cbn; unfold AccessList.Contains; rewrite Ei, Hy; reflexivity|]. by apply Hf.
  - eapply safe_step; [cbn; unfold AccessList.Contains; rewrite Ei; reflexivity|]. apply Hf. intros _ [? [=]].
Qed.

Lemma safe_addSlot {B} a k (f : unit -> vmM B) v : sound (ibs v) ->
  (forall s, later (ibs v) s -> safe (f tt) (set_ibs s v)) -> safe (writes_opt (fun s => AddSlotToAccessList s a k) ≫= f) v.
Proof.
  intros S Hf. destruct (AddSlotToAccessList_grows (ibs v) a k (sound_Good _ S)) as (s & Hs & _).
  eapply safe_step; [unfold writes_opt; by rewrite Hs|]. apply Hf. apply goes_later; [done|]. by eapply goes_AddSlotToAccessList.
Qed.

End Safe.

(** Name the words on the stack that [H] speaks of. *)
Ltac split_stack v H :=
  let st := fresh "st" in let Est := fresh "Est" in
  remember (stack v) as st eqn:Est; symmetry in Est;
  repeat (destruct st as [|? st]; [exfalso; cbn in H; lia|]).

Ltac known_sound := cbn [ibs set_ibs set_stack set_mem set_cgas set_callGasTemp set_returnData set_pc set_contract];
  first [assumption | match goal with H : later _ ?s |- sound ?s => exact (proj1 H) end].
Ltac known_stack := first [eassumption | reflexivity].
Ltac known_word := cbn [stack set_ibs set_stack set_mem set_cgas set_callGasTemp set_returnData set_pc set_contract];
  match goal with H : stack ?v = _ |- context [stack ?v] => rewrite H; reflexivity end.

(** One step of a computation that does not panic. *)
Ltac safe_one :=
  lazymatch goal with
  | |- safe (mret _) _ => apply safe_ret
  | |- safe (throw _) _ => apply safe_throw
  | |- safe (checked _) _ => apply safe_checked_end
  | |- safe (uint64Of _) _ => apply safe_checked_end
  | |- safe (memGas _) _ => apply safe_memGas_end
  | |- safe (mbind _ (mret _)) _ => apply safe_bind_ret
  | |- safe (mbind _ (throw _)) _ => apply safe_bind_throw
  | |- safe (mbind _ (mbind _ _)) _ => apply safe_assoc
  | |- safe (mbind _ (gets _)) _ => apply safe_gets
  | |- safe (mbind _ (modify _)) _ => apply safe_modify
  | |- safe (mbind _ pop) _ => eapply safe_pop; [known_stack|]
  | |- safe (mbind _ peek) _ => eapply safe_peek; [known_stack|]
  | |- safe (mbind _ (setTop _)) _ => eapply safe_setTop; [known_stack|]
  | |- safe (mbind _ (push _)) _ => apply safe_push
  | |- safe (mbind _ (back _)) _ => eapply safe_back; [known_word|]
  | |- safe (mbind _ (checked _)) _ => apply safe_checked; intros ?
  | |- safe (mbind _ (uint64Of _)) _ => apply safe_checked; intros ?
  | |- safe (mbind _ (memGas _)) _ => apply safe_memGas; intros ? ?
  | |- safe (mbind _ (useGas _)) _ => apply safe_useGas; [|intros ?]
  | |- safe (mbind _ (reading _)) _ => apply safe_reading; [known_sound|eauto with along|intros ? ? ? ?]
  | |- safe (mbind _ (writes _)) _ => apply safe_writes; [known_sound|eauto with along|intros ? ?]
  | |- safe (mbind _ (writes_opt _)) _ => apply safe_addSlot; [known_sound|intros ? ?]
  | |- safe (mbind _ (fun v => lift (or_panic (SlotInAccessList (ibs v) _ _)) v)) _ => apply safe_slot; [known_sound|intros ? ?]
  | |- safe (if ?b then _ else _) _ => destruct b eqn:?
  | |- safe (mbind _ (if ?b then _ else _)) _ => destruct b eqn:?
  | |- safe (match ?x with _ => _ end) _ => destruct x eqn:?
  | |- safe (mbind _ (match ?x with _ => _ end)) _ => destruct x eqn:?
  end.
Ltac safe_go := repeat safe_one.

(** ** Gas functions *)

Section GasSafe.
Context `{U : Uint256} `{W : @Uint256Ops U} `{E : @StateEnv U}.

(** The SSTORE functions of EIP-2929 panic on an address that is not in the
    access list. *)
Lemma makeGasSStoreFunc_safe self k n v :
  sound (ibs v) -> listed (ibs v) self -> (2 <= length (stack v))%nat -> safe (makeGasSStoreFunc self k n) v.
Proof.
  intros S Hl Hlen. split_stack v Hlen. autounfold with gasfn. safe_go.
  exfalso. cbn in *. match goal with H : _ -> ~ listed _ _ |- _ => apply H; [done|] end.
  match goal with H : later (ibs v) _ |- _ => by apply H end.
Qed.

(** A call calculation of EIP-2929 lists the callee. *)
Lemma makeCallVariantGasCallEIP2929_safe old n v a :
  sound (ibs v) -> stack v !! 1%nat = Some a ->
  (forall w, sound (ibs w) -> stack w = stack v -> safe (old n) w) -> safe (makeCallVariantGasCallEIP2929 old n) v.
Proof.
  intros S Ha Hold. unfold makeCallVariantGasCallEIP2929. eapply safe_back; [done|]. apply safe_gets. case_match; [by apply Hold|].
  apply safe_writes; [done|eauto with along|]. intros s Hs. apply safe_useGas; [done|]. intros g. cbn [negb].
  apply safe_bind; [apply Hold; [apply Hs|done]|]. done.
Qed.

Lemma AddAddressToAccessList_lists s a : listed (AddAddressToAccessList s a) a.
Proof.
  unfold AddAddressToAccessList, AccessList.AddAddress, listed.
  destruct (AccessList.addresses (accList s) !! a) eqn:Ha; cbn; [by rewrite Ha|]. rewrite lookup_insert_eq. eauto.
Qed.

Lemma listed_AddressInAccessList s a : AddressInAccessList s a = true -> listed s a.
Proof. unfold AddressInAccessList, AccessList.ContainsAddress, listed. intros H. by apply bool_decide_eq_true in H. Qed.

End GasSafe.

(** ** Memory *)

Section MemorySafe.
Context `{U : Uint256} `{W : @Uint256Ops U} `{E : @StateEnv U}.

(** The part of memory [o, o + l) is there. *)
Definition area (m : Memory.Memory) (o l : u256) : Prop := uval l = 0 \/ uval o + uval l <= Memory.Len m.

Definition small (m : Memory.Memory) : Prop := Memory.Len m < 2 ^ 38.

Lemma memOk_small m k : memOk m k -> small m.
Proof. intros [Hk Hl _]. unfold small. rewrite Hl. lia. Qed.

Lemma calc_area m o l sz : calcMemSize64 o l = (sz, false) -> sz <= Memory.Len m -> area m o l.
Proof.
  intros Hc Hle. pose proof (uval_nonneg l). destruct (decide (uval l = 0)) as [|Hl]; [by left|right].
  destruct (calcMemSize64_spec o l sz Hc) as (_ & _ & -> & _); lia.
Qed.

Lemma area_u64 m o l : area m o l -> small m -> 0 < uval l ->
  uUint64 o = uval o /\ uUint64 l = uval l /\ uval o + uval l <= Memory.Len m.
Proof.
  intros [?|Ha] Hs Hl; [lia|]. unfold small in Hs. pose proof (uval_nonneg o).
  unfold uUint64. rewrite !u64_small by (unfold in_u64; lia). done.
Qed.

Lemma uUint64_0 l : uval l = 0 -> uUint64 l = 0.
Proof. intros H. unfold uUint64. by rewrite H. Qed.

(** Reading and writing an area. *)
Lemma area_access m o l value : area m o l -> small m ->
  (exists d, Memory.GetPtr m (int64 (uUint64 o)) (int64 (uUint64 l)) = Ok d /\ Z.of_nat (length (from_nil d)) < 2 ^ 38) /\
  (exists d, Memory.GetCopy m (int64 (uUint64 o)) (int64 (uUint64 l)) = Ok d /\ Z.of_nat (length (from_nil d)) < 2 ^ 38) /\
  exists m', Memory.Set_ m (uUint64 o) (uUint64 l) value = Ok m'.
Proof.
  intros Ha Hs. pose proof (uval_nonneg l). destruct (decide (uval l = 0)) as [Hl|Hl].
  { rewrite (uUint64_0 l Hl). change (int64 0) with 0. unfold Memory.GetPtr, Memory.GetCopy, Memory.Set_. cbn.
    split_and!; eexists; try split; reflexivity. }
  destruct (area_u64 m o l Ha Hs) as (-> & -> & Hle); [lia|]. pose proof (uval_nonneg o). unfold small in Hs.
  destruct (covered_access m (uval o) (uval l) value) as (H1 & H2 & H3); [lia..|]. rewrite H1, H2, H3.
  assert (Z.of_nat (length (take (Z.to_nat (uval l)) (drop (Z.to_nat (uval o)) (Memory.store m)))) < 2 ^ 38).
  { rewrite length_take. lia. }
  split_and!; eexists; try split; first [reflexivity|done].
Qed.

Lemma safe_getPtr {B} o l (f : list Z -> vmM B) v : area (mem v) o l -> small (mem v) ->
  (forall d, Z.of_nat (length d) < 2 ^ 38 -> safe (f d) v) -> safe (getPtr o l ≫= f) v.
Proof.
  intros Ha Hs Hf. destruct (area_access _ _ _ [] Ha Hs) as ((d & Hd & Hlen) & _ & _).
  eapply safe_step; [unfold getPtr; rewrite Hd; reflexivity|]. by apply Hf.
Qed.

Lemma safe_getCopy {B} o l (f : list Z -> vmM B) v : area (mem v) o l -> small (mem v) ->
  (forall d, Z.of_nat (length d) < 2 ^ 38 -> safe (f d) v) -> safe (getCopy o l ≫= f) v.
Proof.
  intros Ha Hs Hf. destruct (area_access _ _ _ [] Ha Hs) as (_ & (d & Hd & Hlen) & _).
  eapply safe_step; [unfold getCopy; rewrite Hd; reflexivity|]. by apply Hf.
Qed.

Lemma safe_Set {B} o l value (f : unit -> vmM B) v : area (mem v) o l -> small (mem v) ->
  (forall m, safe (f tt) (set_mem m v)) -> safe (writeMem (fun m => Memory.Set_ m (uUint64 o) (uUint64 l) value) ≫= f) v.
Proof.
  intros Ha Hs Hf. destruct (area_access _ _ _ value Ha Hs) as (_ & _ & m & Hm).
  eapply safe_writeMem; [exact Hm|]. apply Hf.
Qed.

Lemma getData_ok data start size : Z.of_nat (length data) < maxCode -> 0 <= size < 2 ^ 62 -> in_u64 start ->
  getData data start size <> Panic.
Proof.
  intros Hd Hs Hst. unfold getData, maxCode, in_u64 in *. set (len := Z.of_nat (length data)) in *.
  assert (0 <= len) by (subst len; lia). set (st := if len <? start then len else start).
  assert (0 <= st <= len). { subst st. destruct (Z.ltb_spec len start); lia. }
  rewrite add64_small by (unfold in_u64; lia).
  destruct (Z.ltb_spec len (st + size)); [destruct (Z.ltb_spec len st); [lia|done]|].
  destruct (Z.ltb_spec (st + size) st); [lia|done].
Qed.

Lemma safe_getData {B} data start size (f : list Z -> vmM B) v :
  Z.of_nat (length data) < maxCode -> 0 <= size < 2 ^ 62 -> in_u64 start -> (forall d, safe (f d) v) ->
  safe (lift (getData data start size) ≫= f) v.
Proof. intros H1 H2 H3 Hf. apply safe_lift; [by apply getData_ok|]. intros d _. apply Hf. Qed.

Lemma area_size m o l : area m o l -> small m -> 0 <= uUint64 l < 2 ^ 62.
Proof.
  intros Ha Hs. pose proof (uval_nonneg l). destruct (decide (uval l = 0)) as [Hl|Hl]; [by rewrite uUint64_0|].
  destruct (area_u64 m o l Ha Hs) as (_ & -> & Hle); [lia|]. pose proof (uval_nonneg o). unfold small in Hs. lia.
Qed.

Lemma uUint64WithOverflow_ok x y b : uUint64WithOverflow x = (y, b) -> in_u64 y.
Proof. intros [= <- _]. apply uUint64_range. Qed.

Lemma MaxUint64_ok : in_u64 MaxUint64.
Proof. done. Qed.

End MemorySafe.
