(* ===== verification/InstructionsSafe.v ===== *)
(** * InstructionsSafe: no instruction panics

    An operation of an instruction set is safe when, in a frame in order, its
    size and gas functions do not panic, and it does not panic once the stack
    has been checked and the memory it needs has been paid for.  Every
    instruction of every instruction set is. *)

From S2P Require Import Prelude Uint256 ChainConfig AccessList StateModel StateSnapshot StateSound StateTransition Analysis EvmMemory Words EvmGas Instructions JumpTable Interpreter InterpreterGas InstructionSets EvmSafe.

(** From Berlin on, addresses and slots are in an access list. *)
Definition late (r : Rules.Rules) : bool :=
  Rules.IsPrague r || Rules.IsCancun r || Rules.IsShanghai r || Rules.IsLondon r || Rules.IsBerlin r.

Section Safety.
Context `{U : Uint256} `{W : @Uint256Ops U} `{E : @StateEnv U}.
Variable codeOf : Hash -> list Z.
Variable evm : EVM.
Variable fr : Frame.

Let rules := chainRules evm.

(** ** Frames in order *)

Record order (v : vm) : Prop := {
  or_state : sound (ibs v);
  or_caches : Analysis.caches_ok codeOf (contract v);
  or_code : Z.of_nat (length (Analysis.Code (contract v))) < maxCode;
  or_pc : in_u64 (pc v);
  or_input : Z.of_nat (length (Input fr)) < maxCode;
  or_self : late rules = true -> listed (ibs v) (self fr)
}.

Lemma order_evolves v w : evolves codeOf v w -> order v -> order w.
Proof.
  intros [Hs Hc Hch Hp] [S C L P I A]. destruct (goes_later _ _ S Hs) as [S' Hl]. split; auto. by rewrite Hc.
Qed.

Lemma order_along {A} (m : vmM A) v w r : along (evolves codeOf) m -> order v -> m v = Ok (w, r) -> order w.
Proof. intros Hm Ho H. eapply order_evolves; [by eapply Hm|done]. Qed.

(** The memory the size function asks for is there. *)
Definition covered (f : option (list u256 -> outcome (Z * bool))) (v : vm) : Prop :=
  match f with
  | None => True
  | Some f => exists sz, f (stack v) = Ok (sz, false) /\ sz <= Memory.Len (mem v)
  end.

(** The frame in which an operation is executed: [inside] says that the program
    counter points into the code. *)
Record prepared (inside : bool) (p : nat) f (v : vm) : Prop := {
  pr_order : order v;
  pr_gas : in_u64 (cgas v);
  pr_inside : inside = true -> pc v < Z.of_nat (length (Analysis.Code (contract v)));
  pr_stack : (p <= length (stack v))%nat;
  pr_memory : exists k, memOk (mem v) k;
  pr_covered : covered f v
}.

(** ** Safe operations *)

(** What a gas function establishes besides the cost. *)
Definition condition : Type := IntraBlockState -> Z -> list u256 -> Prop.
Definition nothing : condition := fun _ _ _ => True.

Definition gasSafe (p : nat) (P : condition) (g : Z -> vmM Z) : Prop := forall n v, order v -> (p <= length (stack v))%nat ->
  safe (g n) v /\ forall w c, g n v = Ok (w, inl c) -> P (ibs w) (callGasTemp w) (stack w).

(** A cost that includes the fee for memory of size [n]. *)
Definition fees (n : Z) (m : vmM Z) : Prop := forall v k w c, in_u64 (cgas v) -> memOk (mem v) k -> m v = Ok (w, inl c) ->
  exists fee, memoryGasCost (mem v) n = (mem w, inl fee).

Definition sizeSafe (p : nat) (f : list u256 -> outcome (Z * bool)) : Prop := sizeFunction f /\
  forall st, (p <= length st)%nat -> exists r, f st = Ok r.

Definition execSafe (inside : bool) (p : nat) (P : condition) f (e : exec) : Prop :=
  along (evolves codeOf) e /\
  forall v, prepared inside p f v -> P (ibs v) (callGasTemp v) (stack v) -> safe e v.

Inductive safeOp (inside : bool) : operation -> Prop :=
  | safe_const e g mx p q : execSafe inside p nothing None e -> safeOp inside (mkOperation e g None mx p q None)
  | safe_gas P e g d mx p q :
      gasSafe p P d -> (forall n, along measures (d n)) -> (forall n, along (evolves codeOf) (d n)) -> fees 0 (d 0) ->
      execSafe inside p P None e -> safeOp inside (mkOperation e g (Some d) mx p q None)
  | safe_memory P e g d f mx p q :
      gasSafe p P d -> (forall n, along measures (d n)) -> (forall n, along (evolves codeOf) (d n)) ->
      (forall n, 0 <= n -> fees n (d n)) -> sizeSafe p f ->
      execSafe inside p P (Some f) e -> safeOp inside (mkOperation e g (Some d) mx p q (Some f)).

Lemma costs_fees lo n m : costs lo n m -> fees n m.
Proof. intros H v k w c Hv Hk Hm. specialize (H v k Hv Hk). unfold wp in H. rewrite Hm in H. by destruct H as (_ & _ & H). Qed.
Lemma callCosts_fees P extra n m : callCosts P extra n m -> fees n m.
Proof. intros H v k w c Hv Hk Hm. specialize (H v k Hv Hk). unfold wp in H. rewrite Hm in H. by destruct H as (_ & _ & _ & _ & _ & H). Qed.

(** ** Paying *)

Lemma safe_pay {B} c (f : unit -> vmM B) v : (forall g, in_u64 g -> safe (f tt) (set_cgas g v)) -> safe (pay c ≫= f) v.
Proof.
  intros H. unfold pay, safe, mbind, vmM_bind, useGas. destruct (cgas v <? c); [done|]. apply H, sub64_range.
Qed.

Lemma ToWordSize_covers sz : 0 <= sz -> two64 <= ToWordSize sz * 32 \/ sz <= ToWordSize sz * 32.
Proof.
  intros H. destruct (Z_lt_le_dec sz two64) as [Hlt|]; [right|left].
  - rewrite ToWordSize_spec by lia. pose proof (words_bounds sz H) as Hw. unfold words in Hw. lia.
  - unfold ToWordSize. destruct (Z.ltb_spec (MaxUint64 - 31) sz); [by vm_compute|unfold MaxUint64 in *; lia].
Qed.

Lemma resize_covers m k n m1 fee : memOk m k -> 0 <= n -> memoryGasCost m n = (m1, inl fee) ->
  n <= Memory.Len (if 0 <? n then Memory.Resize m1 n else m1).
Proof.
  intros Hk Hn Hc. destruct (Z.ltb_spec 0 n) as [|]; [|unfold Memory.Len; lia].
  unfold memoryGasCost in Hc. destruct (Z.eqb_spec n 0); [lia|]. destruct (Z.ltb_spec 0x1FFFFFFFE0 n); [done|].
  rewrite Resize_len by lia. lia.
Qed.

(** The dynamic gas of [n] bytes of memory, and what comes after. *)
Lemma charged_safe P d p n (f : unit -> exec) v k :
  order v -> in_u64 (cgas v) -> memOk (mem v) k -> (p <= length (stack v))%nat ->
  gasSafe p P d -> along measures (d n) -> along (evolves codeOf) (d n) -> fees n (d n) -> 0 <= n -> (32 | n) ->
  (forall w k', order w -> in_u64 (cgas w) -> memOk (mem w) k' -> n <= Memory.Len (mem w) -> P (ibs w) (callGasTemp w) (stack w) ->
     stack w = stack v -> pc w = pc v -> contract w = contract v -> safe (f tt) w) ->
  safe (c ← orOutOfGas (d n); (_ ← pay c; if 0 <? n then modify (fun v => set_mem (Memory.Resize (mem v) n) v) else mret tt) ≫= f) v.
Proof.
  intros Ho Hv Hk Hp Hg Hm He Hf Hn H32 Hnext. destruct (Hg n v Ho Hp) as [Hsafe HP].
  apply safe_bind.
  { unfold safe, orOutOfGas in *. by destruct (d n v) as [[w [c|e]]| |]. }
  intros w c Hd. assert (d n v = Ok (w, inl c)) as Hd' by (unfold orOutOfGas in Hd; by destruct (d n v) as [[? [|]]| |]; simplify_eq).
  destruct (Hf v k w c Hv Hk Hd') as [fee Hfee]. destruct (Hm _ _ _ Hd') as [M1 M2 M3 _].
  pose proof (order_along _ _ _ _ He Ho Hd') as Hw. pose proof (resize_covers _ _ _ _ _ Hk Hn Hfee) as Hcov.
  destruct (resize_memOk _ _ _ _ _ Hk Hn H32 Hfee) as [k' Hk'].
  apply safe_assoc, safe_pay. intros g Hgas.
  destruct (0 <? n); [apply safe_modify|apply safe_bind_ret]; apply (Hnext _ k'); cbn;
    first [done | exact (HP _ _ Hd') | destruct Hw; by split].
Qed.

Lemma paid_safe inside o v k : safeOp inside o -> order v -> in_u64 (cgas v) -> memOk (mem v) k ->
  (inside = true -> pc v < Z.of_nat (length (Analysis.Code (contract v)))) -> (numPop o <= length (stack v))%nat ->
  safe (paid o) v.
Proof.
  intros Hs Ho Hv Hk Hin Hp. unfold paid, payDynamic, memoryNeeded. apply safe_pay. intros g Hg.
  assert (order (set_cgas g v)) as Ho' by (destruct Ho; by split).
  destruct Hs as [e c mx p q [_ He]|P e c d mx p q H1 H2 H3 H4 [_ He]|P e c d f mx p q H1 H2 H3 H4 [Hf1 Hf2] [_ He]]; cbn in *.
  - apply safe_bind_ret. apply He; [|done]. split; eauto; done.
  - apply safe_assoc, safe_bind_ret, safe_assoc. eapply (charged_safe P d p 0); eauto; [done|by exists 0|].
    intros w k' Hw Hwg Hwk _ HP E1 E2 E3. apply He; [|done]. split; rewrite ?E1, ?E2, ?E3; eauto; done.
  - apply safe_assoc, safe_assoc. destruct (Hf2 (stack v) Hp) as [[sz ov] Hsz]. pose proof (Hf1 _ _ _ Hsz) as Hnn.
    eapply safe_step; [unfold lift; cbn; rewrite Hsz; reflexivity|]. destruct ov; [done|].
    unfold checked, SafeMul. cbn [fst snd]. destruct (Z.leb_spec two64 (ToWordSize sz * 32)) as [|Hlt]; [done|].
    pose proof (ToWordSize_nonneg sz Hnn). rewrite mul64_small by (unfold in_u64; lia). apply safe_bind_ret, safe_assoc.
    eapply (charged_safe P d p); eauto; [apply H4; lia|lia|by exists (ToWordSize sz)|].
    intros w k' Hw Hwg Hwk Hle HP E1 E2 E3. apply He; [|done]. split; rewrite ?E1, ?E2, ?E3; eauto.
    exists sz. rewrite E1. split; [done|]. destruct (ToWordSize_covers sz Hnn); lia.
Qed.

Lemma pay_evolves c : along (evolves codeOf) (pay c).
Proof. unfold pay. along_go. Qed.

Lemma payDynamic_evolves inside o : safeOp inside o -> along (evolves codeOf) (payDynamic o).
Proof.
  intros Hs. unfold payDynamic, memoryNeeded.
  assert (forall (d : Z -> vmM Z) n, along (evolves codeOf) (d n) -> along (evolves codeOf) (orOutOfGas (d n))) as Hor.
  { intros d n Hd v w r H. unfold orOutOfGas in H. destruct (d n v) as [[u [c|e]]| |] eqn:Ed; simplify_eq; by eapply Hd. }
  destruct Hs; cbn; pose proof pay_evolves; along_go; auto.
Qed.

Lemma paid_evolves inside o : safeOp inside o -> along (evolves codeOf) (paid o).
Proof.
  intros Hs. unfold paid. apply along_bind; [apply _|apply pay_evolves|intros _].
  apply along_bind; [apply _|by eapply payDynamic_evolves|intros _]. by destruct Hs as [? ? ? ? ? []|? ? ? ? ? ? ? ? ? ? ? []|? ? ? ? ? ? ? ? ? ? ? ? ? []].
Qed.

(** ** Gas functions *)

Ltac gas_ok := intros n v [S _ _ _ _ _] Hlen; split; [split_stack v Hlen; autounfold with gasfn; safe_go | done].

Lemma makeGasSStoreFunc_ok k : late rules = true -> gasSafe 2 nothing (makeGasSStoreFunc (self fr) k).
Proof. intros L n v [S _ _ _ _ A] Hlen. split; [apply makeGasSStoreFunc_safe; auto|done]. Qed.

(** Before a call: the gas that goes with it is set aside, and a callee with
    its own storage is in the access list. *)
Definition calling (own : bool) : condition := fun s temp st => in_u64 temp /\
  (late rules = true -> own = true -> exists a, st !! 1%nat = Some a /\ listed s (uBytes20 a)).

Definition setsAside (m : vmM Z) : Prop := forall v w c, m v = Ok (w, inl c) -> in_u64 (callGasTemp w).

Lemma setsAside_bind {A} (m : vmM A) f : (forall a, setsAside (f a)) -> setsAside (m ≫= f).
Proof. intros Hf v w c H. destruct (bind_inv _ _ _ _ _ H) as [(u & a & _ & H')|(e & _ & [=])]. by eapply Hf. Qed.

Lemma callGas_u64 b avail base cost : in_u64 (callGas b avail base cost).1.
Proof. unfold callGas. repeat case_match; cbn; first [apply sub64_range | apply uUint64_range | done]. Qed.

Lemma finishCallGas_sets base : setsAside (finishCallGas rules base).
Proof.
  unfold finishCallGas. do 2 (apply setsAside_bind; intros ?). pose proof (callGas_u64 (Rules.IsTangerineWhistle rules) a0 base a) as Hu.
  destruct (callGas _ _ _ _) as [temp err]. intros v w c H.
  destruct (bind_inv _ _ _ _ _ H) as [(u & [] & [= <-] & H')|(e & _ & [=])].
  destruct err; [done|]. unfold checked in H'. destruct (snd _); [done|]. by injection H' as <- _.
Qed.

Lemma oldCall_sets n :
  setsAside (gasCall rules n) /\ setsAside (gasCallCode rules n) /\ setsAside (gasDelegateCall rules n) /\ setsAside (gasStaticCall rules n).
Proof. split_and!; repeat first [apply finishCallGas_sets | apply setsAside_bind; intros ?]. Qed.

(** The calculations before EIP-2929. *)
Record oldCall (p : nat) (g : Z -> vmM Z) : Prop := {
  oc_safe : forall n v, sound (ibs v) -> (p <= length (stack v))%nat -> safe (g n) v;
  oc_measures : forall n, along measures (g n);
  oc_evolves : forall n, along (evolves codeOf) (g n);
  oc_sets : forall n, setsAside (g n)
}.

Ltac old_call := split;
  [ intros n v S Hlen; split_stack v Hlen; autounfold with gasfn; safe_go
  | intros n; autounfold with gasfn; along_go | intros n; autounfold with gasfn; along_go | intros n; apply oldCall_sets ].

Lemma gasCall_old : oldCall 7 (gasCall rules).
Proof. old_call. Qed.
Lemma gasCallCode_old : oldCall 7 (gasCallCode rules).
Proof. old_call. Qed.
Lemma gasDelegateCall_old : oldCall 6 (gasDelegateCall rules).
Proof. old_call. Qed.
Lemma gasStaticCall_old : oldCall 6 (gasStaticCall rules).
Proof. old_call. Qed.

Lemma oldCall_ok own p g : oldCall p g -> late rules = false \/ own = false -> gasSafe p (calling own) g.
Proof.
  intros [H1 _ _ H4] L n v [S _ _ _ _ _] Hlen. split; [by apply H1|]. intros w c H. split; [by eapply H4|].
  destruct L; congruence.
Qed.

(** The calculations of EIP-2929. *)
Lemma newCall_ok own p g : oldCall (S (S p)) g -> gasSafe (S (S p)) (calling own) (makeCallVariantGasCallEIP2929 g).
Proof.
  intros [H1 H2 H3 H4] n v [S _ _ _ _ _] Hlen. destruct (lookup_lt_is_Some_2 (stack v) 1) as [a Ha]; [lia|]. split.
  { eapply makeCallVariantGasCallEIP2929_safe; [done|done|]. intros w Sw Ew. apply H1; [done|by rewrite Ew]. }
  intros w c H. unfold makeCallVariantGasCallEIP2929 in H. rewrite (bind_inl _ _ _ _ _ (back_at v 1 a Ha)) in H.
  assert (forall u w c, sound (ibs u) -> stack u = stack v -> listed (ibs u) (uBytes20 a) -> g n u = Ok (w, inl c) ->
    calling own (ibs w) (callGasTemp w) (stack w)) as Hold.
  { intros u w' c' Su Eu Hl Hg. split; [by eapply H4|]. intros _ _. exists a.
    rewrite (ms_stack _ _ (H2 _ _ _ _ Hg)), Eu. split; [done|].
    by apply (goes_later _ _ Su (ev_state _ _ _ (H3 _ _ _ _ Hg))). }
  unfold mbind, vmM_bind, gets, writes, modify, useGas in H. destruct (AddressInAccessList (ibs v) (uBytes20 a)) eqn:Ew.
  { eapply Hold; [exact S|done|by apply listed_AddressInAccessList|exact H]. }
  cbn [cgas set_ibs] in H. destruct (cgas v <? _); [done|]. cbn [negb] in H.
  destruct (g n _) as [[u [c'|e]]| |] eqn:Eg; try done. injection H as <- _. cbn.
  eapply Hold; [| | |exact Eg]; [exact (proj1 (goes_later _ _ S (goes_AddAddressToAccessList _ _)))|done|apply AddAddressToAccessList_lists].
Qed.

Lemma newCall_along R `{!PreOrder R} g n :
  (forall v a, R v (set_ibs (AddAddressToAccessList (ibs v) a) v)) -> (forall v gas, R v (set_cgas gas v)) ->
  along R (g n) -> along R (makeCallVariantGasCallEIP2929 g n).
Proof.
  intros H1 H2 Hg. unfold makeCallVariantGasCallEIP2929. apply along_bind; [done|apply along_back, _|intros a].
  apply along_bind; [done|apply along_gets, _|intros warm]. destruct warm; [done|].
  apply along_bind; [done|by apply along_writes; intros|intros _]. apply along_bind; [done|by apply along_useGas|intros ok].
  case_match; [apply along_throw, _|]. apply along_bind; [done|done|intros c].
  apply along_bind; [done|by apply along_modify; intros|intros _]. apply along_ret, _.
Qed.

Lemma newCall_measures p g n : oldCall p g -> along measures (makeCallVariantGasCallEIP2929 g n).
Proof. intros H. apply newCall_along; [apply _|by split..|by apply H]. Qed.
Lemma newCall_evolves p g n : oldCall p g -> along (evolves codeOf) (makeCallVariantGasCallEIP2929 g n).
Proof.
  intros H. apply newCall_along; [apply _| |intros; by apply evolves_fields|by apply H].
  intros v a. apply evolves_ibs, goes_AddAddressToAccessList.
Qed.

(** ** Size functions *)

Lemma Back_ok (st : list u256) p i : (p <= length st)%nat -> (i < p)%nat -> exists x, Stack.Back st i = Ok x.
Proof. intros Hp Hi. unfold Stack.Back. destruct (lookup_lt_is_Some_2 st i) as [x ->]; [lia|]. by exists x. Qed.

Lemma memArgs_ok p i j : (i < p)%nat -> (j < p)%nat -> sizeSafe p (fun st => memArgs st i j).
Proof.
  intros Hi Hj. split; [apply memArgs_size|]. intros st Hp. unfold memArgs.
  destruct (Back_ok st p i Hp Hi) as [o ->], (Back_ok st p j Hp Hj) as [l ->]. cbn. eauto.
Qed.
Lemma memWord_ok p n : (0 < p)%nat -> sizeSafe p (fun st => o ← Stack.Back st 0; Ok (calcMemSize64WithUint o n)).
Proof.
  intros Hp. split; [apply memWord_size|]. intros st Hst. destruct (Back_ok st p 0 Hst Hp) as [o ->]. cbn. eauto.
Qed.
Lemma memAreas_ok p a b c d : (a < p)%nat -> (b < p)%nat -> (c < p)%nat -> (d < p)%nat -> sizeSafe p (fun st => memAreas st a b c d).
Proof.
  intros Ha Hb Hc Hd. split; [apply memAreas_size|]. intros st Hp. unfold memAreas.
  destruct (memArgs_ok p a b Ha Hb) as [_ H1], (memArgs_ok p c d Hc Hd) as [_ H2].
  destruct (H1 st Hp) as [[x o1] ->], (H2 st Hp) as [[y o2] ->]. cbn. destruct o1, o2; eauto.
Qed.

(** The areas an operation has paid for. *)
Lemma memArgs_area st m i j sz o l : memArgs st i j = Ok (sz, false) -> sz <= Memory.Len m ->
  st !! i = Some o -> st !! j = Some l -> area m o l.
Proof.
  unfold memArgs, Stack.Back. intros H Hle Hi Hj. rewrite Hi, Hj in H. cbn in H. injection H as H. by eapply calc_area.
Qed.

Lemma covered_args i j v o l : covered (Some (fun st => memArgs st i j)) v ->
  stack v !! i = Some o -> stack v !! j = Some l -> area (mem v) o l.
Proof. intros (sz & H & Hle). by eapply memArgs_area. Qed.

Lemma covered_areas a b c d v o l o' l' : covered (Some (fun st => memAreas st a b c d)) v ->
  stack v !! a = Some o -> stack v !! b = Some l -> stack v !! c = Some o' -> stack v !! d = Some l' ->
  area (mem v) o l /\ area (mem v) o' l'.
Proof.
  intros (sz & H & Hle) Ha Hb Hc Hd. unfold memAreas in H.
  destruct (memArgs (stack v) a b) as [[x o1]| |] eqn:E1; [|done|done]. cbn in H. destruct o1; [done|].
  destruct (memArgs (stack v) c d) as [[y o2]| |] eqn:E2; [|done|done]. cbn in H. destruct o2; [done|]. injection H as H.
  split; [eapply (memArgs_area _ _ a b); [exact E1| |done..]|eapply (memArgs_area _ _ c d); [exact E2| |done..]];
    destruct (Z.ltb_spec y x); lia.
Qed.

Lemma covered_word n v o : covered (Some (fun st => o ← Stack.Back st 0; Ok (calcMemSize64WithUint o n))) v -> 0 < n < two64 ->
  stack v !! 0%nat = Some o -> small (mem v) -> uUint64 o = uval o /\ uval o + n <= Memory.Len (mem v).
Proof.
  intros (sz & H & Hle) Hn Ho Hs. unfold Stack.Back in H. rewrite Ho in H. cbn in H. injection H as H. pose proof (uval_nonneg o).
  unfold calcMemSize64WithUint, uUint64WithOverflow, uIsUint64, uUint64 in *. destruct (Z.eqb_spec n 0); [lia|].
  destruct (Z.ltb_spec (uval o) two64); [|done]. cbn in H. rewrite (u64_small (uval o)) in * by (unfold in_u64; lia).
  split; [done|]. injection H as <- H. apply Z.ltb_ge in H. rewrite add64_no_wrap in Hle; unfold in_u64; lia.
Qed.

(** ** Instructions *)

Ltac evolves_op := autounfold with instr; along_go.
(** The first step of an instruction with [p] operands: name what is there. *)
Ltac start := intros v [[S C L P I A] Hg Hin Hlen [k Hk] Hcov] HP; pose proof (memOk_small _ _ Hk) as Hsmall; split_stack v Hlen.
Ltac known_area := first [eassumption | match goal with H : area _ _ _ |- _ => exact H end].
Ltac mem_one := first
  [ apply safe_getPtr; [known_area|done|intros ? ?]
  | apply safe_getCopy; [known_area|done|intros ? ?]
  | apply safe_Set; [known_area|done|intros ?]
  | apply safe_getData;
      [ done | first [done | eapply area_size; [known_area|done]]
      | first [eapply uUint64WithOverflow_ok; eassumption | case_match; [apply MaxUint64_ok|eapply uUint64WithOverflow_ok; eassumption]] | intros ?]
  | safe_one ].
Ltac mem_go := repeat mem_one.
(** The area given by the words at [i] and [j] of the stack. *)
Ltac paid_area i j := match goal with Hcov : covered _ _, Est : stack ?v = _ |- _ =>
  let H := fresh "Ha" in epose proof (covered_args i j v _ _ Hcov ltac:(rewrite Est; reflexivity) ltac:(rewrite Est; reflexivity)) as H end.

Lemma opKeccak256_safe inside : execSafe inside 2 nothing (Some memoryKeccak256) opKeccak256.
Proof. split; [evolves_op|]. start. paid_area 0%nat 1%nat. unfold opKeccak256, done. mem_go. Qed.

Lemma opReturn_safe inside : execSafe inside 2 nothing (Some memoryReturn) opReturn.
Proof. split; [evolves_op|]. start. paid_area 0%nat 1%nat. unfold opReturn, halt. mem_go. Qed.

Lemma opRevert_safe inside : execSafe inside 2 nothing (Some memoryRevert) opRevert.
Proof. split; [evolves_op|]. start. paid_area 0%nat 1%nat. unfold opRevert, halt. mem_go. Qed.

Lemma GetCode_length s a t c : sound s -> GetCode s a = (t, c) -> Z.of_nat (length (from_nil c)) < maxCode.
Proof.
  intros S H. destruct c as [c|]; [|done]. destruct (GetCode_at s a c (sound_Good _ S)) as (h & [_ Hl] & _); [by rewrite H|done].
Qed.

Lemma opExtCodeCopy_safe inside : execSafe inside 4 nothing (Some memoryExtCodeCopy) opExtCodeCopy.
Proof.
  split; [evolves_op|]. start. paid_area 1%nat 3%nat. unfold opExtCodeCopy, getDataBig, done. mem_go.
  match goal with H : GetCode _ _ = _ |- _ => pose proof (GetCode_length _ _ _ _ S H) end.
  destruct (uUint64WithOverflow u1) as [start64 overflow] eqn:?. mem_go.
Qed.

Lemma uUint64WithOverflow_exact x y : uUint64WithOverflow x = (y, false) -> y = uval x.
Proof.
  unfold uUint64WithOverflow, uIsUint64, uUint64. intros [= <- H]. apply negb_false_iff, Z.ltb_lt in H.
  apply u64_small. pose proof (uval_nonneg x). unfold in_u64. lia.
Qed.

Lemma opReturnDataCopy_safe inside : execSafe inside 3 nothing (Some memoryReturnDataCopy) opReturnDataCopy.
Proof.
  split; [evolves_op|]. start. paid_area 0%nat 2%nat. unfold opReturnDataCopy, done. mem_go. exfalso.
  match goal with H : _ || _ = false |- _ => apply orb_false_iff in H as [-> _] end.
  repeat match goal with H : uUint64WithOverflow _ = _ |- _ => apply uUint64WithOverflow_exact in H as -> end.
  match goal with H : uAddOverflow _ _ = _ |- _ => rewrite uAddOverflow_spec in H; injection H as <- H end.
  pose proof (uval_nonneg u0). pose proof (uval_nonneg u1). rewrite uAdd_spec, Z.mod_small in * by lia. lia.
Qed.

Lemma opMload_safe inside : execSafe inside 1 nothing (Some memoryMLoad) opMload.
Proof.
  split; [evolves_op|]. start. destruct (covered_word 32 v u Hcov) as [Hu Hle]; [lia|by rewrite Est|done|]. pose proof (uval_nonneg u).
  unfold opMload, done. safe_go.
  destruct (covered_access (mem v) (uval u) 32 []) as [Hp _]; [lia|lia|done|unfold small in *; lia|].
  apply safe_liftv; [rewrite Hu; change 32 with (int64 32); by rewrite Hp|]. intros d _. safe_go.
Qed.

Lemma opMstore_safe inside : execSafe inside 2 nothing (Some memoryMStore) opMstore.
Proof.
  split; [evolves_op|]. start. destruct (covered_word 32 v u Hcov) as [Hu Hle]; [lia|by rewrite Est|done|]. pose proof (uval_nonneg u).
  unfold opMstore, done. safe_go. unfold small in *.
  eapply safe_writeMem; [|done]. unfold Memory.Set32. cbn. rewrite Hu, add64_small by (unfold in_u64; lia).
  destruct (Z.ltb_spec (Memory.Len (mem v)) (uval u + 32)); [lia|]. destruct (Z.ltb_spec (uval u + 32) (uval u)); [lia|done].
Qed.

Lemma opMstore8_safe inside : execSafe inside 2 nothing (Some memoryMStore8) opMstore8.
Proof.
  split; [evolves_op|]. start. destruct (covered_word 1 v u Hcov) as [Hu Hle]; [lia|by rewrite Est|done|]. pose proof (uval_nonneg u).
  unfold opMstore8, done. safe_go.
  eapply safe_writeMem; [|done]. unfold Memory.SetByte. cbn. rewrite Hu.
  destruct (Z.ltb_spec (uval u) 0); [lia|]. destruct (Z.leb_spec (Memory.Len (mem v)) (uval u)); [lia|done].
Qed.

Lemma safe_popTopics {B} n (f : list Hash -> vmM B) v : (n <= length (stack v))%nat ->
  (forall topics st, safe (f topics) (set_stack st v)) -> safe (popTopics n ≫= f) v.
Proof.
  revert f v. induction n as [|n IH]; intros f v Hlen Hf; cbn [popTopics].
  - apply safe_bind_ret. rewrite <- (set_stack_same v). apply Hf.
  - destruct (stack v) as [|x st] eqn:Est; cbn in Hlen; [lia|]. apply safe_assoc. eapply safe_pop; [done|].
    apply safe_assoc. apply IH; [cbn; lia|]. intros topics st'. apply safe_bind_ret, (Hf _ st').
Qed.

Lemma makeLog_safe inside n : execSafe inside (2 + n) nothing (Some memoryLog) (makeLog fr n).
Proof.
  split; [evolves_op|]. start. paid_area 0%nat 1%nat. unfold makeLog, done. mem_go. apply safe_popTopics; [cbn in *; lia|].
  intros topics st'. mem_go.
Qed.

Lemma opCallDataLoad_safe inside : execSafe inside 1 nothing None (opCallDataLoad fr).
Proof. split; [evolves_op|]. start. unfold opCallDataLoad, done. mem_go. Qed.

Lemma opCallDataCopy_safe inside : execSafe inside 3 nothing (Some memoryCallDataCopy) (opCallDataCopy fr).
Proof. split; [evolves_op|]. start. paid_area 0%nat 2%nat. unfold opCallDataCopy, done. mem_go. Qed.

Lemma opCodeCopy_safe inside : execSafe inside 3 nothing (Some memoryCodeCopy) opCodeCopy.
Proof. split; [evolves_op|]. start. paid_area 0%nat 2%nat. unfold opCodeCopy, done. mem_go. Qed.

(** Jumps, pushes, dups and swaps *)

Lemma safe_jumpTo pos v : Analysis.caches_ok codeOf (contract v) -> safe (jumpTo pos) v.
Proof.
  intros C. unfold jumpTo. destruct (validJumpdest_caches codeOf (contract v) pos C) as (r & used & c & Hj & _).
  eapply safe_step; [by rewrite Hj|]. unfold done. safe_go.
Qed.

Lemma opJump_safe inside : execSafe inside 1 nothing None opJump.
Proof. split; [evolves_op|]. start. unfold opJump. safe_go. by apply safe_jumpTo. Qed.
Lemma opJumpi_safe inside : execSafe inside 2 nothing None opJumpi.
Proof. split; [evolves_op|]. start. unfold opJumpi, done. safe_go. by apply safe_jumpTo. Qed.

Lemma opUndefined_safe : execSafe true 0 nothing None opUndefined.
Proof.
  split; [evolves_op|]. intros v [[S C L P I A] Hg Hin _ _ _] _. unfold opUndefined. apply safe_gets. cbn. specialize (Hin eq_refl).
  destruct (lookup_lt_is_Some_2 (Analysis.Code (contract v)) (Z.to_nat (pc v))) as [x Hx]; [unfold in_u64 in *; lia|].
  apply safe_lift; [by rewrite Hx|]. done.
Qed.

Lemma opPush1_safe inside : execSafe inside 0 nothing None opPush1.
Proof.
  split; [evolves_op|]. intros v _ _. unfold opPush1, done. pose proof (add64_range (pc v) 1) as Hr. unfold in_u64 in Hr.
  do 3 safe_one. cbn [pc set_pc].
  destruct (Z.ltb_spec (pc v +u 1) (Z.of_nat (length (Analysis.Code (contract v))))) as [Hlt|]; [|safe_go].
  destruct (lookup_lt_is_Some_2 (Analysis.Code (contract v)) (Z.to_nat (pc v +u 1))) as [x Hx]; [lia|].
  apply safe_lift; [by rewrite Hx|]. intros. safe_go.
Qed.

Lemma makePush_safe n : 0 <= n -> execSafe true 0 nothing None (makePush n n).
Proof.
  intros Hn. split; [evolves_op|]. intros v [[S C L P I A] Hg Hin _ _ _] _. specialize (Hin eq_refl).
  unfold makePush, done. do 2 safe_one. unfold maxCode, in_u64 in *.
  rewrite add64_small, int64_id by (unfold in_u64; lia). set (len := Z.of_nat (length (Analysis.Code (contract v)))) in *. safe_go.
  exfalso. destruct (Z.leb_spec len (pc v + 1)), (Z.leb_spec len (len + n)), (Z.leb_spec len (pc v + 1 + n)); lia.
Qed.

Lemma makeDup_safe inside n : execSafe inside (S n) nothing None (makeDup (S n)).
Proof.
  split; [apply makeDup_evolves|]. intros v [_ _ _ Hlen _ _] _. unfold safe, makeDup, Stack.Dup, Stack.Back.
  destruct (lookup_lt_is_Some_2 (stack v) n) as [x ->]; [lia|]. done.
Qed.

Lemma makeSwap_safe inside n : execSafe inside (S n) nothing None (makeSwap n).
Proof.
  split; [apply makeSwap_evolves|]. intros v [_ _ _ Hlen _ _] _. unfold safe, makeSwap, Stack.Swap, Stack.Back.
  destruct (lookup_lt_is_Some_2 (stack v) n) as [x ->]; [lia|]. destruct (lookup_lt_is_Some_2 (stack v) 0) as [y ->]; [lia|]. done.
Qed.

(** ** Calls *)

(** What the calls into the machine promise an instruction. *)
Record callsSafe (calls : Calls) : Prop := {
  cs_Call : forall a d g x v, order v -> in_u64 g -> Z.of_nat (length d) < maxCode ->
    (late rules = true -> listed (ibs v) a) -> safe (Instructions.Call calls a d g x) v;
  cs_CallCode : forall a d g x v, order v -> in_u64 g -> Z.of_nat (length d) < maxCode -> safe (CallCode calls a d g x) v;
  cs_DelegateCall : forall a d g v, order v -> in_u64 g -> Z.of_nat (length d) < maxCode -> safe (DelegateCall calls a d g) v;
  cs_StaticCall : forall a d g v, order v -> in_u64 g -> Z.of_nat (length d) < maxCode ->
    (late rules = true -> listed (ibs v) a) -> safe (StaticCall calls a d g) v;
  cs_Create : forall d g x v, order v -> in_u64 g -> Z.of_nat (length d) < maxCode -> safe (Instructions.Create calls d g x) v;
  cs_Create2 : forall d g x y v, order v -> in_u64 g -> Z.of_nat (length d) < maxCode -> safe (Create2 calls d g x y) v
}.

Record callsEvolve (calls : Calls) : Prop := {
  ce_Call : forall a d g x, along (evolves codeOf) (Instructions.Call calls a d g x);
  ce_CallCode : forall a d g x, along (evolves codeOf) (CallCode calls a d g x);
  ce_DelegateCall : forall a d g, along (evolves codeOf) (DelegateCall calls a d g);
  ce_StaticCall : forall a d g, along (evolves codeOf) (StaticCall calls a d g);
  ce_Create : forall d g x, along (evolves codeOf) (Instructions.Create calls d g x);
  ce_Create2 : forall d g x y, along (evolves codeOf) (Create2 calls d g x y)
}.

Variable calls : Calls.
Hypothesis Hgive : callsGive calls.
Hypothesis Hsafe : callsSafe calls.
Hypothesis Hevolve : callsEvolve calls.

Lemma finishCall_evolves ro rs r : along (evolves codeOf) (finishCall ro rs r).
Proof. unfold finishCall, returnGas. destruct r as [[ret left] err]. along_go. Qed.

Lemma safe_called ro rs m g v : safe m v -> callGives g m -> area (mem v) ro rs -> small (mem v) ->
  safe (r ← m; finishCall ro rs r) v.
Proof.
  intros Hm Hg Ha Hs. apply safe_bind; [done|]. intros w [[ret left] err] Hw. specialize (Hg v). unfold wp in Hg. rewrite Hw in Hg.
  destruct Hg as ((_ & Hmem & _) & _). unfold finishCall, returnGas. rewrite <- Hmem in Ha, Hs. mem_go.
Qed.

Lemma order_fields v w : ibs w = ibs v -> contract w = contract v -> pc w = pc v -> order v -> order w.
Proof. intros H1 H2 H3. apply order_evolves. by apply evolves_fields. Qed.

#[local] Hint Resolve ce_Call ce_CallCode ce_DelegateCall ce_StaticCall ce_Create ce_Create2 finishCall_evolves Hevolve : along.

(** The two areas of a call, at the given places of the stack. *)
Ltac call_areas a b c d := match goal with Hcov : covered _ _, Est : stack ?v = _ |- _ =>
  let H := fresh in
  epose proof (covered_areas a b c d v _ _ _ _ Hcov ltac:(rewrite Est; reflexivity) ltac:(rewrite Est; reflexivity)
    ltac:(rewrite Est; reflexivity) ltac:(rewrite Est; reflexivity)) as H; destruct H as [? ?] end.
Ltac start_call := intros v Hv; pose proof (pr_order _ _ _ _ Hv) as Ho; revert v Hv Ho;
  intros v [_ Hg Hin Hlen [k Hk] Hcov] Ho HP; pose proof (memOk_small _ _ Hk) as Hsmall; split_stack v Hlen; destruct HP as [Ht Hl].
Ltac call_order := eapply order_fields; [..|eassumption]; reflexivity.
Ltac short := match goal with H : Z.of_nat (length ?d) < 2 ^ 38 |- Z.of_nat (length ?d) < maxCode => clear -H; unfold maxCode; lia end.

Lemma stipended_u64 (x : u256) temp : in_u64 temp -> in_u64 (if uIsZero x then temp else temp +u CallStipend).
Proof. intros. case_match; [done|apply add64_range]. Qed.

Lemma opCall_safe inside : execSafe inside 7 (calling true) (Some memoryCall) (opCall fr calls).
Proof.
  split; [evolves_op|]. start_call. pose proof (stipended_u64 u1 _ Ht). call_areas 5%nat 6%nat 3%nat 4%nat. unfold opCall. mem_go.
  eapply safe_called; [|apply Hgive; eassumption|done|done]. apply Hsafe; [call_order|done|short|].
  intros Hlate. destruct (Hl Hlate eq_refl) as (a & [= <-] & Ha). exact Ha.
Qed.

Lemma opStaticCall_safe inside : execSafe inside 6 (calling true) (Some memoryStaticCall) (opStaticCall calls).
Proof.
  split; [evolves_op|]. start_call. call_areas 4%nat 5%nat 2%nat 3%nat. unfold opStaticCall. mem_go.
  eapply safe_called; [|apply Hgive; eassumption|done|done]. apply Hsafe; [call_order|done|short|].
  intros Hlate. destruct (Hl Hlate eq_refl) as (a & [= <-] & Ha). exact Ha.
Qed.

Lemma opCallCode_safe inside : execSafe inside 7 (calling false) (Some memoryCall) (opCallCode calls).
Proof.
  split; [evolves_op|]. start_call. pose proof (stipended_u64 u1 _ Ht). call_areas 5%nat 6%nat 3%nat 4%nat. unfold opCallCode. mem_go.
  eapply safe_called; [|apply Hgive; eassumption|done|done]. apply Hsafe; [call_order|done|short].
Qed.

Lemma opDelegateCall_safe inside : execSafe inside 6 (calling false) (Some memoryDelegateCall) (opDelegateCall calls).
Proof.
  split; [evolves_op|]. start_call. call_areas 4%nat 5%nat 2%nat 3%nat. unfold opDelegateCall. mem_go.
  eapply safe_called; [|apply Hgive; eassumption|done|done]. apply Hsafe; [call_order|done|short].
Qed.

(** A creation keeps the stack of its frame. *)
Lemma safe_created g m (f : list Z * Address * Z * option error -> exec) v :
  safe m v -> createGives g m -> (forall w r, stack w = stack v -> safe (f r) w) -> safe (m ≫= f) v.
Proof.
  intros Hm Hg Hf. apply safe_bind; [done|]. intros w r Hw. apply Hf.
  specialize (Hg v). unfold wp in Hg. rewrite Hw in Hg. apply Hg.
Qed.

Ltac create_rest := intros w [[[res addr] left] err] Ew; cbn [stack set_stack set_cgas] in Ew; unfold returnGas, done; mem_go.

Lemma opCreate_safe inside : execSafe inside 3 nothing (Some memoryCreate) (opCreate evm fr calls).
Proof.
  split; [evolves_op|]. intros v Hv. pose proof (pr_order _ _ _ _ Hv) as Ho. revert v Hv Ho.
  intros v [_ Hg _ Hlen [k Hk] Hcov] Ho _. pose proof (memOk_small _ _ Hk) as Hsmall. split_stack v Hlen. paid_area 1%nat 2%nat.
  assert (in_u64 (if Rules.IsTangerineWhistle (chainRules evm) then cgas v -u cgas v / 64 else cgas v)) as Hgas.
  { case_match; [apply sub64_range|done]. }
  unfold opCreate. mem_go; (eapply safe_created; [apply Hsafe; [call_order|exact Hgas|short]|apply Hgive; exact Hgas|create_rest]).
Qed.

Lemma opCreate2_safe inside : execSafe inside 4 nothing (Some memoryCreate2) (opCreate2 fr calls).
Proof.
  split; [evolves_op|]. intros v Hv. pose proof (pr_order _ _ _ _ Hv) as Ho. revert v Hv Ho.
  intros v [_ Hg _ Hlen [k Hk] Hcov] Ho _. pose proof (memOk_small _ _ Hk) as Hsmall. split_stack v Hlen. paid_area 1%nat 2%nat.
  pose proof (sub64_range (cgas v) (cgas v / 64)) as Hgas.
  unfold opCreate2. mem_go; (eapply safe_created; [apply Hsafe; [call_order|exact Hgas|short]|apply Hgive; exact Hgas|create_rest]).
Qed.

End Safety.
