(* ===== verification/SetsSafe.v ===== *)
(** * SetsSafe: every entry of every instruction set is safe *)

From S2P Require Import Prelude Uint256 ChainConfig AccessList StateModel StateSnapshot StateSound StateTransition Analysis EvmMemory Words EvmGas Instructions JumpTable Interpreter InterpreterGas InstructionSets EvmSafe InstructionsSafe.

Section SafeTables.
Context `{U : Uint256} `{W : @Uint256Ops U} `{E : @StateEnv U}.
Variable codeOf : Hash -> list Z.
Variable evm : EVM.
Variable fr : Frame.
Variable calls : Calls.
Hypothesis Hgive : callsGive calls.
Hypothesis Hsafe : callsSafe codeOf evm fr calls.
Hypothesis Hevolve : callsEvolve codeOf calls.

Let rules := chainRules evm.
Abbreviation safeOp := (safeOp codeOf evm fr).

(** The entries in [P]; STOP also runs behind the end of the code. *)
Definition tableSafe (P : Z -> Prop) (jt : JumpTable) : Prop := forall i, P i -> safeOp (negb (i =? STOP)) (jt i).

Lemma safeOp_max inside n o : safeOp inside o -> safeOp inside (withMax n o).
Proof. intros []; cbn; econstructor; eauto. Qed.

Lemma tableSafe_fill P jt : tableSafe P jt -> tableSafe P (validateAndFillMaxStack jt).
Proof. intros H i Hi. by apply safeOp_max, H. Qed.

Lemma tableSafe_upd P i f jt : tableSafe (fun j => j <> i /\ P j) jt -> (P i -> safeOp (negb (i =? STOP)) (f (jt i))) -> tableSafe P (upd i f jt).
Proof. intros H Hf j Hj. unfold upd. destruct (Z.eqb_spec j i) as [->|]; auto. Qed.

Lemma tableSafe_mono (P Q : Z -> Prop) jt : (forall i, Q i -> P i) -> tableSafe P jt -> tableSafe Q jt.
Proof. intros H Hjt i Hi. auto. Qed.

(** ** Kinds of entries *)

(** Instructions that neither use memory nor call. *)
Ltac plain_exec := split;
  [ autounfold with instr; along_go
  | intros v [[S C L P I A] Hg Hin Hlen _ _] _; split_stack v Hlen; autounfold with instr; safe_go ].
Ltac exec_op := lazymatch goal with |- execSafe _ _ _ _ _ _ _ ?e => lazymatch e with
  | opKeccak256 => apply opKeccak256_safe
  | opReturn => apply opReturn_safe
  | opRevert => apply opRevert_safe
  | opExtCodeCopy => apply opExtCodeCopy_safe
  | opReturnDataCopy => apply opReturnDataCopy_safe
  | opMload => apply opMload_safe
  | opMstore => apply opMstore_safe
  | opMstore8 => apply opMstore8_safe
  | makeLog _ _ => apply makeLog_safe
  | opCallDataLoad _ => apply opCallDataLoad_safe
  | opCallDataCopy _ => apply opCallDataCopy_safe
  | opCodeCopy => apply opCodeCopy_safe
  | opJump => apply opJump_safe
  | opJumpi => apply opJumpi_safe
  | opUndefined => apply opUndefined_safe
  | opPush1 => apply opPush1_safe
  | makePush _ _ => apply makePush_safe; lia
  | makeDup _ => apply makeDup_safe
  | makeSwap _ => apply makeSwap_safe
  | opCall _ _ => apply opCall_safe; assumption
  | opStaticCall _ => apply opStaticCall_safe; assumption
  | opCallCode _ => apply opCallCode_safe; assumption
  | opDelegateCall _ => apply opDelegateCall_safe; assumption
  | opCreate _ _ _ => apply opCreate_safe; assumption
  | opCreate2 _ _ => apply opCreate2_safe; assumption
  | _ => plain_exec
  end end.
Ltac size_op := first [apply memArgs_ok; lia | apply memWord_ok; lia | apply memAreas_ok; lia].
Ltac gas_op := lazymatch goal with
  | |- context [gasSStoreEIP2929 _] => apply makeGasSStoreFunc_ok; assumption
  | |- context [gasSStoreEIP3529 _] => apply makeGasSStoreFunc_ok; assumption
  | |- _ => intros n v [S _ _ _ _ _] Hlen; split; [split_stack v Hlen; autounfold with gasfn; safe_go | done]
  end.
Ltac plain_entry := lazymatch goal with
  | |- InstructionsSafe.safeOp _ _ _ _ (mkOperation _ _ None _ _ _ _) => apply safe_const; exec_op
  | |- InstructionsSafe.safeOp _ _ _ _ (mkOperation _ _ _ _ _ _ None) =>
      apply (safe_gas _ _ _ _ nothing); [gas_op|intros; autounfold with gasfn; along_go|intros; autounfold with gasfn; along_go
        |eapply costs_fees; cost_op|exec_op]
  | |- _ => apply (safe_memory _ _ _ _ nothing); [gas_op|intros; autounfold with gasfn; along_go|intros; autounfold with gasfn; along_go
        |intros; eapply costs_fees; cost_op|size_op|exec_op]
  end.
(** Before EIP-2929 the calls that need the access list are only safe in rules
    without it. *)
Definition early (i : Z) : Prop := late rules = false \/ (i <> CALL /\ i <> STATICCALL).

(** A call before EIP-2929. *)
Ltac unlisted := first [by right | left; match goal with He : early _ |- _ => destruct He as [?|[He1 He2]]; [done|exfalso; by (apply He1 || apply He2)] end].
Ltac old_call own old cost := apply (safe_memory _ _ _ _ (calling evm own));
  [eapply oldCall_ok; [apply old|unlisted]|apply (oc_measures codeOf _ _ old)|apply (oc_evolves codeOf _ _ old)
  |intros; eapply callCosts_fees, cost; done|size_op|exec_op].
Ltac call_entry := lazymatch goal with
  | |- context [opCall _ _] => old_call true (gasCall_old codeOf evm) gasCall_costs
  | |- context [opStaticCall _] => old_call true (gasStaticCall_old codeOf evm) gasStaticCall_costs
  | |- context [opCallCode _] => old_call false (gasCallCode_old codeOf evm) gasCallCode_costs
  | |- context [opDelegateCall _] => old_call false (gasDelegateCall_old codeOf evm) gasDelegateCall_costs
  end.
Ltac safe_op := match goal with |- InstructionsSafe.safeOp ?c ?ev ?f ?b ?o =>
  let b' := eval vm_compute in b in let e := norm_entry o in change (InstructionsSafe.safeOp c ev f b' e) end;
  lazymatch goal with
  | |- context [opCall _ _] => call_entry
  | |- context [opStaticCall _] => call_entry
  | |- context [opCallCode _] => call_entry
  | |- context [opDelegateCall _] => call_entry
  | |- _ => plain_entry
  end.

Lemma undefined_safe : safeOp true (op opUndefined 0 0 0).
Proof. safe_op. Qed.

Lemma frontierEntries_safe : Forall (fun e => early e.1 -> safeOp (negb (e.1 =? STOP)) e.2) (frontierEntries evm fr calls).
Proof.
  unfold frontierEntries. repeat (apply Forall_cons; split; [intros He; cbn [fst snd]; safe_op|]). by apply Forall_nil.
Qed.

Lemma not_STOP k n : 0 < k -> (1 <= n)%nat -> (k + Z.of_nat n - 1 =? STOP) = false.
Proof. intros. unfold STOP. apply Z.eqb_neq. lia. Qed.

Lemma frontierTable_safe : Forall (fun e => early e.1 -> safeOp (negb (e.1 =? STOP)) e.2) (frontierTable evm fr calls).
Proof.
  unfold frontierTable. rewrite !Forall_app, !Forall_map. split_and!; [apply frontierEntries_safe|..];
    apply Forall_forall; intros n Hn _; apply elem_of_seq in Hn;
    cbn [fst snd pushEntry dupEntry swapEntry]; rewrite not_STOP by (done || lia).
  - safe_op.
  - destruct n as [|n]; [lia|]. safe_op.
  - safe_op.
Qed.

Lemma newFrontier_safe : tableSafe early (newFrontierInstructionSet evm fr calls).
Proof.
  apply tableSafe_fill. intros i Hi. destruct (Z.eqb_spec i STOP) as [->|Hne]; [safe_op|].
  pose proof frontierTable_safe as H. induction H as [|[j o] l Ho Hl IH]; [apply undefined_safe|].
  cbn [entry]. destruct (Z.eqb_spec j i) as [->|]; [|done]. cbn [fst snd default from_option] in Ho |- *.
  rewrite (proj2 (Z.eqb_neq i STOP) Hne) in Ho. by apply Ho.
Qed.

(** ** The forks *)

(** The entries an update does not touch are those of the table before. *)
Ltac other_entries H := eapply tableSafe_mono; [|exact H]; intros ? Hi; repeat destruct Hi as [_ Hi]; exact Hi.
Ltac safe_upd H := apply tableSafe_fill;
  repeat (apply tableSafe_upd; [|intros He; cbn beta in He; repeat match type of He with _ /\ _ => destruct He as [_ He] end; safe_op]);
  other_entries H.

Lemma newHomestead_safe : tableSafe early (newHomesteadInstructionSet evm fr calls).
Proof. safe_upd newFrontier_safe. Qed.

Lemma newTangerineWhistle_safe : tableSafe early (newTangerineWhistleInstructionSet evm fr calls).
Proof. safe_upd newHomestead_safe. Qed.

Lemma newSpuriousDragon_safe : tableSafe early (newSpuriousDragonInstructionSet evm fr calls).
Proof. safe_upd newTangerineWhistle_safe. Qed.

Lemma newByzantium_safe : tableSafe early (newByzantiumInstructionSet evm fr calls).
Proof. safe_upd newSpuriousDragon_safe. Qed.

Lemma newConstantinople_safe : tableSafe early (newConstantinopleInstructionSet evm fr calls).
Proof. safe_upd newByzantium_safe. Qed.

Lemma newIstanbul_safe : tableSafe early (newIstanbulInstructionSet evm fr calls).
Proof. unfold newIstanbulInstructionSet, enable1344, enable1884, enable2200. safe_upd newConstantinople_safe. Qed.

(** From Berlin on every entry is safe. *)
Section Berlin.
Hypothesis T : Rules.IsTangerineWhistle rules = true.
Hypothesis Hlate : late rules = true.

Ltac new_call own old cost := apply (safe_memory _ _ _ _ (calling evm own));
  [eapply newCall_ok, old|intros; eapply newCall_measures, old|intros; eapply newCall_evolves, old
  |intros; eapply callCosts_fees, cost; done|size_op|exec_op].
Ltac call_entry ::= lazymatch goal with
  | |- context [opCall _ _] => new_call true (gasCall_old codeOf evm) (gasCallEIP2929_costs evm T)
  | |- context [opStaticCall _] => new_call true (gasStaticCall_old codeOf evm) (gasStaticCallEIP2929_costs evm T)
  | |- context [opCallCode _] => new_call false (gasCallCode_old codeOf evm) (gasCallCodeEIP2929_costs evm T)
  | |- context [opDelegateCall _] => new_call false (gasDelegateCall_old codeOf evm) (gasDelegateCallEIP2929_costs evm T)
  end.
Ltac other_entries H ::= eapply tableSafe_mono; [|exact H]; intros ? Hi; first [done | right; tauto].

Lemma newBerlin_safe : tableSafe (fun _ => True) (newBerlinInstructionSet evm fr calls).
Proof. unfold newBerlinInstructionSet, enable2929. safe_upd newIstanbul_safe. Qed.

Lemma newLondon_safe : tableSafe (fun _ => True) (newLondonInstructionSet evm fr calls).
Proof. unfold newLondonInstructionSet, enable3198, enable3529. safe_upd newBerlin_safe. Qed.

Lemma newShanghai_safe : tableSafe (fun _ => True) (newShanghaiInstructionSet evm fr calls).
Proof. unfold newShanghaiInstructionSet, enable3855, enable3860. safe_upd newLondon_safe. Qed.

Lemma newCancun_safe : tableSafe (fun _ => True) (newCancunInstructionSet evm fr calls).
Proof. apply tableSafe_fill, newShanghai_safe. Qed.

Lemma newPrague_safe : tableSafe (fun _ => True) (newPragueInstructionSet evm fr calls).
Proof. apply tableSafe_fill, newCancun_safe. Qed.

End Berlin.

Lemma forkTable_safe : (late rules = true -> Rules.IsTangerineWhistle rules = true) -> tableSafe (fun _ => True) (forkTable evm fr calls).
Proof.
  intros Ho. unfold forkTable. fold rules.
  destruct (late rules) eqn:Hl; pose proof Hl as L; unfold late in L.
  - repeat (case_match; [first [apply newPrague_safe | apply newCancun_safe | apply newShanghai_safe | apply newLondon_safe | apply newBerlin_safe]; auto|]).
    repeat match goal with H : _ = false |- _ => rewrite H in L end. done.
  - rewrite !orb_false_iff in L. destruct L as [[[[-> ->] ->] ->] ->].
    repeat case_match; (eapply tableSafe_mono; [|first [apply newIstanbul_safe | apply newConstantinople_safe | apply newByzantium_safe
      | apply newSpuriousDragon_safe | apply newTangerineWhistle_safe | apply newHomestead_safe | apply newFrontier_safe]]);
      intros i _; by left.
Qed.

End SafeTables.
