(* ===== verification/MachineSafe.v ===== *)
(** * MachineSafe: the machine never panics

    The loop, the nested calls and the entry points: in a sound state a call or
    a creation returns, whatever the code does.  Together with
    [InterpreterEnds] this makes [Call] and [Create] total. *)

From S2P Require Import Prelude Uint256 ChainConfig AccessList StateModel StateSnapshot StateSound StateTransition Analysis EvmMemory Words EvmGas Instructions JumpTable Interpreter InterpreterGas InstructionSets InterpreterEnds EvmSafe InstructionsSafe SetsSafe.

Section Machine.
Context `{U : Uint256} `{W : @Uint256Ops U} `{E : @StateEnv U}.
Variable codeOf : Hash -> list Z.
Variable evm : EVM.

Let rules := chainRules evm.
Abbreviation evolves := (evolves codeOf).

(** ** The loop *)

Section Loop.
Variable fr : Frame.
Variable jt : JumpTable.
Hypothesis Hgood : tableGood jt.
Hypothesis Hjt : tableSafe codeOf evm fr (fun _ => True) jt.

Lemma round_evolves v w r : round jt v = Ok (w, r) -> evolves v w.
Proof.
  unfold round, mbind, vmM_bind, gets. set (i := GetOp (contract v) (pc v)). intros H.
  case_match; [by injection H as <- _|]. case_match; [by injection H as <- _|]. exact (paid_evolves _ _ _ _ _ (Hjt i I) _ _ _ H).
Qed.

Lemma loop_evolves fuel d steps res : along evolves (loop evm fuel jt d steps res).
Proof.
  revert steps res. induction fuel as [|fuel IH]; intros steps res v w r H; cbn [loop] in H; [done|].
  case_match; [by injection H as <- _|]. destruct (round jt v) as [[u [[ret [e|]]|e]]| |] eqn:Er; simplify_eq;
    apply round_evolves in Er; [done| |done].
  etrans; [done|]. etrans; [apply (evolves_pc codeOf u (pc u +u 1)), add64_range|]. by eapply IH.
Qed.

Lemma round_safe v k : order codeOf evm fr v -> in_u64 (cgas v) -> memOk (mem v) k -> safe (round jt) v.
Proof.
  intros Ho Hv Hk. unfold round. apply safe_gets, safe_gets. set (i := GetOp (contract v) (pc v)).
  destruct (Z.ltb_spec (Stack.Len (stack v)) (Z.of_nat (numPop (jt i)))) as [|Hp]; [done|]. case_match; [done|].
  eapply (paid_safe _ _ _ _ (jt i) v k (Hjt i I)); [done|done|done| |unfold Stack.Len in Hp; lia].
  subst i. unfold GetOp. destruct (Z.ltb_spec (pc v) (Z.of_nat (length (Analysis.Code (contract v))))); [done|]. done.
Qed.

Lemma loop_safe fuel d steps res v k :
  order codeOf evm fr v -> in_u64 (cgas v) -> memOk (mem v) k -> safe (loop evm fuel jt d steps res) v.
Proof.
  revert steps res v k. induction fuel as [|fuel IH]; intros steps res v k Ho Hv Hk; unfold safe; cbn [loop]; [done|].
  case_match; [done|]. pose proof (round_safe v k Ho Hv Hk) as Hs. pose proof (wp_round jt v k Hgood Hv Hk) as Hw.
  unfold safe, wp in *. destruct (round jt v) as [[u [[ret [e|]]|e]]| |] eqn:Er; try done.
  destruct Hw as [Hg Hw]. destruct (Hw ret eq_refl) as [_ [k' Hk']]. unfold in_u64 in *.
  eapply (IH _ _ _ k'); [|cbn; unfold in_u64; lia|exact Hk'].
  eapply order_evolves; [|exact Ho]. etrans; [exact (round_evolves _ _ _ Er)|apply evolves_pc, add64_range].
Qed.

End Loop.
(** ** Computations that move on from a state *)

(** From [v], itself reached from [v0], [m] reaches only states in order and
    results in [Q]; it does not panic under [pre]. *)
Definition flows {A} (pre : Prop) (v0 : vm) (m : vmM A) (Q : vm -> A -> Prop) (v : vm) : Prop :=
  evolves v0 v -> (pre -> safe m v) /\ forall w r, m v = Ok (w, r) -> evolves v0 w /\ forall a, r = inl a -> Q w a.

Section Flows.
Variable pre : Prop.
Variable v0 : vm.
Hypothesis S0 : sound (ibs v0).

Lemma evolves_sound v w : sound (ibs v) -> evolves v w -> sound (ibs w).
Proof. intros S H. exact (wi_sound _ _ _ (goes_within _ _ S (ev_state _ _ _ H))). Qed.

Lemma flows_bind {A B} (m : vmM A) (f : A -> vmM B) P Q v :
  flows pre v0 m P v -> (forall w a, evolves v0 w -> P w a -> flows pre v0 (f a) Q w) -> flows pre v0 (m ≫= f) Q v.
Proof.
  intros Hm Hf Hv. destruct (Hm Hv) as [Hs Hr]. split.
  - intros Hp. apply safe_bind; [auto|]. intros w a Hw. destruct (Hr _ _ Hw) as [Hev HP]. by apply Hf; auto.
  - intros w r H. destruct (bind_inv _ _ _ _ _ H) as [(u & a & H1 & H2)|(e & H1 & ->)].
    + destruct (Hr _ _ H1) as [Hev HP]. destruct (Hf u a Hev (HP a eq_refl) Hev) as [_ Hr']. by apply Hr'.
    + destruct (Hr _ _ H1) as [Hev _]. split; [done|]. done.
Qed.

(** The same for a part that is seen from a later state [b]. *)
Lemma flows_bind_in {A B} b (m : vmM A) (f : A -> vmM B) P Q v :
  evolves v0 b -> evolves b v -> flows pre b m P v -> (forall w a, evolves b w -> P w a -> flows pre v0 (f a) Q w) ->
  flows pre v0 (m ≫= f) Q v.
Proof.
  intros Hb Hv Hm Hf. destruct (Hm Hv) as [Hs Hr]. eapply (flows_bind _ _ (fun w a => evolves b w /\ P w a)).
  - intros _. split; [done|]. intros w r Hw. destruct (Hr _ _ Hw) as [Hev HP]. split; [by etrans|]. intros a Ha. by split; auto.
  - intros w a _ [Hev HP]. auto.
Qed.

Lemma flows_ret {A} (a : A) (Q : vm -> A -> Prop) v : Q v a -> flows pre v0 (mret a) Q v.
Proof. intros HQ Hv. split; [done|]. intros w r [= <- <-]. split; [done|]. by intros ? [= <-]. Qed.

Lemma flows_reading {A} (g : IntraBlockState -> IntraBlockState * A) (Q : vm -> A -> Prop) v :
  (forall s, goes s (g s).1) -> (forall s a, g (ibs v) = (s, a) -> sound (ibs v) -> Q (set_ibs s v) a) ->
  flows pre v0 (reading g) Q v.
Proof.
  intros Hg HQ Hv. pose proof (evolves_sound _ _ S0 Hv) as S. specialize (Hg (ibs v)).
  destruct (g (ibs v)) as [s a] eqn:Eg. split; [intros _; eapply safe_ok; by apply reading_at|].
  intros w r Hw. rewrite (reading_at g v s a Eg) in Hw. injection Hw as <- <-.
  split; [etrans; [exact Hv|by apply evolves_ibs]|]. intros ? [= <-]. by apply HQ.
Qed.

Lemma flows_writes g (Q : vm -> unit -> Prop) v :
  (forall s, goes s (g s)) -> (sound (ibs v) -> Q (set_ibs (g (ibs v)) v) tt) -> flows pre v0 (writes g) Q v.
Proof.
  intros Hg HQ Hv. pose proof (evolves_sound _ _ S0 Hv) as S. split; [done|]. intros w r [= <- <-].
  split; [etrans; [exact Hv|by apply evolves_ibs]|]. intros [] _. by apply HQ.
Qed.

End Flows.

Abbreviation anything := (fun _ _ => True).

(** Steps that only have to be in order. *)
Ltac flow_step := first
  [ apply flows_ret; done
  | apply flows_reading; [done|eauto with along|done]
  | apply flows_writes; [done|eauto with along|done]
  | apply (flows_bind _ _ _ _ anything); [|intros ? ? ? _]
  | case_match ].
Ltac flow := repeat flow_step.

(** Reverting to a snapshot taken at [u]. *)
Lemma evolves_revert v u w s : evolves v u -> evolves v w -> goes (ibs u) s -> evolves v (set_ibs s w).
Proof. intros Hu Hw Hs. split; cbn; [etrans; [apply (ev_state _ _ _ Hu)|done]|exact (ev_code _ _ _ Hw)|exact (ev_caches _ _ _ Hw)|exact (ev_pc _ _ _ Hw)]. Qed.

Lemma flows_revert pre v u s1 id (Q : vm -> unit -> Prop) w :
  sound (ibs v) -> evolves v u -> TakeSnapshot (ibs u) = (s1, id) -> evolves (set_ibs s1 u) w -> (forall x, Q x tt) ->
  flows pre v (writes_opt (fun s => RevertToSnapshot s id)) Q w.
Proof.
  intros S Hu Hs Hw HQ Hv. pose proof (evolves_sound _ _ S Hu) as Su.
  destruct (snapshot_revert (ibs u) s1 id (ibs w) Hs Su (ev_state _ _ _ Hw)) as (s3 & Hr & Hgo).
  split; [intros _; eapply safe_ok; unfold writes_opt; by rewrite Hr|].
  intros x r Hx. unfold writes_opt in Hx. rewrite Hr in Hx. injection Hx as <- <-.
  split; [exact (evolves_revert _ u _ _ Hu Hv Hgo)|]. intros [] _. apply HQ.
Qed.

(** ** Calls *)

(** The callee's account keeps its code hash until the hash is read. *)
Lemma Exist_hashAt s a h : hashAt s a h -> exists t, Exist s a = (t, true) /\ hashAt t a h.
Proof. intros (o & Ho & Hd & Hh). exists s. unfold Exist, getStateObject. rewrite Ho. cbn. rewrite Hd. split; [done|by exists o]. Qed.

Lemma Transfer_hashAt s from to v b a h : sound s -> hashAt s a h -> hashAt (Transfer from to v b s) a h.
Proof.
  intros S H. unfold Transfer. destruct b; [by apply AddBalance_hashAt; [apply sound_Good|]|].
  apply AddBalance_hashAt; [|by apply SubBalance_hashAt; [apply sound_Good|]].
  apply sound_Good. exact (proj1 (goes_later _ _ S (goes_SubBalance s from v))).
Qed.

Lemma prepareCallee_flows pre v0 typ caller addr value isP bailout v : sound (ibs v0) ->
  flows pre v0 (prepareCallee evm typ caller addr value isP bailout)
    (fun w _ => forall h, hashAt (ibs v) addr h -> hashAt (ibs w) addr h) v.
Proof.
  intros S0. unfold prepareCallee. destruct typ.
  - apply (flows_bind _ _ _ _ (fun w exist => forall h, hashAt (ibs v) addr h -> hashAt (ibs w) addr h /\ exist = true)).
    { apply flows_reading; [done|eauto with along|]. intros s x Hx _ h Hh. destruct (Exist_hashAt _ _ _ Hh) as (t & Ht & ?).
      rewrite Hx in Ht. by simplify_eq. }
    intros w exist Hw HP. case_match; [apply flows_ret; intros h Hh; by apply HP|].
    apply (flows_bind _ _ _ _ (fun u _ => forall h, hashAt (ibs v) addr h -> hashAt (ibs u) addr h)).
    + destruct exist; [apply flows_ret; intros h Hh; by apply HP|]. apply flows_writes; [done|eauto with along|].
      intros _ h Hh. by destruct (HP h Hh).
    + intros u [] Hu HP'. apply (flows_bind _ _ _ _ (fun u _ => forall h, hashAt (ibs v) addr h -> hashAt (ibs u) addr h)).
      * apply flows_writes; [done|eauto with along|]. intros Su h Hh. apply Transfer_hashAt; auto.
      * intros x [] Hx HP''. by apply flows_ret.
  - by apply flows_ret.
  - by apply flows_ret.
  - apply (flows_bind _ _ _ _ (fun u _ => forall h, hashAt (ibs v) addr h -> hashAt (ibs u) addr h)).
    + apply flows_writes; [done|eauto with along|]. intros Su h Hh. apply AddBalance_hashAt; [by apply sound_Good|done].
    + intros x [] Hx HP. by apply flows_ret.
Qed.

(** What a frame needs to run without a panic. *)
Record enterable (fr : Frame) (code : list Z) (g : Z) (v : vm) : Prop := {
  en_caches : Analysis.caches_ok codeOf (contract v);
  en_code : Z.of_nat (length code) < maxCode;
  en_input : Z.of_nat (length (Input fr)) < maxCode;
  en_gas : in_u64 g;
  en_self : late rules = true -> listed (ibs v) (self fr)
}.

Definition runnerFlows (d : Z) (run : runner) : Prop := forall fr code hash g v,
  depth fr = d -> sound (ibs v) -> (hash <> 0 -> codeOf hash = code) ->
  flows (enterable fr code g v) v (run fr code hash g) anything v.

(** Whose storage the callee works on. *)
Definition target (typ : callType) (caller : Caller) (addr : Address) : Address :=
  match typ with TCALL | TSTATICCALL => addr | _ => callerAddress caller end.

Record callable (typ : callType) (caller : Caller) (addr : Address) (input : list Z) (g : Z) (v : vm) : Prop := {
  ca_caches : Analysis.caches_ok codeOf (contract v);
  ca_input : Z.of_nat (length input) < maxCode;
  ca_gas : in_u64 g;
  ca_target : late rules = true -> listed (ibs v) (target typ caller addr);
  ca_parent : typ = TDELEGATECALL -> is_Some (parent caller)
}.

Lemma callFrame_spec typ caller addr input value :
  (typ = TDELEGATECALL -> is_Some (parent caller)) ->
  exists fr, callFrame typ caller addr input value = Ok fr.
Proof. intros H. unfold callFrame. destruct typ; eauto. destruct (H eq_refl) as [p ->]. eauto. Qed.

Lemma callFrame_fields typ caller addr input value fr : callFrame typ caller addr input value = Ok fr ->
  Input fr = input /\ self fr = target typ caller addr.
Proof. unfold callFrame. repeat case_match; intros [= <-]; done. Qed.

Lemma callFrame_noerr typ caller addr input value e : callFrame typ caller addr input value <> Err e.
Proof. unfold callFrame. by repeat case_match. Qed.

(** Hashes do not collide: [codeOf] gives back the code of a hash. *)
Hypothesis HcodeOf : forall c, codeOf (Keccak256Hash c) = c.

Lemma flows_run (pre : Prop) d run b fr code hash g u : runnerFlows d run -> depth fr = d -> sound (ibs b) ->
  (hash <> 0 -> codeOf hash = code) -> (pre -> evolves b u -> enterable fr code g u) ->
  flows pre b (run fr code hash g) anything u.
Proof.
  intros Hrun Hd Sb Hh Hen Hu. pose proof (evolves_sound _ _ Sb Hu) as Su.
  destruct (Hrun fr code hash g u Hd Su Hh) as [Hs Hr]; [reflexivity|]. split; [auto|].
  intros w r Hw. destruct (Hr w r Hw) as [He _]. split; [by etrans|done].
Qed.

(** The run of a callee with code, from a state [u] reached from [v]. *)
Lemma runCallee_flows run typ caller addr input g value v b u c h :
  runnerFlows (callDepth caller + 1) run -> sound (ibs v) -> evolves v b -> codeOk h c -> hashAt (ibs u) addr h ->
  flows (callable typ caller addr input g v) b
    (codeHash ← reading (fun s => GetCodeHash s addr); fr ← lift (callFrame typ caller addr input value); run fr c codeHash g)
    anything u.
Proof.
  intros Hrun S Hb [<- Hlen] Hh. pose proof (evolves_sound _ _ S Hb) as Sb.
  apply (flows_bind _ _ _ _ (fun w hash => hash = Keccak256Hash c)).
  { apply flows_reading; [done|eauto with along|]. intros s x Hx _. rewrite (GetCodeHash_at _ _ _ Hh) in Hx. by simplify_eq. }
  intros w hash Hw ->. destruct (callFrame typ caller addr input value) as [fr|e|] eqn:Ef.
  - apply (flows_bind _ _ _ _ (fun _ x => x = fr)); [by apply flows_ret|]. intros x ? Hx ->.
    eapply flows_run; [done|by eapply callFrame_depth|done|auto|].
    intros [C I G T P] Hex. destruct (callFrame_fields _ _ _ _ _ _ Ef) as [Hi Hself].
    assert (evolves v x) as Hvx by (by etrans).
    split; [by apply (ev_caches _ _ _ Hvx)|done|by rewrite Hi|done|]. intros Hl. rewrite Hself.
    apply (goes_later _ _ S (ev_state _ _ _ Hvx)). auto.
  - by destruct (callFrame_noerr _ _ _ _ _ _ Ef).
  - intros Hew. split; [|done]. intros [_ _ _ _ P]. destruct (callFrame_spec typ caller addr input value P) as [fr Hfr]. congruence.
Qed.

Lemma call_flows run typ caller addr input g value bailout v :
  (callDepth caller <= CallCreateDepth -> runnerFlows (callDepth caller + 1) run) -> sound (ibs v) ->
  flows (callable typ caller addr input g v) v (call evm run typ caller addr input g value bailout) anything v.
Proof.
  intros Hrun S. unfold call. case_match; [by apply flows_ret|].
  destruct (Z.ltb_spec CallCreateDepth (callDepth caller)); [by apply flows_ret|]. specialize (Hrun ltac:(done)).
  apply (flows_bind _ _ _ _ anything); [flow|]. intros w0 poor Hw0 _. case_match; [by apply flows_ret|].
  apply (flows_bind _ _ _ _ (fun w c => precompile evm addr = None -> forall x, c = Some x -> exists h, codeOk h x /\ hashAt (ibs w) addr h)).
  { case_bool_decide as Hp; [apply flows_ret; intros Hn; rewrite Hn in Hp; by destruct Hp|].
    apply flows_reading; [done|eauto with along|]. intros s c Hc Sw _ x ->.
    destruct (GetCode_at (ibs w0) addr x (sound_Good _ Sw)) as (h & Hok & Hh); [by rewrite Hc|]. exists h. rewrite Hc in Hh. by split. }
  intros u code Hu Hcode. apply (flows_bind _ _ _ _ (fun w id => exists s1, TakeSnapshot (ibs u) = (s1, id) /\ w = set_ibs s1 u)).
  { apply flows_reading; [done|eauto with along|]. intros s1 id Hs _. eauto. }
  intros b id Hb (s1 & Hs & ->). assert (sound (ibs (set_ibs s1 u))) as Sb by (exact (evolves_sound _ _ S Hb)).
  assert (forall h, hashAt (ibs u) addr h -> hashAt s1 addr h) as Hh1 by (intros h Hh; by injection Hs as <- <-).
  apply (flows_bind_in _ _ (set_ibs s1 u) _ _ (fun w _ => forall h, hashAt s1 addr h -> hashAt (ibs w) addr h)); [done|reflexivity|by apply prepareCallee_flows|].
  intros w proceed Hw HP. case_match; [by apply flows_ret|].
  apply (flows_bind_in _ _ (set_ibs s1 u) _ _ anything); [done|done| |].
  - destruct (precompile evm addr) as [p|]; [by apply flows_ret|]. case_bool_decide; [by apply flows_ret|].
    destruct code as [c|]; [|done]. destruct (Hcode eq_refl c eq_refl) as (h & Hok & Hh). eapply runCallee_flows; eauto.
  - intros x [[ret left] err] Hx _. unfold settleCall. case_match; [|by apply flows_ret].
    apply (flows_bind _ _ _ _ anything); [by apply (flows_revert _ _ u s1)|]. intros ? ? ? _. by apply flows_ret.
Qed.

(** ** Creations *)

Hypothesis Hberlin : late rules = true -> Rules.IsBerlin rules = true.
(** The code size limit of EIP-170 is in force. *)
Hypothesis Hlimit : Rules.IsSpuriousDragon rules && (negb (Rules.IsAura rules) || HasEip3860 evm) = true.

Record creatable (code : list Z) (g : Z) (v : vm) : Prop := {
  cr_caches : Analysis.caches_ok codeOf (contract v);
  cr_code : Z.of_nat (length code) < maxCode;
  cr_gas : in_u64 g
}.

(** The state after the preparations: the snapshot was taken at [u]. *)
Definition created (v : vm) (address : Address) (w : vm) (id : Z) : Prop := exists u s1,
  evolves v u /\ TakeSnapshot (ibs u) = (s1, id) /\ evolves (set_ibs s1 u) w /\ (late rules = true -> listed (ibs w) address).

Lemma evolves_listed v w a : sound (ibs v) -> evolves v w -> listed (ibs v) a -> listed (ibs w) a.
Proof. intros S H. apply (goes_later _ _ S (ev_state _ _ _ H)). Qed.

Lemma prepareCreate_flows pre caller g value address b v : sound (ibs v) ->
  flows pre v (prepareCreate evm caller g value address b)
    (fun w r => match r with inl _ => True | inr id => callDepth caller <= CallCreateDepth /\ created v address w id end) v.
Proof.
  intros S. unfold prepareCreate. destruct (Z.ltb_spec CallCreateDepth (callDepth caller)); [by apply flows_ret|].
  do 2 (apply (flows_bind _ _ _ _ anything); [flow|intros ? ? ? _]; case_match; [by apply flows_ret|]).
  apply (flows_bind _ _ _ _ (fun w _ => late rules = true -> listed (ibs w) address)).
  { destruct (Rules.IsBerlin (chainRules evm)) eqn:Eb.
    - apply flows_writes; [done|eauto with along|]. intros _ _. apply AddAddressToAccessList_lists.
    - apply flows_ret. intros L. specialize (Hberlin L). fold rules in Eb. congruence. }
  intros w1 [] Hw1 Hl1. pose proof (evolves_sound _ _ S Hw1) as S1.
  assert (forall x A (f : IntraBlockState -> IntraBlockState * A), (forall s, goes s (f s).1) -> (late rules = true -> listed (ibs x) address) ->
    flows pre v (reading f) (fun w _ => late rules = true -> listed (ibs w) address) x) as Hread.
  { intros x A f Hf Hl. apply flows_reading; [done|done|]. intros s y Hx Sw L. pose proof (Hf (ibs x)) as Hg. rewrite Hx in Hg.
    apply (goes_later _ _ Sw Hg). auto. }
  eapply flows_bind; [apply Hread; [eauto with along|done]|intros w2 h Hw2 Hl2].
  eapply flows_bind; [apply Hread; [eauto with along|done]|intros w3 n Hw3 Hl3]. case_match; [by apply flows_ret|].
  apply (flows_bind _ _ _ _ (fun w id => exists s1, TakeSnapshot (ibs w3) = (s1, id) /\ w = set_ibs s1 w3)).
  { apply flows_reading; [done|eauto with along|]. intros s1 id Hs _. eauto. }
  intros x id Hw (s1 & Hs & ->). assert (sound (ibs (set_ibs s1 w3))) as Sb by exact (evolves_sound _ _ S Hw).
  do 3 (eapply (flows_bind_in _ _ (set_ibs s1 w3) _ _ anything); [done|first [reflexivity|eassumption]|flow|intros ? ? ? _]).
  apply flows_ret. split; [done|]. exists w3, s1. split_and!; [done..|]. intros L. eapply evolves_listed; [exact Sb|done|].
  injection Hs as <- _. exact (Hl3 L).
Qed.

Lemma codeError_short ret err : codeError evm ret err = None -> Z.of_nat (length ret) < maxCode.
Proof.
  unfold codeError. fold rules. apply andb_true_iff in Hlimit as [-> ->]. rewrite !andb_true_r.
  destruct err; [done|].
  destruct (Z.ltb_spec MaxCodeSize (Z.of_nat (length ret))); cbn; [done|]. intros _. unfold MaxCodeSize, maxCode in *. lia.
Qed.

Lemma goes_SetCode s a c : Z.of_nat (length (from_nil c)) < maxCode -> goes s (SetCode s a c).
Proof. intros H. apply (goes_op s (OSetCode a c)); [by destruct c|done]. Qed.

Lemma settleCreate_flows pre v w snapshot address ret g err : sound (ibs v) -> created v address w snapshot -> evolves v w ->
  flows pre v (settleCreate evm snapshot address ret g err) anything w.
Proof.
  intros S (u & s1 & Hu & Hs & Hw & _) Hvw. unfold settleCreate.
  assert (sound (ibs (set_ibs s1 u))) as Sb.
  { destruct (goes_later (ibs u) s1 (evolves_sound _ _ S Hu)) as [Sb _]; [|done]. pose proof (goes_TakeSnapshot (ibs u)) as Hg. by rewrite Hs in Hg. }
  assert (evolves v (set_ibs s1 u)) as Hb.
  { etrans; [exact Hu|]. apply evolves_ibs. pose proof (goes_TakeSnapshot (ibs u)) as Hg. by rewrite Hs in Hg. }
  apply (flows_bind_in _ _ (set_ibs s1 u) _ _ anything); [done|done| |].
  - case_bool_decide as He; [|by apply flows_ret]. case_match; [by apply flows_ret|].
    apply (flows_bind _ _ _ _ anything); [|intros; by apply flows_ret]. apply flows_writes; [done| |done].
    intros s. apply goes_SetCode. apply codeError_short in He. by destruct ret.
  - intros x [gas err'] Hx _. case_match; [|by apply flows_ret].
    apply (flows_bind _ _ _ _ anything); [by apply (flows_revert _ _ u s1)|]. intros ? ? ? _. by apply flows_ret.
Qed.

Lemma create_flows run caller code hash g value address b v :
  (callDepth caller <= CallCreateDepth -> runnerFlows (callDepth caller + 1) run) -> sound (ibs v) -> (hash <> 0 -> codeOf hash = code) ->
  flows (creatable code g v) v (create evm run caller code hash g value address b) anything v.
Proof.
  intros Hrun S Hh. unfold create.
  eapply flows_bind; [by apply prepareCreate_flows|]. intros w [r|id] Hw Hc; [by apply flows_ret|]. destruct Hc as [Hd Hc].
  case_match; [by apply flows_ret|]. pose proof (evolves_sound _ _ S Hw) as Sw.
  apply (flows_bind_in _ _ w _ _ anything); [done|reflexivity| |].
  - eapply flows_run; [by apply Hrun|done|done|done|]. intros [C L G] _. destruct Hc as (u & s1 & _ & _ & _ & Hl).
    split; [by apply (ev_caches _ _ _ Hw)|done|done|done|done].
  - intros x [[ret left] err] Hx _. apply settleCreate_flows; [done| |by etrans].
    destruct Hc as (u & s1 & H1 & H2 & H3 & H4). exists u, s1. split_and!; [done|done|by etrans|].
    intros L. eapply evolves_listed; eauto.
Qed.

Lemma evmCreate_flows run caller code g value v :
  (callDepth caller <= CallCreateDepth -> runnerFlows (callDepth caller + 1) run) -> sound (ibs v) ->
  flows (creatable code g v) v (evmCreate evm run caller code g value) anything v.
Proof.
  intros Hrun S. unfold evmCreate. apply (flows_bind _ _ _ _ anything); [flow|]. intros w nonce Hw _.
  pose proof (evolves_sound _ _ S Hw) as Sw. intros _.
  destruct (create_flows run caller code 0 g value (CreateAddress (callerAddress caller) nonce) true w Hrun Sw) as [Hs Hr]; [done|reflexivity|].
  split.
  - intros [C L G]. apply Hs. split; [by apply (ev_caches _ _ _ Hw)|done|done].
  - intros x r Hx. destruct (Hr x r Hx) as [He _]. split; [by etrans|done].
Qed.

(** ** [Run] *)

Lemma flows_along {A} (pre : vm -> Prop) (m : vmM A) : (forall v, sound (ibs v) -> flows (pre v) v m anything v) -> along evolves m.
Proof.
  intros Hm v w r H. assert (sound (ibs v) -> evolves v w) as Hev.
  { intros S. destruct (Hm v S) as [_ Hr]; [reflexivity|]. by eapply Hr. }
  split; intros S; by apply Hev.
Qed.

Lemma flows_safe {A} (pre : Prop) (m : vmM A) v : flows pre v m anything v -> pre -> safe m v.
Proof. intros Hm. apply Hm. reflexivity. Qed.

Section FrameCalls.
Variable run : runner.
Variable fr : Frame.
Hypothesis Hrun : depth fr <= CallCreateDepth -> runnerFlows (depth fr + 1) run.

Lemma frameCalls_evolve : callsEvolve codeOf (frameCalls evm run fr).
Proof.
  split; intros; cbn; eapply flows_along; intros v S;
    first [by apply call_flows | by apply evmCreate_flows | by apply create_flows; [done|done|auto]].
Qed.

Lemma frameCalls_safe : callsSafe codeOf evm fr (frameCalls evm run fr).
Proof.
  split; intros; cbn; match goal with H : order _ _ _ _ |- _ => destruct H as [S C L P I A] end;
    (eapply flows_safe; [first [by apply call_flows | by apply evmCreate_flows | by apply create_flows; [done|done|auto]]|]);
    split; done || eauto.
Qed.

End FrameCalls.

Hypothesis Hok : evmOk evm.

Lemma enter_caches code hash g v : (hash <> 0 -> codeOf hash = code) -> Analysis.caches_ok codeOf (contract v) ->
  Analysis.caches_ok codeOf (contract (enter evm code hash g v)).
Proof. intros Hh [C1 C2 C3]. by split; cbn. Qed.

Lemma leave_evolves code hash g v w : (hash <> 0 -> codeOf hash = code) -> evolves (enter evm code hash g v) w -> evolves v (leave v w).
Proof.
  intros Hh [Hs Hc Hch Hp]. split; [exact Hs|done| |done]. intros S [C1 C2 C3].
  destruct (Hch S (enter_caches code hash g v Hh (Analysis.Build_caches_ok _ _ C1 C2 C3))) as [D1 D2 D3]. by split; cbn.
Qed.

Lemma Run_flows n d : d <= 1025 -> 1026 <= d + Z.of_nat n -> runnerFlows d (Run evm n).
Proof.
  revert d. induction n as [|n IH]; intros d Hd Hn fr code hash g v <- S Hh _; [lia|]. unfold safe. cbn [Run].
  destruct (bool_decide (code = [])); [split; [done|]; intros w r [= <- <-]; split; [reflexivity|done]|].
  set (calls := frameCalls evm (Run evm n) fr).
  assert (callsGive calls) as Hg.
  { apply frameCalls_give; [apply Hok|]. unfold CallCreateDepth. intros. apply Run_gives; try apply Hok; lia. }
  assert (depth fr <= CallCreateDepth -> runnerFlows (depth fr + 1) (Run evm n)) as Hrun.
  { unfold CallCreateDepth. intros. apply IH; lia. }
  unfold NewEVMInterpreter. rewrite (ok_eips _ Hok). cbn [length extraEips]. set (jt := forkTable evm fr calls).
  assert (tableGood jt) as Hgood by (apply forkTable_good; [done|apply Hok]).
  assert (tableSafe codeOf evm fr (fun _ => True) jt) as Hjt.
  { apply forkTable_safe; [done|by apply frameCalls_safe|by apply frameCalls_evolve|].
    intros L. pose proof (ok_rules _ Hok) as Ho. unfold ordered, late in *. by rewrite L in Ho. }
  split.
  - intros [C L I G A]. assert (safe (loop evm (Datatypes.S (Z.to_nat g)) jt (depth fr) 0 []) (enter evm code hash g v)) as Hl.
    { eapply (loop_safe fr jt Hgood Hjt _ _ _ _ _ 0); [|done|split; done]. split; try done. by apply enter_caches. }
    unfold safe in Hl. by destruct (loop _ _ _ _ _ _ _) as [[w [[ret err]|e]]| |].
  - intros w r H. destruct (loop _ _ _ _ _ _ _) as [[x [[ret err]|e]]| |] eqn:El; try done; injection H as <- <-;
      (split; [|done]); eapply leave_evolves, (loop_evolves fr jt Hjt); eauto.
Qed.

End Machine.

(** ** The entry points *)

(** Rules with their forks in order, and with the code size limit. *)
Record evmSafe `{U : Uint256} (evm : EVM) : Prop := {
  es_ok : evmOk evm;
  es_berlin : late (chainRules evm) = true -> Rules.IsBerlin (chainRules evm) = true;
  es_limit : Rules.IsSpuriousDragon (chainRules evm) && (negb (Rules.IsAura (chainRules evm)) || HasEip3860 evm) = true
}.

(** An execution from [s] that returns: at most the gas [g] is left, and the
    state is as sound as before. *)
Definition returnsWithin `{U : Uint256} `{E : @StateEnv U} {A B} (g : Z) (s : IntraBlockState)
  (r : outcome (vm * (A * Z * B + error))) : Prop :=
  match r with
  | Ok (w, inl (_, leftOver, _)) => 0 <= leftOver <= g /\ later s (ibs w)
  | _ => False
  end.

Section Entry.
Context `{U : Uint256} `{W : @Uint256Ops U} `{E : @StateEnv U}.
Variable codeOf : Hash -> list Z.
Variable evm : EVM.
Hypothesis Hevm : evmSafe evm.
Hypothesis HcodeOf : forall c, codeOf (Keccak256Hash c) = c.

Lemma maxFrames_flow : runnerFlows codeOf evm 1 (Run evm maxFrames).
Proof. destruct Hevm as [H1 H2 H3]. apply Run_flows; auto; unfold maxFrames, CallCreateDepth; lia. Qed.

Lemma outside_caches s : Analysis.caches_ok codeOf (contract (outside evm s)).
Proof. by split; cbn. Qed.

Lemma returns {A B} pre g s (m : vmM (A * Z * B)) :
  sound s -> flows codeOf pre (outside evm s) m (fun _ _ => True) (outside evm s) -> pre ->
  endsWithin g (m (outside evm s)) -> returnsWithin g s (m (outside evm s)).
Proof.
  intros S Hf Hp He. destruct Hf as [Hs Hr]; [reflexivity|]. specialize (Hs Hp). unfold safe, endsWithin, returnsWithin in *.
  destruct (m (outside evm s)) as [[w [[[ret left] err]|e]]| |]; try done. split; [done|].
  destruct (Hr w _ eq_refl) as [Hev _]. exact (goes_later _ _ S (ev_state _ _ _ Hev)).
Qed.

End Entry.


(** ** Example: a contract of the database that calls itself *)

Module SafeDemo.

#[local] Existing Instance Demo.demo_u256.
#[local] Existing Instance MachineDemo.demo_ops.

(** A hash without collisions. *)
#[local] Instance demo_env : StateEnv :=
  {| Keccak256Hash := fun l => Zpos (encode l); EncodeForStorage := fun acc => [Nonce acc mod 256] |}.

Definition codeOf (h : Hash) : list Z := match h with Zpos p => default [] (decode p) | _ => [] end.

Lemma codeOf_hash c : codeOf (Keccak256Hash c) = c.
Proof. cbn. by rewrite decode_encode. Qed.

Definition account (h : Hash) : StateAccount :=
  {| Initialised := true; Nonce := 3; Balance := uSetUint64 100; Root := 0; CodeHash := h; Incarnation := 1 |}.

(** Account 8 has the code of [MachineDemo]. *)
Definition reader : StateReader := {|
  ReadAccountData := fun a => if a =? 8 then (Some (account (Keccak256Hash MachineDemo.code)), None) else (None, None);
  ReadAccountStorage := fun _ _ _ => (None, None);
  ReadAccountCode := fun _ _ h => if h =? Keccak256Hash MachineDemo.code then (Some MachineDemo.code, None) else (None, None);
  ReadAccountCodeSize := fun _ _ _ => (Z.of_nat (length MachineDemo.code), None);
  ReadAccountIncarnation := fun _ => (1, None)
|}.

Definition s : IntraBlockState := AddAddressToAccessList (New reader) 8.

Lemma s_sound : sound s.
Proof.
  assert (sound (New reader)) as S.
  { apply New_sound. intros a inc h c err H. cbn [reader ReadAccountCode] in H.
    destruct (Z.eqb_spec h (Keccak256Hash MachineDemo.code)) as [->|]; [|done]. injection H as <- _. split; [done|]. by vm_compute. }
  exact (proj1 (goes_later _ _ S (goes_AddAddressToAccessList (New reader) 8))).
Qed.

Lemma evm_safe : evmSafe MachineDemo.evm.
Proof. split; [exact MachineDemo.evm_ok|done|done]. Qed.

End SafeDemo.

#[local] Existing Instance Demo.demo_u256.
#[local] Existing Instance MachineDemo.demo_ops.
#[local] Existing Instance SafeDemo.demo_env.

