(* ===== verification/EvmStorage.v ===== *)
(** * EvmStorage: what writing storage costs

    SSTORE as the interpreter runs it: the dynamic gas of the fork, then
    [opSstore] ([internal/vm/instructions.go]).  [storageFee] is the net gas
    metering that the three schedules (EIP-1283, EIP-2200, EIP-2929/3529)
    share, a function of the values of the slot before the transaction, now
    and after the store; [potential] says what a sequence of stores costs in
    the end. *)

From S2P Require Import Prelude Uint256 ChainConfig AccessList StateModel StateRevert StateJournal StateSnapshot Analysis EvmMemory Words EvmGas Instructions.

Section Definitions.
Context `{U : Uint256} `{E : @StateEnv U}.

(** One SSTORE of [value] at [key], with both pushed first: the cost. *)
Definition sstore (dynamicGas : Z -> vmM Z) (fr : Frame) (key value : u256) : vmM Z :=
  _ ← modify (fun v => set_stack (Stack.Push (Stack.Push (stack v) value) key) v);
  cost ← dynamicGas 0;
  ok ← useGas cost;
  if negb ok then throw ErrOutOfGas
  else _ ← opSstore fr; mret cost.

(** Stores of the values [l] in turn: the total cost. *)
Fixpoint sstores (dynamicGas : Z -> vmM Z) (fr : Frame) (key : u256) (l : list u256) : vmM Z :=
  match l with
  | [] => mret 0
  | x :: l =>
      cost ← sstore dynamicGas fr key x;
      rest ← sstores dynamicGas fr key l;
      mret (cost + rest)
  end.

(** ** The schedules *)

Record schedule := mkSchedule {
  warmCost : Z; (** no change, or not the first change of the transaction *)
  setCost : Z; (** the first change, from zero *)
  resetCost : Z; (** the first change, from a value *)
  clearRefund : Z (** for a value that becomes zero *)
}.

Definition eip1283 : schedule := mkSchedule 200 20000 5000 15000.
Definition eip2200 : schedule := mkSchedule 800 20000 5000 15000.
Definition eip2929 (clearingRefund : Z) : schedule := mkSchedule 100 20000 2900 clearingRefund.

(** Cost and change of the refund counter for a slot that held [o] before the
    transaction, holds [c] now and gets [v]. *)
Definition storageFee (sch : schedule) (o c v : Z) : Z * Z :=
  if c =? v then (warmCost sch, 0)
  else if o =? c then
    if o =? 0 then (setCost sch, 0)
    else (resetCost sch, if v =? 0 then clearRefund sch else 0)
  else
    (warmCost sch,
     (if o =? 0 then 0 else if c =? 0 then - clearRefund sch else if v =? 0 then clearRefund sch else 0) +
     (if o =? v then (if o =? 0 then setCost sch else resetCost sch) - warmCost sch else 0)).

(** What having changed the slot from [o] to [v] costs beyond the accesses,
    refunds counted. *)
Definition potential (sch : schedule) (o v : Z) : Z :=
  if v =? o then 0
  else if o =? 0 then setCost sch - warmCost sch
  else resetCost sch - warmCost sch - (if v =? 0 then clearRefund sch else 0).

(** The refund a slot in this condition has been given. *)
Definition credit (sch : schedule) (o c : Z) : Z :=
  if negb (o =? 0) && (c =? 0) then clearRefund sch else 0.

Record schedule_ok (sch : schedule) : Prop := {
  so_warm : 0 <= warmCost sch <= resetCost sch;
  so_set : resetCost sch <= setCost sch;
  so_small : setCost sch <= 20000;
  so_clear : 0 <= clearRefund sch <= 15000
}.

Ltac slot_cases :=
  repeat match goal with |- context [?a =? ?b] => destruct (Z.eqb_spec a b); subst; cbn [negb andb fst snd] end;
  try lia.

Lemma storageFee_potential sch o c v :
  (storageFee sch o c v).1 - (storageFee sch o c v).2 =
  warmCost sch + potential sch o v - potential sch o c.
Proof. unfold storageFee, potential. slot_cases. Qed.

Lemma storageFee_credit sch o c v :
  schedule_ok sch -> credit sch o v - credit sch o c <= (storageFee sch o c v).2.
Proof.
  intros []. unfold storageFee, credit. slot_cases.
Qed.

Lemma storageFee_range sch o c v :
  schedule_ok sch -> 0 <= (storageFee sch o c v).1 <= 20000 /\ -15000 <= (storageFee sch o c v).2 <= 35000.
Proof. intros []. unfold storageFee. slot_cases. Qed.

End Definitions.

(** ** Storage is steady under what the gas functions do *)

Section Steady.
Context `{U : Uint256} `{E : @StateEnv U}.
Implicit Types s t : IntraBlockState.

Definition originalOf s a k : u256 := reads (fun s o => committed s o k) uzero s a.
Definition currentOf s a k : u256 := reads (fun s o => stored s o k) uzero s a.

(** The account exists and its storage is not replaced for debugging. *)
Definition plain s (a : Address) : Prop :=
  exists o, load s a = Some o /\ deleted o = false /\ fakeStorage o = None.

Record steady s t : Prop := {
  st_inv : Inv t;
  st_original : forall a k, originalOf t a k = originalOf s a k;
  st_current : forall a k, currentOf t a k = currentOf s a k;
  st_plain : forall a, plain s a -> plain t a
}.

Lemma steady_refl s : Inv s -> steady s s.
Proof. by split. Qed.

Lemma steady_trans s t u : steady s t -> steady t u -> steady s u.
Proof. intros [] []. split; auto; intros; etrans; eauto. Qed.

Lemma plain_equiv s t a : equiv s t -> plain s a -> plain t a.
Proof.
  intros Q (o & Hl & Hd & Hf). pose proof (eq_objects _ _ Q a) as Ho. rewrite Hl in Ho. inv Ho.
  exists y. split; [done|]. split; [by rewrite <- (oe_deleted _ _ _ ltac:(eassumption))|].
  destruct (fakeStorage y) eqn:Ey; [|done].
  destruct (oe_fake _ _ _ ltac:(eassumption)) as [_ Hx]. rewrite Hf, Ey in Hx. by destruct Hx.
Qed.

Lemma quiet_steady s t : quiet s t -> steady s t.
Proof.
  intros Q. pose proof (q_equiv _ _ Q) as Qe. split; [apply Q|..].
  - intros a k. symmetry. apply reads_equiv; [done|]. intros o1 o2 He.
    rewrite (oe_committed _ _ _ He). by apply committed_source, Qe.
  - intros a k. symmetry. apply reads_equiv; [done|]. intros o1 o2 He.
    rewrite (oe_stored _ _ _ He). by apply stored_source, Qe.
  - intros a. by apply plain_equiv.
Qed.

(** Journal, refund counter, access list and saved error do not matter. *)
Lemma same_objects_steady s t :
  Inv t -> stateObjects t = stateObjects s -> stateReader t = stateReader s -> snap t = snap s -> steady s t.
Proof.
  intros I Ho Hr Hs.
  assert (forall a, load t a = load s a) as Hl by (intros a; unfold load; by rewrite Ho, Hr).
  assert (forall a i k, source t a i k = source s a i k) as Hk by (intros; unfold source; by rewrite Hs, Hr).
  split; auto.
  - intros a k. unfold originalOf, reads. rewrite Hl. case_match; [|done]. by apply committed_source.
  - intros a k. unfold currentOf, reads. rewrite Hl. case_match; [|done]. by apply stored_source.
  - intros a (o & H1 & H2). exists o. by rewrite Hl.
Qed.

Lemma step_Inv s t : (exists es, journalled s t es) -> Inv t.
Proof. intros [es H]. by eapply journalled_Inv. Qed.

Lemma AddRefund_steady s g : Inv s -> steady s (AddRefund s g).
Proof. intros I. apply same_objects_steady; [|done..]. by eapply step_Inv, AddRefund_step. Qed.

Lemma SubRefund_steady s g : Inv s -> steady s (SubRefund s g).
Proof.
  intros I. apply same_objects_steady; [by eapply step_Inv, SubRefund_step|..];
    unfold SubRefund, setError; cbn; case_match; cbn; try case_match; done.
Qed.

Lemma SubRefund_refund s g : refund (SubRefund s g) = refund s -u g.
Proof. unfold SubRefund, setError; cbn; case_match; cbn; try case_match; done. Qed.

Lemma SubRefund_accList s g : accList (SubRefund s g) = accList s.
Proof. unfold SubRefund, setError; cbn; case_match; cbn; try case_match; done. Qed.

Lemma GetState_steady s a k :
  Inv s -> exists t, GetState s a k = (t, currentOf s a k) /\ steady s t /\ refund t = refund s /\ accList t = accList s.
Proof.
  intros I. pose proof (GetState_quiet s a k I) as Q. pose proof (GetState_reads s a k I) as Hr.
  destruct (GetState s a k) as [t x]. cbn in *. exists t. split; [by rewrite Hr|].
  split; [by apply quiet_steady|]. split; symmetry; apply (q_equiv _ _ Q).
Qed.

Lemma GetCommittedState_steady s a k :
  Inv s -> exists t, GetCommittedState s a k = (t, originalOf s a k) /\ steady s t /\ refund t = refund s /\
    accList t = accList s.
Proof.
  intros I. pose proof (GetCommittedState_quiet s a k I) as Q. pose proof (GetCommittedState_reads s a k I) as Hr.
  destruct (GetCommittedState s a k) as [t x]. cbn in *. exists t. split; [by rewrite Hr|].
  split; [by apply quiet_steady|]. split; symmetry; apply (q_equiv _ _ Q).
Qed.

Lemma AddSlot_steady s a k :
  Inv s -> exists t, AddSlotToAccessList s a k = Some t /\ steady s t /\ refund t = refund s /\
    SlotInAccessList t a k = Some (true, true).
Proof.
  intros I. destruct (AddSlot_step s a k I) as (t & Ht & Hs). exists t. split; [done|].
  pose proof (step_Inv _ _ Hs) as It. unfold AddSlotToAccessList in Ht.
  destruct (AccessList.AddSlot (accList s) a k) as [[al [am sm]]|] eqn:Ea; [|done].
  cbn in Ht. simplify_eq.
  pose proof (AccessList.abs_AddSlot _ _ _ _ _ a (inv_accList _ I) Ea) as Hab.
  pose proof (AccessList.wf_AddSlot _ _ _ _ _ (inv_accList _ I) Ea) as W.
  split; [|split].
  - apply same_objects_steady; [done|by destruct am, sm..].
  - by destruct am, sm.
  - unfold SlotInAccessList.
    replace (accList _) with al by (by destruct am, sm).
    rewrite AccessList.Contains_abs, Hab by done. rewrite decide_True by done. cbn.
    do 2 f_equal. apply bool_decide_true. set_solver.
Qed.

End Steady.

(** ** What [SetState] changes *)

Section SetState.
Context `{U : Uint256} `{E : @StateEnv U}.
Implicit Types s t : IntraBlockState.

Record slot_set (a : Address) (k : Hash) (x : u256) s t : Prop := {
  ss_inv : Inv t;
  ss_plain : plain t a;
  ss_original : originalOf t a k = originalOf s a k;
  ss_current : currentOf t a k = x;
  ss_refund : refund t = refund s;
  ss_accList : accList t = accList s
}.

Lemma put_slot_set s o k x e :
  Inv s -> stateObjects s !! address o = Some o -> deleted o = false -> fakeStorage o = None ->
  slot_set (address o) k x s (put (append s e) (so_setState k x o)).
Proof.
  intros I Ho Hd Hf.
  assert (load s (address o) = Some o) as Hl by (unfold load; by rewrite Ho).
  assert (load (put (append s e) (so_setState k x o)) (address o) = Some (so_setState k x o)) as Hl1
    by (unfold load; cbn; by rewrite lookup_insert_eq).
  split; try done.
  - apply Inv_put; [by apply Inv_append|]. by destruct (inv_live _ I _ _ Ho).
  - eexists. split; [exact Hl1|]. by split.
  - unfold originalOf, reads. rewrite Hl1, Hl. cbn. by rewrite Hd.
  - unfold currentOf, reads. rewrite Hl1. cbn. rewrite Hd. unfold stored. cbn. by rewrite Hf, lookup_insert_eq.
Qed.

Lemma slot_set_quiet s t u a k x : quiet s t -> slot_set a k x t u -> slot_set a k x s u.
Proof.
  intros Q []. pose proof (quiet_steady _ _ Q) as St. split; auto.
  - rewrite ss_original0. apply St.
  - rewrite ss_refund0. symmetry. apply (q_equiv _ _ Q).
  - rewrite ss_accList0. symmetry. apply (q_equiv _ _ Q).
Qed.

Lemma plain_live s o : plain s (address o) -> stateObjects s !! address o = Some o -> deleted o = false /\ fakeStorage o = None.
Proof. intros (o' & Hl & Hd & Hf) Ho. unfold load in Hl. rewrite Ho in Hl. by simplify_eq. Qed.

Lemma SetState_slot s a k x : Inv s -> plain s a -> slot_set a k x s (SetState s a k x).
Proof.
  intros I P. unfold SetState, GetOrNewStateObject.
  destruct (getStateObject s a) as [s1 so] eqn:Eg.
  destruct (getStateObject_spec _ _ _ _ I Eg) as (Q & Hso & Hl).
  pose proof (st_plain _ _ (quiet_steady _ _ Q) a P) as P1. destruct P as (o0 & Hl0 & Hd0 & _).
  rewrite Hl0 in Hso. subst so. rewrite Hd0.
  specialize (Hl o0 eq_refl). destruct (inv_live _ (q_inv _ _ Q) _ _ Hl) as [Ha _]. subst a.
  apply (slot_set_quiet s s1); [done|]. pose proof (q_inv _ _ Q) as I1. clear Eg Q Hl0.
  destruct (plain_live _ _ P1 Hl) as [Hd Hf]. unfold so_SetState. rewrite Hf.
  destruct (so_GetState s1 o0 k) as [s2 prev] eqn:Eg.
  destruct (so_GetState_spec _ _ _ _ _ I1 Hl Eg) as (Q & Hp & [o2 Ho2]).
  pose proof (st_plain _ _ (quiet_steady _ _ Q) _ P1) as P2.
  pose proof (oe_address _ _ _ (quiet_live _ _ _ Q Hl _ Ho2)) as Ha2.
  apply (slot_set_quiet s1 s2); [done|].
  case_bool_decide as Hx.
  - split; try done; [apply Q|]. rewrite (st_current _ _ (quiet_steady _ _ Q)).
    unfold currentOf, reads. replace (load s1 (address o0)) with (Some o0) by (unfold load; by rewrite Hl).
    cbn. rewrite Hd. congruence.
  - unfold live. cbn. rewrite Ho2. cbn. rewrite Ha2 in *.
    destruct (plain_live _ _ P2 Ho2). apply put_slot_set; auto. apply Q.
Qed.

End SetState.

(** ** The gas functions charge the schedule *)

Section Metering.
Context `{U : Uint256} `{E : @StateEnv U}.
Variable addr : Address.
Implicit Types v w : vm.

(** The end of the three gas functions, after [current] has been read. *)
Definition netMeter (sch : schedule) (cost : Z) (key : Hash) (current value : u256) : vmM Z :=
  if uEq current value then mret (cost + warmCost sch)
  else
    original ← reading (fun s => GetCommittedState s addr key);
    if uEq original current then
      if uIsZero original then mret (cost + setCost sch)
      else _ ← when (uIsZero value) (addRefund (clearRefund sch)); mret (cost + resetCost sch)
    else
      _ ← when (negb (uIsZero original))
            (if uIsZero current then subRefund (clearRefund sch)
             else when (uIsZero value) (addRefund (clearRefund sch)));
      _ ← when (uEq original value)
            (if uIsZero original then addRefund (setCost sch - warmCost sch)
             else addRefund (resetCost sch - warmCost sch));
      mret (cost + warmCost sch).

(** [w] differs from [v] in caches, journal and refund counter only. *)
Record settled (delta : Z) v w : Prop := {
  se_steady : steady (ibs v) (ibs w);
  se_refund : refund (ibs w) = u64 (refund (ibs v) + delta);
  se_accList : accList (ibs w) = accList (ibs v);
  se_frame : w = set_ibs (ibs w) v
}.

Lemma settled_refund s v d g :
  settled d v (set_ibs s v) -> settled (d + g) v (set_ibs (AddRefund s g) v).
Proof.
  intros [H1 H2 H3 _]. cbn in *. split; cbn; auto.
  - eapply steady_trans; [done|]. apply AddRefund_steady, H1.
  - rewrite H2. unfold add64, u64. rewrite Zplus_mod_idemp_l. f_equal. lia.
Qed.

Lemma settled_subRefund s v d g :
  settled d v (set_ibs s v) -> settled (d - g) v (set_ibs (SubRefund s g) v).
Proof.
  intros [H1 H2 H3 _]. cbn [ibs set_ibs] in *. split; cbn [ibs set_ibs]; auto.
  - eapply steady_trans; [done|]. apply SubRefund_steady, H1.
  - rewrite SubRefund_refund, H2. unfold sub64, u64. rewrite Zminus_mod_idemp_l. f_equal. lia.
  - by rewrite SubRefund_accList.
Qed.

Lemma netMeter_charges sch cost key value v :
  Inv (ibs v) -> in_u64 (refund (ibs v)) ->
  let fee := storageFee sch (uval (originalOf (ibs v) addr key)) (uval (currentOf (ibs v) addr key)) (uval value) in
  exists w, netMeter sch cost key (currentOf (ibs v) addr key) value v = Ok (w, inl (cost + fee.1)) /\
    settled fee.2 v w.
Proof.
  intros I R. cbn zeta. unfold netMeter, storageFee, uEq, uIsZero.
  set (c := currentOf _ _ _). set (o := originalOf _ _ _).
  destruct (uval c =? uval value).
  { exists v. split; [done|]. split; [by apply steady_refl|cbn; rewrite Z.add_0_r; by rewrite u64_small|done|by destruct v]. }
  destruct (GetCommittedState_steady (ibs v) addr key I) as (s & Hs & St & Hr & Ha).
  fold o in Hs. unfold mbind, vmM_bind, reading. rewrite Hs.
  assert (settled 0 v (set_ibs s v)) as S0.
  { split; [done|cbn; rewrite Z.add_0_r, Hr; by rewrite u64_small|done|done]. }
  destruct (uval o =? uval c); [destruct (uval o =? 0)|].
  - exists (set_ibs s v). by split.
  - destruct (uval value =? 0); cbn; eexists; (split; [reflexivity|]); [|done].
    apply (settled_refund s v 0); done.
  - assert (exists s1, (when (negb (uval o =? 0))
        (if uval c =? 0 then subRefund (clearRefund sch)
         else when (uval value =? 0) (addRefund (clearRefund sch)))) (set_ibs s v) = Ok (set_ibs s1 v, inl tt) /\
      settled (if uval o =? 0 then 0 else if uval c =? 0 then - clearRefund sch
               else if uval value =? 0 then clearRefund sch else 0) v (set_ibs s1 v)) as (s1 & -> & S1).
    { destruct (uval o =? 0); [by exists s|]. destruct (uval c =? 0).
      - exists (SubRefund s (clearRefund sch)). split; [done|]. by apply (settled_subRefund s v 0).
      - destruct (uval value =? 0); [|by exists s].
        exists (AddRefund s (clearRefund sch)). split; [done|]. by apply (settled_refund s v 0). }
    destruct (uval o =? uval value); cbn [when negb].
    + destruct (uval o =? 0); (eexists; split; [reflexivity|]); by apply (settled_refund s1 v).
    + exists (set_ibs s1 v). split; [done|]. cbn [snd]. by rewrite Z.add_0_r.
Qed.

(** The gas functions with net metering, their schedules and whether they keep
    an access list. *)
Inductive metered : (Z -> vmM Z) -> schedule -> bool -> Prop :=
| metered_1283 rules :
    Rules.IsConstantinople rules = true -> Rules.IsPetersburg rules = false ->
    metered (gasSStore rules addr) eip1283 false
| metered_2200 : metered (gasSStoreEIP2200 addr) eip2200 false
| metered_2929 clearingRefund :
    0 <= clearingRefund <= 15000 -> metered (makeGasSStoreFunc addr clearingRefund) (eip2929 clearingRefund) true.

Lemma metered_ok gasf sch acl : metered gasf sch acl -> schedule_ok sch.
Proof. intros []; split; cbn; lia. Qed.

(** The account is in the access list; without it the function panics. *)
Definition listed (acl : bool) (s : IntraBlockState) (key : Hash) : Prop :=
  acl = true -> exists b, SlotInAccessList s addr key = Some (true, b).
Definition warm (acl : bool) (s : IntraBlockState) (key : Hash) : Prop :=
  acl = true -> SlotInAccessList s addr key = Some (true, true).

Definition coldCost (acl : bool) (s : IntraBlockState) (key : Hash) : Z :=
  if acl then match SlotInAccessList s addr key with Some (_, true) => 0 | _ => ColdSloadCostEIP2929 end else 0.

Record charged (delta : Z) (acl : bool) (key : Hash) v w : Prop := {
  ch_steady : steady (ibs v) (ibs w);
  ch_refund : refund (ibs w) = u64 (refund (ibs v) + delta);
  ch_warm : warm acl (ibs w) key;
  ch_frame : w = set_ibs (ibs w) v
}.

Lemma charged_after delta acl key v s w :
  steady (ibs v) s -> refund s = refund (ibs v) -> warm acl s key ->
  settled delta (set_ibs s v) w -> charged delta acl key v w.
Proof.
  intros Hs Hr Hw [H1 H2 H3 H4]. cbn [ibs set_ibs] in *. split.
  - by eapply steady_trans.
  - by rewrite H2, Hr.
  - intros Ha. unfold SlotInAccessList. rewrite H3. by apply Hw.
  - by rewrite H4.
Qed.

Lemma metered_charges gasf sch acl v key value st m :
  metered gasf sch acl -> Inv (ibs v) -> in_u64 (refund (ibs v)) ->
  stack v = key :: value :: st -> SstoreSentryGasEIP2200 < cgas v -> listed acl (ibs v) (uHash key) ->
  let fee := storageFee sch (uval (originalOf (ibs v) addr (uHash key)))
                            (uval (currentOf (ibs v) addr (uHash key))) (uval value) in
  exists w, gasf m v = Ok (w, inl (coldCost acl (ibs v) (uHash key) + fee.1)) /\
    charged fee.2 acl (uHash key) v w.
Proof.
  intros Hm I R Hst Hg Hl. cbn zeta.
  destruct (GetState_steady (ibs v) addr (uHash key) I) as (s & Hs & St & Hr & Ha).
  pose proof (st_inv _ _ St) as Is.
  assert (in_u64 (refund s)) as Rs by by rewrite Hr.
  assert (forall t, steady (ibs v) t -> refund t = refund (ibs v) -> warm acl t (uHash key) -> forall cost,
    exists w, netMeter sch cost (uHash key) (currentOf (ibs v) addr (uHash key)) value (set_ibs t v) =
      Ok (w, inl (cost + (storageFee sch (uval (originalOf (ibs v) addr (uHash key)))
                            (uval (currentOf (ibs v) addr (uHash key))) (uval value)).1)) /\
      charged (storageFee sch (uval (originalOf (ibs v) addr (uHash key)))
                            (uval (currentOf (ibs v) addr (uHash key))) (uval value)).2 acl (uHash key) v w) as Hnet.
  { intros t Ht Htr Hw cost.
    destruct (netMeter_charges sch cost (uHash key) value (set_ibs t v)) as (w & Hn & Hset);
      [apply Ht|cbn; by rewrite Htr|]. cbn [ibs set_ibs] in *.
    rewrite (st_current _ _ Ht), (st_original _ _ Ht) in *.
    exists w. split; [done|]. by eapply charged_after. }
  destruct Hm as [rules Hc Hp| |R0 HR].
  - destruct (Hnet s St Hr ltac:(done) 0) as (w & Hn & Hch). exists w. split; [|done].
    unfold gasSStore. rewrite (bind_inl _ _ v v value), (bind_inl _ _ v v key) by (apply back_at; by rewrite Hst).
    rewrite (bind_inl _ _ v (set_ibs s v) (currentOf (ibs v) addr (uHash key))) by (by apply reading_at).
    rewrite Hp, Hc. exact Hn.
  - destruct (Hnet s St Hr ltac:(done) 0) as (w & Hn & Hch). exists w. split; [|done].
    unfold gasSStoreEIP2200. rewrite (bind_inl _ _ v v (cgas v)) by done. rewrite (proj2 (Z.leb_gt _ _)) by done.
    rewrite (bind_inl _ _ v v value), (bind_inl _ _ v v key) by (apply back_at; by rewrite Hst).
    rewrite (bind_inl _ _ v (set_ibs s v) (currentOf (ibs v) addr (uHash key))) by (by apply reading_at).
    exact Hn.
  - unfold makeGasSStoreFunc. rewrite (bind_inl _ _ v v (cgas v)) by done. rewrite (proj2 (Z.leb_gt _ _)) by done.
    rewrite (bind_inl _ _ v v value), (bind_inl _ _ v v key) by (apply back_at; by rewrite Hst).
    rewrite (bind_inl _ _ v (set_ibs s v) (currentOf (ibs v) addr (uHash key))) by (by apply reading_at).
    destruct (Hl eq_refl) as [b Hb].
    assert (SlotInAccessList s addr (uHash key) = Some (true, b)) as Hbs
      by (unfold SlotInAccessList in *; by rewrite Ha).
    rewrite (bind_inl _ _ _ (set_ibs s v) (true, b)) by (cbn [ibs set_ibs]; by rewrite Hbs).
    unfold coldCost. rewrite Hb. destruct b.
    + destruct (Hnet s St Hr ltac:(intros _; done) 0) as (w & Hn & Hch). exists w. split; [exact Hn|done].
    + destruct (AddSlot_steady s addr (uHash key) Is) as (t & Hadd & St1 & Hr1 & Hw1).
      destruct (Hnet t ltac:(by eapply steady_trans) ltac:(by rewrite Hr1) ltac:(intros _; done) ColdSloadCostEIP2929)
        as (w & Hn & Hch). exists w. split; [|done].
      rewrite (bind_inl _ _ _ (set_ibs t v) ColdSloadCostEIP2929); [exact Hn|].
      rewrite (bind_inl _ _ _ (set_ibs t v) tt); [done|]. unfold writes_opt. cbn [ibs set_ibs]. by rewrite Hadd.
Qed.

Lemma coldCost_range acl s key : 0 <= coldCost acl s key <= 2100.
Proof. unfold coldCost, ColdSloadCostEIP2929. repeat case_match; lia. Qed.

Lemma coldCost_warm acl s key : warm acl s key -> coldCost acl s key = 0.
Proof. intros H. unfold coldCost. destruct acl; [by rewrite H|done]. Qed.

(** A frame between two stores to [key]: the refund counter covers what has been
    given for the slot, and there is gas and room for [n] more stores. *)
Record storing (sch : schedule) (acl : bool) (key : Hash) (n : nat) v : Prop := {
  sg_inv : Inv (ibs v);
  sg_plain : plain (ibs v) addr;
  sg_listed : listed acl (ibs v) key;
  sg_credit : credit sch (uval (originalOf (ibs v) addr key)) (uval (currentOf (ibs v) addr key)) <= refund (ibs v);
  sg_refund : 0 <= refund (ibs v) /\ refund (ibs v) + 35000 * Z.of_nat n < two64;
  sg_gas : 2300 + 22100 * Z.of_nat n < cgas v < two64
}.

Lemma sstore_charges fr gasf sch acl key x n v :
  self fr = addr -> readOnly fr = false ->
  metered gasf sch acl -> storing sch acl (uHash key) (S n) v ->
  let o := originalOf (ibs v) addr (uHash key) in
  let fee := storageFee sch (uval o) (uval (currentOf (ibs v) addr (uHash key))) (uval x) in
  let cost := coldCost acl (ibs v) (uHash key) + fee.1 in
  exists w, sstore gasf fr key x v = Ok (w, inl cost) /\
    storing sch acl (uHash key) n w /\ warm acl (ibs w) (uHash key) /\
    originalOf (ibs w) addr (uHash key) = o /\ currentOf (ibs w) addr (uHash key) = x /\
    refund (ibs w) = refund (ibs v) + fee.2 /\ cgas w = cgas v - cost /\ stack w = stack v.
Proof.
  intros Hself Hro Hm [I P L C [R0 R1] G]. cbn zeta. pose proof (metered_ok _ _ _ Hm) as Hok.
  set (o := originalOf _ _ _) in *. set (c := currentOf _ _ _) in *.
  pose proof (storageFee_credit sch (uval o) (uval c) (uval x) Hok) as Hc.
  pose proof (storageFee_range sch (uval o) (uval c) (uval x) Hok) as [F1 F2].
  pose proof (coldCost_range acl (ibs v) (uHash key)) as F3.
  assert (0 <= credit sch (uval o) (uval x)) as F4.
  { destruct Hok. unfold credit. case_match; lia. }
  set (v1 := set_stack (key :: x :: stack v) v).
  destruct (metered_charges gasf sch acl v1 key x (stack v) 0 Hm I) as (w & Hw & [St Hr Hwarm Hf]);
    [unfold in_u64; cbn; lia|done|cbn; unfold SstoreSentryGasEIP2200; lia|done|].
  cbn [v1 ibs set_stack] in *. fold o c in Hw, Hr.
  set (fee := storageFee sch _ _ _) in *. set (cost := coldCost _ _ _ + fee.1) in *.
  assert (0 <= cost <= 22100) as F5 by (subst cost; lia).
  assert (SetState_ok := SetState_slot (ibs w) addr (uHash key) x (st_inv _ _ St) (st_plain _ _ St _ P)).
  destruct SetState_ok as [I2 P2 Ho2 Hc2 Hr2 Ha2].
  rewrite u64_small in Hr by (unfold in_u64; lia).
  exists (set_stack (stack v) (set_cgas (cgas v - cost) (set_ibs (SetState (ibs w) addr (uHash key) x) w))).
  split.
  { unfold sstore. rewrite (bind_inl _ _ _ v1 tt) by done. rewrite (bind_inl _ _ _ _ _ Hw).
    assert (cgas w = cgas v) as Hgw by by rewrite Hf.
    assert (stack w = key :: x :: stack v) as Hsw by by rewrite Hf.
    rewrite (bind_inl _ _ _ (set_cgas (cgas v - cost) w) true).
    2: { unfold useGas. rewrite Hgw, (proj2 (Z.ltb_ge _ _)) by lia. rewrite sub64_small by (unfold in_u64; lia). done. }
    cbn [negb]. unfold opSstore, pop, mbind, vmM_bind. rewrite Hro, Hself. cbn. by rewrite Hsw. }
  assert (warm acl (SetState (ibs w) addr (uHash key) x) (uHash key)) as Hw2.
  { intros Ea. unfold SlotInAccessList. rewrite Ha2. by apply Hwarm. }
  cbn [ibs set_stack set_cgas set_ibs cgas stack]. rewrite Hr2, Hr, Ho2, (st_original _ _ St).
  split_and!; try done.
  split; cbn [ibs set_stack set_cgas set_ibs cgas]; auto.
  - intros Ea. eauto.
  - rewrite Ho2, Hc2, (st_original _ _ St), Hr2, Hr. fold o. lia.
  - rewrite Hr2, Hr. lia.
  - lia.
Qed.

End Metering.

(** C33: net gas metering of SSTORE, for EIP-1283, EIP-2200 and EIP-2929/3529: any
    sequence of stores to one slot, in a frame with enough gas, runs to its
    end, leaves the last value in the slot, and costs, refunds counted, one
    access for each store, the cold access of the first, and the price of the
    change from the value before the transaction to the last value; what was
    stored in between does not matter.  The refund counter never goes below
    what is given for the slot, so it never wraps. *)
Theorem net_metering `{U : Uint256} `{E : @StateEnv U} fr gasf sch acl key l v :
  let addr := self fr in
  readOnly fr = false -> metered addr gasf sch acl -> storing addr sch acl (uHash key) (length l) v ->
  let o := originalOf (ibs v) addr (uHash key) in
  let c := currentOf (ibs v) addr (uHash key) in
  let final := foldl (fun _ x => x) c l in
  exists w total, sstores gasf fr key l v = Ok (w, inl total) /\
    currentOf (ibs w) addr (uHash key) = final /\
    total - (refund (ibs w) - refund (ibs v)) =
      (match l with [] => 0 | _ => coldCost addr acl (ibs v) (uHash key) end) +
      Z.of_nat (length l) * warmCost sch + potential sch (uval o) (uval final) - potential sch (uval o) (uval c) /\
    credit sch (uval o) (uval final) <= refund (ibs w) /\ cgas w = cgas v - total /\ stack w = stack v.
Proof.
  intros addr Hro Hm. revert v. induction l as [|x l IH]; intros v S; cbn zeta; cbn [foldl].
  { exists v, 0. split_and!; try done; [|apply S|]; cbn [length]; lia. }
  destruct (sstore_charges addr fr gasf sch acl key x (length l) v eq_refl Hro Hm S)
    as (w1 & Hw1 & S1 & Hwarm & Ho & Hc & Hr & Hg & Hst).
  destruct (IH w1 S1) as (w & total & Hw & Hcur & Htot & Hcr & Hgw & Hsw).
  cbn zeta in Htot, Hcr, Hcur. rewrite Ho, Hc in *. rewrite (coldCost_warm _ _ _ _ Hwarm) in Htot.
  pose proof (storageFee_potential sch (uval (originalOf (ibs v) addr (uHash key)))
    (uval (currentOf (ibs v) addr (uHash key))) (uval x)) as Hp.
  eexists w, _. split; [|split_and!; [done| |done| |by rewrite Hsw]].
  - cbn [sstores]. rewrite (bind_inl _ _ _ _ _ Hw1), (bind_inl _ _ _ _ _ Hw). reflexivity.
  - destruct l; cbn [length] in *; lia.
  - lia.
Qed.

#[local] Existing Instance Demo.demo_u256.
#[local] Existing Instance Demo.demo_env.

Definition demoVm : vm :=
  {| ibs := Demo.s0; callGasTemp := 0; returnData := []; cgas := 100000; mem := Memory.NewMemory; stack := [];
     pc := 0; contract := {| Analysis.Code := []; Analysis.CodeHash := 0; Analysis.jumpdests := ∅;
                             Analysis.analysis := None; Analysis.skipAnalysis := false |} |}.

Definition demoFrame : Frame :=
  {| CallerAddress := 1; self := 7; Input := []; value := uzero; readOnly := false; depth := 1 |}.

Lemma demo_storing : storing 7 eip2200 false 1 2 demoVm.
Proof.
  split; cbn [ibs demoVm cgas].
  - apply Demo.s0_Inv.
  - eexists. split; [reflexivity|]. by split.
  - intros [=].
  - apply Z.leb_le. vm_compute. reflexivity.
  - split; [done|]. apply Z.ltb_lt. vm_compute. reflexivity.
  - split; [done|]. apply Z.ltb_lt. vm_compute. reflexivity.
Qed.

(** Clearing a slot that held 5 and writing 5 again costs two accesses. *)
Lemma net_metering_witness :
  exists w total, sstores (gasSStoreEIP2200 7) demoFrame (uSetUint64 1) [uzero; uSetUint64 5] demoVm = Ok (w, inl total) /\
    total - refund (ibs w) = 1600.
Proof.
  destruct (net_metering demoFrame (gasSStoreEIP2200 7) eip2200 false (uSetUint64 1) [uzero; uSetUint64 5] demoVm)
    as (w & total & Hw & _ & Ht & _).
  - reflexivity.
  - constructor.
  - exact demo_storing.
  - exists w, total. split; [exact Hw|]. cbn zeta in Ht.
    replace (refund (ibs demoVm)) with 0 in Ht by reflexivity. rewrite Z.sub_0_r in Ht. rewrite Ht.
    vm_compute. reflexivity.
Defined.
